(* ===== verification/_CoqProject ===== *)
-Q . S2P
Prelude.v
Text.v
Dns.v
Bytes.v
Base64.v
Tar.v
Entities.v
Cache.v
Dynamo.v
Store.v
Demo.v
Kubernetes.v
Listing.v
Catalogue.v
StoreGroups.v
StoreUsers.v
StoreMembership.v
StoreClusters.v
StoreAccess.v
Staleness.v
StoreInstances.v
StoreSecrets.v
StoreMonCreds.v
StoreVolumes.v
StoreApplications.v
Directory.v
Federation.v
Http.v
Geocoder.v
UserCommands.v
GroupCommands.v
ClusterCommands.v
ClusterAccess.v
CredentialCommands.v
SecretCommands.v
VolumeCommands.v
ApplicationCommands.v
InstanceCommands.v
InstanceDetails.v
ClusterStatus.v
ClusterLifecycle.v
Server.v
Service.v
Authorization.v
ClusterRemoval.v
ClusterRequests.v
Vault.v
Custody.v
Secrecy.v
ClusterCreation.v
Claims.v
Installations.v
Lifecycle.v
ClusterDeletion.v
Installing.v
Sample.v
SecretSample.v
ClaimSample.v
InstanceSample.v
ClusterSample.v
