(* ===== verification/Prelude.v ===== *)
(** The server of SLATE (src/), verified: the state and the operations of its store, the
    handlers of its requests, and the codecs and tools these use.

    * The program

    The server answers HTTP requests about users, groups, clusters, applications, instances,
    secrets, volume claims and monitoring credentials. A handler ([*Commands.cpp])
    authenticates the user, unpacks the JSON body, checks what the user may do, asks or tells
    the store, and drives kubectl and helm on the clusters. The store ([PersistentStore.cpp])
    is a set of DynamoDB tables behind caches of expiring records in concurrent maps; several
    servers may share the tables. Most of what can go wrong is there: caches that contradict
    the tables, authority that is not checked, records left behind when a tool fails.

    * The model

    A C++ function becomes a computation [M W A := W → Res A * W] of this file, which returns,
    throws, or runs out of fuel, and keeps its changes when it throws. [World] (Store.v) is the
    state: the database, the caches and their counters, the files, the readings of the clock.
    The definitions have the names of the source; where a handler is called like the operation
    of the store that it calls, the latter is written with its file. The parts:

    - Text.v (Utilities.cpp, ServerUtilities.cpp), Bytes.v, Base64.v and Tar.v (Archive.cpp):
      strings as C++ has them, with reads outside a buffer as failures.
    - Entities.v (Entities.h, Entities.cpp), Cache.v (CacheRecord, concurrent_multimap.h).
    - Dynamo.v: the client of the database as a class of operations, with the laws the server
      relies on and an in-memory instance with faults and pages.
    - Store.v, Listing.v, Catalogue.v: the state of PersistentStore, and what its listings and
      its caches by category have in common, proved once against interfaces of laws.
    - StoreGroups.v, StoreUsers.v, StoreMembership.v, StoreClusters.v, StoreAccess.v,
      StoreInstances.v, StoreSecrets.v, StoreMonCreds.v, StoreVolumes.v, StoreApplications.v:
      PersistentStore.cpp, an invariant and a specification for each kind of record.
    - Dns.v (DNSManipulator.cpp), Geocoder.v, Kubernetes.v (KubeInterface.cpp, FileHandle.cpp):
      the tools, on top of a parameter that stands for what is outside of the process.
    - Http.v and UserCommands.v, GroupCommands.v, ClusterCommands.v, CredentialCommands.v,
      SecretCommands.v, VolumeCommands.v, ApplicationCommands.v, InstanceCommands.v,
      InstanceDetails.v, ClusterStatus.v, ClusterLifecycle.v: the handlers. Server.v and
      Service.v have the routes (slate_service.cpp).

    The abstract state is in Directory.v (users, groups, members) and Federation.v (with the
    clusters, the grants, the applications and the credentials), as predicates on the tables,
    with the actions that a request may take on behalf of a user. Vault.v adds the records that
    are kept for a group on a cluster, behind the class [Ward] whose instances are the
    application instances, the secrets and the volume claims; Custody.v proves once how the
    handlers look such a record up, check, add and remove it.

    * What the theorems show

    - The store: every operation keeps the caches coherent with the table ([GroupsInv],
      [ClustersInv], [KindInv], ... joined in [ServerInv], [FedInv], [VaultInv] and [House]) and
      does what it says, errors of the database included. Staleness.v: what another server has
      changed is seen once the cached answers have expired. StoreMonCreds.v: however servers
      interleave, a credential is allocated once.
    - The requests about users, groups, access and credentials refine the actions of the
      abstract federation (Service.v), succeed only with the authority they take
      (Authorization.v), and no sequence of them lets a user gain rights or touch what is
      somebody else's.
    - Secrecy.v, Claims.v, Installations.v, Lifecycle.v and Installing.v: who may see, create,
      change and delete secrets, claims and instances; what is in the store afterwards, when a
      tool fails too; the temporary files of secrets; the end of waiting for kubectl.
    - ClusterRequests.v, ClusterCreation.v, ClusterRemoval.v and ClusterDeletion.v: clusters are
      registered, changed and deleted only by those who may; a registration that fails is
      undone; a deletion touches nothing of other clusters and leaves no instance and no secret.
    - Round trips and bounds: base64, tar, encrypted secrets, credentials and quantities as
      text, quoting for the shell; where C++ would go out of bounds the model fails, and the
      theorems say when.

    Sample.v, SecretSample.v, ClaimSample.v, InstanceSample.v and ClusterSample.v apply the
    theorems to a small federation on the in-memory database (Demo.v), where the handlers are
    run.

    * Fuel and bounds

    Scans take as fuel a number of pages; [pages_left] says how many there are, and more than
    that is enough. Taking a free credential takes one round for each server that gets in
    between, and at least one. The loops over texts and archives take fuel from the length of
    their input. Waiting for the objects of a release ends within [maxPolls] (14) looks, for
    the service of helm within [maxLooks] (241). Integers have the width of the source where it
    matters: sizes and modes of tar headers, bits of base64, quantities with suffixes.

    * Assumptions

    - The database: the laws of [DynamoLaws]. A request may fail at any time; [healthy] is a
      service on which none does, and what is stated only for it says so. The results of a
      query fit in one page. The empty strings and sets that DynamoDB refuses are taken.
    - libcuckoo makes each operation on a key atomic. A request is one sequence of steps;
      interleavings are modelled for the allocation of credentials and for several servers.
      Tasks of std::async run to their end one after the other when they are started, and what
      they throw is thrown when their result is asked for.
    - JSON (rapidjson), YAML, HTTP, Route 53, scrypt, child processes and the files they see,
      the clock, time stamps and new IDs are parameters; new IDs and tokens are arguments of
      the handlers. The classes of laws ([ProcessLaws], [Route53Laws], [NetLaws], [DiskLaws],
      [ScryptLaws], ...) have instances in Demo files. An assertion of rapidjson is the reply
      [AssertionFailed], or an exception where it happens below a handler. Exceptions are kept
      by their message; [runtime_error] tells those that the handlers catch.
    - IDs of clusters have the same length and no colon, as IDGenerator makes them
      ([cluster_id], [group_id]); the rows of grants name groups ([guests_proper]).

    * What is not modelled

    Log messages and telemetry have no effect on the state. Not modelled either: the creation
    of the tables, loadEncryptionKey and getStatistics, option parsing and signals; the
    multiplex request, which runs others in threads; installAdHocApplication, which unpacks an
    archive into a directory; gzip, extraction to the file system; findAll and replaceString;
    the deletion of configuration files that are replaced; Process.cpp, HTTPRequests.cpp, the
    command line client, the stress test and vendored code. *)

From stdpp Require Export base tactics decidable strings gmap list list_monad sorting numbers.
From Stdlib Require Ascii.
Export (notations) Stdlib.Strings.Ascii.
Export Stdlib.Strings.Ascii (ascii(..), ascii_dec).
Delimit Scope char_scope with char.

(** * The result of running a piece of server code *)

(** A C++ function returns a value, throws an exception (only the message of
    [what()] is kept: every handler of the code base catches by
    [std::runtime_error] or [std::exception] and prints it), or - for a loop
    modelled with fuel - has not finished within the fuel. *)
Inductive Res (A : Type) : Type :=
  | Ok (a : A)
  | Throw (what : string)
  | OutOfFuel.
Arguments Ok {A} a.
Arguments Throw {A} what.
Arguments OutOfFuel {A}.

#[export] Instance Res_eq_dec {A} `{EqDecision A} : EqDecision (Res A).
Proof. solve_decision. Defined.

Definition res_map {A B} (f : A → B) (r : Res A) : Res B :=
  match r with Ok a => Ok (f a) | Throw e => Throw e | OutOfFuel => OutOfFuel end.

Definition is_ok {A} (r : Res A) : bool :=
  match r with Ok _ => true | _ => false end.

#[export] Instance Res_ret : MRet Res := @Ok.
#[export] Instance Res_bind : MBind Res := λ A B k r,
  match r with Ok a => k a | Throw e => Throw e | OutOfFuel => OutOfFuel end.

(** * Stateful computations that may throw

    The state survives an exception: a C++ object keeps whatever was stored
    into it before the [throw]. *)
Definition M (W A : Type) : Type := W → Res A * W.

Section monad.
Context {W : Type}.

#[global] Instance M_ret : MRet (M W) := λ A a w, (Ok a, w).
#[global] Instance M_bind : MBind (M W) := λ A B k m w,
  match m w with
  | (Ok a, w') => k a w'
  | (Throw e, w') => (Throw e, w')
  | (OutOfFuel, w') => (OutOfFuel, w')
  end.

Definition throw {A} (e : string) : M W A := λ w, (Throw e, w).
Definition out_of_fuel {A} : M W A := λ w, (OutOfFuel, w).
Definition gets {A} (f : W → A) : M W A := λ w, (Ok (f w), w).
Definition modify (f : W → W) : M W unit := λ w, (Ok tt, f w).
Definition lift {A} (r : Res A) : M W A := λ w, (r, w).

(** [for (x : l) body(x)] *)
Fixpoint for_each {A} (l : list A) (body : A → M W unit) : M W unit :=
  match l with
  | [] => mret tt
  | x :: l => _ ← body x; for_each l body
  end.

(** A loop over [l] that computes one result per element, as
    [results.push_back(...)] does. *)
Fixpoint for_collect {A B} (l : list A) (body : A → M W B) : M W (list B) :=
  match l with
  | [] => mret []
  | x :: l => y ← body x; ys ← for_collect l body; mret (y :: ys)
  end.

(** A loop that keeps the elements for which the test, run in order, holds. *)
Fixpoint for_filter {A} (l : list A) (test : A → M W bool) : M W (list A) :=
  match l with
  | [] => mret []
  | x :: l =>
      b ← test x;
      ys ← for_filter l test;
      mret (if b : bool then x :: ys else ys)
  end.
End monad.

(** * Weakest preconditions *)

Definition wp {W A} (m : M W A) (Q : Res A → W → Prop) (w : W) : Prop :=
  Q (m w).1 (m w).2.

(** What the continuation must satisfy after a step ended with [r]. *)
Definition wp_k {W A B} (k : A → M W B) (Q : Res B → W → Prop) (r : Res A) (w : W) : Prop :=
  match r with
  | Ok a => wp (k a) Q w
  | Throw e => Q (Throw e) w
  | OutOfFuel => Q OutOfFuel w
  end.

Lemma wp_ret {W A} (a : A) Q (w : W) : wp (mret a) Q w ↔ Q (Ok a) w.
Proof. done. Qed.

Lemma wp_bind {W A B} (m : M W A) (k : A → M W B) Q w :
  wp (m ≫= k) Q w ↔ wp m (wp_k k Q) w.
Proof.
  unfold wp, mbind, M_bind. destruct (m w) as [[a|e|] w']; done.
Qed.

(** A last step can be seen as followed by nothing. *)
Lemma wp_last {W A} (m : M W A) Q w : wp (m ≫= mret) Q w → wp m Q w.
Proof. unfold wp, mbind, M_bind. by destruct (m w) as [[a|e|] w']. Qed.

(** A step whose result is known. *)
Lemma wp_run {W A B} (m : M W A) (k : A → M W B) Q w a w' :
  m w = (Ok a, w') → wp (k a) Q w' → wp (m ≫= k) Q w.
Proof. unfold wp, mbind, M_bind. by intros ->. Qed.

Lemma wp_mono {W A} (m : M W A) (Q Q' : Res A → W → Prop) w :
  (∀ r w', Q r w' → Q' r w') → wp m Q w → wp m Q' w.
Proof. unfold wp. auto. Qed.

Lemma wp_k_mono {W A B} (k : A → M W B) (Q : Res B → W → Prop)
    (P : Res A → W → Prop) :
  (∀ a w, P (Ok a) w → wp (k a) Q w) →
  (∀ e w, P (Throw e) w → Q (Throw e) w) →
  (∀ w, P OutOfFuel w → Q OutOfFuel w) →
  ∀ r w, P r w → wp_k k Q r w.
Proof. intros H1 H2 H3 [a|e|] w; simpl; auto. Qed.

(** The usual way to use a specification of a callee: its postcondition implies
    the precondition of what follows, and the postcondition on errors. *)
Lemma wp_seq {W A B} (P : Res A → W → Prop) (m : M W A) (k : A → M W B) Q w :
  wp m P w →
  (∀ a w', P (Ok a) w' → wp (k a) Q w') →
  (∀ e w', P (Throw e) w' → Q (Throw e) w') →
  (∀ w', P OutOfFuel w' → Q OutOfFuel w') →
  wp (m ≫= k) Q w.
Proof.
  intros Hm H1 H2 H3. apply wp_bind. revert Hm. apply wp_mono.
  by apply wp_k_mono.
Qed.

Lemma bind_ret {W A B} (a : A) (k : A → M W B) : mret a ≫= k = k a.
Proof. reflexivity. Qed.

(** The result is what the computation returns. *)
Lemma wp_result {W A} (m : M W A) (Q : Res A → W → Prop) w :
  wp m Q w → wp m (λ r w', Q r w' ∧ r = (m w).1) w.
Proof. done. Qed.

(** ** Frames: the part [f] of the state a computation leaves alone *)

Definition frame {W X A} (f : W → X) (m : M W A) : Prop :=
  ∀ w, f (m w).2 = f w.

(** ** Preservation of a predicate on the state, whatever the result *)

Definition preserves {W A} (I : W → Prop) (m : M W A) : Prop :=
  ∀ w, I w → I (m w).2.

Create HintDb slate.

Section frames.
Context {W X : Type} (f : W → X).
Local Abbreviation frame := (frame f).

Lemma frame_ret {A} (a : A) : frame (mret a).
Proof. done. Qed.
Lemma frame_throw {A} e : frame (throw (A:=A) e).
Proof. done. Qed.
Lemma frame_out_of_fuel {A} : frame (out_of_fuel (A:=A)).
Proof. done. Qed.
Lemma frame_lift {A} (r : Res A) : frame (lift r).
Proof. done. Qed.
Lemma frame_gets {A} (g : W → A) : frame (gets g).
Proof. done. Qed.
Lemma frame_modify g : (∀ w, f (g w) = f w) → frame (modify g).
Proof. intros H w. apply H. Qed.
Lemma frame_bind {A B} (m : M W A) (k : A → M W B) :
  frame m → (∀ a, frame (k a)) → frame (m ≫= k).
Proof.
  intros Hm Hk w. unfold mbind, M_bind. specialize (Hm w).
  destruct (m w) as [[a|e|] w']; simpl in *; [|done..]. by rewrite Hk.
Qed.
Lemma frame_for_each {A} (l : list A) body :
  (∀ x, frame (body x)) → frame (for_each l body).
Proof.
  intros Hb. induction l as [|x l IH]; simpl; [done|].
  by apply frame_bind.
Qed.
Lemma frame_for_collect {A B} (l : list A) (body : A → M W B) :
  (∀ x, frame (body x)) → frame (for_collect l body).
Proof.
  intros Hb. induction l as [|x l IH]; simpl; [done|].
  apply frame_bind; [done|]. intros. by apply frame_bind.
Qed.
Lemma frame_for_filter {A} (l : list A) test :
  (∀ x, frame (test x)) → frame (for_filter l test).
Proof.
  intros Hb. induction l as [|x l IH]; simpl; [done|].
  apply frame_bind; [done|]. intros. by apply frame_bind.
Qed.
End frames.

#[export] Hint Resolve frame_ret frame_throw frame_out_of_fuel frame_lift
  frame_gets : slate.

(** Proves that a computation leaves a part of the state alone by following the
    structure of the computation; the frames of the functions it calls come
    from the hint database. *)
Ltac solve_frame :=
  repeat first
    [ progress intros
    | lazymatch goal with |- frame _ (mbind _ _) => apply frame_bind end
    | solve [auto with slate]
    | apply frame_bind
    | apply frame_for_each
    | apply frame_for_collect
    | apply frame_for_filter
    | apply frame_modify; intros; reflexivity
    | case_match ].

Section preserves.
Context {W : Type} (I : W → Prop).
Local Abbreviation preserves := (preserves I).

Lemma preserves_bind {A B} (m : M W A) (k : A → M W B) :
  preserves m → (∀ a, preserves (k a)) → preserves (m ≫= k).
Proof.
  intros Hm Hk w Hw. unfold mbind, M_bind. specialize (Hm w Hw).
  destruct (m w) as [[a|e|] w']; simpl in *; [|done..]. by apply Hk.
Qed.

(** A computation that does not touch the part of the state an invariant is
    about preserves the invariant. *)
Lemma preserves_frame {X A} (f : W → X) (J : X → Prop) (m : M W A) :
  (∀ w, I w ↔ J (f w)) → frame f m → preserves m.
Proof. intros HIJ Hf w. rewrite !HIJ, Hf. done. Qed.

Lemma wp_preserves {A} (m : M W A) w :
  preserves m → I w → wp m (λ _ w', I w') w.
Proof. intros Hm. apply Hm. Qed.
End preserves.

(** * [std::string] operations

    A [std::string] is a [string], one [ascii] per [char]. *)

#[global] Arguments String.append !s1 s2 / : simpl nomatch.

(** [s.find_first_of]-like search: the index of the first character that
    satisfies [p]; [None] is [npos]. *)
Fixpoint find_first (p : ascii → bool) (s : string) : option nat :=
  match s with
  | EmptyString => None
  | String c s => if p c then Some 0 else S <$> find_first p s
  end.

(** [s.substr(0,n)] *)
Fixpoint str_take (n : nat) (s : string) : string :=
  match n, s with
  | S n, String c s => String c (str_take n s)
  | _, _ => EmptyString
  end.

(** [s.substr(n)], for [n <= s.size()] (C++ throws [out_of_range] beyond). *)
Fixpoint str_drop (n : nat) (s : string) : string :=
  match n, s with
  | S n, String c s => str_drop n s
  | _, _ => s
  end.

(** [s.find(p)==0] *)
Definition begins_with (s p : string) : bool := String.prefix p s.

Definition char_is (c d : ascii) : bool := bool_decide (c = d).

(** The number of characters, [s.size()]; [length] is kept for lists. *)
Abbreviation str_size := String.length.

Definition str_empty (s : string) : bool :=
  match s with EmptyString => true | _ => false end.

Lemma str_take_drop n s : str_take n s +:+ str_drop n s = s.
Proof. revert s. induction n as [|n IH]; intros [|c s]; simpl; [done..|]. by rewrite IH. Qed.

Lemma str_app_nil_r s : s +:+ "" = s.
Proof. induction s; simpl; congruence. Qed.

Lemma str_app_assoc s t u : (s +:+ t) +:+ u = s +:+ t +:+ u.
Proof. induction s; simpl; congruence. Qed.

Lemma str_size_app s t : str_size (s +:+ t) = str_size s + str_size t.
Proof. induction s; simpl; congruence. Qed.

Lemma str_app_inj_l s t u : s +:+ t = s +:+ u → t = u.
Proof. induction s; simpl; [done|]. intros. simplify_eq. auto. Qed.

Lemma str_app_inj s s' t t' :
  str_size s = str_size s' → s +:+ t = s' +:+ t' → s = s' ∧ t = t'.
Proof.
  revert s'. induction s as [|c s IH]; intros [|c' s']; simpl; try done.
  intros Hlen Heq. simplify_eq. edestruct (IH s'); [lia|done|]. by subst.
Qed.

(** [s.back()] *)
Fixpoint str_back (s : string) : option ascii :=
  match s with
  | EmptyString => None
  | String c EmptyString => Some c
  | String _ s => str_back s
  end.

Lemma str_back_app x c : str_back (x +:+ String c "") = Some c.
Proof. induction x as [|a x IH]; [done|]. simpl. rewrite IH. by destruct x. Qed.

Lemma str_back_ne s c : bool_decide (str_back s = Some c) = false → ∀ x, s ≠ x +:+ String c "".
Proof. intros Hs%bool_decide_eq_false x ->. by rewrite str_back_app in Hs. Qed.

Lemma str_take_app s t : str_take (str_size s) (s +:+ t) = s.
Proof. induction s; simpl; [by destruct t|congruence]. Qed.

Lemma str_drop_app s t : str_drop (str_size s) (s +:+ t) = t.
Proof. induction s; simpl; [by destruct t|done]. Qed.

Lemma str_drop_size n s : str_size (str_drop n s) = str_size s - n.
Proof. revert s. induction n; intros [|c s]; simpl; auto. Qed.

Lemma str_take_size n s : n ≤ str_size s → str_size (str_take n s) = n.
Proof. revert s. induction n; intros [|c s]; simpl; auto with lia. Qed.

Lemma str_empty_false s : 0 < str_size s → str_empty s = false.
Proof. destruct s; simpl; [lia|done]. Qed.

(** A double quote, which string literals avoid. *)
Definition dquote : string :=
  String (Ascii false true false false false true false false) EmptyString.

(** All characters of a string satisfy a predicate. *)
Fixpoint str_all (p : ascii → bool) (s : string) : bool :=
  match s with EmptyString => true | String c s => p c && str_all p s end.

Lemma str_all_app p s t : str_all p (s +:+ t) = str_all p s && str_all p t.
Proof. induction s; simpl; [done|]. rewrite IHs. by rewrite andb_assoc. Qed.

Lemma find_first_none p s :
  find_first p s = None ↔ str_all (λ c, negb (p c)) s = true.
Proof.
  induction s as [|c s IH]; simpl; [done|].
  destruct (p c); simpl; [done|]. destruct (find_first p s); simpl.
  - rewrite <- IH. done.
  - rewrite <- IH. done.
Qed.

(** What a successful search tells: the string splits at the index, nothing
    before it matches, and the character at the index does. *)
Lemma find_first_some p s i :
  find_first p s = Some i →
  ∃ c, s = str_take i s +:+ String c (str_drop (S i) s) ∧ p c = true
    ∧ str_all (λ c, negb (p c)) (str_take i s) = true ∧ i < str_size s.
Proof.
  revert i. induction s as [|c s IH]; intros i; simpl; [done|].
  destruct (p c) eqn:Hp; [intros; simplify_eq; simpl|].
  { exists c. split_and!; [by destruct s|done|done|lia]. }
  destruct (find_first p s) as [j|] eqn:Hf; simpl; [|done]. intros; simplify_eq.
  destruct (IH j) as (d & Heq & Hd & Hall & Hlt); [done|].
  exists d. simpl. rewrite Hp. simpl. split_and!; [|done|done|lia].
  f_equal. exact Heq.
Qed.

Lemma find_first_app p s c t :
  str_all (λ c, negb (p c)) s = true → p c = true →
  find_first p (s +:+ String c t) = Some (str_size s).
Proof.
  intros Hs Hc. induction s as [|d s IH]; simpl in *; [by rewrite Hc|].
  destruct (p d); simpl in *; [done|]. by rewrite IH.
Qed.

Lemma begins_with_iff s p : begins_with s p = true ↔ ∃ t, s = p +:+ t.
Proof.
  unfold begins_with. revert s. induction p as [|c p IH]; intros s; simpl.
  { split; [eauto|by destruct s]. }
  destruct s as [|d s]; simpl; [split; [done|by intros [??]]|].
  destruct (ascii_dec c d) as [->|Hne].
  - rewrite IH. split; intros [t Ht]; exists t; by simplify_eq.
  - split; [done|]. by intros [t [=]].
Qed.

(** Strings without a colon, which separates the parts of compound keys: the key tells
    its parts. *)
Definition no_colon (s : string) : Prop := str_all (λ c, negb (char_is ":" c)) s = true.

Lemma str_split_colon s s' t t' :
  no_colon s → no_colon s' → s +:+ ":" +:+ t = s' +:+ ":" +:+ t' → s = s' ∧ t = t'.
Proof.
  unfold no_colon. revert s'. induction s as [|a s IH]; intros [|b s']; simpl.
  - by intros _ _ [= <-].
  - intros _ [Hb _]%andb_true_iff [= <- _]. done.
  - intros [Ha _]%andb_true_iff _ [= -> _]. done.
  - intros [_ Hs]%andb_true_iff [_ Hs']%andb_true_iff [= -> Heq].
    destruct (IH s') as [-> ->]; done.
Qed.


Lemma str_empty_true s : str_empty s = true ↔ s = "".
Proof. by destruct s. Qed.
