(* ===== verification/Text.v ===== *)
(** The functions on text of the server and the client (src/Utilities.cpp and
    src/ServerUtilities.cpp): splitting the output of commands into lines and columns,
    removing the escape sequences of terminals and quotes, quantities with suffixes. *)

From stdpp Require Import pretty.
From S2P Require Import Prelude.

(** * Searching and replacing *)

(** [s.find(p)] *)
Fixpoint str_find (p s : string) : option nat :=
  if begins_with s p then Some 0 else
  match s with
  | EmptyString => None
  | String _ s => S <$> str_find p s
  end.

(** [s.find(p,pos)], for [pos <= s.size()] *)
Definition str_find_from (p : string) (pos : nat) (s : string) : option nat :=
  Nat.add pos <$> str_find p (str_drop pos s).

(** [s.find(c,pos)], for [pos <= s.size()] *)
Definition str_find_char (c : ascii) (pos : nat) (s : string) : option nat :=
  Nat.add pos <$> find_first (char_is c) (str_drop pos s).

(** [s.replace(pos,n,r)], and with no [r] [s.erase(pos,n)] *)
Definition str_replace (pos n : nat) (r s : string) : string :=
  str_take pos s +:+ r +:+ str_drop (pos + n) s.

(** [s.substr(pos,n)], for [pos <= s.size()] *)
Definition str_substr (pos n : nat) (s : string) : string := str_take n (str_drop pos s).

Fixpoint str_rev (s : string) : string :=
  match s with EmptyString => EmptyString | String c s => str_rev s +:+ String c "" end.

Definition newline : ascii := Ascii.ascii_of_nat 10.
Definition tab : ascii := Ascii.ascii_of_nat 9.
Definition backslash : ascii := Ascii.ascii_of_nat 92.
Definition quote : ascii := Ascii.ascii_of_nat 39.
Definition double_quote : ascii := Ascii.ascii_of_nat 34.
Definition escape : ascii := Ascii.ascii_of_nat 27.

Definition in_range (a b : nat) (c : ascii) : bool :=
  (a <=? Ascii.nat_of_ascii c) && (Ascii.nat_of_ascii c <=? b).

(** The classes of characters of the C locale. *)
Definition isspace (c : ascii) : bool := in_range 9 13 c || char_is " "%char c.
Definition isdigit (c : ascii) : bool := in_range 48 57 c.
Definition isupper (c : ascii) : bool := in_range 65 90 c.
Definition islower (c : ascii) : bool := in_range 97 122 c.
Definition isalpha (c : ascii) : bool := isupper c || islower c.
Definition isalnum (c : ascii) : bool := isalpha c || isdigit c.

(** * src/Utilities.cpp *)

(** The loop of [unquoteString]: each round takes a pair of quotes off, so the number of
    characters bounds the rounds. *)
Fixpoint unquote_loop (fuel : nat) (src : string) : option string :=
  match fuel with
  | O => None
  | S fuel =>
      if str_size src <=? 2 then Some src else
      match src with
      | EmptyString => Some src
      | String c _ =>
          if char_is quote c || char_is double_quote c then
            if negb (bool_decide (str_back src = Some c)) then Some src
            else unquote_loop fuel (str_substr 1 (str_size src - 2) src)
          else Some src
      end
  end.

Definition unquoteString (src : string) : option string := unquote_loop (S (str_size src)) src.

(** [ESC [], with which the escape sequences begin *)
Definition csi : string := String escape "[".

(** The loop of [removeShellEscapeSequences], which goes on at the position of the
    sequence that has been removed. *)
Fixpoint escape_loop (fuel pos : nat) (s : string) : option string :=
  match fuel with
  | O => None
  | S fuel =>
      match str_find_from csi pos s with
      | None => Some s
      | Some pos =>
          match str_find_char "m"%char pos s with
          | None => escape_loop fuel pos (str_take pos s)
          | Some e => escape_loop fuel pos (str_replace pos (e - pos + 1) "" s)
          end
      end
  end.

Definition removeShellEscapeSequences (s : string) : option string :=
  escape_loop (S (S (str_size s))) 0 s.

(** [std::regex_match(token, std::regex("[a-zA-Z0-9-]*"))] *)
Definition validDnsToken (token : string) : bool :=
  str_all (λ c, isalnum c || char_is "-"%char c) token.

(** * src/ServerUtilities.cpp *)

Fixpoint char_in (c : ascii) (s : string) : bool :=
  match s with EmptyString => false | String d s => char_is c d || char_in c s end.

(** [s.find_first_not_of(allowed)!=std::string::npos] *)
Definition has_not_of (allowed s : string) : bool :=
  match find_first (λ c, negb (char_in c allowed)) s with Some _ => true | None => false end.

(** The positions of the first character that is no space, and behind the last one. *)
Definition trim (s : string) : string :=
  let wsfront := default (str_size s) (find_first (λ c, negb (isspace c)) s) in
  let wsback := str_size s -
    default (str_size s) (find_first (λ c, negb (isspace c)) (str_rev s)) in
  if wsback <=? wsfront then "" else str_substr wsfront (wsback - wsfront) s.

(** The results of [while(std::getline(ss,item,delim))]: what precedes each delimiter,
    and what follows the last one unless it is empty. *)
Fixpoint getlines (delim : ascii) (s item : string) : list string :=
  match s with
  | EmptyString => if str_empty item then [] else [item]
  | String c s =>
      if char_is delim c then item :: getlines delim s ""
      else getlines delim s (item +:+ String c "")
  end.

Definition string_split_lines (text : string) : list string := getlines newline text "".

Definition string_split_columns (line : string) (delim : ascii) (keepEmpty : bool) :
    list string :=
  filter (λ token, negb (str_empty token) || keepEmpty = true)
    (trim <$> getlines delim line "").

(** [std::tolower] *)
Definition tolower (c : ascii) : ascii :=
  if isupper c then Ascii.ascii_of_nat (Ascii.nat_of_ascii c + 32) else c.

Fixpoint str_map (f : ascii → ascii) (s : string) : string :=
  match s with EmptyString => EmptyString | String c s => String (f c) (str_map f s) end.

(** [std::regex_match] with [([[:digit:]]+)([[:alpha:]]{2})?]: the two groups. *)
Definition match_quantity (s : string) : option (string * string) :=
  let n := default (str_size s) (find_first (λ c, negb (isdigit c)) s) in
  let suffix := str_drop n s in
  if negb (n =? 0) && (str_empty suffix || (str_size suffix =? 2) && str_all isalpha suffix)
  then Some (str_take n s, suffix) else None.

(** The value of a string of decimal digits. *)
Definition digit_value (c : ascii) : Z := (Z.of_nat (Ascii.nat_of_ascii c) - 48)%Z.
Fixpoint decimal (acc : Z) (s : string) : Z :=
  match s with EmptyString => acc | String c s => decimal (10 * acc + digit_value c) s end.

(** [std::stoi] of digits, and the product of two [long]s *)
Definition stoi (digits : string) : Res Z :=
  let n := decimal 0 digits in if (n <? 2 ^ 31)%Z then Ok n else Throw "stoi".
Definition long_mul (a b : Z) : Res Z :=
  if ((- 2 ^ 63 <=? a * b) && (a * b <? 2 ^ 63))%Z then Ok (a * b)%Z
  else Throw "undefined behaviour: overflow of a long".

Definition suffix_lookups : list (string * Z) :=
  [("ki", 1024); ("mi", 1024 * 1024); ("gi", 1024 * 1024 * 1024);
   ("ti", 1024 * 1024 * 1024 * 1024)]%Z.

Fixpoint lookup_suffix (suffix : string) (l : list (string * Z)) : option Z :=
  match l with
  | [] => None
  | (s, v) :: l => if bool_decide (s = suffix) then Some v else lookup_suffix suffix l
  end.

Definition parseStringSuffix (input : string) : Res Z :=
  match match_quantity (str_map tolower input) with
  | Some (digits, suffix) =>
      base ← stoi digits;
      long_mul base (default 1%Z (lookup_suffix suffix suffix_lookups))
  | None => Ok 0%Z
  end.

(** How a stream prints [mantissa + double(remainder) / unit]. *)
Class Quotients := show_quotient : Z → Z → Z → string.

Definition suffix_values : list (string * Z) :=
  [("Ki", 1024); ("Mi", 1024 * 1024); ("Gi", 1024 * 1024 * 1024);
   ("Ti", 1024 * 1024 * 1024 * 1024)]%Z.

(** The conversion of a [long] to [int] *)
Definition to_int (z : Z) : Z := ((z + 2 ^ 31) mod 2 ^ 32 - 2 ^ 31)%Z.

(** The loop over the suffixes, which has no end of its own. *)
Fixpoint suffixed `{Quotients} (value : Z) (suffixes : list (string * Z)) : Res string :=
  match suffixes with
  | [] => Throw "undefined behaviour: suffix out of range"
  | (suffix, unit) :: suffixes =>
      let mantissa := Z.quot value unit in
      if (mantissa <? 1024)%Z then
        let remainder := to_int (Z.rem value unit) in
        if negb (remainder =? 0)%Z then Ok (show_quotient mantissa remainder unit +:+ suffix)
        else Ok (pretty mantissa +:+ suffix)
      else suffixed value suffixes
  end.

Definition generateSuffixedString `{Quotients} (value : Z) : Res string :=
  suffixed value suffix_values.

(** [shellEscapeSingleQuotes]: the loop copies what precedes a quote, and the quote
    between the end and the start of a quoted part where there are any. *)
Fixpoint quote_loop (fuel last : nat) (raw ss : string) : option string :=
  match fuel with
  | O => None
  | S fuel =>
      match str_find_char quote last raw with
      | Some next =>
          let ss := ss +:+ str_substr last (next - last) raw in
          let ss := if negb (next =? 0) then ss +:+ String quote "" else ss in
          let ss := ss +:+ String backslash (String quote "") in
          let ss := if next <? str_size raw - 1 then ss +:+ String quote "" else ss in
          quote_loop fuel (next + 1) raw ss
      | None => Some (ss +:+ str_drop last raw)
      end
  end.

Definition shellEscapeSingleQuotes (raw : string) : option string :=
  if str_empty raw then Some raw else quote_loop (S (str_size raw)) 0 raw "".

(** * Searching *)

Lemma str_drop_0 s : str_drop 0 s = s.
Proof. by destruct s. Qed.

Lemma str_drop_drop n m s : str_drop n (str_drop m s) = str_drop (m + n) s.
Proof. revert s. induction m as [|m IH]; intros [|c s]; simpl; [by destruct n|done|by destruct n|apply IH]. Qed.

Lemma str_drop_all n s : str_size s ≤ n → str_drop n s = "".
Proof. revert s. induction n; intros [|c s]; simpl; try done; [lia|]. intros. apply IHn. lia. Qed.

Lemma str_take_all n s : str_size s ≤ n → str_take n s = s.
Proof. revert s. induction n; intros [|c s]; simpl; try done; [lia|]. intros. f_equal. apply IHn. lia. Qed.

Lemma str_drop_app_add n s t : str_drop (str_size s + n) (s +:+ t) = str_drop n t.
Proof. by rewrite <- str_drop_drop, str_drop_app. Qed.

Lemma str_take_app_add n s t : str_take (str_size s + n) (s +:+ t) = s +:+ str_take n t.
Proof. induction s as [|c s IH]; simpl; [done|]. by rewrite IH. Qed.

(** The text before a match and behind its first character. *)
Lemma str_find_split p s i :
  str_find p s = Some i → ∃ u v, s = u +:+ p +:+ v ∧ i = str_size u.
Proof.
  revert i. induction s as [|c s IH]; intros i; cbn [str_find].
  - destruct (begins_with "" p) eqn:Hp; [|done]. intros [= <-].
    apply begins_with_iff in Hp as [v Hv]. by exists "", v.
  - destruct (begins_with _ p) eqn:Hp; [intros [= <-]|].
    + apply begins_with_iff in Hp as [v Hv]. by exists "", v.
    + destruct (str_find p s) as [j|]; [|done]. intros [= <-].
      destruct (IH j eq_refl) as (u & v & -> & ->). by exists (String c u), v.
Qed.

Lemma find_first_split p s i :
  find_first p s = Some i → ∃ u c v, s = u +:+ String c v ∧ i = str_size u ∧ p c = true ∧
    str_all (λ c, negb (p c)) u = true.
Proof.
  intros Hi. destruct (find_first_some p s i Hi) as (c & Heq & Hc & Hall & Hlt).
  exists (str_take i s), c, (str_drop (S i) s). split_and!; [done| |done|done].
  rewrite str_take_size; lia.
Qed.

Lemma find_first_default p s :
  default (str_size s) (find_first p s) ≤ str_size s ∧
  str_all (λ c, negb (p c)) (str_take (default (str_size s) (find_first p s)) s) = true.
Proof.
  destruct (find_first p s) as [i|] eqn:Hi; simpl.
  - destruct (find_first_some p s i Hi) as (c & _ & _ & ? & ?). split; [lia|done].
  - split; [lia|]. rewrite str_take_all by lia. by apply find_first_none.
Qed.

(** * The escape sequences of terminals *)

(** What the removal does, in one pass: it skips from [ESC [] to the next [m]. *)
Fixpoint visible (inside : bool) (s : string) : string :=
  match s with
  | EmptyString => EmptyString
  | String c s' =>
      if inside then visible (negb (char_is "m"%char c)) s'
      else if begins_with s csi then visible true s' else String c (visible false s')
  end.

Lemma visible_find s :
  visible false s = match str_find csi s with
                    | None => s
                    | Some i => str_take i s +:+ visible true (str_drop (S i) s)
                    end.
Proof.
  induction s as [|c s IH]; [done|].
  change (visible false (String c s)) with
    (if begins_with (String c s) csi then visible true s else String c (visible false s)).
  change (str_find csi (String c s)) with
    (if begins_with (String c s) csi then Some 0 else S <$> str_find csi s).
  destruct (begins_with (String c s) csi); [by destruct s|]. rewrite IH.
  by destruct (str_find csi s).
Qed.

Lemma visible_inside s :
  visible true s = match find_first (char_is "m"%char) s with
                   | None => ""
                   | Some i => visible false (str_drop (S i) s)
                   end.
Proof.
  induction s as [|c s IH]; [done|]. simpl. destruct (char_is "m" c) eqn:Hc; simpl.
  - by destruct s.
  - rewrite IH. by destruct (find_first _ s).
Qed.

Lemma escape_loop_visible fuel a t :
  str_size t < fuel →
  escape_loop fuel (str_size a) (a +:+ t) = Some (a +:+ visible false t).
Proof.
  revert a t. induction fuel as [|fuel IH]; intros a t Hf; [lia|].
  cbn [escape_loop]. unfold str_find_from. rewrite str_drop_app, visible_find.
  destruct (str_find csi t) as [i|] eqn:Hi; [|done]. cbn [fmap option_fmap option_map].
  destruct (str_find_split _ _ _ Hi) as (u & v & -> & ->).
  assert (Hsplit : a +:+ u +:+ csi +:+ v = (a +:+ u) +:+ csi +:+ v) by by rewrite str_app_assoc.
  rewrite Hsplit. clear Hsplit.
  assert (Hsz : str_size a + str_size u = str_size (a +:+ u)) by by rewrite str_size_app.
  rewrite Hsz, str_take_app.
  assert (Htail : str_drop (S (str_size u)) (u +:+ csi +:+ v) = String "[" v).
  { by rewrite <- Nat.add_1_r, str_drop_app_add. }
  rewrite Htail, visible_inside. unfold str_find_char. rewrite str_drop_app.
  change (csi +:+ v) with (String escape (String "[" v)).
  change (find_first (char_is "m"%char) (String escape (String "[" v))) with
    (S <$> find_first (char_is "m"%char) (String "[" v)).
  destruct (find_first (char_is "m"%char) (String "[" v)) as [j|] eqn:Hj;
    cbn [fmap option_fmap option_map].
  - rewrite !str_size_app in Hf. simpl in Hf.
    unfold str_replace. rewrite str_take_app.
    replace (str_size (a +:+ u) + (str_size (a +:+ u) + S j - str_size (a +:+ u) + 1))
      with (str_size (a +:+ u) + (S (S j))) by lia.
    rewrite str_drop_app_add. cbn [str_drop]. simpl.
    rewrite IH; [by rewrite str_take_app, str_app_assoc|].
    destruct (find_first_some _ _ _ Hj) as (_ & _ & _ & _ & Hlt). simpl in Hlt.
    rewrite str_drop_size. lia.
  - rewrite str_take_app.
    rewrite <- (str_app_nil_r (a +:+ u)) at 2. rewrite IH.
    + by rewrite !str_app_nil_r.
    + rewrite !str_size_app in Hf. simpl in *. lia.
Qed.

(** The removal of escape sequences ends, and is one pass over the text that skips from
    each [ESC [] to the next [m] or the end; what the removal itself brings together is
    not looked at again, so that a sequence may be left. *)
Theorem removeShellEscapeSequences_equiv (s : string) :
  removeShellEscapeSequences s = Some (visible false s) ∧
  (str_all (λ c, negb (char_is escape c)) s = true → visible false s = s).
Proof.
  split; [apply (escape_loop_visible _ "" s); lia|].
  induction s as [|c s IH]; [done|]. intros [Hc Hs]%andb_true_iff.
  change (visible false (String c s)) with
    (if begins_with (String c s) csi then visible true s else String c (visible false s)).
  destruct (begins_with (String c s) csi) eqn:Hb; [|by rewrite IH].
  apply begins_with_iff in Hb as [t [= -> _]]. by apply negb_true_iff in Hc.
Qed.

Example removal_forms_sequence :
  removeShellEscapeSequences (String escape (csi +:+ "m" +:+ "[1mtext")) =
    Some (csi +:+ "1mtext").
Proof. reflexivity. Qed.

(** * Splitting *)

(** Text whose first and last characters are no space, or that is empty. *)
Definition blank (s : string) : Prop := str_all isspace s = true.
Definition trimmed (s : string) : Prop :=
  s = "" ∨ ∃ c x d y, s = String c x ∧ s = y +:+ String d "" ∧ isspace c = false ∧
    isspace d = false.

Lemma str_rev_app s t : str_rev (s +:+ t) = str_rev t +:+ str_rev s.
Proof.
  induction s as [|c s IH]; simpl; [by rewrite str_app_nil_r|]. by rewrite IH, str_app_assoc.
Qed.

Lemma str_all_rev p s : str_all p (str_rev s) = str_all p s.
Proof.
  induction s as [|c s IH]; simpl; [done|]. rewrite str_all_app, IH. simpl.
  rewrite andb_true_r. apply andb_comm.
Qed.

Lemma str_rev_size s : str_size (str_rev s) = str_size s.
Proof. induction s as [|c s IH]; simpl; [done|]. rewrite str_size_app, IH. simpl. lia. Qed.

Lemma find_blank l t :
  blank l → find_first (λ c, negb (isspace c)) (l +:+ t) =
    Nat.add (str_size l) <$> find_first (λ c, negb (isspace c)) t.
Proof.
  intros Hl. induction l as [|c l IH]; simpl; [by destruct (find_first _ t)|].
  apply andb_true_iff in Hl as [-> Hl]. simpl. rewrite IH by done.
  by destruct (find_first _ t).
Qed.

(** [trim] takes off exactly the spaces around a text. *)
Lemma trim_padded l s r : blank l → blank r → trimmed s → trim (l +:+ s +:+ r) = s.
Proof.
  intros Hl Hr Hs. unfold trim. rewrite find_blank by done.
  rewrite !str_rev_app, str_app_assoc, find_blank by by unfold blank; rewrite str_all_rev.
  destruct Hs as [->|(c & x & d & y & Hc & Hd & Hc' & Hd')].
  - simpl str_rev. cbn [String.append].
    assert (Hn : ∀ b, blank b → find_first (λ c, negb (isspace c)) b = None).
    { intros b Hb. apply find_first_none. clear -Hb. unfold blank in Hb.
      induction b as [|a b IH]; simpl in *; [done|]. apply andb_true_iff in Hb as [-> Hb]. auto. }
    rewrite (Hn r), (Hn (str_rev l)) by (try done; by unfold blank; rewrite str_all_rev).
    cbn [fmap option_fmap option_map default id]. rewrite str_size_app.
    destruct (_ <=? _) eqn:Hle; [done|]. apply Nat.leb_gt in Hle.
    rewrite ?str_size_app in Hle. lia.
  - assert (Hf : find_first (λ c, negb (isspace c)) (s +:+ r) = Some 0).
    { rewrite Hc. simpl. by rewrite Hc'. }
    assert (Hg : find_first (λ c, negb (isspace c)) (str_rev s +:+ str_rev l) = Some 0).
    { rewrite Hd, str_rev_app. simpl. by rewrite Hd'. }
    rewrite Hf, Hg. cbn [fmap option_fmap option_map default id]. rewrite str_rev_size, !str_size_app.
    assert (Hpos : 0 < str_size s) by (rewrite Hc; simpl; lia).
    destruct (Nat.leb_spec (str_size l + (str_size s + str_size r) - (str_size r + 0))
      (str_size l + 0)); [lia|].
    unfold str_substr. rewrite str_drop_app_add, str_drop_0.
    replace (str_size l + (str_size s + str_size r) - (str_size r + 0) - (str_size l + 0))
      with (str_size s) by lia.
    apply str_take_app.
Qed.

(** What the lines and columns of a text are joined to. *)
Fixpoint join (delim : ascii) (items : list string) : string :=
  match items with
  | [] => ""
  | item :: items => item +:+ String delim (join delim items)
  end.

Definition without (delim : ascii) (s : string) : Prop :=
  str_all (λ c, negb (char_is delim c)) s = true.

Lemma getlines_app delim s t item :
  without delim s → getlines delim (s +:+ t) item = getlines delim t (item +:+ s).
Proof.
  revert item. induction s as [|c s IH]; intros item; simpl; [by rewrite str_app_nil_r|].
  intros [Hc Hs]%andb_true_iff. apply negb_true_iff in Hc. rewrite Hc, IH by done.
  by rewrite str_app_assoc.
Qed.

(** Reading the items of a text back; an empty rest behind the last delimiter is none. *)
Lemma getlines_join delim items rest :
  Forall (without delim) items → without delim rest →
  getlines delim (join delim items +:+ rest) "" =
    items ++ (if str_empty rest then [] else [rest]).
Proof.
  intros Hi Hr. induction Hi as [|item items Hi _ IH]; simpl.
  - rewrite <- (str_app_nil_r rest) at 1. rewrite getlines_app by done. simpl.
    by destruct rest.
  - rewrite str_app_assoc, getlines_app by done. simpl.
    unfold char_is at 1. rewrite bool_decide_true by done. by rewrite IH.
Qed.

(** Lines are read back as they were written; columns without the spaces they are padded
    with, and, if asked, without the empty ones. A last column that is empty, with no
    padding either, is not seen. *)
Theorem string_split_correct (delim : ascii) (keepEmpty : bool)
    (cells : list (string * string * string)) (l w r : string) :
  Forall (λ c, blank c.1.1 ∧ trimmed c.1.2 ∧ blank c.2 ∧
    without delim (c.1.1 +:+ c.1.2 +:+ c.2)) (cells ++ [(l, w, r)]) →
  string_split_columns
    (join delim ((λ c, c.1.1 +:+ c.1.2 +:+ c.2) <$> cells) +:+ l +:+ w +:+ r) delim keepEmpty =
  filter (λ token, negb (str_empty token) || keepEmpty = true)
    (((λ c, c.1.2) <$> cells) ++ (if str_empty (l +:+ w +:+ r) then [] else [w])).
Proof.
  intros Hc. apply list.Forall_app in Hc as [Hc Hlast].
  apply list.Forall_cons in Hlast as [(Hl & Hw & Hr & Hd) _]. simpl in Hl, Hw, Hr, Hd.
  unfold string_split_columns. f_equal. rewrite getlines_join; [|by apply Forall_fmap; eapply list.Forall_impl; [exact Hc|by intros c (_ & _ & _ & ?)]|done].
  rewrite fmap_app. f_equal.
  - rewrite <- list_fmap_compose. apply Forall_fmap_ext_1. eapply list.Forall_impl; [exact Hc|].
    intros c (? & ? & ? & _). by apply trim_padded.
  - destruct (str_empty (l +:+ w +:+ r)); [done|]. simpl. by rewrite trim_padded.
Qed.

(** * Quantities *)

(** Every suffix, and the power of 1024 it stands for. *)
Lemma suffixes_parsed n suffix unit :
  (0 ≤ n < 1024)%Z → (suffix, unit) ∈ suffix_values →
  parseStringSuffix (pretty n +:+ suffix) = Ok (n * unit)%Z.
Proof.
  intros Hn Hs.
  assert (Hall : Forall (λ p, Forall (λ n, parseStringSuffix (pretty n +:+ p.1) = Ok (n * p.2)%Z)
    (seqZ 0 1024)) suffix_values).
  { apply (bool_decide_eq_true_1 _). vm_compute. reflexivity. }
  rewrite list.Forall_forall in Hall. specialize (Hall _ Hs). simpl in Hall.
  rewrite list.Forall_forall in Hall. apply Hall, elem_of_seqZ. lia.
Qed.

Section quantities.
Context `{Q : Quotients}.

Lemma suffixed_here value suffix unit rest :
  (0 < unit)%Z → (0 ≤ value)%Z → (value < 1024 * unit)%Z →
  suffixed value ((suffix, unit) :: rest) =
    let r := to_int (value mod unit) in
    if negb (r =? 0)%Z then Ok (show_quotient (value / unit) r unit +:+ suffix)
    else Ok (pretty (value / unit)%Z +:+ suffix).
Proof.
  intros Hu Hv Hlt. cbn [suffixed]. rewrite Z.quot_div_nonneg, Z.rem_mod_nonneg by lia.
  destruct (Z.ltb_spec (value / unit) 1024) as [|Hge]; [done|].
  pose proof (Z.div_lt_upper_bound value unit 1024). lia.
Qed.

Lemma suffixed_next value suffix unit rest :
  (0 < unit)%Z → (1024 * unit ≤ value)%Z →
  suffixed value ((suffix, unit) :: rest) = suffixed value rest.
Proof.
  intros Hu Hv. cbn [suffixed]. rewrite Z.quot_div_nonneg by lia.
  destruct (Z.ltb_spec (value / unit) 1024) as [Hlt|]; [|done].
  pose proof (Z.div_le_lower_bound value unit 1024). lia.
Qed.

(** A multiple of one of the units, below the next, is printed so that it reads back. *)
Theorem suffixed_roundtrip (n unit : Z) (suffix : string) :
  (0 < n < 1024)%Z → (suffix, unit) ∈ suffix_values →
  ∃ s, generateSuffixedString (n * unit) = Ok s ∧ parseStringSuffix s = Ok (n * unit)%Z.
Proof.
  intros Hn Hs. exists (pretty n +:+ suffix). split; [|apply suffixes_parsed; [lia|done]].
  assert (Hhere : ∀ rest, (0 < unit)%Z →
    suffixed (n * unit) ((suffix, unit) :: rest) = Ok (pretty n +:+ suffix)).
  { intros rest Hu. rewrite suffixed_here by nia. rewrite Z.mod_mul, Z.div_mul by lia. done. }
  unfold generateSuffixedString, suffix_values. unfold suffix_values in Hs.
  repeat (apply elem_of_cons in Hs as [[= -> ->]|Hs];
    [rewrite ?suffixed_next by lia; apply Hhere; lia|]).
  by apply not_elem_of_nil in Hs.
Qed.

(** The limits: values from 1024 Ti on are past the last suffix; below that a text is
    produced, but the remainder of a value of at least 1 Ti is converted to an [int]
    first, so that the printed value is wrong unless the remainder is below 2 Gi. *)
Theorem suffixed_limits (value : Z) :
  ((0 ≤ value < 2 ^ 50)%Z → ∃ s, generateSuffixedString value = Ok s) ∧
  ((2 ^ 50 ≤ value)%Z →
   generateSuffixedString value = Throw "undefined behaviour: suffix out of range") ∧
  ((2 ^ 40 ≤ value < 2 ^ 50)%Z →
   (to_int (value mod 2 ^ 40) = value mod 2 ^ 40 ↔ value mod 2 ^ 40 < 2 ^ 31)%Z ∧
   generateSuffixedString value =
     let r := to_int (value mod 2 ^ 40) in
     if negb (r =? 0)%Z then Ok (show_quotient (value / 2 ^ 40) r (2 ^ 40) +:+ "Ti")
     else Ok (pretty (value / 2 ^ 40)%Z +:+ "Ti")).
Proof.
  unfold generateSuffixedString, suffix_values. split_and!.
  - intros Hv.
    assert (Hdone : ∀ suffix unit rest, (0 < unit)%Z → (value < 1024 * unit)%Z →
      ∃ s, suffixed value ((suffix, unit) :: rest) = Ok s).
    { intros. rewrite suffixed_here by lia. simpl. case_match; eauto. }
    destruct (decide (value < 1024 * 1024)%Z); [apply Hdone; lia|].
    rewrite suffixed_next by lia.
    destruct (decide (value < 1024 * 1024 * 1024)%Z); [apply Hdone; lia|].
    rewrite suffixed_next by lia.
    destruct (decide (value < 1024 * 1024 * 1024 * 1024)%Z); [apply Hdone; lia|].
    rewrite suffixed_next by lia. apply Hdone; lia.
  - intros Hv. by rewrite !suffixed_next by lia.
  - intros Hv. split.
    + unfold to_int. pose proof (Z.mod_pos_bound value (2 ^ 40)). split; [|intros Hlt].
      * pose proof (Z.mod_pos_bound (value mod 2 ^ 40 + 2 ^ 31) (2 ^ 32)). lia.
      * rewrite (Z.mod_small (_ + _)); lia.
    + rewrite !suffixed_next by lia. by rewrite suffixed_here by lia.
Qed.
End quantities.

(** 1 Ti and 4 Gi are printed as 1 Ti, and a node with 2 Ti of memory, in Ki, is refused. *)
Example suffixed_truncated `{Quotients} : generateSuffixedString (2 ^ 40 + 2 ^ 32) = Ok "1Ti".
Proof. reflexivity. Qed.
Example parse_2Ti : parseStringSuffix "2147483648Ki" = Throw "stoi".
Proof. reflexivity. Qed.

Lemma str_map_app f s t : str_map f (s +:+ t) = str_map f s +:+ str_map f t.
Proof. induction s as [|c s IH]; simpl; [done|]. by rewrite IH. Qed.

Lemma tolower_digit c : isdigit c = true → tolower c = c.
Proof.
  unfold tolower, isdigit, isupper, in_range. intros [H1 H2]%andb_true_iff.
  apply Nat.leb_le in H1, H2. destruct (65 <=? _) eqn:H; [|done]. apply Nat.leb_le in H. lia.
Qed.

Lemma find_not_digit digits t :
  str_all isdigit digits = true →
  find_first (λ c, negb (isdigit c)) (digits +:+ t) =
    Nat.add (str_size digits) <$> find_first (λ c, negb (isdigit c)) t.
Proof.
  induction digits as [|c digits IH]; simpl; [by destruct (find_first _ t)|].
  intros [-> Hd]%andb_true_iff. simpl. rewrite IH by done. by destruct (find_first _ t).
Qed.

Lemma match_quantity_digits digits t :
  str_all isdigit digits = true → digits ≠ "" →
  t = "" ∨ str_size t = 2 ∧ str_all isalpha t = true →
  match_quantity (digits +:+ t) = Some (digits, t).
Proof.
  intros Hd Hne Ht. unfold match_quantity. rewrite find_not_digit by done.
  assert (Hn : default (str_size (digits +:+ t)) (Nat.add (str_size digits) <$>
    find_first (λ c, negb (isdigit c)) t) = str_size digits).
  { destruct t as [|c t]; simpl; [by rewrite str_app_nil_r|].
    destruct Ht as [?|[_ Ht]]; [done|]. simpl in Ht. apply andb_true_iff in Ht as [Hc _].
    assert (isdigit c = false) as ->; [|simpl; lia].
    clear -Hc. unfold isalpha, isupper, islower, isdigit, in_range in *.
    apply andb_false_iff. apply orb_true_iff in Hc as [[H1 H2]%andb_true_iff|[H1 H2]%andb_true_iff];
      apply Nat.leb_le in H1, H2; right; apply Nat.leb_gt; lia. }
  rewrite Hn, str_drop_app, str_take_app.
  assert (Hd0 : str_size digits ≠ 0) by by destruct digits.
  rewrite (proj2 (Nat.eqb_neq _ _)) by done. simpl.
  destruct Ht as [->|[-> ->]]; [done|]. by rewrite orb_true_r.
Qed.

Lemma decimal_nonneg acc digits :
  (0 ≤ acc)%Z → str_all isdigit digits = true → (0 ≤ decimal acc digits)%Z.
Proof.
  revert acc. induction digits as [|c digits IH]; intros acc Hacc; simpl in *; [done|].
  intros [Hc Hd]%andb_true_iff. apply IH; [|done]. unfold digit_value.
  apply andb_true_iff in Hc as [Hc _]. apply Nat.leb_le in Hc. lia.
Qed.

Lemma str_map_digits digits : str_all isdigit digits = true → str_map tolower digits = digits.
Proof.
  induction digits as [|c digits IH]; simpl; [done|].
  intros [Hc Hd]%andb_true_iff. by rewrite tolower_digit, IH.
Qed.

(** The quantities Kubernetes gives, digits with a suffix or without: the value, an
    exception if the digits are no [int], and for Ti an overflow from 2^23 on. *)
Theorem parseStringSuffix_bounds (digits suffix : string) (unit : Z) :
  str_all isdigit digits = true → digits ≠ "" →
  (suffix, unit) ∈ ("", 1%Z) :: suffix_values →
  let n := decimal 0 digits in
  parseStringSuffix (digits +:+ suffix) =
    if (2 ^ 31 <=? n)%Z then Throw "stoi"
    else if (bool_decide (suffix = "Ti") && (2 ^ 23 <=? n))%Z
         then Throw "undefined behaviour: overflow of a long"
    else Ok (n * unit)%Z.
Proof.
  intros Hd Hne Hs n. pose proof (decimal_nonneg 0 digits ltac:(lia) Hd) as Hpos. fold n in Hpos.
  assert (Hlook : str_map tolower suffix = "" ∨ str_size (str_map tolower suffix) = 2 ∧
    str_all isalpha (str_map tolower suffix) = true).
  { apply list_elem_of_In in Hs. by destruct Hs as [[= <- _]|[[= <- _]|[[= <- _]|[[= <- _]|[[= <- _]|[]]]]]]; auto. }
  unfold parseStringSuffix. rewrite str_map_app, str_map_digits, match_quantity_digits by done.
  assert (Hu : default 1%Z (lookup_suffix (str_map tolower suffix) suffix_lookups) = unit).
  { apply list_elem_of_In in Hs. by destruct Hs as [[= <- <-]|[[= <- <-]|[[= <- <-]|[[= <- <-]|[[= <- <-]|[]]]]]]. }
  rewrite Hu. unfold stoi. fold n. rewrite Z.leb_antisym.
  destruct (Z.ltb_spec n (2 ^ 31)) as [Hn|Hn]; simpl; [|done].
  unfold mbind, Res_bind, long_mul. apply list_elem_of_In in Hs.
  assert (Hunit : (suffix = "Ti" ∧ unit = 2 ^ 40 ∨ suffix ≠ "Ti" ∧ 0 < unit ≤ 2 ^ 30)%Z).
  { destruct Hs as [[= <- <-]|[[= <- <-]|[[= <- <-]|[[= <- <-]|[[= <- <-]|[]]]]]]; simpl;
      [right..|left]; split; done. }
  clear Hs Hu Hlook. rewrite (proj2 (Z.leb_le (- 2 ^ 63) _)) by nia. simpl.
  destruct Hunit as [[-> ->]|[Hns Hunit]].
  - rewrite bool_decide_true by done. simpl. destruct (Z.leb_spec (2 ^ 23) n) as [Hb|Hb]; simpl.
    + by rewrite (proj2 (Z.ltb_ge _ _)) by lia.
    + by rewrite (proj2 (Z.ltb_lt _ _)) by lia.
  - rewrite bool_decide_false by done. simpl. by rewrite (proj2 (Z.ltb_lt _ _)) by nia.
Qed.

(** * Quotes *)

(** What the shell reads from a word whose parts are single-quoted, or characters behind a
    backslash. *)
Fixpoint sh_word (quoted : bool) (s : string) : option string :=
  match s with
  | EmptyString => if quoted then None else Some ""
  | String c s =>
      if quoted then
        if char_is quote c then sh_word false s else String c <$> sh_word true s
      else if char_is quote c then sh_word true s
      else if char_is backslash c then
        match s with
        | EmptyString => None
        | String d s => String d <$> sh_word false s
        end
      else None
  end.

Definition single_quoted (s : string) : string := String quote (s +:+ String quote "").

Lemma sh_word_plain u t :
  without quote u → sh_word true (u +:+ t) = String.append u <$> sh_word true t.
Proof.
  induction u as [|c u IH]; simpl; [by destruct (sh_word true t)|].
  intros [Hc Hu]%andb_true_iff. apply negb_true_iff in Hc. rewrite Hc, IH by done.
  by destruct (sh_word true t).
Qed.

Definition no_last_quote (t : string) : Prop := ∀ u, t ≠ u +:+ String quote "".

Lemma begins_quote s : begins_with s (String quote "") = false → ∀ v, s ≠ String quote v.
Proof. intros Hb v ->. assert (begins_with (String quote v) (String quote "") = true); [|congruence]. apply begins_with_iff. by exists v. Qed.

Lemma quote_loop_spec fuel a t ss :
  str_size t < fuel → (∀ v, a +:+ t ≠ String quote v) → no_last_quote t →
  ∃ e, quote_loop fuel (str_size a) (a +:+ t) ss = Some (ss +:+ e) ∧
    sh_word true (e +:+ String quote "") = Some t.
Proof.
  revert a t ss. induction fuel as [|fuel IH]; intros a t ss Hf Ha Ht; [lia|].
  cbn [quote_loop]. unfold str_find_char. rewrite str_drop_app.
  destruct (find_first (char_is quote) t) as [i|] eqn:Hi; cbn [fmap option_fmap option_map].
  2: { exists t. split; [done|].
       rewrite sh_word_plain by by apply find_first_none. simpl. by rewrite str_app_nil_r. }
  destruct (find_first_split _ _ _ Hi) as (u & c & v & -> & -> & Hc & Hu).
  apply bool_decide_eq_true in Hc as <-. rewrite str_size_app in Hf. simpl in Hf.
  assert (Hv : 0 < str_size v) by (destruct v; [by destruct (Ht u)|simpl; lia]).
  assert (Hau : str_size a + str_size u ≠ 0).
  { intros Hz. destruct a, u; simpl in Hz; try lia. by apply (Ha v). }
  rewrite (proj2 (Nat.eqb_neq _ _)), (proj2 (Nat.ltb_lt _ _)); [|rewrite !str_size_app; simpl; lia|lia].
  assert (Hsub : str_substr (str_size a) (str_size a + str_size u - str_size a)
    (a +:+ u +:+ String quote v) = u).
  { unfold str_substr. rewrite Nat.add_comm, Nat.add_sub.
    by rewrite str_drop_app, str_take_app. }
  rewrite Hsub. cbn [negb].
  replace (str_size a + str_size u + 1) with (str_size (a +:+ u +:+ String quote ""))
    by (rewrite !str_size_app; simpl; lia).
  replace (a +:+ u +:+ String quote v) with ((a +:+ u +:+ String quote "") +:+ v) in *
    by (by rewrite !str_app_assoc).
  edestruct (IH (a +:+ u +:+ String quote "") v) as (e & He & Hr); [lia|exact Ha| |].
  { intros x ->. apply (Ht (u +:+ String quote x)). by rewrite str_app_assoc. }
  eexists (u +:+ String quote (String backslash (String quote (String quote e)))).
  split; [rewrite He; by rewrite !str_app_assoc|].
  rewrite str_app_assoc, sh_word_plain by done. simpl. by rewrite Hr.
Qed.

(** C29: a text that neither begins nor ends with a quote can be put between single quotes once
    its quotes are escaped: the shell reads it back. A text that begins with a quote
    cannot: the shell reads another one. *)
Theorem shellEscapeSingleQuotes_quoted (raw : string) :
  (no_last_quote raw → begins_with raw (String quote "") = false →
   ∃ e, shellEscapeSingleQuotes raw = Some e ∧ sh_word false (single_quoted e) = Some raw) ∧
  (begins_with raw (String quote "") = true →
   ∀ e, shellEscapeSingleQuotes raw = Some e → sh_word false (single_quoted e) ≠ Some raw).
Proof.
  unfold shellEscapeSingleQuotes. split.
  - intros Hl Hb. destruct (str_empty raw) eqn:He.
    + apply str_empty_true in He as ->. by exists "".
    + destruct (quote_loop_spec (S (str_size raw)) "" raw "") as (e & Hq & Hw);
        [lia|by apply begins_quote|done|]. by exists e.
  - intros [t ->]%begins_with_iff e. cbn [str_empty String.append].
    generalize (str_size (String quote t)). intros fuel He. simpl in He.
    assert (Hgen : ∀ fuel last raw ss e, quote_loop fuel last raw ss = Some e → ∃ x, e = ss +:+ x).
    { clear. induction fuel as [|fuel IH]; intros last raw ss e; cbn [quote_loop]; [done|].
      destruct (str_find_char quote last raw) as [next|].
      - intros Hq. apply IH in Hq as [x ->].
        repeat case_match; eexists; rewrite ?str_app_assoc; reflexivity.
      - intros [= <-]. by eexists. }
    apply Hgen in He as [x ->].
    assert (Hx : ∃ y, (if 0 <? str_size t - 0 then (String backslash (String quote "")) +:+ String quote ""
      else String backslash (String quote "")) +:+ x = String backslash (String quote y))
      by (case_match; by eexists).
    destruct Hx as [y Hy]. simpl in Hy. rewrite Hy. clear. simpl.
    destruct (sh_word false (y +:+ String quote "")); simpl; [intros [=]|done].
Qed.

(** One that ends with a quote leaves the shell within quotes. *)
Example last_quote_escaped :
  shellEscapeSingleQuotes (String "a" (String quote "")) =
    Some (String "a" (String quote (String backslash (String quote "")))) ∧
  sh_word false (single_quoted (String "a" (String quote (String backslash (String quote ""))))) =
    None.
Proof. done. Qed.

Lemma trimmed_char c : isspace c = false → trimmed (String c "").
Proof. intros Hc. right. by exists c, "", c, "". Qed.

(** The columns of a line of a table, one of them empty. *)
Lemma string_split_witness :
  string_split_columns " a | b||c " "|" false = ["a"; "b"; "c"].
Proof.
  refine (string_split_correct "|" false [((" ", "a"), " "); ((" ", "b"), ""); (("", ""), "")]
    "" "c" " " _).
  repeat (apply list.Forall_cons; split; [|]); [..|constructor];
    (split; [done|split; [by first [by left|by apply trimmed_char]|by split]]).
Defined.

(** Quotients printed without their fraction *)
#[local] Instance whole_quotient : Quotients := λ q _ _, pretty q.

Lemma suffixed_roundtrip_witness :
  ∃ s, generateSuffixedString (3 * 1048576) = Ok s ∧ parseStringSuffix s = Ok (3 * 1048576)%Z.
Proof. apply (suffixed_roundtrip 3 1048576 "Mi"); [lia|]. right; left. Defined.

(** Two tebibytes in kibibytes are refused. *)
Lemma parseStringSuffix_witness : parseStringSuffix "2147483648Ki" = Throw "stoi".
Proof.
  exact (parseStringSuffix_bounds "2147483648" "Ki" 1024 eq_refl ltac:(discriminate)
    ltac:(right; left)).
Defined.
