(* ===== verification/Dns.v ===== *)
(** The DNS records of the clusters (src/DNSManipulator.cpp, include/DNSManipulator.h): names
    within the zones that the account hosts, each with a TXT record that says that the server
    made it. The service, AWS Route 53, is a parameter, with a law that tells what its two
    requests do; the operations are computations on whatever state the service lives in. *)

From stdpp Require Import pretty.
From S2P Require Import Prelude Text.

(** * Requests to the service *)

Module RRType.
Inductive t := A | AAAA | TXT.
#[global] Instance eq_dec : EqDecision t.
Proof. solve_decision. Defined.
#[global] Instance countable : Countable t.
Proof.
  refine (inj_countable' (λ x, match x with A => 0 | AAAA => 1 | TXT => 2 end)
    (λ n, match n with 0 => A | 1 => AAAA | _ => TXT end) _). by intros [].
Defined.

(** [RRTypeMapper::GetNameForRRType] *)
Definition GetNameForRRType (type : t) : string :=
  match type with A => "A" | AAAA => "AAAA" | TXT => "TXT" end.
End RRType.

Record AwsError := mkAwsError { errorType : Z; exceptionName : string; errorMessage : string }.

Record ResourceRecordSet := mkResourceRecordSet {
  setName : string; setType : RRType.t; setRecords : list string; setTTL : Z }.

Inductive ChangeAction := UPSERT | DELETE_.

Definition Change : Type := ChangeAction * ResourceRecordSet.

(** The answer to a query, by the ID of the zone, the name and the type; and a batch of
    changes to a zone, which fails with an error or is done. *)
Class Route53 (Net : Type) := {
  TestDNSAnswer : string → string → RRType.t → Net → AwsError + list string;
  ChangeResourceRecordSets : string → list Change → Net → option AwsError * Net }.

(** * Text *)

(** [s.rfind(c)]: the last position of a character. *)
Fixpoint rfind_char (c : ascii) (s : string) : option nat :=
  match s with
  | EmptyString => None
  | String d s =>
      match rfind_char c s with
      | Some pos => Some (S pos)
      | None => if char_is c d then Some 0 else None
      end
  end.

Definition zoneForName (name : string) : Res string :=
  let unable := Throw ("Unable to extract zone from " +:+ name) in
  match rfind_char "."%char name with
  | Some (S pos) =>
      match rfind_char "."%char (str_take (S pos) name) with
      | Some pos => Ok (str_drop (S pos) name +:+ ".")
      | None => unable
      end
  | _ => unable
  end.

(** The kind of record that an address asks for. *)
Definition record_type (address : string) : Res RRType.t :=
  if str_empty address then Throw "Invalid IP address: must not be empty"
  else if negb (has_not_of "0123456789." address) then Ok RRType.A
  else if negb (has_not_of "0123456789abcdefABCDEF:" address) then Ok RRType.AAAA
  else Throw ("Unrecognized IP address type: " +:+ address).

(** * The manipulator *)

Module DNSManipulator.
Record t := mk { hostedZones : gmap string string; validServer : bool }.

(** A zone is known by its name; of its ID only what follows the last slash is kept. *)
Definition add_zone (zones : gmap string string) (zone : string * string) : gmap string string :=
  match zones !! zone.1 with
  | Some _ => zones
  | None =>
      <[zone.1 := match rfind_char "/"%char zone.2 with
                  | Some pos => if pos <? str_size zone.2 then str_drop (pos + 1) zone.2 else zone.2
                  | None => zone.2
                  end]> zones
  end.

(** The constructor; [listed] is what [ListHostedZones] answers. *)
Definition make (endpointOverride : string) (listed : AwsError + list (string * string)) : Res t :=
  match str_find "amazonaws.com" endpointOverride with
  | None => Ok (mk ∅ false)
  | Some _ =>
      match listed with
      | inl e => Throw ("Failed to list hosted DNS zones: " +:+ pretty (errorType e) +:+ " "
                        +:+ exceptionName e +:+ " " +:+ errorMessage e)
      | inr zones => Ok (mk (foldl add_zone ∅ zones) true)
      end
  end.
End DNSManipulator.

Definition heritageTag : string := "heritage=slate-api".

Section manipulator.
Context {Net : Type} `{R : !Route53 Net}.
Context (dnsClient : DNSManipulator.t).

(** The ID of the zone that a name is in. *)
Definition hosted_zone (name : string) : M Net string :=
  zone ← lift (zoneForName name);
  match DNSManipulator.hostedZones dnsClient !! zone with
  | None => throw (zone +:+ " is not a hosted zone in this AWS account")
  | Some id => mret id
  end.

(** A query, with the words of the message when it fails. *)
Definition answer (what id name : string) (type : RRType.t) : M Net (list string) :=
  r ← gets (TestDNSAnswer id name type);
  match r with
  | inl e => throw ("Failed to look up " +:+ what +:+ " record for " +:+ name +:+ ": "
                    +:+ pretty (errorType e) +:+ " " +:+ exceptionName e +:+ " " +:+ errorMessage e)
  | inr records => mret records
  end.

(** A record that bears the tag. *)
Definition tagged (record : string) : bool :=
  match str_find heritageTag record with Some _ => true | None => false end.

Definition safeToModifyDNS (name : string) (type : RRType.t) : M Net bool :=
  id ← hosted_zone name;
  base ← answer "A" id name type;
  let baseRecordExists := negb (bool_decide (base = [])) in
  texts ← answer "TXT" id name RRType.TXT;
  let heritageRecordExists := existsb tagged texts in
  mret (negb baseRecordExists || heritageRecordExists).

Definition canUpdateDNS : bool := DNSManipulator.validServer dnsClient.

Definition getDNSRecord (type : RRType.t) (name : string) : M Net (list string) :=
  if negb (DNSManipulator.validServer dnsClient) then throw "No valid Route53 server" else
  id ← hosted_zone name;
  answer (RRType.GetNameForRRType type) id name type.

(** The text that the server leaves beside its records. *)
Definition heritage : string := dquote +:+ heritageTag +:+ dquote.

Definition both (action : ChangeAction) (name address : string) (type : RRType.t) : list Change :=
  [(action, mkResourceRecordSet name type [address] 300);
   (action, mkResourceRecordSet name RRType.TXT [heritage] 300)].

(** A batch of changes: whether it is done. *)
Definition submit (id : string) (changes : list Change) : M Net bool := λ net,
  let '(outcome, net) := ChangeResourceRecordSets id changes net in
  (Ok (match outcome with Some _ => false | None => true end), net).

(** [setDNSRecord] and [removeDNSRecord] are alike but for the action. *)
Definition change_record (action : ChangeAction) (name address : string) : M Net bool :=
  if negb (DNSManipulator.validServer dnsClient) then throw "No valid Route53 server" else
  type ← lift (record_type address);
  safe ← safeToModifyDNS name type;
  if negb safe then mret false else
  id ← hosted_zone name;
  submit id (both action name address type).

Definition setDNSRecord (name address : string) : M Net bool := change_record UPSERT name address.
Definition removeDNSRecord (name address : string) : M Net bool := change_record DELETE_ name address.
End manipulator.

(** * What the service does *)

(** A batch, on the records of a zone: [UPSERT] makes the set of a name and a type what it
    says, and [DELETE_] removes it. *)
Definition apply_change (change : Change) (records : string → RRType.t → list string) :
    string → RRType.t → list string := λ name type,
  if bool_decide (name = setName change.2 ∧ type = setType change.2)
  then match change.1 with UPSERT => setRecords change.2 | DELETE_ => [] end
  else records name type.

Lemma apply_change_at change records name type :
  apply_change change records name type =
  if bool_decide (name = setName change.2 ∧ type = setType change.2)
  then match change.1 with UPSERT => setRecords change.2 | DELETE_ => [] end
  else records name type.
Proof. done. Qed.

Definition apply_changes (changes : list Change) (records : string → RRType.t → list string) :
    string → RRType.t → list string := foldl (λ r c, apply_change c r) records changes.

(** A set can be deleted by saying exactly what it is. *)
Definition matches (records : string → RRType.t → list string) (change : Change) : Prop :=
  match change.1 with
  | UPSERT => True
  | DELETE_ => records (setName change.2) (setType change.2) = setRecords change.2
  end.

(** [answers] is what is stored; a batch is done as a whole or not at all. While the service
    is up it answers, and does what can be done in a zone of the account. *)
Class Route53Laws {Net} `{R : !Route53 Net} := {
  answers : Net → string → string → RRType.t → list string;
  dns_up : Net → Prop;
  test_answer : ∀ id name type net l,
    TestDNSAnswer id name type net = inr l → l = answers net id name type;
  changes_failed : ∀ id changes net e net',
    ChangeResourceRecordSets id changes net = (Some e, net') →
    ∀ id' name type, answers net' id' name type = answers net id' name type;
  changes_done : ∀ id changes net net',
    ChangeResourceRecordSets id changes net = (None, net') →
    ∀ id' name type, answers net' id' name type =
      if bool_decide (id' = id) then apply_changes changes (answers net id) name type
      else answers net id' name type;
  test_up : ∀ id name type net, dns_up net → ∃ l, TestDNSAnswer id name type net = inr l;
  changes_up : ∀ id changes net, dns_up net →
    dns_up (ChangeResourceRecordSets id changes net).2 ∧
    (Forall (matches (answers net id)) changes →
     (ChangeResourceRecordSets id changes net).1 = None);
}.

(** * The zone of a name *)

Lemma rfind_char_last c s t : without c t → rfind_char c (s +:+ String c t) = Some (str_size s).
Proof.
  intros Ht. induction s as [|d s IH]; simpl; [|by rewrite IH].
  assert (Hn : rfind_char c t = None).
  { induction t as [|d t IH]; [done|]. unfold without in Ht. simpl in *.
    apply andb_true_iff in Ht as [Hd Ht]. rewrite IH by done. by destruct (char_is c d). }
  rewrite Hn. unfold char_is. by rewrite bool_decide_true.
Qed.

Lemma rfind_char_some c s pos :
  rfind_char c s = Some pos →
  ∃ t, s = str_take pos s +:+ String c t ∧ without c t ∧ pos = str_size (str_take pos s).
Proof.
  revert pos. induction s as [|d s IH]; intros pos; simpl; [done|].
  destruct (rfind_char c s) as [i|] eqn:Hi.
  { intros [= <-]. destruct (IH i eq_refl) as (t & Heq & Ht & Hs). exists t. simpl.
    split; [by rewrite <- Heq|]. split; [done|]. by rewrite <- Hs. }
  unfold char_is. case_bool_decide; [|done]. subst d. intros [= <-]. exists s. split; [done|].
  split; [|done]. clear IH. revert Hi. unfold without. induction s as [|d s IH]; simpl; [done|].
  destruct (rfind_char c s); [done|]. destruct (char_is c d); [done|]. simpl. auto.
Qed.

Lemma str_drop_past s c t : str_drop (S (str_size s)) (s +:+ String c t) = t.
Proof. replace (S (str_size s)) with (str_size s + 1) by lia. by rewrite str_drop_app_add. Qed.

(** The zone of a name consists of its last two labels, followed by a dot, and only a name
    with more than two labels has one. *)
Theorem zoneForName_correct (name zone : string) :
  zoneForName name = Ok zone ↔
  ∃ host label top, name = host +:+ "." +:+ label +:+ "." +:+ top ∧
    without "."%char label ∧ without "."%char top ∧ zone = label +:+ "." +:+ top +:+ ".".
Proof.
  split.
  - unfold zoneForName. destruct (rfind_char _ name) as [[|pos]|] eqn:Hp; [done| |done].
    destruct (rfind_char _ (str_take (S pos) name)) as [dot|] eqn:Hd; [|done].
    destruct (rfind_char_some _ _ _ Hp) as (top & Hn & Ht & Hs).
    destruct (rfind_char_some _ _ _ Hd) as (label & Hl & Hl' & Hs').
    set (host := str_take dot (str_take (S pos) name)) in *. clearbody host.
    intros Hz. exists host, label, top.
    assert (Hname : name = host +:+ "." +:+ label +:+ "." +:+ top).
    { etrans; [exact Hn|]. rewrite Hl. by rewrite str_app_assoc. }
    split; [done|]. split; [done|]. split; [done|]. subst dot. rewrite Hname in Hz.
    pose proof (str_drop_past host "."%char (label +:+ "." +:+ top)) as Hd'.
    assert (Hz' : zone = (label +:+ "." +:+ top) +:+ ".") by (rewrite <- Hd'; by injection Hz as <-).
    by rewrite Hz', !str_app_assoc.
  - intros (host & label & top & -> & Hl & Ht & ->). unfold zoneForName.
    assert (Hp : rfind_char "."%char (host +:+ "." +:+ label +:+ "." +:+ top)
      = Some (str_size host + S (str_size label))).
    { change (host +:+ "." +:+ label +:+ "." +:+ top)
        with (host +:+ String "." (label +:+ String "." top)).
      replace (host +:+ String "." (label +:+ String "." top))
        with ((host +:+ String "." label) +:+ String "." top) by by rewrite str_app_assoc.
      rewrite rfind_char_last by done. by rewrite str_size_app. }
    rewrite Hp, Nat.add_succ_r. cbv iota beta. rewrite <- Nat.add_succ_r, str_take_app_add.
    change (str_take (S (str_size label)) ("." +:+ label +:+ "." +:+ top))
      with (String "." (str_take (str_size label) (label +:+ "." +:+ top))).
    rewrite str_take_app, rfind_char_last by done.
    pose proof (str_drop_past host "."%char (label +:+ "." +:+ top)) as Hd.
    change (String "." (label +:+ "." +:+ top)) with ("." +:+ label +:+ "." +:+ top) in Hd.
    by rewrite Hd, !str_app_assoc.
Qed.

(** * What the server changes *)

Section changes.
Context {Net : Type} `{R : !Route53 Net} `{RL : !Route53Laws}.
Context (dnsClient : DNSManipulator.t).
Implicit Types (net : Net) (name id address : string) (type : RRType.t).

Definition in_zone name id : Prop := ∃ zone,
  zoneForName name = Ok zone ∧ DNSManipulator.hostedZones dnsClient !! zone = Some id.

(** Nothing of the kind is there, or the server has left its tag. *)
Definition may_change net id name type : Prop :=
  answers net id name type = [] ∨ existsb tagged (answers net id name RRType.TXT) = true.

Lemma in_zone_inj name id id' : in_zone name id → in_zone name id' → id = id'.
Proof. intros (z & Hz & Hi) (z' & Hz' & Hi'). congruence. Qed.

Lemma hosted_zone_spec name net :
  wp (hosted_zone dnsClient name) (λ r net', net' = net ∧ match r with
    | Ok id => in_zone name id
    | Throw _ => ∀ id, ¬ in_zone name id
    | OutOfFuel => False
    end) net.
Proof.
  unfold hosted_zone, in_zone, wp, mbind, M_bind, lift.
  assert (Hf : zoneForName name ≠ OutOfFuel).
  { unfold zoneForName. by repeat case_match. }
  destruct (zoneForName name) as [zone|e|] eqn:Hz; [|split; [done|by intros ? (? & ? & _)]|done].
  destruct (_ !! zone) as [id|] eqn:Hi; simpl; (split; [done|]); [by exists zone|].
  intros id (? & [= <-] & Hz'). congruence.
Qed.

Lemma answer_spec what id name type net :
  wp (answer what id name type) (λ r net', net' = net ∧ match r with
    | Ok l => l = answers net id name type
    | Throw _ => ¬ dns_up net
    | OutOfFuel => False
    end) net.
Proof.
  unfold answer, wp, mbind, M_bind, gets.
  destruct (TestDNSAnswer id name type net) as [e|l] eqn:Ht; simpl; (split; [done|]).
  - intros Hu. destruct (test_up id name type net Hu). congruence.
  - by eapply test_answer.
Qed.

Lemma safe_spec name type net :
  wp (safeToModifyDNS dnsClient name type) (λ r net', net' = net ∧ match r with
    | Ok safe => ∃ id, in_zone name id ∧ (safe = true ↔ may_change net id name type)
    | Throw _ => ¬ dns_up net ∨ ∀ id, ¬ in_zone name id
    | OutOfFuel => False
    end) net.
Proof.
  unfold safeToModifyDNS. eapply wp_seq; [apply hosted_zone_spec| | |].
  2: { intros e ? [-> Hn]. auto. }
  2: { by intros ? [_ []]. }
  intros id ? [-> Hid]. eapply wp_seq; [apply answer_spec| | |].
  2: { intros e ? [-> Hn]. auto. }
  2: { by intros ? [_ []]. }
  intros base ? [-> Hb]. cbv zeta. eapply wp_seq; [apply answer_spec| | |].
  2: { intros e ? [-> Hn]. auto. }
  2: { by intros ? [_ []]. }
  intros texts ? [-> Ht]. apply wp_ret. split; [done|]. exists id. split; [done|].
  unfold may_change. rewrite <- Hb, <- Ht, negb_involutive, orb_true_iff. by rewrite bool_decide_eq_true.
Qed.

(** What stands in a zone after one of the two changes. *)
Definition records_after (action : ChangeAction) (name address : string) (type : RRType.t)
    (records : string → RRType.t → list string) : string → RRType.t → list string := λ n t,
  if bool_decide (n = name) then
    if bool_decide (t = type) then match action with UPSERT => [address] | DELETE_ => [] end
    else if bool_decide (t = RRType.TXT)
    then match action with UPSERT => [heritage] | DELETE_ => [] end
    else records n t
  else records n t.

Lemma record_type_text address type : record_type address = Ok type → type ≠ RRType.TXT.
Proof. unfold record_type. by repeat case_match; intros [= <-]. Qed.

Lemma apply_both action name address type records n t :
  type ≠ RRType.TXT →
  apply_changes (both action name address type) records n t =
  records_after action name address type records n t.
Proof.
  intros Ht. unfold apply_changes, both, apply_change, records_after. simpl.
  destruct action; repeat match goal with |- context [bool_decide ?P] => destruct (decide P) as [?|?];
    [rewrite (bool_decide_true P) by done|rewrite (bool_decide_false P) by done] end; naive_solver.
Qed.

(** The state of the service after a request to change a record: [true] means that it is done,
    in the one place where it is allowed; [false] that it is not; and an error that the service
    does not answer, or that the request makes no sense. *)
Definition change_post (action : ChangeAction) name address net (r : Res bool) (net' : Net) : Prop :=
  match r with
  | Ok true => ∃ type id, record_type address = Ok type ∧ in_zone name id ∧
      may_change net id name type ∧
      ∀ id' n t, answers net' id' n t =
        if bool_decide (id' = id)
        then records_after action name address type (answers net id) n t
        else answers net id' n t
  | Ok false => (∀ id n t, answers net' id n t = answers net id n t) ∧
      (dns_up net → ∃ type id, record_type address = Ok type ∧ in_zone name id ∧
        (¬ may_change net id name type ∨
         action = DELETE_ ∧ ¬ (answers net id name type = [address] ∧
                               answers net id name RRType.TXT = [heritage])))
  | Throw _ => net' = net ∧
      (dns_up net → DNSManipulator.validServer dnsClient = true →
       (∀ type, record_type address ≠ Ok type) ∨ ∀ id, ¬ in_zone name id)
  | OutOfFuel => False
  end.

Lemma submit_spec id action name address type net :
  type ≠ RRType.TXT →
  wp (submit id (both action name address type)) (λ r net', ∃ b, r = Ok b ∧
    (dns_up net → dns_up net') ∧
    if b : bool then ∀ id' n t, answers net' id' n t =
        if bool_decide (id' = id)
        then records_after action name address type (answers net id) n t
        else answers net id' n t
    else (∀ id n t, answers net' id n t = answers net id n t) ∧
      (dns_up net → action = DELETE_ ∧ ¬ (answers net id name type = [address] ∧
                               answers net id name RRType.TXT = [heritage]))) net.
Proof.
  intros Htxt. unfold submit, wp.
  pose proof (λ Hu, changes_up id (both action name address type) net Hu) as Hup.
  destruct (ChangeResourceRecordSets _ _ net) as [[e|] net'] eqn:Hc; simpl in *.
  - exists false. split; [done|]. split; [apply Hup|].
    split; [by eapply changes_failed|]. intros Hu. destruct (Hup Hu) as [_ Hok].
    assert (Hn : ¬ Forall (matches (answers net id)) (both action name address type)) by
      (by intros Hm; specialize (Hok Hm)).
    destruct action; [destruct Hn; by repeat constructor|]. split; [done|]. intros [Ha Ht].
    apply Hn. by repeat constructor.
  - exists true. split; [done|]. split; [apply Hup|]. intros id' n t.
    rewrite (changes_done _ _ _ _ Hc). by rewrite apply_both.
Qed.

Lemma change_spec action name address net :
  wp (change_record dnsClient action name address) (change_post action name address net) net.
Proof.
  unfold change_record. destruct (DNSManipulator.validServer dnsClient) eqn:Hv; simpl; [|by split; [|congruence]].
  assert (Hf : record_type address ≠ OutOfFuel).
  { unfold record_type. by repeat case_match. }
  destruct (record_type address) as [type|e|] eqn:Ht; [| |done].
  2: { split; [done|]. intros _ _. left. by rewrite Ht. }
  change (lift (Ok type)) with (mret (M:=M Net) type). rewrite bind_ret.
  eapply wp_seq; [apply safe_spec| | |].
  2: { intros e ? [-> Hn]. split; [done|]. intros Hu _. destruct Hn as [|Hn]; [done|by right]. }
  2: { by intros ? [_ []]. }
  intros safe ? [-> (id & Hid & Hs)]. destruct safe; simpl.
  2: { apply wp_ret. split; [done|]. intros _. exists type, id. split; [done|]. split; [done|].
       left. intros Hm. by apply Hs in Hm. }
  eapply wp_seq; [apply hosted_zone_spec| | |].
  2: { intros e ? [_ Hn]. by destruct (Hn id). }
  2: { by intros ? [_ []]. }
  intros id' ? [-> Hid']. rewrite (in_zone_inj name id' id) by done.
  eapply wp_mono, submit_spec; [|by eapply record_type_text].
  intros r net' (b & -> & _ & Hb). destruct b; simpl.
  - exists type, id. split; [done|]. split; [done|]. split; [by apply Hs|done].
  - destruct Hb as [Hb Hn]. split; [done|]. intros Hu. exists type, id. split; [done|].
    split; [done|]. right. by apply Hn.
Qed.

End changes.

(** * A service to try it on *)

Module DemoDns.
(** The sets of records, by zone, name and type. *)
Abbreviation Net := (gmap (string * string * RRType.t) (list string)).

Definition stored (net : Net) (id name : string) (type : RRType.t) : list string :=
  default [] (net !! (id, name, type)).

Definition matching (net : Net) (id : string) (change : Change) : bool :=
  match change.1 with
  | UPSERT => true
  | DELETE_ => bool_decide (stored net id (setName change.2) (setType change.2) = setRecords change.2)
  end.

Definition write (id : string) (net : Net) (change : Change) : Net :=
  <[(id, setName change.2, setType change.2) :=
    match change.1 with UPSERT => setRecords change.2 | DELETE_ => [] end]> net.

#[export] Instance route53 : Route53 Net := {
  TestDNSAnswer id name type net := inr (stored net id name type);
  ChangeResourceRecordSets id changes net :=
    if forallb (matching net id) changes then (None, foldl (write id) net changes)
    else (Some (mkAwsError 37 "InvalidChangeBatch" "not found"), net) }.

Lemma written_one id net c id' name type :
  stored (write id net c) id' name type =
  if bool_decide (id' = id) then apply_change c (stored net id) name type
  else stored net id' name type.
Proof.
  unfold stored, write, apply_change.
  destruct (decide ((id', name, type) = (id, setName c.2, setType c.2))) as [Heq|Hne].
  - injection Heq as -> -> ->. rewrite lookup_insert_eq. by rewrite !bool_decide_true.
  - rewrite lookup_insert_ne by done. case_bool_decide; [subst|done].
    by rewrite bool_decide_false by naive_solver.
Qed.

Lemma written id changes net id' name type :
  stored (foldl (write id) net changes) id' name type =
  if bool_decide (id' = id) then apply_changes changes (stored net id) name type
  else stored net id' name type.
Proof.
  unfold apply_changes. revert name type. induction changes as [|c changes IH] using rev_ind; intros name type.
  { simpl. case_bool_decide; by subst. }
  rewrite !foldl_app. simpl. rewrite written_one. case_bool_decide; [subst id'|].
  - rewrite !apply_change_at. case_bool_decide; [done|apply IH].
  - exact (IH name type).
Qed.

#[export] Program Instance laws : Route53Laws := {
  answers := stored; dns_up _ := True }.
Next Obligation. by intros id name type net l [= <-]. Qed.
Next Obligation. intros id changes net e net' Hc. simpl in Hc. case_match; by simplify_eq. Qed.
Next Obligation.
  intros id changes net net' Hc id' name type. simpl in Hc. case_match; simplify_eq. apply written.
Qed.
Next Obligation. intros id name type net _. by eexists. Qed.
Next Obligation.
  intros id changes net _. split; [done|]. intros Hm. simpl.
  assert (Hall : forallb (matching net id) changes = true); [|by rewrite Hall].
  induction Hm as [|[[] s] changes Hs _ IH]; simpl; [done..|].
  unfold matching, matches in *. simpl in *. by rewrite bool_decide_true.
Qed.

Definition client : DNSManipulator.t :=
  DNSManipulator.mk {["slateci.net." := "Z0"]} true.

(** A record that the server sets is there, and it can take it back; one that it has not made
    stays. *)
Example records :
  ((b ← setDNSRecord client "*.c1.slateci.net" "10.0.0.1";
    l ← getDNSRecord client RRType.A "*.c1.slateci.net";
    b' ← removeDNSRecord client "*.c1.slateci.net" "10.0.0.1";
    l' ← getDNSRecord client RRType.A "*.c1.slateci.net";
    mret (b, l, b', l')) ∅).1 = Ok (true, ["10.0.0.1"], true, []) ∧
  (setDNSRecord client "www.slateci.net" "10.0.0.1"
     {[("Z0", "www.slateci.net", RRType.A) := ["10.0.0.9"]]}).1 = Ok false ∧
  (setDNSRecord client "www.slateci.org" "10.0.0.1" ∅).1 =
    Throw "slateci.org. is not a hosted zone in this AWS account".
Proof. vm_compute. done. Qed.

(** A name that somebody else's record has. *)
Definition taken : Net := {[("Z0", "www.slateci.net", RRType.A) := ["10.0.0.9"]]}.


(** A text record beside the name, without the tag of the server, does not keep the server
    from making the name its own: the text is overwritten. *)
Example foreign_text_overwritten :
  let net : Net := {[("Z0", "www.slateci.net", RRType.TXT) := ["v=spf1"]]} in
  (setDNSRecord client "www.slateci.net" "10.0.0.1" net).1 = Ok true ∧
  stored (setDNSRecord client "www.slateci.net" "10.0.0.1" net).2 "Z0" "www.slateci.net"
    RRType.TXT ≠ ["v=spf1"].
Proof. split; vm_compute; done. Qed.
End DemoDns.
