(* ===== verification/Bytes.v ===== *)
(** Bytes: strings as lists of 8-bit values, and access to the characters of a C++ string
    and of a buffer. *)

From S2P Require Import Prelude.
#[local] Open Scope Z_scope.

(** * Bytes of a string *)

Definition is_byte (b : Z) : Prop := 0 ≤ b < 256.

Definition byte_of (c : ascii) : Z := Z.of_N (Ascii.N_of_ascii c).
Definition char_of (b : Z) : ascii := Ascii.ascii_of_N (Z.to_N b).

Fixpoint bytes_of (s : string) : list Z :=
  match s with EmptyString => [] | String c s => byte_of c :: bytes_of s end.

Fixpoint string_of (l : list Z) : string :=
  match l with [] => EmptyString | b :: l => String (char_of b) (string_of l) end.

(** Storing into an [unsigned char]. *)
Definition u8 (z : Z) : Z := z mod 256.

Lemma byte_of_byte c : is_byte (byte_of c).
Proof. unfold is_byte, byte_of. pose proof (Ascii.N_ascii_bounded c). lia. Qed.

Lemma char_of_byte_of c : char_of (byte_of c) = c.
Proof. unfold char_of, byte_of. by rewrite N2Z.id, Ascii.ascii_N_embedding. Qed.

Lemma byte_of_char_of b : is_byte b → byte_of (char_of b) = b.
Proof.
  unfold is_byte, byte_of, char_of. intros Hb.
  rewrite Ascii.N_ascii_embedding by lia. lia.
Qed.

Lemma bytes_of_bytes s : Forall is_byte (bytes_of s).
Proof. induction s; simpl; constructor; [apply byte_of_byte|done]. Qed.

Lemma string_of_bytes_of s : string_of (bytes_of s) = s.
Proof. induction s as [|c s IH]; simpl; [done|]. by rewrite char_of_byte_of, IH. Qed.

Lemma bytes_of_string_of l : Forall is_byte l → bytes_of (string_of l) = l.
Proof. induction 1 as [|b l Hb Hl IH]; simpl; [done|]. by rewrite byte_of_char_of, IH. Qed.

Lemma bytes_of_length s : length (bytes_of s) = str_size s.
Proof. induction s; simpl; congruence. Qed.

Lemma bytes_of_app s t : bytes_of (s +:+ t) = bytes_of s ++ bytes_of t.
Proof. induction s; simpl; congruence. Qed.

Lemma string_of_app l k : string_of (l ++ k) = string_of l +:+ string_of k.
Proof. induction l; simpl; congruence. Qed.

Lemma bytes_of_inj s t : bytes_of s = bytes_of t → s = t.
Proof. intros H. by rewrite <- (string_of_bytes_of s), H, string_of_bytes_of. Qed.

Lemma u8_small b : is_byte b → u8 b = b.
Proof. apply Z.mod_small. Qed.

(** * Access *)

(** [s[i]]: the terminating NUL may be read, what lies behind it not. *)
Definition char_at (s : list Z) (i : nat) : option Z :=
  if decide (i = length s) then Some 0 else s !! i.

Lemma char_at_app s t i : (i < length t)%nat → char_at (s ++ t) (length s + i) = t !! i.
Proof.
  intros Hi. unfold char_at. rewrite length_app, decide_False by lia.
  rewrite lookup_app_r by lia. f_equal. lia.
Qed.

Lemma char_at_end s : char_at s (length s) = Some 0.
Proof. unfold char_at. by rewrite decide_True. Qed.

(** * Bits *)

(** Taking [n] bits from position [k] on: the mask [((1u<<n)-1)<<k] and the shift back. *)
Definition take_bits (b n k : Z) : Z :=
  let mask := Z.shiftl (Z.shiftl 1 n - 1) k in Z.shiftr (Z.land b mask) k.

Lemma take_bits_eq b n k : 0 ≤ n → 0 ≤ k → take_bits b n k = (b / 2 ^ k) mod 2 ^ n.
Proof.
  intros Hn Hk. unfold take_bits. rewrite Z.shiftl_1_l.
  replace (2 ^ n - 1) with (Z.ones n) by (rewrite Z.ones_equiv; lia).
  rewrite <- Z.land_ones, <- Z.shiftr_div_pow2 by done. apply Z.bits_inj'. intros i Hi.
  rewrite Z.shiftr_spec, !Z.land_spec, Z.shiftl_spec, Z.shiftr_spec by lia.
  by replace (i + k - k) with i by lia.
Qed.

Lemma land_low b n : 0 ≤ n → Z.land b (Z.shiftl 1 n - 1) = b mod 2 ^ n.
Proof.
  intros Hn. rewrite Z.shiftl_1_l.
  replace (2 ^ n - 1) with (Z.ones n) by (rewrite Z.ones_equiv; lia). by apply Z.land_ones.
Qed.

(** Or-ing bits below the lowest bit set adds them. *)
Lemma lor_add a b n : 0 ≤ n → 0 ≤ b < 2 ^ n → Z.lor (a * 2 ^ n) b = a * 2 ^ n + b.
Proof.
  intros Hn Hb. rewrite <- Z.shiftl_mul_pow2 by done.
  assert (Hz : Z.land (Z.shiftl a n) b = 0).
  { apply Z.bits_inj'. intros i Hi. rewrite Z.land_spec, Z.bits_0.
    destruct (Z.lt_ge_cases i n) as [Hlt|Hge].
    - by rewrite Z.shiftl_spec_low.
    - rewrite <- (Z.mod_small b (2 ^ n)) by done. rewrite Z.mod_pow2_bits_high by lia.
      by rewrite andb_false_r. }
  by rewrite Z.add_nocarry_lxor, Z.lxor_lor.
Qed.

(** Splits hypotheses and goals on all the elements of an explicit list. *)
Ltac split_Forall :=
  repeat match goal with
  | H : Forall _ (_ :: _) |- _ => apply Forall_cons_iff in H as [? H]
  | H : Forall _ [] |- _ => clear H
  | |- Forall _ (_ :: _) => apply Forall_cons_iff; split
  | |- Forall _ [] => apply Forall_nil_2
  end.

(** Arithmetic of bytes: quotients, remainders and bounds by powers of two, whose exponents
    are closed. *)
Ltac eval_powers :=
  repeat match goal with
  | |- context [2 ^ ?e] =>
      let v := eval vm_compute in (2 ^ e) in
      lazymatch isZcst v with true => change (2 ^ e) with v end
  end.
Ltac byte_lia := unfold is_byte, u8 in *; eval_powers; Z.div_mod_to_equations; lia.
