(* ===== verification/Base64.v ===== *)
(** Base64: [sanityCheckBase64], [decodeBase64] and [encodeBase64] of src/Archive.cpp, bit by
    bit and index by index as the code computes them, against RFC 4648.

    Both conversions return [None] when the code would read or write outside its strings,
    which C++ leaves undefined. *)

From S2P Require Import Prelude Bytes.
#[local] Open Scope Z_scope.

(** * The tables *)

Definition base64lookupTable : list Z :=
  bytes_of "ABCDEFGHIJKLMNOPQRSTUVWXYZabcdefghijklmnopqrstuvwxyz0123456789+/".

Definition lookupTable : list Z :=
  [-1;-1;-1;-1;-1;-1;-1;-1;-1;-1;-1;-1;-1;-1;-1;-1;
   -1;-1;-1;-1;-1;-1;-1;-1;-1;-1;-1;-1;-1;-1;-1;-1;
   -1;-1;-1;-1;-1;-1;-1;-1;-1;-1;-1;62;-1;-1;-1;63;
   52;53;54;55;56;57;58;59;60;61;-1;-1;-1; 0;-1;-1;
   -1; 0; 1; 2; 3; 4; 5; 6; 7; 8; 9;10;11;12;13;14;
   15;16;17;18;19;20;21;22;23;24;25;-1;-1;-1;-1;-1;
   -1;26;27;28;29;30;31;32;33;34;35;36;37;38;39;40;
   41;42;43;44;45;46;47;48;49;50;51;-1;-1;-1;-1;-1].

Definition eq_sign : Z := 61.

(** * Encoding *)

(** One pass of the loop: the next six bits, and the new [inputIdx] and [availBits]. *)
Definition encode_step (raw : list Z) (inputIdx : nat) (availBits : Z) : option (Z * nat * Z) :=
  let getBits := Z.min 6 availBits in
  c ← char_at raw inputIdx;
  let lutIdx := u8 (Z.shiftl (take_bits c getBits (availBits - getBits)) (6 - getBits)) in
  let availBits := availBits - getBits in
  if availBits =? 0 then
    let inputIdx := S inputIdx in
    let availBits := 8 in
    if getBits <? 6 then
      let getBits := 6 - getBits in
      c ← char_at raw inputIdx;
      Some (u8 (Z.lor lutIdx (take_bits c getBits (availBits - getBits))),
            inputIdx, availBits - getBits)
    else Some (lutIdx, inputIdx, availBits)
  else Some (lutIdx, inputIdx, availBits).

(** [n] passes. *)
Fixpoint encode_loop (n : nat) (raw : list Z) (inputIdx : nat) (availBits : Z) :
    option (list Z) :=
  match n with
  | O => Some []
  | S n =>
      '(lutIdx, inputIdx, availBits) ← encode_step raw inputIdx availBits;
      c ← char_at base64lookupTable (Z.to_nat lutIdx);
      encoded ← encode_loop n raw inputIdx availBits;
      Some (c :: encoded)
  end.

Definition encodeBase64 (raw : string) : option string :=
  let raw := bytes_of raw in
  let pad := ((3 - length raw mod 3) mod 3)%nat in
  let outLen := (4 * ((length raw + 2) / 3))%nat in
  encoded ← encode_loop (outLen - pad) raw 0 8;
  Some (string_of (encoded ++ replicate pad eq_sign)).

(** * Decoding *)

(** [*outData|=v]: the byte behind the last one is the terminating NUL, which may only be
    overwritten with NUL. *)
Definition or_at (outLen : nat) (decoded : list Z) (i : nat) (v : Z) : option (list Z) :=
  b ← decoded !! i;
  if decide ((i < outLen)%nat ∨ u8 (Z.lor b v) = 0)
  then Some (<[i := u8 (Z.lor b v)]> decoded) else None.

Definition decode_step (outLen : nat) (newBits : Z) (decoded : list Z) (outIdx : nat)
    (curBits : Z) : option (list Z * nat * Z) :=
  let putBits := Z.min (8 - curBits) 6 in
  decoded ← or_at outLen decoded outIdx
    (Z.shiftl (take_bits newBits putBits (6 - putBits)) (8 - curBits - putBits));
  let curBits := curBits + putBits in
  if curBits =? 8 then
    let outIdx := S outIdx in
    if putBits <? 6 then
      let putBits := 6 - putBits in
      decoded ← or_at outLen decoded outIdx
        (Z.shiftl (Z.land newBits (Z.shiftl 1 putBits - 1)) (8 - putBits));
      Some (decoded, outIdx, putBits)
    else Some (decoded, outIdx, 0)
  else Some (decoded, outIdx, curBits).

Fixpoint decode_loop (outLen : nat) (coded decoded : list Z) (outIdx : nat) (curBits : Z) :
    option (Res (list Z)) :=
  match coded with
  | [] => Some (Ok decoded)
  | next :: coded =>
      if next =? eq_sign then Some (Ok decoded) else
      match (if next <? 128 then lookupTable !! Z.to_nat next else Some (-1)) with
      | None => None
      | Some newBits =>
          if newBits =? -1
          then Some (Throw ("Illegal base64 character: '" +:+ String (char_of next) "'"))
          else
            '(decoded, outIdx, curBits) ← decode_step outLen newBits decoded outIdx curBits;
            decode_loop outLen coded decoded outIdx curBits
      end
  end.

(** The size without the trailing signs. *)
Fixpoint strip_eq (rev_coded : list Z) : list Z :=
  match rev_coded with
  | c :: l => if c =? eq_sign then strip_eq l else c :: l
  | [] => []
  end.

Definition decodeBase64 (coded : string) : option (Res string) :=
  let coded := bytes_of coded in
  let codedSize := length (strip_eq (reverse coded)) in
  let outLen := ((codedSize * 3) / 4)%nat in
  decoded ← decode_loop outLen coded (replicate (S outLen) 0) 0 0;
  Some (res_map (λ d, string_of (take outLen d)) decoded).

(** [str.find_first_not_of] in the table, then in the sign. *)
Fixpoint sanity_check (str : list Z) : bool :=
  match str with
  | [] => true
  | c :: str =>
      if bool_decide (c ∈ base64lookupTable) then sanity_check str
      else forallb (λ c, c =? eq_sign) (c :: str)
  end.

Definition sanityCheckBase64 (str : string) : bool := sanity_check (bytes_of str).

Example encode_examples :
  encodeBase64 "Man" = Some "TWFu" ∧ encodeBase64 "Ma" = Some "TWE=" ∧
  encodeBase64 "M" = Some "TQ==" ∧ encodeBase64 "" = Some "".
Proof. vm_compute. done. Qed.

Example decode_examples :
  decodeBase64 "TWFu" = Some (Ok "Man") ∧ decodeBase64 "TWE=" = Some (Ok "Ma") ∧
  decodeBase64 "TR==" = None ∧ decodeBase64 "T-==" = Some (Throw "Illegal base64 character: '-'").
Proof. vm_compute. done. Qed.

(** * RFC 4648 *)

(** Three bytes make four digits; the last one or two are completed by zero bits. *)
Fixpoint rfc4648_digits (l : list Z) : list Z :=
  match l with
  | b0 :: b1 :: b2 :: l =>
      b0 / 4 :: (b0 mod 4) * 16 + b1 / 16 :: (b1 mod 16) * 4 + b2 / 64 :: b2 mod 64
        :: rfc4648_digits l
  | [b0; b1] => [b0 / 4; (b0 mod 4) * 16 + b1 / 16; (b1 mod 16) * 4]
  | [b0] => [b0 / 4; (b0 mod 4) * 16]
  | [] => []
  end.

Definition rfc4648_padding (l : list Z) : list Z :=
  match (length l mod 3)%nat with 1%nat => [eq_sign; eq_sign] | 2%nat => [eq_sign] | _ => [] end.

Definition digit (d : Z) : Z := default 0 (base64lookupTable !! Z.to_nat d).

Definition rfc4648 (raw : string) : string :=
  string_of ((digit <$> rfc4648_digits (bytes_of raw)) ++ rfc4648_padding (bytes_of raw)).

Definition is_digit (d : Z) : Prop := 0 ≤ d < 64.

(** Induction on groups of three. *)
Lemma groups_ind (P : list Z → Prop) :
  P [] → (∀ b0, P [b0]) → (∀ b0 b1, P [b0; b1]) →
  (∀ b0 b1 b2 l, P l → P (b0 :: b1 :: b2 :: l)) → ∀ l, P l.
Proof.
  intros H0 H1 H2 H3. fix IH 1.
  intros [|b0 [|b1 [|b2 l]]]; [exact H0|apply H1|apply H2|apply H3, IH].
Qed.

(** ** The tables *)

(** A property of all digits that can be evaluated. *)
Lemma digits_forall (P : Z → bool) :
  forallb P (seqZ 0 64) = true → ∀ d, is_digit d → P d = true.
Proof.
  intros Hall d Hd. rewrite forallb_forall in Hall. apply Hall, list_elem_of_In, elem_of_seqZ.
  unfold is_digit in Hd. lia.
Qed.

Lemma table_char d : is_digit d → char_at base64lookupTable (Z.to_nat d) = Some (digit d).
Proof.
  intros Hd. pose proof (digits_forall (λ d, bool_decide
    (char_at base64lookupTable (Z.to_nat d) = Some (digit d)))) as H.
  eapply bool_decide_eq_true, H; [vm_compute; reflexivity|done].
Qed.

Lemma digit_facts d :
  is_digit d → is_byte (digit d) ∧ digit d ≠ eq_sign ∧ digit d < 128 ∧
  lookupTable !! Z.to_nat (digit d) = Some d ∧ digit d ∈ base64lookupTable.
Proof.
  intros Hd. pose proof (digits_forall (λ d, bool_decide (0 ≤ digit d) &&
    bool_decide (digit d < 128) && bool_decide (digit d ≠ eq_sign) &&
    bool_decide (lookupTable !! Z.to_nat (digit d) = Some d) &&
    bool_decide (digit d ∈ base64lookupTable))) as H.
  specialize (H ltac:(vm_compute; reflexivity) d Hd). simpl in H.
  rewrite !andb_true_iff, !bool_decide_eq_true in H. unfold is_byte. naive_solver lia.
Qed.

Lemma rfc4648_digits_digits l : Forall is_byte l → Forall is_digit (rfc4648_digits l).
Proof.
  induction l as [|b0|b0 b1|b0 b1 b2 l IH] using groups_ind; intros Hb; simpl; split_Forall;
    first [by apply IH|unfold is_digit; byte_lia].
Qed.

(** ** The encoder *)

(** The four states of the encoder: how many bits of the current byte are left. *)
Lemma encode_step_8 raw i b :
  char_at raw i = Some b → is_byte b → encode_step raw i 8 = Some (b / 4, i, 2).
Proof.
  intros Hb Hr. unfold encode_step. rewrite Hb. simpl.
  rewrite take_bits_eq, Z.shiftl_0_r by done. do 3 f_equal. byte_lia.
Qed.

Lemma encode_step_2 raw i b b' :
  char_at raw i = Some b → char_at raw (S i) = Some b' → is_byte b → is_byte b' →
  encode_step raw i 2 = Some ((b mod 4) * 16 + b' / 16, S i, 4).
Proof.
  intros Hb Hb' Hr Hr'. unfold encode_step. rewrite Hb. simpl. rewrite Hb'. simpl.
  rewrite !take_bits_eq, Z.shiftl_mul_pow2 by done. rewrite (u8_small (_ * _)).
  2: byte_lia.
  rewrite lor_add; [|done|byte_lia].
  do 3 f_equal. byte_lia.
Qed.

Lemma encode_step_4 raw i b b' :
  char_at raw i = Some b → char_at raw (S i) = Some b' → is_byte b → is_byte b' →
  encode_step raw i 4 = Some ((b mod 16) * 4 + b' / 64, S i, 6).
Proof.
  intros Hb Hb' Hr Hr'. unfold encode_step. rewrite Hb. simpl. rewrite Hb'. simpl.
  rewrite !take_bits_eq, Z.shiftl_mul_pow2 by done. rewrite (u8_small (_ * _)).
  2: byte_lia.
  rewrite lor_add; [|done|byte_lia].
  do 3 f_equal. byte_lia.
Qed.

Lemma encode_step_6 raw i b :
  char_at raw i = Some b → is_byte b → encode_step raw i 6 = Some (b mod 64, S i, 8).
Proof.
  intros Hb Hr. unfold encode_step. rewrite Hb. simpl.
  rewrite take_bits_eq, Z.shiftl_0_r by done. do 3 f_equal. byte_lia.
Qed.

Lemma encode_loop_S n raw i a d i' a' :
  encode_step raw i a = Some (d, i', a') → is_digit d →
  encode_loop (S n) raw i a = cons (digit d) <$> encode_loop n raw i' a'.
Proof.
  intros Hs Hd. simpl. rewrite Hs. simpl. rewrite table_char by done. simpl.
  by destruct (encode_loop n raw i' a').
Qed.

(** From a group boundary the loop emits the digits of the rest. *)
Lemma encode_loop_digits l pre :
  Forall is_byte l →
  encode_loop (length (rfc4648_digits l)) (pre ++ l) (length pre) 8 =
    Some (digit <$> rfc4648_digits l).
Proof.
  revert pre. induction l as [|b0|b0 b1|b0 b1 b2 l IH] using groups_ind; intros pre Hb.
  - done.
  - split_Forall. change (length (rfc4648_digits [b0])) with 2%nat.
    assert (Hc0 : char_at (pre ++ [b0]) (length pre) = Some b0).
    { rewrite <- (Nat.add_0_r (length pre)). by rewrite char_at_app by (simpl; lia). }
    assert (Hc1 : char_at (pre ++ [b0]) (S (length pre)) = Some 0).
    { rewrite <- (char_at_end (pre ++ [b0])). f_equal. rewrite length_app. simpl. lia. }
    erewrite encode_loop_S; [|by apply encode_step_8|unfold is_digit; byte_lia].
    erewrite encode_loop_S; [|by eapply encode_step_2|unfold is_digit; byte_lia].
    simpl. by rewrite Z.add_0_r.
  - split_Forall. change (length (rfc4648_digits [b0; b1])) with 3%nat.
    assert (Hc0 : char_at (pre ++ [b0; b1]) (length pre) = Some b0).
    { rewrite <- (Nat.add_0_r (length pre)). by rewrite char_at_app by (simpl; lia). }
    assert (Hc1 : char_at (pre ++ [b0; b1]) (S (length pre)) = Some b1).
    { rewrite <- Nat.add_1_r. by rewrite char_at_app by (simpl; lia). }
    assert (Hc2 : char_at (pre ++ [b0; b1]) (S (S (length pre))) = Some 0).
    { rewrite <- (char_at_end (pre ++ [b0; b1])). f_equal. rewrite length_app. simpl. lia. }
    erewrite encode_loop_S; [|by apply encode_step_8|unfold is_digit; byte_lia].
    erewrite encode_loop_S; [|by eapply encode_step_2|unfold is_digit; byte_lia].
    erewrite encode_loop_S; [|by eapply encode_step_4|unfold is_digit; byte_lia].
    simpl. by rewrite Z.add_0_r.
  - split_Forall.
    assert (Hat : ∀ k b, [b0; b1; b2] !! k = Some b →
      char_at (pre ++ b0 :: b1 :: b2 :: l) (length pre + k) = Some b).
    { intros k b Hk. pose proof (lookup_lt_Some _ _ _ Hk). simpl in *.
      rewrite char_at_app by (simpl; lia). by do 3 (destruct k; [done|]). }
    pose proof (Hat 0%nat b0 eq_refl) as Hc0'. pose proof (Hat 1%nat b1 eq_refl) as Hc1'.
    pose proof (Hat 2%nat b2 eq_refl) as Hc2'.
    rewrite Nat.add_0_r in Hc0'. rewrite Nat.add_1_r in Hc1'.
    replace (length pre + 2)%nat with (S (S (length pre))) in Hc2' by lia.
    change (length (rfc4648_digits (b0 :: b1 :: b2 :: l)))
      with (S (S (S (S (length (rfc4648_digits l)))))).
    erewrite encode_loop_S; [|by apply encode_step_8|unfold is_digit; byte_lia].
    erewrite encode_loop_S; [|by eapply encode_step_2|unfold is_digit; byte_lia].
    erewrite encode_loop_S; [|by eapply encode_step_4|unfold is_digit; byte_lia].
    erewrite encode_loop_S; [|by eapply encode_step_6|unfold is_digit; byte_lia].
    specialize (IH (pre ++ [b0; b1; b2]) Hb). rewrite <- app_assoc in IH.
    rewrite length_app in IH. simpl in IH.
    replace (length pre + 3)%nat with (S (S (S (length pre)))) in IH by lia.
    by rewrite IH.
Qed.

Lemma rfc4648_length l :
  length (rfc4648_digits l) = (4 * ((length l + 2) / 3) - (3 - length l mod 3) mod 3)%nat ∧
  rfc4648_padding l = replicate ((3 - length l mod 3) mod 3)%nat eq_sign ∧
  ((3 - length l mod 3) mod 3 ≤ 4 * ((length l + 2) / 3))%nat.
Proof.
  unfold rfc4648_padding.
  induction l as [|b0|b0 b1|b0 b1 b2 l IH] using groups_ind;
    try (split; [reflexivity|split; [reflexivity|by apply Nat.leb_le]]).
  destruct IH as (IH1 & IH2 & IH3). simpl length.
  replace (S (S (S (length l)))) with (length l + 1 * 3)%nat by lia.
  rewrite Nat.Div0.mod_add. replace (length l + 1 * 3 + 2)%nat with (length l + 2 + 1 * 3)%nat by lia.
  rewrite Nat.div_add by done. split; [|split; [done|lia]]. cbn [rfc4648_digits length]. lia.
Qed.

Lemma encodeBase64_rfc4648 raw : encodeBase64 raw = Some (rfc4648 raw).
Proof.
  unfold encodeBase64, rfc4648. destruct (rfc4648_length (bytes_of raw)) as (Hl & Hp & _).
  rewrite <- Hl, <- Hp.
  pose proof (encode_loop_digits (bytes_of raw) [] (bytes_of_bytes raw)) as He. simpl in He.
  by rewrite He.
Qed.

(** ** The decoder *)

Lemma or_at_mid outLen l b r v :
  is_byte (Z.lor b v) → (length l < outLen)%nat ∨ Z.lor b v = 0 →
  or_at outLen (l ++ b :: r) (length l) v = Some (l ++ Z.lor b v :: r).
Proof.
  intros Hb Hin. unfold or_at. rewrite lookup_app_r by done. rewrite Nat.sub_diag. simpl.
  rewrite u8_small by done. rewrite decide_True by done. f_equal.
  rewrite insert_app_r_alt by done. by rewrite Nat.sub_diag.
Qed.

(** The four states of the decoder: how many bits of the current byte are there. *)
Lemma decode_step_0 outLen d l r :
  is_digit d → (length l < outLen)%nat ∨ d = 0 →
  decode_step outLen d (l ++ 0 :: r) (length l) 0 = Some (l ++ d * 4 :: r, length l, 6).
Proof.
  unfold is_digit. intros Hd Hin. unfold decode_step. simpl.
  rewrite take_bits_eq by done.
  replace (Z.shiftl ((d / _) mod _) _) with (d * 4)
    by (rewrite Z.shiftl_mul_pow2 by done; byte_lia).
  rewrite or_at_mid; rewrite ?Z.lor_0_l; [done|byte_lia|]. destruct Hin as [?| ->]; auto.
Qed.

Lemma decode_step_6 outLen d a l r :
  is_digit d → is_digit a → (length l < outLen)%nat → (S (length l) < outLen)%nat ∨ d mod 16 = 0 →
  decode_step outLen d (l ++ a * 4 :: 0 :: r) (length l) 6 =
    Some (l ++ a * 4 + d / 16 :: (d mod 16) * 16 :: r, S (length l), 4).
Proof.
  unfold is_digit. intros Hd Ha Hin Hin'. unfold decode_step. simpl.
  rewrite take_bits_eq by done.
  replace (Z.shiftl ((d / _) mod _) _) with (d / 16)
    by (rewrite Z.shiftl_mul_pow2 by done; byte_lia).
  assert (Hor : Z.lor (a * 4) (d / 16) = a * 4 + d / 16) by (apply (lor_add a _ 2); byte_lia).
  rewrite or_at_mid; rewrite ?Hor; [|byte_lia|by left]. simpl.
  rewrite land_low by done.
  replace (Z.shiftl (d mod _) _) with (d mod 16 * 16)
    by (rewrite Z.shiftl_mul_pow2 by done; byte_lia).
  replace (l ++ a * 4 + d / 16 :: 0 :: r) with ((l ++ [a * 4 + d / 16]) ++ 0 :: r)
    by by rewrite <- app_assoc.
  replace (S (length l)) with (length (l ++ [a * 4 + d / 16])) in * by (rewrite length_app; simpl; lia).
  rewrite or_at_mid; rewrite ?Z.lor_0_l; [|byte_lia|].
  - simpl. by rewrite <- app_assoc.
  - destruct Hin' as [?| ->]; auto.
Qed.

Lemma decode_step_4 outLen d a l r :
  is_digit d → 0 ≤ a < 16 → (length l < outLen)%nat → (S (length l) < outLen)%nat ∨ d mod 4 = 0 →
  decode_step outLen d (l ++ a * 16 :: 0 :: r) (length l) 4 =
    Some (l ++ a * 16 + d / 4 :: (d mod 4) * 64 :: r, S (length l), 2).
Proof.
  unfold is_digit. intros Hd Ha Hin Hin'. unfold decode_step. simpl.
  rewrite take_bits_eq by done.
  replace (Z.shiftl ((d / _) mod _) _) with (d / 4)
    by (rewrite Z.shiftl_mul_pow2 by done; byte_lia).
  assert (Hor : Z.lor (a * 16) (d / 4) = a * 16 + d / 4) by (apply (lor_add a _ 4); byte_lia).
  rewrite or_at_mid; rewrite ?Hor; [|byte_lia|by left]. simpl.
  rewrite land_low by done.
  replace (Z.shiftl (d mod _) _) with (d mod 4 * 64)
    by (rewrite Z.shiftl_mul_pow2 by done; byte_lia).
  replace (l ++ a * 16 + d / 4 :: 0 :: r) with ((l ++ [a * 16 + d / 4]) ++ 0 :: r)
    by by rewrite <- app_assoc.
  replace (S (length l)) with (length (l ++ [a * 16 + d / 4])) in * by (rewrite length_app; simpl; lia).
  rewrite or_at_mid; rewrite ?Z.lor_0_l; [|byte_lia|].
  - simpl. by rewrite <- app_assoc.
  - destruct Hin' as [?| ->]; auto.
Qed.

Lemma decode_step_2 outLen d a l r :
  is_digit d → 0 ≤ a < 4 → (length l < outLen)%nat →
  decode_step outLen d (l ++ a * 64 :: r) (length l) 2 =
    Some (l ++ a * 64 + d :: r, S (length l), 0).
Proof.
  unfold is_digit. intros Hd Ha Hin. unfold decode_step. simpl.
  rewrite take_bits_eq by done.
  replace (Z.shiftl ((d / _) mod _) _) with d
    by (rewrite Z.shiftl_mul_pow2 by done; byte_lia).
  assert (Hor : Z.lor (a * 64) d = a * 64 + d) by (apply (lor_add a _ 6); byte_lia).
  rewrite or_at_mid; rewrite ?Hor; [|byte_lia|by left]. done.
Qed.

(** Writing anything but NUL over the terminating NUL is out of bounds. *)
Lemma or_at_none outLen l r v :
  is_byte v → v ≠ 0 → (outLen ≤ length l)%nat → or_at outLen (l ++ 0 :: r) (length l) v = None.
Proof.
  intros Hb Hv Hin. unfold or_at. rewrite lookup_app_r by done. rewrite Nat.sub_diag. simpl.
  rewrite Z.lor_0_l, u8_small by done. rewrite decide_False; [done|]. intros [?|?]; [lia|done].
Qed.

Lemma decode_step_0_none outLen d l r :
  is_digit d → d ≠ 0 → (outLen ≤ length l)%nat →
  decode_step outLen d (l ++ 0 :: r) (length l) 0 = None.
Proof.
  unfold is_digit. intros Hd Hne Hin. unfold decode_step. simpl. rewrite take_bits_eq by done.
  replace (Z.shiftl ((d / _) mod _) _) with (d * 4)
    by (rewrite Z.shiftl_mul_pow2 by done; byte_lia).
  rewrite or_at_none; [done|byte_lia|lia|done].
Qed.

Lemma decode_step_6_none outLen d a l r :
  is_digit d → is_digit a → outLen = S (length l) → d mod 16 ≠ 0 →
  decode_step outLen d (l ++ a * 4 :: 0 :: r) (length l) 6 = None.
Proof.
  unfold is_digit. intros Hd Ha -> Hne. unfold decode_step. simpl. rewrite take_bits_eq by done.
  replace (Z.shiftl ((d / _) mod _) _) with (d / 16)
    by (rewrite Z.shiftl_mul_pow2 by done; byte_lia).
  assert (Hor : Z.lor (a * 4) (d / 16) = a * 4 + d / 16) by (apply (lor_add a _ 2); byte_lia).
  rewrite or_at_mid; rewrite ?Hor; [|byte_lia|lia]. simpl. rewrite land_low by done.
  replace (Z.shiftl (d mod _) _) with (d mod 16 * 16)
    by (rewrite Z.shiftl_mul_pow2 by done; byte_lia).
  pose proof (or_at_none (S (length l)) (l ++ [a * 4 + d / 16]) r (d mod 16 * 16)) as Hn.
  rewrite length_app, <- app_assoc in Hn. simpl in Hn. rewrite Nat.add_1_r in Hn.
  rewrite Hn; [done|byte_lia|lia|done].
Qed.

Lemma decode_step_4_none outLen d a l r :
  is_digit d → 0 ≤ a < 16 → outLen = S (length l) → d mod 4 ≠ 0 →
  decode_step outLen d (l ++ a * 16 :: 0 :: r) (length l) 4 = None.
Proof.
  unfold is_digit. intros Hd Ha -> Hne. unfold decode_step. simpl. rewrite take_bits_eq by done.
  replace (Z.shiftl ((d / _) mod _) _) with (d / 4)
    by (rewrite Z.shiftl_mul_pow2 by done; byte_lia).
  assert (Hor : Z.lor (a * 16) (d / 4) = a * 16 + d / 4) by (apply (lor_add a _ 4); byte_lia).
  rewrite or_at_mid; rewrite ?Hor; [|byte_lia|lia]. simpl. rewrite land_low by done.
  replace (Z.shiftl (d mod _) _) with (d mod 4 * 64)
    by (rewrite Z.shiftl_mul_pow2 by done; byte_lia).
  pose proof (or_at_none (S (length l)) (l ++ [a * 16 + d / 4]) r (d mod 4 * 64)) as Hn.
  rewrite length_app, <- app_assoc in Hn. simpl in Hn. rewrite Nat.add_1_r in Hn.
  rewrite Hn; [done|byte_lia|lia|done].
Qed.

(** What the digits stand for: the bits that are left over must be zero. *)
Fixpoint rfc4648_bytes (ds : list Z) : option (list Z) :=
  match ds with
  | d0 :: d1 :: d2 :: d3 :: ds =>
      l ← rfc4648_bytes ds;
      Some (d0 * 4 + d1 / 16 :: (d1 mod 16) * 16 + d2 / 4 :: (d2 mod 4) * 64 + d3 :: l)
  | [d0; d1; d2] =>
      if d2 mod 4 =? 0 then Some [d0 * 4 + d1 / 16; (d1 mod 16) * 16 + d2 / 4] else None
  | [d0; d1] => if d1 mod 16 =? 0 then Some [d0 * 4 + d1 / 16] else None
  | [d0] => if d0 =? 0 then Some [] else None
  | [] => Some []
  end.

Lemma four_groups_ind (P : list Z → Prop) :
  P [] → (∀ d0, P [d0]) → (∀ d0 d1, P [d0; d1]) → (∀ d0 d1 d2, P [d0; d1; d2]) →
  (∀ d0 d1 d2 d3 l, P l → P (d0 :: d1 :: d2 :: d3 :: l)) → ∀ l, P l.
Proof.
  intros H0 H1 H2 H3 H4. fix IH 1.
  intros [|d0 [|d1 [|d2 [|d3 l]]]]; [exact H0|apply H1|apply H2|apply H3|apply H4, IH].
Qed.

Lemma decode_loop_digit outLen d rest dec i c :
  is_digit d → decode_loop outLen (digit d :: rest) dec i c =
    ('(dec, i, c) ← decode_step outLen d dec i c; decode_loop outLen rest dec i c).
Proof.
  intros Hd. destruct (digit_facts d Hd) as (Hb & Hne & Hlt & Ht & _). simpl.
  rewrite (proj2 (Z.eqb_neq _ _) Hne), (proj2 (Z.ltb_lt _ _) Hlt), Ht.
  rewrite (proj2 (Z.eqb_neq d (-1))) by (unfold is_digit in Hd; lia). done.
Qed.

(** Digits may be followed by signs only. *)
Definition at_end (tail : list Z) : Prop := tail = [] ∨ ∃ t, tail = eq_sign :: t.

Lemma decode_loop_end outLen tail dec i c :
  at_end tail → decode_loop outLen tail dec i c = Some (Ok dec).
Proof. by intros [->|[t ->]]. Qed.

(** A whole group fills three bytes. *)
Lemma decode_loop_group outLen d0 d1 d2 d3 tail dn rest :
  Forall is_digit [d0; d1; d2; d3] → (S (S (length dn)) < outLen)%nat →
  let l := [d0 * 4 + d1 / 16; d1 mod 16 * 16 + d2 / 4; d2 mod 4 * 64 + d3] in
  decode_loop outLen (digit d0 :: digit d1 :: digit d2 :: digit d3 :: tail)
    (dn ++ 0 :: 0 :: 0 :: rest) (length dn) 0 =
  decode_loop outLen tail ((dn ++ l) ++ rest) (length (dn ++ l)) 0.
Proof.
  intros Hds Hlen l. split_Forall.
  rewrite decode_loop_digit by done. rewrite decode_step_0 by (done || lia).
  cbn [mbind option_bind]. rewrite decode_loop_digit by done.
  rewrite decode_step_6 by (done || lia). cbn [mbind option_bind].
  rewrite decode_loop_digit by done. set (b0 := d0 * 4 + d1 / 16).
  replace (dn ++ b0 :: d1 mod 16 * 16 :: 0 :: rest)
    with ((dn ++ [b0]) ++ d1 mod 16 * 16 :: 0 :: rest) by by rewrite <- app_assoc.
  replace (S (length dn)) with (length (dn ++ [b0])) by (rewrite length_app; simpl; lia).
  rewrite decode_step_4;
    [|done|byte_lia|rewrite length_app; simpl; lia|left; rewrite length_app; simpl; lia].
  cbn [mbind option_bind]. rewrite decode_loop_digit by done.
  set (b1 := d1 mod 16 * 16 + d2 / 4).
  replace ((dn ++ [b0]) ++ b1 :: d2 mod 4 * 64 :: rest)
    with ((dn ++ [b0; b1]) ++ d2 mod 4 * 64 :: rest) by by rewrite <- !app_assoc.
  replace (S (length (dn ++ [b0]))) with (length (dn ++ [b0; b1]))
    by (rewrite !length_app; simpl; lia).
  rewrite decode_step_2; [|done|byte_lia|rewrite length_app; simpl; lia].
  cbn [mbind option_bind]. set (b2 := d2 mod 4 * 64 + d3).
  replace ((dn ++ [b0; b1]) ++ b2 :: rest) with ((dn ++ [b0; b1; b2]) ++ rest)
    by by rewrite <- !app_assoc.
  replace (S (length (dn ++ [b0; b1]))) with (length (dn ++ [b0; b1; b2]))
    by (rewrite !length_app; simpl; lia).
  done.
Qed.

Lemma decode_loop_digits ds dn tail :
  Forall is_digit ds → at_end tail →
  let k := (length ds * 3 / 4)%nat in
  decode_loop (length dn + k) ((digit <$> ds) ++ tail) (dn ++ replicate (S k) 0) (length dn) 0 =
    (l ← rfc4648_bytes ds; Some (Ok (dn ++ l ++ [0]))).
Proof.
  intros Hds Ht. revert dn.
  induction ds as [|d0|d0 d1|d0 d1 d2|d0 d1 d2 d3 ds IH] using four_groups_ind; intros dn k;
    split_Forall; cbn [fmap list_fmap app rfc4648_bytes].
  - by apply decode_loop_end.
  - rewrite decode_loop_digit by done. change (replicate (S k) 0) with [0].
    destruct (Z.eqb_spec d0 0) as [->|Hne].
    + rewrite decode_step_0 by auto. simpl. by rewrite decode_loop_end.
    + rewrite decode_step_0_none; [done|done|done|]. unfold k. simpl. lia.
  - rewrite decode_loop_digit by done. change (replicate (S k) 0) with [0; 0].
    assert (Hk : (length dn + k = S (length dn))%nat) by (unfold k; simpl; lia). rewrite Hk.
    rewrite decode_step_0 by (done || lia). cbn [mbind option_bind].
    rewrite decode_loop_digit by done. destruct (Z.eqb_spec (d1 mod 16) 0) as [Hz|Hne].
    + rewrite decode_step_6 by (done || lia). cbn [mbind option_bind].
      rewrite decode_loop_end by done. by rewrite Hz.
    + by rewrite decode_step_6_none.
  - rewrite decode_loop_digit by done. change (replicate (S k) 0) with [0; 0; 0].
    assert (Hk : (length dn + k = S (S (length dn)))%nat) by (unfold k; simpl; lia). rewrite Hk.
    rewrite decode_step_0 by (done || lia). cbn [mbind option_bind].
    rewrite decode_loop_digit by done. rewrite decode_step_6 by (done || lia).
    cbn [mbind option_bind]. rewrite decode_loop_digit by done.
    set (b0 := d0 * 4 + d1 / 16).
    replace (dn ++ b0 :: d1 mod 16 * 16 :: [0]) with ((dn ++ [b0]) ++ d1 mod 16 * 16 :: [0])
      by by rewrite <- app_assoc.
    replace (S (length dn)) with (length (dn ++ [b0])) by (rewrite length_app; simpl; lia).
    assert (0 ≤ d1 mod 16 < 16) by byte_lia.
    destruct (Z.eqb_spec (d2 mod 4) 0) as [Hz|Hne].
    + rewrite decode_step_4 by (done || lia). cbn [mbind option_bind].
      rewrite decode_loop_end by done. rewrite Hz. by rewrite <- app_assoc.
    + by rewrite decode_step_4_none.
  - set (k' := (length ds * 3 / 4)%nat).
    assert (Hkk : k = S (S (S k'))).
    { unfold k, k'. simpl length. replace (S (S (S (S (length ds)))) * 3)%nat
        with (length ds * 3 + 3 * 4)%nat by lia. rewrite Nat.div_add by done. lia. }
    rewrite Hkk. change (replicate (S (S (S (S k')))) 0) with (0 :: 0 :: 0 :: replicate (S k') 0).
    rewrite decode_loop_group; [|by split_Forall|lia].
    set (l3 := [d0 * 4 + d1 / 16; d1 mod 16 * 16 + d2 / 4; d2 mod 4 * 64 + d3]).
    specialize (IH Hds (dn ++ l3)). cbv zeta in IH. fold k' in IH.
    replace (length (dn ++ l3) + k')%nat with (length dn + S (S (S k')))%nat in IH
      by (rewrite length_app; simpl; lia).
    rewrite IH. destruct (rfc4648_bytes ds) as [l|]; [|done]. simpl.
    by rewrite <- !app_assoc.
Qed.

Lemma strip_eq_digits ds n :
  Forall is_digit ds →
  strip_eq (reverse ((digit <$> ds) ++ replicate n eq_sign)) = reverse (digit <$> ds).
Proof.
  intros Hds. rewrite reverse_app, reverse_replicate. induction n as [|n IH]; [|exact IH].
  simpl. destruct (reverse (digit <$> ds)) as [|c l] eqn:Hl; [done|]. simpl.
  assert (Hc : c ∈ reverse (digit <$> ds)) by (rewrite Hl; left).
  rewrite elem_of_reverse in Hc. apply list_elem_of_fmap in Hc as (d & -> & Hd).
  rewrite Forall_forall in Hds. destruct (digit_facts d) as (_ & Hne & _).
  { by apply Hds, list_elem_of_In. }
  by rewrite (proj2 (Z.eqb_neq _ _) Hne).
Qed.

Lemma rfc4648_bytes_length ds l :
  rfc4648_bytes ds = Some l → length l = (length ds * 3 / 4)%nat.
Proof.
  revert l. induction ds as [|d0|d0 d1|d0 d1 d2|d0 d1 d2 d3 ds IH] using four_groups_ind;
    intros l; simpl rfc4648_bytes; try (case_match; [|done]); [by intros [= <-]..|].
  destruct (rfc4648_bytes ds) as [l'|]; [|done]. intros [= <-]. simpl length.
  rewrite (IH l' eq_refl). replace (S (S (S (S (length ds)))) * 3)%nat
    with (length ds * 3 + 3 * 4)%nat by lia. rewrite Nat.div_add by done. lia.
Qed.

(** A text of digits followed by signs. *)
Definition coded_as (s : string) (ds : list Z) : Prop :=
  Forall is_digit ds ∧ ∃ n, bytes_of s = (digit <$> ds) ++ replicate n eq_sign.

Lemma decodeBase64_digits s ds :
  coded_as s ds → decodeBase64 s = (l ← rfc4648_bytes ds; Some (Ok (string_of l))).
Proof.
  intros (Hds & n & Hs). unfold decodeBase64. rewrite Hs, strip_eq_digits by done.
  rewrite length_reverse, length_fmap.
  assert (Ht : at_end (replicate n eq_sign)) by (destruct n; [by left|right; by eexists]).
  pose proof (decode_loop_digits ds [] _ Hds Ht) as Hd. cbv zeta in Hd |- *.
  set (k := (length ds * 3 / 4)%nat) in *. change (length [] + k)%nat with k in Hd.
  change ([] ++ ?x) with x in Hd. change (length []) with 0%nat in Hd. rewrite Hd.
  destruct (rfc4648_bytes ds) as [l|] eqn:Hl; [|done].
  assert (Hk : k = length l) by (symmetry; by apply rfc4648_bytes_length).
  simpl. by rewrite Hk, take_app_length.
Qed.

Lemma rfc4648_bytes_digits l :
  Forall is_byte l → rfc4648_bytes (rfc4648_digits l) = Some l.
Proof.
  induction l as [|b0|b0 b1|b0 b1 b2 l IH] using groups_ind; intros Hb; split_Forall; simpl.
  - done.
  - rewrite (proj2 (Z.eqb_eq _ _)) by byte_lia. do 2 f_equal. byte_lia.
  - rewrite (proj2 (Z.eqb_eq _ _)) by byte_lia. f_equal. f_equal; [byte_lia|]. f_equal. byte_lia.
  - rewrite IH by done. simpl. f_equal. f_equal; [byte_lia|]. f_equal; [byte_lia|].
    f_equal. byte_lia.
Qed.

Lemma rfc4648_coded raw : coded_as (rfc4648 raw) (rfc4648_digits (bytes_of raw)).
Proof.
  pose proof (rfc4648_digits_digits _ (bytes_of_bytes raw)) as Hds. split; [done|].
  destruct (rfc4648_length (bytes_of raw)) as (_ & Hp & _). unfold rfc4648. rewrite Hp.
  eexists. apply bytes_of_string_of, Forall_app. split.
  - apply Forall_fmap. eapply Forall_impl, Hds. intros d Hd. by apply digit_facts.
  - by apply Forall_replicate.
Qed.

(** The table has the characters of the digits. *)
Lemma table_digit c : c ∈ base64lookupTable → ∃ d, is_digit d ∧ c = digit d.
Proof.
  intros Hc. apply list_elem_of_lookup in Hc as [i Hi]. pose proof (lookup_lt_Some _ _ _ Hi) as Hlt.
  change (length base64lookupTable) with 64%nat in Hlt. exists (Z.of_nat i).
  unfold is_digit, digit. rewrite Nat2Z.id, Hi. split; [lia|done].
Qed.

Lemma signs_replicate l :
  forallb (λ c, c =? eq_sign) l = true ↔ ∃ n, l = replicate n eq_sign.
Proof.
  induction l as [|c l IH]; simpl; [split; [by exists 0%nat|done]|].
  rewrite andb_true_iff, Z.eqb_eq, IH. split.
  - intros [-> [n ->]]. by exists (S n).
  - intros [[|n] [=]]; subst. eauto.
Qed.

Lemma sanityCheckBase64_coded s : sanityCheckBase64 s = true ↔ ∃ ds, coded_as s ds.
Proof.
  unfold sanityCheckBase64, coded_as. induction (bytes_of s) as [|c l IH]; cbn [sanity_check].
  - split; [|done]. exists []. split; [done|]. by exists 0%nat.
  - case_bool_decide as Hc.
    + apply table_digit in Hc as (d & Hd & ->). rewrite IH. split.
      * intros (ds & Hds & n & ->). exists (d :: ds). split; [by constructor|]. by exists n.
      * intros ([|d' ds] & Hds & n & Heq).
        -- destruct n; [done|]. injection Heq as Heq _. by destruct (digit_facts d Hd) as (_ & ? & _).
        -- injection Heq as _ ->. apply Forall_cons_iff in Hds as [_ Hds]. eauto.
    + rewrite signs_replicate. split.
      * intros [n Hn]. exists []. split; [done|]. by exists n.
      * intros ([|d' ds] & Hds & n & Heq); [by exists n|]. injection Heq as -> _.
        apply Forall_cons_iff in Hds as [Hd _]. by destruct (digit_facts d' Hd) as (_ & _ & _ & _ & ?).
Qed.

(** * Properties *)

(** [encodeBase64] is the encoding of RFC 4648. It never reads behind the terminating
    NUL of its argument, and for every string of bytes its text is that of the standard,
    whose digits the reference function computes by groups of three bytes. *)
Theorem encodeBase64_equiv (raw : string) : encodeBase64 raw = Some (rfc4648 raw).
Proof. apply encodeBase64_rfc4648. Qed.

(** C38: decoding inverts encoding: [encodeBase64] succeeds on every string, its text passes
    [sanityCheckBase64], and [decodeBase64] returns the string. *)
Theorem base64_roundtrip (raw : string) :
  ∃ coded, encodeBase64 raw = Some coded ∧ sanityCheckBase64 coded = true ∧
    decodeBase64 coded = Some (Ok raw).
Proof.
  exists (rfc4648 raw). split; [apply encodeBase64_rfc4648|].
  split; [apply sanityCheckBase64_coded; eauto using rfc4648_coded|].
  rewrite (decodeBase64_digits _ _ (rfc4648_coded raw)).
  rewrite rfc4648_bytes_digits by apply bytes_of_bytes. simpl. by rewrite string_of_bytes_of.
Qed.

