(* ===== verification/Tar.v ===== *)
(** Tar archives: the POSIX UStar header, [TarWriter] and [TarReader] of src/Archive.cpp, on
    lists of bytes. The headers are built and read field by field at the offsets of
    [header_posix_ustar]; the streams are [std::ostream] and [std::istream].

    What C++ leaves undefined - reading outside a string or the header, using a variable that
    was never set - is the outcome [Undefined]. *)

From S2P Require Import Prelude Bytes.
#[local] Open Scope Z_scope.

(** * Outcomes *)

Inductive Outcome (A : Type) : Type :=
  | Returns (a : A)
  | Throws (what : string)
  | Undefined
  | NoFuel.
Arguments Returns {A} a.
Arguments Throws {A} what.
Arguments Undefined {A}.
Arguments NoFuel {A}.

#[export] Instance Outcome_ret : MRet Outcome := @Returns.
#[export] Instance Outcome_bind : MBind Outcome := λ A B k r,
  match r with
  | Returns a => k a
  | Throws e => Throws e
  | Undefined => Undefined
  | NoFuel => NoFuel
  end.

Definition defined {A} (o : option A) : Outcome A :=
  match o with Some a => Returns a | None => Undefined end.

(** * Octal numbers *)

Definition octal_char (d : Z) : Z := 48 + d.

(** The digits of an [unsigned int], most significant first, before [acc]. *)
Fixpoint octal_digits (fuel : nat) (v : Z) (acc : list Z) : list Z :=
  match fuel with
  | O => acc
  | S fuel =>
      if v <? 8 then octal_char v :: acc
      else octal_digits fuel (v / 8) (octal_char (v mod 8) :: acc)
  end.

(** [sprintf(field,"%0<width>o",v)] and [sprintf(field,"%<width>o",v)]: what is written,
    with the terminating NUL; an [unsigned int] has at most 11 octal digits. *)
Definition sprintf_o (fill : Z) (width : nat) (v : Z) : list Z :=
  let ds := octal_digits 11 v [] in
  replicate (width - length ds) fill ++ ds ++ [0].

Definition is_space (c : Z) : bool := (c =? 32) || ((9 <=? c) && (c <=? 13)).
Definition is_octal (c : Z) : bool := (48 <=? c) && (c <=? 55).

(** The value of the octal digits at the beginning of a text, and whether there are any;
    [None] when the text is not terminated inside of [s]. *)
Fixpoint scan_digits (s : list Z) (acc : Z) : option Z :=
  match s with
  | [] => None
  | c :: s => if is_octal c then scan_digits s (8 * acc + (c - 48)) else Some acc
  end.

Fixpoint skip_space (s : list Z) : list Z :=
  match s with c :: s' => if is_space c then skip_space s' else s | [] => [] end.

(** [sscanf(s,"%llo",&v)] and [sscanf(s,"%o",&v)]: white space, a sign, digits. [Some None]
    when there is no number and [v] is left alone; too large a number saturates. *)
Definition sscanf_o (bits : Z) (s : list Z) : option (option Z) :=
  let s := skip_space s in
  let '(neg, s) := match s with
    | c :: s' => if c =? 45 then (true, s') else if c =? 43 then (false, s') else (false, s)
    | [] => (false, [])
    end in
  match s with
  | [] => None
  | c :: _ =>
      if is_octal c then
        v ← scan_digits s 0;
        let u := if 2 ^ 64 <=? v then 2 ^ 64 - 1 else if neg : bool then (2 ^ 64 - v) mod 2 ^ 64 else v in
        let u := u mod 2 ^ bits in
        Some (Some (if 2 ^ (bits - 1) <=? u then u - 2 ^ bits else u))
      else Some None
  end.

(** * The header *)

Inductive typeCode := RegularFile | HardLink | SymLink | CharDevice | BlockDevice | Directory
  | FIFONode.

Definition typeCode_value (t : typeCode) : Z :=
  match t with
  | RegularFile => 0 | HardLink => 1 | SymLink => 2 | CharDevice => 3 | BlockDevice => 4
  | Directory => 5 | FIFONode => 6
  end.

(** The offsets of the fields of [header_posix_ustar], and its size. *)
Definition name_at : nat := 0.
Definition mode_at : nat := 100.
Definition uid_at : nat := 108.
Definition gid_at : nat := 116.
Definition size_at : nat := 124.
Definition mtime_at : nat := 136.
Definition checksum_at : nat := 148.
Definition typeflag_at : nat := 156.
Definition linkname_at : nat := 157.
Definition magic_at : nat := 257.
Definition version_at : nat := 263.
Definition prefix_at : nat := 345.
Definition header_size : nat := 512.

(** Copying bytes over the header from an offset on: a field may run over into the next. *)
Definition write_at (off : nat) (l h : list Z) : list Z :=
  take off h ++ l ++ drop (off + length l) h.

Definition sub (off len : nat) (h : list Z) : list Z := take len (drop off h).

Definition sum_bytes (h : list Z) : Z := foldr Z.add 0 h.

Definition setChecksum (h : list Z) : Outcome (list Z) :=
  let h := write_at checksum_at (replicate 8 32) h in
  let sum := sum_bytes h in
  if sum >? 262143 then Throws "Checksum overflow" else
  let h := write_at checksum_at (sprintf_o 32 6 sum) h in
  Returns (write_at (checksum_at + 7) [32] h).

(** The loop that looks for the place to split a long name: [splitIdx] goes from
    [fileName.size()-101] to 156. *)
Fixpoint find_split (fuel : nat) (fileName : list Z) (splitIdx : nat) : Outcome (option nat) :=
  match fuel with
  | O => Returns None
  | S fuel =>
      if decide (splitIdx ≤ 156)%nat then
        c ← defined (char_at fileName splitIdx);
        if c =? 47 then Returns (Some splitIdx) else find_split fuel fileName (S splitIdx)
      else Returns None
  end.

Definition write_name (fileName h : list Z) : Outcome (list Z) :=
  let size := length fileName in
  if decide (100 < size)%nat then
    if decide (256 < size)%nat
    then Throws "Filename too long to be stored in POSIX UStar format" else
    split ← find_split 158 fileName (size - 101);
    match split with
    | None =>
        Throws "Unable to find a prefix/filename split which satisfies POSIX UStar constraints"
    | Some splitIdx =>
        Returns (write_at name_at (drop (S splitIdx) fileName)
                   (write_at prefix_at (take splitIdx fileName) h))
    end
  else Returns (write_at name_at fileName h).

(** [getuid()], [getgid()] and [time(NULL)] are what the process gives. *)
Record Process := mkProcess { getuid : Z; getgid : Z; time : Z }.

Section writer.
Context (P : Process).

Definition header_posix_ustar (fileName : list Z) (fileSize : Z) (fileType : typeCode) :
    Outcome (list Z) :=
  if fileSize >? 8589934591 then Throws "Specified file size >= 8 GB" else
  h ← write_name fileName (replicate header_size 0);
  let h := write_at mode_at (sprintf_o 48 7 420) h in
  let h := write_at uid_at (sprintf_o 48 7 (getuid P)) h in
  let h := write_at gid_at (sprintf_o 48 7 (getgid P)) h in
  let h := write_at size_at (sprintf_o 48 11 (fileSize mod 2 ^ 32)) h in
  let h := write_at mtime_at (sprintf_o 48 11 (time P mod 2 ^ 32)) h in
  let h := write_at typeflag_at [48 + typeCode_value fileType] h in
  let h := write_at magic_at (bytes_of "ustar" ++ [0]) h in
  let h := write_at version_at [32; 0] h in
  setChecksum h.

(** * Writing *)

Record TarWriter := mkTarWriter { sink : list Z; ended : bool }.

Definition write (l : list Z) (w : TarWriter) : TarWriter := mkTarWriter (sink w ++ l) (ended w).

Definition appendFile (filepath data : list Z) (w : TarWriter) : Outcome TarWriter :=
  if ended w then Throws "Cannot append to an ended tar stream" else
  header ← header_posix_ustar filepath (Z.of_nat (length data)) RegularFile;
  let w := write data (write header w) in
  let remainder := (length data mod 512)%nat in
  Returns (if decide (remainder = 0%nat) then w else write (replicate (512 - remainder) 0) w).

Definition appendDirectory (path : list Z) (w : TarWriter) : Outcome TarWriter :=
  if ended w then Throws "Cannot append to an ended tar stream" else
  header ← header_posix_ustar path 0 Directory;
  Returns (write header w).

Definition appendSymLink (filepath linkTarget : list Z) (w : TarWriter) : Outcome TarWriter :=
  if ended w then Throws "Cannot append to an ended tar stream" else
  symEntry ← header_posix_ustar filepath 0 SymLink;
  if decide (100 < length linkTarget)%nat
  then Throws "Specified link target longer than 100 characters." else
  symEntry ← setChecksum (write_at linkname_at linkTarget symEntry);
  Returns (write symEntry w).

(** [ended] is not set. *)
Definition endStream (w : TarWriter) : TarWriter :=
  if ended w then w else write (replicate (2 * header_size) 0) w.
End writer.

(** * Reading a header *)

Definition isEmpty (h : list Z) : bool := forallb (λ c, c =? 0) h.

(** The loop that reads the checksum field, which has eight characters. *)
Fixpoint stored_sum (field : list Z) (foundDigits : bool) (storedSum : Z) : option Z :=
  match field with
  | [] => Some storedSum
  | c :: field =>
      if negb foundDigits then
        if is_space c then stored_sum field foundDigits storedSum
        else if is_octal c then stored_sum field true (c - 48)
        else None
      else
        if (c =? 0) || (c =? 32) then Some storedSum
        else if is_octal c then stored_sum field foundDigits (8 * storedSum + c - 48)
        else None
  end.

Definition checksumValid (h : list Z) : bool :=
  let sum := sum_bytes (write_at checksum_at (replicate 8 32) h) in
  match stored_sum (sub checksum_at 8 h) false 0 with
  | Some storedSum => sum =? storedSum
  | None => false
  end.

(** A field up to its first NUL. *)
Fixpoint until_nul (field : list Z) : list Z :=
  match field with c :: field => if c =? 0 then [] else c :: until_nul field | [] => [] end.

Definition getName (h : list Z) : list Z :=
  let prefix := sub prefix_at 155 h in
  let name := until_nul (sub name_at 100 h) in
  match until_nul prefix with [] => name | p => p ++ 47 :: name end.

(** A C string: it must be terminated. *)
Definition c_string (s : list Z) : option (list Z) :=
  if decide (0 ∈ s) then Some (until_nul s) else None.

Definition properlyTerminated (field : list Z) : bool :=
  existsb (λ c, (c =? 0) || (c =? 32)) field.

(** * The reader *)

Inductive fileType := REGULAR_FILE | HARD_LINK | SYMBOLIC_LINK | CHARACTER_DEVICE
  | BLOCK_DEVICE | DIRECTORY | FIFO | RESERVED.

#[export] Instance fileType_eq_dec : EqDecision fileType.
Proof. solve_decision. Defined.

Definition typeForTarTypeFlag (typeFlag : Z) : fileType :=
  if typeFlag =? 48 then REGULAR_FILE
  else if typeFlag =? 49 then HARD_LINK
  else if typeFlag =? 50 then SYMBOLIC_LINK
  else if typeFlag =? 51 then CHARACTER_DEVICE
  else if typeFlag =? 52 then BLOCK_DEVICE
  else if typeFlag =? 53 then DIRECTORY
  else if typeFlag =? 54 then FIFO
  else if typeFlag =? 55 then RESERVED
  else REGULAR_FILE.

(** The mode is [None] when [sscanf] never set it. *)
Record FileRecord := mkFileRecord { type : fileType; data : list Z; mode : option Z }.

(** An input stream: what is left, and whether no end has been met. *)
Record istream := mkStream { rest : list Z; good : bool }.

(** [src.read]: less than asked for sets the end and failure bits. *)
Definition stream_read (n : nat) (src : istream) : option (list Z) * istream :=
  if good src && bool_decide (n ≤ length (rest src))%nat
  then (Some (take n (rest src)), mkStream (drop n (rest src)) true)
  else (None, mkStream [] false).

(** [data += src.get()] for a number of times: behind the end, [get] returns -1. *)
Definition stream_get (n : nat) (src : istream) : list Z * istream :=
  if good src && bool_decide (n ≤ length (rest src))%nat
  then (take n (rest src), mkStream (drop n (rest src)) true)
  else
    let l := if good src then rest src else [] in
    (l ++ replicate (n - length l) 255, mkStream [] false).

Definition stream_ignore (n : nat) (src : istream) : istream :=
  if good src && bool_decide (n ≤ length (rest src))%nat
  then mkStream (drop n (rest src)) true else mkStream [] false.

Record TarReader := mkTarReader {
  src : istream; files : gmap (list Z) FileRecord; fileEnded : bool }.

Definition new_reader (source : list Z) : TarReader := mkTarReader (mkStream source true) ∅ false.

(** [files.insert] keeps the record there is. *)
Definition insert_file (name : list Z) (r : FileRecord) (files : gmap (list Z) FileRecord) :
    gmap (list Z) FileRecord :=
  match files !! name with Some _ => files | None => <[name := r]> files end.

(** What is left of the stream, and the record, after the header [h] of an entry. *)
Definition read_entry (h : list Z) (size : Z) (mode : option Z) (src : istream) :
    Outcome (FileRecord * istream) :=
  match typeForTarTypeFlag (default 0 (h !! typeflag_at)) with
  | REGULAR_FILE =>
      if size <? 0 then Throws "basic_string::reserve" else
      let '(d, src) := stream_get (Z.to_nat size) src in
      Returns (mkFileRecord REGULAR_FILE d mode, src)
  | SYMBOLIC_LINK =>
      link ← defined (c_string (drop linkname_at h));
      Returns (mkFileRecord SYMBOLIC_LINK link mode, src)
  | t => Returns (mkFileRecord t [] mode, src)
  end.

(** The loop: [size] is the variable that keeps its value from one pass to the next. *)
Fixpoint read_loop (fuel : nat) (target : list Z) (nEmpty : Z) (size : option Z)
    (r : TarReader) : Outcome (list Z * TarReader) :=
  match fuel with
  | O => NoFuel
  | S fuel =>
      let '(block, src1) := stream_read header_size (src r) in
      match block with
      | None => Returns ([], mkTarReader src1 (files r) true)
      | Some h =>
          if isEmpty h then
            let nEmpty := nEmpty + 1 in
            if nEmpty =? 2 then Returns ([], mkTarReader src1 (files r) true)
            else read_loop fuel target nEmpty size (mkTarReader src1 (files r) (fileEnded r))
          else
            let nEmpty := 0 in
            if negb (checksumValid h) then Throws "Invalid UStar header checksum" else
            if negb (properlyTerminated (sub size_at 12 h))
            then Throws "Improperly terminated file size field in UStar header" else
            scanned ← defined (sscanf_o 64 (drop size_at h));
            let size := match scanned with Some v => Some v | None => size end in
            v ← defined size;
            if v >? 8589934591 then Throws "Overlarge file size in UStar header" else
            if negb (properlyTerminated (sub mode_at 8 h))
            then Throws "Improperly terminated file size field in UStar header" else
            mode ← defined (sscanf_o 32 (drop mode_at h));
            let name := getName h in
            '(record, src2) ← read_entry h v mode src1;
            let files := insert_file name record (files r) in
            let src3 := if Z.rem v 512 =? 0 then src2
                        else stream_ignore (Z.to_nat (512 - Z.rem v 512)) src2 in
            let r := mkTarReader src3 files (fileEnded r) in
            if bool_decide (name = target) || bool_decide (target = []) then Returns (name, r)
            else read_loop fuel target nEmpty (Some v) r
      end
  end.

(** Every pass but the last reads a header. *)
Definition readFiles (target : list Z) (r : TarReader) : Outcome (list Z * TarReader) :=
  read_loop (S (length (rest (src r)) / header_size)) target 0 None r.

Definition eof (r : TarReader) : bool := fileEnded r.

Definition dropFile (name : list Z) (r : TarReader) : TarReader :=
  mkTarReader (src r) (delete name (files r)) (fileEnded r).

(** [nextFile]: a name that [readFiles] returns is that of a record. *)
Fixpoint nextFile (fuel : nat) (r : TarReader) : Outcome (list Z * TarReader) :=
  match fuel with
  | O => NoFuel
  | S fuel =>
      '(name, r) ← readFiles [] r;
      if bool_decide (name = []) then Returns ([], r)
      else match files r !! name with
           | Some _ => Returns (name, r)
           | None => nextFile fuel r
           end
  end.

(** The lookups by name, which read on until they find it. *)
Definition find_record (name : list Z) (r : TarReader) : Outcome (FileRecord * TarReader) :=
  let missing := "File '" +:+ string_of name +:+ "' not found" in
  match files r !! name with
  | Some record => Returns (record, r)
  | None =>
      if negb (good (src r)) then Throws missing else
      '(_, r) ← readFiles name r;
      match files r !! name with
      | Some record => Returns (record, r)
      | None => Throws missing
      end
  end.

Definition stringForFile (name : list Z) (r : TarReader) : Outcome (list Z * TarReader) :=
  '(record, r) ← find_record name r; Returns (data record, r).
Definition typeForFile (name : list Z) (r : TarReader) : Outcome (fileType * TarReader) :=
  '(record, r) ← find_record name r; Returns (type record, r).
Definition modeForFile (name : list Z) (r : TarReader) : Outcome (option Z * TarReader) :=
  '(record, r) ← find_record name r; Returns (mode record, r).

Definition demo_process : Process := mkProcess 1000 1000 1700000000.

Example archive_example :
  (w ← appendDirectory demo_process (bytes_of "chart") (mkTarWriter [] false);
   w ← appendFile demo_process (bytes_of "chart/values.yaml") (bytes_of "replicas: 2") w;
   w ← appendSymLink demo_process (bytes_of "chart/link") (bytes_of "values.yaml") w;
   '(name1, r) ← nextFile 1 (new_reader (sink (endStream w)));
   '(name2, r) ← nextFile 1 r;
   '(d2, r) ← stringForFile name2 r;
   '(d3, r) ← stringForFile (bytes_of "chart/link") r;
   '(name4, r) ← nextFile 1 r;
   Returns (string_of name1, string_of name2, string_of d2, string_of d3, name4, eof r)) =
  Returns ("chart", "chart/values.yaml", "replicas: 2", "values.yaml", [], true).
Proof. vm_compute. reflexivity. Qed.

(** * Octal numbers, printed and read back *)

Definition octal_value (acc : Z) (ds : list Z) : Z := foldl (λ a c, 8 * a + (c - 48)) acc ds.
Definition octal_text (ds : list Z) : Prop := Forall (λ c, is_octal c = true) ds.

Lemma octal_char_octal d : 0 ≤ d < 8 → is_octal (octal_char d) = true.
Proof. unfold is_octal, octal_char. intros Hd. apply andb_true_intro. lia. Qed.

Lemma is_octal_range c : is_octal c = true ↔ 48 ≤ c ≤ 55.
Proof. unfold is_octal. rewrite andb_true_iff. lia. Qed.

Lemma octal_value_app acc ds ds' :
  octal_value acc (ds ++ ds') = octal_value (octal_value acc ds) ds'.
Proof. apply foldl_app. Qed.

(** The digits of [v]: at most as many as it takes. *)
Lemma octal_digits_spec fuel v acc :
  0 ≤ v < 8 ^ Z.of_nat fuel → (0 < fuel)%nat →
  ∃ ds, octal_digits fuel v acc = ds ++ acc ∧ octal_text ds ∧ octal_value 0 ds = v ∧
    (0 < length ds)%nat ∧ ∀ k, (0 < k)%nat → v < 8 ^ Z.of_nat k → (length ds ≤ k)%nat.
Proof.
  revert v acc. induction fuel as [|fuel IH]; intros v acc Hv Hf; [lia|]. simpl.
  destruct (Z.ltb_spec v 8) as [Hlt|Hge].
  - exists [octal_char v]. split; [done|]. split.
    { constructor; [|done]. apply octal_char_octal. lia. }
    split; [unfold octal_value, octal_char; simpl; lia|]. split; [simpl; lia|].
    intros k Hk _. simpl. lia.
  - destruct (decide (fuel = 0%nat)) as [->|Hne]; [simpl in Hv; lia|].
    destruct (IH (v / 8) (octal_char (v mod 8) :: acc)) as (ds & Hds & Ht & Hval & Hl & Hk).
    { rewrite Nat2Z.inj_succ, Z.pow_succ_r in Hv by lia. split; [|apply Z.div_lt_upper_bound];
        Z.div_mod_to_equations; lia. }
    { lia. }
    exists (ds ++ [octal_char (v mod 8)]). rewrite Hds, <- app_assoc. split; [done|]. split.
    { apply Forall_app. split; [done|]. constructor; [|done]. apply octal_char_octal.
      apply Z.mod_pos_bound. lia. }
    split.
    { rewrite octal_value_app, Hval. unfold octal_value, octal_char. simpl.
      Z.div_mod_to_equations. lia. }
    rewrite length_app. simpl. split; [lia|]. intros k Hk0 Hvk.
    destruct k as [|[|k]]; [lia|simpl in Hvk; lia|].
    assert (length ds ≤ S k)%nat; [|lia]. apply Hk; [lia|].
    rewrite Nat2Z.inj_succ, Z.pow_succ_r in Hvk by lia. apply Z.div_lt_upper_bound; lia.
Qed.

(** [sprintf]: the fill, the digits and the NUL. *)
Lemma sprintf_o_spec fill width v :
  0 ≤ v < 2 ^ 32 →
  ∃ ds, sprintf_o fill width v = replicate (width - length ds) fill ++ ds ++ [0] ∧
    octal_text ds ∧ octal_value 0 ds = v ∧ (0 < length ds ≤ 11)%nat ∧
    ∀ k, (0 < k)%nat → v < 8 ^ Z.of_nat k → (length ds ≤ k)%nat.
Proof.
  intros Hv. unfold sprintf_o. change (2 ^ 32) with 4294967296 in Hv.
  destruct (octal_digits_spec 11 v []) as (ds & Hds & Ht & Hval & Hl & Hk).
  { change (8 ^ Z.of_nat 11) with 8589934592. lia. }
  { lia. }
  rewrite Hds, app_nil_r. exists ds. split_and!; [done..|apply Hk; [lia|]|done].
  change (8 ^ Z.of_nat 11) with 8589934592. lia.
Qed.

Lemma sprintf_o_length fill width v :
  0 ≤ v < 2 ^ 32 → (length (sprintf_o fill width v) ≤ S (width `max` 11))%nat.
Proof.
  intros Hv. destruct (sprintf_o_spec fill width v Hv) as (ds & -> & _ & _ & Hl & _).
  rewrite !length_app, length_replicate. simpl. lia.
Qed.

Lemma octal_text_bytes ds : octal_text ds → Forall is_byte ds.
Proof. apply Forall_impl. intros c Hc%is_octal_range. unfold is_byte. lia. Qed.

Lemma sprintf_o_bytes fill width v :
  0 ≤ v < 2 ^ 32 → is_byte fill → Forall is_byte (sprintf_o fill width v).
Proof.
  intros Hv Hf. destruct (sprintf_o_spec fill width v Hv) as (ds & -> & Ht & _).
  rewrite !Forall_app. split; [by apply Forall_replicate|].
  split; [by apply octal_text_bytes|]. constructor; [unfold is_byte; lia|done].
Qed.

Lemma scan_digits_spec ds c s acc :
  octal_text ds → is_octal c = false → scan_digits (ds ++ c :: s) acc = Some (octal_value acc ds).
Proof.
  intros Ht Hc. revert acc. induction Ht as [|d ds Hd Ht IH]; intros acc; simpl.
  - by rewrite Hc.
  - by rewrite Hd, IH.
Qed.

Lemma octal_value_zeros n : octal_value 0 (replicate n 48) = 0.
Proof. unfold octal_value. induction n; simpl; [done|]. done. Qed.

Lemma octal_text_zeros n : octal_text (replicate n 48).
Proof. by apply Forall_replicate. Qed.

(** Reading octal digits that end at another character. *)
Lemma sscanf_o_digits bits ds c s :
  octal_text ds → (0 < length ds)%nat → is_octal c = false → 1 ≤ bits ≤ 64 →
  0 ≤ octal_value 0 ds < 2 ^ (bits - 1) →
  sscanf_o bits (ds ++ c :: s) = Some (Some (octal_value 0 ds)).
Proof.
  intros Ht Hl Hc Hb Hv. destruct ds as [|d ds]; [simpl in Hl; lia|].
  pose proof Ht as Hd%Forall_inv. pose proof Hd as Hd'%is_octal_range.
  unfold sscanf_o. change ((d :: ds) ++ c :: s) with (d :: (ds ++ c :: s)).
  assert (Hs : skip_space (d :: (ds ++ c :: s)) = d :: (ds ++ c :: s)).
  { simpl. replace (is_space d) with false; [done|]. unfold is_space. lia. }
  rewrite Hs. rewrite (proj2 (Z.eqb_neq d 45)), (proj2 (Z.eqb_neq d 43)) by lia.
  rewrite Hd. change (d :: ds ++ c :: s) with ((d :: ds) ++ c :: s).
  rewrite scan_digits_spec by done. cbn [mbind option_bind].
  assert (2 ^ (bits - 1) ≤ 2 ^ 63) by (apply Z.pow_le_mono_r; lia).
  change (2 ^ 63) with 9223372036854775808 in *. change (2 ^ 64) with 18446744073709551616.
  rewrite (proj2 (Z.leb_gt 18446744073709551616 _)) by lia.
  assert (2 ^ (bits - 1) < 2 ^ bits) by (apply Z.pow_lt_mono_r; lia).
  rewrite Z.mod_small by lia. by rewrite (proj2 (Z.leb_gt _ _)) by lia.
Qed.

(** * Fields of the header *)

Lemma length_write_at off l h :
  (off + length l ≤ length h)%nat → length (write_at off l h) = length h.
Proof. intros Hl. unfold write_at. rewrite !length_app, length_take, length_drop. lia. Qed.

Lemma write_at_bytes off l h :
  Forall is_byte l → Forall is_byte h → Forall is_byte (write_at off l h).
Proof.
  intros Hl Hh. unfold write_at. rewrite !Forall_app.
  split; [by apply Forall_take|]. split; [done|by apply Forall_drop].
Qed.

Lemma drop_write_at off l h :
  (off + length l ≤ length h)%nat → drop off (write_at off l h) = l ++ drop (off + length l) h.
Proof.
  intros Hl. unfold write_at. rewrite drop_app_length'; [done|]. rewrite length_take. lia.
Qed.

Lemma sub_write_same off l h :
  (off + length l ≤ length h)%nat → sub off (length l) (write_at off l h) = l.
Proof. intros Hl. unfold sub. by rewrite drop_write_at, take_app_length. Qed.

Lemma sub_lookup off len h i : (i < len)%nat → sub off len h !! i = h !! (off + i)%nat.
Proof. intros Hi. unfold sub. by rewrite lookup_take_lt, lookup_drop by done. Qed.

Lemma write_at_lookup off l h i :
  (off + length l ≤ length h)%nat →
  write_at off l h !! i =
    if decide (off ≤ i < off + length l)%nat then l !! (i - off)%nat else h !! i.
Proof.
  intros Hl. unfold write_at.
  destruct (decide (i < off)%nat) as [Hlt|Hge].
  - rewrite decide_False by lia. rewrite lookup_app_l by (rewrite length_take; lia).
    by rewrite lookup_take_lt.
  - assert (Htk : length (take off h) = off) by (rewrite length_take; lia).
    rewrite lookup_app_r, Htk by lia. destruct (decide (off ≤ i < off + length l)%nat) as [Hin|Hout].
    + rewrite lookup_app_l by lia. done.
    + rewrite lookup_app_r, lookup_drop by lia. f_equal. lia.
Qed.

Lemma sub_ext off len h h' :
  length h = length h' → (off + len ≤ length h)%nat →
  (∀ i, (off ≤ i < off + len)%nat → h !! i = h' !! i) → sub off len h = sub off len h'.
Proof.
  intros Hl Hb He. apply list_eq. intros i. destruct (decide (i < len)%nat) as [Hi|Hi].
  - rewrite !sub_lookup by done. apply He. lia.
  - rewrite !lookup_ge_None_2; [done|unfold sub; rewrite length_take, length_drop; lia..].
Qed.

(** Writing one field leaves the others alone. *)
Lemma sub_write_other off len off' l h :
  (off' + length l ≤ length h)%nat → (off + len ≤ length h)%nat →
  (off + len ≤ off' ∨ off' + length l ≤ off)%nat →
  sub off len (write_at off' l h) = sub off len h.
Proof.
  intros Hl Hb Hd. apply sub_ext; [by apply length_write_at|by rewrite length_write_at|].
  intros i Hi. rewrite write_at_lookup by done. by rewrite decide_False by lia.
Qed.

(** A write that covers an earlier one. *)
Lemma write_write_at off l off' l' h :
  (off ≤ off')%nat → (off' + length l' ≤ off + length l)%nat → (off + length l ≤ length h)%nat →
  write_at off l (write_at off' l' h) = write_at off l h.
Proof.
  intros H1 H2 H3. apply list_eq. intros i.
  rewrite !write_at_lookup; rewrite ?length_write_at; try lia.
  repeat case_decide; done || lia.
Qed.

Lemma sub_write_short off len l h :
  (length l ≤ len)%nat → (off + len ≤ length h)%nat →
  sub off len (write_at off l h) = l ++ sub (off + length l) (len - length l) h.
Proof.
  intros Hl Hb. unfold sub. rewrite drop_write_at by lia. by rewrite take_app_ge.
Qed.

Lemma sub_replicate off len n (x : Z) :
  (off + len ≤ n)%nat → sub off len (replicate n x) = replicate len x.
Proof. intros Hb. unfold sub. rewrite drop_replicate, take_replicate. f_equal. lia. Qed.

Lemma sub_drop off len h : drop off h = sub off len h ++ drop (off + len) h.
Proof. unfold sub. by rewrite <- drop_drop, take_drop. Qed.

Lemma sub_app off n m h : sub off (n + m) h = sub off n h ++ sub (off + n) m h.
Proof. unfold sub. by rewrite <- take_take_drop, drop_drop. Qed.

Lemma until_nul_zeros l n :
  Forall (λ c, c ≠ 0) l → until_nul (l ++ replicate n 0) = l.
Proof.
  induction 1 as [|c l Hc Hl IH]; simpl; [by destruct n|].
  by rewrite (proj2 (Z.eqb_neq _ _)) by done; rewrite IH.
Qed.

Lemma until_nul_stop l s : Forall (λ c, c ≠ 0) l → until_nul (l ++ 0 :: s) = l.
Proof.
  induction 1 as [|c l Hc Hl IH]; simpl; [done|].
  by rewrite (proj2 (Z.eqb_neq _ _)) by done; rewrite IH.
Qed.

(** ** The checksum *)

Lemma sum_bytes_bound h : Forall is_byte h → 0 ≤ sum_bytes h ≤ 255 * Z.of_nat (length h).
Proof.
  unfold sum_bytes. induction 1 as [|b h Hb Hh IH]; simpl; [lia|]. unfold is_byte in Hb. lia.
Qed.

Lemma stored_sum_spaces n s : stored_sum (replicate n 32 ++ s) false 0 = stored_sum s false 0.
Proof. by induction n. Qed.

Lemma stored_sum_found ds s acc :
  octal_text ds → stored_sum (ds ++ 0 :: s) true acc = Some (octal_value acc ds).
Proof.
  intros Ht. revert acc. induction Ht as [|d ds Hd Ht IH]; intros acc; [done|].
  pose proof Hd as Hr%is_octal_range. simpl.
  rewrite (proj2 (Z.eqb_neq d 0)), (proj2 (Z.eqb_neq d 32)) by lia. simpl. rewrite Hd.
  replace (8 * acc + d - 48) with (8 * acc + (d - 48)) by lia. apply IH.
Qed.

Lemma stored_sum_digits ds s :
  octal_text ds → (0 < length ds)%nat →
  stored_sum (ds ++ 0 :: s) false 0 = Some (octal_value 0 ds).
Proof.
  intros Ht Hl. destruct ds as [|d ds]; [simpl in Hl; lia|].
  apply Forall_cons_iff in Ht as [Hd Ht]. pose proof Hd as Hr%is_octal_range. simpl.
  replace (is_space d) with false by (unfold is_space; lia). rewrite Hd.
  rewrite stored_sum_found by done. f_equal.
Qed.

(** [setChecksum] never overflows, what it writes is what [checksumValid] accepts, and the
    other fields stay. *)
Lemma setChecksum_spec h :
  length h = header_size → Forall is_byte h →
  ∃ h', setChecksum h = Returns h' ∧ length h' = header_size ∧ Forall is_byte h' ∧
    checksumValid h' = true ∧
    ∀ off len, (off + len ≤ checksum_at ∨ checksum_at + 8 ≤ off)%nat →
      (off + len ≤ header_size)%nat → sub off len h' = sub off len h.
Proof.
  unfold header_size, checksum_at. intros Hl Hb. unfold setChecksum, checksum_at.
  set (h1 := write_at 148 (replicate 8 32) h).
  assert (Hl1 : length h1 = 512%nat) by (unfold h1; by rewrite length_write_at; rewrite ?Hl; simpl; lia).
  assert (Hb1 : Forall is_byte h1).
  { apply write_at_bytes; [|done]. apply Forall_replicate. unfold is_byte. lia. }
  pose proof (sum_bytes_bound h1 Hb1) as Hsum. rewrite Hl1 in Hsum.
  rewrite Z.gtb_ltb. destruct (Z.ltb_spec 262143 (sum_bytes h1)) as [Hbad|_]; [lia|].
  set (sum := sum_bytes h1) in *.
  destruct (sprintf_o_spec 32 6 sum) as (ds & Hp & Ht & Hval & Hld & Hmin).
  { change (2 ^ 32) with 4294967296. lia. }
  assert (Hld6 : (length ds ≤ 6)%nat).
  { apply Hmin; [lia|]. change (8 ^ Z.of_nat 6) with 262144. lia. }
  assert (Hlp : length (sprintf_o 32 6 sum) = 7%nat).
  { rewrite Hp, !length_app, length_replicate. simpl. lia. }
  set (h2 := write_at 148 (sprintf_o 32 6 sum) h1).
  assert (Hl2 : length h2 = 512%nat) by (unfold h2; rewrite length_write_at; lia).
  exists (write_at (148 + 7) [32] h2). split; [done|].
  assert (Hl3 : length (write_at (148 + 7) [32] h2) = 512%nat)
    by (rewrite length_write_at; simpl; lia).
  split; [done|]. split.
  { apply write_at_bytes; [constructor; [unfold is_byte; lia|done]|].
    apply write_at_bytes; [|done]. apply sprintf_o_bytes; [|unfold is_byte; lia].
    change (2 ^ 32) with 4294967296. lia. }
  split.
  - unfold checksumValid, checksum_at. unfold h2.
    rewrite (write_write_at 148 (replicate 8 32) (148 + 7))
      by (fold h2; rewrite ?Hl2; simpl; lia).
    rewrite (write_write_at 148 (replicate 8 32) 148 (sprintf_o 32 6 sum))
      by (rewrite ?Hlp, ?Hl1; simpl; lia).
    assert (Hh1 : write_at 148 (replicate 8 32) h1 = h1)
      by (unfold h1; rewrite write_write_at by (rewrite ?Hl; simpl; lia); done).
    rewrite Hh1. fold sum.
    assert (Hf : sub 148 8 (write_at (148 + 7) [32] (write_at 148 (sprintf_o 32 6 sum) h1)) =
      sprintf_o 32 6 sum ++ [32]).
    { etrans; [apply (sub_app 148 7 1)|]. f_equal.
      - fold h2. rewrite sub_write_other by (rewrite ?Hl2; simpl; lia).
        pose proof (sub_write_same 148 (sprintf_o 32 6 sum) h1) as Hs. rewrite Hlp in Hs.
        apply Hs. lia.
      - apply (sub_write_same (148 + 7) [32]). fold h2. rewrite Hl2. simpl. lia. }
    rewrite Hf, Hp, <- !app_assoc, stored_sum_spaces. change ([0] ++ [32]) with [0; 32].
    rewrite stored_sum_digits by (done || lia). rewrite Hval. apply Z.eqb_refl.
  - intros off len Hout Hin. rewrite sub_write_other by (rewrite ?Hl2; simpl; lia).
    unfold h2. rewrite sub_write_other by (rewrite ?Hl1, ?Hlp; simpl; lia).
    unfold h1. by rewrite sub_write_other by (rewrite ?Hl; simpl; lia).
Qed.

(** ** Building a header *)

(** A sequence of fields. *)
Definition writes (ws : list (nat * list Z)) (h : list Z) : list Z :=
  foldl (λ h w, write_at w.1 w.2 h) h ws.

Definition fits (w : nat * list Z) : Prop := (w.1 + length w.2 ≤ header_size)%nat.
Definition apart (off len : nat) (w : nat * list Z) : Prop :=
  (off + len ≤ w.1 ∨ w.1 + length w.2 ≤ off)%nat.

Lemma writes_app ws ws' h : writes (ws ++ ws') h = writes ws' (writes ws h).
Proof. apply foldl_app. Qed.

Lemma length_writes ws h :
  length h = header_size → Forall fits ws → length (writes ws h) = header_size.
Proof.
  intros Hl Hf. revert h Hl. induction Hf as [|w ws Hw Hf IH]; intros h Hl; [done|].
  apply IH. rewrite length_write_at; [done|]. by rewrite Hl.
Qed.

Lemma writes_bytes ws h :
  Forall is_byte h → Forall (λ w, Forall is_byte w.2) ws → Forall is_byte (writes ws h).
Proof.
  intros Hb Hws. revert h Hb. induction Hws as [|w ws Hw Hws IH]; intros h Hb; [done|].
  apply IH. by apply write_at_bytes.
Qed.

Lemma sub_writes_other off len ws h :
  length h = header_size → (off + len ≤ header_size)%nat → Forall fits ws →
  Forall (apart off len) ws → sub off len (writes ws h) = sub off len h.
Proof.
  intros Hl Hb Hf Ha. revert h Hl.
  induction Hf as [|w ws Hw Hf IH]; intros h Hl; [done|].
  apply Forall_cons_iff in Ha as [Haw Ha]. simpl.
  assert (Hl' : length (write_at w.1 w.2 h) = header_size)
    by (rewrite length_write_at; [done|by rewrite Hl]).
  rewrite (IH Ha _ Hl'). apply sub_write_other; rewrite ?Hl; done.
Qed.

Lemma sub_writes_same ws off l ws' h :
  length h = header_size → Forall fits (ws ++ (off, l) :: ws') →
  Forall (apart off (length l)) ws' → sub off (length l) (writes (ws ++ (off, l) :: ws') h) = l.
Proof.
  intros Hl Hf Ha. apply Forall_app in Hf as [Hf1 [Hf2 Hf3]%Forall_cons_iff].
  rewrite writes_app. simpl. pose proof (length_writes ws h Hl Hf1) as Hlw.
  rewrite sub_writes_other; [| |done..].
  - apply sub_write_same. by rewrite Hlw.
  - rewrite length_write_at; [done|]. by rewrite Hlw.
Qed.

(** ** Names *)

Definition plain (s : list Z) : Prop := Forall (λ c, is_byte c ∧ c ≠ 0) s.

#[export] Instance plain_dec s : Decision (plain s).
Proof. unfold plain, is_byte. apply _. Defined.

(** The names that can be stored: those of at most 100 bytes, and those with a separator
    where they can be split. *)
Definition splits (name : list Z) : Prop :=
  match find_split 158 name (length name - 101) with
  | Returns (Some i) => (0 < i ≤ 155)%nat
  | _ => False
  end.

Definition storable (name : list Z) : Prop :=
  plain name ∧ name ≠ [] ∧ (length name ≤ 100 ∨ length name ≤ 256 ∧ splits name)%nat.

Lemma plain_bytes s : plain s → Forall is_byte s.
Proof. apply Forall_impl. by intros c []. Qed.
Lemma plain_nonzero s : plain s → Forall (λ c, c ≠ 0) s.
Proof. apply Forall_impl. by intros c []. Qed.

Lemma find_split_spec fuel name j i :
  find_split fuel name j = Returns (Some i) → (j ≤ i)%nat ∧ char_at name i = Some 47.
Proof.
  revert j. induction fuel as [|fuel IH]; intros j; simpl; [done|].
  case_decide; [|done]. destruct (char_at name j) as [c|] eqn:Hc; [|done]. simpl.
  destruct (Z.eqb_spec c 47) as [->|Hne]; [by intros [= <-]|].
  intros [Hle Hat]%IH. split; [lia|done].
Qed.

Lemma char_at_lookup s i c : char_at s i = Some c → c ≠ 0 → s !! i = Some c.
Proof. unfold char_at. case_decide; [intros [= <-]; done|done]. Qed.

Definition zeros : list Z := replicate header_size 0.

(** [getName] needs the two fields only. *)
Lemma getName_fields h h' :
  sub name_at 100 h = sub name_at 100 h' → sub prefix_at 155 h = sub prefix_at 155 h' →
  getName h = getName h'.
Proof. unfold getName. by intros -> ->. Qed.

(** The two parts of a long name are read back as the name. *)
Lemma long_name_read name i :
  plain name → name !! i = Some 47 → (0 < i ≤ 155)%nat → length (take i name) = i →
  length (drop (S i) name) = (length name - S i)%nat → (length name - S i ≤ 100)%nat →
  getName (writes [(prefix_at, take i name); (name_at, drop (S i) name)] zeros) = name.
Proof.
  intros Hp Hat Hs Hlt' Hld H100.
  assert (Hz : length zeros = header_size) by done.
  set (h1 := write_at prefix_at (take i name) zeros).
  assert (Hl1 : length h1 = header_size).
  { unfold h1. rewrite length_write_at; [done|]. rewrite Hz, Hlt'. unfold prefix_at, header_size. lia. }
  change (writes _ zeros) with (write_at name_at (drop (S i) name) h1). unfold getName.
  rewrite (sub_write_other prefix_at 155 name_at)
    by (rewrite ?Hl1, ?Hld; unfold prefix_at, name_at, header_size; lia).
  rewrite (sub_write_short name_at 100)
    by (rewrite ?Hl1, ?Hld; unfold name_at, header_size; lia).
  unfold h1. rewrite sub_write_short
    by (rewrite ?Hz, ?Hlt'; unfold prefix_at, header_size; lia).
  rewrite (sub_write_other _ _ prefix_at)
    by (rewrite ?Hz, ?Hlt', ?Hld; unfold prefix_at, name_at, header_size; lia).
  unfold zeros. rewrite !sub_replicate
    by (rewrite ?Hlt', ?Hld; unfold prefix_at, name_at, header_size; lia).
  rewrite !until_nul_zeros by (try apply Forall_take; try apply Forall_drop; by apply plain_nonzero).
  destruct (take i name) as [|c l] eqn:Htk; [simpl in Hlt'; lia|].
  rewrite <- Htk. by rewrite (take_drop_middle _ _ _ Hat).
Qed.

Lemma write_name_spec name :
  storable name →
  ∃ ws, write_name name zeros = Returns (writes ws zeros) ∧ Forall fits ws ∧
    Forall (λ w, Forall is_byte w.2) ws ∧
    Forall (apart mode_at (prefix_at - mode_at)) ws ∧ getName (writes ws zeros) = name.
Proof.
  intros (Hp & Hne & Hlen). unfold write_name. destruct (decide (100 < length name)%nat) as [Hlt|Hge].
  - destruct Hlen as [?|[Hmax Hs]]; [lia|]. rewrite decide_False by lia. unfold splits in Hs.
    destruct (find_split 158 name (length name - 101)) as [[i|]| | |] eqn:Hf; try done.
    apply find_split_spec in Hf as [Hi Hat]. apply char_at_lookup in Hat; [|done].
    pose proof (lookup_lt_Some _ _ _ Hat) as Hil. simpl.
    exists [(prefix_at, take i name); (name_at, drop (S i) name)]. split; [done|].
    assert (Hlt' : length (take i name) = i) by (rewrite length_take; lia).
    assert (Hld : length (drop (S i) name) = (length name - S i)%nat) by by rewrite length_drop.
    assert (Hfit : Forall fits [(prefix_at, take i name); (name_at, drop (S i) name)]).
    { repeat (apply Forall_cons_iff; split); [| |done]; unfold fits, prefix_at, name_at, header_size;
        simpl fst; simpl snd; lia. }
    split; [done|]. split.
    { repeat (apply Forall_cons_iff; split); [| |done];
        [apply Forall_take|apply Forall_drop]; by apply plain_bytes. }
    split.
    { repeat (apply Forall_cons_iff; split); [| |done]; unfold apart, mode_at, prefix_at, name_at;
        simpl fst; simpl snd; lia. }
    apply long_name_read; [done..|lia].
  - exists [(name_at, name)]. split; [done|].
    assert (Hfit : fits (name_at, name)) by (unfold fits, name_at, header_size; simpl; lia).
    split; [by constructor|]. split; [by constructor; [apply plain_bytes|]|].
    split; [by constructor; [unfold apart, mode_at, name_at; simpl; lia|]|].
    change (writes _ zeros) with (write_at name_at name zeros). unfold getName, name_at.
    rewrite sub_write_other by (unfold zeros, prefix_at, header_size; rewrite ?length_replicate; lia).
    rewrite sub_write_short by (unfold zeros, header_size; rewrite ?length_replicate; lia).
    unfold zeros, header_size, prefix_at. rewrite !sub_replicate by lia.
    rewrite until_nul_zeros by by apply plain_nonzero.
    done.
Qed.

Record wf_process (P : Process) : Prop := {
  wf_uid : 0 ≤ getuid P < 2 ^ 32;
  wf_gid : 0 ≤ getgid P < 2 ^ 32 }.

Definition fields (P : Process) (fileSize : Z) (fileType : typeCode) : list (nat * list Z) :=
  [(mode_at, sprintf_o 48 7 420); (uid_at, sprintf_o 48 7 (getuid P));
   (gid_at, sprintf_o 48 7 (getgid P)); (size_at, sprintf_o 48 11 (fileSize mod 2 ^ 32));
   (mtime_at, sprintf_o 48 11 (time P mod 2 ^ 32)); (typeflag_at, [48 + typeCode_value fileType]);
   (magic_at, bytes_of "ustar" ++ [0]); (version_at, [32; 0])].

Lemma sprintf_11_length v : 0 ≤ v < 2 ^ 32 → length (sprintf_o 48 11 v) = 12%nat.
Proof.
  intros Hv. destruct (sprintf_o_spec 48 11 v Hv) as (ds & -> & _ & _ & Hl & _).
  rewrite !length_app, length_replicate. simpl. lia.
Qed.

Lemma mod_u32 v : 0 ≤ v mod 2 ^ 32 < 2 ^ 32.
Proof. by apply Z.mod_pos_bound. Qed.

Lemma typeCode_value_range t : 0 ≤ typeCode_value t ≤ 6.
Proof. destruct t; simpl; lia. Qed.

Lemma fields_lengths P fileSize fileType :
  wf_process P →
  (length (sprintf_o 48 7 (getuid P)) ≤ 12)%nat ∧ (length (sprintf_o 48 7 (getgid P)) ≤ 12)%nat ∧
  length (sprintf_o 48 11 (fileSize mod 2 ^ 32)) = 12%nat ∧
  length (sprintf_o 48 11 (time P mod 2 ^ 32)) = 12%nat ∧
  Forall fits (fields P fileSize fileType) ∧
  Forall (λ w, Forall is_byte w.2) (fields P fileSize fileType).
Proof.
  intros [Hu Hg]. pose proof (sprintf_o_length 48 7 _ Hu) as Hlu.
  pose proof (sprintf_o_length 48 7 _ Hg) as Hlg.
  pose proof (sprintf_11_length _ (mod_u32 fileSize)) as Hls.
  pose proof (sprintf_11_length _ (mod_u32 (time P))) as Hlt.
  assert (Hlm : length (sprintf_o 48 7 420) = 8%nat) by (vm_compute; reflexivity).
  split; [lia|]. split; [lia|]. split; [done|]. split; [done|]. split.
  - unfold fields. repeat (apply Forall_cons_iff; split); try done; unfold fits;
      rewrite ?Hlm, ?Hls, ?Hlt; unfold mode_at, uid_at, gid_at, size_at, mtime_at, typeflag_at,
        header_size; simpl fst; simpl snd; rewrite ?Hlm, ?Hls, ?Hlt; simpl; lia.
  - pose proof (typeCode_value_range fileType) as Ht.
    assert (is_byte 48) by (unfold is_byte; lia).
    unfold fields. repeat (apply Forall_cons_iff; split); try done; simpl;
      try (apply sprintf_o_bytes; [first [done|apply mod_u32|change (2 ^ 32) with 4294967296; lia]|done]).
    unfold is_byte. lia.
Qed.

(** What the reader sees of a header. *)
Record header_of (h name : list Z) (fileSize : Z) (fileType : typeCode) : Prop := {
  ho_length : length h = header_size;
  ho_bytes : Forall is_byte h;
  ho_checksum : checksumValid h = true;
  ho_name : getName h = name;
  ho_size : sub size_at 12 h = sprintf_o 48 11 (fileSize mod 2 ^ 32);
  ho_mode : sub mode_at 8 h = sprintf_o 48 7 420;
  ho_type : sub typeflag_at 1 h = [48 + typeCode_value fileType] }.

Lemma header_spec P name fileSize fileType :
  wf_process P → storable name → fileSize ≤ 8589934591 →
  ∃ h, header_posix_ustar P name fileSize fileType = Returns h ∧
    header_of h name fileSize fileType ∧ sub linkname_at 100 h = replicate 100 0 ∧
    sub magic_at 6 h = bytes_of "ustar" ++ [0].
Proof.
  intros HP Hn Hs. destruct (fields_lengths P fileSize fileType HP)
    as (Hlu & Hlg & Hls & Hlt & Hfit & Hbytes).
  destruct (write_name_spec name Hn) as (ws & Hw & Hwf & Hwb & Hwa & Hget).
  set (h0 := writes ws zeros) in *.
  assert (Hl0 : length h0 = header_size) by by apply length_writes.
  assert (Hb0 : Forall is_byte h0).
  { apply writes_bytes; [|done]. apply Forall_replicate. unfold is_byte. lia. }
  set (h := writes (fields P fileSize fileType) h0).
  assert (Hl : length h = header_size) by by apply length_writes.
  assert (Hb : Forall is_byte h) by by apply writes_bytes.
  destruct (setChecksum_spec h Hl Hb) as (h' & Hset & Hl' & Hb' & Hck & Hother).
  exists h'. split.
  { unfold header_posix_ustar. rewrite Z.gtb_ltb. rewrite (proj2 (Z.ltb_ge _ _)) by lia.
    fold zeros. rewrite Hw. exact Hset. }
  assert (Hlm : length (sprintf_o 48 7 420) = 8%nat) by (vm_compute; reflexivity).
  assert (Hsub : ∀ off len, Forall (apart off len) (fields P fileSize fileType) →
    (off + len ≤ checksum_at ∨ checksum_at + 8 ≤ off)%nat → (off + len ≤ header_size)%nat →
    sub off len h' = sub off len h0).
  { intros off len Ha Hc Hh. rewrite Hother by done. by apply sub_writes_other. }
  assert (Ha : ∀ off len, (mode_at + 8 ≤ off ∨ off + len ≤ mode_at)%nat →
    (prefix_at ≤ off ∨ off + len ≤ mode_at ∨
      typeflag_at + 1 ≤ off ∧ off + len ≤ magic_at)%nat →
    Forall (apart off len) (fields P fileSize fileType)).
  { intros off len H1 H2. unfold fields. unfold mode_at, prefix_at, typeflag_at, magic_at in *.
    repeat (apply Forall_cons_iff; split); try done; unfold apart;
      unfold uid_at, gid_at, size_at, mtime_at, version_at; simpl fst; simpl snd;
      rewrite ?Hlm, ?Hls, ?Hlt; simpl length; lia. }
  split; [split; try done|].
  - rewrite <- Hget. apply getName_fields; apply Hsub;
      try (apply Ha); unfold name_at, prefix_at, mode_at, typeflag_at, magic_at, checksum_at,
        header_size; lia.
  - rewrite Hother by (unfold size_at, checksum_at, header_size; lia). rewrite <- Hls.
    apply (sub_writes_same [_; _; _] size_at); [done..|].
    repeat (apply Forall_cons_iff; split); try done; unfold apart; rewrite ?Hls;
      unfold size_at, mtime_at, typeflag_at, magic_at, version_at; simpl fst; simpl snd;
      rewrite ?Hlt; simpl length; lia.
  - rewrite Hother by (unfold mode_at, checksum_at, header_size; lia). rewrite <- Hlm.
    apply (sub_writes_same [] mode_at); [done..|].
    repeat (apply Forall_cons_iff; split); try done; unfold apart; rewrite ?Hlm;
      unfold mode_at, uid_at, gid_at, size_at, mtime_at, typeflag_at, magic_at, version_at;
      simpl fst; simpl snd; rewrite ?Hls, ?Hlt; simpl length; lia.
  - rewrite Hother by (unfold typeflag_at, checksum_at, header_size; lia).
    apply (sub_writes_same [_; _; _; _; _] typeflag_at [_]); [done..|].
    repeat (apply Forall_cons_iff; split); try done; unfold apart, typeflag_at, magic_at, version_at;
      simpl; lia.
  - split; [|rewrite Hother by (unfold magic_at, checksum_at, header_size; lia);
      change 6%nat with (length (bytes_of "ustar" ++ [0])) at 1;
      apply (sub_writes_same [_; _; _; _; _; _] magic_at (_ ++ [0])); [done..|];
      repeat (apply Forall_cons_iff; split); try done; unfold apart, magic_at, version_at;
      simpl; lia].
    rewrite Hsub.
    + unfold h0. rewrite sub_writes_other.
      * apply sub_replicate. unfold linkname_at, header_size. lia.
      * done.
      * unfold linkname_at, header_size. lia.
      * done.
      * eapply Forall_impl, Hwa. unfold apart, mode_at, prefix_at, linkname_at. intros w ?. lia.
    + apply Ha; unfold mode_at, linkname_at, prefix_at, typeflag_at, magic_at; lia.
    + unfold linkname_at, checksum_at. lia.
    + unfold linkname_at, header_size. lia.
Qed.

(** ** Reading the fields back *)

Lemma sscanf_field bits off width v n h :
  sub off n h = sprintf_o 48 width v → 0 ≤ v < 2 ^ 32 → v < 2 ^ (bits - 1) → 1 ≤ bits ≤ 64 →
  sscanf_o bits (drop off h) = Some (Some v) ∧ properlyTerminated (sub off n h) = true.
Proof.
  intros Hs Hv Hvb Hb. destruct (sprintf_o_spec 48 width v Hv) as (ds & Hp & Ht & Hval & Hl & _).
  rewrite (sub_drop off n), Hs, Hp, <- !app_assoc. split.
  - change ([0] ++ drop (off + n) h) with (0 :: drop (off + n) h). rewrite app_assoc.
    assert (Hoct : octal_value 0 (replicate (width - length ds) 48 ++ ds) = v)
      by by rewrite octal_value_app, octal_value_zeros.
    rewrite <- Hoct at 1. apply sscanf_o_digits; [|rewrite length_app; lia|done|done|lia].
    apply Forall_app. split; [apply octal_text_zeros|done].
  - unfold properlyTerminated. rewrite !existsb_app. simpl. by rewrite !orb_true_r.
Qed.

Lemma header_typeflag h name fileSize fileType :
  header_of h name fileSize fileType → h !! typeflag_at = Some (48 + typeCode_value fileType).
Proof.
  intros Hh. pose proof (ho_type _ _ _ _ Hh) as Ht.
  replace typeflag_at with (typeflag_at + 0)%nat by lia.
  rewrite <- (sub_lookup typeflag_at 1) by lia. by rewrite Ht.
Qed.

Lemma header_not_empty h name fileSize fileType :
  header_of h name fileSize fileType → isEmpty h = false.
Proof.
  intros Hh. apply header_typeflag in Hh. apply not_true_is_false. unfold isEmpty.
  rewrite forallb_forall. intros Hall.
  specialize (Hall _ (proj1 (list_elem_of_In _ _) (list_elem_of_lookup_2 _ _ _ Hh))).
  pose proof (typeCode_value_range fileType). lia.
Qed.

Definition file_type (t : typeCode) : fileType :=
  match t with
  | RegularFile => REGULAR_FILE | HardLink => HARD_LINK | SymLink => SYMBOLIC_LINK
  | CharDevice => CHARACTER_DEVICE | BlockDevice => BLOCK_DEVICE | Directory => DIRECTORY
  | FIFONode => FIFO
  end.

Lemma stream_read_app n l s :
  length l = n → stream_read n (mkStream (l ++ s) true) = (Some l, mkStream s true).
Proof.
  intros <-. unfold stream_read. simpl. rewrite bool_decide_true by (rewrite length_app; lia).
  by rewrite take_app_length, drop_app_length.
Qed.

Lemma stream_get_app l s : stream_get (length l) (mkStream (l ++ s) true) = (l, mkStream s true).
Proof.
  unfold stream_get. simpl. rewrite bool_decide_true by (rewrite length_app; lia).
  by rewrite take_app_length, drop_app_length.
Qed.

Lemma stream_ignore_app l s : stream_ignore (length l) (mkStream (l ++ s) true) = mkStream s true.
Proof.
  unfold stream_ignore. simpl. rewrite bool_decide_true by (rewrite length_app; lia).
  by rewrite drop_app_length.
Qed.

(** One pass over a header: what remains is the entry. *)
Lemma read_loop_header fuel nEmpty size0 h name fileSize fileType s fs e :
  header_of h name fileSize fileType → 0 ≤ fileSize →
  let v := fileSize mod 2 ^ 32 in
  read_loop (S fuel) [] nEmpty size0 (mkTarReader (mkStream (h ++ s) true) fs e) =
  ('(record, src2) ← read_entry h v (Some 420) (mkStream s true);
   let src3 := if Z.rem v 512 =? 0 then src2
               else stream_ignore (Z.to_nat (512 - Z.rem v 512)) src2 in
   Returns (name, mkTarReader src3 (insert_file name record fs) e)).
Proof.
  intros Hh Hs v. simpl read_loop.
  rewrite stream_read_app by by rewrite (ho_length _ _ _ _ Hh).
  rewrite (header_not_empty _ _ _ _ Hh), (ho_checksum _ _ _ _ Hh). simpl negb.
  pose proof (mod_u32 fileSize) as Hv. fold v in Hv.
  assert (H32 : 2 ^ 32 = 4294967296) by done.
  destruct (sscanf_field 64 size_at 11 v 12 h) as [Hsize Hts];
    [apply Hh|done|change (2 ^ (64 - 1)) with 9223372036854775808; lia|lia|].
  destruct (sscanf_field 32 mode_at 7 420 8 h) as [Hmode Htm];
    [apply Hh|lia|change (2 ^ (32 - 1)) with 2147483648; lia|lia|].
  rewrite Hts, Hsize. simpl negb. cbn [mbind Outcome_bind defined].
  rewrite Z.gtb_ltb, (proj2 (Z.ltb_ge _ _)) by lia. rewrite Htm, Hmode. simpl negb.
  cbn [mbind Outcome_bind defined]. rewrite (ho_name _ _ _ _ Hh).
  destruct (read_entry h v (Some 420) (mkStream s true)) as [[record src2]| | |]; [|done..].
  cbn [mbind Outcome_bind]. by rewrite orb_true_r.
Qed.

(** * Archives *)

Inductive entry :=
  | EFile (name data : list Z)
  | EDirectory (name : list Z)
  | ESymLink (name target : list Z).

Definition entry_name (e : entry) : list Z :=
  match e with EFile n _ | EDirectory n | ESymLink n _ => n end.

(** What is to be read for an entry; the mode is always 0644. *)
Definition entry_record (e : entry) : FileRecord :=
  match e with
  | EFile _ d => mkFileRecord REGULAR_FILE d (Some 420)
  | EDirectory _ => mkFileRecord DIRECTORY [] (Some 420)
  | ESymLink _ t => mkFileRecord SYMBOLIC_LINK t (Some 420)
  end.

Definition append (P : Process) (e : entry) : TarWriter → Outcome TarWriter :=
  match e with
  | EFile n d => appendFile P n d
  | EDirectory n => appendDirectory P n
  | ESymLink n t => appendSymLink P n t
  end.

(** The entries that survive: names that can be stored, data of less than 4 GB, targets of
    less than 100 bytes. *)
Definition storable_entry (e : entry) : Prop :=
  storable (entry_name e) ∧
  match e with
  | EFile _ d => Z.of_nat (length d) < 2 ^ 32
  | EDirectory _ => True
  | ESymLink _ t => plain t ∧ (length t < 100)%nat
  end.

Fixpoint append_all (P : Process) (es : list entry) (w : TarWriter) : Outcome TarWriter :=
  match es with [] => Returns w | e :: es => w ← append P e w; append_all P es w end.

(** Writing an archive, up to its footer. *)
Definition archive (P : Process) (es : list entry) : Outcome (list Z) :=
  w ← append_all P es (mkTarWriter [] false); Returns (sink (endStream w)).

(** A client of the reader: every name with its record. *)
Fixpoint read_all (fuel : nat) (r : TarReader) :
    Outcome (list (list Z * FileRecord) * TarReader) :=
  match fuel with
  | O => NoFuel
  | S fuel =>
      '(name, r) ← nextFile 1 r;
      if bool_decide (name = []) then Returns ([], r) else
      '(record, r) ← find_record name r;
      '(l, r) ← read_all fuel r;
      Returns ((name, record) :: l, r)
  end.

(** The bytes [bs] read as the entry [e], whatever follows them. *)
Definition reads_as (bs : list Z) (e : entry) : Prop :=
  bs ≠ [] ∧ ∀ s fs b, readFiles [] (mkTarReader (mkStream (bs ++ s) true) fs b) =
    Returns (entry_name e,
      mkTarReader (mkStream s true) (insert_file (entry_name e) (entry_record e) fs) b).

Lemma header_of_cons h name fileSize fileType : header_of h name fileSize fileType → h ≠ [].
Proof. intros Hh ->. by pose proof (ho_length _ _ _ _ Hh). Qed.

Definition padding (d : list Z) : list Z :=
  if decide (length d mod 512 = 0)%nat then [] else replicate (512 - length d mod 512) 0.

Lemma skip_padding (d s : list Z) :
  (if Z.rem (Z.of_nat (length d)) 512 =? 0 then mkStream (padding d ++ s) true
   else stream_ignore (Z.to_nat (512 - Z.rem (Z.of_nat (length d)) 512))
     (mkStream (padding d ++ s) true)) = mkStream s true.
Proof.
  rewrite Z.rem_mod_nonneg by lia. unfold padding.
  assert (Hm : Z.of_nat (length d) mod 512 = Z.of_nat (length d mod 512))
    by by rewrite Nat2Z.inj_mod.
  rewrite Hm. pose proof (Nat.mod_upper_bound (length d) 512 ltac:(done)) as Hb.
  destruct (Z.eqb_spec (Z.of_nat (length d mod 512)) 0) as [Hz|Hne].
  - by rewrite decide_True by lia.
  - rewrite decide_False by lia.
    replace (Z.to_nat _) with (length (replicate (512 - length d mod 512) 0))
      by (rewrite length_replicate; lia).
    apply stream_ignore_app.
Qed.

Lemma appendFile_spec P n d w :
  wf_process P → storable_entry (EFile n d) → ended w = false →
  ∃ bs, appendFile P n d w = Returns (write bs w) ∧ reads_as bs (EFile n d).
Proof.
  intros HP [Hn Hd] Hw. simpl in Hn, Hd. change (2 ^ 32) with 4294967296 in Hd.
  destruct (header_spec P n (Z.of_nat (length d)) RegularFile HP Hn) as (h & Hh & Hho & _); [lia|].
  unfold appendFile. rewrite Hw, Hh. cbn [mbind Outcome_bind].
  exists (h ++ d ++ padding d). split.
  { unfold write, padding. cbn [sink ended]. case_decide.
    - by rewrite app_nil_r, <- app_assoc.
    - cbn [sink ended]. by rewrite <- !app_assoc. }
  split; [intros [Hnil _]%app_nil; by apply (header_of_cons _ _ _ _ Hho)|].
  intros s fs b. unfold readFiles. rewrite <- app_assoc.
  erewrite read_loop_header; [|exact Hho|lia]. cbv zeta.
  rewrite Z.mod_small by (change (2 ^ 32) with 4294967296; lia).
  unfold read_entry. rewrite (header_typeflag _ _ _ _ Hho). simpl default.
  change (typeForTarTypeFlag (48 + 0)) with REGULAR_FILE. cbv iota.
  rewrite (proj2 (Z.ltb_ge _ _)) by lia. rewrite Nat2Z.id, <- app_assoc, stream_get_app.
  cbn [mbind Outcome_bind]. by rewrite skip_padding.
Qed.

Lemma appendDirectory_spec P n w :
  wf_process P → storable n → ended w = false →
  ∃ bs, appendDirectory P n w = Returns (write bs w) ∧ reads_as bs (EDirectory n).
Proof.
  intros HP Hn Hw. destruct (header_spec P n 0 Directory HP Hn) as (h & Hh & Hho & _); [lia|].
  unfold appendDirectory. rewrite Hw, Hh. exists h. split; [done|].
  split; [by apply (header_of_cons _ _ _ _ Hho)|]. intros s fs b. unfold readFiles.
  erewrite read_loop_header; [|exact Hho|lia]. cbv zeta.
  unfold read_entry. by rewrite (header_typeflag _ _ _ _ Hho).
Qed.

(** A link is read up to the first NUL, which need not be in its field. *)
Lemma c_string_link h t :
  sub linkname_at 100 h = t ++ replicate (100 - length t) 0 → sub magic_at 6 h = bytes_of "ustar" ++ [0] →
  plain t → (length t ≤ 100)%nat →
  c_string (drop linkname_at h) =
    Some (if decide (length t = 100)%nat then t ++ bytes_of "ustar" else t).
Proof.
  intros Hl Hm Hp Hlen. apply plain_nonzero in Hp.
  rewrite (sub_drop linkname_at 100), Hl. change (linkname_at + 100)%nat with magic_at.
  rewrite (sub_drop magic_at 6), Hm. unfold c_string.
  destruct (decide (length t = 100%nat)) as [Hd|Hd].
  - rewrite Hd, Nat.sub_diag. change (replicate 0 0) with (@nil Z).
    rewrite app_nil_r. set (r := drop (magic_at + 6) h).
    replace (t ++ (bytes_of "ustar" ++ [0]) ++ r) with ((t ++ bytes_of "ustar") ++ 0 :: r)
      by by rewrite <- !app_assoc.
    rewrite decide_True by (rewrite elem_of_app, elem_of_cons; auto). f_equal.
    apply until_nul_stop, Forall_app. split; [done|]. repeat constructor; done.
  - destruct (100 - length t)%nat as [|n] eqn:Hn; [lia|].
    change (replicate (S n) 0) with (0 :: replicate n 0). rewrite <- app_assoc. simpl app.
    rewrite decide_True by (rewrite elem_of_app, elem_of_cons; auto).
    f_equal. by apply until_nul_stop.
Qed.

Lemma appendSymLink_spec P n t w :
  wf_process P → storable n → plain t → (length t ≤ 100)%nat → ended w = false →
  ∃ bs, appendSymLink P n t w = Returns (write bs w) ∧
    reads_as bs (ESymLink n (if decide (length t = 100)%nat then t ++ bytes_of "ustar" else t)).
Proof.
  intros HP Hn Ht Hlt Hw.
  destruct (header_spec P n 0 SymLink HP Hn) as (h & Hh & Hho & Hlink & Hmag); [lia|].
  unfold appendSymLink. rewrite Hw, Hh. cbn [mbind Outcome_bind]. rewrite decide_False by lia.
  set (h1 := write_at linkname_at t h). pose proof (ho_length _ _ _ _ Hho) as Hl.
  assert (Hfit : (linkname_at + length t ≤ length h)%nat)
    by (rewrite Hl; unfold linkname_at, header_size; lia).
  assert (Hl1 : length h1 = header_size) by (unfold h1; by rewrite length_write_at).
  assert (Hb1 : Forall is_byte h1) by (apply write_at_bytes; [by apply plain_bytes|apply Hho]).
  destruct (setChecksum_spec h1 Hl1 Hb1) as (h' & Hset & Hl' & Hb' & Hck & Hother).
  rewrite Hset. exists h'. split; [done|].
  assert (Hsub : ∀ off len, (off + len ≤ checksum_at ∨ checksum_at + 8 ≤ off)%nat →
    (off + len ≤ linkname_at ∨ magic_at ≤ off)%nat → (off + len ≤ header_size)%nat →
    sub off len h' = sub off len h).
  { intros off len H1 H2 H3. rewrite Hother by done. apply sub_write_other; [done|by rewrite Hl|].
    unfold linkname_at, magic_at in *. lia. }
  assert (Hho' : header_of h' n 0 SymLink).
  { destruct Hho as [_ _ _ Hname Hsize Hmode Htype]. split; try done.
    - rewrite <- Hname. apply getName_fields; apply Hsub;
        unfold name_at, prefix_at, checksum_at, linkname_at, magic_at, header_size; lia.
    - rewrite Hsub; [done|unfold size_at, checksum_at, linkname_at, magic_at, header_size; lia..].
    - rewrite Hsub; [done|unfold mode_at, checksum_at, linkname_at, magic_at, header_size; lia..].
    - rewrite Hsub; [done|unfold typeflag_at, checksum_at, linkname_at, magic_at, header_size; lia..]. }
  split; [by apply (header_of_cons _ _ _ _ Hho')|]. intros s fs b. unfold readFiles.
  erewrite read_loop_header; [|exact Hho'|lia]. cbv zeta.
  unfold read_entry. rewrite (header_typeflag _ _ _ _ Hho'). simpl default.
  change (typeForTarTypeFlag (48 + 2)) with SYMBOLIC_LINK. cbv iota.
  rewrite (c_string_link h' t); [done| | |done|done].
  - rewrite Hother by (unfold linkname_at, checksum_at, header_size; lia).
    unfold h1. rewrite sub_write_short by (rewrite ?Hl; unfold linkname_at, header_size; lia).
    f_equal. assert (Hz : sub linkname_at (length t + (100 - length t)) h = replicate 100 0).
    { by replace (length t + (100 - length t))%nat with 100%nat by lia. }
    rewrite sub_app in Hz. apply (f_equal (drop (length t))) in Hz.
    rewrite drop_replicate in Hz. rewrite <- Hz. symmetry. apply drop_app_length'.
    unfold sub. rewrite length_take, length_drop, Hl. unfold linkname_at, header_size. lia.
  - rewrite Hsub; [done|unfold magic_at, checksum_at, linkname_at, header_size; lia..].
Qed.

Lemma append_spec P e w :
  wf_process P → storable_entry e → ended w = false →
  ∃ bs, append P e w = Returns (write bs w) ∧ reads_as bs e.
Proof.
  intros HP He Hw. destruct e as [n d|n|n t]; simpl.
  - by apply appendFile_spec.
  - destruct He as [Hn _]. by apply appendDirectory_spec.
  - destruct He as (Hn & Ht & Hl). destruct (appendSymLink_spec P n t w HP Hn Ht) as (bs & Hb & Hr);
      [lia|done|]. exists bs. split; [done|]. by rewrite decide_False in Hr by lia.
Qed.

Lemma append_all_spec P es w :
  wf_process P → Forall storable_entry es → ended w = false →
  ∃ bss, append_all P es w = Returns (write (concat bss) w) ∧ Forall2 reads_as bss es.
Proof.
  intros HP Hes. revert w. induction Hes as [|e es He Hes IH]; intros w Hw; simpl.
  - exists []. split; [|done]. unfold write. rewrite app_nil_r. by destruct w.
  - destruct (append_spec P e w HP He Hw) as (bs & Hb & Hr). rewrite Hb. cbn [mbind Outcome_bind].
    destruct (IH (write bs w) Hw) as (bss & Hbss & Hrs). exists (bs :: bss).
    split; [|by constructor]. rewrite Hbss. unfold write. simpl. by rewrite <- app_assoc.
Qed.

Lemma readFiles_footer fs b :
  readFiles [] (mkTarReader (mkStream (replicate 1024 0) true) fs b) =
    Returns ([], mkTarReader (mkStream [] true) fs true).
Proof. reflexivity. Qed.

Lemma storable_entry_name e : storable_entry e → entry_name e ≠ [].
Proof. intros [(_ & ? & _) _]. done. Qed.

Lemma insert_file_new (name : list Z) (record : FileRecord) fs :
  fs !! name = None → insert_file name record fs = <[name := record]> fs.
Proof. unfold insert_file. by intros ->. Qed.

Lemma read_all_S fuel r :
  read_all (S fuel) r =
    ('(name, r) ← nextFile 1 r;
     if bool_decide (name = []) then Returns ([], r) else
     '(record, r) ← find_record name r;
     '(l, r) ← read_all fuel r;
     Returns ((name, record) :: l, r)).
Proof. reflexivity. Qed.

Lemma read_all_spec es bss fs b :
  Forall storable_entry es → Forall2 reads_as bss es → NoDup (entry_name <$> es) →
  (∀ e, e ∈ es → fs !! entry_name e = None) →
  ∃ r, read_all (S (length es))
      (mkTarReader (mkStream (concat bss ++ replicate 1024 0) true) fs b) =
    Returns ((λ e, (entry_name e, entry_record e)) <$> es, r) ∧ eof r = true.
Proof.
  intros Hst Hr. revert fs b Hst. induction Hr as [|bs e bss es [Hne Hr] Hrs IH];
    intros fs b Hst Hnd Hfs.
  - simpl concat. simpl app. eexists. split; [reflexivity|done].
  - apply Forall_cons_iff in Hst as [He Hst]. rewrite fmap_cons in Hnd.
    pose proof (NoDup_cons_1_1 _ _ Hnd) as Hnotin. apply NoDup_cons_1_2 in Hnd.
    pose proof (storable_entry_name e He) as Hname.
    assert (Hnew : fs !! entry_name e = None) by (apply Hfs; left).
    destruct (IH (<[entry_name e := entry_record e]> fs) b Hst Hnd) as (r & Hread & Heof).
    { intros e' He'. rewrite lookup_insert_ne; [apply Hfs; by right|].
      intros Heq. apply Hnotin. rewrite Heq. by apply list_elem_of_fmap_2. }
    exists r. split; [|done]. cbn [length]. rewrite read_all_S. unfold nextFile.
    simpl concat. rewrite <- app_assoc, Hr. cbn [mbind Outcome_bind].
    rewrite bool_decide_false by done. simpl files. rewrite insert_file_new by done.
    rewrite lookup_insert_eq. cbn [mbind Outcome_bind]. rewrite bool_decide_false by done.
    unfold find_record. simpl files. rewrite lookup_insert_eq. cbn [mbind Outcome_bind].
    rewrite Hread. done.
Qed.

(** * Properties *)

(** C40: an archive reads back as what was put into it. Writing files (of less than 4 GB),
    directories and symbolic links (to targets of less than 100 bytes) under distinct names
    that can be stored succeeds, and a reader of the bytes returns the same names in the
    same order, each with its type and contents, and then reports the end. *)
Theorem tar_roundtrip (P : Process) (es : list entry) :
  wf_process P → Forall storable_entry es → NoDup (entry_name <$> es) →
  ∃ bs r, archive P es = Returns bs ∧
    read_all (S (length es)) (new_reader bs) =
      Returns ((λ e, (entry_name e, entry_record e)) <$> es, r) ∧ eof r = true.
Proof.
  intros HP Hes Hnd. destruct (append_all_spec P es (mkTarWriter [] false) HP Hes eq_refl)
    as (bss & Hw & Hrs).
  unfold archive. rewrite Hw. simpl.
  destruct (read_all_spec es bss ∅ false Hes Hrs Hnd) as (r & Hread & Heof).
  { intros e _. apply lookup_empty. }
  eexists _, r. split; [reflexivity|]. done.
Qed.

(** The limits of the format are not all enforced. A file of 8 GB is refused, but the
    size field of one between 4 GB and 8 GB holds its size modulo 4 GB; a link target of
    more than 100 bytes is refused, but one of exactly 100 bytes reads back with the magic
    number of the header behind it. The checksum never overflows, and is always accepted. *)
Theorem tar_limits (P : Process) (name target : list Z) (w : TarWriter) (fileSize : Z) :
  wf_process P → storable name → plain target → ended w = false →
  (if 8589934591 <? fileSize
   then header_posix_ustar P name fileSize RegularFile = Throws "Specified file size >= 8 GB"
   else ∃ h, header_posix_ustar P name fileSize RegularFile = Returns h ∧
     checksumValid h = true ∧
     sscanf_o 64 (drop size_at h) = Some (Some (fileSize mod 2 ^ 32))) ∧
  (if decide (100 < length target)%nat
   then appendSymLink P name target w =
     Throws "Specified link target longer than 100 characters."
   else ∃ bs, appendSymLink P name target w = Returns (write bs w) ∧
     reads_as bs (ESymLink name
       (if decide (length target = 100)%nat then target ++ bytes_of "ustar" else target))).
Proof.
  intros HP Hn Ht Hw. split.
  - destruct (Z.ltb_spec 8589934591 fileSize) as [Hlt|Hge].
    + unfold header_posix_ustar. by rewrite Z.gtb_ltb, (proj2 (Z.ltb_lt _ _) Hlt).
    + destruct (header_spec P name fileSize RegularFile HP Hn Hge) as (h & Hh & Hho & _).
      exists h. split; [done|]. split; [apply Hho|]. pose proof (mod_u32 fileSize) as Hv.
      destruct (sscanf_field 64 size_at 11 (fileSize mod 2 ^ 32) 12 h); [apply Hho|done| |lia|done].
      change (2 ^ (64 - 1)) with 9223372036854775808. change (2 ^ 32) with 4294967296 in *. lia.
  - case_decide as Hl.
    + destruct (header_spec P name 0 SymLink HP Hn) as (h & Hh & _); [lia|].
      unfold appendSymLink. rewrite Hw, Hh. cbn [mbind Outcome_bind]. by rewrite decide_True.
    + apply appendSymLink_spec; try done. lia.
Qed.

(** ** Witnesses *)

Lemma demo_process_wf : wf_process demo_process.
Proof. by split. Qed.

Definition demo_entries : list entry :=
  [EDirectory (bytes_of "chart"); EFile (bytes_of "chart/values.yaml") (bytes_of "replicas: 2");
   ESymLink (bytes_of "chart/link") (bytes_of "values.yaml")].

Lemma demo_storable : Forall storable_entry demo_entries.
Proof.
  assert (Hs : ∀ s, bool_decide (plain s) && negb (bool_decide (s = [])) &&
    bool_decide (length s ≤ 100)%nat = true → storable s).
  { intros s. rewrite !andb_true_iff, negb_true_iff, !bool_decide_eq_true, bool_decide_eq_false.
    intros [[H1 H2] H3]. split; [done|]. split; [done|by left]. }
  repeat (apply Forall_cons_iff; split); [..|done]; (split; [apply Hs; vm_compute; reflexivity|]).
  - done.
  - vm_compute. reflexivity.
  - split; [by apply (bool_decide_eq_true_1 _); vm_compute|simpl; lia].
Qed.

Lemma tar_roundtrip_witness :
  ∃ bs r, archive demo_process demo_entries = Returns bs ∧
    read_all 4 (new_reader bs) =
      Returns ((λ e, (entry_name e, entry_record e)) <$> demo_entries, r) ∧ eof r = true.
Proof.
  apply (tar_roundtrip demo_process demo_entries demo_process_wf demo_storable).
  apply (bool_decide_eq_true_1 _). vm_compute. reflexivity.
Defined.

Definition demo_target : list Z := replicate 100 97.

Lemma demo_name_storable : storable (bytes_of "chart/link").
Proof. by apply (Forall_inv (Forall_inv_tail (Forall_inv_tail demo_storable))). Qed.

Lemma tar_limits_witness :
  (∃ h, header_posix_ustar demo_process (bytes_of "chart/link") 4294967301 RegularFile = Returns h ∧
     checksumValid h = true ∧
     sscanf_o 64 (drop size_at h) = Some (Some (4294967301 mod 2 ^ 32))) ∧
  ∃ bs, appendSymLink demo_process (bytes_of "chart/link") demo_target (mkTarWriter [] false) =
      Returns (write bs (mkTarWriter [] false)) ∧
    reads_as bs (ESymLink (bytes_of "chart/link") (demo_target ++ bytes_of "ustar")).
Proof.
  refine (tar_limits demo_process (bytes_of "chart/link") demo_target (mkTarWriter [] false)
    4294967301 demo_process_wf demo_name_storable _ eq_refl).
  apply (bool_decide_eq_true_1 _). vm_compute. reflexivity.
Defined.
