(* ===== verification/Entities.v ===== *)
(** The records of include/Entities.h with their comparison, printing and
    string conversions (src/Entities.cpp): users, groups, clusters and their S3
    monitoring credentials, application instances, secrets, persistent volume
    claims. Each struct is a Module named after it whose record is [t]. *)

From S2P Require Import Prelude.

(** * operator== and the containers that hash by it *)

(** [operator==] of a type stored in a [concurrent_multimap]. *)
Class CppEq (T : Type) : Type := cpp_eq : T → T → bool.

(** [std::unordered_set] needs an equivalence. *)
Class CppEqLaws (T : Type) `{CppEq T} : Prop := {
  cpp_eq_refl : ∀ x : T, cpp_eq x x = true;
  cpp_eq_sym : ∀ x y : T, cpp_eq x y = true → cpp_eq y x = true;
  cpp_eq_trans : ∀ x y z : T, cpp_eq x y = true → cpp_eq y z = true → cpp_eq x z = true;
}.

(** Comparison of a key computed from the record, the common case. *)
Definition eq_on {T K} `{EqDecision K} (key : T → K) (x y : T) : bool :=
  bool_decide (key x = key y).

Lemma eq_on_laws {T K} `{EqDecision K} (key : T → K) :
  @CppEqLaws T (eq_on key).
Proof.
  split; unfold cpp_eq, eq_on; intros *; rewrite ?bool_decide_eq_true; congruence.
Qed.

#[export] Instance string_eq : CppEq string := eq_on id.
#[export] Instance string_eq_laws : CppEqLaws string := eq_on_laws id.

(** [std::ostream& operator<<] of the entities that print as an ID followed by
    the name in parentheses. *)
Definition show_id_name (valid : bool) (what id name : string) : string :=
  if negb valid then "invalid " +:+ what
  else id +:+ (if str_empty name then "" else " (" +:+ name +:+ ")").

Module User.
Record t := mk {
  valid : bool; id : string; name : string; email : string; phone : string;
  institution : string; token : string; globusID : string; admin : bool }.

(** [User()] *)
Definition none : t := mk false "" "" "" "" "" "" "" false.

#[global] Instance eq_dec : EqDecision t.
Proof. solve_decision. Defined.
#[global] Instance eqb : CppEq t := eq_on (λ u, (valid u, id u)).
#[global] Instance eqb_laws : CppEqLaws t := eq_on_laws _.

Definition show (u : t) : string := show_id_name (valid u) "user" (id u) (name u).
End User.

Module Group.
Record t := mk {
  valid : bool; id : string; name : string; email : string; phone : string;
  scienceField : string; description : string }.

Definition none : t := mk false "" "" "" "" "" "".

#[global] Instance eq_dec : EqDecision t.
Proof. solve_decision. Defined.
#[global] Instance eqb : CppEq t := eq_on id.
#[global] Instance eqb_laws : CppEqLaws t := eq_on_laws _.

Definition show (g : t) : string := show_id_name (valid g) "Group" (id g) (name g).

Definition namespacePrefix : string := "slate-group-".
Definition namespaceName (g : t) : string := namespacePrefix +:+ name g.
End Group.

Module S3Credential.
Record t := mk {
  accessKey : string; secretKey : string; inUse : bool; revoked : bool }.

Definition none : t := mk "" "" false false.
(** [S3Credential(ak, sk)] *)
Definition make (ak sk : string) : t := mk ak sk false false.

(** [operator bool] *)
Definition to_bool (c : t) : bool :=
  negb (str_empty (accessKey c)) && negb (str_empty (secretKey c)).

Definition serialize (c : t) : string := accessKey c +:+ " " +:+ secretKey c.

(** The string must have a space with at least one other character both
    before and after it. *)
Definition deserialize (data : string) : t :=
  match find_first (char_is " "%char) data with
  | Some pos =>
      if (0 <? pos) && (pos <? str_size data - 1)
      then make (str_take pos data) (str_drop (pos + 1) data)
      else none
  | None => none
  end.

#[global] Instance eq_dec : EqDecision t.
Proof. solve_decision. Defined.
#[global] Instance eqb : CppEq t := eq_on (λ c, (accessKey c, secretKey c)).
#[global] Instance eqb_laws : CppEqLaws t := eq_on_laws _.

Definition show (c : t) : string :=
  if negb (to_bool c) then "invalid S3 credential" else accessKey c.
End S3Credential.

Module Cluster.
Record t := mk {
  valid : bool; id : string; name : string; config : string;
  systemNamespace : string; owningGroup : string; owningOrganization : string;
  monitoringCredential : S3Credential.t }.

Definition none : t := mk false "" "" "" "" "" "" S3Credential.none.

#[global] Instance eq_dec : EqDecision t.
Proof. solve_decision. Defined.
#[global] Instance eqb : CppEq t := eq_on id.
#[global] Instance eqb_laws : CppEqLaws t := eq_on_laws _.

Definition show (c : t) : string := show_id_name (valid c) "cluster" (id c) (name c).
End Cluster.

Module ApplicationInstance.
Record t := mk {
  valid : bool; id : string; name : string; application : string;
  owningGroup : string; cluster : string; config : string; ctime : string }.

Definition none : t := mk false "" "" "" "" "" "" "".

#[global] Instance eq_dec : EqDecision t.
Proof. solve_decision. Defined.
#[global] Instance eqb : CppEq t := eq_on id.
#[global] Instance eqb_laws : CppEqLaws t := eq_on_laws _.

Definition show (i : t) : string :=
  show_id_name (valid i) "application instance" (id i) (name i).
End ApplicationInstance.

Module Secret.
Record t := mk {
  valid : bool; id : string; name : string; group : string; cluster : string;
  ctime : string; data : string }.

Definition none : t := mk false "" "" "" "" "" "".

#[global] Instance eq_dec : EqDecision t.
Proof. solve_decision. Defined.
#[global] Instance eqb : CppEq t := eq_on id.
#[global] Instance eqb_laws : CppEqLaws t := eq_on_laws _.

Definition show (s : t) : string := show_id_name (valid s) "secret" (id s) (name s).
End Secret.

Module PersistentVolumeClaim.
Inductive AccessMode := ReadWriteOnce | ReadOnlyMany | ReadWriteMany.
Inductive VolumeMode := Filesystem | Block.

#[global] Instance AccessMode_eq_dec : EqDecision AccessMode.
Proof. solve_decision. Defined.
#[global] Instance VolumeMode_eq_dec : EqDecision VolumeMode.
Proof. solve_decision. Defined.

Record t := mk {
  valid : bool; id : string; name : string; group : string; cluster : string;
  storageRequest : string; accessMode : AccessMode; volumeMode : VolumeMode;
  storageClass : string; selectorMatchLabel : string; ctime : string;
  selectorLabelExpressions : list string }.

(** [PersistentVolumeClaim()]: C++ leaves the two enumerations of an invalid
    claim uninitialised; nothing reads them, the model fixes them. *)
Definition none : t :=
  mk false "" "" "" "" "" ReadWriteOnce Filesystem "" "" "" [].

#[global] Instance eq_dec : EqDecision t.
Proof. solve_decision. Defined.
#[global] Instance eqb : CppEq t := eq_on id.
#[global] Instance eqb_laws : CppEqLaws t := eq_on_laws _.

Definition show (v : t) : string := show_id_name (valid v) "volume claim" (id v) (name v).

Definition accessMode_to_string (m : AccessMode) : string :=
  match m with
  | ReadWriteOnce => "ReadWriteOnce"
  | ReadOnlyMany => "ReadOnlyMany"
  | ReadWriteMany => "ReadWriteMany"
  end.

Definition accessModeFromString (s : string) : Res AccessMode :=
  if bool_decide (s = "ReadWriteOnce") || bool_decide (s = "RWO") then Ok ReadWriteOnce
  else if bool_decide (s = "ReadOnlyMany") || bool_decide (s = "ROX") then Ok ReadOnlyMany
  else if bool_decide (s = "ReadWriteMany") || bool_decide (s = "RWX") then Ok ReadWriteMany
  else Throw ("Unrecognized volume access mode: " +:+ s).

Definition volumeMode_to_string (m : VolumeMode) : string :=
  match m with Filesystem => "Filesystem" | Block => "Block" end.

Definition volumeModeFromString (s : string) : Res VolumeMode :=
  if bool_decide (s = "Filesystem") then Ok Filesystem
  else if bool_decide (s = "Block") then Ok Block
  else Throw ("Unrecognized volume mode: " +:+ s).

Lemma accessMode_roundtrip m :
  accessModeFromString (accessMode_to_string m) = Ok m.
Proof. by destruct m. Qed.

Lemma volumeMode_roundtrip m :
  volumeModeFromString (volumeMode_to_string m) = Ok m.
Proof. by destruct m. Qed.
End PersistentVolumeClaim.

Module Application.
Record t := mk {
  valid : bool; name : string; version : string; chartVersion : string;
  description : string }.

Definition none : t := mk false "" "" "" "".

#[global] Instance eq_dec : EqDecision t.
Proof. solve_decision. Defined.
#[global] Instance eqb : CppEq t := eq_on (λ a, (name a, chartVersion a)).
#[global] Instance eqb_laws : CppEqLaws t := eq_on_laws _.

Definition show (a : t) : string :=
  if negb (valid a) then "invalid application" else name a.
End Application.

(** [double] and its stream operators, which the C++ library defines: printing,
    and reading the longest number at the beginning of a text. *)
Class Doubles := {
  double : Type;
  double_eq_dec :: EqDecision double;
  show_double : double → string;
  read_double : string → option (double * string);
}.

Module GeoLocation.
Record t `{Doubles} := mk { lat : double; lon : double; description : string }.

(** [boost::lexical_cast<std::string>]: the stream insertion operator. *)
Definition show `{Doubles} (gl : t) : string :=
  show_double (lat gl) +:+ "," +:+ show_double (lon gl) +:+
  (if str_empty (description gl) then "" else " - " +:+ description gl).

(** [getline] on what follows [" - "], when the whole text must be consumed:
    the line must not be empty, and only a newline may follow it. *)
Definition read_description (s : string) : option string :=
  match find_first (char_is "010"%char) s with
  | None => if str_empty s then None else Some s
  | Some pos => if bool_decide (S pos = str_size s) then Some (str_take pos s) else None
  end.

(** [boost::lexical_cast<GeoLocation>]: the stream extraction operator, which
    must leave nothing. *)
Definition read `{Doubles} (s : string) : option t :=
  match read_double s with
  | Some (lat, String c rest) =>
      if char_is c "," then
        match read_double rest with
        | Some (lon, EmptyString) => Some (mk _ lat lon "")
        | Some (lon, tail) =>
            if begins_with tail " - "
            then mk _ lat lon <$> read_description (str_drop 3 tail) else None
        | None => None
        end
      else None
  | _ => None
  end.
End GeoLocation.

(** ** Round trip of the stored form of a location *)

(** A number the stream operators print exactly ([exact]; six significant digits are
    kept) is read back, up to a character that cannot continue it. *)
Class DoublesLaws `{Doubles} := {
  exact : double → Prop;
  read_show_double : ∀ d s, exact d →
    s = "" ∨ begins_with s "," = true ∨ begins_with s " - " = true →
    read_double (show_double d +:+ s) = Some (d, s);
}.

Section geolocation.
Context `{DL : DoublesLaws}.

Definition newline_at (s : string) : option nat := find_first (char_is "010"%char) s.

Lemma geolocation_read_show (gl : GeoLocation.t) :
  exact (GeoLocation.lat gl) → exact (GeoLocation.lon gl) →
  GeoLocation.read (GeoLocation.show gl) =
  match newline_at (GeoLocation.description gl) with
  | None => Some gl
  | Some pos =>
      if bool_decide (S pos = str_size (GeoLocation.description gl))
      then Some (GeoLocation.mk _ (GeoLocation.lat gl) (GeoLocation.lon gl)
             (str_take pos (GeoLocation.description gl)))
      else None
  end.
Proof.
  destruct gl as [lat lon desc]. simpl. intros Hlat Hlon.
  unfold GeoLocation.read, GeoLocation.show. simpl.
  rewrite read_show_double; [simpl|done|right; left; apply begins_with_iff; by eexists].
  destruct desc as [|c desc]; simpl str_empty; cbv iota.
  - by rewrite read_show_double by auto.
  - rewrite read_show_double; [simpl|done|right; right; apply begins_with_iff; by eexists].
    unfold GeoLocation.read_description, newline_at.
    destruct (find_first _ (String c desc)) as [pos|]; simpl; [|done].
    by repeat case_bool_decide.
Qed.
End geolocation.

(** * The prefixes of [IDGenerator] *)

Definition userIDPrefix : string := "user_".
Definition clusterIDPrefix : string := "cluster_".
Definition groupIDPrefix : string := "group_".
Definition instanceIDPrefix : string := "instance_".
Definition secretIDPrefix : string := "secret_".
Definition volumeIDPrefix : string := "volume_".

(** * Round trip of the stored form of a monitoring credential *)

Lemma space_not_before (s : string) :
  str_all (λ c, negb (char_is " "%char c)) s = true →
  ∀ t, find_first (char_is " "%char) (s +:+ String " "%char t) = Some (str_size s).
Proof. intros Hs t. by apply find_first_app. Qed.

Lemma deserialize_serialize_make ak sk :
  ak ≠ "" → sk ≠ "" → str_all (λ c, negb (char_is " "%char c)) ak = true →
  S3Credential.deserialize (S3Credential.serialize (S3Credential.make ak sk))
  = S3Credential.make ak sk.
Proof.
  intros Hak Hsk Hall. unfold S3Credential.deserialize, S3Credential.serialize. simpl.
  rewrite space_not_before by done. rewrite str_size_app. simpl.
  assert (0 < str_size ak) by (destruct ak; simpl; [done|lia]).
  assert (0 < str_size sk) by (destruct sk; simpl; [done|lia]).
  rewrite (proj2 (Nat.ltb_lt _ _)) by lia. simpl.
  rewrite (proj2 (Nat.ltb_lt _ _)) by lia.
  rewrite str_take_app.
  replace (ak +:+ String " " sk) with ((ak +:+ " ") +:+ sk) by (by rewrite str_app_assoc).
  replace (str_size ak + 1) with (str_size (ak +:+ " ")) by (by rewrite str_size_app).
  by rewrite str_drop_app.
Qed.

(** Reading back the stored form of a monitoring credential. A string that reads as
    a valid credential is exactly what [serialize] writes for it, and the credential is
    neither in use nor revoked; a string that does not is not the stored form of any
    credential with a non-empty key without space and a non-empty secret. *)
Theorem s3credential_deserialize_correct (data : string) :
  let c := S3Credential.deserialize data in
  if S3Credential.to_bool c
  then S3Credential.serialize c = data ∧ S3Credential.inUse c = false
    ∧ S3Credential.revoked c = false
    ∧ str_all (λ ch, negb (char_is " "%char ch)) (S3Credential.accessKey c) = true
  else c = S3Credential.none
    ∧ ∀ ak sk, ak ≠ "" → sk ≠ "" →
        str_all (λ ch, negb (char_is " "%char ch)) ak = true →
        data ≠ S3Credential.serialize (S3Credential.make ak sk).
Proof.
  intros c. subst c.
  assert (Hinv : S3Credential.to_bool (S3Credential.deserialize data) = false →
    ∀ ak sk, ak ≠ "" → sk ≠ "" →
      str_all (λ ch, negb (char_is " "%char ch)) ak = true →
      data ≠ S3Credential.serialize (S3Credential.make ak sk)).
  { intros Hb ak sk Hak Hsk Hall ->.
    rewrite deserialize_serialize_make in Hb by done.
    unfold S3Credential.to_bool in Hb. simpl in Hb. by destruct ak, sk. }
  revert Hinv. unfold S3Credential.deserialize.
  destruct (find_first _ data) as [pos|] eqn:Hf; [|simpl; auto].
  destruct (find_first_some _ _ _ Hf) as (ch & Heq & Hch & Hall & Hlt).
  unfold char_is in Hch. rewrite bool_decide_eq_true in Hch. subst ch.
  destruct (Nat.ltb_spec 0 pos) as [H0|H0]; simpl; [|auto].
  destruct (Nat.ltb_spec pos (str_size data - 1)) as [H1|H1]; [|simpl; auto].
  intros _. unfold S3Credential.to_bool. simpl.
  pose proof (str_take_size pos data ltac:(lia)) as Ht.
  pose proof (str_drop_size (pos + 1) data) as Hd.
  rewrite !str_empty_false by lia. simpl. split_and!; [|done|done|done].
  unfold S3Credential.serialize. simpl. rewrite Heq at 3.
  by replace (pos + 1) with (S pos) by lia.
Qed.

(** The stored form of a location reads back as the location, provided its numbers
    are printed exactly; a description with a newline loses a final newline, and is
    refused when something follows the newline. *)
Theorem geolocation_roundtrip `{DoublesLaws} (gl : GeoLocation.t) :
  exact (GeoLocation.lat gl) → exact (GeoLocation.lon gl) →
  GeoLocation.read (GeoLocation.show gl) =
  match newline_at (GeoLocation.description gl) with
  | None => Some gl
  | Some pos =>
      if bool_decide (S pos = str_size (GeoLocation.description gl))
      then Some (GeoLocation.mk _ (GeoLocation.lat gl) (GeoLocation.lon gl)
             (str_take pos (GeoLocation.description gl)))
      else None
  end.
Proof. apply geolocation_read_show. Qed.
