(* ===== verification/Cache.v ===== *)
(** The in-memory caches of the server: expiring records (the [CacheRecord]
    template of include/PersistentStore.h) and the multimap from keys to sets of
    values of include/concurrent_multimap.h.

    Times are nanoseconds of [std::chrono::steady_clock]. The underlying
    [cuckoohash_map] is a finite map; every operation of the multimap works on
    one key, so it is atomic, as it is under the bucket lock of the code. The
    values of one key are the elements of a [std::unordered_set]: a list with no
    two elements equal by [operator==], whose order is not meaningful. *)

From S2P Require Import Prelude Entities.

(** * CacheRecord *)

Module CacheRecord.
Record t (T : Type) := mk { record : T; expirationTime : Z }.
Arguments mk {T} _ _.
Arguments record {T} _.
Arguments expirationTime {T} _.

(** [steady_clock::time_point::min()] *)
Definition time_min : Z := - 2 ^ 63.

(** [CacheRecord(record)]: considered expired but contains data. *)
Definition stale {T} (x : T) : t T := mk x time_min.

(** [CacheRecord(record, validity)], [now] being the clock then. *)
Definition make {T} (x : T) (validity now : Z) : t T := mk x (now + validity).

Definition expired {T} (now : Z) (r : t T) : bool := (expirationTime r <? now)%Z.
(** [operator bool] *)
Definition to_bool {T} (now : Z) (r : t T) : bool := (now <=? expirationTime r)%Z.

#[global] Instance eq_dec {T} `{EqDecision T} : EqDecision (t T).
Proof. solve_decision. Defined.

(** Two cache records are equal if their data is, whatever the expiration. *)
#[global] Instance eqb {T} `{CppEq T} : CppEq (t T) :=
  λ r1 r2, cpp_eq (record r1) (record r2).
#[global] Instance eqb_laws {T} `{CppEqLaws T} : CppEqLaws (t T).
Proof.
  split; unfold cpp_eq, eqb; intros *;
    eauto using cpp_eq_refl, cpp_eq_sym, cpp_eq_trans.
Qed.

Lemma to_bool_not_expired {T} now (r : t T) : to_bool now r = negb (expired now r).
Proof. unfold to_bool, expired. by rewrite Z.leb_antisym. Qed.
End CacheRecord.

(** * The set of values of one key *)

Section unordered_set.
Context {V : Type} `{CppEq V}.
Implicit Types (s : list V).

(** [s.count(v) != 0] *)
Definition set_has (v : V) (s : list V) : bool := existsb (cpp_eq v) s.
(** [*s.find(v)] *)
Fixpoint set_find (v : V) (s : list V) : option V :=
  match s with
  | [] => None
  | x :: s => if cpp_eq v x then Some x else set_find v s
  end.
(** [s.erase(v)] *)
Definition set_erase (v : V) (s : list V) : list V :=
  filter (λ x, cpp_eq v x = false) s.
(** [s.emplace(v)]: no effect when an equal element is present. *)
Definition set_emplace (v : V) (s : list V) : list V :=
  if set_has v s then s else s ++ [v].

(** No two elements are equal. *)
Fixpoint set_wf (s : list V) : Prop :=
  match s with
  | [] => True
  | x :: s => set_has x s = false ∧ set_wf s
  end.

Context {laws : CppEqLaws V}.

Lemma cpp_eq_comm (x y : V) : cpp_eq x y = cpp_eq y x.
Proof. apply Bool.eq_iff_eq_true; split; apply cpp_eq_sym. Qed.

Lemma cpp_eq_cong (x y z : V) : cpp_eq x y = true → cpp_eq x z = cpp_eq y z.
Proof.
  intros Hxy. apply Bool.eq_iff_eq_true. split; intros ?.
  - eapply cpp_eq_trans; [|done]. by apply cpp_eq_sym.
  - by eapply cpp_eq_trans.
Qed.

Lemma set_has_true v s :
  set_has v s = true ↔ ∃ x, x ∈ s ∧ cpp_eq v x = true.
Proof.
  unfold set_has. rewrite existsb_exists.
  by setoid_rewrite <- list_elem_of_In.
Qed.

Lemma set_has_false v s :
  set_has v s = false ↔ ∀ x, x ∈ s → cpp_eq v x = false.
Proof.
  rewrite <- Bool.not_true_iff_false, set_has_true.
  split.
  - intros Hn x Hx. destruct (cpp_eq v x) eqn:E; [exfalso; eauto|done].
  - intros Hn (x & Hx & E). rewrite Hn in E; done.
Qed.

Lemma set_find_some v s x : set_find v s = Some x → x ∈ s ∧ cpp_eq v x = true.
Proof.
  induction s as [|y s IH]; simpl; [done|].
  destruct (cpp_eq v y) eqn:E; [intros; simplify_eq; by split; [left|]|].
  intros [??]%IH. by split; [right|].
Qed.

Lemma set_find_none v s : set_find v s = None ↔ set_has v s = false.
Proof.
  induction s as [|y s IH]; simpl; [done|].
  by destruct (cpp_eq v y); simpl.
Qed.

Lemma elem_of_set_erase v s x : x ∈ set_erase v s ↔ cpp_eq v x = false ∧ x ∈ s.
Proof. unfold set_erase. by rewrite list_elem_of_filter. Qed.

Lemma set_has_erase v w s :
  set_has w (set_erase v s) = negb (cpp_eq v w) && set_has w s.
Proof.
  apply Bool.eq_iff_eq_true. rewrite andb_true_iff, negb_true_iff, !set_has_true.
  setoid_rewrite elem_of_set_erase. split.
  - intros (x & [Hv Hx] & Hw). split; [|by eauto].
    destruct (cpp_eq v w) eqn:E; [|done].
    rewrite <- Hv. symmetry. by eapply cpp_eq_trans.
  - intros (Hvw & x & Hx & Hw). exists x. split_and!; [|done|done].
    destruct (cpp_eq v x) eqn:E; [|done]. rewrite <- Hvw.
    symmetry. eapply cpp_eq_trans; [done|]. by apply cpp_eq_sym.
Qed.

Lemma set_erase_wf v s : set_wf s → set_wf (set_erase v s).
Proof.
  induction s as [|x s IH]; simpl; [done|]. intros [Hx Hs].
  unfold set_erase. rewrite filter_cons. case_decide; simpl; [|by apply IH].
  split; [|by apply IH]. fold (set_erase v s).
  by rewrite set_has_erase, Hx, andb_false_r.
Qed.

Lemma set_has_app v s1 s2 : set_has v (s1 ++ s2) = set_has v s1 || set_has v s2.
Proof. apply existsb_app. Qed.

Lemma set_emplace_wf v s : set_wf s → set_wf (set_emplace v s).
Proof.
  unfold set_emplace. destruct (set_has v s) eqn:Hv; [done|].
  revert Hv. induction s as [|x s IH]; simpl; [done|].
  intros [Hvx Hv]%orb_false_iff [Hx Hs]. split; [|by apply IH].
  rewrite set_has_app, Hx. simpl. rewrite cpp_eq_comm, Hvx. done.
Qed.
End unordered_set.

(** * concurrent_multimap *)

(** The values a key maps to with the expiration time of the collection. *)
Abbreviation category V := (list V * Z)%type.

Section multimap.
Context {K V : Type} `{Countable K} `{CppEq V}.
Implicit Types (m : gmap K (category V)) (k : K) (v : V) (now : Z).

(** [erase(k)]: the number of values removed and the new table. *)
Definition mm_erase_key k m : nat * gmap K (category V) :=
  match m !! k with
  | Some (s, _) => (length s, delete k m)
  | None => (0, m)
  end.

(** [erase(k, v)]: the whole category goes only if it becomes empty. *)
Definition mm_erase k v m : nat * gmap K (category V) :=
  match m !! k with
  | Some (s, t) =>
      let s' := set_erase v s in
      (length s - length s',
       if bool_decide (s' = []) then delete k m else <[k:=(s', t)]> m)
  | None => (0, m)
  end.

(** [find(k)]: a value-initialised category when the key is absent. *)
Definition mm_find k m : category V := default ([], 0%Z) (m !! k).

(** [find(k, val)]: the stored value equal to [val], copied into it. *)
Definition mm_find_val k v m : option V :=
  match m !! k with Some (s, _) => set_find v s | None => None end.

(** [insert_or_assign(k, v)]; a new category expires [now]. *)
Definition mm_insert_or_assign now k v m : bool * gmap K (category V) :=
  match m !! k with
  | Some (s, t) =>
      let had := set_has v s in
      let s' := if had then set_erase v s else s in
      (negb had, <[k:=(set_emplace v s', t)]> m)
  | None => (true, <[k:=([v], now)]> m)
  end.

(** [insert(k, v)]: keeps a value that is already present. *)
Definition mm_insert now k v m : bool * gmap K (category V) :=
  match m !! k with
  | Some (s, t) => (negb (set_has v s), <[k:=(set_emplace v s, t)]> m)
  | None => (true, <[k:=([v], now)]> m)
  end.

(** [update(k, v)]: replaces an equal value, otherwise does nothing. *)
Definition mm_update k v m : bool * gmap K (category V) :=
  match m !! k with
  | Some (s, t) =>
      if set_has v s
      then (true, <[k:=(set_emplace v (set_erase v s), t)]> m)
      else (false, m)
  | None => (false, m)
  end.

(** [update_expiration(k, time)] *)
Definition mm_update_expiration k (time : Z) m : bool * gmap K (category V) :=
  match m !! k with
  | Some (s, _) => (true, <[k:=(s, time)]> m)
  | None => (false, m)
  end.

(** [contains(k)], [contains(k, v)], [count(k)], [count(k, v)] *)
Definition mm_contains_key k m : bool := bool_decide (is_Some (m !! k)).
Definition mm_contains k v m : bool :=
  match m !! k with Some (s, _) => set_has v s | None => false end.
Definition mm_count_key k m : nat :=
  match m !! k with Some (s, _) => length s | None => 0 end.
Definition mm_count k v m : nat := if mm_contains k v m then 1 else 0.

(** Every category is a non-empty set. *)
Definition mm_wf m : Prop :=
  ∀ k s t, m !! k = Some (s, t) → set_wf s ∧ s ≠ [].

Context {laws : CppEqLaws V}.

Lemma elem_of_set_emplace v (s : list V) x : x ∈ set_emplace v s → x = v ∨ x ∈ s.
Proof.
  unfold set_emplace. destruct (set_has v s); [by right|].
  rewrite elem_of_app, list_elem_of_singleton. tauto.
Qed.

Lemma set_emplace_nonempty v (s : list V) : set_emplace v s ≠ [].
Proof.
  unfold set_emplace. destruct (set_has v s) eqn:Hv.
  - by intros ->.
  - by destruct s.
Qed.

Lemma set_has_emplace v w (s : list V) :
  set_has w (set_emplace v s) = cpp_eq v w || set_has w s.
Proof.
  unfold set_emplace. destruct (set_has v s) eqn:Hv.
  - destruct (cpp_eq v w) eqn:Hvw; simpl; [|done].
    apply set_has_true in Hv as (x & Hx & Hvx). apply set_has_true.
    exists x. split; [done|]. rewrite <- (cpp_eq_cong _ _ _ Hvw). done.
  - rewrite set_has_app. simpl. rewrite orb_false_r, orb_comm.
    by rewrite (cpp_eq_comm w v).
Qed.

Lemma set_find_emplace v (s : list V) :
  set_has v s = false → set_find v (set_emplace v s) = Some v.
Proof.
  unfold set_emplace. intros Hn. rewrite Hn.
  revert Hn. induction s as [|x s IH]; simpl; [by rewrite cpp_eq_refl|].
  intros [-> ?]%orb_false_iff. auto.
Qed.

Lemma set_has_erase_same v (s : list V) : set_has v (set_erase v s) = false.
Proof. by rewrite set_has_erase, cpp_eq_refl. Qed.

Lemma mm_wf_empty : mm_wf ∅.
Proof. intros k s t. by rewrite lookup_empty. Qed.

Lemma mm_wf_insert m k s t :
  mm_wf m → set_wf s → s ≠ [] → mm_wf (<[k:=(s, t)]> m).
Proof.
  intros Hm Hs Hne k' s' t'. rewrite lookup_insert. case_decide; [|by apply Hm].
  by intros [= <- <-].
Qed.

Lemma mm_wf_delete m k : mm_wf m → mm_wf (delete k m).
Proof.
  intros Hm k' s' t'. rewrite lookup_delete. case_decide; [done|by apply Hm].
Qed.

Lemma set_has_singleton v w : set_has w [v] = cpp_eq v w.
Proof. simpl. by rewrite orb_false_r, cpp_eq_comm. Qed.
End multimap.

Section multimap_theorems.
Context {K V : Type} `{Countable K} `{CppEqLaws V}.
Implicit Types (m : gmap K (category V)) (k : K) (v : V) (now : Z).

(** C35: every mutating operation of the multimap keeps each category a
    non-empty collection without two equal elements, the invariant under which
    [contains(k)] means that the key maps to at least one value. *)
Theorem multimap_wf_preserved m :
  mm_wf m →
  (∀ k, mm_wf (mm_erase_key k m).2) ∧
  (∀ k v, mm_wf (mm_erase k v m).2) ∧
  (∀ now k v, mm_wf (mm_insert_or_assign now k v m).2) ∧
  (∀ now k v, mm_wf (mm_insert now k v m).2) ∧
  (∀ k v, mm_wf (mm_update k v m).2) ∧
  (∀ k t, mm_wf (mm_update_expiration k t m).2) ∧
  (∀ k, mm_contains_key k m = (0 <? mm_count_key k m)).
Proof.
  intros Hm.
  assert (Hs : ∀ v, set_wf [v]) by done.
  split_and!; intros;
    unfold mm_erase_key, mm_erase, mm_insert_or_assign, mm_insert, mm_update,
      mm_update_expiration, mm_contains_key, mm_count_key;
    destruct (m !! _) as [[s t']|] eqn:Hk; simpl;
    try destruct (Hm _ _ _ Hk) as [Hwf Hne];
    repeat first
      [ done
      | apply mm_wf_delete
      | apply mm_wf_insert
      | apply set_emplace_wf
      | apply set_erase_wf
      | apply set_emplace_nonempty
      | case_match
      | case_bool_decide ].
  destruct s; done.
Qed.

(** The abstract value of the multimap: a set of pairs, the values taken up to
    [==]. *)
Definition same_pair k v k' v' : bool := bool_decide (k = k') && cpp_eq v v'.

Lemma mm_contains_insert_or_assign m k v now k' v' :
  mm_contains k' v' (mm_insert_or_assign now k v m).2
  = same_pair k v k' v' || mm_contains k' v' m.
Proof.
  unfold mm_contains, mm_insert_or_assign, same_pair.
  destruct (m !! k) as [[s t]|] eqn:Hk; simpl; rewrite lookup_insert;
    case_decide as Hkk; case_bool_decide; try done; subst k'; rewrite Hk; simpl.
  - destruct (set_has v s) eqn:Hv; rewrite set_has_emplace; [|done].
    rewrite set_has_erase. by destruct (cpp_eq v v').
  - by rewrite !orb_false_r, cpp_eq_comm.
Qed.

Lemma mm_contains_insert m k v now k' v' :
  mm_contains k' v' (mm_insert now k v m).2 = same_pair k v k' v' || mm_contains k' v' m.
Proof.
  unfold mm_contains, mm_insert, same_pair.
  destruct (m !! k) as [[s t]|] eqn:Hk; simpl; rewrite lookup_insert;
    case_decide as Hkk; case_bool_decide; try done; subst k'; rewrite Hk; simpl.
  - by rewrite set_has_emplace.
  - by rewrite !orb_false_r, cpp_eq_comm.
Qed.

Lemma mm_contains_erase m k v k' v' :
  mm_contains k' v' (mm_erase k v m).2 = negb (same_pair k v k' v') && mm_contains k' v' m.
Proof.
  unfold mm_contains, mm_erase, same_pair.
  destruct (m !! k) as [[s t]|] eqn:Hk; simpl.
  - case_bool_decide as He; simpl.
    + rewrite lookup_delete. case_decide as Hkk; case_bool_decide; try done.
      subst k'. rewrite Hk. simpl. by rewrite <- set_has_erase, He.
    + rewrite lookup_insert. case_decide as Hkk; case_bool_decide; try done.
      subst k'. rewrite Hk. simpl. by rewrite set_has_erase.
  - case_bool_decide; simpl; [|done]. subst. rewrite Hk. by rewrite andb_false_r.
Qed.

Lemma mm_find_val_contains m k v x : mm_find_val k v m = Some x → mm_contains k v m = true.
Proof.
  unfold mm_find_val, mm_contains. destruct (m !! k) as [[s t]|]; [|done].
  intros Hx%set_find_some. apply set_has_true. eauto.
Qed.

Lemma mm_contains_update_expiration m k time k' v' :
  mm_contains k' v' (mm_update_expiration k time m).2 = mm_contains k' v' m.
Proof.
  unfold mm_contains, mm_update_expiration.
  destruct (m !! k) as [[s t]|] eqn:Hk; simpl; [|done].
  rewrite lookup_insert. case_decide; [|done]. subst. by rewrite Hk.
Qed.

(** C34: the multimap implements a set of key/value pairs: insertions add
    exactly the pair and report whether it is new, [insert_or_assign] replaces
    the stored value while [insert] keeps it, [erase] removes exactly the pair,
    and extending the expiration time changes no pair. *)
Theorem multimap_refines_pairs m k v now :
  (∀ k' v', mm_contains k' v' (mm_insert_or_assign now k v m).2
            = same_pair k v k' v' || mm_contains k' v' m) ∧
  (∀ k' v', mm_contains k' v' (mm_insert now k v m).2
            = same_pair k v k' v' || mm_contains k' v' m) ∧
  (∀ k' v', mm_contains k' v' (mm_erase k v m).2
            = negb (same_pair k v k' v') && mm_contains k' v' m) ∧
  (∀ k' v', mm_contains k' v' (mm_update_expiration k now m).2 = mm_contains k' v' m) ∧
  (mm_insert_or_assign now k v m).1 = negb (mm_contains k v m) ∧
  (mm_insert now k v m).1 = negb (mm_contains k v m) ∧
  mm_find_val k v (mm_insert_or_assign now k v m).2 = Some v ∧
  (∀ x, mm_find_val k v m = Some x → mm_find_val k v (mm_insert now k v m).2 = Some x).
Proof.
  split; [apply mm_contains_insert_or_assign|]. split; [apply mm_contains_insert|].
  split; [apply mm_contains_erase|]. split; [apply mm_contains_update_expiration|].
  unfold mm_contains, mm_insert_or_assign, mm_insert, mm_find_val.
  destruct (m !! k) as [[s t]|] eqn:Hk; simpl.
  2: { rewrite lookup_insert_eq. simpl. by rewrite cpp_eq_refl. }
  split_and!; try done.
  - rewrite lookup_insert_eq. apply set_find_emplace.
    destruct (set_has v s) eqn:Hv; [apply set_has_erase_same|done].
  - intros x Hx. rewrite lookup_insert_eq. unfold set_emplace.
    destruct (set_has v s) eqn:Hv; [done|]. apply set_find_none in Hv. congruence.
Qed.
End multimap_theorems.

Section multimap_witness.
(** Two values under a key, then one of them removed. *)
Definition demo_multimap : gmap string (category string) :=
  (mm_insert 0 "group_1" "user_2" (mm_insert 0 "group_1" "user_1" ∅).2).2.

Lemma multimap_wf_witness :
  mm_wf (mm_erase "group_1" "user_2" demo_multimap).2 ∧
  mm_find "group_1" (mm_erase "group_1" "user_2" demo_multimap).2 = (["user_1"], 0%Z).
Proof.
  split; [|vm_compute; reflexivity].
  assert (H0 : mm_wf (∅ : gmap string (category string))) by apply mm_wf_empty.
  destruct (multimap_wf_preserved ∅ H0) as (_ & _ & _ & H1 & _).
  destruct (multimap_wf_preserved _ (H1 0%Z "group_1" "user_1")) as (_ & _ & _ & H2 & _).
  destruct (multimap_wf_preserved _ (H2 0%Z "group_1" "user_2")) as (_ & H3 & _).
  exact (H3 "group_1" "user_2").
Defined.

Lemma multimap_refines_witness :
  mm_contains "group_1" "user_1" (mm_erase "group_1" "user_2" demo_multimap).2 = true ∧
  mm_contains "group_1" "user_2" (mm_erase "group_1" "user_2" demo_multimap).2 = false.
Proof.
  destruct (multimap_refines_pairs demo_multimap "group_1" "user_2" 0%Z) as (_ & _ & He & _).
  rewrite !He. split; vm_compute; reflexivity.
Defined.
End multimap_witness.

(** * Coherence

    A cache is coherent with the data of the database when every record it
    holds, expired or not, is one of them and is filed under its key. *)

Section coherence.
Context {T : Type} (P : T → Prop) (key : T → string).
Implicit Types (m : gmap string (CacheRecord.t T)) (r : CacheRecord.t T).

Definition coherent m : Prop :=
  ∀ k r, m !! k = Some r → key (CacheRecord.record r) = k ∧ P (CacheRecord.record r).

Lemma coherent_empty : coherent ∅.
Proof. intros k r. by rewrite lookup_empty. Qed.

Lemma coherent_insert m k r :
  coherent m → key (CacheRecord.record r) = k → P (CacheRecord.record r) →
  coherent (<[k:=r]> m).
Proof.
  intros Hm Hk Hr k' r'. rewrite lookup_insert. case_decide; [|apply Hm].
  intros [= <-]. by subst.
Qed.

Lemma coherent_delete m k : coherent m → coherent (delete k m).
Proof. intros Hm k' r'. rewrite lookup_delete. case_decide; [done|apply Hm]. Qed.

(** Every record of the first cache has one in the cache by ID. *)
Definition synchronised (id : T → string) m (main : gmap string (CacheRecord.t T)) : Prop :=
  ∀ k r, m !! k = Some r → is_Some (main !! id (CacheRecord.record r)).

Lemma synchronised_insert id m main k r :
  synchronised id m main →
  synchronised id (<[k:=r]> m) (<[id (CacheRecord.record r):=r]> main).
Proof.
  intros Hs k' r'. rewrite lookup_insert. case_decide.
  - intros [= <-]. rewrite lookup_insert_eq. eauto.
  - intros Hr%Hs. rewrite lookup_insert. case_decide; eauto.
Qed.

Lemma synchronised_main id m main k r :
  synchronised id m main → synchronised id m (<[k:=r]> main).
Proof. intros Hs k' r' Hr%Hs. rewrite lookup_insert. case_decide; eauto. Qed.

Lemma synchronised_delete id m main k :
  synchronised id m main → synchronised id (delete k m) main.
Proof. intros Hs k' r'. rewrite lookup_delete. case_decide; [done|apply Hs]. Qed.
End coherence.

Lemma coherent_mono {T} (P P' : T → Prop) key m :
  (∀ k r, m !! k = Some r → P (CacheRecord.record r) → P' (CacheRecord.record r)) →
  coherent P key m → coherent P' key m.
Proof. intros HP Hm k r Hr. destruct (Hm _ _ Hr). eauto. Qed.

(** Replacing the record of a key, the data having changed: the records of the
    other keys must still be data. *)
Lemma coherent_replace {T} (P P' : T → Prop) key m k (r : CacheRecord.t T) :
  coherent P key m → key (CacheRecord.record r) = k → P' (CacheRecord.record r) →
  (∀ k' r', m !! k' = Some r' → k' ≠ k → P (CacheRecord.record r') →
    P' (CacheRecord.record r')) →
  coherent P' key (<[k:=r]> m).
Proof.
  intros Hm Hk Hr Hold k' r'. rewrite lookup_insert. case_decide; [intros [= <-]; by subst|].
  intros Hr'. destruct (Hm _ _ Hr') as [? ?]. eauto.
Qed.
