(* ===== verification/Dynamo.v ===== *)
(** The database of the server: the tables and secondary indexes the server
    creates (the [Initialize...Table] functions of src/PersistentStore.cpp), the
    interface of the DynamoDB client they are accessed through, the documented
    behaviour the server relies on, and an in-memory database with request
    faults and paged scans that has this behaviour.

    DynamoDB is a service outside the repository: the development is generic in
    any implementation of the class [Dynamo]. *)

From S2P Require Import Prelude.

(** * Tables and indexes *)

Inductive Table :=
  | SLATE_users | SLATE_groups | SLATE_clusters | SLATE_instances
  | SLATE_secrets | SLATE_moncreds | SLATE_volumes.

#[global] Instance Table_eq_dec : EqDecision Table.
Proof. solve_decision. Defined.

(** The partition key of each table; the range key is ["sortKey"]. *)
Definition hash_key (t : Table) : string :=
  match t with SLATE_moncreds => "accessKey" | _ => "ID" end.

(** A global secondary index: its key attribute and the non-key attributes it
    projects. *)
Record Index := mkIndex { ix_key : string; ix_nonkey : list string }.

Definition user_ByToken : Index := mkIndex "token"
  ["ID"; "name"; "globusID"; "email"; "phone"; "institution"; "admin"].
Definition user_ByGlobusID : Index := mkIndex "globusID"
  ["ID"; "name"; "token"; "email"; "phone"; "institution"; "admin"].
Definition user_ByGroup : Index := mkIndex "groupID"
  ["ID"].
Definition user_indexes : list (string * Index) :=
  [("ByToken", user_ByToken); ("ByGlobusID", user_ByGlobusID); ("ByGroup", user_ByGroup)].

Definition group_ByName : Index := mkIndex "name"
  ["ID"; "email"; "phone"; "scienceField"; "description"].
Definition group_indexes : list (string * Index) :=
  [("ByName", group_ByName)].

Definition cluster_ByGroup : Index := mkIndex "owningGroup"
  ["ID"; "name"; "config"; "systemNamespace"; "owningOrganization"; "monCredential"].
Definition cluster_ByName : Index := mkIndex "name"
  ["ID"; "owningGroup"; "config"; "systemNamespace"; "owningOrganization"; "monCredential"].
Definition cluster_GroupAccess : Index := mkIndex "groupID"
  ["ID"].
Definition cluster_indexes : list (string * Index) :=
  [("ByGroup", cluster_ByGroup); ("ByName", cluster_ByName); ("GroupAccess", cluster_GroupAccess)].

Definition instance_ByGroup : Index := mkIndex "owningGroup"
  ["ID"; "name"; "application"; "cluster"; "ctime"].
Definition instance_ByName : Index := mkIndex "name"
  ["ID"; "application"; "owningGroup"; "cluster"; "ctime"].
Definition instance_ByCluster : Index := mkIndex "cluster"
  ["ID"; "name"; "application"; "owningGroup"; "ctime"].
Definition instance_indexes : list (string * Index) :=
  [("ByGroup", instance_ByGroup); ("ByName", instance_ByName); ("ByCluster", instance_ByCluster)].

Definition secret_ByGroup : Index := mkIndex "owningGroup"
  ["ID"; "name"; "cluster"; "ctime"; "contents"].
Definition secret_ByCluster : Index := mkIndex "cluster"
  ["ID"; "name"; "owningGroup"; "ctime"; "contents"].
Definition secret_indexes : list (string * Index) :=
  [("ByGroup", secret_ByGroup); ("ByCluster", secret_ByCluster)].

Definition volume_ByGroup : Index := mkIndex "owningGroup"
  ["ID"; "cluster"; "owningGroup"; "name"; "storageClass"; "storageRequest"; "volumeMode"; "accessMode"; "ctime"].
Definition volume_ByCluster : Index := mkIndex "cluster"
  ["ID"; "cluster"; "owningGroup"; "name"; "storageClass"; "storageRequest"; "volumeMode"; "accessMode"; "ctime"].
Definition volume_indexes : list (string * Index) :=
  [("ByGroup", volume_ByGroup); ("ByCluster", volume_ByCluster)].

Definition indexes (t : Table) : list (string * Index) :=
  match t with
  | SLATE_users => user_indexes
  | SLATE_groups => group_indexes
  | SLATE_clusters => cluster_indexes
  | SLATE_instances => instance_indexes
  | SLATE_secrets => secret_indexes
  | SLATE_moncreds => []
  | SLATE_volumes => volume_indexes
  end.

Fixpoint assoc {A} (k : string) (l : list (string * A)) : option A :=
  match l with
  | [] => None
  | (k', a) :: l => if bool_decide (k = k') then Some a else assoc k l
  end.

(** All the attributes an entry of the index carries. *)
Definition index_attributes (t : Table) (ix : Index) : list string :=
  hash_key t :: "sortKey" :: ix_key ix :: ix_nonkey ix.

(** * Attribute values *)

(** [Aws::DynamoDB::Model::AttributeValue] with the constructors and accessors
    used by the server: strings, booleans, string sets (built with [AddSItem]),
    binary blobs. *)
Class Attributes := {
  AV : Type;
  #[global] AV_eq_dec :: EqDecision AV;
  AVS : string → AV;
  AVBool : bool → AV;
  AVSS : list string → AV;
  AVB : string → AV;
  GetS : AV → string;
  GetBool : AV → bool;
  GetSS : AV → list string;
  GetB : AV → string;
  GetS_AVS : ∀ s, GetS (AVS s) = s;
  GetBool_AVBool : ∀ b, GetBool (AVBool b) = b;
  GetSS_AVSS : ∀ l, NoDup l → GetSS (AVSS l) ≡ₚ l;
  GetB_AVB : ∀ s, GetB (AVB s) = s;
}.

Abbreviation Item := (gmap string AV).

Section items.
Context `{Attributes}.

Lemma AVS_inj s s' : AVS s = AVS s' → s = s'.
Proof. intros Heq. by rewrite <- (GetS_AVS s), Heq, GetS_AVS. Qed.

(** The primary key of an item: partition key and sort key. *)
Definition item_key (t : Table) (it : Item) : option (string * string) :=
  match it !! hash_key t, it !! "sortKey" with
  | Some h, Some s => Some (GetS h, GetS s)
  | _, _ => None
  end.

Lemma item_key_eq t (it : Item) h s :
  it !! hash_key t = Some (AVS h) → it !! "sortKey" = Some (AVS s) →
  item_key t it = Some (h, s).
Proof. unfold item_key. intros -> ->. by rewrite !GetS_AVS. Qed.

(** The primary-key attributes of an item with the given key. *)
Definition key_item (t : Table) (k : string * string) : Item :=
  {[hash_key t := AVS k.1; "sortKey" := AVS k.2]}.

(** The entry an item has in an index, if any: items without the key attribute
    of the index do not appear in it, the others with the projected
    attributes only. *)
Definition index_entry (t : Table) (index : option string) (it : Item) : option Item :=
  match index with
  | None => Some it
  | Some name =>
      match assoc name (indexes t) with
      | None => None
      | Some ix =>
          match it !! ix_key ix with
          | None => None
          | Some _ => Some (filter (λ p, p.1 ∈ index_attributes t ix) it)
          end
      end
  end.

(** Condition and filter expressions. *)
Inductive Expr :=
  | ETrue
  | EExists (attr : string)
  | ENotExists (attr : string)
  | EEq (attr : string) (v : AV)
  | EContains (attr : string) (sub : string)
  | EAnd (e1 e2 : Expr)
  | EOr (e1 e2 : Expr).

Definition str_contains (sub s : string) : bool :=
  match String.index 0 sub s with Some _ => true | None => false end.

Lemma str_contains_refl s : str_contains s s = true.
Proof.
  unfold str_contains. destruct s as [|c s]; [done|]. simpl.
  destruct (ascii_dec c c) as [_|?]; [|done].
  assert (Hp : begins_with s s = true).
  { apply begins_with_iff. exists EmptyString. by rewrite str_app_nil_r. }
  unfold begins_with in Hp. by rewrite Hp.
Qed.

Fixpoint eval (e : Expr) (it : Item) : bool :=
  match e with
  | ETrue => true
  | EExists a => bool_decide (is_Some (it !! a))
  | ENotExists a => bool_decide (it !! a = None)
  | EEq a v => bool_decide (it !! a = Some v)
  | EContains a sub =>
      match it !! a with Some v => str_contains sub (GetS v) | None => false end
  | EAnd e1 e2 => eval e1 it && eval e2 it
  | EOr e1 e2 => eval e1 it || eval e2 it
  end.

(** Key conditions: [attr = v], possibly [AND begins_with(sortKey, prefix)]. *)
Record KeyCondition := mkKC {
  kc_attr : string; kc_val : AV; kc_prefix : option string }.

Definition kc_match (kc : KeyCondition) (it : Item) : bool :=
  bool_decide (it !! kc_attr kc = Some (kc_val kc)) &&
  match kc_prefix kc with
  | None => true
  | Some p => match it !! "sortKey" with
              | Some v => begins_with (GetS v) p
              | None => false
              end
  end.

(** What a query returns: the entries of the index (or items of the table)
    that meet the key condition and pass the filter. *)
Definition query_items (t : Table) (index : option string) (kc : KeyCondition)
    (f : Expr) (tbl : gmap (string * string) Item) : list Item :=
  filter (λ it, kc_match kc it = true ∧ eval f it = true)
    (omap (index_entry t index) (map_to_list tbl).*2).

Definition scan_items (f : Expr) (tbl : gmap (string * string) Item) : list Item :=
  filter (λ it, eval f it = true) (map_to_list tbl).*2.

(** ** Lookups in items and index entries *)

Lemma index_entry_some t name ix (it : Item) v :
  assoc name (indexes t) = Some ix → it !! ix_key ix = Some v →
  index_entry t (Some name) it = Some (filter (λ p, p.1 ∈ index_attributes t ix) it).
Proof. unfold index_entry. by intros -> ->. Qed.

Lemma index_entry_none t name ix (it : Item) :
  assoc name (indexes t) = Some ix → it !! ix_key ix = None →
  index_entry t (Some name) it = None.
Proof. unfold index_entry. by intros -> ->. Qed.

Lemma index_entry_lookup t index (it e : Item) a v :
  index_entry t index it = Some e → e !! a = Some v → it !! a = Some v.
Proof.
  unfold index_entry. destruct index as [name|]; [|by intros [= <-]].
  destruct (assoc name (indexes t)) as [ix|]; [|done].
  destruct (it !! ix_key ix); [|done]. intros [= <-].
  by intros [? _]%map_lookup_filter_Some.
Qed.

Lemma projected_lookup (attrs : list string) (it : Item) a :
  a ∈ attrs → (filter (λ p, p.1 ∈ attrs) it : Item) !! a = it !! a.
Proof.
  intros Ha. destruct (it !! a) as [v|] eqn:Hv.
  - by apply map_lookup_filter_Some.
  - apply map_lookup_filter_None. by left.
Qed.

(** An index entry has the projected attributes of its item. *)
Lemma index_entry_lookup_eq t name ix (it e : Item) a :
  assoc name (indexes t) = Some ix → index_entry t (Some name) it = Some e →
  a ∈ index_attributes t ix → e !! a = it !! a.
Proof.
  unfold index_entry. intros ->. destruct (it !! ix_key ix); [|done].
  intros [= <-] Ha. by apply projected_lookup.
Qed.

Lemma index_entry_is_some t name ix (it : Item) :
  assoc name (indexes t) = Some ix →
  is_Some (it !! ix_key ix) ↔ ∃ e, index_entry t (Some name) it = Some e.
Proof.
  unfold index_entry. intros ->. destruct (it !! ix_key ix).
  - split; eauto.
  - split; [by intros []|by intros [e ?]].
Qed.

Lemma kc_match_eq a v (e : Item) : kc_match (mkKC a v None) e = true ↔ e !! a = Some v.
Proof. unfold kc_match. simpl. by rewrite andb_true_r, bool_decide_eq_true. Qed.

Lemma elem_of_query_items t index kc f tbl e :
  e ∈ query_items t index kc f tbl ↔
  ∃ k it, tbl !! k = Some it ∧ index_entry t index it = Some e ∧
    kc_match kc e = true ∧ eval f e = true.
Proof.
  unfold query_items. rewrite list_elem_of_filter, list_elem_of_omap.
  setoid_rewrite list_elem_of_fmap. split.
  - intros [[Hkc Hf] (it & ([k it'] & -> & Hin) & He)].
    apply elem_of_map_to_list in Hin. eauto 10.
  - intros (k & it & Hk & He & Hkc & Hf). split; [done|].
    exists it. split; [|done]. exists (k, it). split; [done|].
    by apply elem_of_map_to_list.
Qed.

Lemma elem_of_scan_items f tbl e :
  e ∈ scan_items f tbl ↔ ∃ k, tbl !! k = Some e ∧ eval f e = true.
Proof.
  unfold scan_items. rewrite list_elem_of_filter, list_elem_of_fmap. split.
  - intros [Hf ([k it'] & -> & Hin)]. apply elem_of_map_to_list in Hin. eauto.
  - intros (k & Hk & Hf). split; [done|]. exists (k, e). split; [done|].
    by apply elem_of_map_to_list.
Qed.

(** A query answers at most one item when only one row can match. *)
Lemma filter_omap_unique {K A B} (l : list (K * A)) (g : A → option B) (p : B → Prop)
    `{!∀ x, Decision (p x)} :
  NoDup l.*1 →
  (∀ k1 a1 b1 k2 a2 b2, (k1, a1) ∈ l → (k2, a2) ∈ l → g a1 = Some b1 → g a2 = Some b2 →
    p b1 → p b2 → k1 = k2) →
  length (filter p (omap g l.*2)) ≤ 1.
Proof.
  induction l as [|[k a] l IH]; csimpl; [intros; simpl; lia|]. intros Hnd0 Hu. inversion Hnd0 as [|? ? Hk Hnd]; subst.
  assert (Hl : length (filter p (omap g l.*2)) ≤ 1).
  { apply IH; [done|]. intros *. intros ??. eapply Hu; by right. }
  destruct (g a) as [b|] eqn:Hg; [|done].
  rewrite filter_cons. case_decide as Hp; [|done]. cbn [length].
  destruct (filter p (omap g l.*2)) as [|b' bs] eqn:E; [done|].
  exfalso. assert (Hin : b' ∈ filter p (omap g l.*2)) by (rewrite E; by left).
  apply list_elem_of_filter in Hin as [Hp' Hin].
  apply list_elem_of_omap in Hin as (a' & Ha' & Hg').
  apply list_elem_of_fmap in Ha' as ([k' a''] & -> & Hin).
  apply Hk, list_elem_of_fmap. exists (k', a''). split; [|done]. simpl.
  eapply (Hu k a b k' a'' b'); try done; [by left|by right].
Qed.

Lemma query_items_unique t index kc f tbl :
  (∀ k1 it1 e1 k2 it2 e2, tbl !! k1 = Some it1 → tbl !! k2 = Some it2 →
    index_entry t index it1 = Some e1 → index_entry t index it2 = Some e2 →
    kc_match kc e1 = true → kc_match kc e2 = true → k1 = k2) →
  length (query_items t index kc f tbl) ≤ 1.
Proof.
  intros Hu. unfold query_items. apply filter_omap_unique.
  - apply NoDup_fst_map_to_list.
  - intros k1 a1 b1 k2 a2 b2 Hin1 Hin2 He1 He2 [Hm1 _] [Hm2 _].
    apply elem_of_map_to_list in Hin1, Hin2. eauto.
Qed.

(** The query of an index whose keys are unique: [row x it] says that [it] is the row
    of [x], filed in the table under [key x] and in the index under [proj x]. *)
Lemma unique_query {T} (row : T → Item → Prop) (key : T → string * string)
    (proj : T → string) t index ix attr v tbl l :
  assoc index (indexes t) = Some ix → ix_key ix = attr →
  (∀ k it, tbl !! k = Some it → is_Some (it !! attr) → ∃ x, row x it ∧ k = key x) →
  (∀ x it, row x it → it !! attr = Some (AVS (proj x))) →
  (∀ x1 x2 it1 it2, tbl !! key x1 = Some it1 → row x1 it1 → tbl !! key x2 = Some it2 →
    row x2 it2 → proj x1 = proj x2 → key x1 = key x2) →
  l ≡ₚ query_items t (Some index) (mkKC attr (AVS v) None) ETrue tbl →
  (l = [] ∧ ∀ x it, tbl !! key x = Some it → row x it → proj x ≠ v) ∨
  (∃ x it e, l = [e] ∧ tbl !! key x = Some it ∧ row x it ∧ proj x = v ∧
     index_entry t (Some index) it = Some e).
Proof.
  intros Hix Hk Hrow Hattr Huniq Hl.
  assert (Hin : attr ∈ index_attributes t ix).
  { rewrite <- Hk. unfold index_attributes. rewrite !elem_of_cons. auto. }
  assert (Hmatch : ∀ k it e, tbl !! k = Some it → index_entry t (Some index) it = Some e →
    kc_match (mkKC attr (AVS v) None) e = true → ∃ x, row x it ∧ k = key x ∧ proj x = v).
  { intros k it e Hit He Hm%kc_match_eq. rewrite (index_entry_lookup_eq t index ix it e) in Hm by done.
    destruct (Hrow k it Hit) as (x & Hr & ->); [by eexists|]. exists x. split_and!; [done..|].
    apply AVS_inj, (inj Some). by rewrite <- (Hattr _ _ Hr). }
  destruct l as [|e [|e' l]]; [left|right|exfalso].
  - split; [done|]. intros x it Hit Hr Hp.
    destruct (proj1 (index_entry_is_some t index ix it Hix)) as [e He].
    { rewrite Hk, (Hattr _ _ Hr). eauto. }
    apply (not_elem_of_nil e). rewrite Hl. apply elem_of_query_items.
    exists (key x), it. split_and!; [done..| |done]. apply kc_match_eq.
    rewrite (index_entry_lookup_eq t index ix it e) by done. by rewrite (Hattr _ _ Hr), Hp.
  - assert (He : e ∈ [e]) by by left. rewrite Hl in He.
    apply elem_of_query_items in He as (k & it & Hit & He & Hm & _).
    destruct (Hmatch _ _ _ Hit He Hm) as (x & Hr & -> & Hp). by exists x, it, e.
  - assert (Hlen : length (e :: e' :: l) ≤ 1); [|simpl in Hlen; lia].
    rewrite Hl. apply query_items_unique.
    intros k1 it1 e1 k2 it2 e2 H1 H2 He1 He2 Hm1 Hm2.
    destruct (Hmatch _ _ _ H1 He1 Hm1) as (x1 & R1 & -> & P1).
    destruct (Hmatch _ _ _ H2 He2 Hm2) as (x2 & R2 & -> & P2).
    eapply Huniq; [done..|congruence].
Qed.

(** The query of an index: its answers are the entries of the rows filed under the key. *)
Lemma index_query {T} (row : T → Item → Prop) (key : T → string * string)
    (proj : T → string) t index ix attr v f tbl l :
  assoc index (indexes t) = Some ix → ix_key ix = attr →
  (∀ k it, tbl !! k = Some it → is_Some (it !! attr) → ∃ x, row x it ∧ k = key x) →
  (∀ x it, row x it → it !! attr = Some (AVS (proj x))) →
  l ≡ₚ query_items t (Some index) (mkKC attr (AVS v) None) f tbl →
  ∀ e, e ∈ l ↔ ∃ x it, tbl !! key x = Some it ∧ row x it ∧ proj x = v ∧
    index_entry t (Some index) it = Some e ∧ eval f e = true.
Proof.
  intros Hix Hk Hrow Hattr Hl e. rewrite Hl, elem_of_query_items.
  assert (Hin : attr ∈ index_attributes t ix).
  { rewrite <- Hk. unfold index_attributes. rewrite !elem_of_cons. auto. }
  split.
  - intros (k & it & Hit & He & Hm%kc_match_eq & Hf).
    rewrite (index_entry_lookup_eq t index ix it e) in Hm by done.
    destruct (Hrow k it Hit) as (x & Hr & ->); [by eexists|]. exists x, it.
    split_and!; [done..| |done|done]. apply AVS_inj, (inj Some). by rewrite <- (Hattr _ _ Hr).
  - intros (x & it & Hit & Hr & Hp & He & Hf). exists (key x), it. split_and!; [done..| |done].
    apply kc_match_eq. rewrite (index_entry_lookup_eq t index ix it e) by done.
    by rewrite (Hattr _ _ Hr), Hp.
Qed.
End items.
Arguments Expr {_}.
Arguments KeyCondition {_}.

(** * The client *)

(** [outcome.IsSuccess()] with the result, or the error message. *)
Abbreviation outcome A := (string + A)%type.

(** The requests the server issues, as transformers of the state [DB] of the
    service (with whatever makes requests fail). Reads go through the state too:
    a request may fail, and failures are not determined by the arguments. *)
Class Dynamo `{Attributes} := {
  DB : Type;
  PageKey : Type;
  PutItem : Table → Item → DB → outcome unit * DB;
  GetItem : Table → string * string → DB → outcome Item * DB;
  DeleteItem : Table → string * string → option Expr → DB → outcome unit * DB;
  (** [AttributeUpdates] of the given attributes, or a [SET] update expression,
      with an optional condition expression. *)
  UpdateItem : Table → string * string → Item → option Expr → DB → outcome unit * DB;
  Query : Table → option string → KeyCondition → Expr → DB → outcome (list Item) * DB;
  (** One page of results and the key to continue from ([LastEvaluatedKey]). *)
  Scan : Table → Expr → option PageKey → DB → outcome (list Item * option PageKey) * DB;
}.

(** The documented behaviour the server relies on. [rows] is the content of a
    table once writes have propagated: the server uses default reads and
    secondary indexes, whose answers are those below when the table is
    quiescent. A query is assumed to fit in one page, as the server assumes by
    never following [LastEvaluatedKey] of a query. *)
Class DynamoLaws `{D : Dynamo} := {
  rows : DB → Table → gmap (string * string) Item;
  (** the service accepts every well-formed request from here on *)
  healthy : DB → Prop;
  (** how many pages a scan may still have *)
  pages_left : DB → Table → Expr → option PageKey → nat;
  (** what a scan started from a page key still has to return *)
  scan_rest : DB → Table → Expr → option PageKey → list Item;

  rows_keyed : ∀ d t k it, rows d t !! k = Some it → item_key t it = Some k;

  PutItem_ok : ∀ t it d d', PutItem t it d = (inr tt, d') →
    ∃ k, item_key t it = Some k ∧
      ∀ t', rows d' t' = if decide (t' = t) then <[k:=it]> (rows d t) else rows d t';
  PutItem_err : ∀ t it d e d', PutItem t it d = (inl e, d') → ∀ t', rows d' t' = rows d t';

  GetItem_ok : ∀ t k d it d', GetItem t k d = (inr it, d') →
    it = default ∅ (rows d t !! k) ∧ ∀ t', rows d' t' = rows d t';
  GetItem_err : ∀ t k d e d', GetItem t k d = (inl e, d') → ∀ t', rows d' t' = rows d t';

  DeleteItem_ok : ∀ t k c d d', DeleteItem t k c d = (inr tt, d') →
    (∀ e, c = Some e → eval e (default ∅ (rows d t !! k)) = true) ∧
    ∀ t', rows d' t' = if decide (t' = t) then delete k (rows d t) else rows d t';
  DeleteItem_err : ∀ t k c d e d', DeleteItem t k c d = (inl e, d') →
    ∀ t', rows d' t' = rows d t';

  UpdateItem_ok : ∀ t k u c d d', UpdateItem t k u c d = (inr tt, d') →
    (∀ e, c = Some e → eval e (default ∅ (rows d t !! k)) = true) ∧
    ∀ t', rows d' t' =
      if decide (t' = t)
      then <[k := key_item t k ∪ u ∪ default ∅ (rows d t !! k)]> (rows d t)
      else rows d t';
  UpdateItem_err : ∀ t k u c d e d', UpdateItem t k u c d = (inl e, d') →
    ∀ t', rows d' t' = rows d t';

  Query_ok : ∀ t ix kc f d l d', Query t ix kc f d = (inr l, d') →
    l ≡ₚ query_items t ix kc f (rows d t) ∧ ∀ t', rows d' t' = rows d t';
  Query_err : ∀ t ix kc f d e d', Query t ix kc f d = (inl e, d') →
    ∀ t', rows d' t' = rows d t';

  Scan_ok : ∀ t f start d l next d', Scan t f start d = (inr (l, next), d') →
    (∀ t', rows d' t' = rows d t') ∧
    match next with
    | None => scan_rest d t f start = l
    | Some _ => scan_rest d t f start = l ++ scan_rest d' t f next ∧
                pages_left d' t f next < pages_left d t f start
    end;
  Scan_err : ∀ t f start d e d', Scan t f start d = (inl e, d') →
    ∀ t', rows d' t' = rows d t';
  scan_rest_all : ∀ d t f, scan_rest d t f None ≡ₚ scan_items f (rows d t);

  healthy_Put : ∀ t it d, healthy d → healthy (PutItem t it d).2 ∧
    (is_Some (item_key t it) → (PutItem t it d).1 = inr tt);
  healthy_Get : ∀ t k d, healthy d → healthy (GetItem t k d).2 ∧
    ∃ it, (GetItem t k d).1 = inr it;
  healthy_Delete : ∀ t k c d, healthy d → healthy (DeleteItem t k c d).2 ∧
    ((∀ e, c = Some e → eval e (default ∅ (rows d t !! k)) = true) →
     (DeleteItem t k c d).1 = inr tt);
  healthy_Update : ∀ t k u c d, healthy d → healthy (UpdateItem t k u c d).2 ∧
    ((∀ e, c = Some e → eval e (default ∅ (rows d t !! k)) = true) →
     (UpdateItem t k u c d).1 = inr tt);
  healthy_Query : ∀ t ix kc f d, healthy d → healthy (Query t ix kc f d).2 ∧
    ∃ l, (Query t ix kc f d).1 = inr l;
  healthy_Scan : ∀ t f start d, healthy d → healthy (Scan t f start d).2 ∧
    ∃ page, (Scan t f start d).1 = inr page;
}.

(** Rows that agree, table by table. *)
Definition same_rows `{DynamoLaws} (d d' : DB) : Prop := ∀ t, rows d' t = rows d t.

(** * An in-memory database

    It shows that the laws can hold, and runs the witnesses of the theorems.
    [mem_faults] is a schedule of failing requests; scans return pages of at
    most [S mem_page] items. *)
Module Mem.
Inductive value :=
  | VS (s : string) | VBool (b : bool) | VSS (l : list string) | VB (s : string).

#[global] Instance value_eq_dec : EqDecision value.
Proof. solve_decision. Defined.

#[export] Instance attributes : Attributes := {
  AV := value; AV_eq_dec := value_eq_dec; AVS := VS; AVBool := VBool; AVSS := VSS; AVB := VB;
  GetS v := match v with VS s => s | _ => "" end;
  GetBool v := match v with VBool b => b | _ => false end;
  GetSS v := match v with VSS l => l | _ => [] end;
  GetB v := match v with VB s => s | _ => "" end;
  GetS_AVS _ := eq_refl; GetBool_AVBool _ := eq_refl;
  GetSS_AVSS l _ := Permutation_refl l; GetB_AVB _ := eq_refl }.

Abbreviation tbl := (gmap (string * string) (gmap string value)).

Record db := mk {
  mem_rows : Table → tbl; mem_faults : list bool; mem_page : nat }.

Definition tbl_rows (t : Table) (m : tbl) : tbl :=
  filter (λ p, item_key t p.2 = Some p.1) m.
Definition rows_of (d : db) (t : Table) : tbl := tbl_rows t (mem_rows d t).

Definition empty_db (page : nat) : db := mk (λ _, ∅) [] page.

Definition set_table (t : Table) (m : tbl) (d : db) : db :=
  mk (λ t', if decide (t' = t) then m else mem_rows d t') (mem_faults d) (mem_page d).

(** Runs a request, or fails if the schedule says so. *)
Definition request {A} (d : db) (k : db → outcome A * db) : outcome A * db :=
  match mem_faults d with
  | true :: fs => (inl "request failed", mk (mem_rows d) fs (mem_page d))
  | false :: fs => k (mk (mem_rows d) fs (mem_page d))
  | [] => k d
  end.

Definition guard {A} (c : option Expr) (it : Item) (d : db) (k : outcome A * db) :
    outcome A * db :=
  match c with
  | Some e => if eval e it then k else (inl "ConditionalCheckFailed", d)
  | None => k
  end.

Definition scan_list (d : db) (t : Table) (f : Expr) (start : option nat) : list Item :=
  drop (default 0 start) (scan_items f (rows_of d t)).

#[export] Instance dynamo : Dynamo := {
  DB := db;
  PageKey := nat;
  PutItem t it d := request d (λ d,
    match item_key t it with
    | Some k => (inr tt, set_table t (<[k:=it]> (rows_of d t)) d)
    | None => (inl "ValidationException", d)
    end);
  GetItem t k d := request d (λ d, (inr (default ∅ (rows_of d t !! k)), d));
  DeleteItem t k c d := request d (λ d,
    guard c (default ∅ (rows_of d t !! k)) d
      (inr tt, set_table t (delete k (rows_of d t)) d));
  UpdateItem t k u c d := request d (λ d,
    guard c (default ∅ (rows_of d t !! k)) d
      (inr tt, set_table t
        (<[k := key_item t k ∪ u ∪ default ∅ (rows_of d t !! k)]> (rows_of d t)) d));
  Query t ix kc f d := request d (λ d, (inr (query_items t ix kc f (rows_of d t)), d));
  Scan t f start d := request d (λ d,
    let rest := scan_list d t f start in
    let page := take (S (mem_page d)) rest in
    (inr (page, if length page <? length rest
                then Some (default 0 start + length page) else None), d)) }.

Lemma tbl_rows_rows d t : tbl_rows t (rows_of d t) = rows_of d t.
Proof.
  unfold rows_of, tbl_rows. apply map_eq. intros k. apply option_eq. intros it.
  rewrite !map_lookup_filter_Some. tauto.
Qed.

Lemma tbl_rows_insert d t k it :
  item_key t it = Some k → tbl_rows t (<[k:=it]> (rows_of d t)) = <[k:=it]> (rows_of d t).
Proof.
  intros Hk. unfold tbl_rows. rewrite map_filter_insert_True by done.
  f_equal. apply tbl_rows_rows.
Qed.

Lemma tbl_rows_delete d t k : tbl_rows t (delete k (rows_of d t)) = delete k (rows_of d t).
Proof. unfold tbl_rows. rewrite map_filter_delete. f_equal. apply tbl_rows_rows. Qed.

Lemma rows_of_set_table d t m t' :
  rows_of (set_table t m d) t' = if decide (t' = t) then tbl_rows t m else rows_of d t'.
Proof. unfold rows_of, set_table. simpl. by destruct (decide (t' = t)) as [->|]. Qed.

Lemma key_item_key t k (u : Item) : item_key t (key_item t k ∪ u) = Some k.
Proof.
  unfold item_key, key_item. destruct k as [h s]. simpl.
  rewrite (lookup_union_Some_l _ _ (hash_key t) (VS h)) by by destruct t.
  by rewrite (lookup_union_Some_l _ _ "sortKey" (VS s)) by by destruct t.
Qed.

(** A request either fails and leaves the tables alone, or runs on them. *)
Lemma request_inv {A} (d : db) (k : db → outcome A * db) r d' :
  request d k = (r, d') →
  (∃ e, r = inl e ∧ ∀ t, rows_of d' t = rows_of d t) ∨
  (∃ d0, (∀ t, rows_of d0 t = rows_of d t) ∧ k d0 = (r, d')).
Proof.
  unfold request. destruct (mem_faults d) as [|[] fs].
  - right. by exists d.
  - intros [= <- <-]. left. by eexists.
  - intros Hk. right. eexists. split; [|exact Hk]. done.
Qed.

Lemma request_healthy {A} d (k : db → outcome A * db) :
  mem_faults d = [] → request d k = k d.
Proof. unfold request. by intros ->. Qed.

Lemma guard_inv {A} c it d (k : outcome A * db) r d' :
  guard c it d k = (r, d') →
  (∃ e, r = inl e ∧ d' = d) ∨
  ((∀ e, c = Some e → eval e it = true) ∧ k = (r, d')).
Proof.
  unfold guard. destruct c as [e|]; [|by right].
  destruct (eval e it) eqn:He; [right|left; simplify_eq; eauto].
  split; [|done]. by intros ? [= <-].
Qed.

Lemma guard_pass {A} c it d (k : outcome A * db) :
  (∀ e, c = Some e → eval e it = true) → guard c it d k = k.
Proof. unfold guard. destruct c as [e|]; [|done]. intros Hc. by rewrite Hc. Qed.

(** A page and what is left of the list after it. *)
Lemma page_split {A} (l : list A) (start : option nat) p :
  let rest := drop (default 0 start) l in
  let page := take (S p) rest in
  let next := if length page <? length rest
              then Some (default 0 start + length page) else None in
  match next with
  | None => rest = page
  | Some _ => rest = page ++ drop (default 0 next) l ∧
              length (drop (default 0 next) l) < length rest
  end.
Proof.
  intros rest page next. subst next. destruct (Nat.ltb_spec (length page) (length rest)).
  - simpl. subst page. rewrite length_take in *.
    replace (S p `min` length rest) with (S p) by lia.
    rewrite <- drop_drop. fold rest. rewrite take_drop, length_drop. split; [done|lia].
  - subst page. rewrite length_take in *. by rewrite take_ge by lia.
Qed.

Ltac req H Hrow :=
  apply request_inv in H as [(? & ? & ?)|(? & Hrow & H)];
  [simplify_eq; try done|].

#[export] Program Instance laws : DynamoLaws := {
  rows := rows_of;
  healthy d := mem_faults d = [];
  pages_left d t f start := length (scan_list d t f start);
  scan_rest d t f start := scan_list d t f start }.
Next Obligation.
  intros d t k it. unfold rows_of, tbl_rows. by intros [_ ?]%map_lookup_filter_Some.
Qed.
Next Obligation.
  intros t it d d' Hr. simpl in Hr. req Hr Hrow.
  destruct (item_key t it) as [k|] eqn:Hk; simplify_eq. exists k. split; [done|].
  intros t'. rewrite rows_of_set_table. case_decide; [|done]. subst.
  rewrite tbl_rows_insert by done. by rewrite Hrow.
Qed.
Next Obligation.
  intros t it d e d' Hr. simpl in Hr. req Hr Hrow. destruct (item_key t it); by simplify_eq.
Qed.
Next Obligation.
  intros t k d it d' Hr. simpl in Hr. req Hr Hrow. simplify_eq. by rewrite Hrow.
Qed.
Next Obligation. intros t k d e d' Hr. simpl in Hr. by req Hr Hrow. Qed.
Next Obligation.
  intros t k c d d' Hr. simpl in Hr. req Hr Hrow.
  apply guard_inv in Hr as [(? & ? & ?)|[Hc Hr]]; simplify_eq.
  rewrite Hrow in Hc. split; [done|]. intros t'. rewrite rows_of_set_table.
  case_decide; [|done]. subst. rewrite tbl_rows_delete. by rewrite Hrow.
Qed.
Next Obligation.
  intros t k c d e d' Hr. simpl in Hr. req Hr Hrow.
  apply guard_inv in Hr as [(? & ? & ?)|[Hc Hr]]; by simplify_eq.
Qed.
Next Obligation.
  intros t k u c d d' Hr. simpl in Hr. req Hr Hrow.
  apply guard_inv in Hr as [(? & ? & ?)|[Hc Hr]]; simplify_eq.
  rewrite Hrow in Hc. split; [done|]. intros t'. rewrite rows_of_set_table.
  case_decide; [|done]. subst. rewrite tbl_rows_insert by (rewrite <- (assoc_L (∪)); apply key_item_key). by rewrite Hrow.
Qed.
Next Obligation.
  intros t k u c d e d' Hr. simpl in Hr. req Hr Hrow.
  apply guard_inv in Hr as [(? & ? & ?)|[Hc Hr]]; by simplify_eq.
Qed.
Next Obligation.
  intros t ix kc f d l d' Hr. simpl in Hr. req Hr Hrow. simplify_eq. by rewrite Hrow.
Qed.
Next Obligation. intros t ix kc f d e d' Hr. simpl in Hr. by req Hr Hrow. Qed.
Next Obligation.
  intros t f start d l next d' Hr. simpl in Hr. req Hr Hrow.
  injection Hr as Hl Hn Hd. subst d'. split; [done|]. subst next l.
  unfold scan_list. rewrite !Hrow. apply page_split.
Qed.
Next Obligation. intros t f start d e d' Hr. simpl in Hr. by req Hr Hrow. Qed.
Next Obligation. intros d t f. unfold scan_list. simpl. by rewrite drop_0. Qed.
Next Obligation.
  intros t it d Hd. simpl. rewrite request_healthy by done.
  destruct (item_key t it); (split; [done|]); [done|by intros []].
Qed.
Next Obligation. intros t k d Hd. simpl. rewrite request_healthy by done. eauto. Qed.
Next Obligation.
  intros t k c d Hd. simpl. rewrite request_healthy by done. split.
  - unfold guard. destruct c as [e|]; [destruct (eval e _)|]; done.
  - intros Hc. by rewrite guard_pass.
Qed.
Next Obligation.
  intros t k u c d Hd. simpl. rewrite request_healthy by done. split.
  - unfold guard. destruct c as [e|]; [destruct (eval e _)|]; done.
  - intros Hc. by rewrite guard_pass.
Qed.
Next Obligation. intros t ix kc f d Hd. simpl. rewrite request_healthy by done. eauto. Qed.
Next Obligation.
  intros t f start d Hd. simpl. rewrite request_healthy by done. eauto.
Qed.
End Mem.
