(* ===== verification/Store.v ===== *)
(** The state of [PersistentStore] (include/PersistentStore.h) and the primitive
    steps its member functions are made of: clock readings, database requests,
    cache lookups and updates, decoding of attributes.

    A member function is a computation of [Store A]: it transforms the [World]
    - the database client, the file system, the clock and every cache - and
    returns or throws. Telemetry spans and log messages have no effect on the
    state and are left out; a [log_fatal] is a [throw] of its message. *)

From S2P Require Import Prelude Entities Cache Dynamo.

(** * What the server gets from the operating system *)

Class Platform := {
  platform_doubles :: Doubles;
  FS : Type;
  (** the directory made by [makeTemporaryDir] when the store starts *)
  clusterConfigDir : string;
  (** [makeTemporaryFile(prefix)] and writing the contents to it: the path, or
      the message of the error when the file cannot be opened or written *)
  write_temp : string → string → FS → (string + string) * FS;
  (** the value of [steady_clock::now()] at its n-th reading *)
  steady : nat → Z;
}.

(** The clock is monotonic, and runs since some moment before the server. *)
Class ClockLaws `{Platform} : Prop := {
  steady_mono : ∀ i j, i ≤ j → (steady i ≤ steady j)%Z;
  steady_pos : ∀ i, (0 < steady i)%Z;
}.

(** What temporary files are for: while [disk_ok], a file can be written; its path is
    new and holds the contents, and the other files stay as they are. *)
Class DiskLaws `{Platform} := {
  disk_ok : FS → Prop;
  file_contents : FS → string → option string;
  write_temp_ok : ∀ prefix contents f, disk_ok f → ∃ path f',
    write_temp prefix contents f = (inr path, f') ∧ disk_ok f' ∧
    file_contents f path = None ∧ file_contents f' path = Some contents ∧
    ∀ p, p ≠ path → file_contents f' p = file_contents f p;
}.

(** * The state *)

(** The caches of user records and of group members. *)
Record UserCaches := mkUserCaches {
  userCacheExpirationTime : Z;
  userCache : gmap string (CacheRecord.t User.t);
  userByTokenCache : gmap string (CacheRecord.t User.t);
  userByGlobusIDCache : gmap string (CacheRecord.t User.t);
  userByGroupCache : gmap string (category (CacheRecord.t string)) }.

Definition upd_userCacheExpirationTime f (c : UserCaches) : UserCaches :=
  mkUserCaches (f (userCacheExpirationTime c)) (userCache c) (userByTokenCache c) (userByGlobusIDCache c) (userByGroupCache c).
Definition upd_userCache f (c : UserCaches) : UserCaches :=
  mkUserCaches (userCacheExpirationTime c) (f (userCache c)) (userByTokenCache c) (userByGlobusIDCache c) (userByGroupCache c).
Definition upd_userByTokenCache f (c : UserCaches) : UserCaches :=
  mkUserCaches (userCacheExpirationTime c) (userCache c) (f (userByTokenCache c)) (userByGlobusIDCache c) (userByGroupCache c).
Definition upd_userByGlobusIDCache f (c : UserCaches) : UserCaches :=
  mkUserCaches (userCacheExpirationTime c) (userCache c) (userByTokenCache c) (f (userByGlobusIDCache c)) (userByGroupCache c).
Definition upd_userByGroupCache f (c : UserCaches) : UserCaches :=
  mkUserCaches (userCacheExpirationTime c) (userCache c) (userByTokenCache c) (userByGlobusIDCache c) (f (userByGroupCache c)).

(** The caches of groups. *)
Record GroupCaches := mkGroupCaches {
  groupCacheExpirationTime : Z;
  groupCache : gmap string (CacheRecord.t Group.t);
  groupByNameCache : gmap string (CacheRecord.t Group.t);
  groupByUserCache : gmap string (category (CacheRecord.t Group.t)) }.

Definition upd_groupCacheExpirationTime f (c : GroupCaches) : GroupCaches :=
  mkGroupCaches (f (groupCacheExpirationTime c)) (groupCache c) (groupByNameCache c) (groupByUserCache c).
Definition upd_groupCache f (c : GroupCaches) : GroupCaches :=
  mkGroupCaches (groupCacheExpirationTime c) (f (groupCache c)) (groupByNameCache c) (groupByUserCache c).
Definition upd_groupByNameCache f (c : GroupCaches) : GroupCaches :=
  mkGroupCaches (groupCacheExpirationTime c) (groupCache c) (f (groupByNameCache c)) (groupByUserCache c).
Definition upd_groupByUserCache f (c : GroupCaches) : GroupCaches :=
  mkGroupCaches (groupCacheExpirationTime c) (groupCache c) (groupByNameCache c) (f (groupByUserCache c)).

(** The caches of clusters, of the path of the configuration file of each cluster,
    of the access rights on clusters and of their locations. *)
Record ClusterCaches `{Doubles} := mkClusterCaches {
  clusterCacheExpirationTime : Z;
  clusterCache : gmap string (CacheRecord.t Cluster.t);
  clusterByNameCache : gmap string (CacheRecord.t Cluster.t);
  clusterByGroupCache : gmap string (category (CacheRecord.t Cluster.t));
  clusterConfigs : gmap string string;
  clusterGroupAccessCache : gmap string (category (CacheRecord.t string));
  clusterGroupApplicationCache : gmap string (CacheRecord.t (gset string));
  clusterLocationCache : gmap string (CacheRecord.t (list GeoLocation.t));
  clusterConnectivityCache : gmap string (CacheRecord.t bool) }.

Definition upd_clusterCacheExpirationTime `{Doubles} f (c : ClusterCaches) : ClusterCaches :=
  mkClusterCaches _ (f (clusterCacheExpirationTime c)) (clusterCache c) (clusterByNameCache c) (clusterByGroupCache c) (clusterConfigs c) (clusterGroupAccessCache c) (clusterGroupApplicationCache c) (clusterLocationCache c) (clusterConnectivityCache c).
Definition upd_clusterCache `{Doubles} f (c : ClusterCaches) : ClusterCaches :=
  mkClusterCaches _ (clusterCacheExpirationTime c) (f (clusterCache c)) (clusterByNameCache c) (clusterByGroupCache c) (clusterConfigs c) (clusterGroupAccessCache c) (clusterGroupApplicationCache c) (clusterLocationCache c) (clusterConnectivityCache c).
Definition upd_clusterByNameCache `{Doubles} f (c : ClusterCaches) : ClusterCaches :=
  mkClusterCaches _ (clusterCacheExpirationTime c) (clusterCache c) (f (clusterByNameCache c)) (clusterByGroupCache c) (clusterConfigs c) (clusterGroupAccessCache c) (clusterGroupApplicationCache c) (clusterLocationCache c) (clusterConnectivityCache c).
Definition upd_clusterByGroupCache `{Doubles} f (c : ClusterCaches) : ClusterCaches :=
  mkClusterCaches _ (clusterCacheExpirationTime c) (clusterCache c) (clusterByNameCache c) (f (clusterByGroupCache c)) (clusterConfigs c) (clusterGroupAccessCache c) (clusterGroupApplicationCache c) (clusterLocationCache c) (clusterConnectivityCache c).
Definition upd_clusterConfigs `{Doubles} f (c : ClusterCaches) : ClusterCaches :=
  mkClusterCaches _ (clusterCacheExpirationTime c) (clusterCache c) (clusterByNameCache c) (clusterByGroupCache c) (f (clusterConfigs c)) (clusterGroupAccessCache c) (clusterGroupApplicationCache c) (clusterLocationCache c) (clusterConnectivityCache c).
Definition upd_clusterGroupAccessCache `{Doubles} f (c : ClusterCaches) : ClusterCaches :=
  mkClusterCaches _ (clusterCacheExpirationTime c) (clusterCache c) (clusterByNameCache c) (clusterByGroupCache c) (clusterConfigs c) (f (clusterGroupAccessCache c)) (clusterGroupApplicationCache c) (clusterLocationCache c) (clusterConnectivityCache c).
Definition upd_clusterGroupApplicationCache `{Doubles} f (c : ClusterCaches) : ClusterCaches :=
  mkClusterCaches _ (clusterCacheExpirationTime c) (clusterCache c) (clusterByNameCache c) (clusterByGroupCache c) (clusterConfigs c) (clusterGroupAccessCache c) (f (clusterGroupApplicationCache c)) (clusterLocationCache c) (clusterConnectivityCache c).
Definition upd_clusterLocationCache `{Doubles} f (c : ClusterCaches) : ClusterCaches :=
  mkClusterCaches _ (clusterCacheExpirationTime c) (clusterCache c) (clusterByNameCache c) (clusterByGroupCache c) (clusterConfigs c) (clusterGroupAccessCache c) (clusterGroupApplicationCache c) (f (clusterLocationCache c)) (clusterConnectivityCache c).
Definition upd_clusterConnectivityCache `{Doubles} f (c : ClusterCaches) : ClusterCaches :=
  mkClusterCaches _ (clusterCacheExpirationTime c) (clusterCache c) (clusterByNameCache c) (clusterByGroupCache c) (clusterConfigs c) (clusterGroupAccessCache c) (clusterGroupApplicationCache c) (clusterLocationCache c) (f (clusterConnectivityCache c)).

(** The caches of application instances. *)
Record InstanceCaches := mkInstanceCaches {
  instanceCacheExpirationTime : Z;
  instanceCache : gmap string (CacheRecord.t ApplicationInstance.t);
  instanceConfigCache : gmap string (CacheRecord.t string);
  instanceByGroupCache : gmap string (category (CacheRecord.t ApplicationInstance.t));
  instanceByNameCache : gmap string (category (CacheRecord.t ApplicationInstance.t));
  instanceByClusterCache : gmap string (category (CacheRecord.t ApplicationInstance.t));
  instanceByGroupAndClusterCache : gmap string (category (CacheRecord.t ApplicationInstance.t)) }.

Definition upd_instanceCacheExpirationTime f (c : InstanceCaches) : InstanceCaches :=
  mkInstanceCaches (f (instanceCacheExpirationTime c)) (instanceCache c) (instanceConfigCache c) (instanceByGroupCache c) (instanceByNameCache c) (instanceByClusterCache c) (instanceByGroupAndClusterCache c).
Definition upd_instanceCache f (c : InstanceCaches) : InstanceCaches :=
  mkInstanceCaches (instanceCacheExpirationTime c) (f (instanceCache c)) (instanceConfigCache c) (instanceByGroupCache c) (instanceByNameCache c) (instanceByClusterCache c) (instanceByGroupAndClusterCache c).
Definition upd_instanceConfigCache f (c : InstanceCaches) : InstanceCaches :=
  mkInstanceCaches (instanceCacheExpirationTime c) (instanceCache c) (f (instanceConfigCache c)) (instanceByGroupCache c) (instanceByNameCache c) (instanceByClusterCache c) (instanceByGroupAndClusterCache c).
Definition upd_instanceByGroupCache f (c : InstanceCaches) : InstanceCaches :=
  mkInstanceCaches (instanceCacheExpirationTime c) (instanceCache c) (instanceConfigCache c) (f (instanceByGroupCache c)) (instanceByNameCache c) (instanceByClusterCache c) (instanceByGroupAndClusterCache c).
Definition upd_instanceByNameCache f (c : InstanceCaches) : InstanceCaches :=
  mkInstanceCaches (instanceCacheExpirationTime c) (instanceCache c) (instanceConfigCache c) (instanceByGroupCache c) (f (instanceByNameCache c)) (instanceByClusterCache c) (instanceByGroupAndClusterCache c).
Definition upd_instanceByClusterCache f (c : InstanceCaches) : InstanceCaches :=
  mkInstanceCaches (instanceCacheExpirationTime c) (instanceCache c) (instanceConfigCache c) (instanceByGroupCache c) (instanceByNameCache c) (f (instanceByClusterCache c)) (instanceByGroupAndClusterCache c).
Definition upd_instanceByGroupAndClusterCache f (c : InstanceCaches) : InstanceCaches :=
  mkInstanceCaches (instanceCacheExpirationTime c) (instanceCache c) (instanceConfigCache c) (instanceByGroupCache c) (instanceByNameCache c) (instanceByClusterCache c) (f (instanceByGroupAndClusterCache c)).

(** The caches of secrets. *)
Record SecretCaches := mkSecretCaches {
  secretCache : gmap string (CacheRecord.t Secret.t);
  secretByGroupCache : gmap string (category (CacheRecord.t Secret.t));
  secretByGroupAndClusterCache : gmap string (category (CacheRecord.t Secret.t)) }.

Definition upd_secretCache f (c : SecretCaches) : SecretCaches :=
  mkSecretCaches (f (secretCache c)) (secretByGroupCache c) (secretByGroupAndClusterCache c).
Definition upd_secretByGroupCache f (c : SecretCaches) : SecretCaches :=
  mkSecretCaches (secretCache c) (f (secretByGroupCache c)) (secretByGroupAndClusterCache c).
Definition upd_secretByGroupAndClusterCache f (c : SecretCaches) : SecretCaches :=
  mkSecretCaches (secretCache c) (secretByGroupCache c) (f (secretByGroupAndClusterCache c)).

(** The caches of volume claims. *)
Record VolumeCaches := mkVolumeCaches {
  volumeCacheExpirationTime : Z;
  volumeCache : gmap string (CacheRecord.t PersistentVolumeClaim.t);
  volumeByGroupCache : gmap string (category (CacheRecord.t PersistentVolumeClaim.t));
  volumeByClusterCache : gmap string (category (CacheRecord.t PersistentVolumeClaim.t));
  volumeByGroupAndClusterCache : gmap string (category (CacheRecord.t PersistentVolumeClaim.t)) }.

Definition upd_volumeCacheExpirationTime f (c : VolumeCaches) : VolumeCaches :=
  mkVolumeCaches (f (volumeCacheExpirationTime c)) (volumeCache c) (volumeByGroupCache c) (volumeByClusterCache c) (volumeByGroupAndClusterCache c).
Definition upd_volumeCache f (c : VolumeCaches) : VolumeCaches :=
  mkVolumeCaches (volumeCacheExpirationTime c) (f (volumeCache c)) (volumeByGroupCache c) (volumeByClusterCache c) (volumeByGroupAndClusterCache c).
Definition upd_volumeByGroupCache f (c : VolumeCaches) : VolumeCaches :=
  mkVolumeCaches (volumeCacheExpirationTime c) (volumeCache c) (f (volumeByGroupCache c)) (volumeByClusterCache c) (volumeByGroupAndClusterCache c).
Definition upd_volumeByClusterCache f (c : VolumeCaches) : VolumeCaches :=
  mkVolumeCaches (volumeCacheExpirationTime c) (volumeCache c) (volumeByGroupCache c) (f (volumeByClusterCache c)) (volumeByGroupAndClusterCache c).
Definition upd_volumeByGroupAndClusterCache f (c : VolumeCaches) : VolumeCaches :=
  mkVolumeCaches (volumeCacheExpirationTime c) (volumeCache c) (volumeByGroupCache c) (volumeByClusterCache c) (f (volumeByGroupAndClusterCache c)).

(** The statistics counters, [std::atomic<size_t>]. *)
Record Stats := mkStats {
  cacheHits : Z;
  databaseQueries : Z;
  databaseScans : Z }.

Definition upd_cacheHits f (c : Stats) : Stats :=
  mkStats (f (cacheHits c)) (databaseQueries c) (databaseScans c).
Definition upd_databaseQueries f (c : Stats) : Stats :=
  mkStats (cacheHits c) (f (databaseQueries c)) (databaseScans c).
Definition upd_databaseScans f (c : Stats) : Stats :=
  mkStats (cacheHits c) (databaseQueries c) (f (databaseScans c)).

Section world.
Context `{D : Dynamo} `{P : Platform}.

(** The state of the process: the database client, the file system, the number
    of clock readings so far, and the members of [PersistentStore]. *)
Record World := mkWorld {
  db : DB;
  fs : FS;
  ticks : nat;
  stats : Stats;
  users : UserCaches;
  groups : GroupCaches;
  clusters : ClusterCaches;
  instances : InstanceCaches;
  secrets : SecretCaches;
  volumes : VolumeCaches;
  applicationCache : gmap string (category (CacheRecord.t Application.t)) }.

Definition upd_db f (w : World) : World :=
  mkWorld (f (db w)) (fs w) (ticks w) (stats w) (users w) (groups w) (clusters w) (instances w) (secrets w) (volumes w) (applicationCache w).
Definition upd_fs f (w : World) : World :=
  mkWorld (db w) (f (fs w)) (ticks w) (stats w) (users w) (groups w) (clusters w) (instances w) (secrets w) (volumes w) (applicationCache w).
Definition upd_ticks f (w : World) : World :=
  mkWorld (db w) (fs w) (f (ticks w)) (stats w) (users w) (groups w) (clusters w) (instances w) (secrets w) (volumes w) (applicationCache w).
Definition upd_stats f (w : World) : World :=
  mkWorld (db w) (fs w) (ticks w) (f (stats w)) (users w) (groups w) (clusters w) (instances w) (secrets w) (volumes w) (applicationCache w).
Definition upd_users f (w : World) : World :=
  mkWorld (db w) (fs w) (ticks w) (stats w) (f (users w)) (groups w) (clusters w) (instances w) (secrets w) (volumes w) (applicationCache w).
Definition upd_groups f (w : World) : World :=
  mkWorld (db w) (fs w) (ticks w) (stats w) (users w) (f (groups w)) (clusters w) (instances w) (secrets w) (volumes w) (applicationCache w).
Definition upd_clusters f (w : World) : World :=
  mkWorld (db w) (fs w) (ticks w) (stats w) (users w) (groups w) (f (clusters w)) (instances w) (secrets w) (volumes w) (applicationCache w).
Definition upd_instances f (w : World) : World :=
  mkWorld (db w) (fs w) (ticks w) (stats w) (users w) (groups w) (clusters w) (f (instances w)) (secrets w) (volumes w) (applicationCache w).
Definition upd_secrets f (w : World) : World :=
  mkWorld (db w) (fs w) (ticks w) (stats w) (users w) (groups w) (clusters w) (instances w) (f (secrets w)) (volumes w) (applicationCache w).
Definition upd_volumes f (w : World) : World :=
  mkWorld (db w) (fs w) (ticks w) (stats w) (users w) (groups w) (clusters w) (instances w) (secrets w) (f (volumes w)) (applicationCache w).
Definition upd_applicationCache f (w : World) : World :=
  mkWorld (db w) (fs w) (ticks w) (stats w) (users w) (groups w) (clusters w) (instances w) (secrets w) (volumes w) (f (applicationCache w)).

Definition Store (A : Type) : Type := M World A.

(** * Primitive steps *)

(** [steady_clock::now()] *)
Definition now : Store Z := λ w, (Ok (steady (ticks w)), upd_ticks S w).

(** A request to the database. *)
Definition request {A} (f : DB → outcome A * DB) : Store (outcome A) := λ w,
  (Ok (f (db w)).1, upd_db (λ d, (f d).2) w).

(** [std::atomic<size_t>::operator++] *)
Definition incr (n : Z) : Z := ((n + 1) mod 2 ^ 64)%Z.
Definition cacheHit : Store unit := modify (upd_stats (upd_cacheHits incr)).
Definition databaseQuery : Store unit := modify (upd_stats (upd_databaseQueries incr)).
Definition databaseScan : Store unit := modify (upd_stats (upd_databaseScans incr)).

(** [CacheRecord<T>(x, validity)] *)
Definition make_record {T} (x : T) (validity : Z) : Store (CacheRecord.t T) :=
  t ← now; mret (CacheRecord.make x validity t).

(** [if(record)] *)
Definition record_valid {T} (r : CacheRecord.t T) : Store bool :=
  t ← now; mret (CacheRecord.to_bool t r).

(** [CacheRecord<T> record; if(cache.find(k,record)) if(record){ cacheHits++;
    ...return record; }]: the record when it is to be returned. *)
Definition find_cached {T} (cache : World → gmap string (CacheRecord.t T)) (k : string) :
    Store (option T) :=
  c ← gets cache;
  match c !! k with
  | Some r =>
      v ← record_valid r;
      if v : bool then _ ← cacheHit; mret (Some (CacheRecord.record r)) else mret None
  | None => mret None
  end.

(** The same test on a value of a multimap: whether the pair is present with a
    record that has not expired. *)
Definition find_cached_val (cache : World → gmap string (category (CacheRecord.t string)))
    (k v : string) : Store bool :=
  c ← gets cache;
  match mm_find_val k (CacheRecord.stale v) c with
  | Some r =>
      b ← record_valid r;
      if b : bool then _ ← cacheHit; mret true else mret false
  | None => mret false
  end.

(** [replaceCacheRecord(cache, k, v)], and [cuckoohash_map::insert_or_assign] *)
Definition replaceCacheRecord {V} (k : string) (v : V) (cache : gmap string V) : gmap string V :=
  <[k:=v]> cache.

(** [cache.insert_or_assign(k, v)] on a multimap, which reads the clock even
    when the key is present; [upd] is the setter of the cache. *)
Definition multi_insert {V} `{CppEq V}
    (upd : (gmap string (category V) → gmap string (category V)) → World → World)
    (k : string) (v : V) : Store unit :=
  t ← now; modify (upd (λ m, (mm_insert_or_assign t k v m).2)).

(** The macro [maybeReturnCachedCategoryMembers(cache, key)]: the results to
    return when the category is up to date. *)
Definition maybeReturnCachedCategoryMembers {T}
    (cache : World → gmap string (category (CacheRecord.t T))) (key : string) :
    Store (option (list T)) :=
  c ← gets cache;
  t ← now;
  let cached := mm_find key c in
  if (t <? cached.2)%Z then
    rs ← for_filter cached.1 (λ r,
           v ← record_valid r;
           if v : bool then _ ← cacheHit; mret true else mret false);
    mret (Some (CacheRecord.record <$> rs))
  else mret None.

(** [findOrThrow(item, key, err)], [findOrDefault(item, key, missingString)] *)
Definition findOrThrow (it : Item) (key err : string) : Res AV :=
  match it !! key with Some v => Ok v | None => Throw err end.
Definition missingString : AV := AVS " ".
Definition findOrDefault (it : Item) (key : string) : AV :=
  default missingString (it !! key).

(** [item.find(key)->second] without a test: undefined behaviour when the
    attribute is missing, made an error here. *)
Definition find_deref (it : Item) (key : string) : Res AV :=
  findOrThrow it key ("undefined behaviour: end iterator dereferenced for " +:+ key).

(** [findOrThrow(item, key, err).GetS()] and its variants *)
Definition attr_string (it : Item) (key err : string) : Res string :=
  v ← findOrThrow it key err; mret (GetS v).
Definition attr_bool (it : Item) (key err : string) : Res bool :=
  v ← findOrThrow it key err; mret (GetBool v).
Definition attr_blob (it : Item) (key err : string) : Res string :=
  v ← findOrThrow it key err; mret (GetB v).
Definition attr_default (it : Item) (key : string) : string :=
  GetS (findOrDefault it key).

(** The loop [do{ outcome=dbClient.Scan(request); ... }while(keepGoing)] of the
    listing functions: [body] decodes one item and updates the caches. The
    result tells whether the scan was completed; a failed request ends it with
    what was collected so far. [fuel] bounds the number of pages. *)
Fixpoint scan_loop {A} (fuel : nat) (t : Table) (f : Expr) (start : option PageKey)
    (collected : list A) (body : Item → Store A) : Store (list A * bool) :=
  match fuel with
  | O => out_of_fuel
  | S fuel =>
      outcome ← request (Scan t f start);
      match outcome with
      | inl err => mret (collected, false)
      | inr (items, next) =>
          page ← for_collect items body;
          match next with
          | Some _ => scan_loop fuel t f next (collected ++ page) body
          | None => mret (collected ++ page, true)
          end
      end
  end.

(** * Decoding attributes that are present *)

Lemma attr_string_ok (it : Item) key err s :
  it !! key = Some (AVS s) → attr_string it key err = Ok s.
Proof.
  unfold attr_string, findOrThrow. intros ->. unfold mbind, Res_bind, mret, Res_ret.
  by rewrite GetS_AVS.
Qed.

Lemma attr_bool_ok (it : Item) key err b :
  it !! key = Some (AVBool b) → attr_bool it key err = Ok b.
Proof.
  unfold attr_bool, findOrThrow. intros ->. unfold mbind, Res_bind, mret, Res_ret.
  by rewrite GetBool_AVBool.
Qed.

Lemma attr_blob_ok (it : Item) key err s :
  it !! key = Some (AVB s) → attr_blob it key err = Ok s.
Proof.
  unfold attr_blob, findOrThrow. intros ->. unfold mbind, Res_bind, mret, Res_ret.
  by rewrite GetB_AVB.
Qed.

Lemma attr_default_ok (it : Item) key s :
  it !! key = Some (AVS s) → attr_default it key = s.
Proof. unfold attr_default, findOrDefault. intros ->. apply GetS_AVS. Qed.

(** * Proof rules for the primitive steps *)

Lemma wp_gets {A B} (f : World → A) (k : A → Store B) Q w :
  wp (k (f w)) Q w → wp (gets f ≫= k) Q w.
Proof. done. Qed.

Lemma wp_modify {B} f (k : unit → Store B) Q w :
  wp (k tt) Q (f w) → wp (modify f ≫= k) Q w.
Proof. done. Qed.

Lemma wp_now {B} (k : Z → Store B) Q w :
  wp (k (steady (ticks w))) Q (upd_ticks S w) → wp (now ≫= k) Q w.
Proof. done. Qed.

Lemma wp_make_record {T B} (x : T) v (k : CacheRecord.t T → Store B) Q w :
  wp (k (CacheRecord.make x v (steady (ticks w)))) Q (upd_ticks S w) →
  wp (make_record x v ≫= k) Q w.
Proof. done. Qed.

Lemma wp_request {A B} (f : DB → outcome A * DB) (k : outcome A → Store B) Q w :
  (∀ o d', f (db w) = (o, d') → wp (k o) Q (upd_db (λ _, d') w)) →
  wp (request f ≫= k) Q w.
Proof.
  intros Hk. specialize (Hk _ _ (surjective_pairing _)).
  unfold wp, request, mbind, M_bind. simpl. exact Hk.
Qed.

Lemma wp_lift {A B} (r : Res A) (k : A → Store B) Q w :
  (∀ a, r = Ok a → wp (k a) Q w) →
  (∀ e, r = Throw e → Q (Throw e) w) →
  (r = OutOfFuel → Q OutOfFuel w) →
  wp (lift r ≫= k) Q w.
Proof. intros H1 H2 H3. apply wp_bind. destruct r; simpl; [by apply H1|by apply H2|by apply H3]. Qed.

Context `{L : !DynamoLaws}.

Abbreviation table w t := (rows (db w) t).

(** The tables are the same, and the service still available if it was. *)
Definition read_only (w w' : World) : Prop :=
  (∀ t, table w' t = table w t) ∧ (healthy (db w) → healthy (db w')).

(** Moreover time may have passed and the statistics changed, but no cache. *)
Record quiet (w w' : World) : Prop := {
  quiet_ro : read_only w w';
  quiet_ticks : ticks w ≤ ticks w';
  quiet_fs : fs w' = fs w;
  quiet_users : users w' = users w;
  quiet_groups : groups w' = groups w;
  quiet_clusters : clusters w' = clusters w;
  quiet_instances : instances w' = instances w;
  quiet_secrets : secrets w' = secrets w;
  quiet_volumes : volumes w' = volumes w;
  quiet_applications : applicationCache w' = applicationCache w;
}.

#[global] Instance read_only_preorder : PreOrder read_only.
Proof.
  split; [by split|]. intros w1 w2 w3 [H1 H2] [H3 H4].
  split; [intros t; by rewrite H3|auto].
Qed.

#[global] Instance quiet_preorder : PreOrder quiet.
Proof.
  split; [by split|]. intros w1 w2 w3 [] []. split; [by etrans|lia|congruence..].
Qed.

Lemma read_only_db w w' : db w' = db w → read_only w w'.
Proof. intros Hdb. by split; [intros t|]; rewrite Hdb. Qed.

Lemma quiet_stats f w : quiet w (upd_stats f w).
Proof. by split. Qed.
Lemma quiet_tick w : quiet w (upd_ticks S w).
Proof. split; simpl; auto. by apply read_only_db. Qed.

Lemma wp_cacheHit {B} (k : unit → Store B) Q w :
  (∀ w', quiet w w' → wp (k tt) Q w') → wp (cacheHit ≫= k) Q w.
Proof. intros Hk. apply wp_modify, Hk, quiet_stats. Qed.

Lemma wp_databaseQuery {B} (k : unit → Store B) Q w :
  (∀ w', quiet w w' → wp (k tt) Q w') → wp (databaseQuery ≫= k) Q w.
Proof. intros Hk. apply wp_modify, Hk, quiet_stats. Qed.

Lemma wp_databaseScan {B} (k : unit → Store B) Q w :
  (∀ w', quiet w w' → db w' = db w → wp (k tt) Q w') → wp (databaseScan ≫= k) Q w.
Proof. intros Hk. apply wp_modify, Hk; [apply quiet_stats|done]. Qed.

(** Reading a cache: a hit gives the record stored under the key. *)
Lemma wp_find_cached {T B} (cache : World → gmap string (CacheRecord.t T)) key
    (k : option T → Store B) Q w :
  (∀ r w', quiet w w' → cache w !! key = Some r →
    wp (k (Some (CacheRecord.record r))) Q w') →
  (∀ w', quiet w w' → wp (k None) Q w') →
  wp (find_cached cache key ≫= k) Q w.
Proof.
  intros Hs Hn. destruct (cache w !! key) as [r|] eqn:Hr.
  - destruct (CacheRecord.to_bool (steady (ticks w)) r) eqn:Hv.
    + eapply wp_run; [|apply Hs; [|reflexivity]].
      * unfold find_cached, record_valid, mbind, M_bind, gets, now. simpl.
        rewrite Hr. simpl. by rewrite Hv.
      * etrans; [apply quiet_tick|apply quiet_stats].
    + eapply wp_run; [|apply Hn].
      * unfold find_cached, record_valid, mbind, M_bind, gets, now. simpl.
        rewrite Hr. simpl. by rewrite Hv.
      * apply quiet_tick.
  - eapply wp_run; [|by apply Hn].
    unfold find_cached, mbind, M_bind, gets. simpl. by rewrite Hr.
Qed.

(** Reading a record of a multimap: a hit means that the pair is present. *)
Lemma wp_find_cached_val {B} cache key v (k : bool → Store B) Q w :
  (∀ w', quiet w w' → mm_contains key (CacheRecord.stale v) (cache w) = true →
    wp (k true) Q w') →
  (∀ w', quiet w w' → wp (k false) Q w') →
  wp (find_cached_val cache key v ≫= k) Q w.
Proof.
  intros Hs Hn. destruct (mm_find_val key (CacheRecord.stale v) (cache w)) as [r|] eqn:Hr.
  - pose proof (mm_find_val_contains _ _ _ _ Hr) as Hc.
    destruct (CacheRecord.to_bool (steady (ticks w)) r) eqn:Hv.
    + eapply wp_run; [|apply Hs; [|exact Hc]].
      * unfold find_cached_val, record_valid, mbind, M_bind, gets, now. simpl.
        rewrite Hr. simpl. by rewrite Hv.
      * etrans; [apply quiet_tick|apply quiet_stats].
    + eapply wp_run; [|apply Hn].
      * unfold find_cached_val, record_valid, mbind, M_bind, gets, now. simpl.
        rewrite Hr. simpl. by rewrite Hv.
      * apply quiet_tick.
  - eapply wp_run; [|by apply Hn].
    unfold find_cached_val, mbind, M_bind, gets. simpl. by rewrite Hr.
Qed.

(** Reading one item. *)
Lemma wp_GetItem {B} t key (k : outcome Item → Store B) Q w :
  (∀ e w', quiet w w' → ¬ healthy (db w) → wp (k (inl e)) Q w') →
  (∀ w', quiet w w' → wp (k (inr (default ∅ (table w t !! key)))) Q w') →
  wp (request (GetItem t key) ≫= k) Q w.
Proof.
  intros He Ho. apply wp_request. intros o d' Hr.
  assert (Hq : quiet w (upd_db (λ _, d') w)).
  { split; [|done..]. split; simpl.
    - destruct o; [by eapply GetItem_err|by eapply GetItem_ok].
    - intros [Hd _]%(healthy_Get t key). by rewrite Hr in Hd. }
  destruct o as [e|it].
  - apply He; [done|]. intros (_ & it & Hd)%(healthy_Get t key). by rewrite Hr in Hd.
  - apply GetItem_ok in Hr as [-> _]. by apply Ho.
Qed.

(** Querying. *)
Lemma wp_Query {B} t ix kc f (k : outcome (list Item) → Store B) Q w :
  (∀ e w', quiet w w' → ¬ healthy (db w) → wp (k (inl e)) Q w') →
  (∀ l w', quiet w w' → l ≡ₚ query_items t ix kc f (table w t) → wp (k (inr l)) Q w') →
  wp (request (Query t ix kc f) ≫= k) Q w.
Proof.
  intros He Ho. apply wp_request. intros o d' Hr.
  assert (Hq : quiet w (upd_db (λ _, d') w)).
  { split; [|done..]. split; simpl.
    - destruct o; [by eapply Query_err|by eapply Query_ok].
    - intros [Hd _]%(healthy_Query t ix kc f). by rewrite Hr in Hd. }
  destruct o as [e|l].
  - apply He; [done|]. intros (_ & l & Hd)%(healthy_Query t ix kc f). by rewrite Hr in Hd.
  - apply Query_ok in Hr as [Hl _]. by apply Ho.
Qed.

(** The first page of a scan. *)
Lemma wp_Scan_first {B} t f (k : outcome (list Item * option PageKey) → Store B) Q w :
  (∀ e w', quiet w w' → ¬ healthy (db w) → wp (k (inl e)) Q w') →
  (∀ items next w', quiet w w' → (Scan t f None (db w)).1 = inr (items, next) →
    (∀ it, it ∈ items → it ∈ scan_items f (table w t)) →
    (next = None → ∀ it, it ∈ scan_items f (table w t) → it ∈ items) →
    wp (k (inr (items, next))) Q w') →
  wp (request (Scan t f None) ≫= k) Q w.
Proof.
  intros He Ho. apply wp_request. intros o d' Hr.
  assert (Hq : quiet w (upd_db (λ _, d') w)).
  { split; [|done..]. split; simpl.
    - destruct o as [|[]]; [by eapply Scan_err|by eapply Scan_ok].
    - intros [Hd _]%(healthy_Scan t f None). by rewrite Hr in Hd. }
  destruct o as [e|[items next]].
  - apply He; [done|].
    intros (_ & p & Hd)%(healthy_Scan t f None). by rewrite Hr in Hd.
  - destruct (Scan_ok _ _ _ _ _ _ _ Hr) as [_ Hrest].
    apply Ho; [done|by rewrite Hr|..].
    + intros it Hit. rewrite <- (scan_rest_all (db w)).
      destruct next; [destruct Hrest as [-> _]|by rewrite Hrest].
      apply elem_of_app. by left.
    + intros -> it. by rewrite <- (scan_rest_all (db w)), Hrest.
Qed.

(** Everything but the database and the clock is the same. *)
Definition same_caches (w w' : World) : Prop := quiet w (upd_db (λ _, db w) w').

(** The tables after a write to one of them. *)
Definition table_set (t : Table) (m : gmap (string * string) Item) (w w' : World) : Prop :=
  ∀ t', table w' t' = if decide (t' = t) then m else table w t'.

Lemma table_set_same t m w w' : table_set t m w w' → table w' t = m.
Proof. intros Ht. by rewrite Ht, decide_True. Qed.

Lemma table_set_other t m w w' t' : table_set t m w w' → t' ≠ t → table w' t' = table w t'.
Proof. intros Ht Hne. by rewrite Ht, decide_False. Qed.

(** Writing: the request is refused, which a healthy service never does, or
    the row is stored. *)
Lemma wp_PutItem {B} t it key (k : outcome unit → Store B) Q w :
  item_key t it = Some key →
  (∀ e w', quiet w w' → ¬ healthy (db w) → wp (k (inl e)) Q w') →
  (∀ w', same_caches w w' → (healthy (db w) → healthy (db w')) →
    table_set t (<[key:=it]> (table w t)) w w' →
    wp (k (inr tt)) Q w') →
  wp (request (PutItem t it) ≫= k) Q w.
Proof.
  intros Hkey He Ho. apply wp_request. intros o d' Hr.
  assert (Hh : healthy (db w) → healthy d' ∧ o = inr tt).
  { intros [Hd Hok]%(healthy_Put t it). rewrite Hr, Hkey in *. simpl in *. eauto. }
  destruct o as [e|[]].
  - apply He; [|intros Hd; by destruct (Hh Hd)]. split; [|done..].
    split; [by eapply PutItem_err|]. intros Hd. by apply Hh.
  - apply PutItem_ok in Hr as (key' & Hkey' & Hrows). simplify_eq.
    apply Ho; [by split|apply Hh|done].
Qed.

(** Why a conditional write is refused by a healthy service. *)
Definition condition_fails (c : option Expr) (it : Item) : Prop :=
  ∃ e, c = Some e ∧ eval e it = false.
Definition condition_holds (c : option Expr) (it : Item) : Prop :=
  ∀ e, c = Some e → eval e it = true.

Lemma condition_dec c it : condition_fails c it ∨ condition_holds c it.
Proof.
  unfold condition_fails, condition_holds. destruct c as [e|]; [|by right].
  destruct (eval e it) eqn:E; [right|left; eauto]. by intros ? [= <-].
Qed.

Lemma wp_UpdateItem {B} t key u c (k : outcome unit → Store B) Q w :
  (∀ e w', quiet w w' →
    (healthy (db w) → condition_fails c (default ∅ (table w t !! key))) →
    wp (k (inl e)) Q w') →
  (∀ w', same_caches w w' → (healthy (db w) → healthy (db w')) →
    condition_holds c (default ∅ (table w t !! key)) →
    table_set t (<[key := key_item t key ∪ u ∪ default ∅ (table w t !! key)]> (table w t)) w w' →
    wp (k (inr tt)) Q w') →
  wp (request (UpdateItem t key u c) ≫= k) Q w.
Proof.
  intros He Ho. apply wp_request. intros o d' Hr.
  pose proof (healthy_Update t key u c (db w)) as Hh. rewrite Hr in Hh. simpl in Hh.
  destruct o as [e|[]].
  - apply He.
    + split; [|done..]. split; [by eapply UpdateItem_err|]. intros Hd. by apply Hh.
    + intros Hd. destruct (condition_dec c (default ∅ (table w t !! key))) as [?|Hc]; [done|].
      destruct (Hh Hd) as [_ Hok]. by specialize (Hok Hc).
  - apply UpdateItem_ok in Hr as [Hc Hrows].
    apply Ho; [by split|intros Hd; by apply Hh|done|done].
Qed.

Lemma wp_DeleteItem {B} t key c (k : outcome unit → Store B) Q w :
  (∀ e w', quiet w w' →
    (healthy (db w) → condition_fails c (default ∅ (table w t !! key))) →
    wp (k (inl e)) Q w') →
  (∀ w', same_caches w w' → (healthy (db w) → healthy (db w')) →
    condition_holds c (default ∅ (table w t !! key)) →
    table_set t (delete key (table w t)) w w' →
    wp (k (inr tt)) Q w') →
  wp (request (DeleteItem t key c) ≫= k) Q w.
Proof.
  intros He Ho. apply wp_request. intros o d' Hr.
  pose proof (healthy_Delete t key c (db w)) as Hh. rewrite Hr in Hh. simpl in Hh.
  destruct o as [e|[]].
  - apply He.
    + split; [|done..]. split; [by eapply DeleteItem_err|]. intros Hd. by apply Hh.
    + intros Hd. destruct (condition_dec c (default ∅ (table w t !! key))) as [?|Hc]; [done|].
      destruct (Hh Hd) as [_ Hok]. by specialize (Hok Hc).
  - apply DeleteItem_ok in Hr as [Hc Hrows].
    apply Ho; [by split|intros Hd; by apply Hh|done|done].
Qed.

(** One element of a [for] loop at a time: [J] relates the elements treated so
    far, with what was computed from them, to the state. *)
Lemma for_collect_spec {A B} (J : list (A * B) → World → Prop) (body : A → Store B)
    (l : list A) acc w :
  J acc w →
  (∀ x w' acc', x ∈ l → J acc' w' →
    wp (body x) (λ r w'', ∃ y, r = Ok y ∧ J (acc' ++ [(x, y)]) w'') w') →
  wp (for_collect l body)
    (λ r w', ∃ done, r = Ok done.*2 ∧ done.*1 = l ∧ J (acc ++ done) w') w.
Proof.
  intros HJ Hb. revert acc w HJ.
  induction l as [|x l IH]; intros acc w HJ; simpl.
  { exists []. by rewrite app_nil_r. }
  apply wp_bind. eapply wp_mono, Hb; [|by left|done].
  intros r w' (y & -> & HJ'). simpl. apply wp_bind.
  eapply wp_mono, IH; [|intros; apply Hb; [by right|done]|done].
  intros r w'' (done & -> & Hd & HJ''). simpl.
  exists ((x, y) :: done). csimpl. rewrite Hd. by rewrite (cons_middle _ acc), (assoc_L (++)).
Qed.

(** The scanning loop. [J] relates the items decoded so far to the caches; a
    completed loop has decoded every item the scan had to return, and the loop
    stops once the pages are exhausted. *)
Lemma scan_loop_spec {A} (J : list (Item * A) → World → Prop) t f (body : Item → Store A)
    fuel start acc w :
  J acc w →
  pages_left (db w) t f start < fuel →
  (∀ it, it ∈ scan_rest (db w) t f start → it ∈ scan_items f (table w t)) →
  (∀ it w' acc', it ∈ scan_items f (table w t) → J acc' w' →
    wp (body it) (λ r w'', ∃ a, r = Ok a ∧ J (acc' ++ [(it, a)]) w'' ∧ db w'' = db w') w') →
  (∀ acc' w' w'', J acc' w' → quiet w' w'' → J acc' w'') →
  wp (scan_loop fuel t f start acc.*2 body)
    (λ r w', ∃ done complete, r = Ok ((acc ++ done).*2, complete) ∧
      J (acc ++ done) w' ∧ read_only w w' ∧
      if complete : bool then done.*1 = scan_rest (db w) t f start else ¬ healthy (db w)) w.
Proof.
  intros HJ Hp Hin Hb Hq. revert start acc w HJ Hp Hin Hb.
  induction fuel as [|fuel IH]; intros start acc w HJ Hp Hin Hb; [lia|].
  simpl. apply wp_request. intros o d' Hr.
  assert (Hquiet : quiet w (upd_db (λ _, d') w)).
  { split; [|done..]. split; simpl.
    - destruct o as [|[]]; [by eapply Scan_err|by eapply Scan_ok].
    - intros [Hd _]%(healthy_Scan t f start). by rewrite Hr in Hd. }
  pose proof (quiet_ro _ _ Hquiet) as Hro.
  destruct o as [e|[items next]].
  { apply wp_ret. exists [], false. rewrite app_nil_r. split; [done|].
    split; [by eapply Hq|]. split; [done|].
    intros (_ & p & Hd)%(healthy_Scan t f start). by rewrite Hr in Hd. }
  destruct (Scan_ok _ _ _ _ _ _ _ Hr) as [_ Hrest].
  assert (Hsub : ∀ it, it ∈ items → it ∈ scan_rest (db w) t f start).
  { intros it. destruct next; [destruct Hrest as [-> _]|by rewrite Hrest].
    intros. apply elem_of_app. by left. }
  eapply wp_seq.
  { apply (for_collect_spec (λ done w', J (acc ++ done) w' ∧ db w' = d') _ _ []).
    - rewrite app_nil_r. split; [by eapply Hq|done].
    - intros it w' acc' Hit [HJ' <-]. eapply wp_mono, Hb; [|by apply Hin, Hsub|done].
      intros r w'' (a & -> & HJ'' & ->). exists a. by rewrite (assoc_L (++)). }
  2: { by intros e w' (? & ? & _). }
  2: { by intros w' (? & ? & _). }
  simpl. intros page w' (done & Hpage & Hdone & HJ' & Hdb).
  injection Hpage as ->. 
  assert (Hro' : read_only w w').
  { etrans; [exact Hro|]. by apply read_only_db. }
  rewrite <- fmap_app. destruct next as [pk|].
  - destruct Hrest as [Hrest Hless]. eapply wp_mono; [|apply IH].
    + intros r w'' (done' & complete & -> & HJ'' & Hro'' & Hc).
      exists (done ++ done'), complete. rewrite (assoc_L (++)). split; [done|].
      split; [done|]. split; [by etrans|]. destruct complete.
      * by rewrite fmap_app, Hdone, Hc, Hrest, Hdb.
      * intros Hh. by apply Hc, Hro'.
    + done.
    + rewrite Hdb. lia.
    + intros it Hit. rewrite (proj1 Hro'). apply Hin. rewrite Hrest, <- Hdb.
      apply elem_of_app. by right.
    + intros it w'' acc' Hit. apply Hb. by rewrite <- (proj1 Hro').
  - apply wp_ret. exists done, true. by rewrite Hdone.
Qed.

(** Requests that only read leave every table alone. *)
Lemma frame_GetItem t key t' : frame (λ w, table w t') (request (GetItem t key)).
Proof.
  intros w. simpl. destruct (GetItem t key (db w)) as [[e|it] d'] eqn:E; simpl.
  - eapply GetItem_err; eauto.
  - eapply GetItem_ok; eauto.
Qed.

Lemma frame_Query t ix kc f t' : frame (λ w, table w t') (request (Query t ix kc f)).
Proof.
  intros w. simpl. destruct (Query t ix kc f (db w)) as [[e|it] d'] eqn:E; simpl.
  - eapply Query_err; eauto.
  - eapply Query_ok; eauto.
Qed.

Lemma frame_Scan t f start t' : frame (λ w, table w t') (request (Scan t f start)).
Proof.
  intros w. simpl. destruct (Scan t f start (db w)) as [[e|[l n]] d'] eqn:E; simpl.
  - eapply Scan_err; eauto.
  - eapply Scan_ok; eauto.
Qed.

(** Requests on another table. *)
Lemma frame_PutItem t it t' :
  t' ≠ t → frame (λ w, table w t') (request (PutItem t it)).
Proof.
  intros Hne w. simpl. destruct (PutItem t it (db w)) as [[e|[]] d'] eqn:E; simpl.
  - eapply PutItem_err; eauto.
  - apply PutItem_ok in E as (k & _ & E). by rewrite E, decide_False.
Qed.

Lemma frame_UpdateItem t key u c t' :
  t' ≠ t → frame (λ w, table w t') (request (UpdateItem t key u c)).
Proof.
  intros Hne w. simpl. destruct (UpdateItem t key u c (db w)) as [[e|[]] d'] eqn:E; simpl.
  - eapply UpdateItem_err; eauto.
  - apply UpdateItem_ok in E as [_ E]. by rewrite E, decide_False.
Qed.

Lemma frame_DeleteItem t key c t' :
  t' ≠ t → frame (λ w, table w t') (request (DeleteItem t key c)).
Proof.
  intros Hne w. simpl. destruct (DeleteItem t key c (db w)) as [[e|[]] d'] eqn:E; simpl.
  - eapply DeleteItem_err; eauto.
  - apply DeleteItem_ok in E as [_ E]. by rewrite E, decide_False.
Qed.

(** The primitive steps leave the members of the store they do not name alone. *)
Section frames.
Context {X : Type} (f : World → X).
Hypothesis f_ticks : ∀ h w, f (upd_ticks h w) = f w.
Hypothesis f_stats : ∀ h w, f (upd_stats h w) = f w.
Hypothesis f_db : ∀ h w, f (upd_db h w) = f w.

Lemma frame_now : frame f now.
Proof. intros w. apply f_ticks. Qed.
Lemma frame_request {A} (g : DB → outcome A * DB) : frame f (request g).
Proof. intros w. apply f_db. Qed.
Lemma frame_cacheHit : frame f cacheHit.
Proof. intros w. apply f_stats. Qed.
Lemma frame_databaseQuery : frame f databaseQuery.
Proof. intros w. apply f_stats. Qed.
Lemma frame_databaseScan : frame f databaseScan.
Proof. intros w. apply f_stats. Qed.
Lemma frame_make_record {T} (x : T) v : frame f (make_record x v).
Proof. intros w. apply f_ticks. Qed.
Lemma frame_record_valid {T} (r : CacheRecord.t T) : frame f (record_valid r).
Proof. intros w. apply f_ticks. Qed.

Lemma frame_find_cached {T} (cache : World → gmap string (CacheRecord.t T)) k :
  frame f (find_cached cache k).
Proof.
  apply frame_bind; [apply frame_gets|]. intros c. destruct (c !! k); [|apply frame_ret].
  apply frame_bind; [apply frame_record_valid|]. intros []; [|apply frame_ret].
  apply frame_bind; [apply frame_cacheHit|]. intros. apply frame_ret.
Qed.

Lemma frame_find_cached_val cache k v : frame f (find_cached_val cache k v).
Proof.
  apply frame_bind; [apply frame_gets|]. intros c.
  destruct (mm_find_val _ _ _); [|apply frame_ret].
  apply frame_bind; [apply frame_record_valid|]. intros []; [|apply frame_ret].
  apply frame_bind; [apply frame_cacheHit|]. intros. apply frame_ret.
Qed.

Lemma frame_multi_insert {V} `{CppEq V} upd k (v : V) :
  (∀ h w, f (upd h w) = f w) → frame f (multi_insert upd k v).
Proof.
  intros Hu. apply frame_bind; [apply frame_now|]. intros t. apply frame_modify.
  intros w. apply Hu.
Qed.
End frames.

(** A computation that looks things up: whatever it returns, it only reads the database,
    and it keeps the invariant [I], which is about the caches and the database. *)
Definition keeps (I : World → Prop) {A} (m : Store A) : Prop :=
  ∀ w, I w → I (m w).2 ∧ read_only w (m w).2.

Section keeps.
Context (I : World → Prop).
Local Abbreviation keeps := (keeps I).

Lemma keeps_ret {A} (a : A) : keeps (mret a).
Proof. by intros w Hi. Qed.
Lemma keeps_lift {A} (r : Res A) : keeps (lift r).
Proof. by intros w Hi. Qed.
Lemma keeps_bind {A B} (m : Store A) (k : A → Store B) :
  keeps m → (∀ a, keeps (k a)) → keeps (m ≫= k).
Proof.
  intros Hm Hk w Hi. destruct (Hm w Hi) as [Hi1 Hr1]. unfold mbind, M_bind.
  destruct (m w) as [[a|e|] w1]; simpl in *; [|done..].
  destruct (Hk a w1 Hi1) as [Hi2 Hr2]. split; [done|by etrans].
Qed.
Lemma keeps_for_collect {A B} (l : list A) (body : A → Store B) :
  (∀ x, keeps (body x)) → keeps (for_collect l body).
Proof.
  intros Hb. induction l as [|x l IH]; simpl; [apply keeps_ret|].
  apply keeps_bind; [done|]. intros y. apply keeps_bind; [done|]. intros ys. apply keeps_ret.
Qed.
Lemma keeps_for_filter {A} (l : list A) test :
  (∀ x, keeps (test x)) → keeps (for_filter l test).
Proof.
  intros Hb. induction l as [|x l IH]; simpl; [apply keeps_ret|].
  apply keeps_bind; [done|]. intros y. apply keeps_bind; [done|]. intros ys. apply keeps_ret.
Qed.
Lemma keeps_wp {A} (m : Store A) (Q : World → Res A → Prop) :
  (∀ w, I w → wp m (λ r w', I w' ∧ read_only w w' ∧ Q w r) w) → keeps m.
Proof. intros Hm w Hi. destruct (Hm w Hi) as (? & ? & _). done. Qed.

Context (I_quiet : ∀ w w', quiet w w' → I w → I w').

Lemma keeps_quiet {A} (m : Store A) : (∀ w, quiet w (m w).2) → keeps m.
Proof. intros Hm w Hi. split; [by eapply I_quiet, Hi; apply Hm|apply Hm]. Qed.

Lemma keeps_query t ix kc f : keeps (request (Query t ix kc f)).
Proof.
  apply keeps_quiet. intros w. simpl. split; [|done..]. simpl. split; simpl.
  - destruct (Query t ix kc f (db w)) as [[e|l] d'] eqn:E; simpl;
      [by eapply Query_err|by eapply Query_ok].
  - intros [Hd _]%(healthy_Query t ix kc f). done.
Qed.

Lemma keeps_databaseQuery : keeps databaseQuery.
Proof. apply keeps_quiet. intros w. apply quiet_stats. Qed.
Lemma keeps_cacheHit : keeps cacheHit.
Proof. apply keeps_quiet. intros w. apply quiet_stats. Qed.
Lemma keeps_now : keeps now.
Proof. apply keeps_quiet. intros w. apply quiet_tick. Qed.

Lemma keeps_gets {A} (g : World → A) : keeps (gets g).
Proof. by intros w Hi. Qed.
Lemma keeps_make_record {T} (x : T) v : keeps (make_record x v).
Proof. apply keeps_bind; [apply keeps_now|]. intros time. apply keeps_ret. Qed.
Lemma keeps_find_cached {T} (cache : World → gmap string (CacheRecord.t T)) k :
  keeps (find_cached cache k).
Proof.
  apply keeps_bind; [apply keeps_gets|]. intros c. case_match; [|apply keeps_ret].
  apply keeps_bind; [apply keeps_bind; [apply keeps_now|]; intros time; apply keeps_ret|].
  intros [|]; [|apply keeps_ret].
  apply keeps_bind; [apply keeps_cacheHit|]. intros _. apply keeps_ret.
Qed.
Lemma keeps_GetItem t key : keeps (request (GetItem t key)).
Proof.
  apply keeps_quiet. intros w. split; [|done..]. split; simpl.
  - destruct (GetItem t key (db w)) as [[e|it] d'] eqn:E; simpl;
      [by eapply GetItem_err|by eapply GetItem_ok].
  - intros [Hd _]%(healthy_Get t key). done.
Qed.
End keeps.

(** What the removal of the record under a key does: [holds w x] says that [x] is stored. *)
Definition removed_post {T} (Inv : World → Prop) (t : Table) (holds : World → T → Prop)
    (id : T → string) (key : string) (w : World) (r : Res bool) (w' : World) : Prop :=
  Inv w' ∧ (healthy (db w) → healthy (db w')) ∧
  (∀ t', t' ≠ t → table w' t' = table w t') ∧
  match r with
  | Ok true => ∀ x, holds w' x ↔ holds w x ∧ id x ≠ key
  | Ok false => ¬ healthy (db w) ∧ ∀ x, holds w' x ↔ holds w x
  | _ => False
  end.

Lemma wp_frame {X A} (f : World → X) (m : Store A) Q w :
  frame f m → wp m Q w → wp m (λ r w', Q r w' ∧ f w' = f w) w.
Proof. intros Hf Hm. split; [exact Hm|apply Hf]. Qed.
End world.
Abbreviation table w t := (rows (db w) t).

#[export] Hint Extern 3 (frame _ _) =>
  first [ apply frame_now | apply frame_request | apply frame_cacheHit
        | apply frame_databaseQuery | apply frame_databaseScan | apply frame_make_record
        | apply frame_record_valid | apply frame_find_cached | apply frame_find_cached_val
        | apply frame_multi_insert ]; intros; reflexivity : slate.
#[export] Hint Resolve frame_GetItem frame_Query frame_Scan : slate.
#[export] Hint Extern 2 (frame _ (request (PutItem _ _))) =>
  apply frame_PutItem; discriminate : slate.
#[export] Hint Extern 2 (frame _ (request (UpdateItem _ _ _ _))) =>
  apply frame_UpdateItem; discriminate : slate.
#[export] Hint Extern 2 (frame _ (request (DeleteItem _ _ _))) =>
  apply frame_DeleteItem; discriminate : slate.

(** Minutes in nanoseconds, and the validity of the cached records. *)
Definition minutes (n : Z) : Z := (n * 60 * 10 ^ 9)%Z.
Definition userCacheValidity : Z := minutes 5.
Definition groupCacheValidity : Z := minutes 30.
Definition clusterCacheValidity : Z := minutes 30.
Definition instanceCacheValidity : Z := minutes 5.
Definition secretCacheValidity : Z := minutes 5.
Definition volumeCacheValidity : Z := minutes 5.

(** [PersistentStore::wildcard] and [PersistentStore::wildcardName] *)
Definition wildcard : string := "*".
Definition wildcardName : string := "<all>".
