(* ===== verification/Demo.v ===== *)
(** A server to run the witnesses of the theorems on: the in-memory database, a
    clock that advances by one nanosecond at each reading, temporary files that
    can always be written, and empty caches. *)

From S2P Require Import Prelude Entities Cache Dynamo Store.

Module Demo.
#[export] Existing Instances Mem.attributes Mem.dynamo Mem.laws.

#[export] Instance doubles : Doubles := {
  double := Z;
  double_eq_dec := Z.eq_dec;
  show_double z := if bool_decide (z = 0%Z) then "0" else "1";
  read_double s :=
    match s with
    | String "0" rest => Some (0%Z, rest)
    | String "1" rest => Some (1%Z, rest)
    | _ => None
    end }.

#[export] Program Instance doubles_laws : DoublesLaws := {
  exact z := z = 0%Z ∨ z = 1%Z }.
Next Obligation. by intros d s [->| ->] _. Qed.

(** The files are a list of paths and contents; a new path is longer than the others. *)
Fixpoint marks (n : nat) : string := match n with O => "" | S n => String "0" (marks n) end.
Definition longest (files : list (string * string)) : nat :=
  foldr (λ file n, max (str_size file.1) n) 0 files.

#[export] Instance platform : Platform := {
  platform_doubles := doubles;
  FS := list (string * string);
  clusterConfigDir := "/var/tmp/slate_000000";
  write_temp prefix contents files :=
    let path := prefix +:+ marks (S (longest files)) in
    (inr path, (path, contents) :: files);
  steady n := (Z.of_nat n + 1)%Z }.

Lemma longest_assoc files p : longest files < str_size p → assoc p files = None.
Proof.
  induction files as [|[q c] files IH]; simpl; [done|]. intros Hlt.
  rewrite bool_decide_false by (intros ->; lia). apply IH. lia.
Qed.

Lemma marks_size n : str_size (marks n) = n.
Proof. induction n; simpl; congruence. Qed.

#[export] Program Instance disk : DiskLaws := {
  disk_ok _ := True;
  file_contents files path := assoc path files }.
Next Obligation.
  intros prefix contents files _. eexists _, _. split; [reflexivity|]. split; [done|].
  split; [|split; simpl; [by rewrite bool_decide_true|]].
  - apply longest_assoc. rewrite str_size_app. simpl. rewrite marks_size. lia.
  - intros p Hp. by rewrite bool_decide_false.
Qed.

#[export] Instance clock : ClockLaws.
Proof. split; simpl; lia. Qed.

(** The state of a server that has just started on the database [d]. *)
Definition start (d : Mem.db) : World :=
  mkWorld d [] 0 (mkStats 0 0 0)
    (mkUserCaches 0 ∅ ∅ ∅ ∅)
    (mkGroupCaches 0 ∅ ∅ ∅)
    (mkClusterCaches _ 0 ∅ ∅ ∅ ∅ ∅ ∅ ∅ ∅)
    (mkInstanceCaches 0 ∅ ∅ ∅ ∅ ∅ ∅)
    (mkSecretCaches ∅ ∅ ∅)
    (mkVolumeCaches 0 ∅ ∅ ∅ ∅)
    ∅.

(** A database with nothing in it, whose scans return pages of two items. *)
Definition empty : World := start (Mem.empty_db 1).

Lemma empty_table t : rows (db empty) t = ∅.
Proof. done. Qed.

Lemma pages d t f : pages_left d t f None = length (Mem.scan_list d t f None).
Proof. done. Qed.

(** To know a run it is enough to compute its result. *)
Lemma run_result {A B} (p : A * B) a : p.1 = a → p = (a, p.2).
Proof. destruct p. by intros <-. Qed.

Lemma healthy_empty : healthy (db empty).
Proof. done. Qed.
End Demo.
