(* ===== verification/Kubernetes.v ===== *)
(** The interface to kubectl and helm (src/KubeInterface.cpp), and the temporary files the
    handlers give to them (src/FileHandle.cpp). Running a command is the work of other
    programs, and part of the operating system: a parameter, as the other things the
    system does. *)

From S2P Require Import Prelude Text Entities Cache Dynamo Store Demo.

(** * Processes and files *)

Record commandResult := mkCommandResult { output : string; error : string; status : Z }.

Inductive WriteError := CannotOpen | CannotWrite.

(** [runCommand(command,args,env)] - the message when the process cannot be started or
    read from - [makeTemporaryFile(nameBase)], writing a text to an [std::ofstream],
    the removal in [~FileHandle], and [timestamp()]. *)
Class Processes `{Platform} := {
  runCommand : string → list string → list (string * string) → FS →
    (string + commandResult) * FS;
  makeTemporaryFile : string → FS → (string + string) * FS;
  write_file : string → string → FS → option WriteError * FS;
  remove_file : string → FS → FS;
  timestamp : FS → string;
}.

(** The files of [file_contents] are those the server makes: kubectl and helm leave them
    alone, a temporary file is new, and writing and removing it concern no other file. *)
Class ProcessLaws `{DL : DiskLaws} `{PR : !Processes} : Prop := {
  command_files : ∀ c args env f, disk_ok f →
    disk_ok (runCommand c args env f).2 ∧
    ∀ p, file_contents (runCommand c args env f).2 p = file_contents f p;
  temporary_file_ok : ∀ base f, disk_ok f → ∃ path f',
    makeTemporaryFile base f = (inr path, f') ∧ disk_ok f' ∧ file_contents f path = None ∧
    is_Some (file_contents f' path) ∧ ∀ p, p ≠ path → file_contents f' p = file_contents f p;
  write_file_files : ∀ path s f, disk_ok f →
    disk_ok (write_file path s f).2 ∧
    ∀ p, p ≠ path → file_contents (write_file path s f).2 p = file_contents f p;
  write_file_ok : ∀ path s f, disk_ok f → is_Some (file_contents f path) →
    (write_file path s f).1 = None ∧ file_contents (write_file path s f).2 path = Some s;
  remove_file_ok : ∀ path f, disk_ok f →
    disk_ok (remove_file path f) ∧ file_contents (remove_file path f) path = None ∧
    ∀ p, p ≠ path → file_contents (remove_file path f) p = file_contents f p;
}.

Section kubernetes.
Context `{D : Dynamo} `{P : Platform} `{PR : !Processes}.

(** A step of the operating system. *)
Definition system {A} (f : FS → A * FS) : Store A := λ w, (Ok (f (fs w)).1, upd_fs (λ s, (f s).2) w).

Definition run (command : string) (args : list string) (env : list (string * string)) :
    Store commandResult :=
  r ← system (runCommand command args env);
  match r with inl e => throw e | inr result => mret result end.

(** [auto file=makeTemporaryFile(base); ...]: the file is removed at the end of its scope,
    unless the process has ended within. *)
Definition with_temporary {A} (alive : A → bool) (base : string) (k : string → Store A) :
    Store A :=
  r ← system (makeTemporaryFile base);
  match r with
  | inl e => throw e
  | inr path => λ w,
      let '(r, w') := k path w in
      match r with
      | Ok a => (r, if alive a then upd_fs (remove_file path) w' else w')
      | _ => (r, upd_fs (remove_file path) w')
      end
  end.

(** A loop that stops within its fuel. *)
Definition stops {A} (o : option A) : Store A :=
  lift (match o with Some a => Ok a | None => OutOfFuel end).

(** A failed assertion ends the process. *)
Definition asserted {A} (o : option A) : Store A :=
  lift (match o with Some a => Ok a | None => Throw "assertion failed" end).

(** Only exceptions of type [std::runtime_error] are caught; a missing key of a cuckoo
    hash map and a position outside of a string are none, and what is undefined or the end of
    the process is not caught. *)
Definition runtime_error (what : string) : bool :=
  negb (bool_decide (what = "key not found in table"))
  && negb (begins_with what "undefined behaviour") && negb (begins_with what "basic_string::")
  && negb (bool_decide (what = "assertion failed")).

Definition try_catch {A} (m : Store A) (handler : string → Store A) : Store A := λ w,
  match m w with
  | (Throw e, w') => if runtime_error e then handler e w' else (Throw e, w')
  | p => p
  end.

(** * kubectl *)

Definition kubectl (configPath : string) (arguments : list string) : Store commandResult :=
  let fullArgs := "--request-timeout=10s"
    :: (if str_empty configPath then [] else ["--kubeconfig=" +:+ configPath]) ++ arguments in
  result ← run "kubectl" fullArgs [];
  out ← stops (removeShellEscapeSequences (output result));
  err ← stops (removeShellEscapeSequences (error result));
  mret (mkCommandResult out err (status result)).

Definition getControllerVersion (clusterConfig : string) : Store Z :=
  result ← run "kubectl" ["--kubeconfig"; clusterConfig; "get"; "crd"; "clusternss.slateci.io"] [];
  mret (match str_find "CREATED AT" (output result) with Some _ => 2 | None => 1 end)%Z.

Definition kubectl_create_namespace (clusterConfig : string) (group : Group.t) : Store unit :=
  version ← getControllerVersion clusterConfig;
  let input :=
    if (version =? 1)%Z then
      join newline ["apiVersion: nrp-nautilus.io/v1alpha1"; "kind: ClusterNamespace";
                    "metadata:"; "  name: " +:+ Group.namespaceName group]
    else
      join newline ["apiVersion: slateci.io/v1alpha2"; "kind: ClusterNS";
                    "metadata:"; "  name: " +:+ Group.namespaceName group] in
  with_temporary (λ _, true) "namespace_yaml_" (λ tmpFile,
    _ ← system (write_file tmpFile input);
    result ← run "kubectl" ["--kubeconfig"; clusterConfig; "create"; "-f"; tmpFile] [];
    if negb (status result =? 0)%Z then
      match str_find "AlreadyExists" (error result) with
      | None => throw ("Namespace creation failed: " +:+ error result)
      | Some _ => mret tt
      end
    else mret tt).

Definition kubectl_delete_namespace (clusterConfig : string) (group : Group.t) : Store unit :=
  version ← getControllerVersion clusterConfig;
  result ← run "kubectl"
    ["--kubeconfig"; clusterConfig; "delete";
     if (version =? 1)%Z then "clusternamespace" else "clusterNS"; Group.namespaceName group] [];
  if negb (status result =? 0)%Z then
    match str_find "NotFound" (error result) with
    | None => throw ("Namespace deletion failed: " +:+ error result)
    | Some _ => mret tt
    end
  else mret tt.

(** * helm *)

(** [std::stoul(s)]: [None] when it throws. *)
Definition stoul (s : string) : option Z :=
  let s := str_drop (default (str_size s) (find_first (λ c, negb (isspace c)) s)) s in
  let '(negative, s) :=
    match s with
    | String c s' => if char_is "-"%char c then (true, s')
                     else if char_is "+"%char c then (false, s') else (false, s)
    | EmptyString => (false, s)
    end in
  let n := default (str_size s) (find_first (λ c, negb (isdigit c)) s) in
  let v := decimal 0 (str_take n s) in
  if (n =? 0) || (2 ^ 64 <=? v)%Z then None
  else Some (if negative : bool then (- v) mod 2 ^ 64 else v)%Z.

Definition version_markers : list string := ["SemVer:" +:+ dquote +:+ "v"; "Version:" +:+ dquote +:+ "v"].

(** The first marker a line has, and its position. *)
Fixpoint find_marker (markers : list string) (line : string) : option (string * nat) :=
  match markers with
  | [] => None
  | marker :: markers =>
      match str_find marker line with
      | Some pos => Some (marker, pos)
      | None => find_marker markers line
      end
  end.

(** What a line of the output of [helm version] says: nothing, or a version or an error. *)
Definition line_version (line : string) : option (option Z) :=
  if begins_with line "Server: " then None else
  match find_marker version_markers line with
  | None => None
  | Some (marker, pos) =>
      let startPos := pos + str_size marker in
      if str_size line - 1 <=? startPos then None else
      let digits := match str_find_char "."%char (startPos + 1) line with
                    | Some endPos => str_substr startPos (endPos - startPos) line
                    | None => str_drop startPos line
                    end in
      Some ((λ v, v mod 2 ^ 32)%Z <$> stoul digits)
  end.

(** The last version counts; a bad one ends the search. *)
Fixpoint last_version (helmMajorVersion : Z) (lines : list string) : option Z :=
  match lines with
  | [] => Some helmMajorVersion
  | line :: lines =>
      match line_version line with
      | None => last_version helmMajorVersion lines
      | Some None => None
      | Some (Some v) => last_version v lines
      end
  end.

Definition getHelmMajorVersion : Store Z :=
  result ← run "helm" ["version"] [];
  match last_version 0 (getlines newline (output result) "") with
  | None => throw "Unable to extract helm version"
  | Some v => if (v =? 0)%Z then throw "Unable to extract helm version" else mret v
  end.

Definition helm (configPath tillerNamespace : string) (arguments : list string) :
    Store commandResult :=
  version ← getHelmMajorVersion;
  let fullArgs := (if (version =? 2)%Z
    then ["--tiller-namespace=" +:+ tillerNamespace; "--tiller-connection-timeout=10"] else [])
    ++ arguments in
  run "helm" fullArgs [("KUBECONFIG", configPath)].
End kubernetes.

(** What helm 2 and helm 3 print; the line of the server is left out. *)
Example helm_versions :
  last_version 0 ["Client: &version.Version{SemVer:" +:+ dquote +:+ "v2.14.3" +:+ dquote;
                  "Server: &version.Version{SemVer:" +:+ dquote +:+ "v2.9.1" +:+ dquote] = Some 2%Z ∧
  last_version 0 ["version.BuildInfo{Version:" +:+ dquote +:+ "v3.5.4" +:+ dquote] = Some 3%Z ∧
  last_version 0 ["Error: could not find tiller"] = Some 0%Z.
Proof. vm_compute. done. Qed.

(** * What the tools leave alone *)

Section effects.
Context `{D : Dynamo} `{P : Platform} `{PR : !Processes}.

(** The state of the process itself. *)
Definition inside (w : World) :=
  (db w, ticks w, stats w, users w, groups w, clusters w, instances w, secrets w, volumes w,
   applicationCache w).

Lemma frame_system {A} (f : FS → A * FS) : frame inside (system f).
Proof. done. Qed.

Lemma frame_stops {X A} (f : World → X) (o : option A) : frame f (stops o).
Proof. done. Qed.

Lemma frame_with_temporary {A} (alive : A → bool) base k :
  (∀ path, frame inside (k path)) → frame inside (with_temporary alive base k).
Proof.
  intros Hk. apply frame_bind; [apply frame_system|]. intros [e|path]; [done|]. intros w.
  specialize (Hk path w). destruct (k path w) as [[a|e|] w']; simpl in *; [|done..].
  by destruct (alive a).
Qed.

Lemma frame_try {X A} (f : World → X) (m : Store A) h :
  frame f m → (∀ e, frame f (h e)) → frame f (try_catch m h).
Proof.
  intros Hm Hh w. specialize (Hm w). unfold try_catch.
  destruct (m w) as [[a|e|] w1]; simpl in *; [done| |done].
  destruct (runtime_error e); [|done]. by rewrite Hh.
Qed.

Local Hint Resolve frame_system frame_stops frame_with_temporary frame_try : slate.

Lemma frame_run c args env : frame inside (run c args env).
Proof. unfold run. solve_frame. Qed.
Local Hint Resolve frame_run : slate.

Lemma frame_kubectl configPath args : frame inside (kubectl configPath args).
Proof. unfold kubectl. solve_frame. Qed.
Lemma frame_getControllerVersion config : frame inside (getControllerVersion config).
Proof. unfold getControllerVersion. solve_frame. Qed.
Local Hint Resolve frame_getControllerVersion : slate.
Lemma frame_create_namespace config g : frame inside (kubectl_create_namespace config g).
Proof.
  unfold kubectl_create_namespace. apply frame_bind; [auto with slate|]. intros v. cbv zeta.
  apply frame_with_temporary. intros path. solve_frame.
Qed.
Lemma frame_delete_namespace config g : frame inside (kubectl_delete_namespace config g).
Proof. unfold kubectl_delete_namespace. solve_frame. Qed.
Lemma frame_getHelmMajorVersion : frame inside getHelmMajorVersion.
Proof. unfold getHelmMajorVersion. solve_frame. Qed.
Local Hint Resolve frame_getHelmMajorVersion : slate.
Lemma frame_helm configPath tiller args : frame inside (helm configPath tiller args).
Proof. unfold helm. solve_frame. Qed.

Context `{DL : !DiskLaws} `{PL : !ProcessLaws}.

(** A computation that leaves the files as they are, apart from [paths], unless the
    process ends within. *)
Definition tidy {A} (paths : list string) (alive : A → bool) (m : Store A) : Prop := ∀ w,
  disk_ok (fs w) → disk_ok (fs (m w).2) ∧
  (match (m w).1 with Ok a => alive a = true | _ => True end →
   ∀ p, p ∉ paths → file_contents (fs (m w).2) p = file_contents (fs w) p).

Lemma tidy_frame {A} paths alive (m : Store A) : frame fs m → tidy paths alive m.
Proof. intros Hf w Hd. by rewrite (Hf w). Qed.

Lemma tidy_bind {A B} paths alive (m : Store A) (k : A → Store B) :
  tidy paths (λ _, true) m → (∀ a, tidy paths alive (k a)) → tidy paths alive (m ≫= k).
Proof.
  intros Hm Hk w Hd. destruct (Hm w Hd) as [Hd1 H1]. unfold mbind, M_bind.
  destruct (m w) as [[a|e|] w1]; simpl in *; [|by auto..].
  destruct (Hk a w1 Hd1) as [Hd2 H2]. split; [done|]. intros Hr p Hp.
  rewrite H2 by done. by apply H1.
Qed.

Lemma tidy_system {A} paths (f : FS → A * FS) :
  (∀ s, disk_ok s → disk_ok (f s).2 ∧
    ∀ p, p ∉ paths → file_contents (f s).2 p = file_contents s p) →
  tidy paths (λ _, true) (system f).
Proof. intros Hf w Hd. simpl. destruct (Hf _ Hd) as [H1 H2]. split; [done|]. auto. Qed.

Lemma tidy_with_temporary {A} paths (alive : A → bool) base k :
  (∀ path, tidy (path :: paths) alive (k path)) → tidy paths alive (with_temporary alive base k).
Proof.
  intros Hk w Hd. unfold with_temporary, mbind, M_bind, system.
  destruct (temporary_file_ok base (fs w) Hd) as (path & f & Heq & Hd1 & Hn & _ & Hf).
  rewrite Heq. simpl. set (w1 := upd_fs _ w).
  assert (Hfs : fs w1 = f) by (unfold w1; simpl; by rewrite Heq).
  destruct (Hk path w1) as [Hd2 H2]; [by rewrite Hfs|].
  destruct (k path w1) as [r w2]. simpl in *.
  assert (Hdone : (match r with Ok a => alive a = true | _ => True end) →
    disk_ok (remove_file path (fs w2)) ∧
    ∀ p, p ∉ paths → file_contents (remove_file path (fs w2)) p = file_contents (fs w) p).
  { intros Hr. destruct (remove_file_ok path (fs w2) Hd2) as (? & Hrm & Hkeep). split; [done|].
    intros p Hp. destruct (decide (p = path)) as [->|Hne]; [by rewrite Hrm, Hn|].
    rewrite Hkeep, H2, Hfs by (try done; by rewrite not_elem_of_cons). by apply Hf. }
  destruct r as [a|e|]; [destruct (alive a) eqn:Ha|..]; simpl in *.
  all: try (split; [by apply Hdone|intros _; by apply Hdone]).
  split; [done|]. intros Hal. congruence.
Qed.

Lemma tidy_run paths c args env : tidy paths (λ _, true) (run c args env).
Proof.
  apply tidy_bind; [|intros []; by apply tidy_frame]. apply tidy_system. intros s Hd.
  destruct (command_files c args env s Hd). auto.
Qed.

Lemma tidy_getHelmMajorVersion paths : tidy paths (λ _, true) getHelmMajorVersion.
Proof.
  apply tidy_bind; [apply tidy_run|]. intros r. apply tidy_frame. by repeat case_match.
Qed.

Lemma tidy_helm paths configPath tiller args : tidy paths (λ _, true) (helm configPath tiller args).
Proof. apply tidy_bind; [apply tidy_getHelmMajorVersion|]. intros v. apply tidy_run. Qed.

Lemma tidy_write {A} path paths (alive : A → bool) s (k : option WriteError → Store A) :
  (∀ r, tidy (path :: paths) alive (k r)) →
  tidy (path :: paths) alive (r ← system (write_file path s); k r).
Proof.
  intros Hk. apply tidy_bind; [|done]. apply tidy_system. intros f Hd.
  destruct (write_file_files path s f Hd) as [? Hp]. split; [done|]. intros p [Hne _]%not_elem_of_cons.
  by apply Hp.
Qed.

Lemma tidy_kubectl paths configPath args : tidy paths (λ _, true) (kubectl configPath args).
Proof.
  apply tidy_bind; [apply tidy_run|]. intros r. apply tidy_bind; [by apply tidy_frame|].
  intros out. apply tidy_bind; [by apply tidy_frame|]. intros err. by apply tidy_frame.
Qed.

Lemma tidy_create_namespace paths config g :
  tidy paths (λ _, true) (kubectl_create_namespace config g).
Proof.
  apply tidy_bind.
  { apply tidy_bind; [apply tidy_run|]. intros r. by apply tidy_frame. }
  intros version. apply tidy_with_temporary. intros path. apply tidy_write. intros _.
  apply tidy_bind; [apply tidy_run|]. intros r. repeat case_match; by apply tidy_frame.
Qed.

(** Nothing here runs out of fuel. *)
Lemma run_ends c args env w : (run c args env w).1 ≠ OutOfFuel.
Proof.
  unfold run, mbind, M_bind, system. simpl. by destruct (runCommand c args env (fs w)).1.
Qed.

Lemma getHelmMajorVersion_ends w : (getHelmMajorVersion w).1 ≠ OutOfFuel.
Proof.
  unfold getHelmMajorVersion, mbind, M_bind. pose proof (run_ends "helm" ["version"] [] w) as Hr.
  destruct (run "helm" ["version"] [] w) as [[r|e|] w1]; [|done..]. by repeat case_match.
Qed.

Lemma helm_ends configPath tiller args w : (helm configPath tiller args w).1 ≠ OutOfFuel.
Proof.
  unfold helm, mbind, M_bind. pose proof (getHelmMajorVersion_ends w) as Hv.
  destruct (getHelmMajorVersion w) as [[v|e|] w1]; [apply run_ends|done..].
Qed.

Lemma kubectl_ends configPath args w : (kubectl configPath args w).1 ≠ OutOfFuel.
Proof.
  unfold kubectl, run, mbind, M_bind, stops, lift, system. simpl.
  destruct (runCommand _ _ _ _) as [[e|r] f]; simpl; [done|].
  by rewrite !(proj1 (removeShellEscapeSequences_equiv _)).
Qed.
Lemma tidy_try {A} paths (m : Store A) h :
  tidy paths (λ _, true) m → (∀ e, tidy paths (λ _, true) (h e)) →
  tidy paths (λ _, true) (try_catch m h).
Proof.
  intros Hm Hh w Hd. destruct (Hm w Hd) as [Hd1 H1]. unfold try_catch.
  destruct (m w) as [[a|e|] w1]; simpl in *; [done| |done].
  destruct (runtime_error e); [|done]. destruct (Hh e w1 Hd1) as [Hd2 H2]. split; [done|].
  intros Hr p Hp. rewrite H2 by done. by apply H1.
Qed.

End effects.

#[export] Hint Resolve frame_system frame_stops frame_with_temporary frame_run frame_kubectl
  frame_getControllerVersion frame_create_namespace frame_delete_namespace
  frame_getHelmMajorVersion frame_helm : slate.

(** Tools to run the witnesses with: every command succeeds and says nothing. *)
Module DemoTools.
Import Demo.

(** Every command prints [out] and ends well. *)
Definition printing (out : string) : Processes := {|
  runCommand c args env files := (inr (mkCommandResult out "" 0), files);
  makeTemporaryFile base files :=
    let path := base +:+ marks (S (longest files)) in (inr path, (path, "") :: files);
  write_file path s files := (None, (path, s) :: filter (λ file, file.1 ≠ path) files);
  remove_file path files := filter (λ file, file.1 ≠ path) files;
  timestamp files := "now" |}.

#[export] Instance processes : Processes := printing "".

Lemma assoc_removed (files : list (string * string)) path p :
  assoc p (filter (λ file, file.1 ≠ path) files) =
    if decide (p = path) then None else assoc p files.
Proof.
  induction files as [|[q s] files IH]; [by case_decide|]. rewrite filter_cons. simpl.
  destruct (decide (q ≠ path)) as [Hq|Hq]; simpl.
  - destruct (decide (p = path)) as [->|Hne]; [|by rewrite IH].
    by rewrite bool_decide_false.
  - apply dec_stable in Hq as ->. rewrite IH. case_decide; [done|].
    by rewrite bool_decide_false.
Qed.

Lemma printing_laws out : ProcessLaws (DL := disk) (PR := printing out).
Proof.
  split.
  - done.
  - intros base files _. eexists _, _. split; [reflexivity|]. split; [done|].
    assert (Hn : assoc (base +:+ marks (S (longest files))) files = None).
    { apply longest_assoc. rewrite str_size_app. simpl. rewrite marks_size. lia. }
    split; [exact Hn|]. split; [simpl; rewrite bool_decide_true by done; by eexists|].
    intros p Hp. simpl. by rewrite bool_decide_false.
  - intros path s files _. split; [done|]. intros p Hp. simpl.
    rewrite bool_decide_false by done. rewrite assoc_removed. by rewrite decide_False.
  - intros path s files _ _. split; [done|]. simpl. by rewrite bool_decide_true.
  - intros path files _. split; [done|]. simpl. split.
    + rewrite assoc_removed. by rewrite decide_True.
    + intros p Hp. rewrite assoc_removed. by rewrite decide_False.
Qed.

#[export] Instance process_laws : ProcessLaws (DL := disk) := printing_laws "".
End DemoTools.
