(* ===== verification/Listing.v ===== *)
(** Listings of a whole table ([listUsers], [listGroups], [listClusters],
    [listApplicationInstances], [listPersistentVolumeClaims] of
    src/PersistentStore.cpp): they all answer from the main cache while the last
    complete scan is recent enough, and scan the table otherwise. What they have
    in common is stated and proved once, against an interface of laws. *)

From S2P Require Import Prelude Entities Cache Dynamo Store.

Section listing.
Context `{D : Dynamo} `{P : Platform}.

(** The common shape; [finish] stores the new expiration time. *)
Definition list_all {T} (expiration : World → Z) (cache : World → gmap string (CacheRecord.t T))
    (t : Table) (f : Expr) (body : Item → Store T) (finish : list T → Z → Store unit)
    (validity : Z) (fuel : nat) : Store (list T) :=
  expires ← gets expiration;
  time ← now;
  if (time <? expires)%Z then
    table ← gets cache;
    for_collect (map_to_list table).*2 (λ r, _ ← cacheHit; mret (CacheRecord.record r))
  else
    _ ← databaseScan;
    result ← scan_loop fuel t f None [] body;
    if result.2 : bool then
      time ← now;
      _ ← finish result.1 (time + validity)%Z;
      mret result.1
    else mret result.1.

Context `{L : !DynamoLaws}.

(** What a component promises about its table, its main cache and the decoding of
    a row: [stored w x] says that the table has [x], [norm x] is the part of [x] that is
    stored, [placeholder] is the invalid record a failed lookup may have cached. *)
Class ListingLaws {T} (expiration : World → Z) (cache : World → gmap string (CacheRecord.t T))
    (t : Table) (f : Expr) (body : Item → Store T) (finish : list T → Z → Store unit)
    (Inv : World → Prop) (stored : World → T → Prop) (row : T → Item → Prop)
    (id : T → string) (norm : T → T) (placeholder : T) : Prop := {
  ll_quiet : ∀ w w', quiet w w' → Inv w → Inv w';
  ll_stored : ∀ w w' x, table w' t = table w t → stored w x → stored w' x;
  ll_cache_quiet : ∀ w w', quiet w w' → cache w' = cache w;
  ll_expiration_quiet : ∀ w w', quiet w w' → expiration w' = expiration w;
  ll_cached : ∀ w k r, Inv w → cache w !! k = Some r →
    id (CacheRecord.record r) = k ∧
    (CacheRecord.record r = placeholder ∨ stored w (norm (CacheRecord.record r)));
  ll_norm_id : ∀ x, id (norm x) = id x;
  ll_norm : ∀ x it, row x it → norm x = x;
  ll_placeholder : ∀ w x, Inv w → stored w x → id x ≠ id placeholder;
  ll_id_inj : ∀ w x y, stored w x → stored w y → id x = id y → x = y;
  ll_row : ∀ w x, Inv w → stored w x → ∃ it, row x it ∧ it ∈ scan_items f (table w t);
  ll_row_inj : ∀ x y it, row x it → row y it → x = y;
  ll_body : ∀ w it, Inv w → it ∈ scan_items f (table w t) →
    wp (body it) (λ r w', ∃ x, r = Ok x ∧ row x it ∧ stored w x ∧ Inv w' ∧ db w' = db w ∧
      ticks w ≤ ticks w' ∧ expiration w' = expiration w ∧ is_Some (cache w' !! id x) ∧
      ∀ k, is_Some (cache w !! k) → is_Some (cache w' !! k)) w;
  ll_finish : ∀ w l time, Inv w →
    wp (finish l time) (λ r w', r = Ok tt ∧ Inv w' ∧ cache w' = cache w ∧ db w' = db w) w;
}.

Context {T : Type} {expiration : World → Z} {cache : World → gmap string (CacheRecord.t T)}
  {t : Table} {f : Expr} {body : Item → Store T} {finish : list T → Z → Store unit}
  {Inv : World → Prop} {stored : World → T → Prop} {row : T → Item → Prop}
  {id : T → string} {norm : T → T} {placeholder : T}
  `{LL : !ListingLaws expiration cache t f body finish Inv stored row id norm placeholder}.

Local Abbreviation LL_quiet := (ll_quiet (ListingLaws := LL)).
Local Abbreviation LL_stored := (ll_stored (ListingLaws := LL)).
Local Abbreviation LL_cache_quiet := (ll_cache_quiet (ListingLaws := LL)).
Local Abbreviation LL_expiration_quiet := (ll_expiration_quiet (ListingLaws := LL)).
Local Abbreviation LL_cached := (ll_cached (ListingLaws := LL)).
Local Abbreviation LL_norm_id := (ll_norm_id (ListingLaws := LL)).
Local Abbreviation LL_norm := (ll_norm (ListingLaws := LL)).
Local Abbreviation LL_placeholder := (ll_placeholder (ListingLaws := LL)).
Local Abbreviation LL_id_inj := (ll_id_inj (ListingLaws := LL)).
Local Abbreviation LL_row := (ll_row (ListingLaws := LL)).
Local Abbreviation LL_row_inj := (ll_row_inj (ListingLaws := LL)).
Local Abbreviation LL_body := (ll_body (ListingLaws := LL)).
Local Abbreviation LL_finish := (ll_finish (ListingLaws := LL)).

(** While the last complete scan is recent, the cache has everything. *)
Definition listed (w : World) : Prop :=
  (steady (ticks w) < expiration w)%Z → ∀ x, stored w x → is_Some (cache w !! id x).

Definition list_post (w : World) (r : Res (list T)) (w' : World) : Prop :=
  Inv w' ∧ listed w' ∧ read_only w w' ∧
  ∃ l, r = Ok l ∧ (∀ x, x ∈ l → x = placeholder ∨ stored w (norm x)) ∧
    (healthy (db w) → ∀ x, stored w x → x ∈ norm <$> l).

(** The state of a scan that began in [w0]. *)
Record scanning (w0 : World) (acc : list (Item * T)) (w : World) : Prop := {
  sc_inv : Inv w;
  sc_table : table w t = table w0 t;
  sc_ticks : ticks w0 ≤ ticks w;
  sc_expiration : expiration w = expiration w0;
  sc_kept : ∀ k, is_Some (cache w0 !! k) → is_Some (cache w !! k);
  sc_done : ∀ p, p ∈ acc → row p.2 p.1 ∧ stored w p.2 ∧ is_Some (cache w !! id p.2) }.

Lemma scanning_quiet w0 acc w w' : scanning w0 acc w → quiet w w' → scanning w0 acc w'.
Proof.
  intros [] Hq. pose proof (proj1 (quiet_ro _ _ Hq) t) as Ht.
  pose proof (quiet_ticks _ _ Hq). split.
  - by eapply LL_quiet.
  - by rewrite Ht.
  - lia.
  - by rewrite (LL_expiration_quiet _ _ Hq).
  - by rewrite (LL_cache_quiet _ _ Hq).
  - rewrite (LL_cache_quiet _ _ Hq). intros p Hp. destruct (sc_done0 p Hp) as (? & ? & ?).
    split_and!; [done|by eapply LL_stored|done].
Qed.

Lemma scanning_step w0 acc w it :
  scanning w0 acc w → it ∈ scan_items f (table w t) →
  wp (body it) (λ r w', ∃ x, r = Ok x ∧ scanning w0 (acc ++ [(it, x)]) w' ∧ db w' = db w) w.
Proof.
  intros [] Hit. eapply wp_mono, LL_body; [|done..].
  intros r w' (x & -> & Hrow & Hst & Hi & Hdb & Htk & Hexp & Hc & Hk).
  exists x. split; [done|]. split; [|done]. split.
  - done.
  - by rewrite Hdb.
  - lia.
  - congruence.
  - auto.
  - intros p [Hp| ->%list_elem_of_singleton]%elem_of_app.
    + destruct (sc_done0 p Hp) as (? & ? & ?). split_and!; [done| |auto].
      eapply LL_stored; [|done]. by rewrite Hdb.
    + split_and!; [done| |done]. eapply LL_stored; [|done]. by rewrite Hdb.
Qed.

(** A listing answered from the cache. *)
Lemma cacheHits_quiet {A B} (g : A → B) (l : list A) w :
  ∃ w', for_collect l (λ r, _ ← cacheHit; mret (g r)) w = (Ok (g <$> l), w') ∧
    quiet w w' ∧ ticks w' = ticks w.
Proof.
  revert w. induction l as [|x l IH]; intros w; simpl; [by exists w|].
  destruct (IH (upd_stats (upd_cacheHits incr) w)) as (w' & Hw & Hq & Ht).
  exists w'. split; [|split; [|done]].
  - unfold mbind, M_bind in *. simpl. simpl in Hw. by rewrite Hw.
  - etrans; [apply quiet_stats|exact Hq].
Qed.

Lemma listed_in_cache w x :
  Inv w → stored w x → is_Some (cache w !! id x) →
  x ∈ norm <$> (CacheRecord.record <$> (map_to_list (cache w)).*2).
Proof.
  intros Hi Hx [r Hr]. apply list_elem_of_fmap. exists (CacheRecord.record r).
  destruct (LL_cached _ _ _ Hi Hr) as [Hid [Hn|Hst]].
  - destruct (LL_placeholder _ _ Hi Hx). by rewrite <- Hid, Hn.
  - split; [eapply LL_id_inj; [done..|by rewrite LL_norm_id]|].
    apply list_elem_of_fmap. exists r. split; [done|]. apply list_elem_of_fmap.
    exists (id x, r). split; [done|]. by apply elem_of_map_to_list.
Qed.

Lemma cache_is_listed w x :
  Inv w → x ∈ CacheRecord.record <$> (map_to_list (cache w)).*2 →
  x = placeholder ∨ stored w (norm x).
Proof.
  intros Hi Hg. apply list_elem_of_fmap in Hg as (r & -> & Hr).
  apply list_elem_of_fmap in Hr as ([k r'] & -> & Hr). apply elem_of_map_to_list in Hr.
  apply (LL_cached _ _ _ Hi Hr).
Qed.

Lemma listed_quiet `{!ClockLaws} w w' : quiet w w' → listed w → listed w'.
Proof.
  intros Hq Hl Htime x Hx. rewrite (LL_cache_quiet _ _ Hq).
  rewrite (LL_expiration_quiet _ _ Hq) in Htime. apply Hl.
  - eapply Z.le_lt_trans; [|exact Htime]. apply steady_mono, (quiet_ticks _ _ Hq).
  - eapply LL_stored; [|done]. by rewrite (proj1 (quiet_ro _ _ Hq) t).
Qed.

(** A complete scan has decoded every stored record. *)
Lemma scanning_complete w w0 done w' x :
  quiet w w0 → scanning w0 done w' → done.*1 = scan_rest (db w0) t f None →
  Inv w → stored w x → ∃ it, (it, x) ∈ done.
Proof.
  intros Hq Hs Hc Hi Hx. destruct (LL_row _ _ Hi Hx) as (it & Hr & Hit).
  assert (Hd : it ∈ done.*1).
  { by rewrite Hc, scan_rest_all, (proj1 (quiet_ro _ _ Hq) t). }
  apply list_elem_of_fmap in Hd as ([it' x'] & -> & Hp).
  exists it'. destruct (sc_done _ _ _ Hs _ Hp) as [Hr' _]. simpl in *.
  by rewrite (LL_row_inj _ _ _ Hr Hr').
Qed.

Lemma list_post_exact w r w' :
  (∀ x, norm x = x) → list_post w r w' →
  Inv w' ∧ listed w' ∧ read_only w w' ∧
  ∃ l, r = Ok l ∧ (∀ x, x ∈ l → x = placeholder ∨ stored w x) ∧
    (healthy (db w) → ∀ x, stored w x → x ∈ l).
Proof.
  intros Hn (H1 & H2 & H3 & l & H4 & H5 & H6). split; [done|]. split; [done|]. split; [done|].
  exists l. split; [done|]. split.
  - intros x Hx. rewrite <- (Hn x) at 2. auto.
  - intros Hh x (y & -> & Hy)%H6%list_elem_of_fmap; [|done]. by rewrite Hn.
Qed.

Lemma list_all_spec `{!ClockLaws} validity fuel w :
  Inv w → listed w → pages_left (db w) t f None < fuel →
  wp (list_all expiration cache t f body finish validity fuel) (list_post w) w.
Proof.
  intros Hi Hl Hf. unfold list_all. apply wp_gets, wp_now.
  case_match eqn:Ht; [apply Z.ltb_lt in Ht|clear Ht].
  - apply wp_gets.
    destruct (cacheHits_quiet CacheRecord.record (map_to_list (cache (upd_ticks S w))).*2
      (upd_ticks S w)) as (w' & Hw & Hq & Hticks).
    unfold wp. rewrite Hw. simpl in *.
    assert (Hq' : quiet w w') by (etrans; [apply quiet_tick|exact Hq]).
    split; [by eapply LL_quiet|]. split; [by eapply listed_quiet|]. split; [apply Hq'|].
    rewrite (LL_cache_quiet _ _ (quiet_tick w)).
    eexists. split; [done|]. split; [intros x; by apply cache_is_listed|].
    intros _ x Hx. by apply listed_in_cache, Hl.
  - apply wp_databaseScan. intros w0 Hq0 Hdb.
    assert (Hq : quiet w w0) by (etrans; [apply quiet_tick|exact Hq0]).
    eapply wp_seq.
    { apply (scan_loop_spec (scanning w0) _ _ _ _ _ []).
      - split; [by eapply LL_quiet|done..|]. by intros p ?%not_elem_of_nil.
      - by rewrite Hdb.
      - intros it. by rewrite scan_rest_all.
      - intros it w' acc' Hit Hs. apply scanning_step; [done|].
        by rewrite (sc_table _ _ _ Hs).
      - intros *. apply scanning_quiet. }
    2: { by intros e w' (? & ? & ? & ?). }
    2: { by intros w' (? & ? & ? & ?). }
    intros [l c] w' (done & complete & [= -> ->] & Hs & Hro & Hc). simpl.
    assert (Hro' : read_only w w') by (etrans; [apply Hq|done]).
    assert (Hin : ∀ x, x ∈ done.*2 → x = placeholder ∨ stored w (norm x)).
    { intros x. rewrite list_elem_of_fmap. intros (p & -> & Hp). right.
      apply (sc_done _ _ _ Hs) in Hp as (Hrow & Hp & _). rewrite (LL_norm _ _ Hrow).
      eapply LL_stored; [|done]. by rewrite (proj1 Hro' t). }
    destruct complete.
    + pose proof (λ x, scanning_complete _ _ _ _ x Hq Hs Hc Hi) as Hall.
      apply wp_now.
      eapply wp_seq; [apply LL_finish; eapply LL_quiet; [apply quiet_tick|apply Hs]|..].
      2: { by intros e w'' [? _]. }
      2: { by intros w'' [? _]. }
      intros _ w'' (_ & Hi' & Hc' & Hdb'). split; [done|]. split; [|split].
      * intros _ x Hx. simpl in Hx |- *. rewrite Hc'.
        rewrite (LL_cache_quiet _ _ (quiet_tick w')).
        assert (Hx' : stored w x).
        { eapply LL_stored; [|exact Hx]. simpl. rewrite Hdb'. simpl. by rewrite (proj1 Hro' t). }
        destruct (Hall _ Hx') as [it Hp].
        by apply (sc_done _ _ _ Hs) in Hp as (_ & _ & ?).
      * etrans; [exact Hro'|by apply read_only_db].
      * eexists. split; [done|]. split; [auto|]. intros _ x [it Hp]%Hall.
        pose proof (sc_done _ _ _ Hs _ Hp) as [Hrow _]. simpl in Hrow.
        apply list_elem_of_fmap. exists x. split; [by rewrite (LL_norm _ _ Hrow)|].
        apply list_elem_of_fmap. by exists (it, x).
    + split; [apply (sc_inv _ _ _ Hs)|]. split; [|split; [done|]].
      * intros Htime x Hx. simpl in Htime, Hx |- *. rewrite (sc_expiration _ _ _ Hs) in Htime.
        rewrite (LL_expiration_quiet _ _ Hq) in Htime.
        apply (sc_kept _ _ _ Hs). rewrite (LL_cache_quiet _ _ Hq). apply Hl.
        -- eapply Z.le_lt_trans; [|exact Htime]. apply steady_mono.
           etrans; [apply (quiet_ticks _ _ Hq)|apply (sc_ticks _ _ _ Hs)].
        -- eapply LL_stored; [|done]. by rewrite (proj1 Hro' t).
      * eexists. split; [done|]. split; [auto|]. intros Hd. exfalso. by apply Hc, Hq.
Qed.

(** Whether or not it ends, a listing keeps the invariant and only reads. *)
Lemma scan_loop_keeps fuel start acc w :
  Inv w → (∀ it, it ∈ scan_rest (db w) t f start → it ∈ scan_items f (table w t)) →
  wp (scan_loop fuel t f start acc body) (λ _ w', Inv w' ∧ read_only w w') w.
Proof.
  revert start acc w. induction fuel as [|fuel IH]; intros start acc w Hi Hin; [done|].
  simpl. apply wp_request. intros o d' Hr.
  assert (Hq : quiet w (upd_db (λ _, d') w)).
  { split; [|done..]. split; simpl.
    - destruct o as [|[]]; [by eapply Scan_err|by eapply Scan_ok].
    - intros [Hd _]%(healthy_Scan t f start). by rewrite Hr in Hd. }
  pose proof (LL_quiet _ _ Hq Hi) as Hi'. pose proof (quiet_ro _ _ Hq) as Hro.
  destruct o as [e|[items next]]; [by split|].
  destruct (Scan_ok _ _ _ _ _ _ _ Hr) as [_ Hrest].
  assert (Hsub : ∀ it, it ∈ items → it ∈ scan_items f (table w t)).
  { intros it Hit. apply Hin. destruct next; [destruct Hrest as [-> _]|by rewrite Hrest].
    apply elem_of_app. by left. }
  eapply wp_seq.
  { apply (for_collect_spec (λ _ w', Inv w' ∧ db w' = d') _ _ []); [done|].
    intros it w' acc' Hit [Hi1 Hdb]. eapply wp_mono, LL_body; [|done|].
    - intros r w'' (x & -> & _ & _ & Hi2 & Hdb2 & _). exists x. split; [done|].
      split; [done|congruence].
    - rewrite Hdb. assert (Hte : rows d' t = table w t) by apply Hro. rewrite Hte. auto. }
  2: { by intros e w' (? & ? & _). }
  2: { by intros w' (? & ? & _). }
  intros page w' (done & _ & _ & Hi1 & Hdb).
  assert (Hro' : read_only w w') by (etrans; [exact Hro|by apply read_only_db]).
  destruct next as [pk|]; [|by split].
  eapply wp_mono, IH; [|done|].
  - intros r w'' [? ?]. split; [done|by etrans].
  - intros it. destruct Hrest as [Hrest _]. rewrite Hdb. intros Hit.
    assert (Hte : rows d' t = table w t) by apply Hro. rewrite Hte. apply Hin.
    rewrite Hrest. apply elem_of_app. by right.
Qed.

Lemma list_all_keeps validity fuel w :
  Inv w → wp (list_all expiration cache t f body finish validity fuel)
             (λ _ w', Inv w' ∧ read_only w w') w.
Proof.
  intros Hi. unfold list_all. apply wp_gets, wp_now. case_match.
  - apply wp_gets.
    destruct (cacheHits_quiet CacheRecord.record (map_to_list (cache (upd_ticks S w))).*2
      (upd_ticks S w)) as (w' & Hw & Hq & _).
    unfold wp. rewrite Hw. simpl. assert (Hq' : quiet w w') by (etrans; [apply quiet_tick|done]).
    split; [by eapply LL_quiet|apply Hq'].
  - apply wp_databaseScan. intros w0 Hq0 Hdb.
    assert (Hq : quiet w w0) by (etrans; [apply quiet_tick|exact Hq0]).
    eapply wp_seq.
    { apply (scan_loop_keeps fuel None [] w0); [by eapply LL_quiet|].
      intros it. by rewrite scan_rest_all. }
    2: { intros e w' [? ?]. split; [done|by etrans; [apply Hq|]]. }
    2: { intros w' [? ?]. split; [done|by etrans; [apply Hq|]]. }
    intros [l c] w' [Hi' Hro']. assert (Hro : read_only w w') by (etrans; [apply Hq|done]).
    simpl. destruct c; [|by split]. apply wp_now.
    eapply wp_seq; [apply LL_finish; eapply LL_quiet; [apply quiet_tick|done]|..].
    2: { by intros e w'' [? _]. }
    2: { by intros w'' [? _]. }
    intros _ w'' (_ & Hi'' & _ & Hdb''). split; [done|].
    etrans; [exact Hro|by apply read_only_db].
Qed.
End listing.
