(* ===== verification/Catalogue.v ===== *)
(** Records kept in a main cache by ID and in caches by category - a group, a cluster, a
    group and a cluster, a name - as application instances, secrets and volume claims are
    (src/PersistentStore.cpp). The invariant that relates these caches to the table, the
    lookup by ID, the storing, the removal and the listing of a category are stated and
    proved once, against an interface of laws. *)

From S2P Require Import Prelude Entities Cache Dynamo Store Listing.

(** * The members of a category *)

Section category_members.
Context {V : Type} `{CppEqLaws V}.
Implicit Types (m : gmap string (category V)).

Definition in_category m (k : string) (v : V) : Prop := ∃ s t, m !! k = Some (s, t) ∧ v ∈ s.

Lemma in_category_empty k v : ¬ in_category ∅ k v.
Proof. intros (s & t & Hk & _). by rewrite lookup_empty in Hk. Qed.

Lemma in_category_insert m now k v k' x :
  in_category (mm_insert_or_assign now k v m).2 k' x → (k' = k ∧ x = v) ∨ in_category m k' x.
Proof.
  unfold mm_insert_or_assign. destruct (m !! k) as [[s t]|] eqn:Hk; simpl;
    intros (s' & t' & Hk' & Hx); rewrite lookup_insert in Hk'; case_decide; subst;
    try (right; by exists s', t'); simplify_eq.
  - apply elem_of_set_emplace in Hx as [->|Hx]; [by left|right].
    exists s, t'. split; [done|]. destruct (set_has v s); [|done].
    by apply elem_of_set_erase in Hx as [_ ?].
  - apply list_elem_of_singleton in Hx. by left.
Qed.

Lemma in_category_erase m k v k' x :
  in_category (mm_erase k v m).2 k' x →
  in_category m k' x ∧ (k' = k → cpp_eq v x = false).
Proof.
  unfold mm_erase. destruct (m !! k) as [[s t]|] eqn:Hk; simpl.
  - case_bool_decide; intros (s' & t' & Hk' & Hx).
    + rewrite lookup_delete in Hk'. case_decide; [done|]. split; [by exists s', t'|done].
    + rewrite lookup_insert in Hk'. case_decide; subst.
      * simplify_eq. apply elem_of_set_erase in Hx as [? ?]. split; [by exists s, t'|done].
      * split; [by exists s', t'|done].
  - intros Hin. split; [done|]. intros ->. destruct Hin as (s & t & Hk' & _). congruence.
Qed.

Lemma in_category_erase_key m k k' x :
  in_category (mm_erase_key k m).2 k' x → in_category m k' x ∧ k' ≠ k.
Proof.
  unfold mm_erase_key. destruct (m !! k) as [[s t]|] eqn:Hk; simpl; intros Hin.
  - destruct Hin as (s' & t' & Hk' & Hx). rewrite lookup_delete in Hk'. case_decide; [done|].
    split; [by exists s', t'|done].
  - split; [done|]. intros ->. destruct Hin as (s & t & Hk' & _). congruence.
Qed.

Lemma in_category_update_expiration m k time k' x :
  in_category (mm_update_expiration k time m).2 k' x → in_category m k' x.
Proof.
  unfold mm_update_expiration. destruct (m !! k) as [[s t]|] eqn:Hk; simpl; [|done].
  intros (s' & t' & Hk' & Hx). rewrite lookup_insert in Hk'. case_decide; subst.
  - simplify_eq. by exists s', t.
  - by exists s', t'.
Qed.

Lemma elem_of_mm_find m k x : x ∈ (mm_find k m).1 → in_category m k x.
Proof.
  unfold mm_find. destruct (m !! k) as [[s t]|] eqn:Hk; simpl; [by exists s, t|].
  by intros ?%not_elem_of_nil.
Qed.
End category_members.

(** * The caches of a kind of record *)

(** The main cache, and the caches by category, each with the category of a record. *)
Record catalogue (T : Type) := mkCatalogue {
  main : gmap string (CacheRecord.t T);
  categories : list ((T → string) * gmap string (category (CacheRecord.t T))) }.
Arguments mkCatalogue {T} _ _.
Arguments main {T} _.
Arguments categories {T} _.

Section catalogue.
Context {T : Type} (id : T → string).
Implicit Types (c : catalogue T) (r : CacheRecord.t T) (x : T) (P : T → Prop).

(** Every cached record satisfies [P] and is filed where it should be, and those of the
    categories are in the main cache too. *)
Definition filed P (cat : T → string) (m : gmap string (category (CacheRecord.t T)))
    (by_id : gmap string (CacheRecord.t T)) : Prop :=
  ∀ k r, in_category m k r → cat (CacheRecord.record r) = k ∧ P (CacheRecord.record r) ∧
    is_Some (by_id !! id (CacheRecord.record r)).

Definition catalogue_inv P c : Prop :=
  coherent P id (main c) ∧ ∀ p, p ∈ categories c → filed P p.1 p.2 (main c).

(** The record [x] has been cached; some of the caches by category may be left out. *)
Definition catalogued x c c' : Prop :=
  ∃ r, CacheRecord.record r = x ∧ main c' = <[id x := r]> (main c) ∧
    Forall2 (λ p p', p'.1 = p.1 ∧ ∀ k r', in_category p'.2 k r' →
      (k = p.1 x ∧ r' = r) ∨ in_category p.2 k r') (categories c) (categories c').

(** The record with ID [i] has been dropped from the main cache, and from the categories
    the cached record is in. *)
Definition uncatalogued (i : string) c c' : Prop :=
  main c' = delete i (main c) ∧
  Forall2 (λ p p', p'.1 = p.1 ∧ ∀ k r', in_category p'.2 k r' →
    in_category p.2 k r' ∧ ∀ r, main c !! i = Some r → id (CacheRecord.record r) = i →
      k = p.1 (CacheRecord.record r) → id (CacheRecord.record r') ≠ i)
    (categories c) (categories c').

(** No record has been added. *)
Definition recatalogued c c' : Prop :=
  main c' = main c ∧
  Forall2 (λ p p', p'.1 = p.1 ∧ ∀ k r', in_category p'.2 k r' → in_category p.2 k r')
    (categories c) (categories c').

#[export] Instance recatalogued_preorder : PreOrder recatalogued.
Proof.
  split.
  - intros c. split; [done|]. apply Forall2_same_length_lookup. split; [done|].
    intros i p p' Hp Hp'. rewrite Hp in Hp'. injection Hp' as <-. by split.
  - intros c1 c2 c3 [Hm1 Hc1] [Hm2 Hc2]. split; [congruence|].
    revert Hc1 Hc2. generalize (categories c1) (categories c2) (categories c3).
    intros l1 l2 l3 Hl. revert l3. induction Hl as [|p1 p2 l1 l2 [He1 H1] Hl IH];
      intros l3 Hl2; inversion Hl2 as [|? p3 ? l3' [He2 H2] Hl3]; subst; constructor; auto.
    split; [congruence|]. auto.
Qed.

Lemma catalogue_inv_mono P P' c :
  (∀ x, P x → P' x) → catalogue_inv P c → catalogue_inv P' c.
Proof.
  intros HP [H1 H2]. split.
  - eapply coherent_mono; [|done]. intros; auto.
  - intros p Hp k r Hr. destruct (H2 p Hp k r Hr) as (? & ? & ?). auto.
Qed.

Lemma catalogue_inv_cached P c c' x :
  catalogue_inv P c → P x → catalogued x c c' → catalogue_inv P c'.
Proof.
  intros [H1 H2] Hx (r & Hr & Hm & Hc). split.
  - rewrite Hm. apply coherent_insert; [done|by rewrite Hr..].
  - intros p' Hp'. destruct (list_elem_of_lookup_1 _ _ Hp') as [i Hi'].
    destruct (Forall2_lookup_r _ _ _ _ _ Hc Hi') as (p & Hi & Hcat & Hin).
    intros k r' [[-> ->]|Hr']%Hin; rewrite Hcat, Hm.
    + rewrite Hr. split_and!; [done..|]. rewrite lookup_insert_eq. eauto.
    + destruct (H2 p (list_elem_of_lookup_2 _ _ _ Hi) k r' Hr') as (? & ? & ?).
      split_and!; [done..|]. rewrite lookup_insert. case_decide; eauto.
Qed.

Lemma catalogue_inv_recatalogued P c c' :
  catalogue_inv P c → recatalogued c c' → catalogue_inv P c'.
Proof.
  intros [H1 H2] (Hm & Hc). split; [by rewrite Hm|].
  intros p' Hp'. destruct (list_elem_of_lookup_1 _ _ Hp') as [i Hi'].
  destruct (Forall2_lookup_r _ _ _ _ _ Hc Hi') as (p & Hi & Hcat & Hin).
  intros k r' Hr'%Hin. rewrite Hcat, Hm. by apply (H2 p (list_elem_of_lookup_2 _ _ _ Hi)).
Qed.

(** Records with the same ID are in the same categories, so that nothing of the record is
    left. *)
Lemma catalogue_inv_uncatalogued P c c' i :
  catalogue_inv P c → uncatalogued i c c' →
  (∀ p x y, p ∈ categories c → P x → P y → id x = id y → p.1 x = p.1 y) →
  catalogue_inv (λ x, P x ∧ id x ≠ i) c'.
Proof.
  intros [H1 H2] (Hm & Hc) Hcats. split.
  - rewrite Hm. intros k r [Hne Hr]%lookup_delete_Some. destruct (H1 _ _ Hr) as [? ?].
    split_and!; [done..|congruence].
  - intros p' Hp'. destruct (list_elem_of_lookup_1 _ _ Hp') as [j Hj'].
    destruct (Forall2_lookup_r _ _ _ _ _ Hc Hj') as (p & Hj & Hcat & Hin).
    intros k r' [Hr' Hne]%Hin. rewrite Hcat, Hm.
    pose proof (list_elem_of_lookup_2 _ _ _ Hj) as Hp.
    destruct (H2 p Hp k r' Hr') as (Hk & HP & [r Hr]).
    assert (Hid : id (CacheRecord.record r') ≠ i).
    { intros Hid. rewrite Hid in Hr. destruct (H1 _ _ Hr) as [Hid' HP'].
      apply (Hne r Hr); [done| |done]. rewrite <- Hk. apply Hcats; [done..|congruence]. }
    split_and!; [done..|]. rewrite lookup_delete_ne by congruence. eauto.
Qed.
End catalogue.

(** * Kinds of records *)

Section kinds.
Context `{D : Dynamo} `{P : Platform}.

(** A kind of record: its table, the row of a record, the other rows of the table, the ID,
    the part of a record that is stored, the invalid record, and the caches. *)
Record Kind (T : Type) := mkKind {
  k_table : Table;
  k_row : T → Item → Prop;
  k_aux : string * string → Item → Prop;
  k_id : T → string;
  k_norm : T → T;
  k_none : T;
  k_view : World → catalogue T }.
Arguments k_table {T} _.
Arguments k_row {T} _ _ _.
Arguments k_aux {T} _ _ _.
Arguments k_id {T} _ _.
Arguments k_norm {T} _ _.
Arguments k_none {T} _.
Arguments k_view {T} _ _.

Context `{L : !DynamoLaws}.

Class KindLaws {T} (K : Kind T) : Prop := {
  kind_row_inj : ∀ x y it, k_row K x it → k_row K y it → x = y;
  kind_row_key : ∀ x it, k_row K x it → item_key (k_table K) it = Some (k_id K x, k_id K x);
  kind_row_norm : ∀ x it, k_row K x it → k_norm K x = x;
  kind_norm_id : ∀ x, k_id K (k_norm K x) = k_id K x;
  kind_aux : ∀ k it, k_aux K k it → k.1 ≠ k.2;
  kind_quiet : ∀ w w', quiet w w' → k_view K w' = k_view K w;
  kind_db : ∀ f w, k_view K (upd_db f w) = k_view K w;
  kind_categories : ∀ w p x, p ∈ categories (k_view K w) → p.1 (k_norm K x) = p.1 x;
}.

Context {T : Type} (K : Kind T) `{KL : !KindLaws K}.
Local Abbreviation row := (k_row K).
Local Abbreviation id := (k_id K).
Local Abbreviation norm := (k_norm K).
Local Abbreviation none := (k_none K).
Local Abbreviation view := (k_view K).
Local Abbreviation tbl w := (table w (k_table K)).

Definition stored_in (m : gmap (string * string) Item) (x : T) : Prop :=
  ∃ it, m !! (id x, id x) = Some it ∧ row x it.
Definition stored (w : World) (x : T) : Prop := stored_in (tbl w) x.

Record KindInv (w : World) : Prop := {
  kv_table : ∀ k it, tbl w !! k = Some it →
    (∃ x, row x it ∧ k = (id x, id x)) ∨ k_aux K k it;
  kv_nonempty : ∀ x, stored w x → id x ≠ id none;
  kv_catalogue : catalogue_inv id (λ x, stored w (norm x)) (view w) }.

Lemma same_caches_view w w' : same_caches w w' → view w' = view w.
Proof. intros Hq. by rewrite <- (kind_quiet _ _ Hq), kind_db. Qed.

Lemma stored_in_inj m x y : stored_in m x → stored_in m y → id x = id y → x = y.
Proof.
  intros (it1 & H1 & R1) (it2 & H2 & R2) Hid. rewrite Hid, H2 in H1. simplify_eq.
  by eapply kind_row_inj.
Qed.

Lemma stored_norm w x : stored w x → norm x = x.
Proof. intros (it & _ & Hr). by eapply kind_row_norm. Qed.

Lemma stored_tables w w' x : tbl w' = tbl w → stored w' x ↔ stored w x.
Proof. unfold stored. by intros ->. Qed.

Lemma read_only_stored w w' x : read_only w w' → stored w' x ↔ stored w x.
Proof. intros [Ht _]. by apply stored_tables. Qed.

Lemma row_at w key it : KindInv w → tbl w !! (key, key) = Some it → ∃ x, row x it ∧ id x = key.
Proof.
  intros Hi Hit. destruct (kv_table _ Hi _ _ Hit) as [(x & Hr & [= -> _])|Ha]; [eauto|].
  by apply kind_aux in Ha.
Qed.

Lemma row_nonempty x it : row x it → it ≠ ∅.
Proof.
  intros Hr ->. apply kind_row_key in Hr. unfold item_key in Hr. by rewrite lookup_empty in Hr.
Qed.

(** The invariant is about the table and the caches of the kind. *)
Lemma KindInv_same w w' :
  KindInv w → tbl w' = tbl w → view w' = view w → KindInv w'.
Proof.
  intros [H1 H2 H3] Ht Hv. split.
  - by rewrite Ht.
  - intros x Hx. apply H2. by eapply stored_tables.
  - rewrite Hv. eapply catalogue_inv_mono; [|done]. intros x. by apply stored_tables.
Qed.

Lemma quiet_KindInv w w' : quiet w w' → KindInv w → KindInv w'.
Proof.
  intros Hq Hi. eapply KindInv_same; [done| |by apply kind_quiet].
  by rewrite (proj1 (quiet_ro _ _ Hq)).
Qed.

Lemma KindInv_view w w' :
  KindInv w → tbl w' = tbl w → catalogue_inv id (λ x, stored w (norm x)) (view w') → KindInv w'.
Proof.
  intros [H1 H2 H3] Ht Hv. split.
  - by rewrite Ht.
  - intros x Hx. apply H2. by eapply stored_tables.
  - eapply catalogue_inv_mono; [|done]. intros x. by apply stored_tables.
Qed.

Lemma KindInv_cached w w' x :
  KindInv w → stored w (norm x) → tbl w' = tbl w → catalogued id x (view w) (view w') →
  KindInv w'.
Proof.
  intros Hi Hx Ht Hc. eapply KindInv_view; [done..|].
  eapply catalogue_inv_cached; [apply Hi|done..].
Qed.

Lemma KindInv_recatalogued w w' :
  KindInv w → tbl w' = tbl w → recatalogued (view w) (view w') → KindInv w'.
Proof.
  intros Hi Ht Hc. eapply KindInv_view; [done..|].
  eapply catalogue_inv_recatalogued; [apply Hi|done].
Qed.

(** ** Caching a record *)

Definition saves (save : T → Store unit) : Prop :=
  ∀ x w, ∃ w', save x w = (Ok tt, w') ∧ db w' = db w ∧ ticks w ≤ ticks w' ∧
    catalogued id x (view w) (view w').

Lemma wp_save {B} save x (k : unit → Store B) Q w :
  saves save → KindInv w → stored w (norm x) →
  (∀ w', KindInv w' → db w' = db w → ticks w ≤ ticks w' →
    catalogued id x (view w) (view w') → wp (k tt) Q w') →
  wp (save x ≫= k) Q w.
Proof.
  intros Hs Hi Hx Hk. destruct (Hs x w) as (w' & Hw & Hdb & Htk & Hc).
  eapply wp_run; [exact Hw|]. apply Hk; [|done..].
  eapply KindInv_cached; [done..| |done]. by rewrite Hdb.
Qed.

(** ** Lookup by ID *)

Definition lookup_post (key : string) (w : World) (r : Res T) (w' : World) : Prop :=
  KindInv w' ∧ read_only w w' ∧
  match r with
  | Ok x => (id x = key ∧ stored w (norm x)) ∨
            (x = none ∧ (healthy (db w) → ∀ x', stored w x' → id x' ≠ key))
  | _ => False
  end.

Lemma lookup_missing key w w' :
  KindInv w → quiet w w' → (healthy (db w) → ∀ x', stored w x' → id x' ≠ key) →
  lookup_post key w (Ok none) w'.
Proof.
  intros Hi Hq Hn. split; [by eapply quiet_KindInv|]. split; [apply Hq|]. by right.
Qed.

Lemma find_by_id_spec cache (decode : Item → Res T) save key w :
  (∀ w, cache w = main (view w)) → saves save →
  (∀ x it, row x it → id x = key → decode it = Ok x) → KindInv w →
  wp (cached ← find_cached cache key;
      match cached with
      | Some x => mret x
      | None =>
          _ ← databaseQuery;
          outcome ← request (GetItem (k_table K) (key, key));
          match outcome with
          | inl err => mret none
          | inr item =>
              if bool_decide (item = ∅) then mret none else
              x ← lift (decode item);
              _ ← save x;
              mret x
          end
      end) (lookup_post key w) w.
Proof.
  intros Hcache Hsave Hdec Hi. apply wp_find_cached.
  { intros r w1 Hq Hr. rewrite Hcache in Hr.
    destruct (proj1 (kv_catalogue _ Hi) _ _ Hr) as [<- Hst].
    split; [by eapply quiet_KindInv|]. split; [apply Hq|]. by left. }
  intros w1 Hq1. apply wp_databaseQuery. intros w2 Hq2.
  assert (Hq : quiet w w2) by by etrans. clear w1 Hq1 Hq2.
  apply wp_GetItem; [intros e w3 Hq3 Hh|intros w3 Hq3].
  { apply lookup_missing; [done|by etrans|]. intros H'. by apply Hq in H'. }
  rewrite (proj1 (quiet_ro _ _ Hq)).
  assert (Hq' : quiet w w3) by by etrans. clear w2 Hq Hq3.
  destruct (tbl w !! (key, key)) as [it|] eqn:Hit; simpl.
  - destruct (row_at _ _ _ Hi Hit) as (x & Hr & Hid).
    rewrite bool_decide_false by by eapply row_nonempty.
    rewrite (Hdec _ _ Hr Hid). eapply wp_run; [reflexivity|].
    assert (Hx : stored w (norm x)).
    { rewrite (kind_row_norm x it Hr). exists it. by rewrite Hid. }
    apply wp_save; [done|by eapply quiet_KindInv| |].
    { apply (read_only_stored w); [apply Hq'|done]. }
    intros w4 Hi4 Hdb _ _. split; [done|].
    split; [etrans; [apply Hq'|by apply read_only_db]|]. by left.
  - rewrite bool_decide_true by done. apply lookup_missing; [done..|].
    intros _ x' (it & Hx' & _) <-. congruence.
Qed.

(** ** Storing a record *)

Lemma stored_in_insert m x it x' :
  row x it → stored_in (<[(id x, id x) := it]> m) x' ↔
  x' = x ∨ (stored_in m x' ∧ id x' ≠ id x).
Proof.
  intros Hr. split.
  - intros (it' & Hit & Hr'). rewrite lookup_insert in Hit. case_decide.
    + left. simplify_eq. by eapply kind_row_inj.
    + right. split; [by exists it'|congruence].
  - intros [->|[(it' & Hit & Hr') Hne]].
    + exists it. by rewrite lookup_insert_eq.
    + exists it'. rewrite lookup_insert_ne by congruence. done.
Qed.

(** The row of a new record has been written. *)
Lemma KindInv_insert w w' x it :
  KindInv w → row x it → id x ≠ id none → (∀ y, stored w y → id y ≠ id x) →
  tbl w' = <[(id x, id x) := it]> (tbl w) → view w' = view w → KindInv w'.
Proof.
  intros [H1 H2 H3] Hr Hne Hnew Ht Hv. split.
  - rewrite Ht. intros k it'. rewrite lookup_insert. case_decide; [|apply H1].
    intros [= <-]. left. by exists x.
  - intros y. unfold stored. rewrite Ht, stored_in_insert by done. intros [->|[Hy _]]; auto.
  - rewrite Hv. eapply catalogue_inv_mono; [|done]. intros y Hy.
    unfold stored. rewrite Ht. apply stored_in_insert; [done|]. right. split; [done|].
    by apply Hnew.
Qed.

(** A row that is not a record's has been written. *)
Lemma stored_aux w w' k m :
  tbl w' = m → (∀ k', k' ≠ k → m !! k' = tbl w !! k') → k.1 ≠ k.2 →
  ∀ x, stored w' x ↔ stored w x.
Proof.
  intros Ht Hm Hk x. unfold stored, stored_in. rewrite Ht.
  assert (Hne : (id x, id x) ≠ k) by (intros <-; done).
  by setoid_rewrite (Hm _ Hne).
Qed.

Lemma KindInv_aux w w' k m :
  KindInv w → tbl w' = m → view w' = view w → (∀ k', k' ≠ k → m !! k' = tbl w !! k') →
  k.1 ≠ k.2 → (∀ it, m !! k = Some it → k_aux K k it) → KindInv w'.
Proof.
  intros Hi Ht Hv Hm Hk Haux.
  pose proof (stored_aux _ _ _ _ Ht Hm Hk) as Hst. split.
  - rewrite Ht. intros k' it Hit. destruct (decide (k' = k)) as [->|Hne]; [right; auto|].
    apply (kv_table _ Hi). by rewrite <- Hm.
  - intros x Hx%Hst. by apply (kv_nonempty _ Hi).
  - rewrite Hv. eapply catalogue_inv_mono; [|apply (kv_catalogue _ Hi)]. intros x. apply Hst.
Qed.

Definition write_post (x : T) (w : World) (r : Res bool) (w' : World) : Prop :=
  KindInv w' ∧ (healthy (db w) → healthy (db w')) ∧
  (∀ t, t ≠ k_table K → table w' t = table w t) ∧
  match r with
  | Ok true => ∀ y, stored w' y ↔ y = norm x ∨ (stored w y ∧ id y ≠ id x)
  | Ok false => ¬ healthy (db w) ∧ ∀ y, stored w' y ↔ stored w y
  | _ => False
  end.

Definition new_record (w : World) (x : T) (it : Item) : Prop :=
  row (norm x) it ∧ id x ≠ id none ∧ ∀ y, stored w y → id y ≠ id x.

Lemma write_refused x w w' :
  KindInv w → quiet w w' → ¬ healthy (db w) → write_post x w (Ok false) w'.
Proof.
  intros Hi Hq Hh. destruct (quiet_ro _ _ Hq) as [Ht Hh'].
  split; [by eapply quiet_KindInv|]. split; [auto|]. split; [done|]. split; [done|].
  intros y. by apply stored_tables.
Qed.

Lemma add_spec it save x w :
  saves save → KindInv w → new_record w x it →
  wp (outcome ← request (PutItem (k_table K) it);
      match outcome with
      | inl err => mret false
      | inr _ => _ ← save x; mret true
      end) (write_post x w) w.
Proof.
  intros Hsave Hi (Hr & Hne & Hnew). eapply wp_PutItem; [by apply kind_row_key|..].
  - intros e w' Hq Hh. by apply write_refused.
  - intros w' Hq Hh Ht. pose proof (table_set_same _ _ _ _ Ht) as Htk.
    pose proof (same_caches_view _ _ Hq) as Hv.
    assert (Hi' : KindInv w').
    { eapply KindInv_insert; try done; by rewrite kind_norm_id. }
    assert (Hst : ∀ y, stored w' y ↔ y = norm x ∨ (stored w y ∧ id y ≠ id x)).
    { intros y. unfold stored. rewrite Htk, stored_in_insert by done. by rewrite kind_norm_id. }
    apply wp_save; [done..|by apply Hst; left|].
    intros w2 Hi2 Hdb _ _. split; [done|]. simpl. rewrite Hdb. split; [done|].
    split; [intros; by eapply table_set_other|].
    intros y. rewrite <- Hst. apply stored_tables. by rewrite Hdb.
Qed.

(** ** Removing a record *)

Definition forgets (forget : string → Store unit) : Prop :=
  ∀ i w, ∃ w', forget i w = (Ok tt, w') ∧ db w' = db w ∧ uncatalogued id i (view w) (view w').

(** Nothing is cached any more about the record with ID [i]. *)
Definition forgotten (i : string) (w : World) : Prop :=
  catalogue_inv id (λ x, stored w (norm x) ∧ id x ≠ i) (view w).

Lemma KindInv_forget i w w' :
  KindInv w → db w' = db w → uncatalogued id i (view w) (view w') →
  KindInv w' ∧ forgotten i w'.
Proof.
  intros Hi Hdb Hu.
  assert (Hst : ∀ x, stored w' x ↔ stored w x) by (intros x; apply stored_tables; by rewrite Hdb).
  assert (Hf : catalogue_inv id (λ x, stored w (norm x) ∧ id x ≠ i) (view w')).
  { eapply catalogue_inv_uncatalogued; [apply Hi|done|].
    intros p x y Hp Hx Hy Hid. rewrite <- (kind_categories w p x Hp), <- (kind_categories w p y Hp).
    f_equal. eapply stored_in_inj; [exact Hx|exact Hy|by rewrite !kind_norm_id]. }
  split.
  - eapply KindInv_view; [done|by rewrite Hdb|]. eapply catalogue_inv_mono; [|done].
    by intros x [].
  - eapply catalogue_inv_mono; [|done]. intros x [Hx ?]. split; [by apply Hst|done].
Qed.

Lemma stored_in_delete m i x :
  stored_in (delete (i, i) m) x ↔ stored_in m x ∧ id x ≠ i.
Proof.
  unfold stored_in. split.
  - intros (it & [Hne Hit]%lookup_delete_Some & Hr). split; [eauto|]. congruence.
  - intros [(it & Hit & Hr) Hne]. exists it. split; [|done].
    apply lookup_delete_Some. split; [congruence|done].
Qed.

Lemma KindInv_delete i w w' :
  KindInv w → forgotten i w → tbl w' = delete (i, i) (tbl w) → view w' = view w → KindInv w'.
Proof.
  intros [H1 H2 _] Hf Ht Hv. split.
  - rewrite Ht. intros k it [_ Hit]%lookup_delete_Some. by apply H1.
  - intros x. unfold stored. rewrite Ht, stored_in_delete. intros [Hx _]. by apply H2.
  - rewrite Hv. eapply catalogue_inv_mono; [|exact Hf]. intros x [Hx Hne].
    unfold stored. rewrite Ht. apply stored_in_delete. by rewrite kind_norm_id.
Qed.

Lemma remove_spec forget key w :
  forgets forget → KindInv w →
  wp (_ ← forget key;
      outcome ← request (DeleteItem (k_table K) (key, key) None);
      match outcome with
      | inl err => mret false
      | inr _ => mret true
      end) (removed_post KindInv (k_table K) stored id key w) w.
Proof.
  intros Hf Hi. destruct (Hf key w) as (w1 & Hw & Hdb & Hu). eapply wp_run; [exact Hw|].
  destruct (KindInv_forget key w w1 Hi Hdb Hu) as [Hi1 Hf1].
  assert (Hst1 : ∀ x, stored w1 x ↔ stored w x) by (intros; apply stored_tables; by rewrite Hdb).
  apply wp_DeleteItem.
  - intros e w' Hq Hh. destruct (quiet_ro _ _ Hq) as [Ht Hh'].
    split; [by eapply quiet_KindInv|]. rewrite <- Hdb. split; [auto|].
    split; [intros; by rewrite Ht|]. split; [intros Hd; by destruct (Hh Hd) as (? & [=] & _)|].
    intros x. rewrite <- Hst1. by apply stored_tables.
  - intros w' Hq Hh _ Ht. pose proof (table_set_same _ _ _ _ Ht) as Htk.
    apply wp_ret. split; [|rewrite <- Hdb; split; [done|split]].
    + eapply KindInv_delete; [done..|]. by apply same_caches_view.
    + intros t' Hne. by eapply table_set_other.
    + intros x. rewrite <- Hst1. unfold stored. rewrite Htk. apply stored_in_delete.
Qed.
(** ** Listing a category *)

(** The collection of a key is answered from while it is fresh. *)
Definition fresh (cache : World → gmap string (category (CacheRecord.t T))) (key : string)
    (w : World) : Prop := (steady (ticks w) < (mm_find key (cache w)).2)%Z.

Lemma valid_records_run (rs : list (CacheRecord.t T)) w :
  ∃ l w', for_filter rs (λ r, v ← record_valid r;
      if v : bool then _ ← cacheHit; mret true else mret false) w = (Ok l, w') ∧
    quiet w w' ∧ ∀ r, r ∈ l → r ∈ rs.
Proof.
  revert w. induction rs as [|r rs IH]; intros w; simpl; [by exists [], w|].
  unfold mbind, M_bind, record_valid, now, mret, M_ret. simpl.
  destruct (CacheRecord.to_bool (steady (ticks w)) r); simpl.
  - destruct (IH (upd_stats (upd_cacheHits incr) (upd_ticks S w))) as (l & w' & Hw & Hq & Hl).
    unfold mbind, M_bind, record_valid, now, mret, M_ret in Hw. simpl in Hw. rewrite Hw.
    exists (r :: l), w'. split; [done|]. split; [|intros r'; rewrite !elem_of_cons; naive_solver].
    etrans; [|exact Hq]. etrans; [apply quiet_tick|apply quiet_stats].
  - destruct (IH (upd_ticks S w)) as (l & w' & Hw & Hq & Hl).
    unfold mbind, M_bind, record_valid, now, mret, M_ret in Hw. simpl in Hw. rewrite Hw.
    exists l, w'. split; [done|]. split; [|intros r'; rewrite elem_of_cons; auto].
    etrans; [apply quiet_tick|exact Hq].
Qed.

(** What the cache answers is stored, and in the category asked for. *)
Lemma wp_cached_category {B} cat cache key (k : option (list T) → Store B) Q w :
  KindInv w → (cat, cache w) ∈ categories (view w) →
  (∀ l w', quiet w w' → fresh cache key w →
    (∀ x, x ∈ l → stored w (norm x) ∧ cat x = key) → wp (k (Some l)) Q w') →
  (∀ w', quiet w w' → ¬ fresh cache key w → wp (k None) Q w') →
  wp (maybeReturnCachedCategoryMembers cache key ≫= k) Q w.
Proof.
  intros Hi Hp Hs Hn. unfold maybeReturnCachedCategoryMembers.
  destruct (Z.ltb_spec (steady (ticks w)) (mm_find key (cache w)).2) as [Hlt|Hge].
  - destruct (valid_records_run (mm_find key (cache w)).1 (upd_ticks S w))
      as (l & w' & Hw & Hq & Hl).
    eapply (wp_run _ _ _ _ (Some (CacheRecord.record <$> l)) w').
    + unfold mbind at 1, M_bind at 1, gets. unfold mbind at 1, M_bind at 1, now.
      rewrite (proj2 (Z.ltb_lt _ _)) by exact Hlt.
      unfold mbind at 1, M_bind at 1. by rewrite Hw.
    + apply Hs; [etrans; [apply quiet_tick|exact Hq]|done|].
      intros x (r & -> & Hr%Hl)%list_elem_of_fmap.
      apply elem_of_mm_find in Hr.
      destruct (proj2 (kv_catalogue _ Hi) _ Hp _ _ Hr) as (? & ? & _). done.
  - eapply (wp_run _ _ _ _ None (upd_ticks S w)).
    + unfold mbind at 1, M_bind at 1, gets. unfold mbind at 1, M_bind at 1, now.
      by rewrite (proj2 (Z.ltb_ge _ _)) by exact Hge.
    + apply Hn; [apply quiet_tick|]. unfold fresh. lia.
Qed.

(** The items of a query are decoded and cached one after the other. *)
Lemma wp_collect {B} (decode : Item → Res T) save items (k : list T → Store B) Q w :
  saves save → KindInv w →
  (∀ e, e ∈ items → ∃ x, decode e = Ok x ∧ stored w x) →
  (∀ l w', KindInv w' → db w' = db w → (∀ x, x ∈ l → stored w x) →
    (∀ e x, e ∈ items → decode e = Ok x → x ∈ l) →
    (∀ x, x ∈ l → ∃ e, e ∈ items ∧ decode e = Ok x) → wp (k l) Q w') →
  wp (for_collect items (λ e, x ← lift (decode e); _ ← save x; mret x) ≫= k) Q w.
Proof.
  intros Hsave Hi Hdec Hk.
  eapply wp_seq.
  { apply (for_collect_spec (λ done w', KindInv w' ∧ db w' = db w ∧
      ∀ p, p ∈ done → decode p.1 = Ok p.2 ∧ stored w p.2) _ _ []).
    - split; [done|]. split; [done|]. by intros p ?%not_elem_of_nil.
    - intros e w' acc He (Hi' & Hdb & Hd). destruct (Hdec _ He) as (x & Hx & Hst).
      rewrite Hx. eapply wp_run; [reflexivity|]. apply wp_save; [done..| |].
      { rewrite (stored_norm w x Hst). eapply stored_tables; [|exact Hst]. by rewrite Hdb. }
      intros w2 Hi2 Hdb2 _ _. apply wp_ret. exists x. split; [done|]. split; [done|].
      split; [congruence|].
      intros p [Hp| ->%list_elem_of_singleton]%elem_of_app; auto. }
  2: by intros e w' (? & ? & _).
  2: by intros w' (? & ? & _).
  intros l w' (done & Hok & Hl & Hi' & Hdb & Hd). simpl in *. injection Hok as ->.
  apply Hk; [done..| | |].
  - intros x (p & -> & Hp)%list_elem_of_fmap. by apply Hd.
  - intros e x He Hx. rewrite <- Hl in He. apply list_elem_of_fmap in He as (p & -> & Hp).
    apply list_elem_of_fmap. exists p. split; [|done]. destruct (Hd _ Hp) as [Hx' _]. congruence.
  - intros x (p & -> & Hp)%list_elem_of_fmap. exists p.1. split; [|by apply Hd].
    rewrite <- Hl. apply list_elem_of_fmap. by exists p.
Qed.

(** A listing answers from a cache or does the rest. *)
Lemma wp_cached_or (cached : Store (option (list T))) rest Q w :
  wp cached (λ r w', match r with
    | Ok (Some l) => Q (Ok l) w'
    | Ok None => wp rest Q w'
    | Throw e => Q (Throw e) w'
    | OutOfFuel => Q OutOfFuel w'
    end) w →
  wp (cached ← cached; match cached with Some l => mret l | None => rest end) Q w.
Proof. intros Hc. apply wp_bind. eapply wp_mono; [|exact Hc]. by intros [[l|]|e|] w'. Qed.

(** The listing of the records that satisfy [P]: nothing else is returned, and when the
    database is asked every one of them. *)
Definition category_post (P : T → Prop) (from_database : Prop) (w : World)
    (r : Res (list T)) (w' : World) : Prop :=
  KindInv w' ∧ read_only w w' ∧ ∃ l, r = Ok l ∧
    (∀ x, x ∈ l → stored w (norm x) ∧ P (norm x)) ∧
    (healthy (db w) → from_database → ∀ x, stored w x → P x → x ∈ l).

(** What changes neither the database nor the members of the caches. *)
Definition maintains (m : Store unit) : Prop :=
  ∀ w, ∃ w', m w = (Ok tt, w') ∧ db w' = db w ∧ recatalogued (view w) (view w').

Lemma maintains_bind m k : maintains m → maintains k → maintains (_ ← m; k).
Proof.
  intros Hm Hk w. destruct (Hm w) as (w1 & Hw1 & Hd1 & Hr1).
  destruct (Hk w1) as (w2 & Hw2 & Hd2 & Hr2). exists w2.
  split; [unfold mbind, M_bind; by rewrite Hw1|]. split; [congruence|by etrans].
Qed.

Lemma maintains_for_each {A} (l : list A) body :
  (∀ x, maintains (body x)) → maintains (for_each l body).
Proof.
  intros Hb. induction l as [|x l IH]; [by intros w; exists w|]. by apply maintains_bind.
Qed.

(** ** Listing the whole table *)

(** The listing of a kind whose rows are those the filter lets through. *)
Lemma kind_listing expiration cache f body decode save finish :
  (∀ w, cache w = main (view w)) → saves save →
  (∀ x it, row x it → eval f it = true) → (∀ k it, k_aux K k it → eval f it = false) →
  (∀ x it, row x it → decode it = Ok x) →
  (∀ it w, body it w = (x ← lift (decode it); _ ← save x; mret x) w) →
  (∀ w w', quiet w w' → expiration w' = expiration w) →
  (∀ x w, expiration (save x w).2 = expiration w) →
  (∀ l time w, KindInv w → ∃ w', finish l time w = (Ok tt, w') ∧ db w' = db w ∧
    recatalogued (view w) (view w')) →
  ListingLaws expiration cache (k_table K) f body finish KindInv stored row id norm none.
Proof.
  intros Hcache Hsave Hf Haux Hdec Hbody Hexp Hexps Hfin. split.
  - apply quiet_KindInv.
  - intros w w' x Ht. by apply stored_tables.
  - intros w w' Hq. by rewrite !Hcache, (kind_quiet _ _ Hq).
  - exact Hexp.
  - intros w k r Hi Hr. rewrite Hcache in Hr. destruct (proj1 (kv_catalogue _ Hi) _ _ Hr). auto.
  - apply kind_norm_id.
  - apply kind_row_norm.
  - intros w x Hi Hx. by apply (kv_nonempty _ Hi).
  - intros w x y. apply stored_in_inj.
  - intros w x Hi (it & Hit & Hr). exists it. split; [done|]. apply elem_of_scan_items. eauto.
  - apply kind_row_inj.
  - intros w it Hi (k & Hk & Hfit)%elem_of_scan_items.
    destruct (kv_table _ Hi _ _ Hk) as [(x & Hr & ->)|Ha]; [|by rewrite (Haux _ _ Ha) in Hfit].
    assert (Hx : stored w x) by by exists it.
    unfold wp. rewrite Hbody. change (wp (x ← lift (decode it); _ ← save x; mret x)
      (λ r w', ∃ x, r = Ok x ∧ row x it ∧ stored w x ∧ KindInv w' ∧ db w' = db w ∧
        ticks w ≤ ticks w' ∧ expiration w' = expiration w ∧ is_Some (cache w' !! id x) ∧
        ∀ k, is_Some (cache w !! k) → is_Some (cache w' !! k)) w).
    rewrite (Hdec _ _ Hr). eapply wp_run; [reflexivity|].
    destruct (Hsave x w) as (w' & Hw & Hdb & Htk & Hc). eapply wp_run; [exact Hw|]. apply wp_ret.
    exists x. pose proof (Hexps x w) as Hex. rewrite Hw in Hex. simpl in Hex.
    split_and!; [done..| |done|done|done| |].
    + eapply KindInv_cached; [done|by rewrite (stored_norm w x Hx)|by rewrite Hdb|done].
    + rewrite Hcache. destruct Hc as (r & _ & -> & _). rewrite lookup_insert_eq. eauto.
    + intros k. rewrite !Hcache. destruct Hc as (r & _ & -> & _). rewrite lookup_insert.
      case_decide; eauto.
  - intros w l time Hi. destruct (Hfin l time w Hi) as (w' & Hw & Hdb & Hre). unfold wp.
    rewrite Hw. simpl. split; [done|]. split; [|split; [|done]].
    + eapply KindInv_recatalogued; [done|by rewrite Hdb|done].
    + rewrite !Hcache. apply Hre.
Qed.
End kinds.

Arguments k_table {_ _ _ _} _.
Arguments k_row {_ _ _ _} _ _ _.
Arguments k_aux {_ _ _ _} _ _ _.
Arguments k_id {_ _ _ _} _ _.
Arguments k_norm {_ _ _ _} _ _.
Arguments k_none {_ _ _ _} _.
Arguments k_view {_ _ _ _} _ _.

(** Proves that a caching function files a record in the categories: each cache is either
    extended or left alone. *)
Ltac solve_catalogued :=
  repeat first
    [ apply Forall2_nil_2
    | apply Forall2_cons_2; [split; [reflexivity|]; simpl; intros ? ? Hin;
        first [ by right | apply in_category_insert in Hin as [[-> ->]|?]; auto ]|] ].

(** Proves that a forgetting function leaves nothing of the record in the categories: the
    record, or the whole category of the record, is erased from each. [Hr] tells what the
    main cache has. *)
Ltac solve_uncatalogued Hr :=
  repeat first
    [ apply Forall2_nil_2
    | apply Forall2_cons_2; [split; [reflexivity|]; simpl; intros ? ? Hin; rewrite Hr;
        first
          [ apply in_category_erase in Hin as [Hin Hne]; split; [exact Hin|];
            intros ? [= <-] Hid Hk; specialize (Hne Hk);
            apply bool_decide_eq_false in Hne; congruence
          | apply in_category_erase_key in Hin as [Hin Hne]; split; [exact Hin|];
            by intros ? [= <-] _ ->
          | by split ] |] ].

(** Proves that the categories only lost members, or changed their expiration. *)
Ltac solve_recatalogued :=
  split; [reflexivity|];
  repeat first
    [ apply Forall2_nil_2
    | apply Forall2_cons_2; [split; [reflexivity|]; simpl; intros ? ? Hin;
        first [ exact Hin | by apply in_category_update_expiration in Hin ]|] ].
