(* ===== verification/StoreGroups.v ===== *)
(** Group records: the operations of [PersistentStore] on the groups table and
    on [groupCache] and [groupByNameCache] (src/PersistentStore.cpp). *)

From S2P Require Import Prelude Entities Cache Dynamo Store Demo Listing.

Section groups.
Context `{D : Dynamo} `{P : Platform}.

(** The item [addGroup] stores. *)
Definition group_item (g : Group.t) : Item :=
  {["ID" := AVS (Group.id g); "sortKey" := AVS (Group.id g);
    "name" := AVS (Group.name g); "email" := AVS (Group.email g);
    "phone" := AVS (Group.phone g); "scienceField" := AVS (Group.scienceField g);
    "description" := AVS (Group.description g)]}.

(** The attributes [updateGroup] changes. *)
Definition group_updates (g : Group.t) : Item :=
  {["name" := AVS (Group.name g); "email" := AVS (Group.email g);
    "phone" := AVS (Group.phone g); "scienceField" := AVS (Group.scienceField g);
    "description" := AVS (Group.description g)]}.

(** Decoding of an item, with the ID and name found by [id] and [name]. *)
Definition group_of_item (id name : Res string) (item : Item) : Res Group.t :=
  id ← id;
  name ← name;
  mret (Group.mk true id name (attr_default item "email") (attr_default item "phone")
          (attr_default item "scienceField") (attr_default item "description")).

(** [replaceCacheRecord] on the two caches of groups. *)
Definition cache_group (g : Group.t) : Store unit :=
  record ← make_record g groupCacheValidity;
  _ ← modify (upd_groups (upd_groupCache (replaceCacheRecord (Group.id g) record)));
  modify (upd_groups (upd_groupByNameCache (replaceCacheRecord (Group.name g) record))).

Definition addGroup (group : Group.t) : Store bool :=
  if str_empty (Group.email group) then
    throw "Group email must not be empty because Dynamo"
  else if str_empty (Group.phone group) then
    throw "Group phone must not be empty because Dynamo"
  else if str_empty (Group.scienceField group) then
    throw "Group scienceField must not be empty because Dynamo"
  else if str_empty (Group.description group) then
    throw "Group description must not be empty because Dynamo"
  else
    outcome ← request (PutItem SLATE_groups (group_item group));
    match outcome with
    | inl err => mret false
    | inr _ => _ ← cache_group group; mret true
    end.

Definition updateGroup (group : Group.t) : Store bool :=
  outcome ← request (UpdateItem SLATE_groups (Group.id group, Group.id group)
                       (group_updates group) None);
  match outcome with
  | inl err => mret false
  | inr _ => _ ← cache_group group; mret true
  end.

Definition findGroupByID (id : string) : Store Group.t :=
  cached ← find_cached (λ w, groupCache (groups w)) id;
  match cached with
  | Some group => mret group
  | None =>
      _ ← databaseQuery;
      outcome ← request (GetItem SLATE_groups (id, id));
      match outcome with
      | inl err => mret Group.none
      | inr item =>
          if bool_decide (item = ∅) then mret Group.none else
          group ← lift (group_of_item (Ok id)
                    (attr_string item "name" "Group record missing name attribute") item);
          _ ← cache_group group;
          mret group
      end
  end.

Definition findGroupByName (name : string) : Store Group.t :=
  cached ← find_cached (λ w, groupByNameCache (groups w)) name;
  match cached with
  | Some group => mret group
  | None =>
      _ ← databaseQuery;
      outcome ← request (Query SLATE_groups (Some "ByName")
                           (mkKC "name" (AVS name) None) ETrue);
      match outcome with
      | inl err => mret Group.none
      | inr [] => mret Group.none
      | inr [item] =>
          group ← lift (group_of_item
                    (attr_string item "ID" "Group record missing ID attribute")
                    (Ok name) item);
          _ ← cache_group group;
          mret group
      | inr _ => throw ("Group name " +:+ dquote +:+ name +:+ dquote +:+ " is not unique!")
      end
  end.

Definition getGroup (idOrName : string) : Store Group.t :=
  if begins_with idOrName groupIDPrefix then findGroupByID idOrName
  else findGroupByName idOrName.

(** The scan replaces [groupCache] and [groupByNameCache]; a cached listing is
    the whole of [groupCache], in an unspecified order. *)
Definition list_group (item : Item) : Store Group.t :=
  group ← lift (group_of_item
            (attr_string item "ID" "Group record missing ID attribute")
            (attr_string item "name" "Group record missing name attribute") item);
  _ ← cache_group group;
  mret group.

Definition listGroups (fuel : nat) : Store (list Group.t) :=
  list_all (λ w, groupCacheExpirationTime (groups w)) (λ w, groupCache (groups w))
    SLATE_groups (EExists "name") list_group
    (λ _ time, modify (upd_groups (upd_groupCacheExpirationTime (λ _, time))))
    groupCacheValidity fuel.

(** The reference parameter becomes an argument and a result: [None] is the
    [false] of the code. *)
Definition normalizeGroupID (groupID : string) (allowWildcard : bool) : Store (option string) :=
  if allowWildcard && bool_decide (groupID = wildcard) then mret (Some groupID)
  else if allowWildcard && bool_decide (groupID = wildcardName) then mret (Some wildcard)
  else if negb (begins_with groupID groupIDPrefix) then
    group ← findGroupByName groupID;
    if Group.valid group then mret (Some (Group.id group)) else mret None
  else mret (Some groupID).
End groups.

(** * What the table and the caches hold *)

Section group_invariant.
Context `{D : Dynamo} `{P : Platform}.
Implicit Types (g : Group.t) (it : Item) (tbl : gmap (string * string) Item).

(** An item represents a group: it has at least the attributes [addGroup]
    writes. *)
Definition represents_group g it : Prop :=
  Group.valid g = true ∧ group_item g ⊆ it.

(** The group is in the table. *)
Definition stored_group tbl g : Prop :=
  ∃ it, tbl !! (Group.id g, Group.id g) = Some it ∧ represents_group g it.

(** A lookup that found nothing is cached too, under the empty key: what a cached
    record may hold is a stored group or the invalid group. *)
Definition cached_group tbl g : Prop := g = Group.none ∨ stored_group tbl g.

(** Cache coherence of groups: every cached record, expired or not, is the group
    stored under its key, and the two caches are synchronised. *)
Record groups_inv (c : GroupCaches) tbl : Prop := {
  gi_table : ∀ k it, tbl !! k = Some it →
    ∃ g, represents_group g it ∧ k = (Group.id g, Group.id g);
  gi_names : ∀ g1 g2, stored_group tbl g1 → stored_group tbl g2 →
    Group.name g1 = Group.name g2 → Group.id g1 = Group.id g2;
  gi_nonempty : ∀ g, stored_group tbl g → Group.id g ≠ "" ∧ Group.name g ≠ "";
  gi_cache : ∀ id r, groupCache c !! id = Some r →
    Group.id (CacheRecord.record r) = id ∧ cached_group tbl (CacheRecord.record r);
  gi_byname : ∀ name r, groupByNameCache c !! name = Some r →
    Group.name (CacheRecord.record r) = name ∧ cached_group tbl (CacheRecord.record r);
  gi_sync : ∀ name r, groupByNameCache c !! name = Some r →
    is_Some (groupCache c !! Group.id (CacheRecord.record r));
}.

(** The invariant is about the table and two caches. *)
Lemma groups_inv_caches c c' tbl :
  groupCache c' = groupCache c → groupByNameCache c' = groupByNameCache c →
  groups_inv c tbl → groups_inv c' tbl.
Proof. intros H1 H2 []. split; rewrite ?H1, ?H2; auto. Qed.

Lemma represents_group_lookup g it a v :
  represents_group g it → group_item g !! a = Some v → it !! a = Some v.
Proof. intros [_ Hsub] Ha. by eapply lookup_weaken. Qed.

Lemma represents_group_eq g it a :
  represents_group g it → is_Some (group_item g !! a) → it !! a = group_item g !! a.
Proof. intros Hr [v Hv]. rewrite Hv. by eapply represents_group_lookup. Qed.

Lemma represents_group_item g : Group.valid g = true → represents_group g (group_item g).
Proof. by split. Qed.

(** Decoding an item, or the projection of it, that represents a group. *)
Lemma group_of_item_attrs g it id name :
  Group.valid g = true →
  id = Ok (Group.id g) → name = Ok (Group.name g) →
  (∀ a, a ∈ ["email"; "phone"; "scienceField"; "description"] →
    it !! a = group_item g !! a) →
  group_of_item id name it = Ok g.
Proof.
  intros Hv -> -> Ha. unfold group_of_item, mbind, Res_bind. simpl.
  rewrite (attr_default_ok _ _ (Group.email g)), (attr_default_ok _ _ (Group.phone g)),
    (attr_default_ok _ _ (Group.scienceField g)), (attr_default_ok _ _ (Group.description g));
    [destruct g; simpl in *; by subst|..];
    rewrite Ha by (rewrite !elem_of_cons; auto 10); reflexivity.
Qed.

Lemma represents_group_decode g it err :
  represents_group g it →
  group_of_item (Ok (Group.id g)) (attr_string it "name" err) it = Ok g.
Proof.
  intros Hr. apply group_of_item_attrs; [apply Hr|done| |].
  - apply attr_string_ok. by eapply represents_group_lookup.
  - intros a Ha. apply represents_group_eq; [done|].
    rewrite !elem_of_cons, elem_of_nil in Ha.
    destruct Ha as [->|[->|[->|[->|[]]]]]; by eexists.
Qed.

(** The entry of a group in the ByName index carries everything a lookup
    decodes. *)
Lemma represents_group_entry g it e err :
  represents_group g it →
  index_entry SLATE_groups (Some "ByName") it = Some e →
  e !! "name" = Some (AVS (Group.name g)) ∧
  group_of_item (attr_string e "ID" err) (Ok (Group.name g)) e = Ok g.
Proof.
  intros Hr He.
  assert (Hname : it !! "name" = Some (AVS (Group.name g)))
    by by eapply represents_group_lookup.
  rewrite (index_entry_some SLATE_groups "ByName" group_ByName _ _ eq_refl Hname) in He.
  injection He as <-.
  assert (Hp : ∀ a, a ∈ index_attributes SLATE_groups group_ByName →
    is_Some (group_item g !! a) →
    (filter (λ p, p.1 ∈ index_attributes SLATE_groups group_ByName) it : Item) !! a
    = group_item g !! a).
  { intros a Ha Hs. rewrite projected_lookup by done. by apply represents_group_eq. }
  unfold index_attributes in Hp. simpl in Hp.
  split; [rewrite Hp; [done|compute_done|by eexists]|].
  apply group_of_item_attrs; [apply Hr| |done|].
  - apply attr_string_ok. rewrite Hp; [done|compute_done|by eexists].
  - intros a Ha. rewrite !elem_of_cons, elem_of_nil in Ha.
    destruct Ha as [->|[->|[->|[->|[]]]]]; (apply Hp; [compute_done|by eexists]).
Qed.

(** An item represents one group. *)
Lemma represents_group_inj g1 g2 it :
  represents_group g1 it → represents_group g2 it → g1 = g2.
Proof.
  intros R1 R2. assert (Hid : Group.id g1 = Group.id g2).
  { apply AVS_inj.
    pose proof (represents_group_lookup _ _ "ID" _ R1 eq_refl) as L1.
    pose proof (represents_group_lookup _ _ "ID" _ R2 eq_refl) as L2. congruence. }
  pose proof (represents_group_decode _ _ "" R1) as D1.
  pose proof (represents_group_decode _ _ "" R2) as D2.
  rewrite Hid in D1. congruence.
Qed.

Lemma stored_group_inj tbl g1 g2 :
  stored_group tbl g1 → stored_group tbl g2 → Group.id g1 = Group.id g2 → g1 = g2.
Proof.
  intros (it1 & H1 & R1) (it2 & H2 & R2) Hid. rewrite Hid, H2 in H1. simplify_eq.
  by eapply represents_group_inj.
Qed.

(** Caching a stored group keeps the caches coherent. *)
Lemma groups_inv_cache c tbl g r :
  groups_inv c tbl → cached_group tbl g → CacheRecord.record r = g →
  groups_inv (upd_groupByNameCache (replaceCacheRecord (Group.name g) r)
               (upd_groupCache (replaceCacheRecord (Group.id g) r) c)) tbl.
Proof.
  intros Hi Hg Hr. unfold replaceCacheRecord. split; simpl.
  - apply Hi.
  - apply Hi.
  - apply Hi.
  - intros id r'. rewrite lookup_insert. case_decide; [|apply Hi].
    intros [= <-]. by subst.
  - intros name r'. rewrite lookup_insert. case_decide; [|apply Hi].
    intros [= <-]. by subst.
  - intros name r'. rewrite lookup_insert. case_decide.
    + intros [= <-]. rewrite Hr. rewrite lookup_insert_eq. eauto.
    + intros Hb. rewrite lookup_insert. case_decide; [eauto|].
      by apply (gi_sync _ _ Hi name).
Qed.
End group_invariant.

Section group_operations.
Context `{D : Dynamo} `{P : Platform} `{L : !DynamoLaws}.

Lemma normalizeGroupID_id g allowWildcard :
  begins_with g groupIDPrefix = true → normalizeGroupID g allowWildcard = mret (Some g).
Proof.
  intros Hg. unfold normalizeGroupID. rewrite Hg. simpl.
  rewrite !bool_decide_false; [by rewrite !andb_false_r|by intros ->..].
Qed.

Definition GroupsInv (w : World) : Prop := groups_inv (groups w) (table w SLATE_groups).

Definition is_group (w : World) (g : Group.t) : Prop :=
  stored_group (table w SLATE_groups) g.

Lemma quiet_GroupsInv w w' : quiet w w' → GroupsInv w → GroupsInv w'.
Proof. unfold GroupsInv. by intros [[-> _] _ _ _ -> _ _ _ _]. Qed.

Lemma wp_cache_group {B} g (k : unit → Store B) Q w :
  GroupsInv w → cached_group (table w SLATE_groups) g →
  (∀ w', GroupsInv w' → db w' = db w → wp (k tt) Q w') →
  wp (cache_group g ≫= k) Q w.
Proof.
  intros Hi Hg Hk. unfold cache_group. eapply wp_run; [reflexivity|].
  apply Hk; [|done]. by apply groups_inv_cache.
Qed.

(** The outcome of a lookup by [key], the group being looked up by the function
    [proj] of its record: a stored group with that key, or the invalid group
    when - the service being available - no stored group has it. *)
Definition group_lookup_post (proj : Group.t → string) (key : string) (w : World)
    (r : Res Group.t) (w' : World) : Prop :=
  GroupsInv w' ∧ read_only w w' ∧
  match r with
  | Ok g => (Group.valid g = true ∧ proj g = key ∧ is_group w g) ∨
            (g = Group.none ∧ (healthy (db w) → ∀ g', is_group w g' → proj g' ≠ key))
  | _ => False
  end.

Lemma stored_group_valid tbl g : stored_group tbl g → Group.valid g = true.
Proof. by intros (it & _ & Hv & _). Qed.

Lemma group_lookup_found proj key w w' g :
  GroupsInv w' → read_only w w' → proj g = key → is_group w g →
  group_lookup_post proj key w (Ok g) w'.
Proof.
  intros Hi Hro Hk Hg. split; [done|]. split; [done|]. left.
  split_and!; [by eapply stored_group_valid|done..].
Qed.

Lemma group_lookup_missing proj key w w' :
  GroupsInv w → quiet w w' → (healthy (db w) → ∀ g', is_group w g' → proj g' ≠ key) →
  group_lookup_post proj key w (Ok Group.none) w'.
Proof.
  intros Hi Hq Hn. split; [by eapply quiet_GroupsInv|]. split; [apply Hq|]. by right.
Qed.

(** The end of a successful lookup: the decoded group is cached and returned. *)
Lemma wp_cache_and_return proj key w w' g (r : Res Group.t) :
  GroupsInv w → quiet w w' → r = Ok g → proj g = key → is_group w g →
  wp (g ← lift r; _ ← cache_group g; mret g) (group_lookup_post proj key w) w'.
Proof.
  intros Hi Hq -> Hk Hg. eapply wp_run; [reflexivity|].
  apply wp_cache_group; [by eapply quiet_GroupsInv| |].
  - right. destruct Hq as [[-> _]]. done.
  - intros w3 Hi3 Hdb. apply group_lookup_found; [done| |done..].
    etrans; [apply Hq|by apply read_only_db].
Qed.

Lemma findGroupByID_spec id w :
  GroupsInv w → wp (findGroupByID id) (group_lookup_post Group.id id w) w.
Proof.
  intros Hi. unfold findGroupByID. apply wp_find_cached.
  { intros r w1 Hq Hr. destruct (gi_cache _ _ Hi _ _ Hr) as [<- [->|]].
    - apply group_lookup_missing; [done..|]. by intros _ g' []%(gi_nonempty _ _ Hi).
    - apply group_lookup_found; [by eapply quiet_GroupsInv|apply Hq|done..]. }
  intros w1 Hq1. apply wp_databaseQuery. intros w2 Hq2.
  assert (Hq : quiet w w2) by by etrans. clear w1 Hq1 Hq2.
  apply wp_GetItem; [intros e w3 Hq3 Hh|intros w3 Hq3].
  { apply group_lookup_missing; [done|by etrans|]. intros H'. by apply Hq in H'. }
  rewrite (proj1 (quiet_ro _ _ Hq)).
  destruct (table w SLATE_groups !! (id, id)) as [it|] eqn:Hit; simpl.
  - destruct (gi_table _ _ Hi _ _ Hit) as (g & Hr & [= -> _]).
    rewrite bool_decide_false.
    2: { intros ->. by eapply represents_group_lookup with (a:="ID") in Hr. }
    eapply wp_cache_and_return; [done|by etrans| |done|by exists it].
    by apply represents_group_decode.
  - rewrite bool_decide_true by done. apply group_lookup_missing; [done|by etrans|].
    intros _ g' (it & Hg' & _) <-. congruence.
Qed.

Lemma group_query_match tbl name (c : GroupCaches) e k it :
  groups_inv c tbl → tbl !! k = Some it →
  index_entry SLATE_groups (Some "ByName") it = Some e →
  kc_match (mkKC "name" (AVS name) None) e = true →
  ∃ g, represents_group g it ∧ k = (Group.id g, Group.id g) ∧ Group.name g = name.
Proof.
  intros Hi Hk He Hm. destruct (gi_table _ _ Hi _ _ Hk) as (g & Hr & ->).
  exists g. split_and!; [done..|].
  destruct (represents_group_entry _ _ _ "" Hr He) as [Hn _].
  unfold kc_match in Hm. simpl in Hm. rewrite andb_true_r, bool_decide_eq_true in Hm.
  rewrite Hn in Hm. injection Hm as Hm. by apply AVS_inj in Hm.
Qed.

Lemma findGroupByName_spec name w :
  GroupsInv w → wp (findGroupByName name) (group_lookup_post Group.name name w) w.
Proof.
  intros Hi. unfold findGroupByName. apply wp_find_cached.
  { intros r w1 Hq Hr. destruct (gi_byname _ _ Hi _ _ Hr) as [<- [->|]].
    - apply group_lookup_missing; [done..|]. by intros _ g' []%(gi_nonempty _ _ Hi).
    - apply group_lookup_found; [by eapply quiet_GroupsInv|apply Hq|done..]. }
  intros w1 Hq1. apply wp_databaseQuery. intros w2 Hq2.
  assert (Hq : quiet w w2) by by etrans. clear w1 Hq1 Hq2.
  apply wp_Query; [intros e w3 Hq3 Hh|intros l w3 Hq3 Hl].
  { apply group_lookup_missing; [done|by etrans|]. intros H'. by apply Hq in H'. }
  rewrite (proj1 (quiet_ro _ _ Hq)) in Hl.
  destruct l as [|e [|e' l]].
  - apply group_lookup_missing; [done|by etrans|]. intros _ g' (it & Hg' & Hr) <-.
    assert (Hname : it !! "name" = Some (AVS (Group.name g')))
      by by eapply represents_group_lookup.
    apply (not_elem_of_nil (filter (λ p, p.1 ∈ index_attributes SLATE_groups group_ByName) it : Item)).
    rewrite Hl. apply elem_of_query_items. eexists _, it. split; [done|].
    rewrite (index_entry_some SLATE_groups "ByName" group_ByName _ _ eq_refl Hname).
    split_and!; [done| |done]. unfold kc_match. simpl. rewrite andb_true_r.
    apply bool_decide_eq_true. rewrite projected_lookup; [done|compute_done].
  - assert (He : e ∈ [e]) by by left. rewrite Hl in He.
    apply elem_of_query_items in He as (k & it & Hk & He & Hm & _).
    destruct (group_query_match _ _ _ _ _ _ Hi Hk He Hm) as (g & Hr & -> & <-).
    eapply wp_cache_and_return; [done|by etrans| |done|by exists it].
    by eapply represents_group_entry.
  - exfalso. assert (Hlen : length (e :: e' :: l) ≤ 1); [|simpl in Hlen; lia].
    rewrite Hl. apply query_items_unique.
    intros k1 it1 e1 k2 it2 e2 H1 H2 He1 He2 Hm1 Hm2.
    destruct (group_query_match _ _ _ _ _ _ Hi H1 He1 Hm1) as (g1 & R1 & -> & N1).
    destruct (group_query_match _ _ _ _ _ _ Hi H2 He2 Hm2) as (g2 & R2 & -> & N2).
    assert (Hid : Group.id g1 = Group.id g2).
    { apply (gi_names _ _ Hi); [by eexists|by eexists|congruence]. }
    by rewrite Hid.
Qed.

(** ** Writing *)

(** The group can be stored without breaking the uniqueness of names and IDs:
    it is new, or it is the new version of the group with the same ID and name. *)
Definition compatible_group (tbl : gmap (string * string) Item) (g : Group.t) : Prop :=
  Group.valid g = true ∧ Group.id g ≠ "" ∧ Group.name g ≠ "" ∧
  ∀ g', stored_group tbl g' → (Group.id g' = Group.id g ↔ Group.name g' = Group.name g).

(** Only the invalid group has an empty ID or name. *)
Lemma cached_group_insert tbl g it g' :
  represents_group g it → cached_group tbl g' → Group.id g' ≠ Group.id g →
  cached_group (<[(Group.id g, Group.id g) := it]> tbl) g'.
Proof.
  intros Hr [->|(it' & Hit & Hr')] Hne; [by left|]. right. exists it'.
  by rewrite lookup_insert_ne by congruence.
Qed.

Lemma stored_group_insert tbl g it g' :
  represents_group g it →
  stored_group (<[(Group.id g, Group.id g) := it]> tbl) g' ↔
  g' = g ∨ (stored_group tbl g' ∧ Group.id g' ≠ Group.id g).
Proof.
  intros Hr. split.
  - intros (it' & Hit & Hr'). rewrite lookup_insert in Hit. case_decide as Hd.
    + left. simplify_eq. by eapply represents_group_inj.
    + right. split; [by eexists|congruence].
  - intros [->|[(it' & Hit & Hr') Hne]].
    + exists it. by rewrite lookup_insert_eq.
    + exists it'. rewrite lookup_insert_ne by congruence. done.
Qed.

Lemma groups_inv_write c tbl g it r :
  groups_inv c tbl → represents_group g it → compatible_group tbl g →
  CacheRecord.record r = g →
  groups_inv (upd_groupByNameCache (replaceCacheRecord (Group.name g) r)
               (upd_groupCache (replaceCacheRecord (Group.id g) r) c))
    (<[(Group.id g, Group.id g) := it]> tbl).
Proof.
  intros Hi Hr (Hv & Hid0 & Hn0 & Hc) Hrec. unfold replaceCacheRecord.
  assert (Hg : cached_group (<[(Group.id g, Group.id g) := it]> tbl) g).
  { right. apply stored_group_insert; auto. }
  split; simpl.
  - intros k it'. rewrite lookup_insert. case_decide; [|apply Hi].
    intros [= <-]. eauto.
  - intros g1 g2. rewrite !stored_group_insert by done.
    intros [->|[H1 N1]] [->|[H2 N2]] Hn; [done|..|by eapply (gi_names _ _ Hi)].
    + by destruct (N2 (proj2 (Hc _ H2) (eq_sym Hn))).
    + by destruct (N1 (proj2 (Hc _ H1) Hn)).
  - intros g'. rewrite stored_group_insert by done.
    intros [->|[H1 _]]; [done|by apply (gi_nonempty _ _ Hi)].
  - intros id r'. rewrite lookup_insert. case_decide; [intros [= <-]; by subst|].
    intros Hid. destruct (gi_cache _ _ Hi _ _ Hid) as [<- Hst]. split; [done|].
    by apply cached_group_insert.
  - intros name r'. rewrite lookup_insert. case_decide; [intros [= <-]; by subst|].
    intros Hid. destruct (gi_byname _ _ Hi _ _ Hid) as [<- Hst]. split; [done|].
    apply cached_group_insert; [done..|]. destruct Hst as [->|Hst]; [done|].
    intros Hq. apply (Hc _ Hst) in Hq. congruence.
  - intros name r'. rewrite lookup_insert. case_decide.
    + intros [= <-]. rewrite Hrec, lookup_insert_eq. eauto.
    + intros Hb. rewrite lookup_insert. case_decide; [eauto|].
      by apply (gi_sync _ _ Hi name).
Qed.

(** What a write of the group [g] does to the groups: nothing if it is refused,
    otherwise [g] is stored, replacing the group with its ID if there is one. *)
Definition group_write_post (g : Group.t) (w : World) (r : Res bool) (w' : World) : Prop :=
  GroupsInv w' ∧ (healthy (db w) → healthy (db w')) ∧
  (∀ t, t ≠ SLATE_groups → table w' t = table w t) ∧
  match r with
  | Ok true => ∀ g', is_group w' g' ↔ g' = g ∨ (is_group w g' ∧ Group.id g' ≠ Group.id g)
  | Ok false => ¬ healthy (db w) ∧ ∀ g', is_group w' g' ↔ is_group w g'
  | _ => False
  end.

Lemma wp_group_written g it w w' :
  GroupsInv w → represents_group g it → compatible_group (table w SLATE_groups) g →
  same_caches w w' → (healthy (db w) → healthy (db w')) →
  table_set SLATE_groups (<[(Group.id g, Group.id g) := it]> (table w SLATE_groups)) w w' →
  wp (_ ← cache_group g; mret true) (group_write_post g w) w'.
Proof.
  intros Hi Hr Hc Hq Hh Ht. eapply wp_run; [reflexivity|].
  assert (Hg : groups w' = groups w) by apply Hq.
  pose proof (table_set_same _ _ _ _ Ht) as Htg.
  split; [|split; [done|split]]; simpl.
  - unfold GroupsInv. simpl. rewrite Htg, Hg. by apply groups_inv_write.
  - intros t Hne. by eapply table_set_other.
  - intros g'. unfold is_group. simpl. rewrite Htg. by apply stored_group_insert.
Qed.

Lemma group_write_refused g w w' :
  GroupsInv w → quiet w w' → ¬ healthy (db w) → group_write_post g w (Ok false) w'.
Proof.
  intros Hi Hq Hh. split; [by eapply quiet_GroupsInv|].
  destruct (quiet_ro _ _ Hq) as [Ht Hh']. split; [done|]. split; [auto|].
  split; [done|]. intros g'. unfold is_group. by rewrite Ht.
Qed.

Lemma group_item_key g it :
  represents_group g it → item_key SLATE_groups it = Some (Group.id g, Group.id g).
Proof.
  intros Hr. by apply item_key_eq; eapply represents_group_lookup.
Qed.

(** The row [updateGroup] produces represents the new version of the group. *)
Lemma represents_group_update g it :
  Group.valid g = true →
  represents_group g (key_item SLATE_groups (Group.id g, Group.id g) ∪ group_updates g ∪ it).
Proof.
  intros Hv. split; [done|]. apply map_subseteq_spec. intros a v Ha.
  apply lookup_union_Some_l. unfold group_item in Ha.
  rewrite !lookup_insert in Ha. rewrite lookup_singleton in Ha.
  repeat (case_decide; [subst a; injection Ha as <-; reflexivity|]). done.
Qed.

(** The attributes DynamoDB does not accept empty. *)
Definition group_complete (g : Group.t) : bool :=
  negb (str_empty (Group.email g)) && negb (str_empty (Group.phone g)) &&
  negb (str_empty (Group.scienceField g)) && negb (str_empty (Group.description g)).

Lemma addGroup_spec g w :
  GroupsInv w → group_complete g = true → compatible_group (table w SLATE_groups) g →
  wp (addGroup g) (group_write_post g w) w.
Proof.
  intros Hi Hc Hcg. pose proof (proj1 Hcg) as Hv. unfold addGroup, group_complete in *.
  destruct (str_empty (Group.email g)), (str_empty (Group.phone g)),
    (str_empty (Group.scienceField g)), (str_empty (Group.description g)); try done.
  pose proof (represents_group_item _ Hv) as Hr.
  eapply wp_PutItem; [by apply group_item_key| |].
  - intros e w' Hq Hh. by apply group_write_refused.
  - intros w' Hq Hh Ht. by eapply wp_group_written.
Qed.

Lemma addGroup_incomplete g w :
  group_complete g = false → ∃ e, addGroup g w = (Throw e, w).
Proof.
  unfold addGroup, group_complete.
  destruct (str_empty (Group.email g)), (str_empty (Group.phone g)),
    (str_empty (Group.scienceField g)), (str_empty (Group.description g)); try done; by eexists.
Qed.

Lemma updateGroup_spec g w :
  GroupsInv w → compatible_group (table w SLATE_groups) g →
  wp (updateGroup g) (group_write_post g w) w.
Proof.
  intros Hi Hcg. pose proof (proj1 Hcg) as Hv. unfold updateGroup. apply wp_UpdateItem.
  - intros e w' Hq Hh. apply group_write_refused; [done..|]. intros Hd.
    destruct (Hh Hd) as (? & [=] & _).
  - intros w' Hq Hh _ Ht. eapply wp_group_written; [done| |done..].
    by apply represents_group_update.
Qed.

Lemma getGroup_spec idOrName w :
  GroupsInv w →
  wp (getGroup idOrName)
    (group_lookup_post (if begins_with idOrName groupIDPrefix then Group.id else Group.name)
       idOrName w) w.
Proof.
  intros Hi. unfold getGroup. destruct (begins_with idOrName groupIDPrefix).
  - by apply findGroupByID_spec.
  - by apply findGroupByName_spec.
Qed.

(** ** Listing *)

#[global] Instance group_listing :
  ListingLaws (λ w, groupCacheExpirationTime (groups w)) (λ w, groupCache (groups w))
    SLATE_groups (EExists "name") list_group
    (λ _ time, modify (upd_groups (upd_groupCacheExpirationTime (λ _, time))))
    GroupsInv is_group represents_group Group.id (λ x, x) Group.none.
Proof.
  split.
  - intros *. apply quiet_GroupsInv.
  - unfold is_group. by intros w w' x ->.
  - intros w w' Hq. by rewrite (quiet_groups _ _ Hq).
  - intros w w' Hq. by rewrite (quiet_groups _ _ Hq).
  - intros w k r Hi. apply (gi_cache _ _ Hi).
  - done.
  - done.
  - intros w x Hi Hx. by apply (gi_nonempty _ _ Hi).
  - intros w x y. apply stored_group_inj.
  - intros w x Hi (it & Hit & Hr). exists it. split; [done|].
    apply elem_of_scan_items. eexists. split; [done|]. simpl. apply bool_decide_eq_true.
    by rewrite (represents_group_lookup _ _ "name" _ Hr eq_refl).
  - apply represents_group_inj.
  - intros w it Hi [k [Hk _]]%elem_of_scan_items.
    destruct (gi_table _ _ Hi _ _ Hk) as (g & Hr & ->).
    assert (Hg : is_group w g) by by exists it.
    eapply wp_run.
    { unfold lift. rewrite (attr_string_ok _ _ _ (Group.id g)).
      - rewrite represents_group_decode by done. reflexivity.
      - by eapply represents_group_lookup. }
    eapply wp_run; [reflexivity|]. exists g. simpl. unfold replaceCacheRecord.
    rewrite lookup_insert_eq. split_and!; eauto.
    + apply groups_inv_cache; [done|by right|done].
    + intros k Hk'. rewrite lookup_insert. by case_decide.
  - intros w l time Hi. split_and!; try done. by apply (groups_inv_caches (groups w)).
Qed.

(** While [groupCacheExpirationTime] is ahead, [groupCache] has every group. *)
Definition GroupsListed : World → Prop :=
  listed (expiration := λ w, groupCacheExpirationTime (groups w))
    (cache := λ w, groupCache (groups w)) (stored := is_group) (id := Group.id).

(** A listing returns groups only, but for the invalid group of a failed lookup, and
    every group if the service is available. *)
Definition listGroups_post (w : World) (r : Res (list Group.t)) (w' : World) : Prop :=
  GroupsInv w' ∧ GroupsListed w' ∧ read_only w w' ∧
  ∃ l, r = Ok l ∧ (∀ g, g ∈ l → g = Group.none ∨ is_group w g) ∧
    (healthy (db w) → ∀ g, is_group w g → g ∈ l).

Lemma listGroups_spec `{!ClockLaws} fuel w :
  GroupsInv w → GroupsListed w →
  pages_left (db w) SLATE_groups (EExists "name") None < fuel →
  wp (listGroups fuel) (listGroups_post w) w.
Proof. intros. eapply wp_mono, list_all_spec; [|done..]. intros r w'. by apply list_post_exact. Qed.
End group_operations.

(** * Properties *)

Section group_theorems.
Context `{D : Dynamo} `{P : Platform} `{L : !DynamoLaws}.

(** A lookup of a group by ID, by name, or by either, keeps the caches coherent
    and the database as it is, never throws, and returns a stored group with that
    ID or name, or - the service being available - the invalid group exactly when
    there is none; a group that was cached is the stored one. *)
Theorem group_lookups_correct (key : string) (w : World) :
  GroupsInv w →
  wp (findGroupByID key) (group_lookup_post Group.id key w) w ∧
  wp (findGroupByName key) (group_lookup_post Group.name key w) w ∧
  wp (getGroup key)
    (group_lookup_post (if begins_with key groupIDPrefix then Group.id else Group.name)
       key w) w.
Proof.
  intros Hi. split; [by apply findGroupByID_spec|].
  split; [by apply findGroupByName_spec|by apply getGroup_spec].
Qed.

(** Adding a group with a fresh ID and name, or updating a group without
    renaming it, stores exactly that group, keeps the caches coherent and touches
    no other table; [false] is returned only if the service refused, and then
    nothing changed. A group with an empty email, phone, science field or
    description is rejected by [addGroup] without any effect. *)
Theorem group_writes_correct (g : Group.t) (w : World) :
  GroupsInv w → compatible_group (table w SLATE_groups) g →
  (if group_complete g then wp (addGroup g) (group_write_post g w) w
   else ∃ e, addGroup g w = (Throw e, w)) ∧
  wp (updateGroup g) (group_write_post g w) w.
Proof.
  intros Hi Hc. split; [|by apply updateGroup_spec].
  destruct (group_complete g) eqn:Hg; [by apply addGroup_spec|by apply addGroup_incomplete].
Qed.

(** After a group has been added, it is found by its ID and by its name, from
    the cache or from the database, and a group with another ID is found exactly if
    it was stored before. *)
Theorem added_group_is_found (g : Group.t) (w w' : World) :
  GroupsInv w → healthy (db w) → compatible_group (table w SLATE_groups) g →
  group_complete g = true → addGroup g w = (Ok true, w') →
  (findGroupByID (Group.id g) w').1 = Ok g ∧
  (findGroupByName (Group.name g) w').1 = Ok g ∧
  ∀ id, id ≠ Group.id g → ∃ g', (findGroupByID id w').1 = Ok g' ∧
    (Group.valid g' = true ↔ ∃ g'', is_group w g'' ∧ Group.id g'' = id).
Proof.
  intros Hi Hd Hc Hg Hadd. pose proof (addGroup_spec g w Hi Hg Hc) as Hs.
  unfold wp in Hs. rewrite Hadd in Hs. destruct Hs as (Hi' & Hd' & _ & Hst). simpl in *.
  assert (Hg' : is_group w' g) by (apply Hst; by left).
  split; [|split].
  - destruct (findGroupByID_spec (Group.id g) w' Hi') as (_ & _ & Hr).
    destruct (findGroupByID (Group.id g) w').1 as [x| |]; [|done..].
    destruct Hr as [(_ & Hid & Hx)|[_ Hn]]; [|by destruct (Hn (Hd' Hd) g)].
    f_equal. by eapply stored_group_inj.
  - destruct (findGroupByName_spec (Group.name g) w' Hi') as (_ & _ & Hr).
    destruct (findGroupByName (Group.name g) w').1 as [x| |]; [|done..].
    destruct Hr as [(_ & Hn & Hx)|[_ Hn]]; [|by destruct (Hn (Hd' Hd) g)].
    f_equal. eapply stored_group_inj; [done..|]. by apply (gi_names _ _ Hi').
  - intros id Hne. destruct (findGroupByID_spec id w' Hi') as (_ & _ & Hr).
    destruct (findGroupByID id w').1 as [x| |]; [|done..]. exists x. split; [done|].
    destruct Hr as [(Hv & Hid & Hx)|[-> Hn]].
    + split; [|done]. intros _. apply Hst in Hx as [->|[Hx _]]; [done|eauto].
    + split; [done|]. intros (g'' & Hg'' & <-). exfalso. apply (Hn (Hd' Hd) g''); [|done].
      apply Hst. by right.
Qed.

(** Listing the groups ends within the pages of the table and returns every
    group if the service is available, nothing but groups otherwise; answered from
    the cache or by a scan, it establishes that the cache is complete while its
    expiration time is ahead. *)
Theorem listGroups_correct `{!ClockLaws} (fuel : nat) (w : World) :
  GroupsInv w → GroupsListed w →
  pages_left (db w) SLATE_groups (EExists "name") None < fuel →
  wp (listGroups fuel) (listGroups_post w) w.
Proof. apply listGroups_spec. Qed.
End group_theorems.

Section group_witnesses.
Import Demo.

Lemma GroupsInv_empty c tbl :
  tbl = ∅ → groupCache c = ∅ → groupByNameCache c = ∅ → groups_inv c tbl.
Proof.
  intros -> H1 H2. split; try (intros *; rewrite ?H1, ?H2, lookup_empty; done).
  - intros g1 g2 (it & Hit & _). by rewrite lookup_empty in Hit.
  - intros g (it & Hit & _). by rewrite lookup_empty in Hit.
Qed.

Definition demo_group : Group.t :=
  Group.mk true "group_1" "astro" "a@b.c" "555" "Astronomy" "stars".

(** The server after adding a group, its caches empty again. *)
Definition demo_groups : World := start (db (addGroup demo_group empty).2).

Lemma demo_compatible : compatible_group (table empty SLATE_groups) demo_group.
Proof.
  split_and!; try done. intros g' (it & Hit & _).
  by rewrite empty_table, lookup_empty in Hit.
Qed.

Lemma demo_added :
  GroupsInv (addGroup demo_group empty).2 ∧
  ∀ g, is_group (addGroup demo_group empty).2 g ↔ g = demo_group.
Proof.
  destruct (addGroup_spec demo_group empty) as (Hi & _ & _ & Hg);
    [by apply GroupsInv_empty|done|apply demo_compatible|].
  split; [done|]. intros g. rewrite (Hg g). split; [|by left].
  intros [?|[(it & Hit & _) _]]; [done|by rewrite empty_table, lookup_empty in Hit].
Qed.

Lemma demo_groups_inv : GroupsInv demo_groups.
Proof.
  destruct demo_added as [Hi _]. destruct Hi as [H1 H2 H3 _ _ _].
  split; [exact H1|exact H2|exact H3|..]; intros *; simpl; by rewrite lookup_empty.
Qed.

Lemma group_lookups_witness :
  wp (findGroupByName "astro") (group_lookup_post Group.name "astro" demo_groups) demo_groups ∧
  (findGroupByName "astro" demo_groups).1 = Ok demo_group.
Proof.
  split; [|vm_compute; reflexivity].
  exact (proj1 (proj2 (group_lookups_correct "astro" demo_groups demo_groups_inv))).
Defined.

Lemma group_writes_witness :
  wp (addGroup demo_group) (group_write_post demo_group empty) empty ∧
  (addGroup demo_group empty).1 = Ok true.
Proof.
  split; [|vm_compute; reflexivity].
  exact (proj1 (group_writes_correct demo_group empty
    (GroupsInv_empty (groups empty) (table empty SLATE_groups) eq_refl eq_refl eq_refl)
    demo_compatible)).
Defined.

Lemma added_group_witness :
  (findGroupByID "group_1" (addGroup demo_group empty).2).1 = Ok demo_group.
Proof.
  refine (proj1 (added_group_is_found demo_group empty (addGroup demo_group empty).2
    (GroupsInv_empty (groups empty) (table empty SLATE_groups) eq_refl eq_refl eq_refl)
    healthy_empty demo_compatible eq_refl _)).
  apply run_result. vm_compute. reflexivity.
Defined.

Lemma listGroups_witness :
  wp (listGroups 5) (listGroups_post demo_groups) demo_groups ∧
  (listGroups 5 demo_groups).1 = Ok [demo_group].
Proof.
  split; [|vm_compute; reflexivity].
  apply listGroups_correct.
  - apply demo_groups_inv.
  - intros Hlt. simpl in Hlt. lia.
  - rewrite pages. apply Nat.ltb_lt. vm_compute. reflexivity.
Defined.
End group_witnesses.
