(* ===== verification/StoreUsers.v ===== *)
(** User records: the operations of [PersistentStore] on the user records of the
    users table and on the caches of users, and [authenticateUser]
    (src/PersistentStore.cpp). *)

From S2P Require Import Prelude Entities Cache Dynamo Store Demo Listing.

Section users.
Context `{D : Dynamo} `{P : Platform}.

(** The item [addUser] stores. *)
Definition user_item (u : User.t) : Item :=
  {["ID" := AVS (User.id u); "sortKey" := AVS (User.id u);
    "name" := AVS (User.name u); "globusID" := AVS (User.globusID u);
    "token" := AVS (User.token u); "email" := AVS (User.email u);
    "phone" := AVS (User.phone u); "institution" := AVS (User.institution u);
    "admin" := AVBool (User.admin u)]}.

(** The attributes [updateUser] changes. *)
Definition user_updates (u : User.t) : Item :=
  {["name" := AVS (User.name u); "globusID" := AVS (User.globusID u);
    "token" := AVS (User.token u); "email" := AVS (User.email u);
    "phone" := AVS (User.phone u); "institution" := AVS (User.institution u);
    "admin" := AVBool (User.admin u)]}.

(** Decoding of an item; the fields found differently by each function are
    arguments. *)
Definition user_of_item (id name email token globusID : Res string) (admin : Res bool)
    (item : Item) : Res User.t :=
  id ← id; name ← name; email ← email; token ← token; globusID ← globusID; admin ← admin;
  mret (User.mk true id name email (attr_default item "phone")
          (attr_default item "institution") token globusID admin).

Definition user_attr (item : Item) (key : string) : Res string :=
  attr_string item key ("user record missing " +:+ key +:+ " attribute").
Definition user_admin (item : Item) : Res bool :=
  attr_bool item "admin" "user record missing admin attribute".

(** [replaceCacheRecord] on the three caches of users. *)
Definition cache_user (u : User.t) : Store unit :=
  record ← make_record u userCacheValidity;
  _ ← modify (upd_users (upd_userCache (replaceCacheRecord (User.id u) record)));
  _ ← modify (upd_users (upd_userByTokenCache (replaceCacheRecord (User.token u) record)));
  modify (upd_users (upd_userByGlobusIDCache (replaceCacheRecord (User.globusID u) record))).

Definition addUser (user : User.t) : Store bool :=
  outcome ← request (PutItem SLATE_users (user_item user));
  match outcome with
  | inl err => mret false
  | inr _ => _ ← cache_user user; mret true
  end.

Definition getUser (id : string) : Store User.t :=
  cached ← find_cached (λ w, userCache (users w)) id;
  match cached with
  | Some user => mret user
  | None =>
      _ ← databaseQuery;
      outcome ← request (GetItem SLATE_users (id, id));
      match outcome with
      | inl err => mret User.none
      | inr item =>
          if bool_decide (item = ∅) then mret User.none else
          user ← lift (user_of_item (Ok id) (user_attr item "name") (user_attr item "email")
                   (user_attr item "token") (user_attr item "globusID") (user_admin item) item);
          _ ← cache_user user;
          mret user
      end
  end.

Definition findUserByToken (token : string) : Store User.t :=
  cached ← find_cached (λ w, userByTokenCache (users w)) token;
  match cached with
  | Some user => mret user
  | None =>
      _ ← databaseQuery;
      outcome ← request (Query SLATE_users (Some "ByToken")
                           (mkKC "token" (AVS token) None) ETrue);
      match outcome with
      | inl err => mret User.none
      | inr [] => mret User.none
      | inr [item] =>
          user ← lift (user_of_item (user_attr item "ID") (user_attr item "name")
                   (user_attr item "email") (Ok token) (user_attr item "globusID")
                   (user_admin item) item);
          _ ← cache_user user;
          mret user
      | inr _ => throw ("Multiple user records are associated with token " +:+ token +:+ "!")
      end
  end.

Definition findUserByGlobusID (globusID : string) : Store User.t :=
  cached ← find_cached (λ w, userByGlobusIDCache (users w)) globusID;
  match cached with
  | Some user => mret user
  | None =>
      _ ← databaseQuery;
      outcome ← request (Query SLATE_users (Some "ByGlobusID")
                           (mkKC "globusID" (AVS globusID) None) ETrue);
      match outcome with
      | inl err => mret User.none
      | inr [] => mret User.none
      | inr [item] =>
          user ← lift (user_of_item
                   (attr_string item "ID" "user record missing name attribute")
                   (user_attr item "name") (user_attr item "email") (user_attr item "token")
                   (Ok globusID) (user_admin item) item);
          _ ← cache_user user;
          mret user
      | inr _ =>
          throw ("Multiple user records are associated with Globus ID " +:+ globusID +:+ "!")
      end
  end.

Definition updateUser (user oldUser : User.t) : Store bool :=
  outcome ← request (UpdateItem SLATE_users (User.id user, User.id user)
                       (user_updates user) None);
  match outcome with
  | inl err => mret false
  | inr _ =>
      record ← make_record user userCacheValidity;
      _ ← modify (upd_users (upd_userCache (replaceCacheRecord (User.id user) record)));
      _ ← (if negb (bool_decide (User.token oldUser = User.token user))
           then modify (upd_users (upd_userByTokenCache (delete (User.token oldUser))))
           else mret tt);
      _ ← modify (upd_users (upd_userByTokenCache (replaceCacheRecord (User.token user) record)));
      _ ← modify (upd_users (upd_userByGlobusIDCache
                               (replaceCacheRecord (User.globusID user) record)));
      mret true
  end.

(** The secondary entries are found through the record of the main cache. *)
Definition forget_user (id : string) : Store unit :=
  c ← gets (λ w, userCache (users w));
  _ ← match c !! id with
      | Some record =>
          _ ← modify (upd_users (upd_userByTokenCache
                                   (delete (User.token (CacheRecord.record record)))));
          modify (upd_users (upd_userByGlobusIDCache
                               (delete (User.globusID (CacheRecord.record record)))))
      | None => mret tt
      end;
  modify (upd_users (upd_userCache (delete id))).

Definition removeUser (id : string) : Store bool :=
  _ ← forget_user id;
  outcome ← request (DeleteItem SLATE_users (id, id) None);
  match outcome with
  | inl err => mret false
  | inr _ => mret true
  end.

(** The scan replaces [userCache] alone. *)
Definition list_user (item : Item) : Store User.t :=
  let field key := v ← find_deref item key; mret (GetS v) in
  user ← lift (user_of_item (field "ID") (field "name") (field "email") (field "token")
           (field "globusID") (v ← find_deref item "admin"; mret (GetBool v)) item);
  record ← make_record user userCacheValidity;
  _ ← modify (upd_users (upd_userCache (replaceCacheRecord (User.id user) record)));
  mret user.

Definition listUsers (fuel : nat) : Store (list User.t) :=
  list_all (λ w, userCacheExpirationTime (users w)) (λ w, userCache (users w))
    SLATE_users (ENotExists "groupID") list_user
    (λ _ time, modify (upd_users (upd_userCacheExpirationTime (λ _, time))))
    userCacheValidity fuel.

(** [authenticateUser]: the token is absent when the request has no [token]
    parameter. *)
Definition authenticateUser (token : option string) : Store User.t :=
  match token with
  | None => mret User.none
  | Some token => findUserByToken token
  end.
End users.

(** * What the table and the caches hold *)

Section user_invariant.
Context `{D : Dynamo} `{P : Platform}.
Implicit Types (u : User.t) (it : Item) (tbl : gmap (string * string) Item).

(** The row of a user: at least the attributes [addUser] writes, and not the
    attribute which is the mark of membership records. *)
Definition user_row u it : Prop :=
  User.valid u = true ∧ user_item u ⊆ it ∧ it !! "groupID" = None.

(** The row of a membership of user [uID] in group [groupID]; it has none of the
    keys of the other indexes. *)
Definition member_row (uID groupID : string) it : Prop :=
  it !! "ID" = Some (AVS uID) ∧ it !! "groupID" = Some (AVS groupID) ∧
  it !! "token" = None ∧ it !! "globusID" = None.

Definition stored_user tbl u : Prop :=
  ∃ it, tbl !! (User.id u, User.id u) = Some it ∧ user_row u it.

(** A listing caches the invalid user when a member does not exist. *)
Definition cached_user tbl u : Prop := u = User.none ∨ stored_user tbl u.

Record users_inv (c : UserCaches) tbl : Prop := {
  ui_table : ∀ k it, tbl !! k = Some it →
    (∃ u, user_row u it ∧ k = (User.id u, User.id u)) ∨
    (∃ uID g, member_row uID g it ∧ k = (uID, uID +:+ ":" +:+ g));
  ui_tokens : ∀ u1 u2, stored_user tbl u1 → stored_user tbl u2 →
    User.token u1 = User.token u2 → User.id u1 = User.id u2;
  ui_globusIDs : ∀ u1 u2, stored_user tbl u1 → stored_user tbl u2 →
    User.globusID u1 = User.globusID u2 → User.id u1 = User.id u2;
  ui_nonempty : ∀ u, stored_user tbl u → User.id u ≠ "";
  ui_cache : coherent (cached_user tbl) User.id (userCache c);
  ui_token : coherent (stored_user tbl) User.token (userByTokenCache c);
  ui_globus : coherent (stored_user tbl) User.globusID (userByGlobusIDCache c);
  ui_sync_token : synchronised User.id (userByTokenCache c) (userCache c);
  ui_sync_globus : synchronised User.id (userByGlobusIDCache c) (userCache c);
}.

Lemma user_row_lookup u it a v :
  user_row u it → user_item u !! a = Some v → it !! a = Some v.
Proof. intros (_ & Hsub & _) Ha. by eapply lookup_weaken. Qed.

(** Any part of the row that has the attributes of [addUser] decodes to the user,
    whatever the error messages. *)
Lemma user_of_item_ok u (e : Item) id name email token globusID admin :
  User.valid u = true →
  (∀ a, a ∈ ["phone"; "institution"] → e !! a = user_item u !! a) →
  id = Ok (User.id u) → name = Ok (User.name u) → email = Ok (User.email u) →
  token = Ok (User.token u) → globusID = Ok (User.globusID u) →
  admin = Ok (User.admin u) →
  user_of_item id name email token globusID admin e = Ok u.
Proof.
  intros Hv He -> -> -> -> -> ->. unfold user_of_item, mbind, Res_bind. simpl.
  rewrite (attr_default_ok _ _ (User.phone u)), (attr_default_ok _ _ (User.institution u));
    [destruct u; simpl in *; by subst|..];
    rewrite He by (rewrite !elem_of_cons; auto); reflexivity.
Qed.

Lemma user_row_getUser u it :
  user_row u it →
  user_of_item (Ok (User.id u)) (user_attr it "name") (user_attr it "email")
    (user_attr it "token") (user_attr it "globusID") (user_admin it) it = Ok u.
Proof.
  intros Hr. apply user_of_item_ok; unfold user_attr, user_admin;
    try (apply attr_string_ok || apply attr_bool_ok); try done;
    try (by eapply user_row_lookup); [apply Hr|].
  intros a Ha. rewrite !elem_of_cons, elem_of_nil in Ha.
  destruct Ha as [->|[->|[]]]; by erewrite user_row_lookup.
Qed.

Lemma user_row_inj u1 u2 it : user_row u1 it → user_row u2 it → u1 = u2.
Proof.
  intros R1 R2. assert (Hid : User.id u1 = User.id u2).
  { apply AVS_inj.
    pose proof (user_row_lookup _ _ "ID" _ R1 eq_refl).
    pose proof (user_row_lookup _ _ "ID" _ R2 eq_refl). congruence. }
  pose proof (user_row_getUser _ _ R1) as D1.
  pose proof (user_row_getUser _ _ R2) as D2. rewrite Hid in D1. congruence.
Qed.

Lemma stored_user_inj tbl u1 u2 :
  stored_user tbl u1 → stored_user tbl u2 → User.id u1 = User.id u2 → u1 = u2.
Proof.
  intros (it1 & H1 & R1) (it2 & H2 & R2) Hid. rewrite Hid, H2 in H1. simplify_eq.
  by eapply user_row_inj.
Qed.

(** The entries of a user in the indexes by token and by Globus ID. *)
Lemma user_row_token_entry u it e :
  user_row u it → index_entry SLATE_users (Some "ByToken") it = Some e →
  e !! "token" = Some (AVS (User.token u)) ∧
  user_of_item (user_attr e "ID") (user_attr e "name") (user_attr e "email")
    (Ok (User.token u)) (user_attr e "globusID") (user_admin e) e = Ok u.
Proof.
  intros Hr He.
  assert (Hp : ∀ a v, a ∈ index_attributes SLATE_users user_ByToken →
    user_item u !! a = Some v → e !! a = Some v).
  { intros a v Ha Hv. rewrite (index_entry_lookup_eq SLATE_users "ByToken" _ it e a eq_refl He Ha).
    by eapply user_row_lookup. }
  split; [by apply Hp; [compute_done|]|].
  apply user_of_item_ok; unfold user_attr, user_admin;
    try (apply attr_string_ok || apply attr_bool_ok); try done;
    try (by apply Hp; [compute_done|]); [apply Hr|].
  intros a Ha. rewrite !elem_of_cons, elem_of_nil in Ha.
  destruct Ha as [->|[->|[]]]; (erewrite Hp; [done|compute_done|done]).
Qed.

Lemma user_row_globus_entry u it e :
  user_row u it → index_entry SLATE_users (Some "ByGlobusID") it = Some e →
  e !! "globusID" = Some (AVS (User.globusID u)) ∧
  user_of_item (attr_string e "ID" "user record missing name attribute")
    (user_attr e "name") (user_attr e "email") (user_attr e "token")
    (Ok (User.globusID u)) (user_admin e) e = Ok u.
Proof.
  intros Hr He.
  assert (Hp : ∀ a v, a ∈ index_attributes SLATE_users user_ByGlobusID →
    user_item u !! a = Some v → e !! a = Some v).
  { intros a v Ha Hv.
    rewrite (index_entry_lookup_eq SLATE_users "ByGlobusID" _ it e a eq_refl He Ha).
    by eapply user_row_lookup. }
  split; [by apply Hp; [compute_done|]|].
  apply user_of_item_ok; unfold user_attr, user_admin;
    try (apply attr_string_ok || apply attr_bool_ok); try done;
    try (by apply Hp; [compute_done|]); [apply Hr|].
  intros a Ha. rewrite !elem_of_cons, elem_of_nil in Ha.
  destruct Ha as [->|[->|[]]]; (erewrite Hp; [done|compute_done|done]).
Qed.
End user_invariant.

Section user_operations.
Context `{D : Dynamo} `{P : Platform} `{L : !DynamoLaws}.

Definition UsersInv (w : World) : Prop := users_inv (users w) (table w SLATE_users).

Definition is_user (w : World) (u : User.t) : Prop := stored_user (table w SLATE_users) u.

Lemma quiet_UsersInv w w' : quiet w w' → UsersInv w → UsersInv w'.
Proof. unfold UsersInv. by intros [[-> _] _ _ -> _ _ _ _ _]. Qed.

Lemma stored_user_valid tbl u : stored_user tbl u → User.valid u = true.
Proof. by intros (it & _ & Hv & _). Qed.

Lemma users_inv_cache c tbl u r :
  users_inv c tbl → stored_user tbl u → CacheRecord.record r = u →
  users_inv (upd_userByGlobusIDCache (replaceCacheRecord (User.globusID u) r)
              (upd_userByTokenCache (replaceCacheRecord (User.token u) r)
                (upd_userCache (replaceCacheRecord (User.id u) r) c))) tbl.
Proof.
  intros [] Hu <-. unfold replaceCacheRecord.
  split; simpl; eauto using coherent_insert, synchronised_insert.
  apply coherent_insert; [done|done|by right].
Qed.

Lemma wp_cache_user {B} u (k : unit → Store B) Q w :
  UsersInv w → is_user w u →
  (∀ w', UsersInv w' → db w' = db w → wp (k tt) Q w') →
  wp (cache_user u ≫= k) Q w.
Proof.
  intros Hi Hu Hk. unfold cache_user. eapply wp_run; [reflexivity|].
  apply Hk; [|done]. by apply users_inv_cache.
Qed.

(** ** Lookups *)

(** The outcome of a lookup by [key]: a stored user with that key, or the invalid
    user when - the service being available - no stored user has it. *)
Definition user_lookup_post (proj : User.t → string) (key : string) (w : World)
    (r : Res User.t) (w' : World) : Prop :=
  UsersInv w' ∧ read_only w w' ∧
  match r with
  | Ok u => (User.valid u = true ∧ proj u = key ∧ is_user w u) ∨
            (u = User.none ∧ (healthy (db w) → ∀ u', is_user w u' → proj u' ≠ key))
  | _ => False
  end.

Lemma user_lookup_found proj key w w' u :
  UsersInv w' → read_only w w' → proj u = key → is_user w u →
  user_lookup_post proj key w (Ok u) w'.
Proof.
  intros Hi Hro Hk Hu. split; [done|]. split; [done|]. left.
  split_and!; [by eapply stored_user_valid|done..].
Qed.

Lemma user_lookup_missing proj key w w' :
  UsersInv w → quiet w w' → (healthy (db w) → ∀ u', is_user w u' → proj u' ≠ key) →
  user_lookup_post proj key w (Ok User.none) w'.
Proof.
  intros Hi Hq Hn. split; [by eapply quiet_UsersInv|]. split; [apply Hq|]. by right.
Qed.

Lemma wp_cache_user_and_return proj key w w' u (r : Res User.t) :
  UsersInv w → quiet w w' → r = Ok u → proj u = key → is_user w u →
  wp (u ← lift r; _ ← cache_user u; mret u) (user_lookup_post proj key w) w'.
Proof.
  intros Hi Hq -> Hk Hu. eapply wp_run; [reflexivity|].
  apply wp_cache_user; [by eapply quiet_UsersInv| |].
  - unfold is_user. destruct Hq as [[-> _]]. done.
  - intros w3 Hi3 Hdb. apply user_lookup_found; [done| |done..].
    etrans; [apply Hq|by apply read_only_db].
Qed.

(** A row under the key of a user is that user's. *)
Lemma user_row_at c tbl id it :
  users_inv c tbl → tbl !! (id, id) = Some it → ∃ u, user_row u it ∧ User.id u = id.
Proof.
  intros Hi Hit. destruct (ui_table _ _ Hi _ _ Hit) as [(u & Hr & [= -> _])|(uID & g & _ & Hk)].
  - eauto.
  - injection Hk as <- Hk. apply (f_equal str_size) in Hk. rewrite !str_size_app in Hk.
    simpl in Hk. lia.
Qed.

(** A row with a token or a Globus ID is a user's. *)
Lemma user_row_of_attr c tbl k it a :
  users_inv c tbl → tbl !! k = Some it → a ∈ ["token"; "globusID"] → is_Some (it !! a) →
  ∃ u, user_row u it ∧ k = (User.id u, User.id u).
Proof.
  intros Hi Hit Ha Hs. destruct (ui_table _ _ Hi _ _ Hit) as [?|(uID & g & Hm & _)]; [done|].
  destruct Hm as (_ & _ & Ht & Hg). rewrite !elem_of_cons, elem_of_nil in Ha.
  destruct Ha as [->|[->|[]]]; rewrite ?Ht, ?Hg in Hs; by destruct Hs.
Qed.

Lemma getUser_spec id w :
  UsersInv w → wp (getUser id) (user_lookup_post User.id id w) w.
Proof.
  intros Hi. unfold getUser. apply wp_find_cached.
  { intros r w1 Hq Hr. destruct (ui_cache _ _ Hi _ _ Hr) as [<- [->|]].
    - apply user_lookup_missing; [done..|]. intros _ u' Hu'. by apply (ui_nonempty _ _ Hi).
    - apply user_lookup_found; [by eapply quiet_UsersInv|apply Hq|done..]. }
  intros w1 Hq1. apply wp_databaseQuery. intros w2 Hq2.
  assert (Hq : quiet w w2) by by etrans. clear w1 Hq1 Hq2.
  apply wp_GetItem; [intros e w3 Hq3 Hh|intros w3 Hq3].
  { apply user_lookup_missing; [done|by etrans|]. intros H'. by apply Hq in H'. }
  rewrite (proj1 (quiet_ro _ _ Hq)).
  destruct (table w SLATE_users !! (id, id)) as [it|] eqn:Hit; simpl.
  - destruct (user_row_at _ _ _ _ Hi Hit) as (u & Hr & <-).
    rewrite bool_decide_false.
    2: { intros ->. by eapply user_row_lookup with (a:="ID") in Hr. }
    eapply wp_cache_user_and_return; [done|by etrans| |done|by exists it].
    by apply user_row_getUser.
  - rewrite bool_decide_true by done. apply user_lookup_missing; [done|by etrans|].
    intros _ u' (it & Hu' & _) <-. congruence.
Qed.

(** What the query of one of the two unique indexes returns. *)
Lemma user_query index ix attr proj w key l :
  UsersInv w → assoc index user_indexes = Some ix → ix_key ix = attr →
  attr ∈ ["token"; "globusID"] →
  (∀ u it, user_row u it → it !! attr = Some (AVS (proj u))) →
  (∀ u1 u2, is_user w u1 → is_user w u2 → proj u1 = proj u2 → User.id u1 = User.id u2) →
  l ≡ₚ query_items SLATE_users (Some index) (mkKC attr (AVS key) None) ETrue
         (table w SLATE_users) →
  (l = [] ∧ ∀ u, is_user w u → proj u ≠ key) ∨
  (∃ u it e, l = [e] ∧ is_user w u ∧ proj u = key ∧ user_row u it ∧
     index_entry SLATE_users (Some index) it = Some e).
Proof.
  intros Hi Hix Hk Ha Hattr Huniq Hl.
  eapply (unique_query user_row (λ u, (User.id u, User.id u)) proj SLATE_users)
    in Hl as [[-> Hn]|(u & it & e & -> & Hit & Hr & Hp & He)]; [| |exact Hix|exact Hk| |exact Hattr|].
  - left. split; [done|]. intros u (it & Hit & Hr). by eapply Hn.
  - right. exists u, it, e. split_and!; [done|by exists it|done..].
  - intros k it Hit Hs. by eapply user_row_of_attr.
  - intros u1 u2 it1 it2 H1 R1 H2 R2 Hp.
    by rewrite (Huniq u1 u2) by (done || by eexists).
Qed.

Lemma findUserByToken_spec token w :
  UsersInv w → wp (findUserByToken token) (user_lookup_post User.token token w) w.
Proof.
  intros Hi. unfold findUserByToken. apply wp_find_cached.
  { intros r w1 Hq Hr. destruct (ui_token _ _ Hi _ _ Hr).
    apply user_lookup_found; [by eapply quiet_UsersInv|apply Hq|done..]. }
  intros w1 Hq1. apply wp_databaseQuery. intros w2 Hq2.
  assert (Hq : quiet w w2) by by etrans. clear w1 Hq1 Hq2.
  apply wp_Query; [intros e w3 Hq3 Hh|intros l w3 Hq3 Hl].
  { apply user_lookup_missing; [done|by etrans|]. intros H'. by apply Hq in H'. }
  rewrite (proj1 (quiet_ro _ _ Hq)) in Hl.
  eapply (user_query "ByToken" _ _ User.token) in Hl as [[-> Hn]|(u & it & e & -> & Hu & <- & Hr & He)].
  - by apply user_lookup_missing; [|etrans|].
  - eapply wp_cache_user_and_return; [done|by etrans| |done|done].
    by eapply user_row_token_entry.
  - done.
  - reflexivity.
  - reflexivity.
  - compute_done.
  - intros. by eapply user_row_lookup.
  - apply (ui_tokens _ _ Hi).
Qed.

Lemma findUserByGlobusID_spec globusID w :
  UsersInv w → wp (findUserByGlobusID globusID) (user_lookup_post User.globusID globusID w) w.
Proof.
  intros Hi. unfold findUserByGlobusID. apply wp_find_cached.
  { intros r w1 Hq Hr. destruct (ui_globus _ _ Hi _ _ Hr).
    apply user_lookup_found; [by eapply quiet_UsersInv|apply Hq|done..]. }
  intros w1 Hq1. apply wp_databaseQuery. intros w2 Hq2.
  assert (Hq : quiet w w2) by by etrans. clear w1 Hq1 Hq2.
  apply wp_Query; [intros e w3 Hq3 Hh|intros l w3 Hq3 Hl].
  { apply user_lookup_missing; [done|by etrans|]. intros H'. by apply Hq in H'. }
  rewrite (proj1 (quiet_ro _ _ Hq)) in Hl.
  eapply (user_query "ByGlobusID" _ _ User.globusID) in Hl as [[-> Hn]|(u & it & e & -> & Hu & <- & Hr & He)].
  - by apply user_lookup_missing; [|etrans|].
  - eapply wp_cache_user_and_return; [done|by etrans| |done|done].
    by eapply user_row_globus_entry.
  - done.
  - reflexivity.
  - reflexivity.
  - compute_done.
  - intros. by eapply user_row_lookup.
  - apply (ui_globusIDs _ _ Hi).
Qed.

Lemma authenticateUser_spec token w :
  UsersInv w →
  wp (authenticateUser token) (λ r w', UsersInv w' ∧ read_only w w' ∧
    match r, token with
    | Ok u, Some t => (User.valid u = true ∧ User.token u = t ∧ is_user w u) ∨
        (u = User.none ∧ (healthy (db w) → ∀ u', is_user w u' → User.token u' ≠ t))
    | Ok u, None => u = User.none
    | _, _ => False
    end) w.
Proof.
  intros Hi. unfold authenticateUser. destruct token as [t|].
  - by apply findUserByToken_spec.
  - split; [done|]. split; [done|done].
Qed.

(** ** Writing *)

Lemma stored_user_insert tbl u it u' :
  user_row u it →
  stored_user (<[(User.id u, User.id u) := it]> tbl) u' ↔
  u' = u ∨ (stored_user tbl u' ∧ User.id u' ≠ User.id u).
Proof.
  intros Hr. split.
  - intros (it' & Hit & Hr'). rewrite lookup_insert in Hit. case_decide as Hd.
    + left. simplify_eq. by eapply user_row_inj.
    + right. split; [by eexists|congruence].
  - intros [->|[(it' & Hit & Hr') Hne]].
    + exists it. by rewrite lookup_insert_eq.
    + exists it'. rewrite lookup_insert_ne by congruence. done.
Qed.

(** The user can be stored: its token and its Globus ID are not those of another
    user. *)
Definition compatible_user tbl (u : User.t) : Prop :=
  User.valid u = true ∧ User.id u ≠ "" ∧
  ∀ u', stored_user tbl u' → User.id u' ≠ User.id u →
    User.token u' ≠ User.token u ∧ User.globusID u' ≠ User.globusID u.

(** Storing a user and caching it, when no older version of it stays in the caches
    under a token or a Globus ID it does not have any more. *)
Lemma users_inv_write c c' tbl u it r :
  users_inv c tbl → user_row u it → compatible_user tbl u → CacheRecord.record r = u →
  userCache c' = <[User.id u := r]> (userCache c) →
  (∃ m, userByTokenCache c' = <[User.token u := r]> m ∧ m ⊆ userByTokenCache c ∧
    ∀ k r', m !! k = Some r' → User.id (CacheRecord.record r') = User.id u → k = User.token u) →
  (∃ m, userByGlobusIDCache c' = <[User.globusID u := r]> m ∧ m ⊆ userByGlobusIDCache c ∧
    ∀ k r', m !! k = Some r' → User.id (CacheRecord.record r') = User.id u →
      k = User.globusID u) →
  users_inv c' (<[(User.id u, User.id u) := it]> tbl).
Proof.
  intros Hi Hr (Hv & Hne & Hc) Hrec Hmain (mt & Ht & Hmt & Hold) (mg & Hg & Hmg & Holdg).
  assert (Hu : stored_user (<[(User.id u, User.id u):=it]> tbl) (CacheRecord.record r)).
  { rewrite Hrec. apply stored_user_insert; auto. }
  destruct Hi. split.
  - intros k it'. rewrite lookup_insert. case_decide; [|apply ui_table0].
    intros [= <-]. left. eauto.
  - intros u1 u2. rewrite !stored_user_insert by done.
    intros [->|[H1 N1]] [->|[H2 N2]] Hn; [done|..|by eapply ui_tokens0].
    + by destruct (Hc _ H2 N2).
    + by destruct (Hc _ H1 N1).
  - intros u1 u2. rewrite !stored_user_insert by done.
    intros [->|[H1 N1]] [->|[H2 N2]] Hn; [done|..|by eapply ui_globusIDs0].
    + by destruct (Hc _ H2 N2).
    + by destruct (Hc _ H1 N1).
  - intros u'. rewrite stored_user_insert by done. intros [->|[H1 _]]; auto.
  - rewrite Hmain. eapply coherent_replace; [done|by rewrite Hrec|by right|].
    intros k' r' Hr' Hk' [Hn|Hst]; [by left|right].
    apply stored_user_insert; [done|]. right. split; [done|].
    by rewrite (proj1 (ui_cache0 _ _ Hr')).
  - rewrite Ht. eapply (coherent_replace (stored_user tbl)).
    + intros k' r' Hr'. apply ui_token0. by eapply lookup_weaken.
    + by rewrite Hrec.
    + done.
    + intros k' r' Hr' Hk' Hst. apply stored_user_insert; [done|]. right.
      split; [done|]. intros He. by apply Hk', (Hold _ _ Hr').
  - rewrite Hg. eapply (coherent_replace (stored_user tbl)).
    + intros k' r' Hr'. apply ui_globus0. by eapply lookup_weaken.
    + by rewrite Hrec.
    + done.
    + intros k' r' Hr' Hk' Hst. apply stored_user_insert; [done|]. right.
      split; [done|]. intros He. by apply Hk', (Holdg _ _ Hr').
  - rewrite Hmain, Ht. rewrite <- Hrec at 2. apply synchronised_insert.
    intros k r' Hr'. eapply ui_sync_token0. by eapply lookup_weaken.
  - rewrite Hmain, Hg. rewrite <- Hrec at 2. apply synchronised_insert.
    intros k r' Hr'. eapply ui_sync_globus0. by eapply lookup_weaken.
Qed.

(** What a write of the user [u] does to the users. *)
Definition user_write_post (u : User.t) (w : World) (r : Res bool) (w' : World) : Prop :=
  UsersInv w' ∧ (healthy (db w) → healthy (db w')) ∧
  (∀ t, t ≠ SLATE_users → table w' t = table w t) ∧
  match r with
  | Ok true => ∀ u', is_user w' u' ↔ u' = u ∨ (is_user w u' ∧ User.id u' ≠ User.id u)
  | Ok false => ¬ healthy (db w) ∧ ∀ u', is_user w' u' ↔ is_user w u'
  | _ => False
  end.

Lemma user_write_refused u w w' :
  UsersInv w → quiet w w' → ¬ healthy (db w) → user_write_post u w (Ok false) w'.
Proof.
  intros Hi Hq Hh. split; [by eapply quiet_UsersInv|].
  destruct (quiet_ro _ _ Hq) as [Ht Hh']. split; [done|]. split; [auto|].
  split; [done|]. intros u'. unfold is_user. by rewrite Ht.
Qed.

(** The end of a write that was accepted, from the caches it leaves. *)
Lemma user_write_accepted u it w w' r :
  users_inv (users w') (<[(User.id u, User.id u) := it]> (table w SLATE_users)) →
  user_row u it → (healthy (db w) → healthy (db w')) →
  table_set SLATE_users (<[(User.id u, User.id u) := it]> (table w SLATE_users)) w w' →
  r = Ok true → user_write_post u w r w'.
Proof.
  intros Hi Hr Hh Ht ->. pose proof (table_set_same _ _ _ _ Ht) as Htg.
  split; [|split; [done|split]].
  - unfold UsersInv. by rewrite Htg.
  - intros t Hne. by eapply table_set_other.
  - intros u'. unfold is_user. rewrite Htg. by apply stored_user_insert.
Qed.

Lemma user_row_key u it :
  user_row u it → item_key SLATE_users it = Some (User.id u, User.id u).
Proof.
  intros Hr. by apply item_key_eq; eapply user_row_lookup.
Qed.

(** A user that is not stored yet. *)
Definition new_user tbl (u : User.t) : Prop :=
  compatible_user tbl u ∧ ∀ u', stored_user tbl u' → User.id u' ≠ User.id u.

Lemma addUser_spec u w :
  UsersInv w → new_user (table w SLATE_users) u →
  wp (addUser u) (user_write_post u w) w.
Proof.
  intros Hi [Hc Hnew]. assert (Hr : user_row u (user_item u)) by (split; [apply Hc|done]).
  unfold addUser. eapply (wp_PutItem _ _ (User.id u, User.id u)).
  { by apply user_row_key. }
  - intros e w' Hq Hh. by apply user_write_refused.
  - intros w' Hq Hh Ht. unfold cache_user. eapply wp_run; [reflexivity|].
    eapply (user_write_accepted _ _ _ _ _); try done. simpl.
    rewrite (quiet_users _ _ Hq : users w' = users w).
    eapply (users_inv_write (users w) _ _ _ _
      (CacheRecord.make u userCacheValidity (steady (ticks w')))); [done..| |].
    + exists (userByTokenCache (users w)). split_and!; [done..|].
      intros k r' Hr' Hid. destruct (ui_token _ _ Hi _ _ Hr') as [_ Hst].
      by destruct (Hnew _ Hst).
    + exists (userByGlobusIDCache (users w)). split_and!; [done..|].
      intros k r' Hr' Hid. destruct (ui_globus _ _ Hi _ _ Hr') as [_ Hst].
      by destruct (Hnew _ Hst).
Qed.

(** The row [updateUser] produces from the old row. *)
Lemma user_row_update u old it :
  User.valid u = true → user_row old it →
  user_row u (key_item SLATE_users (User.id u, User.id u) ∪ user_updates u ∪ it).
Proof.
  intros Hv (_ & _ & Hg). split; [done|]. split.
  - apply map_subseteq_spec. intros a v Ha. apply lookup_union_Some_l. unfold user_item in Ha.
    rewrite !lookup_insert in Ha. rewrite lookup_singleton in Ha.
    repeat (case_decide; [subst a; injection Ha as <-; reflexivity|]). done.
  - rewrite lookup_union_r; [done|]. reflexivity.
Qed.

(** Updating a stored user whose Globus ID does not change: what [userByGlobusIDCache]
    keeps about the old Globus ID is not erased. *)
Lemma updateUser_spec u old w :
  UsersInv w → is_user w old → User.id old = User.id u →
  User.globusID old = User.globusID u → compatible_user (table w SLATE_users) u →
  wp (updateUser u old) (user_write_post u w) w.
Proof.
  intros Hi Hold Hid Hg Hc. unfold updateUser. apply wp_UpdateItem.
  - intros e w' Hq Hh. apply user_write_refused; [done..|]. intros Hd.
    destruct (Hh Hd) as (? & [=] & _).
  - intros w' Hq Hh _ Ht.
    pose proof Hold as (it & Hit & Hr). rewrite Hid in Hit. rewrite Hit in Ht. simpl in Ht.
    pose proof (user_row_update u old it (proj1 Hc) Hr) as Hr'.
    assert (Hsame : ∀ y, is_user w y → User.id y = User.id u → y = old).
    { intros y Hy Hy'. eapply stored_user_inj; [done..|congruence]. }
    eapply wp_run; [reflexivity|]. eapply wp_run; [reflexivity|].
    set (f := λ m : gmap string (CacheRecord.t User.t),
      if negb (bool_decide (User.token old = User.token u))
      then delete (User.token old) m else m).
    apply (wp_seq (λ r w2, r = Ok tt ∧
      w2 = upd_users (upd_userByTokenCache f)
        (upd_users (upd_userCache (replaceCacheRecord (User.id u)
           (CacheRecord.make u userCacheValidity (steady (ticks w'))))) (upd_ticks S w')))).
    { unfold f. destruct (bool_decide (User.token old = User.token u)); simpl; [|done].
      split; [done|]. by destruct w' as [? ? ? ? [] ? ? ? ? ?]. }
    2: by intros ? ? [? ?].
    2: by intros ? [? ?].
    intros _ w2 [_ ->]. eapply wp_run; [reflexivity|]. eapply wp_run; [reflexivity|].
    eapply user_write_accepted; try done. simpl.
    rewrite (quiet_users _ _ Hq : users w' = users w).
    eapply (users_inv_write (users w) _ _ _ _
      (CacheRecord.make u userCacheValidity (steady (ticks w')))); [done..| |].
    + exists (f (userByTokenCache (users w))). split_and!; [done| |].
      * unfold f. case_bool_decide; simpl; [done|]. apply delete_subseteq.
      * intros k r' Hr2 Hk. unfold f in Hr2.
        assert (Hlook : userByTokenCache (users w) !! k = Some r').
        { case_bool_decide; simpl in Hr2; [done|].
          by apply lookup_delete_Some in Hr2 as [_ ?]. }
        destruct (ui_token _ _ Hi _ _ Hlook) as [<- Hst].
        rewrite (Hsame _ Hst Hk) in Hr2 |- *.
        case_bool_decide as Hb; simpl in Hr2; [done|]. by rewrite lookup_delete_eq in Hr2.
    + exists (userByGlobusIDCache (users w)). split_and!; [done..|].
      intros k r' Hr2 Hk. destruct (ui_globus _ _ Hi _ _ Hr2) as [<- Hst].
      by rewrite (Hsame _ Hst Hk).
Qed.

(** ** Removing *)

(** Fewer cached records, as long as the caches stay synchronised. *)
Lemma users_inv_sub c c' tbl :
  users_inv c tbl →
  userCache c' ⊆ userCache c → userByTokenCache c' ⊆ userByTokenCache c →
  userByGlobusIDCache c' ⊆ userByGlobusIDCache c →
  synchronised User.id (userByTokenCache c') (userCache c') →
  synchronised User.id (userByGlobusIDCache c') (userCache c') →
  users_inv c' tbl.
Proof.
  intros [] H1 H2 H3 H4 H5. split; try done; intros k r Hr.
  - apply ui_cache0. by eapply lookup_weaken.
  - apply ui_token0. by eapply lookup_weaken.
  - apply ui_globus0. by eapply lookup_weaken.
Qed.

Lemma stored_user_delete tbl id u :
  stored_user (delete (id, id) tbl) u ↔ stored_user tbl u ∧ User.id u ≠ id.
Proof.
  unfold stored_user. split.
  - intros (it & [Hne Hit]%lookup_delete_Some & Hr). split; [eauto|]. congruence.
  - intros [(it & Hit & Hr) Hne]. exists it. split; [|done].
    apply lookup_delete_Some. split; [congruence|done].
Qed.

(** A user no cache knows can be deleted from the table. *)
Lemma users_inv_delete c tbl id :
  users_inv c tbl → userCache c !! id = None → users_inv c (delete (id, id) tbl).
Proof.
  intros [] Hn. split; try done.
  - intros k it [_ Hit]%lookup_delete_Some. by apply ui_table0.
  - intros u1 u2 [H1 _]%stored_user_delete [H2 _]%stored_user_delete. by apply ui_tokens0.
  - intros u1 u2 [H1 _]%stored_user_delete [H2 _]%stored_user_delete. by apply ui_globusIDs0.
  - intros u [H1 _]%stored_user_delete. by apply ui_nonempty0.
  - eapply coherent_mono; [|exact ui_cache0]. intros k r Hr [->|Hst]; [by left|right].
    apply stored_user_delete. split; [done|]. intros Hid.
    destruct (ui_cache0 _ _ Hr) as [Hk _]. congruence.
  - eapply coherent_mono; [|exact ui_token0]. intros k r Hr Hst.
    apply stored_user_delete. split; [done|]. intros Hid.
    destruct (ui_sync_token0 _ _ Hr) as [r' Hr']. congruence.
  - eapply coherent_mono; [|exact ui_globus0]. intros k r Hr Hst.
    apply stored_user_delete. split; [done|]. intros Hid.
    destruct (ui_sync_globus0 _ _ Hr) as [r' Hr']. congruence.
Qed.

(** The record of the main cache leads to the entries of the other two caches. *)
Lemma synchronised_forget (proj : User.t → string) c tbl m id r :
  users_inv c tbl → userCache c !! id = Some r →
  coherent (stored_user tbl) proj m → synchronised User.id m (userCache c) →
  synchronised User.id (delete (proj (CacheRecord.record r)) m) (delete id (userCache c)).
Proof.
  intros Hi Hr Hm Hs k r' [Hne Hr']%lookup_delete_Some.
  destruct (Hs _ _ Hr') as [r2 Hr2]. rewrite lookup_delete_ne; [by exists r2|].
  intros Hid. destruct (Hm _ _ Hr') as [Hk Hst].
  destruct (ui_cache _ _ Hi _ _ Hr) as [Hid' [Hn|Hst']].
  - apply (ui_nonempty _ _ Hi _ Hst). by rewrite <- Hid, <- Hid', Hn.
  - apply Hne. rewrite <- Hk. f_equal. eapply stored_user_inj; [done..|congruence].
Qed.

Lemma forget_user_spec id w :
  UsersInv w →
  ∃ c, forget_user id w = (Ok tt, upd_users (λ _, c) w) ∧
    users_inv c (table w SLATE_users) ∧ userCache c !! id = None.
Proof.
  intros Hi. pose proof Hi as Hi'. destruct Hi' as [_ _ _ _ _ Ht Hg Hst Hsg].
  destruct (userCache (users w) !! id) as [r|] eqn:Hr.
  - exists (upd_userCache (delete id)
      (upd_userByGlobusIDCache (delete (User.globusID (CacheRecord.record r)))
        (upd_userByTokenCache (delete (User.token (CacheRecord.record r))) (users w)))).
    split; [|split; [|by apply lookup_delete_eq]].
    + unfold forget_user, mbind, M_bind, gets. simpl. by rewrite Hr.
    + eapply users_inv_sub; [done|apply delete_subseteq..| |]; simpl.
      * by eapply synchronised_forget.
      * by eapply synchronised_forget.
  - exists (upd_userCache (delete id) (users w)). split; [|split; [|by apply lookup_delete_eq]].
    + unfold forget_user, mbind, M_bind, gets. simpl. by rewrite Hr.
    + unfold upd_userCache. rewrite delete_id by done. unfold UsersInv in Hi.
      by destruct (users w).
Qed.

Lemma removeUser_spec id w :
  UsersInv w → wp (removeUser id) (removed_post UsersInv SLATE_users is_user User.id id w) w.
Proof.
  intros Hi. unfold removeUser.
  destruct (forget_user_spec id w Hi) as (c & Hf & Hc & Hn).
  eapply wp_run; [exact Hf|]. apply wp_DeleteItem.
  - intros e w' Hq Hh. destruct (quiet_ro _ _ Hq) as [Ht Hh'].
    assert (Hd : ¬ healthy (db w)).
    { intros Hd. destruct (Hh Hd) as (? & [=] & _). }
    split; [|split; [auto|split; [intros; apply Ht|]]].
    + unfold UsersInv. simpl. by rewrite Ht, (quiet_users _ _ Hq).
    + split; [done|]. intros u. unfold is_user. by rewrite Ht.
  - intros w' Hq Hh _ Ht. pose proof (table_set_same _ _ _ _ Ht) as Htu.
    split; [|split; [done|split]].
    + unfold UsersInv. simpl in *. rewrite Htu.
      rewrite (quiet_users _ _ Hq : users w' = c). by apply users_inv_delete.
    + intros t Hne. simpl. by rewrite (table_set_other _ _ _ _ _ Ht Hne).
    + intros u. unfold is_user. simpl in *. rewrite Htu. apply stored_user_delete.
Qed.

(** ** Listing *)

Lemma user_row_list u it :
  user_row u it →
  let field key := v ← find_deref it key; mret (GetS v) in
  user_of_item (field "ID") (field "name") (field "email") (field "token") (field "globusID")
    (v ← find_deref it "admin"; mret (GetBool v)) it = Ok u.
Proof.
  intros Hr field. apply user_of_item_ok; unfold field;
    try (apply attr_string_ok || apply attr_bool_ok); try done;
    try (by eapply user_row_lookup); [apply Hr|].
  intros a Ha. rewrite !elem_of_cons, elem_of_nil in Ha.
  destruct Ha as [->|[->|[]]]; by erewrite user_row_lookup.
Qed.

#[global] Instance user_listing :
  ListingLaws (λ w, userCacheExpirationTime (users w)) (λ w, userCache (users w))
    SLATE_users (ENotExists "groupID") list_user
    (λ _ time, modify (upd_users (upd_userCacheExpirationTime (λ _, time))))
    UsersInv is_user user_row User.id (λ x, x) User.none.
Proof.
  split.
  - intros *. apply quiet_UsersInv.
  - unfold is_user. by intros w w' x ->.
  - intros w w' Hq. by rewrite (quiet_users _ _ Hq).
  - intros w w' Hq. by rewrite (quiet_users _ _ Hq).
  - intros w k r Hi. apply (ui_cache _ _ Hi).
  - done.
  - done.
  - intros w x Hi Hx. by apply (ui_nonempty _ _ Hi).
  - intros w x y. apply stored_user_inj.
  - intros w x Hi (it & Hit & Hr). exists it. split; [done|].
    apply elem_of_scan_items. eexists. split; [done|]. simpl. apply bool_decide_eq_true, Hr.
  - apply user_row_inj.
  - intros w it Hi [k [Hk Hf]]%elem_of_scan_items.
    simpl in Hf. apply bool_decide_eq_true in Hf.
    destruct (ui_table _ _ Hi _ _ Hk) as [(u & Hr & ->)|(uID & g & (_ & Hg & _) & _)]; [|congruence].
    assert (Hu : is_user w u) by by exists it.
    eapply wp_run.
    { unfold lift. by rewrite (user_row_list _ _ Hr). }
    eapply wp_run; [reflexivity|]. eapply wp_run; [reflexivity|].
    exists u. simpl. unfold replaceCacheRecord. rewrite lookup_insert_eq. split_and!; eauto.
    + unfold UsersInv. destruct Hi. split; simpl; eauto using synchronised_main.
      apply coherent_insert; [done|done|by right].
    + intros k Hk'. rewrite lookup_insert. by case_decide.
  - intros w l time Hi. split_and!; try done. by destruct Hi; split.
Qed.

(** While [userCacheExpirationTime] is ahead, [userCache] has every user. *)
Definition UsersListed : World → Prop :=
  listed (expiration := λ w, userCacheExpirationTime (users w))
    (cache := λ w, userCache (users w)) (stored := is_user) (id := User.id).

(** A listing returns users only, but for the invalid user of a failed lookup, and
    every user if the service is available. *)
Definition listUsers_post (w : World) (r : Res (list User.t)) (w' : World) : Prop :=
  UsersInv w' ∧ UsersListed w' ∧ read_only w w' ∧
  ∃ l, r = Ok l ∧ (∀ u, u ∈ l → u = User.none ∨ is_user w u) ∧
    (healthy (db w) → ∀ u, is_user w u → u ∈ l).

Lemma listUsers_spec `{!ClockLaws} fuel w :
  UsersInv w → UsersListed w →
  pages_left (db w) SLATE_users (ENotExists "groupID") None < fuel →
  wp (listUsers fuel) (listUsers_post w) w.
Proof. intros. eapply wp_mono, list_all_spec; [|done..]. intros r w'. by apply list_post_exact. Qed.
End user_operations.

(** * Properties *)

Section user_theorems.
Context `{D : Dynamo} `{P : Platform} `{L : !DynamoLaws}.

(** A request is authenticated as a user only if its token is the token of that
    stored user; a request without a token, or - the service being available - with
    the token of nobody, is given the invalid user. The database is only read, the
    caches stay coherent, and nothing is thrown. *)
Theorem authenticateUser_correct (token : option string) (w : World) :
  UsersInv w →
  wp (authenticateUser token) (λ r w', UsersInv w' ∧ read_only w w' ∧
    match r, token with
    | Ok u, Some t => (User.valid u = true ∧ User.token u = t ∧ is_user w u) ∨
        (u = User.none ∧ (healthy (db w) → ∀ u', is_user w u' → User.token u' ≠ t))
    | Ok u, None => u = User.none
    | _, _ => False
    end) w.
Proof. apply authenticateUser_spec. Qed.

(** A lookup of a user by ID or by Globus ID returns the stored user with that
    key, from a cache or from the database, or - the service being available - the
    invalid user exactly when there is none; it keeps the caches coherent. *)
Theorem user_lookups_correct (key : string) (w : World) :
  UsersInv w →
  wp (getUser key) (user_lookup_post User.id key w) w ∧
  wp (findUserByGlobusID key) (user_lookup_post User.globusID key w) w.
Proof. split; [by apply getUser_spec|by apply findUserByGlobusID_spec]. Qed.

(** Adding a new user, updating a user (who keeps the same Globus ID) and
    removing a user change the users exactly as intended, keep every cache coherent
    and touch no other table; [false] is returned only if the service refused the
    request, and then no user has changed. *)
Theorem user_writes_correct (u old : User.t) (id : string) (w : World) :
  UsersInv w →
  (new_user (table w SLATE_users) u → wp (addUser u) (user_write_post u w) w) ∧
  (is_user w old → User.id old = User.id u → User.globusID old = User.globusID u →
   compatible_user (table w SLATE_users) u → wp (updateUser u old) (user_write_post u w) w) ∧
  wp (removeUser id) (removed_post UsersInv SLATE_users is_user User.id id w) w.
Proof.
  intros Hi. split; [by apply addUser_spec|]. split; [by apply updateUser_spec|].
  by apply removeUser_spec.
Qed.

(** Nobody has the token any more: authentication with it fails. *)
Lemma token_of_nobody w token :
  UsersInv w → healthy (db w) → (∀ u, is_user w u → User.token u ≠ token) →
  (authenticateUser (Some token) w).1 = Ok User.none.
Proof.
  intros Hi Hd Hn. destruct (findUserByToken_spec token w Hi) as (_ & _ & Hr). simpl.
  destruct (findUserByToken token w).1 as [x| |]; [|done..].
  destruct Hr as [(_ & Ht & Hx)|[-> _]]; [by destruct (Hn x)|done].
Qed.

(** Revocation of tokens. Once [updateUser] has replaced the token of a user, the
    old token authenticates nobody and the new one authenticates the user; once
    [removeUser] has removed a user, its token authenticates nobody. This holds
    whatever the caches had. *)
Theorem token_revoked (u old : User.t) (w w1 w2 : World) :
  UsersInv w → healthy (db w) → is_user w old →
  User.id old = User.id u → User.globusID old = User.globusID u →
  compatible_user (table w SLATE_users) u → User.token old ≠ User.token u →
  updateUser u old w = (Ok true, w1) →
  removeUser (User.id old) w = (Ok true, w2) →
  (authenticateUser (Some (User.token old)) w1).1 = Ok User.none ∧
  (authenticateUser (Some (User.token u)) w1).1 = Ok u ∧
  (authenticateUser (Some (User.token old)) w2).1 = Ok User.none.
Proof.
  intros Hi Hd Hold Hid Hg Hc Hne Hup Hrm.
  pose proof (updateUser_spec u old w Hi Hold Hid Hg Hc) as Hu.
  pose proof (removeUser_spec (User.id old) w Hi) as Hr. unfold wp in Hu, Hr.
  rewrite Hup in Hu. rewrite Hrm in Hr. simpl in *.
  destruct Hu as (Hi1 & Hd1 & _ & H1). destruct Hr as (Hi2 & Hd2 & _ & H2).
  split; [|split].
  - apply token_of_nobody; [done|auto|]. intros x [->|[Hx Hx']]%H1 Ht; [congruence|].
    apply Hx'. rewrite <- Hid. by apply (ui_tokens _ _ Hi).
  - destruct (findUserByToken_spec (User.token u) w1 Hi1) as (_ & _ & Hr). simpl.
    assert (Hu : is_user w1 u) by (apply H1; by left).
    destruct (findUserByToken (User.token u) w1).1 as [x| |]; [|done..].
    destruct Hr as [(_ & Ht & Hx)|[_ Hn]]; [|by destruct (Hn (Hd1 Hd) u)].
    f_equal. eapply stored_user_inj; [done..|]. by apply (ui_tokens _ _ Hi1).
  - apply token_of_nobody; [done|auto|]. intros x [Hx Hx']%H2 Ht.
    apply Hx'. by apply (ui_tokens _ _ Hi).
Qed.

(** Listing the users ends within the pages of the table and returns every user
    if the service is available, nothing but users otherwise; membership rows, which
    are in the same table, are not taken for users. *)
Theorem listUsers_correct `{!ClockLaws} (fuel : nat) (w : World) :
  UsersInv w → UsersListed w →
  pages_left (db w) SLATE_users (ENotExists "groupID") None < fuel →
  wp (listUsers fuel) (listUsers_post w) w.
Proof. apply listUsers_spec. Qed.
End user_theorems.

Section user_witnesses.
Import Demo.

Lemma users_inv_empty c tbl :
  tbl = ∅ → userCache c = ∅ → userByTokenCache c = ∅ → userByGlobusIDCache c = ∅ →
  users_inv c tbl.
Proof.
  intros -> H1 H2 H3. split; try (intros k r; rewrite ?H1, ?H2, ?H3, lookup_empty; done);
    try (intros u (it & Hit & _); by rewrite lookup_empty in Hit);
    intros u u' (it & Hit & _); by rewrite lookup_empty in Hit.
Qed.

Definition demo_user : User.t :=
  User.mk true "user_1" "Ada" "a@b.c" "555" "Lab" "token_1" "globus_1" false.
Definition demo_user2 : User.t :=
  User.mk true "user_1" "Ada" "a@b.c" "555" "Lab" "token_2" "globus_1" true.

(** The server after adding a user, its caches empty again. *)
Definition demo_users : World := start (db (addUser demo_user empty).2).

Lemma empty_UsersInv : UsersInv empty.
Proof. by apply users_inv_empty. Qed.

Lemma demo_new : new_user (table empty SLATE_users) demo_user.
Proof.
  assert (Hn : ∀ u', ¬ stored_user (table empty SLATE_users) u').
  { intros u' (it & Hit & _). by rewrite empty_table, lookup_empty in Hit. }
  split; [split_and!; try done|]; intros u' Hu'; by destruct (Hn u').
Qed.

Lemma demo_user_added :
  UsersInv (addUser demo_user empty).2 ∧
  ∀ u, is_user (addUser demo_user empty).2 u ↔ u = demo_user.
Proof.
  destruct (addUser_spec demo_user empty) as (Hi & _ & _ & Hu);
    [apply empty_UsersInv|apply demo_new|].
  split; [done|]. intros u. rewrite (Hu u). split; [|by left].
  intros [?|[(it & Hit & _) _]]; [done|by rewrite empty_table, lookup_empty in Hit].
Qed.

Lemma demo_users_inv : UsersInv demo_users.
Proof.
  destruct demo_user_added as [Hi _]. destruct Hi as [H1 H2 H3 H4 _ _ _ _ _].
  split; [exact H1|exact H2|exact H3|exact H4|..];
    intros k r; simpl; by rewrite lookup_empty.
Qed.

Lemma demo_is_user : is_user demo_users demo_user.
Proof. by apply demo_user_added. Qed.

Lemma demo_user2_compatible : compatible_user (table demo_users SLATE_users) demo_user2.
Proof. split_and!; try done. intros u' Hu'. by apply demo_user_added in Hu' as ->. Qed.

Lemma authenticateUser_witness :
  UsersInv (authenticateUser (Some "token_1") demo_users).2 ∧
  (authenticateUser (Some "token_1") demo_users).1 = Ok demo_user.
Proof.
  split; [|vm_compute; reflexivity].
  exact (proj1 (authenticateUser_correct (Some "token_1") demo_users demo_users_inv)).
Defined.

Lemma user_lookups_witness :
  wp (getUser "user_1") (user_lookup_post User.id "user_1" demo_users) demo_users ∧
  (getUser "user_1" demo_users).1 = Ok demo_user.
Proof.
  split; [|vm_compute; reflexivity].
  exact (proj1 (user_lookups_correct "user_1" demo_users demo_users_inv)).
Defined.

Lemma user_writes_witness :
  wp (updateUser demo_user2 demo_user) (user_write_post demo_user2 demo_users) demo_users ∧
  (updateUser demo_user2 demo_user demo_users).1 = Ok true.
Proof.
  split; [|vm_compute; reflexivity].
  exact (proj1 (proj2 (user_writes_correct demo_user2 demo_user "user_1" demo_users demo_users_inv))
    demo_is_user eq_refl eq_refl demo_user2_compatible).
Defined.

Lemma token_revoked_witness :
  (authenticateUser (Some "token_1") (updateUser demo_user2 demo_user demo_users).2).1
    = Ok User.none.
Proof.
  refine (proj1 (token_revoked demo_user2 demo_user demo_users _
    (removeUser "user_1" demo_users).2 demo_users_inv eq_refl demo_is_user eq_refl eq_refl
    demo_user2_compatible _ _ _)).
  - done.
  - apply run_result. vm_compute. reflexivity.
  - apply run_result. vm_compute. reflexivity.
Defined.

Lemma listUsers_witness :
  wp (listUsers 5) (listUsers_post demo_users) demo_users ∧
  (listUsers 5 demo_users).1 = Ok [demo_user].
Proof.
  split; [|vm_compute; reflexivity].
  apply listUsers_correct.
  - apply demo_users_inv.
  - intros Hlt. simpl in Hlt. lia.
  - rewrite pages. apply Nat.ltb_lt. vm_compute. reflexivity.
Defined.
End user_witnesses.
