(* ===== verification/StoreMembership.v ===== *)
(** Membership of users in groups: the membership records of the users table,
    [userByGroupCache] and [groupByUserCache], and the removal of a group, which
    removes its members first (src/PersistentStore.cpp). *)

From S2P Require Import Prelude Entities Cache Dynamo Store Demo StoreGroups StoreUsers.

Section membership.
Context `{D : Dynamo} `{P : Platform}.

Definition membership_key (uID groupID : string) : string * string :=
  (uID, uID +:+ ":" +:+ groupID).

Definition membership_item (uID groupID : string) : Item :=
  {["ID" := AVS uID; "sortKey" := AVS (uID +:+ ":" +:+ groupID);
    "groupID" := AVS groupID]}.

(** [userByGroupCache.insert_or_assign(groupID, CacheRecord(uID, validity))] *)
Definition cache_member (groupID uID : string) : Store unit :=
  record ← make_record uID userCacheValidity;
  multi_insert (λ f, upd_users (upd_userByGroupCache f)) groupID record.

Definition listUsersByGroup (group : string) : Store (list User.t) :=
  c ← gets (λ w, userByGroupCache (users w));
  t ← now;
  let cached := mm_find group c in
  if (t <? cached.2)%Z then
    for_collect cached.1 (λ record, _ ← cacheHit; getUser (CacheRecord.record record))
  else
    _ ← databaseQuery;
    outcome ← request (Query SLATE_users (Some "ByGroup")
                         (mkKC "groupID" (AVS group) None) ETrue);
    match outcome with
    | inl err => mret []
    | inr [] => mret []
    | inr items =>
        members ← for_collect items (λ item,
          id ← lift (attr_string item "ID" "User record missing ID attribute");
          user ← getUser id;
          record ← make_record user userCacheValidity;
          _ ← modify (upd_users (upd_userCache (replaceCacheRecord (User.id user) record)));
          _ ← cache_member group (User.id user);
          mret user);
        t ← now;
        _ ← modify (upd_users (upd_userByGroupCache
               (λ m, (mm_update_expiration group (t + userCacheValidity)%Z m).2)));
        mret members
    end.

Definition addUserToGroup (uID groupID : string) : Store bool :=
  normalized ← normalizeGroupID groupID false;
  match normalized with
  | None => mret false
  | Some groupID =>
      group ← findGroupByID groupID;
      user ← getUser uID;
      outcome ← request (PutItem SLATE_users (membership_item uID groupID));
      match outcome with
      | inl err => mret false
      | inr _ =>
          _ ← cache_member groupID uID;
          groupRecord ← make_record group groupCacheValidity;
          _ ← multi_insert (λ f, upd_groups (upd_groupByUserCache f)) (User.id user) groupRecord;
          mret true
      end
  end.

(** Dropping a membership from the two caches. *)
Definition forget_membership (uID groupID : string) : Store unit :=
  _ ← modify (upd_users (upd_userByGroupCache
         (λ m, (mm_erase groupID (CacheRecord.stale uID) m).2)));
  c ← gets (λ w, groupCache (groups w));
  match c !! groupID with
  | Some record =>
      modify (upd_groups (upd_groupByUserCache (λ m, (mm_erase uID record m).2)))
  | None => mret tt
  end.

Definition removeUserFromGroup (uID groupID : string) : Store bool :=
  normalized ← normalizeGroupID groupID false;
  match normalized with
  | None => mret false
  | Some groupID =>
      _ ← forget_membership uID groupID;
      outcome ← request (DeleteItem SLATE_users (membership_key uID groupID) None);
      match outcome with
      | inl err => mret false
      | inr _ => mret true
      end
  end.

Definition getUserGroupMemberships (uID : string) (useNames : bool) : Store (list string) :=
  _ ← databaseQuery;
  outcome ← request (Query SLATE_users None
              (mkKC "ID" (AVS uID) (Some (uID +:+ ":" +:+ groupIDPrefix))) ETrue);
  match outcome with
  | inl err => mret []
  | inr items =>
      let vos := omap (λ item : Item, GetS <$> item !! "groupID") items in
      if useNames then
        for_collect vos (λ groupStr, group ← findGroupByID groupStr; mret (Group.name group))
      else mret vos
  end.

(** The cached case returns [record], converted to a [bool] by reading the clock
    again. *)
Definition userInGroup (uID groupID : string) : Store bool :=
  normalized ← normalizeGroupID groupID false;
  match normalized with
  | None => mret false
  | Some groupID =>
      c ← gets (λ w, userByGroupCache (users w));
      hit ← match mm_find_val groupID (CacheRecord.stale uID) c with
            | Some record =>
                v ← record_valid record;
                if v : bool then
                  _ ← cacheHit; b ← record_valid record; mret (Some b)
                else mret None
            | None => mret None
            end;
      match hit with
      | Some b => mret b
      | None =>
          _ ← databaseQuery;
          outcome ← request (GetItem SLATE_users (membership_key uID groupID));
          match outcome with
          | inl err => mret false
          | inr item =>
              if bool_decide (item = ∅) then mret false else
              _ ← cache_member groupID uID;
              mret true
          end
      end
  end.

(** [item.find("ID")->second.GetS()] of every member. *)
Definition getMembersOfGroup (groupID : string) : Store (list string) :=
  _ ← databaseQuery;
  outcome ← request (Query SLATE_users (Some "ByGroup")
                       (mkKC "groupID" (AVS groupID) None) ETrue);
  match outcome with
  | inl err => mret []
  | inr items =>
      for_collect items (λ item, lift (v ← find_deref item "ID"; mret (GetS v)))
  end.

Definition listGroupsForUser (user : string) : Store (list Group.t) :=
  cached ← maybeReturnCachedCategoryMembers (λ w, groupByUserCache (groups w)) user;
  match cached with
  | Some results => mret results
  | None =>
      _ ← databaseQuery;
      outcome ← request (Query SLATE_users None (mkKC "ID" (AVS user) None)
                           (EExists "groupID"));
      match outcome with
      | inl err => mret []
      | inr [] => mret []
      | inr items =>
          vos ← for_collect items (λ item,
            groupID ← lift (attr_string item "groupID" "User record missing groupID attribute");
            group ← findGroupByID groupID;
            record ← make_record group groupCacheValidity;
            _ ← modify (upd_groups (upd_groupCache (replaceCacheRecord (Group.id group) record)));
            _ ← modify (upd_groups (upd_groupByNameCache
                                      (replaceCacheRecord (Group.name group) record)));
            _ ← multi_insert (λ f, upd_groups (upd_groupByUserCache f)) user record;
            mret group);
          t ← now;
          _ ← modify (upd_groups (upd_groupByUserCache
                 (λ m, (mm_update_expiration user (t + groupCacheValidity)%Z m).2)));
          mret vos
      end
  end.

(** [for(...) if(!removeUserFromGroup(...)) return false;] *)
Fixpoint removeMembers (members : list string) (groupID : string) : Store bool :=
  match members with
  | [] => mret true
  | uID :: members =>
      removed ← removeUserFromGroup uID groupID;
      if removed : bool then removeMembers members groupID else mret false
  end.

Definition forget_group (groupID : string) : Store unit :=
  c ← gets (λ w, groupCache (groups w));
  _ ← match c !! groupID with
      | Some record =>
          modify (upd_groups (upd_groupByNameCache
                                (delete (Group.name (CacheRecord.record record)))))
      | None => mret tt
      end;
  modify (upd_groups (upd_groupCache (delete groupID))).

Definition removeGroup (groupID : string) : Store bool :=
  members ← getMembersOfGroup groupID;
  removed ← removeMembers members groupID;
  if negb removed then mret false else
  _ ← forget_group groupID;
  outcome ← request (DeleteItem SLATE_groups (groupID, groupID) None);
  match outcome with
  | inl err => mret false
  | inr _ => mret true
  end.
End membership.

(** * Who is in a group *)

Section membership_invariant.
Context `{D : Dynamo} `{P : Platform} `{L : !DynamoLaws}.
Implicit Types (uID groupID : string).

Lemma normalizeGroupID_is_id g allowWildcard :
  begins_with g groupIDPrefix = true → normalizeGroupID g allowWildcard = mret (Some g).
Proof.
  intros Hg. unfold normalizeGroupID. rewrite Hg. simpl.
  rewrite !bool_decide_false; [by rewrite !andb_false_r|by intros ->..].
Qed.

(** A membership is a row of the users table. *)
Definition is_member (w : World) uID groupID : Prop :=
  is_Some (table w SLATE_users !! membership_key uID groupID).

Definition member_cached (w : World) groupID uID : Prop :=
  mm_contains groupID (CacheRecord.stale uID) (userByGroupCache (users w)) = true.

(** Only members are cached; the empty ID is that of the invalid user, which a
    listing caches for a member who does not exist. *)
Definition MembersInv (w : World) : Prop :=
  ∀ groupID uID, member_cached w groupID uID → uID ≠ "" → is_member w uID groupID.

Lemma quiet_MembersInv w w' : quiet w w' → MembersInv w → MembersInv w'.
Proof.
  unfold MembersInv, member_cached, is_member. intros Hq Hi.
  by rewrite (quiet_users _ _ Hq), (proj1 (quiet_ro _ _ Hq)).
Qed.

Lemma membership_key_inj u g u' g' :
  membership_key u g = membership_key u' g' → u = u' ∧ g = g'.
Proof.
  unfold membership_key. intros [= -> Heq]. split; [done|].
  by apply str_app_inj_l, (str_app_inj_l ":") in Heq.
Qed.

Lemma membership_not_user_key u g id : membership_key u g ≠ (id, id).
Proof.
  unfold membership_key. intros [= -> Heq]. apply (f_equal str_size) in Heq.
  rewrite !str_size_app in Heq. simpl in Heq. lia.
Qed.

(** ** Memberships and the records of users do not interfere *)

Lemma stored_user_same tbl tbl' u :
  (∀ id, tbl' !! (id, id) = tbl !! (id, id)) → stored_user tbl' u ↔ stored_user tbl u.
Proof. unfold stored_user. intros Ht. by setoid_rewrite Ht. Qed.

Lemma users_inv_same c tbl tbl' :
  users_inv c tbl → (∀ id, tbl' !! (id, id) = tbl !! (id, id)) →
  (∀ k it, tbl' !! k = Some it → tbl !! k = Some it ∨
    ∃ uID g, member_row uID g it ∧ k = membership_key uID g) →
  users_inv c tbl'.
Proof.
  intros Hi Hsame Hrows. pose proof (λ u, stored_user_same _ _ u Hsame) as Hst. split.
  - intros k it [Hit|?]%Hrows; [by apply (ui_table _ _ Hi)|by right].
  - intros u1 u2. rewrite !Hst. apply (ui_tokens _ _ Hi).
  - intros u1 u2. rewrite !Hst. apply (ui_globusIDs _ _ Hi).
  - intros u. rewrite Hst. apply (ui_nonempty _ _ Hi).
  - eapply coherent_mono, (ui_cache _ _ Hi). intros k r _ [->|Hu]; [by left|right].
    by apply Hst.
  - eapply coherent_mono, (ui_token _ _ Hi). intros k r _. apply Hst.
  - eapply coherent_mono, (ui_globus _ _ Hi). intros k r _. apply Hst.
  - apply (ui_sync_token _ _ Hi).
  - apply (ui_sync_globus _ _ Hi).
Qed.

Lemma member_row_item u g : member_row u g (membership_item u g).
Proof. done. Qed.

(** ** The cache of members *)

Lemma wp_cache_member {B} g u (k : unit → Store B) Q w :
  (∀ w', db w' = db w → groups w' = groups w →
    users w' = upd_userByGroupCache (λ _, userByGroupCache (users w')) (users w) →
    (∀ g' u', member_cached w' g' u' ↔ (g' = g ∧ u' = u) ∨ member_cached w g' u') →
    wp (k tt) Q w') →
  wp (cache_member g u ≫= k) Q w.
Proof.
  intros Hk. eapply wp_run; [reflexivity|].
  apply Hk; [done|done|done|]. intros g' u'. unfold member_cached. simpl.
  rewrite mm_contains_insert_or_assign, orb_true_iff. unfold same_pair, cpp_eq.
  rewrite andb_true_iff, bool_decide_eq_true.
  unfold CacheRecord.eqb, cpp_eq, string_eq, eq_on. simpl. rewrite bool_decide_eq_true.
  split; [intros [[-> ->]|?]; auto|intros [[-> ->]|?]; auto].
Qed.

Lemma UsersInv_caches w w' :
  UsersInv w → db w' = db w →
  users w' = upd_userByGroupCache (λ _, userByGroupCache (users w')) (users w) → UsersInv w'.
Proof. unfold UsersInv. intros Hi -> ->. by destruct Hi; split. Qed.

(** ** userInGroup *)

(** A cached membership that expires between two readings of the clock may be
    overlooked. *)
Definition membership_expiring (w : World) uID groupID : Prop :=
  ∃ r, mm_find_val groupID (CacheRecord.stale uID) (userByGroupCache (users w)) = Some r ∧
    (steady (ticks w) ≤ CacheRecord.expirationTime r < steady (S (ticks w)))%Z.

Definition userInGroup_post uID groupID (w : World) (r : Res bool) (w' : World) : Prop :=
  UsersInv w' ∧ MembersInv w' ∧ read_only w w' ∧ ∃ b, r = Ok b ∧
    (b = true → is_member w uID groupID) ∧
    (b = false → healthy (db w) →
       ¬ is_member w uID groupID ∨ membership_expiring w uID groupID).

Lemma fetch_membership_spec uID groupID w w1 :
  UsersInv w → MembersInv w → quiet w w1 →
  wp (_ ← databaseQuery;
      outcome ← request (GetItem SLATE_users (membership_key uID groupID));
      match outcome with
      | inl err => mret false
      | inr item =>
          if bool_decide (item = ∅) then mret false else
          _ ← cache_member groupID uID;
          mret true
      end) (userInGroup_post uID groupID w) w1.
Proof.
  intros Hu Hi Hq1. apply wp_databaseQuery. intros w2 Hq2.
  assert (Hq : quiet w w2) by by etrans.
  apply wp_GetItem; [intros e w3 Hq3 Hh|intros w3 Hq3]; assert (Hq' : quiet w w3) by by etrans.
  { split; [by eapply quiet_UsersInv|]. split; [by eapply quiet_MembersInv|].
    split; [apply Hq'|]. exists false. split_and!; [done..|]. intros _ Hd. by apply Hq in Hd. }
  rewrite (proj1 (quiet_ro _ _ Hq)). unfold is_member.
  destruct (table w SLATE_users !! membership_key uID groupID) as [it|] eqn:Hit; simpl.
  - rewrite bool_decide_false.
    2: { intros ->. apply rows_keyed in Hit. unfold item_key in Hit.
         by rewrite lookup_empty in Hit. }
    apply wp_cache_member. intros w4 Hdb Hg Husers Hc.
    split; [eapply UsersInv_caches; [by eapply quiet_UsersInv|done|done]|].
    split; [|split; [etrans; [apply Hq'|by apply read_only_db]|]].
    + intros g' u' [[-> ->]|Hm]%Hc Hne; unfold is_member; simpl; rewrite Hdb.
      * rewrite (proj1 (quiet_ro _ _ Hq')). eauto.
      * by apply (quiet_MembersInv _ _ Hq' Hi).
    + exists true. unfold is_member. rewrite Hit. split; [done|]. split; [eauto|done].
  - rewrite bool_decide_true by done.
    split; [by eapply quiet_UsersInv|]. split; [by eapply quiet_MembersInv|].
    split; [apply Hq'|]. exists false. unfold is_member. rewrite Hit.
    split_and!; [done..|]. intros _ _. left. by intros [].
Qed.

Lemma userInGroup_spec uID groupID w :
  UsersInv w → MembersInv w → uID ≠ "" → begins_with groupID groupIDPrefix = true →
  wp (userInGroup uID groupID) (userInGroup_post uID groupID w) w.
Proof.
  intros Hu Hi Hne Hg. unfold userInGroup. rewrite normalizeGroupID_is_id by done.
  eapply wp_run; [reflexivity|]. apply wp_gets.
  destruct (mm_find_val groupID _ _) as [r|] eqn:Hr.
  2: { eapply wp_run; [reflexivity|]. by apply fetch_membership_spec. }
  destruct (CacheRecord.to_bool (steady (ticks w)) r) eqn:Hv.
  - eapply wp_run.
    { unfold record_valid, mbind, M_bind, now. simpl. rewrite Hv. simpl. reflexivity. }
    assert (Hq : quiet w (upd_ticks S (upd_stats (upd_cacheHits incr) (upd_ticks S w)))).
    { etrans; [apply quiet_tick|]. etrans; [apply quiet_stats|apply quiet_tick]. }
    split; [by eapply quiet_UsersInv|]. split; [by eapply quiet_MembersInv|].
    split; [apply Hq|]. eexists. split; [done|]. unfold CacheRecord.to_bool in *. simpl.
    split.
    + intros _. apply Hi; [|done]. by eapply mm_find_val_contains.
    + intros Hlt _. right. exists r. split; [done|]. lia.
  - eapply (wp_run _ _ _ _ None (upd_ticks S w)).
    + unfold record_valid, mbind, M_bind, now. simpl. by rewrite Hv.
    + apply fetch_membership_spec; [done..|apply quiet_tick].
Qed.

(** ** Changing memberships *)

(** Lookups of groups and of users do not meet. *)
Lemma findGroupByID_users id : frame users (findGroupByID id).
Proof. unfold findGroupByID, cache_group. solve_frame. Qed.

Lemma getUser_groups id : frame groups (getUser id).
Proof. unfold getUser, cache_user. solve_frame. Qed.

Lemma getUser_members id : frame (λ w, userByGroupCache (users w)) (getUser id).
Proof. unfold getUser, cache_user. solve_frame. Qed.

(** The caches of groups, users and members are coherent with the database. *)
Record DirectoryInv (w : World) : Prop := {
  di_groups : GroupsInv w; di_users : UsersInv w; di_members : MembersInv w }.

Lemma quiet_DirectoryInv w w' : quiet w w' → DirectoryInv w → DirectoryInv w'.
Proof.
  intros Hq []. split;
    [by eapply quiet_GroupsInv|by eapply quiet_UsersInv|by eapply quiet_MembersInv].
Qed.

Lemma MembersInv_same w w' :
  MembersInv w → userByGroupCache (users w') = userByGroupCache (users w) →
  table w' SLATE_users = table w SLATE_users → MembersInv w'.
Proof. unfold MembersInv, member_cached, is_member. by intros Hi -> ->. Qed.

Lemma findGroupByID_directory id w :
  DirectoryInv w → wp (findGroupByID id) (λ r w', DirectoryInv w' ∧ read_only w w' ∧
    ∃ g, r = Ok g) w.
Proof.
  intros [Hg Hu Hm]. eapply wp_mono, wp_frame, findGroupByID_spec;
    [|apply findGroupByID_users|done].
  intros r w' [(Hg' & Hro & Hr) Hus]. split; [split|split]; try done.
  - unfold UsersInv. by rewrite Hus, (proj1 Hro).
  - eapply MembersInv_same; [done|by rewrite Hus|apply Hro].
  - destruct r; eauto; done.
Qed.

Lemma getUser_directory id w :
  DirectoryInv w → wp (getUser id) (λ r w', DirectoryInv w' ∧ read_only w w' ∧
    ∃ u, r = Ok u) w.
Proof.
  intros [Hg Hu Hm]. eapply wp_mono.
  2: { eapply wp_frame; [apply getUser_groups|].
       eapply wp_frame; [apply getUser_members|]. by apply getUser_spec. }
  intros r w' [[(Hu' & Hro & Hr) Hmem] Hgr]. split; [split|split]; try done.
  - unfold GroupsInv. by rewrite Hgr, (proj1 Hro).
  - by eapply MembersInv_same; [| |apply Hro].
  - destruct r; eauto; done.
Qed.

(** The membership of [uID] in [groupID] is now [b], and nothing else changed. *)
Definition membership_changed uID groupID (b : bool) (w w' : World) : Prop :=
  (∀ t, t ≠ SLATE_users → table w' t = table w t) ∧
  (∀ u, is_user w' u ↔ is_user w u) ∧
  (∀ u' g', is_member w' u' g' ↔
     if decide (u' = uID ∧ g' = groupID) then b = true else is_member w u' g').

Definition membership_post uID groupID (b : bool) (w : World) (r : Res bool) (w' : World) : Prop :=
  DirectoryInv w' ∧ (healthy (db w) → healthy (db w')) ∧
  match r with
  | Ok true => membership_changed uID groupID b w w'
  | Ok false => ¬ healthy (db w) ∧ ∀ t, table w' t = table w t
  | _ => False
  end.

Lemma membership_changed_table u g (b : bool) w w' :
  table_set SLATE_users (if b then <[membership_key u g := membership_item u g]> (table w SLATE_users)
                         else delete (membership_key u g) (table w SLATE_users)) w w' →
  membership_changed u g b w w'.
Proof.
  intros Ht. pose proof (table_set_same _ _ _ _ Ht) as Hu.
  split; [intros t Hne; by eapply table_set_other|]. split.
  - intros x. unfold is_user. apply stored_user_same. intros id. rewrite Hu.
    pose proof (membership_not_user_key u g id). destruct b;
      [by rewrite lookup_insert_ne|by rewrite lookup_delete_ne].
  - intros u' g'. unfold is_member. rewrite Hu.
    destruct (decide (membership_key u g = membership_key u' g')) as [[-> ->]%membership_key_inj|Hne].
    + rewrite decide_True by done. destruct b.
      * rewrite lookup_insert_eq. split; eauto.
      * rewrite lookup_delete_eq. split; [by intros []|done].
    + rewrite decide_False by (intros [-> ->]; done).
      destruct b; [by rewrite lookup_insert_ne|by rewrite lookup_delete_ne].
Qed.

(** Writing or deleting a membership row keeps the invariant of the users. *)
Lemma users_inv_membership c tbl u g :
  users_inv c tbl → users_inv c (<[membership_key u g := membership_item u g]> tbl).
Proof.
  intros Hi. eapply users_inv_same; [done|..].
  - intros id. apply lookup_insert_ne, membership_not_user_key.
  - intros k it. rewrite lookup_insert. case_decide; [|by left].
    intros [= <-]. right. exists u, g. split; [apply member_row_item|done].
Qed.

Lemma users_inv_no_membership c tbl u g :
  users_inv c tbl → users_inv c (delete (membership_key u g) tbl).
Proof.
  intros Hi. eapply users_inv_same; [done|..].
  - intros id. apply lookup_delete_ne, membership_not_user_key.
  - intros k it [_ Hit]%lookup_delete_Some. by left.
Qed.

Lemma addUserToGroup_spec uID groupID w :
  DirectoryInv w → begins_with groupID groupIDPrefix = true →
  wp (addUserToGroup uID groupID) (membership_post uID groupID true w) w.
Proof.
  intros Hi Hg. unfold addUserToGroup. rewrite normalizeGroupID_is_id by done.
  eapply wp_run; [reflexivity|].
  eapply wp_seq; [by apply findGroupByID_directory| |
    by intros e w' (_ & _ & b & [=])|by intros w' (_ & _ & b & [=])].
  intros group w1 (Hi1 & Hro1 & _).
  eapply wp_seq; [by apply getUser_directory| |
    by intros e w' (_ & _ & b & [=])|by intros w' (_ & _ & b & [=])].
  intros user w2 (Hi2 & Hro2 & _).
  assert (Hro : read_only w w2) by by etrans. clear dependent w1.
  eapply (wp_PutItem _ _ (membership_key uID groupID)); [by apply item_key_eq|..].
  - intros e w3 Hq Hh. split; [by eapply quiet_DirectoryInv|].
    assert (Hro' : read_only w w3) by (etrans; [done|apply Hq]).
    split; [apply Hro'|]. split; [|apply Hro']. intros Hd. by apply Hh, Hro.
  - intros w3 Hq Hh Ht. apply wp_cache_member.
    intros w4 Hdb Hgr Hus Hc. eapply wp_run; [reflexivity|]. eapply wp_run; [reflexivity|].
    assert (Hch : membership_changed uID groupID true w w4).
    { destruct (membership_changed_table uID groupID true _ _ Ht) as (H1 & H2 & H3).
      unfold membership_changed, is_user, is_member in *. rewrite Hdb.
      split; [intros t Hne; by rewrite H1, (proj1 Hro)|].
      by rewrite <- (proj1 Hro SLATE_users). }
    assert (Hus3 : users w3 = users w2) by apply Hq.
    assert (Hgr3 : groups w3 = groups w2) by apply Hq.
    pose proof (table_set_same _ _ _ _ Ht) as Htu.
    split; [split|split; [|exact Hch]]; simpl.
    + unfold GroupsInv. simpl. rewrite Hdb, (table_set_other _ _ _ _ _ Ht) by done.
      rewrite Hgr, Hgr3. eapply groups_inv_caches, (di_groups _ Hi2); done.
    + unfold UsersInv. simpl. rewrite Hdb, Htu, Hus, Hus3.
      apply users_inv_membership. by destruct (di_users _ Hi2); split.
    + intros g' u' [[-> ->]|Hm]%Hc Hne.
      * apply (proj2 (proj2 Hch)). by rewrite decide_True.
      * apply (proj2 (proj2 Hch)). case_decide; [done|].
        unfold is_member. rewrite <- (proj1 Hro). apply (di_members _ Hi2); [|done].
        unfold member_cached in *. by rewrite <- Hus3.
    + rewrite Hdb. intros Hd. by apply Hh, Hro.
Qed.

Lemma wp_forget_membership {B} uID groupID (k : unit → Store B) Q w :
  DirectoryInv w →
  (∀ w', db w' = db w → DirectoryInv w' →
    (∀ g' u', member_cached w' g' u' ↔ ¬ (g' = groupID ∧ u' = uID) ∧ member_cached w g' u') →
    wp (k tt) Q w') →
  wp (forget_membership uID groupID ≫= k) Q w.
Proof.
  intros [Hg Hu Hm] Hk.
  assert (Hc : ∀ w', users w' = upd_userByGroupCache
      (λ m, (mm_erase groupID (CacheRecord.stale uID) m).2) (users w) →
    ∀ g' u', member_cached w' g' u' ↔ ¬ (g' = groupID ∧ u' = uID) ∧ member_cached w g' u').
  { intros w' Hw' g' u'. unfold member_cached. rewrite Hw'. simpl.
    rewrite mm_contains_erase, andb_true_iff, negb_true_iff. unfold same_pair, cpp_eq.
    rewrite andb_false_iff, bool_decide_eq_false.
    unfold CacheRecord.eqb, cpp_eq, string_eq, eq_on. simpl. rewrite bool_decide_eq_false.
    destruct (decide (groupID = g')), (decide (uID = u')); subst; split; intuition congruence. }
  assert (Hi : ∀ w', db w' = db w → users w' = upd_userByGroupCache
      (λ m, (mm_erase groupID (CacheRecord.stale uID) m).2) (users w) →
    groupCache (groups w') = groupCache (groups w) →
    groupByNameCache (groups w') = groupByNameCache (groups w) → DirectoryInv w').
  { intros w' Hdb Hus H1 H2. split.
    - unfold GroupsInv. rewrite Hdb. by eapply groups_inv_caches.
    - unfold UsersInv. rewrite Hdb, Hus. by destruct Hu; split.
    - intros g' u' [_ Hg']%(Hc _ Hus) Hne. unfold is_member. rewrite Hdb. by apply Hm. }
  unfold forget_membership, modify, gets, mbind, M_bind, wp. simpl.
  destruct (groupCache (groups w) !! groupID) as [r|]; apply Hk; auto.
Qed.

Lemma removeUserFromGroup_spec uID groupID w :
  DirectoryInv w → begins_with groupID groupIDPrefix = true →
  wp (removeUserFromGroup uID groupID) (membership_post uID groupID false w) w.
Proof.
  intros Hi Hg. unfold removeUserFromGroup. rewrite normalizeGroupID_is_id by done.
  eapply wp_run; [reflexivity|]. apply wp_forget_membership; [done|].
  intros w1 Hdb Hi1 Hc1. apply wp_DeleteItem.
  - intros e w2 Hq Hh. split; [by eapply quiet_DirectoryInv|].
    destruct (quiet_ro _ _ Hq) as [Ht Hd]. rewrite Hdb in *. split; [done|].
    split; [|done]. intros Hd'. destruct (Hh Hd') as (? & [=] & _).
  - intros w2 Hq Hh _ Ht. rewrite Hdb in Hh.
    destruct (membership_changed_table uID groupID false _ _ Ht) as (H1 & H2 & H3).
    assert (Hch : membership_changed uID groupID false w w2).
    { unfold membership_changed, is_user, is_member in *. by rewrite <- Hdb. }
    assert (Hus : users w2 = users w1) by apply Hq.
    assert (Hgr : groups w2 = groups w1) by apply Hq.
    split; [split|by split].
    + unfold GroupsInv. simpl. rewrite Hgr, H1 by done. apply Hi1.
    + unfold UsersInv. simpl. rewrite Hus, (table_set_same _ _ _ _ Ht).
      apply users_inv_no_membership, Hi1.
    + intros g' u' Hm Hne. apply H3.
      assert (Hm1 : member_cached w1 g' u') by (unfold member_cached in *; by rewrite <- Hus).
      rewrite decide_False.
      * by apply (di_members _ Hi1).
      * intros [-> ->]. apply Hc1 in Hm1 as [[] _]. done.
Qed.

(** The members of a group, read from the index. *)
Lemma getMembersOfGroup_spec groupID w :
  DirectoryInv w →
  wp (getMembersOfGroup groupID) (λ r w', quiet w w' ∧ ∃ l, r = Ok l ∧
    ((∀ u, u ∈ l ↔ is_member w u groupID) ∨ (¬ healthy (db w) ∧ l = []))) w.
Proof.
  intros Hi. unfold getMembersOfGroup. apply wp_databaseQuery. intros w1 Hq1.
  apply wp_Query; [intros e w2 Hq2 Hh|intros items w2 Hq2 Hl];
    assert (Hq : quiet w w2) by by etrans.
  { split; [done|]. exists []. split; [done|]. right. split; [|done]. intros Hd.
    by apply Hh, Hq1. }
  rewrite (proj1 (quiet_ro _ _ Hq1)) in Hl.
  assert (Hrow : ∀ e, e ∈ items ↔ ∃ u it, table w SLATE_users !! membership_key u groupID = Some it ∧
    member_row u groupID it ∧ index_entry SLATE_users (Some "ByGroup") it = Some e).
  { intros e. rewrite Hl, elem_of_query_items. split.
    - intros (k & it & Hit & He & Hm%kc_match_eq & _).
      rewrite (index_entry_lookup_eq SLATE_users "ByGroup" user_ByGroup it e "groupID") in Hm
        by (try done; compute_done).
      destruct (ui_table _ _ (di_users _ Hi) _ _ Hit) as [(u & (_ & _ & Hn) & _)|(u & g & Hmr & ->)];
        [congruence|].
      destruct Hmr as (H1 & H2 & H3). assert (g = groupID) as ->.
      { rewrite H2 in Hm. injection Hm as Hm. by apply AVS_inj in Hm. }
      exists u, it. by split_and!.
    - intros (u & it & Hit & Hmr & He). exists (membership_key u groupID), it.
      split_and!; [done..| |done]. apply kc_match_eq.
      rewrite (index_entry_lookup_eq SLATE_users "ByGroup" user_ByGroup it e "groupID")
        by (try done; compute_done). apply Hmr. }
  eapply wp_mono.
  2: { apply (for_collect_spec (λ done w', w' = w2 ∧ ∀ p : Item * string, p ∈ done →
         p.1 !! "ID" = Some (AVS p.2)) _ _ []).
       - split; [done|]. by intros p ?%not_elem_of_nil.
       - intros e w' acc He [-> Hacc].
         apply Hrow in He as (u & it & Hit & (Hid & _) & He).
         rewrite <- (index_entry_lookup_eq SLATE_users "ByGroup" user_ByGroup it e "ID") in Hid
           by (try done; compute_done).
         exists u. unfold lift. simpl. split.
         + by apply (attr_string_ok e "ID").
         + split; [done|]. intros p [Hp| ->%list_elem_of_singleton]%elem_of_app; auto. }
  intros r w3 (done & -> & Hdone & [-> Hids]). split; [done|]. eexists. split; [done|]. left.
  intros u. rewrite list_elem_of_fmap. unfold is_member. split.
  - intros ([e u'] & -> & Hp). assert (He : e ∈ items).
    { rewrite <- Hdone. apply list_elem_of_fmap. by exists (e, u'). }
    apply Hrow in He as (u & it & Hit & (Hid & _) & He).
    rewrite <- (index_entry_lookup_eq SLATE_users "ByGroup" user_ByGroup it e "ID") in Hid
      by (try done; compute_done).
    apply Hids in Hp. simpl in *. rewrite Hp in Hid. injection Hid as Hid%AVS_inj.
    rewrite Hid. eauto.
  - intros [it Hit].
    destruct (ui_table _ _ (di_users _ Hi) _ _ Hit) as [(x & _ & Hk)|(u' & g & Hmr & Hk)].
    { by destruct (membership_not_user_key u groupID (User.id x)). }
    apply membership_key_inj in Hk as [<- <-].
    destruct (proj1 (index_entry_is_some SLATE_users "ByGroup" user_ByGroup it eq_refl)) as [e He].
    { exists (AVS groupID). apply Hmr. }
    assert (Hin : e ∈ done.*1) by (rewrite Hdone; apply Hrow; eauto).
    apply list_elem_of_fmap in Hin as ([e' u'] & -> & Hp).
    exists (e', u'). split; [|done]. simpl in *. apply Hids in Hp. simpl in Hp.
    rewrite (index_entry_lookup_eq SLATE_users "ByGroup" user_ByGroup it e' "ID") in Hp
      by (try done; compute_done).
    destruct Hmr as (Hid & _). rewrite Hid in Hp. injection Hp as Hp%AVS_inj. done.
Qed.

(** ** Removing a group *)

(** Memberships in other groups, and the tables the removal is not about. *)
Record others_kept groupID (w w' : World) : Prop := {
  ok_healthy : healthy (db w) → healthy (db w');
  ok_tables : ∀ t, t ≠ SLATE_users → t ≠ SLATE_groups → table w' t = table w t;
  ok_users : ∀ u, is_user w' u ↔ is_user w u;
  ok_members : ∀ u g, g ≠ groupID → is_member w' u g ↔ is_member w u g;
  ok_removed : ∀ u, is_member w' u groupID → is_member w u groupID }.

#[local] Instance others_kept_preorder groupID : PreOrder (others_kept groupID).
Proof.
  split; [by split|]. intros w1 w2 w3 H1 H2. split.
  - intros Hd. by apply (ok_healthy _ _ _ H2), (ok_healthy _ _ _ H1).
  - intros t Ht Ht'. rewrite (ok_tables _ _ _ H2), (ok_tables _ _ _ H1); done.
  - intros u. by rewrite (ok_users _ _ _ H2), (ok_users _ _ _ H1).
  - intros u g Hne. by rewrite (ok_members _ _ _ H2), (ok_members _ _ _ H1).
  - intros u Hm. by apply (ok_removed _ _ _ H1), (ok_removed _ _ _ H2).
Qed.

Lemma read_only_others_kept groupID w w' : read_only w w' → others_kept groupID w w'.
Proof.
  intros [Ht Hh]. split; unfold is_user, is_member; intros; rewrite ?Ht in *; auto.
Qed.

Lemma removeMembers_spec groupID members w :
  DirectoryInv w → begins_with groupID groupIDPrefix = true →
  wp (removeMembers members groupID) (λ r w', DirectoryInv w' ∧ others_kept groupID w w' ∧
    table w' SLATE_groups = table w SLATE_groups ∧
    match r with
    | Ok true => ∀ u, u ∈ members → ¬ is_member w' u groupID
    | Ok false => ¬ healthy (db w)
    | _ => False
    end) w.
Proof.
  intros Hi Hg. revert w Hi. induction members as [|u members IH]; intros w Hi; simpl.
  { split; [done|]. split; [by apply read_only_others_kept|]. split; [done|].
    by intros u ?%not_elem_of_nil. }
  eapply wp_seq; [by apply removeUserFromGroup_spec| |
    by intros e w' (_ & _ & [])|by intros w' (_ & _ & [])].
  intros b w1 (Hi1 & Hh & Hr).
  assert (Hk : others_kept groupID w w1 ∧ table w1 SLATE_groups = table w SLATE_groups).
  { destruct b.
    - destruct Hr as (Ht & Hu & Hm). split; [split; auto|by apply Ht].
      + intros u' g Hne. rewrite Hm. case_decide as Hd; [|done]. by destruct Hd.
      + intros u'. rewrite Hm. by case_decide.
    - destruct Hr as [_ Ht]. split; [by apply read_only_others_kept|apply Ht]. }
  destruct Hk as [Hk Htg]. destruct b.
  - eapply wp_mono, IH; [|done]. intros r w2 (Hi2 & Hk2 & Ht2 & Hr2).
    split; [done|]. split; [by etrans|]. split; [congruence|].
    destruct r as [[]| |]; [|by intros Hd%Hh|done..].
    intros u' [->|Hu']%elem_of_cons; [|auto]. intros Hm%(ok_removed _ _ _ Hk2).
    destruct Hr as (_ & _ & Hr). apply Hr in Hm. by rewrite decide_True in Hm.
  - split; [done|]. split; [done|]. split; [done|]. apply Hr.
Qed.

Lemma groups_inv_sub c c' tbl :
  groups_inv c tbl →
  groupCache c' ⊆ groupCache c → groupByNameCache c' ⊆ groupByNameCache c →
  (∀ name r, groupByNameCache c' !! name = Some r →
     is_Some (groupCache c' !! Group.id (CacheRecord.record r))) →
  groups_inv c' tbl.
Proof.
  intros Hi H1 H2 H3. split; try apply Hi; try done; intros k r Hr.
  - apply (gi_cache _ _ Hi). by eapply lookup_weaken.
  - apply (gi_byname _ _ Hi). by eapply lookup_weaken.
Qed.

Lemma stored_group_delete tbl id g :
  stored_group (delete (id, id) tbl) g ↔ stored_group tbl g ∧ Group.id g ≠ id.
Proof.
  unfold stored_group. split.
  - intros (it & [Hne Hit]%lookup_delete_Some & Hr). split; [eauto|congruence].
  - intros [(it & Hit & Hr) Hne]. exists it. split; [|done].
    apply lookup_delete_Some. split; [congruence|done].
Qed.

(** A group no cache knows can be deleted from the table. *)
Lemma groups_inv_delete c tbl id :
  groups_inv c tbl → groupCache c !! id = None → groups_inv c (delete (id, id) tbl).
Proof.
  intros Hi Hn. split; try apply Hi.
  - intros k it [_ Hit]%lookup_delete_Some. by apply (gi_table _ _ Hi).
  - intros g1 g2 [H1 _]%stored_group_delete [H2 _]%stored_group_delete. by apply (gi_names _ _ Hi).
  - intros g [H1 _]%stored_group_delete. by apply (gi_nonempty _ _ Hi).
  - intros k r Hr. destruct ((gi_cache _ _ Hi) _ _ Hr) as [Hk Hst]. split; [done|].
    destruct Hst as [->|Hst]; [by left|right].
    apply stored_group_delete. split; [done|congruence].
  - intros k r Hr. destruct ((gi_byname _ _ Hi) _ _ Hr) as [Hk Hst]. split; [done|].
    destruct Hst as [->|Hst]; [by left|right].
    apply stored_group_delete. split; [done|]. intros Hid.
    destruct ((gi_sync _ _ Hi) _ _ Hr) as [r' Hr']. congruence.
Qed.

Lemma forget_group_spec id w :
  GroupsInv w →
  ∃ c, forget_group id w = (Ok tt, upd_groups (λ _, c) w) ∧
    groups_inv c (table w SLATE_groups) ∧ groupCache c !! id = None.
Proof.
  intros Hi. destruct (groupCache (groups w) !! id) as [r|] eqn:Hr.
  - exists (upd_groupCache (delete id) (upd_groupByNameCache
      (delete (Group.name (CacheRecord.record r))) (groups w))).
    split; [|split; [|by apply lookup_delete_eq]].
    + unfold forget_group, mbind, M_bind, gets. simpl. by rewrite Hr.
    + eapply groups_inv_sub; [done|apply delete_subseteq..|]; simpl.
      intros name r' [Hne Hr']%lookup_delete_Some.
      destruct (gi_sync _ _ Hi _ _ Hr') as [r2 Hr2].
      rewrite lookup_delete_ne; [by exists r2|]. intros Hid.
      destruct (gi_byname _ _ Hi _ _ Hr') as [Hn Hst].
      destruct (gi_cache _ _ Hi _ _ Hr) as [Hid' Hst'].
      apply Hne. rewrite <- Hn. destruct Hst as [Hst|Hst], Hst' as [Hst'|Hst'].
      * by rewrite Hst, Hst'.
      * destruct (gi_nonempty _ _ Hi _ Hst') as [[] _]. by rewrite Hid', Hid, Hst.
      * destruct (gi_nonempty _ _ Hi _ Hst) as [[] _]. by rewrite <- Hid, <- Hid', Hst'.
      * f_equal. eapply stored_group_inj; [done..|congruence].
  - exists (upd_groupCache (delete id) (groups w)). split; [|split; [|by apply lookup_delete_eq]].
    + unfold forget_group, mbind, M_bind, gets. simpl. by rewrite Hr.
    + unfold upd_groupCache. rewrite delete_id by done. unfold GroupsInv in Hi.
      by destruct (groups w).
Qed.

Lemma removeGroup_spec groupID w :
  DirectoryInv w → begins_with groupID groupIDPrefix = true →
  wp (removeGroup groupID) (λ r w', DirectoryInv w' ∧ others_kept groupID w w' ∧
    match r with
    | Ok true => (∀ g, is_group w' g ↔ is_group w g ∧ Group.id g ≠ groupID) ∧
        (healthy (db w) → ∀ u, ¬ is_member w' u groupID)
    | Ok false => ¬ healthy (db w) ∧ ∀ g, is_group w' g ↔ is_group w g
    | _ => False
    end) w.
Proof.
  intros Hi Hg. unfold removeGroup.
  eapply wp_seq; [by apply getMembersOfGroup_spec| |
    by intros e w' (_ & b & [=] & _)|by intros w' (_ & b & [=] & _)].
  intros members w1 (Hq1 & l & [= <-] & Hl).
  pose proof (quiet_DirectoryInv _ _ Hq1 Hi) as Hi1.
  pose proof (read_only_others_kept groupID _ _ (quiet_ro _ _ Hq1)) as Hk1.
  eapply wp_seq; [by apply removeMembers_spec| |
    by intros e w' (_ & _ & _ & [])|by intros w' (_ & _ & _ & [])].
  intros removed w2 (Hi2 & Hk2 & Htg & Hrem).
  assert (Hk : others_kept groupID w w2) by by etrans.
  assert (Hgroups : table w2 SLATE_groups = table w SLATE_groups).
  { by rewrite Htg, (proj1 (quiet_ro _ _ Hq1)). }
  destruct removed; simpl.
  2: { split; [done|]. split; [done|]. split.
       - intros Hd. by apply Hrem, (quiet_ro _ _ Hq1).
       - intros g. unfold is_group. simpl. by rewrite Hgroups. }
  destruct (forget_group_spec groupID w2 (di_groups _ Hi2)) as (c & Hf & Hc & Hn).
  eapply wp_run; [exact Hf|]. set (w2' := upd_groups (λ _, c) w2) in *.
  assert (Hi2' : DirectoryInv w2').
  { destruct Hi2 as [_ Hu Hm]. by split. }
  assert (Hk2' : others_kept groupID w2 w2') by by split.
  apply wp_DeleteItem.
  - intros e w3 Hq Hh. split; [by eapply quiet_DirectoryInv|].
    split; [etrans; [exact Hk|]; etrans; [exact Hk2'|];
            apply read_only_others_kept, (quiet_ro _ _ Hq)|].
    split.
    + intros Hd. destruct (Hh (ok_healthy _ _ _ Hk Hd)) as (? & [=] & _).
    + intros g. unfold is_group. simpl. rewrite (proj1 (quiet_ro _ _ Hq)). simpl.
      by rewrite Hgroups.
  - intros w3 Hq Hh _ Ht. simpl in *.
    pose proof (table_set_same _ _ _ _ Ht) as Htg3. simpl in Htg3.
    assert (Hus : table w3 SLATE_users = table w2 SLATE_users).
    { by apply (table_set_other _ _ _ _ _ Ht). }
    assert (Hk3 : others_kept groupID w2 w3).
    { split; unfold is_user, is_member; rewrite ?Hus; try done.
      intros t H1 H2. by apply (table_set_other _ _ _ _ _ Ht). }
    split; [split|split; [by etrans|split]].
    + unfold GroupsInv. simpl. rewrite Htg3, (quiet_groups _ _ Hq : groups w3 = c).
      by apply groups_inv_delete.
    + unfold UsersInv. simpl. rewrite Hus, (quiet_users _ _ Hq : users w3 = users w2).
      apply Hi2.
    + eapply (MembersInv_same w2); [apply Hi2| |done]. simpl.
      by rewrite (quiet_users _ _ Hq : users w3 = users w2).
    + intros g. unfold is_group. simpl. rewrite Htg3, Hgroups. apply stored_group_delete.
    + intros Hd u Hm. destruct Hl as [Hl|[Hl _]]; [|done].
      assert (Hm2 : is_member w2 u groupID).
      { unfold is_member in *. by rewrite <- Hus. }
      eapply Hrem, Hm2. apply Hl. by apply (ok_removed _ _ _ Hk).
Qed.
End membership_invariant.

(** * Properties *)

Section membership_theorems.
Context `{D : Dynamo} `{P : Platform} `{L : !DynamoLaws}.

(** The membership test, which guards most commands, never says yes for a user
    who has no membership record in the group, whatever the caches hold; it says no
    to a member only if the service failed, or if the cached membership expires
    between the two readings of the clock the function makes. *)
Theorem userInGroup_correct (uID groupID : string) (w : World) :
  UsersInv w → MembersInv w → uID ≠ "" → begins_with groupID groupIDPrefix = true →
  wp (userInGroup uID groupID) (userInGroup_post uID groupID w) w.
Proof. apply userInGroup_spec. Qed.

(** Adding a user to a group and removing one from it change that membership
    alone - no other membership, no user record, no other table - and keep the
    caches of groups, users and members coherent; [false] means that the service
    refused, and then the tables are as before. *)
Theorem membership_changes_correct (uID groupID : string) (w : World) :
  DirectoryInv w → begins_with groupID groupIDPrefix = true →
  wp (addUserToGroup uID groupID) (membership_post uID groupID true w) w ∧
  wp (removeUserFromGroup uID groupID) (membership_post uID groupID false w) w.
Proof. split; [by apply addUserToGroup_spec|by apply removeUserFromGroup_spec]. Qed.

(** Once a user has been removed from a group, or the group itself has been
    removed, the membership test denies it: no cache still grants what the database
    does not. *)
Theorem removed_member_is_denied (uID groupID : string) (w w1 w2 : World) :
  DirectoryInv w → healthy (db w) → uID ≠ "" → begins_with groupID groupIDPrefix = true →
  removeUserFromGroup uID groupID w = (Ok true, w1) →
  removeGroup groupID w = (Ok true, w2) →
  (userInGroup uID groupID w1).1 = Ok false ∧ (userInGroup uID groupID w2).1 = Ok false.
Proof.
  intros Hi Hd Hu Hg H1 H2.
  pose proof (removeUserFromGroup_spec uID groupID w Hi Hg) as S1.
  pose proof (removeGroup_spec groupID w Hi Hg) as S2. unfold wp in S1, S2.
  rewrite H1 in S1. rewrite H2 in S2. simpl in *.
  destruct S1 as (Hi1 & _ & _ & _ & Hm1). destruct S2 as (Hi2 & _ & _ & Hm2).
  assert (Hdeny : ∀ w', DirectoryInv w' → ¬ is_member w' uID groupID →
    (userInGroup uID groupID w').1 = Ok false).
  { intros w' Hi' Hn.
    destruct (userInGroup_spec uID groupID w' (di_users _ Hi') (di_members _ Hi') Hu Hg)
      as (_ & _ & _ & b & Hb & Htrue & _).
    rewrite Hb. destruct b; [by destruct (Hn (Htrue eq_refl))|done]. }
  split; (apply Hdeny; [done|]).
  - rewrite Hm1, decide_True by done. done.
  - by apply Hm2.
Qed.

(** Removing a group removes all its memberships and then the group: other
    groups, the memberships in them, the users and the other tables stay; [false]
    is returned only if the service refused, the group then being kept. *)
Theorem removeGroup_correct (groupID : string) (w : World) :
  DirectoryInv w → begins_with groupID groupIDPrefix = true →
  wp (removeGroup groupID) (λ r w', DirectoryInv w' ∧ others_kept groupID w w' ∧
    match r with
    | Ok true => (∀ g, is_group w' g ↔ is_group w g ∧ Group.id g ≠ groupID) ∧
        (healthy (db w) → ∀ u, ¬ is_member w' u groupID)
    | Ok false => ¬ healthy (db w) ∧ ∀ g, is_group w' g ↔ is_group w g
    | _ => False
    end) w.
Proof. apply removeGroup_spec. Qed.
End membership_theorems.

Section membership_witnesses.
Import Demo.

(** A group, a user, and the user in the group. *)
Definition demo_directory0 : World := (addUser demo_user (addGroup demo_group empty).2).2.
Definition demo_directory : World := (addUserToGroup "user_1" "group_1" demo_directory0).2.

Lemma addGroup_users g : frame users (addGroup g).
Proof. unfold addGroup, cache_group. solve_frame. Qed.

Lemma addUser_groups u : frame groups (addUser u).
Proof. unfold addUser, cache_user. solve_frame. Qed.

Lemma addUser_members u : frame (λ w, userByGroupCache (users w)) (addUser u).
Proof. unfold addUser, cache_user. solve_frame. Qed.

Lemma demo_directory0_inv : DirectoryInv demo_directory0.
Proof.
  set (w1 := (addGroup demo_group empty).2).
  assert (Hu1 : users w1 = users empty) by apply addGroup_users.
  assert (Hg0 : groups demo_directory0 = groups w1) by apply addUser_groups.
  assert (Hm0 : userByGroupCache (users demo_directory0) = userByGroupCache (users w1))
    by apply addUser_members.
  destruct (addGroup_spec demo_group empty) as (Hg & _ & Ht & _);
    [by apply GroupsInv_empty|done|apply demo_compatible|].
  assert (Hutbl : table w1 SLATE_users = ∅) by by apply Ht.
  assert (Hui : UsersInv w1) by (apply users_inv_empty; [done|by rewrite Hu1..]).
  destruct (addUser_spec demo_user w1 Hui) as (Hui0 & _ & Ht0 & _).
  { assert (Hn : ∀ u', ¬ stored_user (table w1 SLATE_users) u').
    { intros u' (it & Hit & _). by rewrite Hutbl, lookup_empty in Hit. }
    split; [split_and!; try done|]; intros u' Hu'; by destruct (Hn u'). }
  split; [|done|].
  - unfold GroupsInv. rewrite Hg0.
    assert (Htg : table demo_directory0 SLATE_groups = table w1 SLATE_groups) by by apply Ht0.
    rewrite Htg. exact Hg.
  - intros g u Hc. unfold member_cached in Hc. rewrite Hm0 in Hc. rewrite Hu1 in Hc. done.
Qed.

Lemma demo_directory_inv : DirectoryInv demo_directory.
Proof. by apply addUserToGroup_spec; [apply demo_directory0_inv|]. Qed.

Lemma userInGroup_witness :
  MembersInv (userInGroup "user_1" "group_1" demo_directory).2 ∧
  (userInGroup "user_1" "group_1" demo_directory).1 = Ok true.
Proof.
  split; [|vm_compute; reflexivity].
  exact (proj1 (proj2 (userInGroup_correct "user_1" "group_1" demo_directory
    (di_users _ demo_directory_inv) (di_members _ demo_directory_inv) ltac:(done) eq_refl))).
Defined.

Lemma membership_changes_witness :
  wp (removeUserFromGroup "user_1" "group_1")
    (membership_post "user_1" "group_1" false demo_directory) demo_directory ∧
  (removeUserFromGroup "user_1" "group_1" demo_directory).1 = Ok true.
Proof.
  split; [|vm_compute; reflexivity].
  exact (proj2 (membership_changes_correct "user_1" "group_1" demo_directory
    demo_directory_inv eq_refl)).
Defined.

Lemma removed_member_witness :
  (userInGroup "user_1" "group_1" demo_directory).1 = Ok true ∧
  (userInGroup "user_1" "group_1"
     (removeUserFromGroup "user_1" "group_1" demo_directory).2).1 = Ok false.
Proof.
  split; [vm_compute; reflexivity|].
  refine (proj1 (removed_member_is_denied "user_1" "group_1" demo_directory _
    (removeGroup "group_1" demo_directory).2 demo_directory_inv _ _ eq_refl _ _)).
  - vm_compute. reflexivity.
  - done.
  - apply run_result. vm_compute. reflexivity.
  - apply run_result. vm_compute. reflexivity.
Defined.

Lemma removeGroup_witness :
  DirectoryInv (removeGroup "group_1" demo_directory).2 ∧
  (removeGroup "group_1" demo_directory).1 = Ok true.
Proof.
  split; [|vm_compute; reflexivity].
  exact (proj1 (removeGroup_correct "group_1" demo_directory demo_directory_inv eq_refl)).
Defined.
End membership_witnesses.
