(* ===== verification/StoreClusters.v ===== *)
(** Cluster records: the operations of [PersistentStore] on the cluster records
    of the clusters table, on the caches of clusters, on the configuration files
    of the clusters and on their locations (src/PersistentStore.cpp). *)

From S2P Require Import Prelude Entities Cache Dynamo Store Demo Listing StoreGroups.

Section clusters.
Context `{D : Dynamo} `{P : Platform}.

(** The item [addCluster] stores. *)
Definition cluster_item (c : Cluster.t) : Item :=
  {["ID" := AVS (Cluster.id c); "sortKey" := AVS (Cluster.id c);
    "name" := AVS (Cluster.name c); "config" := AVS (Cluster.config c);
    "systemNamespace" := AVS (Cluster.systemNamespace c);
    "owningGroup" := AVS (Cluster.owningGroup c);
    "owningOrganization" := AVS (Cluster.owningOrganization c);
    "monCredential" := AVS (S3Credential.serialize (Cluster.monitoringCredential c))]}.

(** The attributes [updateCluster] changes. *)
Definition cluster_updates (c : Cluster.t) : Item :=
  {["name" := AVS (Cluster.name c); "config" := AVS (Cluster.config c);
    "systemNamespace" := AVS (Cluster.systemNamespace c);
    "owningGroup" := AVS (Cluster.owningGroup c);
    "owningOrganization" := AVS (Cluster.owningOrganization c);
    "monCredential" := AVS (S3Credential.serialize (Cluster.monitoringCredential c))]}.

Definition cluster_attr (item : Item) (key : string) : Res string :=
  attr_string item key ("Cluster record missing " +:+ key +:+ " attribute").

(** Decoding of an item, with the ID and name found by [id] and [name]. *)
Definition cluster_of_item (id name : Res string) (item : Item) : Res Cluster.t :=
  id ← id;
  name ← name;
  owningGroup ← cluster_attr item "owningGroup";
  config ← cluster_attr item "config";
  systemNamespace ← cluster_attr item "systemNamespace";
  mret (Cluster.mk true id name config systemNamespace owningGroup
          (attr_default item "owningOrganization")
          (S3Credential.deserialize (attr_default item "monCredential"))).

(** The path of the file replaces that of the previous file of the cluster. *)
Definition writeClusterConfigToDisk (cluster : Cluster.t) : Store unit :=
  let file := write_temp (clusterConfigDir +:+ "/" +:+ Cluster.id cluster +:+ "_v")
                (Cluster.config cluster) in
  r ← (λ w, (Ok (file (fs w)).1, upd_fs (λ f, (file f).2) w));
  match r with
  | inl err => throw err
  | inr path =>
      modify (upd_clusters (upd_clusterConfigs (replaceCacheRecord (Cluster.id cluster) path)))
  end.

(** Caching a cluster; the configuration goes to a file. *)
Definition cache_cluster (cluster : Cluster.t) : Store unit :=
  record ← make_record cluster clusterCacheValidity;
  _ ← modify (upd_clusters (upd_clusterCache (replaceCacheRecord (Cluster.id cluster) record)));
  _ ← modify (upd_clusters (upd_clusterByNameCache
                              (replaceCacheRecord (Cluster.name cluster) record)));
  _ ← multi_insert (λ f, upd_clusters (upd_clusterByGroupCache f))
        (Cluster.owningGroup cluster) record;
  writeClusterConfigToDisk cluster.

Definition addCluster (cluster : Cluster.t) : Store bool :=
  outcome ← request (PutItem SLATE_clusters (cluster_item cluster));
  match outcome with
  | inl err => mret false
  | inr _ => _ ← cache_cluster cluster; mret true
  end.

Definition findClusterByID (cID : string) : Store Cluster.t :=
  cached ← find_cached (λ w, clusterCache (clusters w)) cID;
  match cached with
  | Some cluster => mret cluster
  | None =>
      _ ← databaseQuery;
      outcome ← request (GetItem SLATE_clusters (cID, cID));
      match outcome with
      | inl err => mret Cluster.none
      | inr item =>
          if bool_decide (item = ∅) then mret Cluster.none else
          cluster ← lift (cluster_of_item (Ok cID) (cluster_attr item "name") item);
          _ ← cache_cluster cluster;
          mret cluster
      end
  end.

Definition findClusterByName (name : string) : Store Cluster.t :=
  cached ← find_cached (λ w, clusterByNameCache (clusters w)) name;
  match cached with
  | Some cluster => mret cluster
  | None =>
      _ ← databaseQuery;
      outcome ← request (Query SLATE_clusters (Some "ByName")
                           (mkKC "name" (AVS name) None) ETrue);
      match outcome with
      | inl err => mret Cluster.none
      | inr [] => mret Cluster.none
      | inr [item] =>
          cluster ← lift (cluster_of_item (cluster_attr item "ID") (Ok name) item);
          _ ← cache_cluster cluster;
          mret cluster
      | inr _ => throw ("Cluster name " +:+ dquote +:+ name +:+ dquote +:+ " is not unique!")
      end
  end.

Definition getCluster (idOrName : string) : Store Cluster.t :=
  if begins_with idOrName clusterIDPrefix then findClusterByID idOrName
  else findClusterByName idOrName.

Definition updateCluster (cluster : Cluster.t) : Store bool :=
  outcome ← request (UpdateItem SLATE_clusters (Cluster.id cluster, Cluster.id cluster)
                       (cluster_updates cluster) None);
  match outcome with
  | inl err => mret false
  | inr _ => _ ← cache_cluster cluster; mret true
  end.

Definition list_cluster (item : Item) : Store Cluster.t :=
  cluster ← lift (cluster_of_item (cluster_attr item "ID") (cluster_attr item "name") item);
  _ ← cache_cluster cluster;
  mret cluster.

Definition listClusters (fuel : nat) : Store (list Cluster.t) :=
  list_all (λ w, clusterCacheExpirationTime (clusters w)) (λ w, clusterCache (clusters w))
    SLATE_clusters (EAnd (ENotExists "groupID") (EExists "name")) list_cluster
    (λ _ time, modify (upd_clusters (upd_clusterCacheExpirationTime (λ _, time))))
    clusterCacheValidity fuel.

(** [cuckoohash_map::find] throws when the key is missing. *)
Definition configPathForCluster (cID : string) : Store string :=
  cluster ← findClusterByID cID;
  if negb (Cluster.valid cluster) then
    throw (cID +:+ " does not exist; cannot get config data")
  else
    c ← gets (λ w, clusterConfigs (clusters w));
    match c !! cID with
    | Some path => mret path
    | None => throw "key not found in table"
    end.

Definition normalizeClusterID (cID : string) : Store (option string) :=
  if negb (begins_with cID clusterIDPrefix) then
    cluster ← findClusterByName cID;
    if Cluster.valid cluster then mret (Some (Cluster.id cluster)) else mret None
  else mret (Some cID).

(** [item.find("ID")->second.GetS()] of every cluster. *)
Definition clustersOwnedByGroup (groupID : string) : Store (list string) :=
  _ ← databaseQuery;
  outcome ← request (Query SLATE_clusters (Some "ByGroup")
                       (mkKC "owningGroup" (AVS groupID) None) ETrue);
  match outcome with
  | inl err => mret []
  | inr items =>
      for_collect items (λ item, lift (v ← find_deref item "ID"; mret (GetS v)))
  end.

(** ** Monitoring credentials of clusters *)

Definition nocred : AV := AVS (S3Credential.serialize S3Credential.none).

(** Dropping the cached record and loading it again. *)
Definition reload_cluster (cID : string) : Store unit :=
  _ ← modify (upd_clusters (upd_clusterCache (delete cID)));
  _ ← findClusterByID cID;
  mret tt.

Definition setClusterMonitoringCredential (cID : string) (cred : S3Credential.t) : Store bool :=
  outcome ← request (UpdateItem SLATE_clusters (cID, cID)
              {["monCredential" := AVS (S3Credential.serialize cred)]}
              (Some (EOr (ENotExists "monCredential") (EEq "monCredential" nocred))));
  match outcome with
  | inl err => mret false
  | inr _ => _ ← reload_cluster cID; mret true
  end.

Definition removeClusterMonitoringCredential (cID : string) : Store bool :=
  outcome ← request (UpdateItem SLATE_clusters (cID, cID) {["monCredential" := nocred]}
              (Some (EExists "monCredential")));
  match outcome with
  | inl err => mret false
  | inr _ => _ ← reload_cluster cID; mret true
  end.

(** A single page of the scan is looked at. *)
Definition findClusterUsingCredential (cred : S3Credential.t) : Store Cluster.t :=
  _ ← databaseScan;
  outcome ← request (Scan SLATE_clusters
              (EEq "monCredential" (AVS (S3Credential.serialize cred))) None);
  match outcome with
  | inl err => mret Cluster.none
  | inr ([], _) => mret Cluster.none
  | inr (item :: _, _) =>
      cluster ← lift (cluster_of_item (cluster_attr item "ID") (cluster_attr item "name") item);
      _ ← cache_cluster cluster;
      mret cluster
  end.

(** ** Locations *)

Definition locations_item (cID sortKey : string) (locations : list GeoLocation.t) : Item :=
  {["ID" := AVS cID; "sortKey" := AVS sortKey;
    "locations" := AVSS (GeoLocation.show <$> locations)]}.

Definition parse_location (cID sPos : string) : Res GeoLocation.t :=
  match GeoLocation.read sPos with
  | Some loc => Ok loc
  | None => Throw ("Malformatted location stored for cluster " +:+ cID)
  end.

Definition getLocationsForCluster (cID : string) : Store (list GeoLocation.t) :=
  normalized ← normalizeClusterID cID;
  match normalized with
  | None => mret []
  | Some cID =>
      cached ← find_cached (λ w, clusterLocationCache (clusters w)) cID;
      match cached with
      | Some locations => mret locations
      | None =>
          _ ← databaseQuery;
          outcome ← request (GetItem SLATE_clusters (cID, cID +:+ ":Locations"));
          match outcome with
          | inl err => mret []
          | inr item =>
              result ← (if bool_decide (item = ∅) then mret [] else
                rawPositions ← lift (findOrThrow item "locations"
                                 "Cluster location record missing locations attribute");
                for_collect (GetSS rawPositions) (λ sPos, lift (parse_location cID sPos)));
              record ← make_record result clusterCacheValidity;
              _ ← modify (upd_clusters (upd_clusterLocationCache (replaceCacheRecord cID record)));
              mret result
          end
      end
  end.

Definition setLocationsForCluster (cID : string) (locations : list GeoLocation.t) : Store bool :=
  normalized ← normalizeClusterID cID;
  match normalized with
  | None => mret false
  | Some cID =>
      outcome ← request (PutItem SLATE_clusters
                  (locations_item cID (cID +:+ ":Locations") locations));
      match outcome with
      | inl err => mret false
      | inr _ =>
          record ← make_record locations clusterCacheValidity;
          _ ← modify (upd_clusters (upd_clusterLocationCache (replaceCacheRecord cID record)));
          mret true
      end
  end.

(** ** Reachability *)

(** [CacheRecord<bool>()] is a default-constructed record. *)
Definition getCachedClusterReachability (cID : string) : Store (CacheRecord.t bool) :=
  normalized ← normalizeClusterID cID;
  match normalized with
  | None => mret (CacheRecord.stale false)
  | Some cID =>
      c ← gets (λ w, clusterConnectivityCache (clusters w));
      mret (default (CacheRecord.stale false) (c !! cID))
  end.

Definition cacheClusterReachability (cID : string) (reachable : bool) : Store unit :=
  normalized ← normalizeClusterID cID;
  match normalized with
  | None => mret tt
  | Some cID =>
      record ← make_record reachable clusterCacheValidity;
      modify (upd_clusters (upd_clusterConnectivityCache (replaceCacheRecord cID record)))
  end.
End clusters.

(** * What the table and the caches hold *)

Section cluster_invariant.
Context `{D : Dynamo} `{P : Platform}.
Implicit Types (c : Cluster.t) (it : Item) (tbl : gmap (string * string) Item).

(** The credential is read back from its stored form. *)
Definition wf_credential (cred : S3Credential.t) : Prop :=
  S3Credential.deserialize (S3Credential.serialize cred) = cred.

Definition cluster_key c : string * string := (Cluster.id c, Cluster.id c).

(** The row of a cluster: at least the attributes [addCluster] writes, and not the
    attribute which is the mark of access records. *)
Definition cluster_row c it : Prop :=
  Cluster.valid c = true ∧ cluster_item c ⊆ it ∧ it !! "groupID" = None ∧
  wf_credential (Cluster.monitoringCredential c).

(** The other rows of the table: access, applications and locations records. *)
Definition auxiliary_row (k : string * string) it : Prop :=
  k.1 ≠ k.2 ∧ it !! "name" = None ∧ it !! "owningGroup" = None ∧ it !! "monCredential" = None.

Definition stored_cluster tbl c : Prop :=
  ∃ it, tbl !! cluster_key c = Some it ∧ cluster_row c it.

Record clusters_inv (cc : ClusterCaches) tbl : Prop := {
  ci_table : ∀ k it, tbl !! k = Some it →
    (∃ c, cluster_row c it ∧ k = cluster_key c) ∨ auxiliary_row k it;
  ci_names : ∀ c1 c2, stored_cluster tbl c1 → stored_cluster tbl c2 →
    Cluster.name c1 = Cluster.name c2 → Cluster.id c1 = Cluster.id c2;
  ci_nonempty : ∀ c, stored_cluster tbl c → Cluster.id c ≠ "";
  ci_cache : coherent (stored_cluster tbl) Cluster.id (clusterCache cc);
  ci_byname : coherent (stored_cluster tbl) Cluster.name (clusterByNameCache cc);
  ci_sync : synchronised Cluster.id (clusterByNameCache cc) (clusterCache cc);
}.

Lemma cluster_row_lookup c it a v :
  cluster_row c it → cluster_item c !! a = Some v → it !! a = Some v.
Proof. intros (_ & Hsub & _) Ha. by eapply lookup_weaken. Qed.

(** Any part of the row that has the attributes of [addCluster] decodes to the cluster. *)
Lemma cluster_of_item_ok c (e : Item) id name :
  Cluster.valid c = true → wf_credential (Cluster.monitoringCredential c) →
  (∀ a, a ∈ ["owningGroup"; "config"; "systemNamespace"; "owningOrganization";
    "monCredential"] → e !! a = cluster_item c !! a) →
  id = Ok (Cluster.id c) → name = Ok (Cluster.name c) →
  cluster_of_item id name e = Ok c.
Proof.
  intros Hv Hw He -> ->. unfold cluster_of_item, cluster_attr, mbind, Res_bind. simpl.
  rewrite (attr_string_ok _ _ _ (Cluster.owningGroup c)),
    (attr_string_ok _ _ _ (Cluster.config c)), (attr_string_ok _ _ _ (Cluster.systemNamespace c)),
    (attr_default_ok _ _ (Cluster.owningOrganization c)),
    (attr_default_ok _ _ (S3Credential.serialize (Cluster.monitoringCredential c)));
    [rewrite Hw; destruct c; simpl in *; by subst|..];
    rewrite He by (rewrite !elem_of_cons; auto 10); reflexivity.
Qed.

(** The attributes of a row or of an index entry of it, projected by [ok]. *)
Lemma cluster_row_decode c it (e : Item) id name :
  cluster_row c it → (∀ a v, a ∈ ["owningGroup"; "config"; "systemNamespace";
    "owningOrganization"; "monCredential"] → it !! a = Some v → e !! a = Some v) →
  id = Ok (Cluster.id c) → name = Ok (Cluster.name c) →
  cluster_of_item id name e = Ok c.
Proof.
  intros Hr He Hid Hname. apply cluster_of_item_ok; [apply Hr|apply Hr| |done..].
  intros a Ha. assert (Hs : is_Some (cluster_item c !! a)).
  { rewrite !elem_of_cons, elem_of_nil in Ha.
    destruct Ha as [->|[->|[->|[->|[->|[]]]]]]; by eexists. }
  destruct Hs as [v Hv]. rewrite Hv. apply He; [done|]. by eapply cluster_row_lookup.
Qed.

Lemma cluster_row_attr c it key s :
  cluster_row c it → cluster_item c !! key = Some (AVS s) → cluster_attr it key = Ok s.
Proof. intros. by eapply attr_string_ok, cluster_row_lookup. Qed.

Lemma cluster_row_found c it :
  cluster_row c it → cluster_of_item (Ok (Cluster.id c)) (cluster_attr it "name") it = Ok c.
Proof. intros Hr. eapply cluster_row_decode; try done. by eapply cluster_row_attr. Qed.

Lemma cluster_row_listed c it :
  cluster_row c it → cluster_of_item (cluster_attr it "ID") (cluster_attr it "name") it = Ok c.
Proof. intros Hr. eapply cluster_row_decode; try done; by eapply cluster_row_attr. Qed.

Lemma cluster_row_inj c1 c2 it : cluster_row c1 it → cluster_row c2 it → c1 = c2.
Proof.
  intros R1%cluster_row_listed R2%cluster_row_listed. congruence.
Qed.

Lemma stored_cluster_inj tbl c1 c2 :
  stored_cluster tbl c1 → stored_cluster tbl c2 → Cluster.id c1 = Cluster.id c2 → c1 = c2.
Proof.
  unfold stored_cluster, cluster_key. intros (it1 & H1 & R1) (it2 & H2 & R2) Hid.
  rewrite Hid, H2 in H1. simplify_eq. by eapply cluster_row_inj.
Qed.

Lemma stored_cluster_valid tbl c : stored_cluster tbl c → Cluster.valid c = true.
Proof. by intros (it & _ & Hv & _). Qed.

(** The entry of a cluster in the index by name. *)
Lemma cluster_row_name_entry c it e :
  cluster_row c it → index_entry SLATE_clusters (Some "ByName") it = Some e →
  cluster_of_item (cluster_attr e "ID") (Ok (Cluster.name c)) e = Ok c.
Proof.
  intros Hr He.
  assert (Hp : ∀ a, a ∈ index_attributes SLATE_clusters cluster_ByName → e !! a = it !! a).
  { intros a Ha. by apply (index_entry_lookup_eq SLATE_clusters "ByName" cluster_ByName). }
  unfold index_attributes in Hp. simpl in Hp.
  eapply cluster_row_decode; [done| |  |done].
  - intros a v Ha. rewrite Hp; [done|]. rewrite !elem_of_cons, elem_of_nil in Ha.
    destruct Ha as [->|[->|[->|[->|[->|[]]]]]]; compute_done.
  - eapply attr_string_ok. rewrite Hp; [by eapply cluster_row_lookup|compute_done].
Qed.

(** A row with a name, an owning group or a monitoring credential, and a row whose two
    keys are the same, is a cluster's. *)
Lemma cluster_row_of_attr cc tbl k it a :
  clusters_inv cc tbl → tbl !! k = Some it → a ∈ ["name"; "owningGroup"; "monCredential"] →
  is_Some (it !! a) → ∃ c, cluster_row c it ∧ k = cluster_key c.
Proof.
  intros Hi Hit Ha Hs. destruct (ci_table _ _ Hi _ _ Hit) as [?|(_ & Hn & Ho & Hm)]; [done|].
  rewrite !elem_of_cons, elem_of_nil in Ha.
  destruct Ha as [->|[->|[->|[]]]]; rewrite ?Hn, ?Ho, ?Hm in Hs; by destruct Hs.
Qed.

Lemma cluster_row_at cc tbl id it :
  clusters_inv cc tbl → tbl !! (id, id) = Some it → ∃ c, cluster_row c it ∧ Cluster.id c = id.
Proof.
  intros Hi Hit. destruct (ci_table _ _ Hi _ _ Hit) as [(c & Hr & [= -> _])|[Hk _]]; [eauto|].
  by destruct Hk.
Qed.

Lemma stored_cluster_insert tbl c it c' :
  cluster_row c it →
  stored_cluster (<[cluster_key c := it]> tbl) c' ↔
  c' = c ∨ (stored_cluster tbl c' ∧ Cluster.id c' ≠ Cluster.id c).
Proof.
  unfold cluster_key. intros Hr. split.
  - intros (it' & Hit & Hr'). unfold cluster_key in Hit. rewrite lookup_insert in Hit. case_decide.
    + left. simplify_eq. by eapply cluster_row_inj.
    + right. split; [by eexists|congruence].
  - intros [->|[(it' & Hit & Hr') Hne]].
    + exists it. by rewrite lookup_insert_eq.
    + exists it'. rewrite lookup_insert_ne; [done|]. unfold cluster_key. congruence.
Qed.

(** The cluster can be stored: it keeps its name, which is not another cluster's. *)
Definition compatible_cluster tbl c : Prop :=
  Cluster.valid c = true ∧ Cluster.id c ≠ "" ∧ wf_credential (Cluster.monitoringCredential c) ∧
  ∀ c', stored_cluster tbl c' → Cluster.id c' = Cluster.id c ↔ Cluster.name c' = Cluster.name c.

Lemma stored_cluster_compatible cc tbl c :
  clusters_inv cc tbl → stored_cluster tbl c → compatible_cluster tbl c.
Proof.
  intros Hi Hc. split_and!; [by eapply stored_cluster_valid|by eapply ci_nonempty| |].
  - by destruct Hc as (it & _ & Hr); apply Hr.
  - intros c' Hc'. split.
    + intros Hid. by rewrite (stored_cluster_inj tbl c' c).
    + by apply (ci_names _ _ Hi).
Qed.

(** Storing and caching a cluster. *)
Lemma clusters_inv_write cc cc' tbl c it r :
  clusters_inv cc tbl → cluster_row c it → compatible_cluster tbl c → CacheRecord.record r = c →
  clusterCache cc' = <[Cluster.id c := r]> (clusterCache cc) →
  clusterByNameCache cc' = <[Cluster.name c := r]> (clusterByNameCache cc) →
  clusters_inv cc' (<[cluster_key c := it]> tbl).
Proof.
  intros Hi Hr (Hv & Hne & Hw & Hc) Hrec Hmain Hname.
  assert (Hst : stored_cluster (<[cluster_key c:=it]> tbl) (CacheRecord.record r)).
  { rewrite Hrec. apply stored_cluster_insert; auto. }
  destruct Hi. split.
  - intros k it'. rewrite lookup_insert. case_decide; [|apply ci_table0].
    intros [= <-]. left. eauto.
  - intros c1 c2. rewrite !stored_cluster_insert by done.
    intros [->|[H1 N1]] [->|[H2 N2]] Hn; [done|..|by eapply ci_names0].
    + symmetry. by apply Hc.
    + by apply Hc.
  - intros c'. rewrite stored_cluster_insert by done. intros [->|[H1 _]]; auto.
  - rewrite Hmain. eapply coherent_replace; [done|by rewrite Hrec|done|].
    intros k' r' Hr' Hk' H1. apply stored_cluster_insert; [done|]. right. split; [done|].
    by rewrite (proj1 (ci_cache0 _ _ Hr')).
  - rewrite Hname. eapply coherent_replace; [done|by rewrite Hrec|done|].
    intros k' r' Hr' Hk' H1. apply stored_cluster_insert; [done|]. right. split; [done|].
    intros Hid%Hc; [|done]. by rewrite (proj1 (ci_byname0 _ _ Hr')) in Hid.
  - rewrite Hmain, Hname. rewrite <- Hrec at 2. by apply synchronised_insert.
Qed.
End cluster_invariant.

Section cluster_operations.
Context `{D : Dynamo} `{P : Platform} `{L : !DynamoLaws} `{DL : !DiskLaws}.

(** Every cached cluster has a configuration file, which holds its configuration. *)
Definition configs_inv (w : World) : Prop :=
  ∀ id r, clusterCache (clusters w) !! id = Some r →
    ∃ path, clusterConfigs (clusters w) !! id = Some path ∧
      file_contents (fs w) path = Some (Cluster.config (CacheRecord.record r)).

Record ClustersInv (w : World) : Prop := {
  cl_inv : clusters_inv (clusters w) (table w SLATE_clusters);
  cl_configs : configs_inv w;
  cl_disk : disk_ok (fs w) }.

Definition is_cluster (w : World) (c : Cluster.t) : Prop :=
  stored_cluster (table w SLATE_clusters) c.

Lemma quiet_ClustersInv w w' : quiet w w' → ClustersInv w → ClustersInv w'.
Proof.
  intros Hq [H1 H2 H3]. split.
  - rewrite (quiet_clusters _ _ Hq). by rewrite (proj1 (quiet_ro _ _ Hq)).
  - unfold configs_inv. by rewrite (quiet_clusters _ _ Hq), (quiet_fs _ _ Hq).
  - by rewrite (quiet_fs _ _ Hq).
Qed.

Lemma read_only_is_cluster w w' c : read_only w w' → is_cluster w' c ↔ is_cluster w c.
Proof. intros [Ht _]. unfold is_cluster. by rewrite Ht. Qed.

(** What [cache_cluster] does. *)
Record cluster_cached (c : Cluster.t) (w w' : World) : Prop := {
  cc_db : db w' = db w;
  cc_ticks : ticks w ≤ ticks w';
  cc_expiration : clusterCacheExpirationTime (clusters w') = clusterCacheExpirationTime (clusters w);
  cc_records : ∃ r path, CacheRecord.record r = c ∧
    clusterCache (clusters w') = <[Cluster.id c := r]> (clusterCache (clusters w)) ∧
    clusterByNameCache (clusters w') = <[Cluster.name c := r]> (clusterByNameCache (clusters w)) ∧
    clusterConfigs (clusters w') = <[Cluster.id c := path]> (clusterConfigs (clusters w)) ∧
    file_contents (fs w') path = Some (Cluster.config c);
  cc_files : ∀ p s, file_contents (fs w) p = Some s → file_contents (fs w') p = Some s;
  cc_disk : disk_ok (fs w') }.

Lemma writeClusterConfigToDisk_run c w :
  disk_ok (fs w) → ∃ path f',
    writeClusterConfigToDisk c w = (Ok tt, upd_clusters (upd_clusterConfigs
      (replaceCacheRecord (Cluster.id c) path)) (upd_fs (λ _, f') w)) ∧
    disk_ok f' ∧ file_contents (fs w) path = None ∧
    file_contents f' path = Some (Cluster.config c) ∧
    ∀ p, p ≠ path → file_contents f' p = file_contents (fs w) p.
Proof.
  intros Hd.
  destruct (write_temp_ok (clusterConfigDir +:+ "/" +:+ Cluster.id c +:+ "_v")
    (Cluster.config c) (fs w) Hd) as (path & f' & Hw & Hf).
  exists path, f'. split; [|exact Hf].
  unfold writeClusterConfigToDisk, mbind, M_bind, modify, upd_fs. by rewrite Hw.
Qed.

Lemma cache_cluster_run c w :
  disk_ok (fs w) → ∃ w', cache_cluster c w = (Ok tt, w') ∧ cluster_cached c w w'.
Proof.
  intros Hd.
  assert (Hrun : ∃ r m w1, cache_cluster c w = writeClusterConfigToDisk c w1 ∧
    CacheRecord.record r = c ∧ db w1 = db w ∧ fs w1 = fs w ∧ ticks w ≤ ticks w1 ∧
    clusters w1 = upd_clusterCache (replaceCacheRecord (Cluster.id c) r)
      (upd_clusterByNameCache (replaceCacheRecord (Cluster.name c) r)
        (upd_clusterByGroupCache (λ _, m) (clusters w)))).
  { eexists (CacheRecord.make c clusterCacheValidity (steady (ticks w))), _, _.
    split; [reflexivity|]. split_and!; try reflexivity. simpl. lia. }
  destruct Hrun as (r & m & w1 & -> & Hr & Hdb & Hfs & Htk & Hcl).
  destruct (writeClusterConfigToDisk_run c w1) as (path & f' & Hw & Hd' & Hnew & Hpath & Hother);
    [by rewrite Hfs|].
  eexists. split; [exact Hw|].
  split; simpl; rewrite ?Hcl; [done..| | |done].
  - by exists r, path.
  - intros p s Hp. rewrite <- Hfs in Hp. rewrite Hother; [done|]. intros ->. congruence.
Qed.

(** Storing a row of a cluster, then caching the cluster, whatever the cached record was. *)
Lemma ClustersInv_write c it w w1 w2 :
  ClustersInv w → cluster_row c it → compatible_cluster (table w SLATE_clusters) c →
  table w1 SLATE_clusters = <[cluster_key c := it]> (table w SLATE_clusters) →
  (∃ m, clusters w1 = upd_clusterCache (λ _, m) (clusters w) ∧
    ∀ k, k ≠ Cluster.id c → m !! k = clusterCache (clusters w) !! k) →
  fs w1 = fs w → cluster_cached c w1 w2 → ClustersInv w2.
Proof.
  intros [Hi Hcf Hd] Hr Hc Ht (m & Hcl & Hm) Hfs [Hdb _ _ (r & path & Hrec & H1 & H2 & H3 & H4) Hf Hd'].
  rewrite Hcl in H1, H2, H3. simpl in H1, H2, H3.
  assert (Hmi : <[Cluster.id c := r]> m = <[Cluster.id c := r]> (clusterCache (clusters w))).
  { apply map_eq. intros k. rewrite !lookup_insert. case_decide; [done|]. by apply Hm. }
  rewrite Hmi in H1. split; [|intros id r'|done].
  - rewrite Hdb, Ht. by eapply clusters_inv_write.
  - rewrite H1, H3, !lookup_insert. case_decide.
    + intros [= <-]. exists path. by rewrite Hrec.
    + intros Hr'. destruct (Hcf _ _ Hr') as (p & ? & ?). exists p. split; [done|].
      apply Hf. by rewrite Hfs.
Qed.

(** Caching a stored cluster. *)
Lemma ClustersInv_cache c w w' :
  ClustersInv w → is_cluster w c → cluster_cached c w w' → ClustersInv w'.
Proof.
  intros Hi Hc Hcc. pose proof Hc as (it & Hit & Hr).
  eapply (ClustersInv_write c it w w); try done.
  - eapply stored_cluster_compatible; [apply Hi|done].
  - by rewrite insert_id.
  - exists (clusterCache (clusters w)). by destruct (clusters w).
Qed.

Lemma wp_cache_cluster {B} c (k : unit → Store B) Q w :
  ClustersInv w → is_cluster w c →
  (∀ w', ClustersInv w' → cluster_cached c w w' → wp (k tt) Q w') →
  wp (cache_cluster c ≫= k) Q w.
Proof.
  intros Hi Hc Hk. destruct (cache_cluster_run c w) as (w' & Hw & Hcc); [apply Hi|].
  eapply wp_run; [exact Hw|]. apply Hk; [by eapply ClustersInv_cache|done].
Qed.

Lemma cluster_cached_main c w w' :
  cluster_cached c w w' → is_Some (clusterCache (clusters w') !! Cluster.id c).
Proof. intros [_ _ _ (r & path & _ & -> & _) _ _]. rewrite lookup_insert_eq. eauto. Qed.

(** ** Lookups *)

(** The outcome of a lookup by [key]: a stored cluster with that key, which is then
    cached, or the invalid cluster when - the service being available - no stored cluster
    has it. *)
Definition cluster_lookup_post (proj : Cluster.t → string) (key : string) (w : World)
    (r : Res Cluster.t) (w' : World) : Prop :=
  ClustersInv w' ∧ read_only w w' ∧
  match r with
  | Ok c => (Cluster.valid c = true ∧ proj c = key ∧ is_cluster w c ∧
              is_Some (clusterCache (clusters w') !! Cluster.id c)) ∨
            (c = Cluster.none ∧ (healthy (db w) → ∀ c', is_cluster w c' → proj c' ≠ key))
  | _ => False
  end.

Lemma cluster_lookup_missing proj key w w' :
  ClustersInv w → quiet w w' → (healthy (db w) → ∀ c', is_cluster w c' → proj c' ≠ key) →
  cluster_lookup_post proj key w (Ok Cluster.none) w'.
Proof.
  intros Hi Hq Hn. split; [by eapply quiet_ClustersInv|]. split; [apply Hq|]. by right.
Qed.

(** A cluster found in one of the two caches. *)
Lemma cluster_lookup_cached proj key w w' r :
  ClustersInv w → quiet w w' → proj (CacheRecord.record r) = key →
  is_cluster w (CacheRecord.record r) →
  is_Some (clusterCache (clusters w) !! Cluster.id (CacheRecord.record r)) →
  cluster_lookup_post proj key w (Ok (CacheRecord.record r)) w'.
Proof.
  intros Hi Hq Hk Hc Hs. split; [by eapply quiet_ClustersInv|]. split; [apply Hq|]. left.
  split_and!; [by eapply stored_cluster_valid|done..|]. by rewrite (quiet_clusters _ _ Hq).
Qed.

Lemma wp_cache_cluster_and_return proj key w w' c (r : Res Cluster.t) :
  ClustersInv w → quiet w w' → r = Ok c → proj c = key → is_cluster w c →
  wp (c ← lift r; _ ← cache_cluster c; mret c) (cluster_lookup_post proj key w) w'.
Proof.
  intros Hi Hq -> Hk Hc. eapply wp_run; [reflexivity|].
  apply wp_cache_cluster; [by eapply quiet_ClustersInv| |].
  - by apply (read_only_is_cluster w w'); [apply Hq|].
  - intros w3 Hi3 Hcc. split; [done|]. split; [etrans; [apply Hq|by apply read_only_db, Hcc]|].
    left. split_and!; [by eapply stored_cluster_valid|done..|]. by eapply cluster_cached_main.
Qed.

Lemma findClusterByID_spec id w :
  ClustersInv w → wp (findClusterByID id) (cluster_lookup_post Cluster.id id w) w.
Proof.
  intros Hi. pose proof (cl_inv _ Hi) as Hci. unfold findClusterByID. apply wp_find_cached.
  { intros r w1 Hq Hr. destruct (ci_cache _ _ Hci _ _ Hr) as [<- Hst].
    apply cluster_lookup_cached; [done..|]. eauto. }
  intros w1 Hq1. apply wp_databaseQuery. intros w2 Hq2.
  assert (Hq : quiet w w2) by by etrans. clear w1 Hq1 Hq2.
  apply wp_GetItem; [intros e w3 Hq3 Hh|intros w3 Hq3].
  { apply cluster_lookup_missing; [done|by etrans|]. intros H'. by apply Hq in H'. }
  rewrite (proj1 (quiet_ro _ _ Hq)).
  destruct (table w SLATE_clusters !! (id, id)) as [it|] eqn:Hit; simpl.
  - destruct (cluster_row_at _ _ _ _ Hci Hit) as (c & Hr & <-).
    rewrite bool_decide_false.
    2: { intros ->. by eapply cluster_row_lookup with (a:="ID") in Hr. }
    eapply wp_cache_cluster_and_return; [done|by etrans| |done|by exists it].
    by apply cluster_row_found.
  - rewrite bool_decide_true by done. apply cluster_lookup_missing; [done|by etrans|].
    intros _ c' (it & Hc' & _) <-. unfold cluster_key in Hc'. congruence.
Qed.

Lemma findClusterByName_spec name w :
  ClustersInv w → wp (findClusterByName name) (cluster_lookup_post Cluster.name name w) w.
Proof.
  intros Hi. pose proof (cl_inv _ Hi) as Hci. unfold findClusterByName. apply wp_find_cached.
  { intros r w1 Hq Hr. destruct (ci_byname _ _ Hci _ _ Hr) as [<- Hst].
    apply cluster_lookup_cached; [done..|]. by eapply ci_sync. }
  intros w1 Hq1. apply wp_databaseQuery. intros w2 Hq2.
  assert (Hq : quiet w w2) by by etrans. clear w1 Hq1 Hq2.
  apply wp_Query; [intros e w3 Hq3 Hh|intros l w3 Hq3 Hl].
  { apply cluster_lookup_missing; [done|by etrans|]. intros H'. by apply Hq in H'. }
  rewrite (proj1 (quiet_ro _ _ Hq)) in Hl.
  eapply (unique_query cluster_row cluster_key Cluster.name SLATE_clusters)
    in Hl as [[-> Hn]|(c & it & e & -> & Hit & Hr & <- & He)]; [| |reflexivity|done| | |].
  - apply cluster_lookup_missing; [done|by etrans|]. intros _ c (it & Hit & Hr). by eapply Hn.
  - eapply wp_cache_cluster_and_return; [done|by etrans| |done|by exists it].
    by eapply cluster_row_name_entry.
  - intros k it Hit Hs. eapply (cluster_row_of_attr _ _ _ _ "name"); [done..|compute_done|done].
  - intros c it Hr. by eapply cluster_row_lookup.
  - intros c1 c2 it1 it2 H1 R1 H2 R2 Hp. unfold cluster_key.
    rewrite (ci_names _ _ Hci c1 c2); [done|by exists it1|by exists it2|done].
Qed.

Lemma getCluster_spec idOrName w :
  ClustersInv w →
  wp (getCluster idOrName) (cluster_lookup_post
    (if begins_with idOrName clusterIDPrefix then Cluster.id else Cluster.name) idOrName w) w.
Proof.
  intros Hi. unfold getCluster.
  destruct (begins_with idOrName clusterIDPrefix);
    [by apply findClusterByID_spec|by apply findClusterByName_spec].
Qed.

(** The file [configPathForCluster] gives the path of holds the stored configuration. *)
Definition config_path_post (cID : string) (w : World) (r : Res string) (w' : World) : Prop :=
  ClustersInv w' ∧ read_only w w' ∧
  match r with
  | Ok path => ∃ c, is_cluster w c ∧ Cluster.id c = cID ∧
      file_contents (fs w') path = Some (Cluster.config c)
  | Throw e => e = cID +:+ " does not exist; cannot get config data" ∧
      (healthy (db w) → ∀ c, is_cluster w c → Cluster.id c ≠ cID)
  | OutOfFuel => False
  end.

Lemma configPathForCluster_spec cID w :
  ClustersInv w → wp (configPathForCluster cID) (config_path_post cID w) w.
Proof.
  intros Hi. unfold configPathForCluster.
  eapply wp_seq; [by apply findClusterByID_spec|..];
    [|by intros e w' (_ & _ & [])|by intros w' (_ & _ & [])].
  intros c w' (Hi' & Hro & [(Hv & <- & Hc & [r Hr])|[-> Hn]]); simpl.
  - rewrite Hv. simpl. apply wp_gets.
    destruct (cl_configs _ Hi' _ _ Hr) as (path & -> & Hpath).
    split; [done|]. split; [done|]. exists c. split_and!; [done..|]. etrans; [exact Hpath|].
    destruct (ci_cache _ _ (cl_inv _ Hi') _ _ Hr) as [Hid Hst]. do 2 f_equal.
    eapply stored_cluster_inj; [exact Hst| |done].
    by apply (read_only_is_cluster w w').
  - split_and!; done.
Qed.
(** ** Writing *)

(** What a write of the cluster [c] does: its row alone changes, and it is that of [c]. *)
Definition cluster_write_post (c : Cluster.t) (w : World) (r : Res bool) (w' : World) : Prop :=
  ClustersInv w' ∧ (healthy (db w) → healthy (db w')) ∧
  (∀ t, t ≠ SLATE_clusters → table w' t = table w t) ∧
  match r with
  | Ok true => is_cluster w' c ∧ (∀ k, k ≠ cluster_key c →
      table w' SLATE_clusters !! k = table w SLATE_clusters !! k) ∧
      is_Some (clusterCache (clusters w') !! Cluster.id c)
  | Ok false => ¬ healthy (db w) ∧ table w' SLATE_clusters = table w SLATE_clusters
  | _ => False
  end.

Lemma cluster_write_refused c w w' :
  ClustersInv w → quiet w w' → ¬ healthy (db w) → cluster_write_post c w (Ok false) w'.
Proof.
  intros Hi Hq Hh. destruct (quiet_ro _ _ Hq) as [Ht Hh'].
  split; [by eapply quiet_ClustersInv|]. split; [auto|]. by split.
Qed.

Lemma cluster_write_accepted c it w w1 :
  ClustersInv w → cluster_row c it → compatible_cluster (table w SLATE_clusters) c →
  same_caches w w1 → (healthy (db w) → healthy (db w1)) →
  table_set SLATE_clusters (<[cluster_key c := it]> (table w SLATE_clusters)) w w1 →
  wp (_ ← cache_cluster c; mret true) (cluster_write_post c w) w1.
Proof.
  intros Hi Hr Hc Hq Hh Ht. pose proof (table_set_same _ _ _ _ Ht) as Htc.
  pose proof (quiet_clusters _ _ Hq : clusters w1 = clusters w) as Hcl.
  pose proof (quiet_fs _ _ Hq : fs w1 = fs w) as Hfs.
  destruct (cache_cluster_run c w1) as (w2 & Hw & Hcc); [rewrite Hfs; apply Hi|].
  eapply wp_run; [exact Hw|]. pose proof (cc_db _ _ _ Hcc) as Hdb. split.
  { eapply (ClustersInv_write c it w w1); try done.
    exists (clusterCache (clusters w)). rewrite Hcl. by destruct (clusters w). }
  simpl. rewrite Hdb. split; [done|]. split; [intros; by eapply table_set_other|].
  unfold is_cluster. rewrite Hdb, Htc. split; [|split].
  - apply stored_cluster_insert; auto.
  - intros k Hk. by rewrite lookup_insert_ne.
  - by eapply cluster_cached_main.
Qed.

Lemma cluster_row_key c it :
  cluster_row c it → item_key SLATE_clusters it = Some (cluster_key c).
Proof. intros Hr. by apply item_key_eq; eapply cluster_row_lookup. Qed.

Lemma addCluster_spec c w :
  ClustersInv w → compatible_cluster (table w SLATE_clusters) c →
  wp (addCluster c) (cluster_write_post c w) w.
Proof.
  intros Hi Hc.
  assert (Hr : cluster_row c (cluster_item c)) by (split_and!; [apply Hc|done|done|apply Hc]).
  unfold addCluster. eapply wp_PutItem; [by apply cluster_row_key|..].
  - intros e w' Hq Hh. by apply cluster_write_refused.
  - intros w' Hq Hh Ht. by eapply cluster_write_accepted.
Qed.

(** The row [updateCluster] produces, from the old row or from nothing. *)
Lemma cluster_row_update c tbl cc :
  clusters_inv cc tbl → Cluster.valid c = true →
  wf_credential (Cluster.monitoringCredential c) →
  cluster_row c (key_item SLATE_clusters (cluster_key c) ∪ cluster_updates c ∪
    default ∅ (tbl !! cluster_key c)).
Proof.
  intros Hi Hv Hw. split; [done|]. split; [|split; [|done]].
  - apply map_subseteq_spec. intros a v Ha. apply lookup_union_Some_l. unfold cluster_item in Ha.
    rewrite !lookup_insert in Ha. rewrite lookup_singleton in Ha.
    repeat (case_decide; [subst a; injection Ha as <-; reflexivity|]). done.
  - rewrite lookup_union_r; [|reflexivity].
    destruct (tbl !! cluster_key c) as [it|] eqn:Hit; simpl; [|by rewrite lookup_empty].
    destruct (cluster_row_at _ _ _ _ Hi Hit) as (c' & Hr & _). apply Hr.
Qed.

Lemma updateCluster_spec c w :
  ClustersInv w → compatible_cluster (table w SLATE_clusters) c →
  wp (updateCluster c) (cluster_write_post c w) w.
Proof.
  intros Hi Hc. unfold updateCluster. apply wp_UpdateItem.
  - intros e w' Hq Hh. apply cluster_write_refused; [done..|]. intros Hd.
    destruct (Hh Hd) as (? & [=] & _).
  - intros w' Hq Hh _ Ht. eapply cluster_write_accepted; try done.
    eapply cluster_row_update; [apply Hi|apply Hc..].
Qed.

(** ** Listing *)

#[global] Instance cluster_listing :
  ListingLaws (λ w, clusterCacheExpirationTime (clusters w)) (λ w, clusterCache (clusters w))
    SLATE_clusters (EAnd (ENotExists "groupID") (EExists "name")) list_cluster
    (λ _ time, modify (upd_clusters (upd_clusterCacheExpirationTime (λ _, time))))
    ClustersInv is_cluster cluster_row Cluster.id (λ x, x) Cluster.none.
Proof.
  split.
  - intros *. apply quiet_ClustersInv.
  - unfold is_cluster. by intros w w' x ->.
  - intros w w' Hq. by rewrite (quiet_clusters _ _ Hq).
  - intros w w' Hq. by rewrite (quiet_clusters _ _ Hq).
  - intros w k r Hi Hr. destruct (ci_cache _ _ (cl_inv _ Hi) _ _ Hr). auto.
  - done.
  - done.
  - intros w x Hi Hx. by apply (ci_nonempty _ _ (cl_inv _ Hi)).
  - intros w x y. apply stored_cluster_inj.
  - intros w x Hi (it & Hit & Hr). exists it. split; [done|].
    apply elem_of_scan_items. eexists. split; [done|]. simpl.
    apply andb_true_iff. rewrite !bool_decide_eq_true. split; [apply Hr|].
    eexists. by eapply cluster_row_lookup.
  - apply cluster_row_inj.
  - intros w it Hi [k [Hk Hf]]%elem_of_scan_items. simpl in Hf.
    apply andb_true_iff in Hf as [_ Hf]. apply bool_decide_eq_true in Hf.
    destruct (cluster_row_of_attr _ _ _ _ "name" (cl_inv _ Hi) Hk) as (c & Hr & ->);
      [compute_done|done|].
    assert (Hc : is_cluster w c) by by exists it.
    eapply wp_run.
    { unfold lift. by rewrite (cluster_row_listed _ _ Hr). }
    apply wp_cache_cluster; [done..|]. intros w' Hi' Hcc. exists c.
    split_and!; [done..|apply Hcc|apply Hcc|apply Hcc|by eapply cluster_cached_main|].
    destruct (cc_records _ _ _ Hcc) as (r & p & _ & Hm & _). intros k Hs. simpl in *.
    rewrite Hm, lookup_insert. by case_decide.
  - intros w l time [[] ? ?]. split_and!; try done.
Qed.

Definition ClustersListed : World → Prop :=
  listed (expiration := λ w, clusterCacheExpirationTime (clusters w))
    (cache := λ w, clusterCache (clusters w)) (stored := is_cluster) (id := Cluster.id).

Definition listClusters_post (w : World) (r : Res (list Cluster.t)) (w' : World) : Prop :=
  ClustersInv w' ∧ ClustersListed w' ∧ read_only w w' ∧
  ∃ l, r = Ok l ∧ (∀ c, c ∈ l → c = Cluster.none ∨ is_cluster w c) ∧
    (healthy (db w) → ∀ c, is_cluster w c → c ∈ l).

Lemma listClusters_spec `{!ClockLaws} fuel w :
  ClustersInv w → ClustersListed w →
  pages_left (db w) SLATE_clusters (EAnd (ENotExists "groupID") (EExists "name")) None < fuel →
  wp (listClusters fuel) (listClusters_post w) w.
Proof. intros. eapply wp_mono, list_all_spec; [|done..]. intros r w'. by apply list_post_exact. Qed.

(** The IDs of the clusters a group owns. *)
Definition clusters_owned_post (groupID : string) (w : World) (r : Res (list string))
    (w' : World) : Prop :=
  ClustersInv w' ∧ read_only w w' ∧ ∃ l, r = Ok l ∧
    (∀ id, id ∈ l → ∃ c, is_cluster w c ∧ Cluster.owningGroup c = groupID ∧ Cluster.id c = id) ∧
    (healthy (db w) → ∀ c, is_cluster w c → Cluster.owningGroup c = groupID → Cluster.id c ∈ l).

Lemma clustersOwnedByGroup_spec groupID w :
  ClustersInv w → wp (clustersOwnedByGroup groupID) (clusters_owned_post groupID w) w.
Proof.
  intros Hi. pose proof (cl_inv _ Hi) as Hci. unfold clustersOwnedByGroup.
  apply wp_databaseQuery. intros w1 Hq. apply wp_Query; [intros e w2 Hq2 Hh|intros l w2 Hq2 Hl].
  { assert (Hq' : quiet w w2) by by etrans. split; [by eapply quiet_ClustersInv|].
    split; [apply Hq'|]. exists []. split; [done|]. split; [by intros ? ?%not_elem_of_nil|].
    intros Hd. by apply Hq in Hd. }
  assert (Hq' : quiet w w2) by by etrans. rewrite (proj1 (quiet_ro _ _ Hq)) in Hl.
  assert (He := index_query cluster_row cluster_key Cluster.owningGroup SLATE_clusters "ByGroup"
    cluster_ByGroup _ _ _ _ _ eq_refl eq_refl
    (λ k it Hit Hs, cluster_row_of_attr _ _ _ _ "owningGroup" Hci Hit ltac:(compute_done) Hs)
    (λ c it Hr, cluster_row_lookup c it "owningGroup" _ Hr eq_refl) Hl). clear Hl.
  assert (Hid : ∀ e, e ∈ l → ∃ c, is_cluster w c ∧ Cluster.owningGroup c = groupID ∧
    e !! "ID" = Some (AVS (Cluster.id c))).
  { intros e (c & it & Hit & Hr & Hg & Hen & _)%He. exists c. split_and!; [by exists it|done|].
    rewrite (index_entry_lookup_eq SLATE_clusters "ByGroup" cluster_ByGroup it e) by
      (done || compute_done). by eapply cluster_row_lookup. }
  eapply wp_mono; [|apply (for_collect_spec (λ done w', w' = w2 ∧
    ∀ p, p ∈ done → p.1 !! "ID" = Some (AVS p.2)) _ _ []);
    [split; [done|by intros ? ?%not_elem_of_nil]|]].
  - intros r w' (done & -> & Hl & -> & Hd). split; [by eapply quiet_ClustersInv|].
    split; [apply Hq'|]. eexists. split; [done|]. split.
    + intros id ([e id'] & -> & Hp)%list_elem_of_fmap. pose proof (Hd _ Hp) as He1. simpl in *.
      destruct (Hid e) as (c & Hc & Hg & He2).
      { rewrite <- Hl. apply list_elem_of_fmap. by exists (e, id'). }
      exists c. split_and!; [done..|]. apply AVS_inj. congruence.
    + intros _ c Hc Hg. pose proof Hc as (it & Hit & Hr).
      destruct (proj1 (index_entry_is_some SLATE_clusters "ByGroup" _ it eq_refl)) as [e Hen].
      { eexists. by eapply cluster_row_lookup. }
      assert (Hel : e ∈ l) by (apply He; exists c, it; done).
      rewrite <- Hl in Hel. apply list_elem_of_fmap in Hel as ([e' id] & -> & Hp).
      apply list_elem_of_fmap. exists (e', id). split; [|done]. pose proof (Hd _ Hp) as He1.
      simpl in *. rewrite (index_entry_lookup_eq SLATE_clusters "ByGroup" cluster_ByGroup it e')
        in He1 by (done || compute_done).
      rewrite (cluster_row_lookup _ _ "ID" _ Hr eq_refl) in He1. apply AVS_inj. congruence.
  - intros e w' acc Hel [-> Hd]. destruct (Hid _ Hel) as (c & _ & _ & He1).
    exists (Cluster.id c). split; [|split; [done|]].
    + unfold find_deref, findOrThrow, mbind, Res_bind. rewrite He1. simpl. by rewrite GetS_AVS.
    + intros p [Hp| ->%list_elem_of_singleton]%elem_of_app; auto.
Qed.
(** ** Monitoring credentials *)

Definition with_credential (c : Cluster.t) (cred : S3Credential.t) : Cluster.t :=
  Cluster.mk (Cluster.valid c) (Cluster.id c) (Cluster.name c) (Cluster.config c)
    (Cluster.systemNamespace c) (Cluster.owningGroup c) (Cluster.owningOrganization c) cred.

Lemma serialize_none_iff cred :
  wf_credential cred →
  S3Credential.serialize cred = S3Credential.serialize S3Credential.none ↔
  cred = S3Credential.none.
Proof. intros Hw. split; [|by intros ->]. intros Heq. by rewrite <- Hw, Heq. Qed.

Lemma with_credential_compatible w c cred :
  ClustersInv w → is_cluster w c → wf_credential cred →
  compatible_cluster (table w SLATE_clusters) (with_credential c cred).
Proof.
  intros Hi Hc Hw. destruct (stored_cluster_compatible _ _ _ (cl_inv _ Hi) Hc) as (H1 & H2 & _ & H4).
  by split_and!.
Qed.

Lemma with_credential_row c it cred :
  cluster_row c it → wf_credential cred →
  cluster_row (with_credential c cred) (key_item SLATE_clusters (cluster_key c) ∪
    {["monCredential" := AVS (S3Credential.serialize cred)]} ∪ it).
Proof.
  intros Hr Hw. split; [apply Hr|]. split; [|split; [|done]].
  - apply map_subseteq_spec. intros a v Ha. unfold cluster_item in Ha.
    rewrite !lookup_insert in Ha. rewrite lookup_singleton in Ha.
    repeat (case_decide; [subst a; injection Ha as <-;
      first [apply lookup_union_Some_l; reflexivity
            |rewrite lookup_union_r by reflexivity; by eapply cluster_row_lookup]|]). done.
  - rewrite lookup_union_r by reflexivity. apply Hr.
Qed.

(** Reloading a cluster whose row has just been written by a service that still answers. *)
Lemma reload_cluster_spec c it w w1 :
  ClustersInv w → cluster_row c it → compatible_cluster (table w SLATE_clusters) c →
  same_caches w w1 → healthy (db w1) →
  table_set SLATE_clusters (<[cluster_key c := it]> (table w SLATE_clusters)) w w1 →
  wp (_ ← reload_cluster (Cluster.id c); mret true)
    (λ r w', r = Ok true ∧ cluster_write_post c w r w') w1.
Proof.
  intros Hi Hr Hc Hq Hh Ht. pose proof (table_set_same _ _ _ _ Ht) as Htc.
  pose proof (quiet_clusters _ _ Hq : clusters w1 = clusters w) as Hcl.
  pose proof (quiet_fs _ _ Hq : fs w1 = fs w) as Hfs. simpl in Hcl, Hfs.
  unfold reload_cluster. apply wp_bind, wp_modify.
  set (w2 := upd_clusters (upd_clusterCache (delete (Cluster.id c))) w1).
  assert (Hro2 : read_only w1 w2) by by apply read_only_db.
  unfold findClusterByID. apply wp_bind. apply wp_find_cached.
  { intros r w3 _ Hr3. simpl in Hr3. by rewrite lookup_delete_eq in Hr3. }
  intros w3 Hq3. apply wp_databaseQuery. intros w4 Hq4.
  assert (Hq24 : quiet w2 w4) by by etrans. clear w3 Hq3 Hq4.
  apply wp_GetItem; [intros e w5 Hq5 Hd; destruct Hd; by apply (quiet_ro _ _ Hq24)|intros w5 Hq5].
  rewrite (proj1 (quiet_ro _ _ Hq24)). change (Cluster.id c, Cluster.id c) with (cluster_key c).
  change (table w2 SLATE_clusters) with (table w1 SLATE_clusters). rewrite Htc, lookup_insert_eq.
  simpl default.
  rewrite bool_decide_false.
  2: { intros ->. by eapply cluster_row_lookup with (a:="ID") in Hr. }
  assert (Hq25 : quiet w2 w5) by by etrans. clear w4 Hq24 Hq5.
  eapply wp_run.
  { unfold lift. by rewrite (cluster_row_found _ _ Hr). }
  assert (Hfs5 : fs w5 = fs w) by (rewrite (quiet_fs _ _ Hq25); exact Hfs).
  destruct (cache_cluster_run c w5) as (w6 & Hw & Hcc); [rewrite Hfs5; apply Hi|].
  eapply wp_run; [exact Hw|]. do 2 apply wp_ret. split; [done|].
  pose proof (cc_db _ _ _ Hcc) as Hdb.
  assert (Hro5 : ∀ t, table w5 t = table w1 t).
  { intros t. by rewrite (proj1 (quiet_ro _ _ Hq25)). }
  split.
  { eapply (ClustersInv_write c it w w5); try done; [by rewrite Hro5|].
    exists (delete (Cluster.id c) (clusterCache (clusters w))). split.
    - rewrite (quiet_clusters _ _ Hq25). simpl. rewrite Hcl. by destruct (clusters w).
    - intros k Hk. by rewrite lookup_delete_ne. }
  simpl. rewrite Hdb. split; [intros _; by apply (quiet_ro _ _ Hq25)|].
  split; [intros t Hne; rewrite Hro5; by eapply table_set_other|].
  unfold is_cluster. rewrite Hdb, Hro5, Htc. split; [|split].
  - apply stored_cluster_insert; auto.
  - intros k Hk. by rewrite lookup_insert_ne.
  - by eapply cluster_cached_main.
Qed.

(** Setting the credential is a compare-and-set: it succeeds exactly when the cluster has
    none. *)
Definition set_credential_post (c : Cluster.t) (cred : S3Credential.t) (w : World)
    (r : Res bool) (w' : World) : Prop :=
  ClustersInv w' ∧ healthy (db w') ∧
  if decide (Cluster.monitoringCredential c = S3Credential.none)
  then r = Ok true ∧ cluster_write_post (with_credential c cred) w r w'
  else r = Ok false ∧ read_only w w'.

Lemma setClusterMonitoringCredential_spec c cred w :
  ClustersInv w → healthy (db w) → is_cluster w c → wf_credential cred →
  wp (setClusterMonitoringCredential (Cluster.id c) cred) (set_credential_post c cred w) w.
Proof.
  intros Hi Hh Hc Hw. pose proof Hc as (it & Hit & Hr). unfold cluster_key in Hit.
  assert (Heval : eval (EOr (ENotExists "monCredential") (EEq "monCredential" nocred)) it = true
    ↔ Cluster.monitoringCredential c = S3Credential.none).
  { rewrite <- serialize_none_iff by apply Hr. simpl.
    rewrite (cluster_row_lookup _ _ "monCredential" _ Hr eq_refl).
    rewrite orb_true_iff, !bool_decide_eq_true. split.
    - intros [?|[= He]]; [done|]. by apply AVS_inj.
    - intros Heq. right. by rewrite Heq. }
  unfold setClusterMonitoringCredential, set_credential_post. apply wp_UpdateItem.
  - intros e w' Hq Hf. destruct (Hf Hh) as (e' & [= <-] & He). rewrite Hit in He. simpl default in He.
    apply wp_ret. rewrite decide_False by (rewrite <- Heval, He; done).
    split; [by eapply quiet_ClustersInv|]. split; [by apply Hq|]. by split; [|apply Hq].
  - intros w' Hq Hh' Hcond Ht. rewrite Hit in *. simpl default in *.
    assert (Hnone : Cluster.monitoringCredential c = S3Credential.none) by by apply Heval, Hcond.
    eapply wp_mono; [|apply (reload_cluster_spec (with_credential c cred) _ w w'
      Hi (with_credential_row c it cred Hr Hw) (with_credential_compatible w c cred Hi Hc Hw)
      Hq (Hh' Hh) Ht)].
    intros r w2 (-> & Hp). rewrite decide_True by done. split; [apply Hp|]. split; [by apply Hp|done].
Qed.

Lemma removeClusterMonitoringCredential_spec c w :
  ClustersInv w → healthy (db w) → is_cluster w c →
  wp (removeClusterMonitoringCredential (Cluster.id c))
    (λ r w', r = Ok true ∧ cluster_write_post (with_credential c S3Credential.none) w r w') w.
Proof.
  intros Hi Hh Hc. pose proof Hc as (it & Hit & Hr). unfold cluster_key in Hit.
  unfold removeClusterMonitoringCredential. apply wp_UpdateItem.
  - intros e w' Hq Hf. destruct (Hf Hh) as (e' & [= <-] & He). rewrite Hit in He. simpl in He.
    by rewrite (cluster_row_lookup _ _ "monCredential" _ Hr eq_refl) in He.
  - intros w' Hq Hh' _ Ht. rewrite Hit in *. simpl default in *.
    exact (reload_cluster_spec (with_credential c S3Credential.none) _ w w'
      Hi (with_credential_row c it _ Hr eq_refl) (with_credential_compatible w c _ Hi Hc eq_refl)
      Hq (Hh' Hh) Ht).
Qed.

(** A cluster that does not exist: the update creates a row which is not a cluster's, and
    the reload throws. *)
Lemma setClusterMonitoringCredential_missing_spec cID cred w :
  healthy (db w) → table w SLATE_clusters !! (cID, cID) = None →
  wp (setClusterMonitoringCredential cID cred) (λ r w',
    r = Throw "Cluster record missing name attribute" ∧
    table w' SLATE_clusters !! (cID, cID) = Some (key_item SLATE_clusters (cID, cID) ∪
      {["monCredential" := AVS (S3Credential.serialize cred)]}) ∧ ¬ ClustersInv w') w.
Proof.
  intros Hh Hn. unfold setClusterMonitoringCredential. apply wp_UpdateItem.
  { intros e w' Hq Hf. destruct (Hf Hh) as (e' & [= <-] & He). by rewrite Hn in He. }
  intros w1 Hq Hh1 _ Ht. rewrite Hn in Ht. simpl default in Ht. rewrite (right_id_L ∅ (∪)) in Ht.
  apply table_set_same in Ht. specialize (Hh1 Hh).
  unfold reload_cluster. apply wp_bind, wp_modify.
  set (w2 := upd_clusters (upd_clusterCache (delete cID)) w1).
  unfold findClusterByID. apply wp_bind. apply wp_find_cached.
  { intros r w3 _ Hr3. simpl in Hr3. by rewrite lookup_delete_eq in Hr3. }
  intros w3 Hq3. apply wp_databaseQuery. intros w4 Hq4.
  assert (Hq24 : quiet w2 w4) by by etrans. clear w3 Hq3 Hq4.
  apply wp_GetItem; [intros e w5 Hq5 Hd; destruct Hd; by apply (quiet_ro _ _ Hq24)|intros w5 Hq5].
  assert (Ht5 : table w5 SLATE_clusters = table w1 SLATE_clusters).
  { rewrite (proj1 (quiet_ro _ _ Hq5)). by rewrite (proj1 (quiet_ro _ _ Hq24)). }
  rewrite (proj1 (quiet_ro _ _ Hq24)).
  change (table w2 SLATE_clusters) with (table w1 SLATE_clusters). rewrite Ht, lookup_insert_eq.
  simpl default. rewrite bool_decide_false by (intros He; by apply (f_equal (lookup "ID")) in He).
  apply wp_bind. unfold wp, lift. simpl. split; [done|]. split; [by rewrite Ht5, Ht, lookup_insert_eq|].
  intros Hi. destruct (cluster_row_at (clusters w5) (table w5 SLATE_clusters) cID
    (key_item SLATE_clusters (cID, cID) ∪ {["monCredential" := AVS (S3Credential.serialize cred)]}))
    as (c & Hr & _); [apply Hi|by rewrite Ht5, Ht, lookup_insert_eq|].
  by pose proof (cluster_row_lookup _ _ "name" _ Hr eq_refl).
Qed.
End cluster_operations.

(** * Locations *)

Section cluster_locations.
Context `{D : Dynamo} `{P : Platform} `{L : !DynamoLaws}.

Lemma normalizeClusterID_id c :
  begins_with c clusterIDPrefix = true → normalizeClusterID c = mret (Some c).
Proof. unfold normalizeClusterID. by intros ->. Qed.

Definition locations_key (cID : string) : string * string := (cID, cID +:+ ":Locations").

(** The locations a row stands for. *)
Definition locations_of_row (row : option Item) : list GeoLocation.t :=
  match row with
  | Some it => match it !! "locations" with
               | Some v => omap GeoLocation.read (GetSS v)
               | None => []
               end
  | None => []
  end.

Definition locations (w : World) (cID : string) : list GeoLocation.t :=
  locations_of_row (table w SLATE_clusters !! locations_key cID).

Record LocationsInv (w : World) : Prop := {
  lo_rows : ∀ c it, table w SLATE_clusters !! locations_key c = Some it →
    ∃ v, it !! "locations" = Some v ∧ ∀ s, s ∈ GetSS v → is_Some (GeoLocation.read s);
  lo_cache : ∀ c r, clusterLocationCache (clusters w) !! c = Some r →
    CacheRecord.record r ≡ₚ locations w c }.

Lemma quiet_locations w w' c : quiet w w' → locations w' c = locations w c.
Proof. intros Hq. unfold locations. by rewrite (proj1 (quiet_ro _ _ Hq)). Qed.

Lemma quiet_LocationsInv w w' : quiet w w' → LocationsInv w → LocationsInv w'.
Proof.
  intros Hq [H1 H2]. split.
  - rewrite (proj1 (quiet_ro _ _ Hq)). exact H1.
  - intros c r. rewrite (quiet_clusters _ _ Hq), (quiet_locations _ _ _ Hq). apply H2.
Qed.

(** The end of both operations: the list goes to the cache. *)
Lemma wp_cache_locations {B} c l (k : unit → Store B) Q w w0 :
  LocationsInv w0 →
  (∀ cc it, table w SLATE_clusters !! locations_key cc = Some it →
    ∃ v, it !! "locations" = Some v ∧ ∀ s, s ∈ GetSS v → is_Some (GeoLocation.read s)) →
  clusters w = clusters w0 → l ≡ₚ locations w c →
  (∀ c', c' ≠ c → locations w c' = locations w0 c') →
  (∀ w', LocationsInv w' → db w' = db w → wp (k tt) Q w') →
  wp (record ← make_record l clusterCacheValidity;
      _ ← modify (upd_clusters (upd_clusterLocationCache (replaceCacheRecord c record)));
      k tt) Q w.
Proof.
  intros Hi Hrows Hcl Hl Hsame Hk. eapply wp_run; [reflexivity|].
  eapply (wp_run _ (λ _, k tt)); [reflexivity|]. apply Hk; [|done]. split; [exact Hrows|].
  simpl. intros c' r'. rewrite Hcl. unfold replaceCacheRecord. rewrite lookup_insert. case_decide.
  - intros [= <-]. subst c'. exact Hl.
  - intros Hr'. etrans; [by apply (lo_cache _ Hi)|]. by rewrite <- Hsame.
Qed.

Lemma parse_locations_run c l (w : World) :
  (∀ s, s ∈ l → is_Some (GeoLocation.read s)) →
  for_collect l (λ s, lift (parse_location c s)) w = (Ok (omap GeoLocation.read l), w).
Proof.
  induction l as [|s l IH]; intros Hl; [done|].
  destruct (Hl s) as [g Hg]; [by left|]. cbn [for_collect]. unfold mbind, M_bind.
  assert (Hs : lift (parse_location c s) w = (Ok g, w)).
  { unfold lift, parse_location. by rewrite Hg. }
  rewrite Hs, IH; [csimpl; by rewrite Hg|]. intros. apply Hl. by right.
Qed.

Definition get_locations_post (c : string) (w : World) (r : Res (list GeoLocation.t))
    (w' : World) : Prop :=
  LocationsInv w' ∧ read_only w w' ∧
  ∃ l, r = Ok l ∧ (l ≡ₚ locations w c ∨ (l = [] ∧ ¬ healthy (db w))).

Lemma getLocationsForCluster_spec c w :
  LocationsInv w → begins_with c clusterIDPrefix = true →
  wp (getLocationsForCluster c) (get_locations_post c w) w.
Proof.
  intros Hi Hp. unfold getLocationsForCluster. rewrite normalizeClusterID_id by done.
  eapply wp_run; [reflexivity|]. apply wp_find_cached.
  { intros r w1 Hq Hr. split; [by eapply quiet_LocationsInv|]. split; [apply Hq|].
    eexists. split; [done|]. left. by apply (lo_cache _ Hi). }
  intros w1 Hq1. apply wp_databaseQuery. intros w2 Hq2.
  assert (Hq : quiet w w2) by by etrans. clear w1 Hq1 Hq2.
  apply wp_GetItem; [intros e w3 Hq3 Hh|intros w3 Hq3].
  { assert (Hq' : quiet w w3) by by etrans. split; [by eapply quiet_LocationsInv|].
    split; [apply Hq'|]. exists []. split; [done|]. right. split; [done|].
    intros H'. by apply Hq in H'. }
  rewrite (proj1 (quiet_ro _ _ Hq)). assert (Hq' : quiet w w3) by by etrans. clear w2 Hq Hq3.
  change (c, c +:+ ":Locations") with (locations_key c).
  eapply (wp_run _ _ _ _ (locations w c) w3).
  { unfold locations. destruct (table w SLATE_clusters !! locations_key c) as [it|] eqn:Hit; simpl.
    - destruct (lo_rows _ Hi _ _ Hit) as (v & Hv & Hs). rewrite Hv.
      rewrite bool_decide_false by (intros ->; by rewrite lookup_empty in Hv).
      unfold findOrThrow. rewrite Hv. by rewrite <- (parse_locations_run c) by done.
    - by rewrite bool_decide_true by done. }
  apply (wp_cache_locations c _ (λ _, mret (locations w c)) _ w3 w3);
    [by eapply quiet_LocationsInv|by apply (quiet_LocationsInv w w3)|done|
     by rewrite (quiet_locations _ _ _ Hq')|done|].
  intros w4 Hi4 Hdb. split; [done|]. split; [etrans; [apply Hq'|by apply read_only_db]|].
  eexists. split; [done|]. by left.
Qed.

(** What [setLocationsForCluster] is given: at least one location, without duplicates,
    each with a stored form that reads back. *)
Definition proper_locations (l : list GeoLocation.t) : Prop :=
  l ≠ [] ∧ NoDup (GeoLocation.show <$> l) ∧
  ∀ g, g ∈ l → GeoLocation.read (GeoLocation.show g) = Some g.

Lemma read_show_list (l : list GeoLocation.t) :
  (∀ g, g ∈ l → GeoLocation.read (GeoLocation.show g) = Some g) →
  omap GeoLocation.read (GeoLocation.show <$> l) = l.
Proof.
  induction l as [|g l IH]; intros Hl; csimpl; [done|]. rewrite Hl by by left. f_equal.
  apply IH. intros. apply Hl. by right.
Qed.

Definition set_locations_post (c : string) (l : list GeoLocation.t) (w : World) (r : Res bool)
    (w' : World) : Prop :=
  LocationsInv w' ∧ (healthy (db w) → healthy (db w')) ∧
  (∀ t, t ≠ SLATE_clusters → table w' t = table w t) ∧
  (∀ k, k ≠ locations_key c → table w' SLATE_clusters !! k = table w SLATE_clusters !! k) ∧
  match r with
  | Ok true => locations w' c ≡ₚ l
  | Ok false => ¬ healthy (db w) ∧ locations w' c = locations w c
  | _ => False
  end.

Lemma setLocationsForCluster_spec c l w :
  LocationsInv w → begins_with c clusterIDPrefix = true → proper_locations l →
  wp (setLocationsForCluster c l) (set_locations_post c l w) w.
Proof.
  intros Hi Hp (Hne & Hnd & Hread). unfold setLocationsForCluster.
  rewrite normalizeClusterID_id by done. eapply wp_run; [reflexivity|].
  eapply (wp_PutItem _ _ (locations_key c)); [by apply item_key_eq|..].
  - intros e w' Hq Hh. split; [by eapply quiet_LocationsInv|]. split; [apply Hq|].
    destruct (quiet_ro _ _ Hq) as [Ht _]. split; [done|]. split; [by rewrite Ht|].
    split; [done|]. by apply quiet_locations.
  - intros w' Hq Hh Ht. pose proof (table_set_same _ _ _ _ Ht) as Htc.
    assert (Hss : GetSS (AVSS (GeoLocation.show <$> l)) ≡ₚ GeoLocation.show <$> l) by by apply GetSS_AVSS.
    assert (Hloc : locations w' c ≡ₚ l).
    { unfold locations. rewrite Htc, lookup_insert_eq.
      change (omap GeoLocation.read (GetSS (AVSS (GeoLocation.show <$> l))) ≡ₚ l). rewrite Hss.
      by rewrite read_show_list. }
    assert (Hother : ∀ k, k ≠ locations_key c →
      table w' SLATE_clusters !! k = table w SLATE_clusters !! k).
    { intros k Hk. by rewrite Htc, lookup_insert_ne. }
    apply (wp_cache_locations c l (λ _, mret true) _ w' w); try done.
    + intros c' it. destruct (decide (locations_key c' = locations_key c)) as [->|Hk].
      * rewrite Htc, lookup_insert_eq. intros [= <-]. eexists. split; [reflexivity|].
        intros s. rewrite Hss. intros (g & -> & Hg)%list_elem_of_fmap. rewrite Hread; eauto.
      * rewrite Hother by done. apply Hi.
    + apply Hq.
    + intros c' Hc. unfold locations. rewrite Hother; [done|]. unfold locations_key. congruence.
    + intros w2 Hi2 Hdb. split; [done|]. simpl. rewrite Hdb. split; [done|].
      split; [intros; by eapply table_set_other|]. split; [done|].
      unfold locations in *. by rewrite Hdb.
Qed.
End cluster_locations.

(** * Properties *)

Section cluster_theorems.
Context `{D : Dynamo} `{P : Platform} `{L : !DynamoLaws} `{DL : !DiskLaws}.

(** A lookup of a cluster by ID, by name, or by either as [getCluster] decides from the
    prefix, returns the stored cluster with that key, from a cache or from the database,
    or - the service being available - the invalid cluster exactly when there is none. It
    keeps the caches and the configuration files coherent, and throws nothing. *)
Theorem cluster_lookups_correct (key : string) (w : World) :
  ClustersInv w →
  wp (findClusterByID key) (cluster_lookup_post Cluster.id key w) w ∧
  wp (findClusterByName key) (cluster_lookup_post Cluster.name key w) w ∧
  wp (getCluster key) (cluster_lookup_post
    (if begins_with key clusterIDPrefix then Cluster.id else Cluster.name) key w) w.
Proof.
  intros Hi. split; [by apply findClusterByID_spec|]. split; [by apply findClusterByName_spec|].
  by apply getCluster_spec.
Qed.

(** C36: adding or updating a cluster that keeps its name, which no other cluster has,
    changes the row of that cluster alone, to that cluster; the caches stay coherent and
    its configuration file holds its new configuration. [false] is returned only if the
    service refused the request, and then nothing has changed. *)
Theorem cluster_writes_correct (c : Cluster.t) (w : World) :
  ClustersInv w → compatible_cluster (table w SLATE_clusters) c →
  wp (addCluster c) (cluster_write_post c w) w ∧
  wp (updateCluster c) (cluster_write_post c w) w.
Proof. intros. split; [by apply addCluster_spec|by apply updateCluster_spec]. Qed.

(** The path [configPathForCluster] returns is that of a file that holds the
    configuration stored for the cluster, whatever came before; it throws only when - the
    service being available - the cluster does not exist. *)
Theorem configPathForCluster_correct (cID : string) (w : World) :
  ClustersInv w → wp (configPathForCluster cID) (config_path_post cID w) w.
Proof. apply configPathForCluster_spec. Qed.

(** Once [updateCluster] has succeeded, a lookup by ID or by name finds the new
    version of the cluster, and its configuration file holds the new configuration. *)
Theorem cluster_update_takes_effect (c : Cluster.t) (w w1 : World) :
  ClustersInv w → healthy (db w) → compatible_cluster (table w SLATE_clusters) c →
  updateCluster c w = (Ok true, w1) →
  (findClusterByID (Cluster.id c) w1).1 = Ok c ∧
  (findClusterByName (Cluster.name c) w1).1 = Ok c ∧
  ∃ path, (configPathForCluster (Cluster.id c) w1).1 = Ok path ∧
    file_contents (fs (configPathForCluster (Cluster.id c) w1).2) path = Some (Cluster.config c).
Proof.
  intros Hi Hd Hc Hup. pose proof (updateCluster_spec c w Hi Hc) as Hu. unfold wp in Hu.
  rewrite Hup in Hu. simpl in Hu. destruct Hu as (Hi1 & Hd1 & _ & H1 & _).
  split; [|split].
  - destruct (findClusterByID_spec (Cluster.id c) w1 Hi1) as (_ & _ & Hr).
    destruct (findClusterByID (Cluster.id c) w1).1 as [x| |]; [|done..].
    destruct Hr as [(_ & Ht & Hx & _)|[_ Hn]]; [|by destruct (Hn (Hd1 Hd) c)].
    f_equal. by eapply stored_cluster_inj.
  - destruct (findClusterByName_spec (Cluster.name c) w1 Hi1) as (_ & _ & Hr).
    destruct (findClusterByName (Cluster.name c) w1).1 as [x| |]; [|done..].
    destruct Hr as [(_ & Ht & Hx & _)|[_ Hn]]; [|by destruct (Hn (Hd1 Hd) c)].
    f_equal. eapply stored_cluster_inj; [done..|]. by apply (ci_names _ _ (cl_inv _ Hi1)).
  - destruct (configPathForCluster_spec (Cluster.id c) w1 Hi1) as (_ & _ & Hr).
    destruct (configPathForCluster (Cluster.id c) w1) as [[path|e|] w2]; simpl in *; [| |done].
    + destruct Hr as (x & Hx & Hid & Hp). exists path. split; [done|]. rewrite Hp.
      by rewrite (stored_cluster_inj _ _ _ Hx H1 Hid).
    + destruct Hr as [_ Hn]. by destruct (Hn (Hd1 Hd) c).
Qed.

(** Listing the clusters ends within the pages of the table and returns every cluster
    if the service is available, nothing but clusters otherwise - the access, application
    and location records of the same table are not taken for clusters; the clusters owned
    by a group are found by their IDs, all of them if the service is available. *)
Theorem listClusters_correct `{!ClockLaws} (fuel : nat) (groupID : string) (w : World) :
  ClustersInv w →
  (ClustersListed w →
   pages_left (db w) SLATE_clusters (EAnd (ENotExists "groupID") (EExists "name")) None < fuel →
   wp (listClusters fuel) (listClusters_post w) w) ∧
  wp (clustersOwnedByGroup groupID) (clusters_owned_post groupID w) w.
Proof.
  intros Hi. split; [by intros; apply listClusters_spec|by apply clustersOwnedByGroup_spec].
Qed.

(** Setting the monitoring credential of a stored cluster is a compare-and-set: with
    the service available, it succeeds exactly when the cluster has no credential, so that
    a credential in use is never overwritten; removing the credential always succeeds.
    Nothing else of the cluster changes, and the caches show the change. *)
Theorem cluster_credential_compare_and_set (c : Cluster.t) (cred : S3Credential.t) (w : World) :
  ClustersInv w → healthy (db w) → is_cluster w c → wf_credential cred →
  wp (setClusterMonitoringCredential (Cluster.id c) cred) (set_credential_post c cred w) w ∧
  wp (removeClusterMonitoringCredential (Cluster.id c)) (λ r w', r = Ok true ∧
    cluster_write_post (with_credential c S3Credential.none) w r w') w.
Proof.
  intros. split; [by apply setClusterMonitoringCredential_spec|].
  by apply removeClusterMonitoringCredential_spec.
Qed.

(** Setting the monitoring credential of a cluster that does not exist is not
    refused by the condition: it creates a row with nothing but the credential, which no
    later lookup can decode, and throws. *)
Theorem set_credential_of_missing_cluster (cID : string) (cred : S3Credential.t) (w : World) :
  healthy (db w) → table w SLATE_clusters !! (cID, cID) = None →
  wp (setClusterMonitoringCredential cID cred) (λ r w',
    r = Throw "Cluster record missing name attribute" ∧
    table w' SLATE_clusters !! (cID, cID) = Some (key_item SLATE_clusters (cID, cID) ∪
      {["monCredential" := AVS (S3Credential.serialize cred)]}) ∧ ¬ ClustersInv w') w.
Proof. apply setClusterMonitoringCredential_missing_spec. Qed.

(** The locations of a cluster. [setLocationsForCluster] changes the locations record
    of that cluster alone; [getLocationsForCluster] returns the stored locations, in an
    order the database chooses, and does not throw; in particular what was set is what is
    then returned. *)
Theorem cluster_locations_correct (cID : string) (l : list GeoLocation.t) (w : World) :
  LocationsInv w → begins_with cID clusterIDPrefix = true →
  wp (getLocationsForCluster cID) (get_locations_post cID w) w ∧
  (proper_locations l →
   wp (setLocationsForCluster cID l) (set_locations_post cID l w) w ∧
   ∀ w1, healthy (db w) → setLocationsForCluster cID l w = (Ok true, w1) →
     ∃ l', (getLocationsForCluster cID w1).1 = Ok l' ∧ l' ≡ₚ l).
Proof.
  intros Hi Hp. split; [by apply getLocationsForCluster_spec|]. intros Hl.
  pose proof (setLocationsForCluster_spec cID l w Hi Hp Hl) as Hs. split; [done|].
  intros w1 Hd Hset. unfold wp in Hs. rewrite Hset in Hs. simpl in Hs.
  destruct Hs as (Hi1 & Hd1 & _ & _ & H1).
  destruct (getLocationsForCluster_spec cID w1 Hi1 Hp) as (_ & _ & l' & -> & [Hl'|[_ Hn]]).
  - exists l'. split; [done|]. by rewrite Hl'.
  - exfalso. by apply Hn, Hd1.
Qed.
End cluster_theorems.

Section cluster_witnesses.
Import Demo.

Definition demo_cluster : Cluster.t :=
  Cluster.mk true "cluster_1" "alpha" "config_1" "slate" "group_1" "Lab" S3Credential.none.
Definition demo_cluster2 : Cluster.t :=
  Cluster.mk true "cluster_1" "alpha" "config_2" "slate" "group_1" "Lab" S3Credential.none.
Definition demo_credential : S3Credential.t := S3Credential.make "ak" "sk".

(** The server after adding a cluster, its caches empty again. *)
Definition demo_clusters : World := start (db (addCluster demo_cluster empty).2).

Lemma empty_stored_cluster c : ¬ stored_cluster (table empty SLATE_clusters) c.
Proof. intros (it & Hit & _). by rewrite empty_table, lookup_empty in Hit. Qed.

Lemma empty_ClustersInv : ClustersInv empty.
Proof.
  split; [split|..|done].
  - intros k it. by rewrite empty_table, lookup_empty.
  - intros c1 c2 Hc. by destruct (empty_stored_cluster c1).
  - intros c Hc. by destruct (empty_stored_cluster c).
  - intros k r. simpl. by rewrite lookup_empty.
  - intros k r. simpl. by rewrite lookup_empty.
  - intros k r. simpl. by rewrite lookup_empty.
  - intros k r. simpl. by rewrite lookup_empty.
Qed.

Lemma demo_cluster_compatible : compatible_cluster (table empty SLATE_clusters) demo_cluster.
Proof. split_and!; try done. intros c' Hc. by destruct (empty_stored_cluster c'). Qed.

Lemma demo_cluster_added :
  ClustersInv (addCluster demo_cluster empty).2 ∧
  is_cluster (addCluster demo_cluster empty).2 demo_cluster ∧
  ∀ c, is_cluster (addCluster demo_cluster empty).2 c → c = demo_cluster.
Proof.
  destruct (addCluster_spec demo_cluster empty) as (Hi & _ & _ & Hc & Hk & _);
    [apply empty_ClustersInv|apply demo_cluster_compatible|].
  split; [done|]. split; [done|]. intros c Hc'. pose proof Hc' as (it & Hit & _).
  destruct (decide (cluster_key c = cluster_key demo_cluster)) as [Heq|Hne].
  - eapply stored_cluster_inj; [exact Hc'|exact Hc|]. by injection Heq.
  - rewrite Hk in Hit by done. by rewrite empty_table, lookup_empty in Hit.
Qed.

(** Restarting the server keeps the tables and forgets the caches. *)
Lemma restart_ClustersInv w : ClustersInv w → ClustersInv (start (db w)).
Proof.
  intros [[H1 H2 H3 _ _ _] _ _].
  split; [split; [exact H1|exact H2|exact H3|..]|..|exact I];
    intros k r; simpl; by rewrite lookup_empty.
Qed.

Lemma restart_is_cluster w c : is_cluster (start (db w)) c ↔ is_cluster w c.
Proof. done. Qed.

Lemma demo_clusters_inv : ClustersInv demo_clusters.
Proof. apply restart_ClustersInv, demo_cluster_added. Qed.

Lemma demo_is_cluster : is_cluster demo_clusters demo_cluster.
Proof. apply restart_is_cluster, demo_cluster_added. Qed.

Lemma demo_cluster2_compatible : compatible_cluster (table demo_clusters SLATE_clusters) demo_cluster2.
Proof.
  split; [done|]. split; [done|]. split; [done|]. intros c' Hc.
  pose proof (proj2 (proj2 demo_cluster_added) c' (proj1 (restart_is_cluster _ _) Hc)) as ->.
  done.
Qed.

Lemma cluster_lookups_witness :
  wp (getCluster "alpha") (cluster_lookup_post Cluster.name "alpha" demo_clusters) demo_clusters ∧
  (getCluster "alpha" demo_clusters).1 = Ok demo_cluster.
Proof.
  split; [|vm_compute; reflexivity].
  exact (proj2 (proj2 (cluster_lookups_correct "alpha" demo_clusters demo_clusters_inv))).
Defined.

Lemma cluster_writes_witness :
  wp (updateCluster demo_cluster2) (cluster_write_post demo_cluster2 demo_clusters) demo_clusters ∧
  (updateCluster demo_cluster2 demo_clusters).1 = Ok true.
Proof.
  split; [|vm_compute; reflexivity].
  exact (proj2 (cluster_writes_correct demo_cluster2 demo_clusters demo_clusters_inv
    demo_cluster2_compatible)).
Defined.

Lemma configPathForCluster_witness :
  wp (configPathForCluster "cluster_1") (config_path_post "cluster_1" demo_clusters)
    demo_clusters ∧
  is_ok (configPathForCluster "cluster_1" demo_clusters).1 = true.
Proof.
  split; [|vm_compute; reflexivity].
  exact (configPathForCluster_correct "cluster_1" demo_clusters demo_clusters_inv).
Defined.

Lemma cluster_update_witness :
  (findClusterByName "alpha" (updateCluster demo_cluster2 demo_clusters).2).1 = Ok demo_cluster2.
Proof.
  refine (proj1 (proj2 (cluster_update_takes_effect demo_cluster2 demo_clusters _
    demo_clusters_inv eq_refl demo_cluster2_compatible _))).
  apply run_result. vm_compute. reflexivity.
Defined.

Lemma listClusters_witness :
  wp (listClusters 5) (listClusters_post demo_clusters) demo_clusters ∧
  (listClusters 5 demo_clusters).1 = Ok [demo_cluster] ∧
  (clustersOwnedByGroup "group_1" demo_clusters).1 = Ok ["cluster_1"].
Proof.
  split; [|vm_compute; auto].
  apply (listClusters_correct 5 "group_1" demo_clusters demo_clusters_inv).
  - intros Hlt. simpl in Hlt. lia.
  - rewrite pages. apply Nat.ltb_lt. vm_compute. reflexivity.
Defined.

Lemma cluster_credential_witness :
  wp (setClusterMonitoringCredential "cluster_1" demo_credential)
    (set_credential_post demo_cluster demo_credential demo_clusters) demo_clusters ∧
  (setClusterMonitoringCredential "cluster_1" demo_credential demo_clusters).1 = Ok true.
Proof.
  split; [|vm_compute; reflexivity].
  exact (proj1 (cluster_credential_compare_and_set demo_cluster demo_credential demo_clusters
    demo_clusters_inv eq_refl demo_is_cluster eq_refl)).
Defined.

Lemma set_credential_of_missing_cluster_witness :
  (setClusterMonitoringCredential "cluster_9" demo_credential empty).1
    = Throw "Cluster record missing name attribute".
Proof.
  exact (proj1 (set_credential_of_missing_cluster "cluster_9" demo_credential empty
    eq_refl eq_refl)).
Defined.

Definition demo_locations : list GeoLocation.t :=
  [GeoLocation.mk _ 0%Z 1%Z "roof"; GeoLocation.mk _ 1%Z 1%Z ""].

Lemma empty_LocationsInv : LocationsInv empty.
Proof.
  split; [intros c it; by rewrite empty_table, lookup_empty|].
  intros c r. simpl. by rewrite lookup_empty.
Qed.

Lemma demo_locations_proper : proper_locations demo_locations.
Proof.
  split_and!; [done|compute_done|].
  intros g. unfold demo_locations. rewrite !elem_of_cons, elem_of_nil.
  by intros [->|[->|[]]].
Qed.

Lemma cluster_locations_witness :
  wp (setLocationsForCluster "cluster_1" demo_locations)
    (set_locations_post "cluster_1" demo_locations empty) empty ∧
  (setLocationsForCluster "cluster_1" demo_locations empty).1 = Ok true.
Proof.
  split; [|vm_compute; reflexivity].
  exact (proj1 (proj2 (cluster_locations_correct "cluster_1" demo_locations empty
    empty_LocationsInv eq_refl) demo_locations_proper)).
Defined.

Lemma geolocation_witness :
  GeoLocation.read (GeoLocation.show (GeoLocation.mk _ 0%Z 1%Z "roof"))
  = Some (GeoLocation.mk _ 0%Z 1%Z "roof").
Proof.
  refine (geolocation_roundtrip (GeoLocation.mk _ 0%Z 1%Z "roof") _ _); simpl; auto.
Defined.
End cluster_witnesses.
