(* ===== verification/StoreAccess.v ===== *)
(** Access of groups to clusters and to applications on clusters: the access and
    application records of the clusters table, [clusterGroupAccessCache] and
    [clusterGroupApplicationCache], the listing of the clusters a group may use
    and the removal of a cluster (src/PersistentStore.cpp). *)

From S2P Require Import Prelude Entities Cache Dynamo Store Demo StoreGroups StoreClusters.

Section access.
Context `{D : Dynamo} `{P : Platform}.

Definition access_key (cID groupID : string) : string * string :=
  (cID, cID +:+ ":" +:+ groupID).

Definition access_item (cID groupID : string) : Item :=
  {["ID" := AVS cID; "sortKey" := AVS (cID +:+ ":" +:+ groupID);
    "groupID" := AVS groupID]}.

(** The record with a trailing dash says that a group has no access. *)
Definition negative (groupID : string) : string := groupID +:+ "-".

(** [clusterGroupAccessCache.insert_or_assign(cID, CacheRecord(v, validity))] *)
Definition cache_access (cID v : string) : Store unit :=
  record ← make_record v clusterCacheValidity;
  multi_insert (λ f, upd_clusters (upd_clusterGroupAccessCache f)) cID record.

(** [clusterGroupAccessCache.erase(cID, CacheRecord(v))] *)
Definition uncache_access (cID v : string) : Store unit :=
  modify (upd_clusters (upd_clusterGroupAccessCache
    (λ m, (mm_erase cID (CacheRecord.stale v) m).2))).

Definition addGroupToCluster (groupID cID : string) : Store bool :=
  g ← normalizeGroupID groupID true;
  match g with
  | None => mret false
  | Some groupID =>
      c ← normalizeClusterID cID;
      match c with
      | None => mret false
      | Some cID =>
          _ ← uncache_access cID (negative groupID);
          outcome ← request (PutItem SLATE_clusters (access_item cID groupID));
          match outcome with
          | inl err => mret false
          | inr _ => _ ← cache_access cID groupID; mret true
          end
      end
  end.

Definition removeGroupFromCluster (groupID cID : string) : Store bool :=
  g ← normalizeGroupID groupID true;
  match g with
  | None => mret false
  | Some groupID =>
      c ← normalizeClusterID cID;
      match c with
      | None => mret false
      | Some cID =>
          _ ← uncache_access cID groupID;
          outcome ← request (DeleteItem SLATE_clusters (access_key cID groupID) None);
          match outcome with
          | inl err => mret false
          | inr _ => _ ← cache_access cID (negative groupID); mret true
          end
      end
  end.

(** Reading the access record of a group, and remembering the answer. *)
Definition fetch_access (cID groupID : string) : Store bool :=
  _ ← databaseQuery;
  outcome ← request (GetItem SLATE_clusters (access_key cID groupID));
  match outcome with
  | inl err => mret false
  | inr item =>
      if bool_decide (item = ∅)
      then _ ← cache_access cID (negative groupID); mret false
      else _ ← cache_access cID groupID; mret true
  end.

(** The cached record found first is converted to [bool] by reading the clock
    again. *)
Definition clusterAllowsAllGroups (cID : string) : Store bool :=
  c ← gets (λ w, clusterGroupAccessCache (clusters w));
  positive ← match mm_find_val cID (CacheRecord.stale wildcard) c with
             | Some record =>
                 v ← record_valid record;
                 if v : bool then
                   _ ← cacheHit; b ← record_valid record; mret (Some b)
                 else mret None
             | None => mret None
             end;
  match positive with
  | Some b => mret b
  | None =>
      known ← find_cached_val (λ w, clusterGroupAccessCache (clusters w))
                cID (negative wildcard);
      if known : bool then mret false else fetch_access cID wildcard
  end.

Definition groupAllowedOnCluster (groupID cID : string) : Store bool :=
  g ← normalizeGroupID groupID false;
  match g with
  | None => mret false
  | Some groupID =>
      c ← normalizeClusterID cID;
      match c with
      | None => mret false
      | Some cID =>
          all ← clusterAllowsAllGroups cID;
          if all : bool then mret true else
          yes ← find_cached_val (λ w, clusterGroupAccessCache (clusters w)) cID groupID;
          if yes : bool then mret true else
          no ← find_cached_val (λ w, clusterGroupAccessCache (clusters w))
                 cID (negative groupID);
          if no : bool then mret false else fetch_access cID groupID
      end
  end.

Definition listGroupsAllowedOnCluster (cID : string) (useNames : bool) : Store (list string) :=
  c ← normalizeClusterID cID;
  match c with
  | None => mret []
  | Some cID =>
      all ← clusterAllowsAllGroups cID;
      if all : bool then mret [if useNames then wildcardName else wildcard] else
      _ ← databaseQuery;
      outcome ← request (Query SLATE_clusters None
                  (mkKC "ID" (AVS cID) (Some (cID +:+ ":" +:+ groupIDPrefix))) ETrue);
      match outcome with
      | inl err => mret []
      | inr items =>
          let vos := omap (λ item : Item, GetS <$> item !! "groupID") items in
          if useNames then
            for_collect vos (λ groupStr, group ← findGroupByID groupStr; mret (Group.name group))
          else mret vos
      end
  end.

Definition listClustersByGroup (fuel : nat) (group : string) : Store (list Cluster.t) :=
  group ← (if negb (str_empty group) && negb (begins_with group groupIDPrefix) then
             group_ ← findGroupByName group;
             if Group.valid group_ then mret (Some (Group.id group_)) else mret None
           else mret (Some group));
  match group with
  | None => mret []
  | Some group =>
      allClusters ← listClusters fuel;
      for_filter allClusters (λ cluster,
        if bool_decide (group = Cluster.owningGroup cluster) then mret true
        else groupAllowedOnCluster group (Cluster.id cluster))
  end.

(** ** Applications *)

Definition applications_key (groupID cID : string) : string :=
  cID +:+ ":" +:+ groupID +:+ ":Applications".

(** The set of strings the record holds for a set of allowed applications;
    DynamoDB has no empty set. *)
Definition noApplications : string := "<none>".

Definition applications_item (cID sortKey : string) (value : list string) : Item :=
  {["ID" := AVS cID; "sortKey" := AVS sortKey; "applications" := AVSS value]}.

Definition cache_applications (sortKey : string) (allowed : gset string) : Store unit :=
  record ← make_record allowed clusterCacheValidity;
  modify (upd_clusters (upd_clusterGroupApplicationCache (replaceCacheRecord sortKey record))).

(** What the stored set, or its absence, means. *)
Definition applications_of_item (item : Item) : Res (gset string) :=
  if bool_decide (item = ∅) then mret ({[wildcardName]} : gset string) else
  v ← findOrThrow item "applications" "Cluster record missing applications attribute";
  let result : gset string := list_to_set (GetSS v) in
  mret (if bool_decide (noApplications ∈ result) then ∅ else result).

Definition listApplicationsGroupMayUseOnCluster (groupID cID : string) : Store (gset string) :=
  g ← normalizeGroupID groupID true;
  match g with
  | None => mret ∅
  | Some groupID =>
      c ← normalizeClusterID cID;
      match c with
      | None => mret ∅
      | Some cID =>
          let sortKey := applications_key groupID cID in
          cached ← find_cached (λ w, clusterGroupApplicationCache (clusters w)) sortKey;
          match cached with
          | Some allowed => mret allowed
          | None =>
              _ ← databaseQuery;
              outcome ← request (GetItem SLATE_clusters (cID, sortKey));
              match outcome with
              | inl err => mret ∅
              | inr item =>
                  result ← lift (applications_of_item item);
                  _ ← cache_applications sortKey result;
                  mret result
              end
          end
      end
  end.

(** Storing the new set. *)
Definition store_applications (cID sortKey : string) (value : list string)
    (allowed : gset string) : Store bool :=
  outcome ← request (PutItem SLATE_clusters (applications_item cID sortKey value));
  match outcome with
  | inl err => mret false
  | inr _ => _ ← cache_applications sortKey allowed; mret true
  end.

Definition allowVoToUseApplication (groupID cID appName : string) : Store bool :=
  g ← normalizeGroupID groupID true;
  match g with
  | None => mret false
  | Some groupID =>
      c ← normalizeClusterID cID;
      match c with
      | None => mret false
      | Some cID =>
          let appName := if bool_decide (appName = wildcard) then wildcardName else appName in
          let sortKey := applications_key groupID cID in
          allowed ← listApplicationsGroupMayUseOnCluster groupID cID;
          let allowed := if bool_decide (wildcardName ∈ allowed) then ∅ else allowed in
          let allowed : gset string :=
            if bool_decide (appName = wildcardName) then {[wildcardName]}
            else allowed ∪ {[appName]} in
          store_applications cID sortKey (elements allowed) allowed
      end
  end.

Definition denyGroupUseOfApplication (groupID cID appName : string) : Store bool :=
  g ← normalizeGroupID groupID true;
  match g with
  | None => mret false
  | Some groupID =>
      c ← normalizeClusterID cID;
      match c with
      | None => mret false
      | Some cID =>
          let appName := if bool_decide (appName = wildcard) then wildcardName else appName in
          let sortKey := applications_key groupID cID in
          allowed ← listApplicationsGroupMayUseOnCluster groupID cID;
          let store (allowed : gset string) :=
            store_applications cID sortKey
              (if bool_decide (allowed = ∅) then [noApplications] else elements allowed)
              allowed in
          if bool_decide (appName = wildcardName) then store ∅
          else if bool_decide (wildcardName ∈ allowed) then mret false
          else if negb (bool_decide (appName ∈ allowed)) then mret false
          else store (allowed ∖ {[appName]})
      end
  end.

Definition groupMayUseApplication (groupID cID appName : string) : Store bool :=
  allowed ← listApplicationsGroupMayUseOnCluster groupID cID;
  if bool_decide (wildcardName ∈ allowed) then mret true
  else mret (bool_decide (appName ∈ allowed)).

(** ** Removing a cluster *)

Definition forget_cluster (cID : string) : Store unit :=
  c ← gets (λ w, clusterCache (clusters w));
  _ ← match c !! cID with
      | Some record =>
          _ ← modify (upd_clusters (upd_clusterByNameCache
                 (delete (Cluster.name (CacheRecord.record record)))));
          modify (upd_clusters (upd_clusterByGroupCache
            (λ m, (mm_erase (Cluster.owningGroup (CacheRecord.record record)) record m).2)))
      | None => mret tt
      end;
  _ ← modify (upd_clusters (upd_clusterCache (delete cID)));
  _ ← modify (upd_clusters (upd_clusterConfigs (delete cID)));
  modify (upd_clusters (upd_clusterLocationCache (delete cID))).

Definition removeCluster (cID : string) : Store bool :=
  guests ← listGroupsAllowedOnCluster cID false;
  _ ← for_each guests (λ guest, _ ← removeGroupFromCluster guest cID; mret tt);
  _ ← forget_cluster cID;
  outcome ← request (DeleteItem SLATE_clusters (cID, cID) None);
  match outcome with
  | inl err => mret false
  | inr _ =>
      outcome ← request (DeleteItem SLATE_clusters (cID, cID +:+ ":Locations") None);
      match outcome with
      | inl err => mret false
      | inr _ => mret true
      end
  end.
End access.

(** * Who may use a cluster *)

Section access_invariant.
Context `{D : Dynamo} `{P : Platform} `{L : !DynamoLaws}.
Implicit Types (c g v : string).

(** What the server takes for the ID of a group: the wildcard, or something with
    the prefix of the IDs of groups; generated IDs have no colon and do not end
    with a dash. *)
Definition proper_group g : Prop :=
  (g = wildcard ∨ begins_with g groupIDPrefix = true) ∧
  str_all (λ ch, negb (char_is ":" ch)) g = true ∧ ∀ x, g ≠ negative x.

Lemma normalizeGroupID_proper g :
  proper_group g → normalizeGroupID g true = mret (Some g).
Proof. intros [[->|Hg] _]; [done|by apply normalizeGroupID_id]. Qed.

Lemma negative_inj g g' : negative g = negative g' → g = g'.
Proof.
  unfold negative. revert g'. induction g as [|a g IH]; intros [|b g']; simpl; try done.
  - intros [= _ H2]. by destruct g'.
  - intros [= _ H2]. by destruct g.
  - intros [= -> H2]. f_equal. by apply IH.
Qed.

(** A grant is a row of the clusters table. *)
Definition granted (w : World) c g : Prop :=
  is_Some (table w SLATE_clusters !! access_key c g).

(** A group may use a cluster if it, or everyone, has a grant. *)
Definition allowed (w : World) c g : Prop := granted w c wildcard ∨ granted w c g.

(** The records of [clusterGroupAccessCache]. *)
Definition access_cached (w : World) c v : Prop :=
  mm_contains c (CacheRecord.stale v) (clusterGroupAccessCache (clusters w)) = true.

(** A cached group has a grant, a group cached with a dash has none. *)
Definition AccessInv (w : World) : Prop :=
  ∀ c v, access_cached w c v →
    (proper_group v → granted w c v) ∧
    (∀ g, v = negative g → proper_group g → ¬ granted w c g).

Lemma quiet_access_cached w w' c v : quiet w w' → access_cached w' c v ↔ access_cached w c v.
Proof. unfold access_cached. intros Hq. by rewrite (quiet_clusters _ _ Hq). Qed.

Lemma quiet_granted w w' c g : quiet w w' → granted w' c g ↔ granted w c g.
Proof. unfold granted. intros Hq. by rewrite (proj1 (quiet_ro _ _ Hq)). Qed.

Lemma quiet_AccessInv w w' : quiet w w' → AccessInv w → AccessInv w'.
Proof.
  intros Hq Hi c v. rewrite quiet_access_cached by done. intros Hv.
  split; intros *; rewrite quiet_granted by done; by apply (Hi c v Hv).
Qed.

(** ** Effects on the cache *)

(** The world after [cache_access] and [uncache_access]. *)
Lemma wp_cache_access {B} c v (k : unit → Store B) Q w :
  (∀ w', db w' = db w →
    (∀ c' v', access_cached w' c' v' ↔ (c' = c ∧ v' = v) ∨ access_cached w c' v') →
    wp (k tt) Q w') →
  wp (cache_access c v ≫= k) Q w.
Proof.
  intros Hk. unfold cache_access. eapply wp_run; [reflexivity|]. apply Hk; [done|].
  intros c' v'. unfold access_cached. simpl.
  rewrite mm_contains_insert_or_assign, orb_true_iff. unfold same_pair, cpp_eq.
  rewrite andb_true_iff, bool_decide_eq_true.
  unfold CacheRecord.eqb, cpp_eq, string_eq, eq_on. simpl.
  rewrite bool_decide_eq_true. naive_solver.
Qed.

Lemma wp_uncache_access {B} c v (k : unit → Store B) Q w :
  (∀ w', db w' = db w →
    (∀ c' v', access_cached w' c' v' ↔ ¬ (c' = c ∧ v' = v) ∧ access_cached w c' v') →
    wp (k tt) Q w') →
  wp (uncache_access c v ≫= k) Q w.
Proof.
  intros Hk. unfold uncache_access. apply wp_modify, Hk; [done|].
  intros c' v'. unfold access_cached. simpl.
  rewrite mm_contains_erase, andb_true_iff, negb_true_iff. unfold same_pair, cpp_eq.
  rewrite andb_false_iff, bool_decide_eq_false.
  unfold CacheRecord.eqb, cpp_eq, string_eq, eq_on. simpl.
  rewrite bool_decide_eq_false. destruct (decide (c = c')), (decide (v = v')); naive_solver.
Qed.

(** Reading a row: it exists exactly if it is not empty. *)
Lemma row_empty w t k : default ∅ (table w t !! k) = ∅ ↔ ¬ is_Some (table w t !! k).
Proof.
  destruct (table w t !! k) as [it|] eqn:Hit; simpl.
  - split; [|by intros []]. intros ->. apply rows_keyed in Hit.
    unfold item_key in Hit. by rewrite lookup_empty in Hit.
  - split; [intros _ [? [=]]|done].
Qed.

(** [AccessInv] for a new record that agrees with the table. *)
Lemma AccessInv_add w w' c v :
  AccessInv w → db w' = db w →
  (∀ c' v', access_cached w' c' v' ↔ (c' = c ∧ v' = v) ∨ access_cached w c' v') →
  (proper_group v → granted w c v) →
  (∀ g, v = negative g → proper_group g → ¬ granted w c g) →
  AccessInv w'.
Proof.
  unfold AccessInv, granted. intros Hi -> Hc Hp Hn c' v' [[-> ->]|Hv]%Hc; [done|].
  by apply Hi.
Qed.

(** A grant among the cached ones that is about to expire may be overlooked: the
    code reads the clock twice. *)
Definition grant_expiring (w : World) c : Prop :=
  ∃ r, mm_find_val c (CacheRecord.stale wildcard) (clusterGroupAccessCache (clusters w)) = Some r ∧
    (steady (ticks w) ≤ CacheRecord.expirationTime r < steady (S (ticks w)))%Z.

Lemma fetch_access_spec c g w :
  AccessInv w → proper_group g →
  wp (fetch_access c g) (λ r w', AccessInv w' ∧ read_only w w' ∧ ∃ b, r = Ok b ∧
    (b = true → granted w c g) ∧ (b = false → healthy (db w) → ¬ granted w c g)) w.
Proof.
  intros Hi Hg. unfold fetch_access. apply wp_databaseQuery. intros w1 Hq1.
  apply wp_GetItem; [intros e w2 Hq2 Hh|intros w2 Hq2].
  { assert (Hq : quiet w w2) by by etrans. split; [by eapply quiet_AccessInv|].
    split; [apply Hq|]. exists false. split_and!; [done..|]. intros _ Hd.
    by apply Hq1 in Hd. }
  assert (Hq : quiet w w2) by by etrans.
  pose proof (quiet_AccessInv _ _ Hq Hi) as Hi2.
  rewrite (proj1 (quiet_ro _ _ Hq1)). case_bool_decide as Hrow; apply wp_cache_access;
    intros w3 Hdb Hc.
  - assert (Hro : read_only w w3) by (etrans; [apply Hq|by apply read_only_db]).
    apply row_empty in Hrow. split; [|split; [done|exists false; by split_and!]].
    eapply AccessInv_add; [done|done|done| |].
    + intros [_ [_ Hn]]. by destruct (Hn g).
    + intros g' <-%negative_inj _. by rewrite quiet_granted.
  - assert (Hro : read_only w w3) by (etrans; [apply Hq|by apply read_only_db]).
    assert (Hgr : granted w c g).
    { rewrite row_empty in Hrow. by apply dec_stable. }
    split; [|split; [done|exists true; by split_and!]].
    eapply AccessInv_add; [done|done|done| |].
    + intros _. by apply (quiet_granted _ _ _ _ Hq).
    + intros g' ->. destruct Hg as (_ & _ & Hn). by destruct (Hn g').
Qed.

Lemma proper_wildcard : proper_group wildcard.
Proof. split; [by left|]. split; [done|]. intros [|a [|b x]]; by intros [=]. Qed.

(** The outcome of a question about a grant. *)
Definition access_answer (Inv : World → Prop) (yes : World → Prop) (excuse : World → Prop)
    (w : World) (r : Res bool) (w' : World) : Prop :=
  Inv w' ∧ read_only w w' ∧ ∃ b, r = Ok b ∧
    (b = true → yes w) ∧ (b = false → healthy (db w) → ¬ yes w ∨ excuse w).

Lemma clusterAllowsAllGroups_spec c w :
  AccessInv w →
  wp (clusterAllowsAllGroups c)
    (access_answer AccessInv (λ w, granted w c wildcard) (λ w, grant_expiring w c) w) w.
Proof.
  intros Hi. unfold clusterAllowsAllGroups. apply wp_gets.
  assert (Hrest : ∀ w1, quiet w w1 →
    wp (known ← find_cached_val (λ w, clusterGroupAccessCache (clusters w)) c (negative wildcard);
        if known : bool then mret false else fetch_access c wildcard)
      (access_answer AccessInv (λ w, granted w c wildcard) (λ w, grant_expiring w c) w) w1).
  { intros w1 Hq1. apply wp_find_cached_val.
    - intros w2 Hq2 Hc. assert (Hq : quiet w w2) by by etrans.
      split; [by eapply quiet_AccessInv|]. split; [apply Hq|]. exists false.
      split_and!; [done..|]. intros _ _. left.
      apply (Hi c (negative wildcard)); [|done|apply proper_wildcard].
      by apply (quiet_access_cached _ _ _ _ Hq1).
    - intros w2 Hq2. assert (Hq : quiet w w2) by by etrans.
      eapply wp_mono, fetch_access_spec; [|by eapply quiet_AccessInv|apply proper_wildcard].
      intros r w3 (Hi3 & Hro & b & -> & Hy & Hn). split; [done|].
      split; [by etrans; [apply Hq|]|]. exists b. split; [done|].
      rewrite (quiet_granted _ _ _ _ Hq) in Hy, Hn. split; [done|].
      intros Hb Hd. left. apply Hn; [done|]. by apply Hq. }
  destruct (mm_find_val c _ _) as [r|] eqn:Hr; [|by eapply wp_run; [reflexivity|apply Hrest]].
  destruct (CacheRecord.to_bool (steady (ticks w)) r) eqn:Hv.
  - eapply wp_run.
    { unfold record_valid, mbind, M_bind, now. simpl. rewrite Hv. simpl. reflexivity. }
    assert (Hq : quiet w (upd_ticks S (upd_stats (upd_cacheHits incr) (upd_ticks S w)))).
    { etrans; [apply quiet_tick|]. etrans; [apply quiet_stats|apply quiet_tick]. }
    split; [by eapply quiet_AccessInv|]. split; [apply Hq|].
    eexists. split; [done|]. unfold CacheRecord.to_bool in *. simpl. split.
    + intros _. apply (Hi c wildcard); [|apply proper_wildcard].
      by eapply mm_find_val_contains.
    + intros Hlt _. right. exists r. split; [done|]. lia.
  - eapply (wp_run _ _ _ _ None (upd_ticks S w)); [|apply Hrest, quiet_tick].
    unfold record_valid, mbind, M_bind, now. simpl. by rewrite Hv.
Qed.

(** The question the server asks before every operation on a cluster. *)
Lemma groupAllowedOnCluster_spec g c w :
  AccessInv w → proper_group g → begins_with g groupIDPrefix = true →
  begins_with c clusterIDPrefix = true →
  wp (groupAllowedOnCluster g c)
    (access_answer AccessInv (λ w, allowed w c g) (λ w, grant_expiring w c) w) w.
Proof.
  intros Hi Hp Hg Hc. unfold groupAllowedOnCluster. rewrite normalizeGroupID_id by done.
  eapply wp_run; [reflexivity|]. rewrite normalizeClusterID_id by done.
  eapply wp_run; [reflexivity|].
  eapply wp_seq; [by apply clusterAllowsAllGroups_spec| |
    by intros e w' (_ & _ & b & [=] & _)|by intros w' (_ & _ & b & [=] & _)].
  intros all w1 (Hi1 & Hro & b & [= <-] & Hyes & Hno).
  assert (Hgr : ∀ w2 g, quiet w1 w2 → granted w2 c g ↔ granted w c g).
  { intros w2 g' Hq. rewrite (quiet_granted _ _ _ _ Hq). unfold granted.
    by rewrite (proj1 Hro). }
  assert (Hro2 : ∀ w2, quiet w1 w2 → read_only w w2).
  { intros w2 Hq. etrans; [done|apply Hq]. }
  destruct all.
  { split; [done|]. split; [done|]. exists true. split; [done|].
    split; [intros _; left; by apply Hyes|done]. }
  assert (Hneg : healthy (db w) → ¬ granted w c g → ¬ allowed w c g ∨ grant_expiring w c).
  { intros Hd Hn. destruct (Hno eq_refl Hd) as [Hw|?]; [left|by right]. by intros [?|?]. }
  apply wp_find_cached_val; [intros w2 Hq Hc2|intros w2 Hq].
  { split; [by eapply quiet_AccessInv|]. split; [by apply Hro2|]. exists true.
    split; [done|]. split; [|done]. intros _. right.
    rewrite <- (Hgr w1) by done. by apply (Hi1 c g Hc2). }
  apply wp_find_cached_val; [intros w3 Hq3 Hc3|intros w3 Hq3].
  { assert (Hq' : quiet w1 w3) by by etrans.
    split; [by eapply quiet_AccessInv|]. split; [by apply Hro2|]. exists false.
    split; [done|]. split; [done|]. intros _ Hd. apply Hneg; [done|].
    rewrite <- (Hgr w1) by done. apply (Hi1 c (negative g)); [|done..].
    by apply (quiet_access_cached _ _ _ _ Hq). }
  assert (Hq' : quiet w1 w3) by by etrans.
  eapply wp_mono, fetch_access_spec; [|by eapply quiet_AccessInv|done].
  intros r w4 (Hi4 & Hro4 & b & -> & Hy & Hn). split; [done|].
  split; [etrans; [by apply Hro2|done]|]. exists b. split; [done|].
  rewrite (Hgr w3) in Hy, Hn by done. split; [intros Hb; right; auto|].
  intros Hb Hd. apply Hneg; [done|]. apply Hn; [done|]. by apply (Hro2 w3 Hq').
Qed.

(** ** Granting and revoking *)

Lemma access_key_inj c g c' g' : access_key c g = access_key c' g' → c = c' ∧ g = g'.
Proof.
  unfold access_key. intros [= -> Heq]. split; [done|].
  apply str_app_inj_l, (str_app_inj_l ":") in Heq. done.
Qed.

(** A change of the grant of [g] on [c] alone. *)
Definition grant_changed (c g : string) (now_granted : bool) (w w' : World) : Prop :=
  (∀ t, t ≠ SLATE_clusters → table w' t = table w t) ∧
  (∀ c' g', granted w' c' g' ↔
     if decide (c' = c ∧ g' = g) then now_granted = true else granted w c' g').

Definition grant_post (c g : string) (b : bool) (w : World) (r : Res bool) (w' : World) : Prop :=
  AccessInv w' ∧ (healthy (db w) → healthy (db w')) ∧
  match r with
  | Ok true => grant_changed c g b w w'
  | Ok false => ¬ healthy (db w) ∧ ∀ t, table w' t = table w t
  | _ => False
  end.

(** Dropping a record keeps the invariant. *)
Lemma AccessInv_sub w w' :
  AccessInv w → db w' = db w → (∀ c v, access_cached w' c v → access_cached w c v) →
  AccessInv w'.
Proof. unfold AccessInv, granted. intros Hi -> Hc c v Hv%Hc. by apply Hi. Qed.

(** The end of both operations: the row has changed, the contradicting record is not
    cached any more, the confirming one is added. *)
Lemma grant_written c g b v w1 w2 w3 :
  AccessInv w1 → proper_group g → same_caches w1 w2 → grant_changed c g b w1 w2 →
  ¬ access_cached w1 c (if b then negative g else g) → v = (if b then g else negative g) →
  db w3 = db w2 →
  (∀ c' v', access_cached w3 c' v' ↔ (c' = c ∧ v' = v) ∨ access_cached w2 c' v') →
  AccessInv w3.
Proof.
  intros Hi Hg Hq [_ Hgr] Hno -> Hdb Hc c' v' Hv'.
  assert (Hgr3 : ∀ c' g', granted w3 c' g' ↔
     if decide (c' = c ∧ g' = g) then b = true else granted w1 c' g').
  { intros c0 g0. rewrite <- Hgr. unfold granted. by rewrite Hdb. }
  destruct Hg as (Hg & Hcol & Hdash). apply Hc in Hv' as [[-> ->]|Hv'].
  - split.
    + intros (_ & _ & Hn). rewrite Hgr3. destruct b; [by rewrite decide_True|].
      by destruct (Hn g).
    + intros g' Heq _. rewrite Hgr3. destruct b; [by destruct (Hdash g')|].
      apply negative_inj in Heq as ->. by rewrite decide_True.
  - assert (Hv1 : access_cached w1 c' v').
    { unfold access_cached in *. by rewrite (quiet_clusters _ _ Hq : clusters w2 = _) in Hv'. }
    destruct (Hi _ _ Hv1) as [Hpos Hneg]. split.
    + intros Hp. rewrite Hgr3. case_decide as Hd; [|auto]. destruct Hd as [-> ->].
      destruct b; [done|]. done.
    + intros g' -> Hp. rewrite Hgr3. case_decide as Hd; [|auto]. destruct Hd as [-> ->].
      destruct b; [by destruct Hno|done].
Qed.

Lemma addGroupToCluster_spec g c w :
  AccessInv w → proper_group g → begins_with c clusterIDPrefix = true →
  wp (addGroupToCluster g c) (grant_post c g true w) w.
Proof.
  intros Hi Hp Hc. unfold addGroupToCluster. rewrite normalizeGroupID_proper by done.
  eapply wp_run; [reflexivity|]. rewrite normalizeClusterID_id by done.
  eapply wp_run; [reflexivity|]. apply wp_uncache_access. intros w1 Hdb1 Hc1.
  assert (Hi1 : AccessInv w1).
  { eapply AccessInv_sub; [done..|]. intros c' v'. rewrite Hc1. tauto. }
  eapply (wp_PutItem _ _ (access_key c g)).
  { by apply item_key_eq. }
  - intros e w2 Hq Hh. split; [by eapply quiet_AccessInv|].
    destruct (quiet_ro _ _ Hq) as [Ht Hd]. rewrite Hdb1 in *. split; [done|].
    split; [done|]. intros t. by rewrite Ht.
  - intros w2 Hq Hh Ht. rewrite Hdb1 in Hh.
    assert (Hch : grant_changed c g true w1 w2).
    { split; [intros t Hne; by eapply table_set_other|]. intros c' g'. unfold granted.
      rewrite (table_set_same _ _ _ _ Ht), lookup_insert.
      destruct (decide (access_key c g = access_key c' g')) as [[-> ->]%access_key_inj|Hne].
      - rewrite decide_True by done. split; eauto.
      - rewrite decide_False; [done|]. intros [-> ->]. done. }
    apply wp_cache_access. intros w3 Hdb3 Hc3.
    split; [|split; [simpl; by rewrite Hdb3|]].
    + eapply (grant_written c g true); [done..| |done|done|done].
      rewrite Hc1. tauto.
    + unfold grant_changed, granted in *. simpl. by rewrite Hdb3, <- Hdb1.
Qed.

Lemma removeGroupFromCluster_spec g c w :
  AccessInv w → proper_group g → begins_with c clusterIDPrefix = true →
  wp (removeGroupFromCluster g c) (grant_post c g false w) w.
Proof.
  intros Hi Hp Hc. unfold removeGroupFromCluster. rewrite normalizeGroupID_proper by done.
  eapply wp_run; [reflexivity|]. rewrite normalizeClusterID_id by done.
  eapply wp_run; [reflexivity|]. apply wp_uncache_access. intros w1 Hdb1 Hc1.
  assert (Hi1 : AccessInv w1).
  { eapply AccessInv_sub; [done..|]. intros c' v'. rewrite Hc1. tauto. }
  apply wp_DeleteItem.
  - intros e w2 Hq Hh. split; [by eapply quiet_AccessInv|].
    destruct (quiet_ro _ _ Hq) as [Ht Hd]. rewrite Hdb1 in *. split; [done|].
    split; [|intros t; by rewrite Ht]. intros Hd'. destruct (Hh Hd') as (? & [=] & _).
  - intros w2 Hq Hh _ Ht. rewrite Hdb1 in Hh.
    assert (Hch : grant_changed c g false w1 w2).
    { split; [intros t Hne; by eapply table_set_other|]. intros c' g'. unfold granted.
      rewrite (table_set_same _ _ _ _ Ht), lookup_delete.
      destruct (decide (access_key c g = access_key c' g')) as [[-> ->]%access_key_inj|Hne].
      - rewrite decide_True by done. split; [by intros []|done].
      - rewrite decide_False; [done|]. intros [-> ->]. done. }
    apply wp_cache_access. intros w3 Hdb3 Hc3.
    split; [|split; [simpl; by rewrite Hdb3|]].
    + eapply (grant_written c g false); [done..| |done|done|done].
      rewrite Hc1. tauto.
    + unfold grant_changed, granted in *. simpl. by rewrite Hdb3, <- Hdb1.
Qed.
End access_invariant.

(** * Which applications a group may use *)

Section applications_invariant.
Context `{D : Dynamo} `{P : Platform} `{L : !DynamoLaws}.
Implicit Types (c g app : string) (allowed : gset string).

Definition cluster_id c : Prop := begins_with c clusterIDPrefix = true ∧ no_colon c.

(** The set of applications the row means: everything when there is none. *)
Definition applications_of_row (row : option Item) : gset string :=
  match row with
  | None => {[wildcardName]}
  | Some it =>
      match it !! "applications" with
      | Some v =>
          let s : gset string := list_to_set (GetSS v) in
          if bool_decide (noApplications ∈ s) then ∅ else s
      | None => ∅
      end
  end.

Definition applications_row (w : World) c g : option Item :=
  table w SLATE_clusters !! (c, applications_key g c).

(** What group [g] may use on cluster [c]. *)
Definition applications (w : World) c g : gset string :=
  applications_of_row (applications_row w c g).

(** The rows are those the server writes, and a cached set is what the row means. *)
Record AppsInv (w : World) : Prop := {
  ai_rows : ∀ c g it, applications_row w c g = Some it →
    ∃ l, it !! "applications" = Some (AVSS l) ∧ NoDup l;
  ai_cache : ∀ c g r, cluster_id c → no_colon g →
    clusterGroupApplicationCache (clusters w) !! applications_key g c = Some r →
    CacheRecord.record r = applications w c g }.

Lemma quiet_applications w w' c g : quiet w w' → applications w' c g = applications w c g.
Proof.
  intros Hq. unfold applications, applications_row. by rewrite (proj1 (quiet_ro _ _ Hq)).
Qed.

Lemma quiet_AppsInv w w' : quiet w w' → AppsInv w → AppsInv w'.
Proof.
  intros Hq [Hr Hc]. split.
  - intros c g it. unfold applications_row. rewrite (proj1 (quiet_ro _ _ Hq)). apply Hr.
  - intros c g r Hcl Hg. rewrite (quiet_clusters _ _ Hq), (quiet_applications _ _ _ _ Hq).
    by apply Hc.
Qed.

Lemma applications_key_inj c g c' g' :
  no_colon c → no_colon c' → no_colon g → no_colon g' →
  applications_key g c = applications_key g' c' → c = c' ∧ g = g'.
Proof.
  unfold applications_key. intros Hc Hc' Hg Hg' Heq.
  apply str_split_colon in Heq as [-> Heq]; [|done..].
  apply (str_split_colon g g' "Applications" "Applications") in Heq as [-> _]; done.
Qed.

(** Decoding a row written by the server. *)
Lemma applications_of_item_ok w c g :
  AppsInv w →
  applications_of_item (default ∅ (applications_row w c g)) = Ok (applications w c g).
Proof.
  intros Hi. unfold applications, applications_of_item.
  destruct (applications_row w c g) as [it|] eqn:Hrow; simpl; [|by rewrite bool_decide_true].
  destruct (ai_rows _ Hi _ _ _ Hrow) as (l & Hl & _).
  rewrite bool_decide_false by (intros ->; by rewrite lookup_empty in Hl).
  unfold findOrThrow. by rewrite Hl.
Qed.

(** Caching the meaning of a row. *)
Lemma wp_cache_applications {B} c g allowed (k : unit → Store B) Q w :
  AppsInv w → cluster_id c → no_colon g → allowed = applications w c g →
  (∀ w', AppsInv w' → db w' = db w → wp (k tt) Q w') →
  wp (cache_applications (applications_key g c) allowed ≫= k) Q w.
Proof.
  intros [Hr Hc] Hcl Hg Ha Hk. unfold cache_applications.
  eapply wp_run; [reflexivity|]. apply Hk; [|done]. split; [done|].
  intros c' g' r Hcl' Hg'. simpl. unfold replaceCacheRecord. rewrite lookup_insert.
  case_decide as Heq; [|by apply Hc]. intros [= <-].
  apply applications_key_inj in Heq as [-> ->]; [done|apply Hcl|apply Hcl'|done..].
Qed.

(** What a group may use: the answer is the meaning of the stored record, or - the
    service being unavailable - nothing. *)
Lemma listApplications_spec g c w :
  AppsInv w → proper_group g → cluster_id c →
  wp (listApplicationsGroupMayUseOnCluster g c) (λ r w', AppsInv w' ∧ read_only w w' ∧
    ∃ s, r = Ok s ∧ (s = applications w c g ∨ (¬ healthy (db w) ∧ s = ∅))) w.
Proof.
  intros Hi Hp Hc. unfold listApplicationsGroupMayUseOnCluster.
  rewrite normalizeGroupID_proper by done. eapply wp_run; [reflexivity|].
  rewrite normalizeClusterID_id by apply Hc. eapply wp_run; [reflexivity|].
  assert (Hg : no_colon g) by apply Hp.
  apply wp_find_cached.
  { intros r w1 Hq Hr. split; [by eapply quiet_AppsInv|]. split; [apply Hq|].
    eexists. split; [done|]. left. by eapply ai_cache. }
  intros w1 Hq1. apply wp_databaseQuery. intros w2 Hq2.
  assert (Hq : quiet w w2) by by etrans. clear w1 Hq1 Hq2.
  apply wp_GetItem; [intros e w3 Hq3 Hh|intros w3 Hq3].
  { assert (Hq' : quiet w w3) by by etrans.
    split; [by eapply quiet_AppsInv|]. split; [apply Hq'|].
    eexists. split; [done|]. right. split; [|done]. intros Hd. by apply Hh, Hq. }
  assert (Hq' : quiet w w3) by by etrans.
  rewrite (proj1 (quiet_ro _ _ Hq)). fold (applications_row w c g).
  rewrite applications_of_item_ok by done. eapply wp_run; [reflexivity|].
  apply wp_cache_applications; [by eapply quiet_AppsInv|done..|by rewrite (quiet_applications _ _ _ _ Hq')|].
  intros w4 Hi4 Hdb. split; [done|]. split; [etrans; [apply Hq'|by apply read_only_db]|].
  eauto.
Qed.

(** The record of group [g] on cluster [c] becomes the set [s], the others stay. *)
Definition applications_changed c g (s : gset string) (w w' : World) : Prop :=
  (∀ t, t ≠ SLATE_clusters → table w' t = table w t) ∧
  applications w' c g = s ∧
  (∀ c' g', cluster_id c' → no_colon g' → (c', g') ≠ (c, g) →
     applications w' c' g' = applications w c' g').

(** Storing a set of names other than the mark of the empty set. *)
Lemma store_applications_spec c g allowed value w :
  AppsInv w → cluster_id c → no_colon g → NoDup value → value ≠ [] →
  ((allowed = ∅ ∧ value = [noApplications]) ∨
   (noApplications ∉ value ∧ allowed = list_to_set value)) →
  wp (store_applications c (applications_key g c) value allowed)
    (λ r w', AppsInv w' ∧ (healthy (db w) → healthy (db w')) ∧
      match r with
      | Ok true => applications_changed c g allowed w w'
      | Ok false => ¬ healthy (db w) ∧ ∀ t, table w' t = table w t
      | _ => False
      end) w.
Proof.
  intros Hi Hc Hg Hnd Hne Hv. unfold store_applications.
  set (it := applications_item c (applications_key g c) value).
  assert (Hmean : applications_of_row (Some it) = allowed).
  { unfold applications_of_row. change (it !! "applications") with (Some (AVSS value)).
    pose proof (GetSS_AVSS value Hnd) as Hp. cbv beta iota zeta.
    assert (Hset : (list_to_set (GetSS (AVSS value)) : gset string) = list_to_set value).
    { apply set_eq. intros x. by rewrite !elem_of_list_to_set, Hp. }
    rewrite Hset. destruct Hv as [[-> ->]|[Hn ->]].
    - by rewrite bool_decide_true by (apply elem_of_list_to_set; by left).
    - rewrite bool_decide_false; [done|]. by rewrite elem_of_list_to_set. }
  eapply (wp_PutItem _ _ (c, applications_key g c)); [by apply item_key_eq|..].
  - intros e w' Hq Hh. split; [by eapply quiet_AppsInv|].
    destruct (quiet_ro _ _ Hq) as [Ht Hd]. split_and!; done.
  - intros w' Hq Hh Ht. pose proof (table_set_same _ _ _ _ Ht) as Hct.
    assert (Hrow : ∀ c' g', applications_row w' c' g' =
      if decide ((c, applications_key g c) = (c', applications_key g' c'))
      then Some it else applications_row w c' g').
    { intros c' g'. unfold applications_row. by rewrite Hct, lookup_insert. }
    assert (Hother : ∀ c' g', cluster_id c' → no_colon g' → (c', g') ≠ (c, g) →
      applications w' c' g' = applications w c' g').
    { intros c' g' Hc' Hg' Hne'. unfold applications. rewrite Hrow.
      case_decide as Heq; [|done]. injection Heq as -> Heq.
      apply applications_key_inj in Heq as [_ ->]; [done|apply Hc'..|done|done]. }
    assert (Hthis : applications w' c g = allowed).
    { unfold applications. by rewrite Hrow, decide_True. }
    assert (Hclu : clusters w' = clusters w) by apply Hq.
    unfold cache_applications. eapply wp_run; [reflexivity|].
    split; [split|split; [done|]].
    + intros c' g' it'. change (applications_row _ c' g') with (applications_row w' c' g').
      rewrite Hrow. case_decide; [|by apply (ai_rows _ Hi)]. intros [= <-]. by exists value.
    + intros c' g' r Hc' Hg'. simpl. unfold replaceCacheRecord. rewrite Hclu, lookup_insert.
      change (applications _ c' g') with (applications w' c' g'). case_decide as Heq.
      * intros [= <-]. apply applications_key_inj in Heq as [-> ->];
          [by rewrite Hthis|apply Hc|apply Hc'|done..].
      * intros Hr. rewrite Hother; [by eapply ai_cache|done..|]. by intros [= -> ->].
    + split; [intros t Hne'; by eapply table_set_other|]. by split.
Qed.

Lemma applications_no_mark w c g : noApplications ∉ applications w c g.
Proof.
  unfold applications, applications_of_row.
  destruct (applications_row w c g) as [it|]; [|by rewrite elem_of_singleton].
  destruct (it !! "applications"); [|done]. by case_bool_decide.
Qed.

(** The names of the API: ["*"] stands for ["<all>"]. *)
Definition application_name app : string := if bool_decide (app = wildcard) then wildcardName else app.

(** The set after allowing [app]: allowing everything replaces the set, allowing
    one application when everything is allowed restricts it to that one. *)
Definition allow_result app (old : gset string) : gset string :=
  if bool_decide (app = wildcardName) then {[wildcardName]}
  else (if bool_decide (wildcardName ∈ old) then ∅ else old) ∪ {[app]}.

Definition deny_result app (old : gset string) : option (gset string) :=
  if bool_decide (app = wildcardName) then Some ∅
  else if bool_decide (wildcardName ∈ old) then None
  else if bool_decide (app ∈ old) then Some (old ∖ {[app]}) else None.

(** The set the operation starts from: that of the record or, when the record
    cannot be read, nothing. *)
Definition fetched w c g (old : gset string) : Prop :=
  old = applications w c g ∨ (¬ healthy (db w) ∧ old = ∅).

Lemma fetched_no_mark w c g old : fetched w c g old → noApplications ∉ old.
Proof. intros [->|[_ ->]]; [apply applications_no_mark|done]. Qed.

Lemma elements_list_to_set (s : gset string) : list_to_set (elements s) = s.
Proof. apply set_eq. intros x. by rewrite elem_of_list_to_set, elem_of_elements. Qed.

Lemma allowVoToUseApplication_spec g c app w :
  AppsInv w → proper_group g → cluster_id c → app ≠ noApplications →
  wp (allowVoToUseApplication g c app) (λ r w', AppsInv w' ∧
    (healthy (db w) → healthy (db w')) ∧ ∃ old, fetched w c g old ∧
    match r with
    | Ok true => applications_changed c g (allow_result (application_name app) old) w w'
    | Ok false => ¬ healthy (db w) ∧ ∀ t, table w' t = table w t
    | _ => False
    end) w.
Proof.
  intros Hi Hp Hc Happ. unfold allowVoToUseApplication.
  rewrite normalizeGroupID_proper by done. eapply wp_run; [reflexivity|].
  rewrite normalizeClusterID_id by apply Hc. eapply wp_run; [reflexivity|].
  eapply wp_seq; [by apply listApplications_spec| |
    by intros e w' (_ & _ & b & [=] & _)|by intros w' (_ & _ & b & [=] & _)].
  intros old w1 (Hi1 & Hro & s & [= <-] & Hold).
  fold (application_name app).
  assert (Hname : application_name app ≠ noApplications).
  { unfold application_name. by case_bool_decide. }
  set (allowed := if bool_decide (application_name app = wildcardName) then {[wildcardName]}
    else (if bool_decide (wildcardName ∈ old) then ∅ else old) ∪ {[application_name app]} : gset string).
  assert (Hmark : noApplications ∉ allowed).
  { pose proof (fetched_no_mark _ _ _ _ Hold). unfold allowed.
    repeat case_bool_decide; rewrite ?elem_of_union, ?elem_of_singleton; [done|..].
    - intros [?|?]; [set_solver|congruence].
    - intros [?|?]; [done|congruence]. }
  assert (Hne : elements allowed ≠ []).
  { intros Hn%elements_empty_inv. unfold allowed in Hn. case_bool_decide; set_solver. }
  eapply wp_mono, (store_applications_spec c g allowed (elements allowed));
    [|done|done|apply Hp|apply NoDup_elements|done|].
  2: { right. by rewrite elem_of_elements, elements_list_to_set. }
  intros r w2 (Hi2 & Hh & Hr). split; [done|]. split; [intros Hd; by apply Hh, Hro|].
  exists old. split; [done|]. destruct r as [[]| |]; [|destruct Hr as [Hn Ht]|done..].
  - destruct Hr as (Ht & Hs & Ho). split; [|split; [exact Hs|]].
    + intros t Hne'. by rewrite Ht, (proj1 Hro).
    + intros c' g' Hc' Hg' Hne'. rewrite Ho by done. unfold applications, applications_row.
      by rewrite (proj1 Hro).
  - split; [intros Hd; by apply Hn, Hro|]. intros t. by rewrite Ht, (proj1 Hro).
Qed.

Lemma denyGroupUseOfApplication_spec g c app w :
  AppsInv w → proper_group g → cluster_id c → 
  wp (denyGroupUseOfApplication g c app) (λ r w', AppsInv w' ∧
    (healthy (db w) → healthy (db w')) ∧ ∃ old, fetched w c g old ∧
    match r, deny_result (application_name app) old with
    | Ok true, Some s => applications_changed c g s w w'
    | Ok false, Some s => ¬ healthy (db w) ∧ ∀ t, table w' t = table w t
    | Ok false, None => ∀ t, table w' t = table w t
    | _, _ => False
    end) w.
Proof.
  intros Hi Hp Hc. unfold denyGroupUseOfApplication.
  rewrite normalizeGroupID_proper by done. eapply wp_run; [reflexivity|].
  rewrite normalizeClusterID_id by apply Hc. eapply wp_run; [reflexivity|].
  eapply wp_seq; [by apply listApplications_spec| |
    by intros e w' (_ & _ & b & [=] & _)|by intros w' (_ & _ & b & [=] & _)].
  intros old w1 (Hi1 & Hro & s & [= <-] & Hold).
  fold (application_name app).
  assert (Hstore : ∀ allowed : gset string, noApplications ∉ allowed →
    deny_result (application_name app) old = Some allowed →
    wp (store_applications c (applications_key g c)
          (if bool_decide (allowed = ∅) then [noApplications] else elements allowed) allowed)
      (λ r w', AppsInv w' ∧
        (healthy (db w) → healthy (db w')) ∧ ∃ old, fetched w c g old ∧
        match r, deny_result (application_name app) old with
        | Ok true, Some s => applications_changed c g s w w'
        | Ok false, Some s => ¬ healthy (db w) ∧ ∀ t, table w' t = table w t
        | Ok false, None => ∀ t, table w' t = table w t
        | _, _ => False
        end) w1).
  { intros allowed Hmark Hres. eapply wp_mono, (store_applications_spec c g allowed);
      [|done|done|apply Hp| | |].
    - intros r w2 (Hi2 & Hh & Hr). split; [done|]. split; [intros Hd; by apply Hh, Hro|].
      exists old. split; [done|]. rewrite Hres.
      destruct r as [[]| |]; [|destruct Hr as [Hn Ht]|done..].
      + destruct Hr as (Ht & Hs & Ho). split; [|split; [exact Hs|]].
        * intros t Hne'. by rewrite Ht, (proj1 Hro).
        * intros c' g' Hc' Hg' Hne'. rewrite Ho by done. unfold applications, applications_row.
          by rewrite (proj1 Hro).
      + split; [intros Hd; by apply Hn, Hro|]. intros t. by rewrite Ht, (proj1 Hro).
    - case_bool_decide; [apply NoDup_singleton|apply NoDup_elements].
    - case_bool_decide as Hem; [done|]. by intros Hn%elements_empty_inv%leibniz_equiv.
    - case_bool_decide; [by left|right].
      by rewrite elem_of_elements, elements_list_to_set. }
  assert (Hsame : deny_result (application_name app) old = None →
    AppsInv w1 ∧ (healthy (db w) → healthy (db w1)) ∧ ∃ old, fetched w c g old ∧
    match deny_result (application_name app) old with
    | Some s => ¬ healthy (db w) ∧ ∀ t, table w1 t = table w t
    | None => ∀ t, table w1 t = table w t
    end).
  { intros Hn. split; [done|]. split; [apply Hro|]. exists old. rewrite Hn.
    split; [done|apply Hro]. }
  pose proof (fetched_no_mark _ _ _ _ Hold) as Hmark.
  unfold deny_result in Hstore, Hsame |- *.
  case_bool_decide; [by apply Hstore|]. case_bool_decide; [by apply Hsame|].
  case_bool_decide; simpl; [|by apply Hsame]. apply Hstore; set_solver.
Qed.

Lemma groupMayUseApplication_spec g c app w :
  AppsInv w → proper_group g → cluster_id c →
  wp (groupMayUseApplication g c app) (λ r w', AppsInv w' ∧ read_only w w' ∧
    ∃ b, r = Ok b ∧
    (b = true → wildcardName ∈ applications w c g ∨ app ∈ applications w c g) ∧
    (b = false → healthy (db w) →
       wildcardName ∉ applications w c g ∧ app ∉ applications w c g)) w.
Proof.
  intros Hi Hp Hc. unfold groupMayUseApplication.
  eapply wp_seq; [by apply listApplications_spec| |
    by intros e w' (_ & _ & b & [=] & _)|by intros w' (_ & _ & b & [=] & _)].
  intros old w1 (Hi1 & Hro & s & [= <-] & Hold).
  case_bool_decide as Hall; (split; [done|]; split; [done|]; eexists; split; [done|]).
  - split; [|done]. intros _. left. by destruct Hold as [<-|[_ ->]].
  - rewrite bool_decide_eq_true, bool_decide_eq_false. split.
    + intros Ha. right. by destruct Hold as [<-|[_ ->]].
    + intros Ha Hd. by destruct Hold as [<-|[? _]].
Qed.
End applications_invariant.

(** * Properties *)

Section access_theorems.
Context `{D : Dynamo} `{P : Platform} `{L : !DynamoLaws}.

(** A group is allowed on a cluster only if the database has a grant for it or
    for everyone, whatever positive and negative answers are cached; it is refused
    only if there is no such grant, if the service failed, or if the cached grant
    for everyone expires between two readings of the clock. *)
Theorem groupAllowedOnCluster_correct (groupID cID : string) (w : World) :
  AccessInv w → proper_group groupID → begins_with groupID groupIDPrefix = true →
  begins_with cID clusterIDPrefix = true →
  wp (groupAllowedOnCluster groupID cID)
    (access_answer AccessInv (λ w, allowed w cID groupID) (λ w, grant_expiring w cID) w) w.
Proof. apply groupAllowedOnCluster_spec. Qed.

(** Granting and revoking the access of a group (or of everyone) to a cluster
    change that grant alone and keep the cache of positive and negative answers in
    agreement with the database; [false] means that the service refused. *)
Theorem grant_changes_correct (groupID cID : string) (w : World) :
  AccessInv w → proper_group groupID → begins_with cID clusterIDPrefix = true →
  wp (addGroupToCluster groupID cID) (grant_post cID groupID true w) w ∧
  wp (removeGroupFromCluster groupID cID) (grant_post cID groupID false w) w.
Proof. split; [by apply addGroupToCluster_spec|by apply removeGroupFromCluster_spec]. Qed.

(** Once the access of a group has been revoked, and unless everyone has access,
    the group is refused; once it has been granted, and no cached grant for everyone
    is expiring, the group is allowed. *)
Theorem grant_takes_effect (groupID cID : string) (w w1 w2 : World) :
  AccessInv w → healthy (db w) → proper_group groupID →
  begins_with groupID groupIDPrefix = true → begins_with cID clusterIDPrefix = true →
  removeGroupFromCluster groupID cID w = (Ok true, w1) →
  addGroupToCluster groupID cID w = (Ok true, w2) →
  (¬ granted w cID wildcard → (groupAllowedOnCluster groupID cID w1).1 = Ok false) ∧
  (¬ grant_expiring w2 cID → (groupAllowedOnCluster groupID cID w2).1 = Ok true).
Proof.
  intros Hi Hd Hp Hg Hc H1 H2.
  pose proof (removeGroupFromCluster_spec groupID cID w Hi Hp Hc) as S1.
  pose proof (addGroupToCluster_spec groupID cID w Hi Hp Hc) as S2. unfold wp in S1, S2.
  rewrite H1 in S1. rewrite H2 in S2. simpl in *.
  destruct S1 as (Hi1 & _ & _ & G1). destruct S2 as (Hi2 & Hd2 & _ & G2). split.
  - intros Hw. destruct (groupAllowedOnCluster_spec groupID cID w1 Hi1 Hp Hg Hc)
      as (_ & _ & b & Hb & Hyes & _). rewrite Hb. destruct b; [|done].
    destruct (Hyes eq_refl) as [Ha|Ha]; apply G1 in Ha.
    + rewrite decide_False in Ha; [done|]. intros [_ Heq]. by rewrite <- Heq in Hg.
    + by rewrite decide_True in Ha.
  - intros Hn. destruct (groupAllowedOnCluster_spec groupID cID w2 Hi2 Hp Hg Hc)
      as (_ & _ & b & Hb & _ & Hno). rewrite Hb. destruct b; [done|].
    destruct (Hno eq_refl (Hd2 Hd)) as [Ha|Ha]; [|done]. destruct Ha. right. apply G2.
    by rewrite decide_True.
Qed.

(** A group may use an application on a cluster only if its record there lists
    the application or allows everything (no record at all does); when it is
    refused, the record does not, or the service failed. *)
Theorem groupMayUseApplication_correct (groupID cID app : string) (w : World) :
  AppsInv w → proper_group groupID → cluster_id cID →
  wp (groupMayUseApplication groupID cID app) (λ r w', AppsInv w' ∧ read_only w w' ∧
    ∃ b, r = Ok b ∧
    (b = true → wildcardName ∈ applications w cID groupID ∨ app ∈ applications w cID groupID) ∧
    (b = false → healthy (db w) →
       wildcardName ∉ applications w cID groupID ∧ app ∉ applications w cID groupID)) w.
Proof. apply groupMayUseApplication_spec. Qed.

(** Allowing and denying an application turn the set of applications of that
    group on that cluster into the intended one, leave the other sets and tables
    alone and keep the cache in agreement; the mark of an empty set is never read
    back as an application. The new set is computed from the stored one or, if
    reading it failed, from the empty set. *)
Theorem application_changes_correct (groupID cID app : string) (w : World) :
  AppsInv w → proper_group groupID → cluster_id cID → app ≠ noApplications →
  wp (allowVoToUseApplication groupID cID app) (λ r w', AppsInv w' ∧
    (healthy (db w) → healthy (db w')) ∧ ∃ old, fetched w cID groupID old ∧
    match r with
    | Ok true =>
        applications_changed cID groupID (allow_result (application_name app) old) w w'
    | Ok false => ¬ healthy (db w) ∧ ∀ t, table w' t = table w t
    | _ => False
    end) w ∧
  wp (denyGroupUseOfApplication groupID cID app) (λ r w', AppsInv w' ∧
    (healthy (db w) → healthy (db w')) ∧ ∃ old, fetched w cID groupID old ∧
    match r, deny_result (application_name app) old with
    | Ok true, Some s => applications_changed cID groupID s w w'
    | Ok false, Some s => ¬ healthy (db w) ∧ ∀ t, table w' t = table w t
    | Ok false, None => ∀ t, table w' t = table w t
    | _, _ => False
    end) w.
Proof.
  split; [by apply allowVoToUseApplication_spec|by apply denyGroupUseOfApplication_spec].
Qed.

(** An application that has been allowed may be used at once; an application
    that has been denied may not. *)
Theorem application_permission_takes_effect (groupID cID app : string) (w w1 w2 : World) :
  AppsInv w → healthy (db w) → proper_group groupID → cluster_id cID →
  app ≠ noApplications → app ≠ wildcard → app ≠ wildcardName →
  allowVoToUseApplication groupID cID app w = (Ok true, w1) →
  denyGroupUseOfApplication groupID cID app w = (Ok true, w2) →
  (groupMayUseApplication groupID cID app w1).1 = Ok true ∧
  (groupMayUseApplication groupID cID app w2).1 = Ok false.
Proof.
  intros Hi Hd Hp Hc Ha Hw Hn H1 H2.
  pose proof (allowVoToUseApplication_spec groupID cID app w Hi Hp Hc Ha) as S1.
  pose proof (denyGroupUseOfApplication_spec groupID cID app w Hi Hp Hc) as S2.
  unfold wp in S1, S2. rewrite H1 in S1. rewrite H2 in S2. simpl in *.
  assert (Hname : application_name app = app) by (unfold application_name; by case_bool_decide).
  rewrite Hname in *.
  destruct S1 as (Hi1 & Hd1 & old & _ & _ & Hs1 & _).
  destruct S2 as (Hi2 & _ & old2 & _ & S2). split.
  - destruct (groupMayUseApplication_spec groupID cID app w1 Hi1 Hp Hc)
      as (_ & _ & b & Hb & _ & Hno). rewrite Hb. destruct b; [done|].
    destruct (Hno eq_refl (Hd1 Hd)) as [_ []]. rewrite Hs1. unfold allow_result.
    rewrite bool_decide_false by done. set_solver.
  - destruct (groupMayUseApplication_spec groupID cID app w2 Hi2 Hp Hc)
      as (_ & _ & b & Hb & Hyes & _). rewrite Hb. destruct b; [|done].
    unfold deny_result in S2. rewrite bool_decide_false in S2 by done.
    case_bool_decide as Hall; [done|]. case_bool_decide as Hin; [|done].
    destruct S2 as (_ & Hs2 & _). rewrite Hs2 in Hyes. set_solver.
Qed.
End access_theorems.

Section access_witnesses.
Import Demo.

Lemma empty_AccessInv : AccessInv empty.
Proof. intros c v Hv. unfold access_cached in Hv. simpl in Hv. done. Qed.

Lemma empty_AppsInv : AppsInv empty.
Proof. split; [intros c g it Hit|intros c g r _ _ Hr]; done. Qed.

Lemma demo_proper : proper_group "group_1".
Proof. split; [by right|]. split; [done|]. by apply str_back_ne. Qed.

(** A grant, and an application the group may use. *)
Definition demo_access : World := (addGroupToCluster "group_1" "cluster_1" empty).2.
Definition demo_apps : World :=
  (allowVoToUseApplication "group_1" "cluster_1" "nginx" empty).2.

Lemma demo_access_inv : AccessInv demo_access.
Proof.
  by apply addGroupToCluster_spec; [apply empty_AccessInv|apply demo_proper|].
Qed.

Lemma demo_cluster_id : cluster_id "cluster_1".
Proof. done. Qed.

Lemma demo_apps_inv : AppsInv demo_apps.
Proof.
  by apply allowVoToUseApplication_spec; [apply empty_AppsInv|apply demo_proper|..].
Qed.

Lemma groupAllowedOnCluster_witness :
  AccessInv (groupAllowedOnCluster "group_1" "cluster_1" demo_access).2 ∧
  (groupAllowedOnCluster "group_1" "cluster_1" demo_access).1 = Ok true.
Proof.
  split; [|vm_compute; reflexivity].
  exact (proj1 (groupAllowedOnCluster_correct "group_1" "cluster_1" demo_access
    demo_access_inv demo_proper eq_refl eq_refl)).
Defined.

Lemma grant_changes_witness :
  wp (removeGroupFromCluster "group_1" "cluster_1")
    (grant_post "cluster_1" "group_1" false demo_access) demo_access ∧
  (removeGroupFromCluster "group_1" "cluster_1" demo_access).1 = Ok true.
Proof.
  split; [|vm_compute; reflexivity].
  exact (proj2 (grant_changes_correct "group_1" "cluster_1" demo_access
    demo_access_inv demo_proper eq_refl)).
Defined.

Lemma grant_takes_effect_witness :
  (groupAllowedOnCluster "group_1" "cluster_1" demo_access).1 = Ok true ∧
  (groupAllowedOnCluster "group_1" "cluster_1"
     (removeGroupFromCluster "group_1" "cluster_1" demo_access).2).1 = Ok false.
Proof.
  split; [vm_compute; reflexivity|].
  refine (proj1 (grant_takes_effect "group_1" "cluster_1" demo_access _
    (addGroupToCluster "group_1" "cluster_1" demo_access).2
    demo_access_inv _ demo_proper eq_refl eq_refl _ _) _).
  - vm_compute. reflexivity.
  - apply run_result. vm_compute. reflexivity.
  - apply run_result. vm_compute. reflexivity.
  - unfold granted. intros H. apply is_Some_alt in H. by vm_compute in H.
Defined.

Lemma groupMayUseApplication_witness :
  AppsInv (groupMayUseApplication "group_1" "cluster_1" "nginx" demo_apps).2 ∧
  (groupMayUseApplication "group_1" "cluster_1" "nginx" demo_apps).1 = Ok true ∧
  (groupMayUseApplication "group_1" "cluster_1" "redis" demo_apps).1 = Ok false.
Proof.
  split; [|split; vm_compute; reflexivity].
  exact (proj1 (groupMayUseApplication_correct "group_1" "cluster_1" "nginx" demo_apps
    demo_apps_inv demo_proper demo_cluster_id)).
Defined.

Lemma application_changes_witness :
  AppsInv (allowVoToUseApplication "group_1" "cluster_1" "redis" demo_apps).2 ∧
  (allowVoToUseApplication "group_1" "cluster_1" "redis" demo_apps).1 = Ok true.
Proof.
  split; [|vm_compute; reflexivity].
  exact (proj1 (proj1 (application_changes_correct "group_1" "cluster_1" "redis" demo_apps
    demo_apps_inv demo_proper demo_cluster_id ltac:(done)))).
Defined.

Lemma application_permission_witness :
  (groupMayUseApplication "group_1" "cluster_1" "nginx"
     (denyGroupUseOfApplication "group_1" "cluster_1" "nginx" demo_apps).2).1 = Ok false.
Proof.
  refine (proj2 (application_permission_takes_effect "group_1" "cluster_1" "nginx" demo_apps
    (allowVoToUseApplication "group_1" "cluster_1" "nginx" demo_apps).2 _
    demo_apps_inv _ demo_proper demo_cluster_id _ _ _ _ _)).
  - vm_compute. reflexivity.
  - done.
  - done.
  - done.
  - apply run_result. vm_compute. reflexivity.
  - apply run_result. vm_compute. reflexivity.
Defined.
End access_witnesses.
