(* ===== verification/Staleness.v ===== *)
(** Several servers on one database: a server goes on answering from its caches after
    another has changed the database. What it answers is right again once what it had
    cached has expired, whatever that was. *)

From S2P Require Import Prelude Entities Cache Dynamo Store Demo StoreGroups StoreUsers.
From S2P Require Import StoreClusters StoreAccess.

(** * Questions about access *)

Section access.
Context `{D : Dynamo} `{P : Platform} `{L : !DynamoLaws} `{CL : !ClockLaws}.
Implicit Types (c g v : string) (T : Z).

(** What a cached value says about the table. *)
Definition tells (w : World) c v : Prop :=
  (proper_group v → granted w c v) ∧ (∀ g, v = negative g → proper_group g → ¬ granted w c g).

(** What is cached about a cluster is right, or expires before [T]. *)
Definition aged T (w : World) c : Prop :=
  ∀ r, r ∈ (mm_find c (clusterGroupAccessCache (clusters w))).1 →
    (CacheRecord.expirationTime r < T)%Z ∨ tells w c (CacheRecord.record r).

Lemma tells_tables w w' c v : (∀ t, table w' t = table w t) → tells w c v → tells w' c v.
Proof. intros Ht. unfold tells, granted. by rewrite Ht. Qed.

Lemma aged_quiet T w w' c : quiet w w' → aged T w c → aged T w' c.
Proof.
  intros Hq Ha r. rewrite (quiet_clusters _ _ Hq). intros [?|Ht]%Ha; [by left|right].
  eapply tells_tables, Ht. apply (quiet_ro _ _ Hq).
Qed.

(** A hit after [T] is right. *)
Lemma aged_hit T w c v r :
  aged T w c → mm_find_val c (CacheRecord.stale v) (clusterGroupAccessCache (clusters w)) = Some r →
  (T ≤ CacheRecord.expirationTime r)%Z → tells w c v.
Proof.
  intros Ha Hr Ht. unfold mm_find_val in Hr.
  destruct (clusterGroupAccessCache (clusters w) !! c) as [[s t]|] eqn:Hs; [|done].
  apply set_find_some in Hr as [Hin Heq]. unfold cpp_eq, CacheRecord.eqb, cpp_eq, string_eq, eq_on in Heq.
  simpl in Heq. apply bool_decide_eq_true in Heq as ->.
  destruct (Ha r) as [Hlt|Htell]; [by unfold mm_find; rewrite Hs|lia|done].
Qed.

(** Caching what is right. *)
Lemma aged_insert T w c v time exp :
  aged T w c → tells w c v →
  aged T (upd_clusters (upd_clusterGroupAccessCache
    (λ m, (mm_insert_or_assign time c (CacheRecord.mk v exp) m).2)) w) c.
Proof.
  intros Ha Hv r. simpl. unfold mm_find, mm_insert_or_assign.
  destruct (clusterGroupAccessCache (clusters w) !! c) as [[s t]|] eqn:Hs; simpl;
    rewrite lookup_insert_eq; simpl.
  - intros Hr. assert (r ∈ s ∨ r = CacheRecord.mk v exp) as [Hin| ->].
    { apply elem_of_set_emplace in Hr as [->|Hr]; [by right|left].
      destruct (set_has _ s); [by apply elem_of_set_erase in Hr as [_ ?]|done]. }
    + destruct (Ha r) as [?|?]; [by unfold mm_find; rewrite Hs|by left|by right].
    + by right.
  - intros ->%list_elem_of_singleton. by right.
Qed.

Lemma wp_aged_cache_access {B} T c v (k : unit → Store B) Q w :
  aged T w c → tells w c v →
  (∀ w', aged T w' c → db w' = db w → ticks w ≤ ticks w' → wp (k tt) Q w') →
  wp (cache_access c v ≫= k) Q w.
Proof.
  intros Ha Hv Hk. unfold cache_access. eapply wp_run; [reflexivity|]. apply Hk; [|done|simpl; lia].
  apply (aged_insert T (upd_ticks S (upd_ticks S w))); [|exact Hv]. exact Ha.
Qed.

(** Looking for a cached value after [T]. *)
Lemma wp_aged_find T c v (k : bool → Store bool) Q w :
  aged T w c → (T ≤ steady (ticks w))%Z →
  (∀ w', quiet w w' → tells w c v → wp (k true) Q w') → (∀ w', quiet w w' → wp (k false) Q w') →
  wp (find_cached_val (λ w, clusterGroupAccessCache (clusters w)) c v ≫= k) Q w.
Proof.
  intros Ha Ht Hs Hn.
  destruct (mm_find_val c (CacheRecord.stale v) (clusterGroupAccessCache (clusters w))) as [r|] eqn:Hr.
  - destruct (CacheRecord.to_bool (steady (ticks w)) r) eqn:Hv.
    + eapply wp_run; [|apply Hs].
      * unfold find_cached_val, record_valid, mbind, M_bind, gets, now. simpl.
        rewrite Hr. simpl. by rewrite Hv.
      * etrans; [apply quiet_tick|apply quiet_stats].
      * eapply aged_hit; [done|exact Hr|]. unfold CacheRecord.to_bool in Hv. lia.
    + eapply wp_run; [|apply Hn].
      * unfold find_cached_val, record_valid, mbind, M_bind, gets, now. simpl.
        rewrite Hr. simpl. by rewrite Hv.
      * apply quiet_tick.
  - eapply wp_run; [|by apply Hn].
    unfold find_cached_val, mbind, M_bind, gets. simpl. by rewrite Hr.
Qed.

(** The answer is that of the table. *)
Definition truth T c (yes : World → Prop) (w : World) (r : Res bool) (w' : World) : Prop :=
  aged T w' c ∧ read_only w w' ∧ ticks w ≤ ticks w' ∧ ∃ b, r = Ok b ∧ (b = true ↔ yes w).

Lemma fetch_access_truth T c g w :
  aged T w c → healthy (db w) → proper_group g →
  wp (fetch_access c g) (truth T c (λ w, granted w c g) w) w.
Proof.
  intros Ha Hd Hg. unfold fetch_access. apply wp_databaseQuery. intros w1 Hq1.
  apply wp_GetItem; [intros e w2 _ []; by apply Hq1|intros w2 Hq2].
  assert (Hq : quiet w w2) by by etrans. rewrite (proj1 (quiet_ro _ _ Hq1)).
  assert (Ht2 : ticks w ≤ ticks w2) by by apply quiet_ticks.
  assert (Ha2 : aged T w2 c) by by eapply aged_quiet.
  assert (Hsame : ∀ g, granted w2 c g ↔ granted w c g) by (intros; by apply quiet_granted).
  case_bool_decide as Hrow; apply (wp_aged_cache_access T); try done.
  - apply row_empty in Hrow. split; [intros [_ [_ Hn]]; by destruct (Hn g)|].
    intros g' <-%negative_inj _. by rewrite Hsame.
  - intros w3 Ha3 Hdb Ht3. apply wp_ret. split; [done|]. apply row_empty in Hrow.
    split; [etrans; [apply Hq|by apply read_only_db]|]. split; [lia|]. by exists false.
  - rewrite row_empty in Hrow. apply dec_stable in Hrow. split; [intros _; by apply Hsame|].
    intros g' ->. destruct Hg as (_ & _ & Hn). by destruct (Hn g').
  - intros w3 Ha3 Hdb Ht3. apply wp_ret. rewrite row_empty in Hrow. apply dec_stable in Hrow. split; [done|].
    split; [etrans; [apply Hq|by apply read_only_db]|]. split; [lia|]. by exists true.
Qed.

Lemma truth_mono T c yes1 yes w w1 r w' :
  read_only w w1 → ticks w ≤ ticks w1 → (yes1 w1 ↔ yes w) →
  truth T c yes1 w1 r w' → truth T c yes w r w'.
Proof.
  intros Hro Ht Hy (Ha & Hro' & Ht' & b & -> & Hb). split; [done|]. split; [by etrans|].
  split; [lia|]. exists b. split; [done|]. by rewrite Hb.
Qed.

Lemma later T w w' : ticks w ≤ ticks w' → (T ≤ steady (ticks w))%Z → (T ≤ steady (ticks w'))%Z.
Proof. intros Ht%steady_mono. lia. Qed.

(** The grant for everyone: a cached one that is still valid is looked at twice. *)
Lemma clusterAllowsAllGroups_truth T c w :
  aged T w c → (T ≤ steady (ticks w))%Z → healthy (db w) →
  (∀ r, mm_find_val c (CacheRecord.stale wildcard) (clusterGroupAccessCache (clusters w)) = Some r →
     (CacheRecord.expirationTime r < steady (ticks w))%Z) →
  wp (clusterAllowsAllGroups c) (truth T c (λ w, granted w c wildcard) w) w.
Proof.
  intros Ha HT Hd Hw. unfold clusterAllowsAllGroups. apply wp_gets.
  assert (Hrest : ∀ w1, quiet w w1 →
    wp (known ← find_cached_val (λ w, clusterGroupAccessCache (clusters w)) c (negative wildcard);
        if known : bool then mret false else fetch_access c wildcard)
      (truth T c (λ w, granted w c wildcard) w) w1).
  { intros w1 Hq1. apply (wp_aged_find T); [by eapply aged_quiet| | |].
    - eapply later, HT. by apply quiet_ticks.
    - intros w2 Hq2 [_ Hn]. apply wp_ret. assert (Hq : quiet w w2) by by etrans.
      split; [by eapply aged_quiet|]. split; [apply Hq|]. split; [by apply quiet_ticks|].
      exists false. split; [done|]. split; [done|]. intros Hg.
      destruct (Hn wildcard); [done|apply proper_wildcard|]. by apply (quiet_granted w w1).
    - intros w2 Hq2. assert (Hq : quiet w w2) by by etrans.
      eapply wp_mono, fetch_access_truth; [|by eapply aged_quiet|by apply Hq|apply proper_wildcard].
      intros r w3. apply truth_mono; [apply Hq|by apply quiet_ticks|by apply quiet_granted]. }
  destruct (mm_find_val c _ _) as [r|] eqn:Hr; [|by eapply wp_run; [reflexivity|apply Hrest]].
  eapply (wp_run _ _ _ _ None (upd_ticks S w)); [|apply Hrest, quiet_tick].
  unfold record_valid, mbind, M_bind, now. simpl.
  replace (CacheRecord.to_bool _ r) with false; [done|]. symmetry.
  unfold CacheRecord.to_bool. specialize (Hw r eq_refl). lia.
Qed.

Lemma groupAllowedOnCluster_truth T c g w :
  aged T w c → (T ≤ steady (ticks w))%Z → healthy (db w) →
  (∀ r, mm_find_val c (CacheRecord.stale wildcard) (clusterGroupAccessCache (clusters w)) = Some r →
     (CacheRecord.expirationTime r < steady (ticks w))%Z) →
  proper_group g → begins_with g groupIDPrefix = true → begins_with c clusterIDPrefix = true →
  wp (groupAllowedOnCluster g c) (truth T c (λ w, allowed w c g) w) w.
Proof.
  intros Ha HT Hd Hw Hp Hg Hc. unfold groupAllowedOnCluster. rewrite normalizeGroupID_id by done.
  eapply wp_run; [reflexivity|]. rewrite normalizeClusterID_id by done.
  eapply wp_run; [reflexivity|].
  eapply wp_seq; [by apply clusterAllowsAllGroups_truth| |
    by intros e w' (_ & _ & _ & b & [=] & _)|by intros w' (_ & _ & _ & b & [=] & _)].
  intros all w1 (Ha1 & Hro & Ht1 & b & [= <-] & Hall).
  assert (HT1 : (T ≤ steady (ticks w1))%Z) by by eapply later.
  assert (Hgr : ∀ w2, quiet w1 w2 → granted w2 c g ↔ granted w c g).
  { intros w2 Hq. rewrite (quiet_granted _ _ _ _ Hq). unfold granted. by rewrite (proj1 Hro). }
  assert (Hend : ∀ w2 b, quiet w1 w2 → (b = true ↔ allowed w c g) →
    truth T c (λ w, allowed w c g) w (Ok b) w2).
  { intros w2 b Hq Hb. split; [by eapply aged_quiet|]. split; [etrans; [done|apply Hq]|].
    split; [apply quiet_ticks in Hq; lia|]. eauto. }
  destruct all.
  { apply wp_ret, Hend; [done|]. split; [left; by apply Hall|done]. }
  assert (Hno : ¬ granted w c wildcard) by (intros Hx; by apply Hall in Hx).
  assert (Hal : allowed w c g ↔ granted w c g) by (unfold allowed; tauto).
  apply (wp_aged_find T); [done|done| |].
  { intros w2 Hq2 [Hy _]. apply wp_ret, Hend; [done|]. rewrite Hal, <- (Hgr w1) by done.
    split; [intros _; by apply Hy|done]. }
  intros w2 Hq2. apply (wp_aged_find T); [by eapply aged_quiet|by eapply later, HT1; apply quiet_ticks| |].
  { intros w3 Hq3 [_ Hn]. apply wp_ret, Hend; [by etrans|]. rewrite Hal, <- (Hgr w2) by done.
    split; [done|]. intros Hx. by destruct (Hn g). }
  intros w3 Hq3. assert (Hq : quiet w1 w3) by by etrans.
  eapply wp_mono, fetch_access_truth; [|by eapply aged_quiet| |done].
  - intros r w4. apply truth_mono.
    + etrans; [done|apply Hq].
    + apply quiet_ticks in Hq. lia.
    + rewrite Hal. by apply Hgr.
  - apply Hq, Hro, Hd.
Qed.
End access.

(** * Authentication *)

Section tokens.
Context `{D : Dynamo} `{P : Platform} `{L : !DynamoLaws} `{CL : !ClockLaws}.

(** The server with nothing cached about users, as after a restart. *)
Definition forget_users (w : World) : World :=
  upd_users (λ _, mkUserCaches 0 ∅ ∅ ∅ ∅) w.

(** A computation that does not depend on the clock or the caches of users. *)
Lemma wp_transfer {A} (m : Store A) (Q : Res A → Prop) w w' :
  wp m (λ r _, Q r) w → (m w').1 = (m w).1 → wp m (λ r _, Q r) w'.
Proof. unfold wp. by intros HQ ->. Qed.

(** After a lookup by token that found nothing cached, only the database matters. *)
Definition from_database (token : string) : Store User.t :=
  _ ← databaseQuery;
  outcome ← request (Query SLATE_users (Some "ByToken") (mkKC "token" (AVS token) None) ETrue);
  match outcome with
  | inl err => mret User.none
  | inr [] => mret User.none
  | inr [item] =>
      user ← lift (user_of_item (user_attr item "ID") (user_attr item "name")
               (user_attr item "email") (Ok token) (user_attr item "globusID")
               (user_admin item) item);
      _ ← cache_user user;
      mret user
  | inr _ => throw ("Multiple user records are associated with token " +:+ token +:+ "!")
  end.

Lemma from_database_same token w w' :
  db w' = db w → (from_database token w').1 = (from_database token w).1.
Proof.
  intros Hdb. unfold from_database, databaseQuery, request, mbind, M_bind, modify. simpl.
  rewrite Hdb. destruct (Query _ _ _ _ (db w)) as [[e|[|it [|it2 its]]] d']; simpl; try done.
  unfold lift. by destruct (user_of_item _ _ _ _ _ _ _).
Qed.

(** An expired record is as good as none. *)
Lemma find_cached_miss {T} (cache : World → gmap string (CacheRecord.t T)) k w :
  (∀ r, cache w !! k = Some r → (CacheRecord.expirationTime r < steady (ticks w))%Z) →
  ∃ w1, find_cached cache k w = (Ok None, w1) ∧ db w1 = db w.
Proof.
  intros Hr. unfold find_cached, record_valid, mbind, M_bind, gets, now.
  destruct (cache w !! k) as [r|] eqn:Hc; [|by eexists].
  assert (Hv : CacheRecord.to_bool (steady (ticks w)) r = false).
  { unfold CacheRecord.to_bool. specialize (Hr r eq_refl). lia. }
  simpl. rewrite Hv. by eexists.
Qed.

Lemma findUserByToken_miss token w :
  (∀ r, userByTokenCache (users w) !! token = Some r →
     (CacheRecord.expirationTime r < steady (ticks w))%Z) →
  (findUserByToken token w).1 = (from_database token w).1.
Proof.
  intros Hr.
  destruct (find_cached_miss (λ w, userByTokenCache (users w)) token w Hr) as (w1 & Hf & Hdb).
  rewrite <- (from_database_same token w w1) by done.
  unfold findUserByToken. unfold mbind at 1, M_bind at 1. by rewrite Hf.
Qed.

(** A token is looked up in the database once what is cached about it has expired. *)
Lemma authenticateUser_truth token w :
  UsersInv (forget_users w) → healthy (db w) →
  (∀ r, userByTokenCache (users w) !! token = Some r →
     (CacheRecord.expirationTime r < steady (ticks w))%Z) →
  ∃ u, (authenticateUser (Some token) w).1 = Ok u ∧
    ((User.valid u = true ∧ User.token u = token ∧ is_user w u) ∨
     (u = User.none ∧ ∀ u', is_user w u' → User.token u' ≠ token)).
Proof.
  intros Hi Hd Hr. simpl. rewrite findUserByToken_miss by done.
  rewrite <- (from_database_same token w (forget_users w)) by done.
  rewrite <- (findUserByToken_miss token (forget_users w)) by
    (intros r; simpl; by rewrite lookup_empty).
  destruct (authenticateUser_spec (Some token) (forget_users w) Hi) as (_ & _ & Hu). simpl in Hu.
  destruct (findUserByToken token (forget_users w)).1 as [u| |]; [|done..].
  exists u. split; [done|]. destruct Hu as [?|[-> Hn]]; [by left|right].
  split; [done|]. by apply Hn.
Qed.
End tokens.

(** * A time comes *)

Section eventually.
Context `{D : Dynamo} `{P : Platform} `{L : !DynamoLaws} `{CL : !ClockLaws}.

(** The clock goes on. *)
Definition time_passes : Prop := ∀ T, ∃ n, (T < steady n)%Z.

(** A time after which none of the values of a category is valid. *)
Lemma all_expire {A} (l : list (CacheRecord.t A)) :
  ∃ T, ∀ r, r ∈ l → (CacheRecord.expirationTime r < T)%Z.
Proof.
  induction l as [|r l [T HT]]; [exists 0%Z; by intros r ?%not_elem_of_nil|].
  exists (Z.max T (CacheRecord.expirationTime r + 1)). intros r' [->|Hr']%elem_of_cons; [lia|].
  specialize (HT r' Hr'). lia.
Qed.

(** C12: changes made through other servers are noticed: whatever this server has cached
    about a token and about a cluster, a time comes from which on - as long as it has
    cached nothing else about them - every answer is that of the tables, whoever changed
    them meanwhile: the token authenticates exactly the stored user it is the token of, and
    a group is allowed on the cluster exactly if a grant for it or for everyone is
    stored. *)
Theorem stale_answers_expire (token c g : string) (uc : UserCaches)
    (ac : gmap string (category (CacheRecord.t string))) :
  time_passes → proper_group g → begins_with g groupIDPrefix = true →
  begins_with c clusterIDPrefix = true →
  ∃ n, ∀ w, n ≤ ticks w → healthy (db w) →
    (users w = uc → UsersInv (forget_users w) →
     ∃ u, (authenticateUser (Some token) w).1 = Ok u ∧
       ((User.valid u = true ∧ User.token u = token ∧ is_user w u) ∨
        (u = User.none ∧ ∀ u', is_user w u' → User.token u' ≠ token))) ∧
    (clusterGroupAccessCache (clusters w) = ac →
     ∃ b, (groupAllowedOnCluster g c w).1 = Ok b ∧ (b = true ↔ allowed w c g)).
Proof.
  intros Hclock Hp Hg Hc.
  destruct (all_expire (mm_find c ac).1) as [T1 HT1].
  destruct (all_expire (match userByTokenCache uc !! token with Some r => [r] | None => [] end))
    as [T2 HT2].
  destruct (Hclock (Z.max T1 T2)) as [n Hn]. exists n. intros w Hnw%steady_mono Hd. split.
  - intros Hu Hi. apply authenticateUser_truth; [done|done|]. rewrite Hu. intros r Hr.
    rewrite Hr in HT2. specialize (HT2 r (list_elem_of_here _ _)). lia.
  - intros Hac. destruct (groupAllowedOnCluster_truth T1 c g w) as (_ & _ & _ & b & Hb); try done.
    + intros r. rewrite Hac. intros Hr. left. by apply HT1.
    + lia.
    + rewrite Hac. intros r Hr. unfold mm_find_val in Hr. unfold mm_find in HT1.
      destruct (ac !! c) as [[s t]|]; [|done]. apply set_find_some in Hr as [Hr _].
      specialize (HT1 r Hr). lia.
    + eauto.
Qed.
End eventually.

Section staleness_witness.
Import Demo.

(** A user is added here, and removed again through another server. *)
Definition demo_stale : World := upd_db (λ _, db empty) (addUser demo_user empty).2.

Lemma demo_stale_nobody u : ¬ is_user demo_stale u.
Proof. intros (it & Hit & _). assert (He : table demo_stale SLATE_users = ∅) by done.
  by rewrite He, lookup_empty in Hit. Qed.

(** The token is still accepted, and later it is not. *)
Lemma stale_answers_expire_witness :
  (authenticateUser (Some "token_1") demo_stale).1 = Ok demo_user ∧
  ∃ n, (authenticateUser (Some "token_1") (upd_ticks (λ _, n) demo_stale)).1 = Ok User.none.
Proof.
  split; [vm_compute; reflexivity|].
  destruct (stale_answers_expire "token_1" "cluster_1" "group_1" (users demo_stale) ∅) as [n Hn].
  - intros T. exists (Z.to_nat T). simpl. lia.
  - split; [by right|]. split; [done|]. by apply str_back_ne.
  - done.
  - done.
  - exists n. destruct (Hn (upd_ticks (λ _, n) demo_stale)) as [Hu _]; [done|done|].
    destruct Hu as (u & Hr & [(_ & _ & Hst)|[-> _]]); [done|by apply users_inv_empty| |exact Hr].
    by destruct (demo_stale_nobody u).
Defined.
End staleness_witness.
