(* ===== verification/StoreInstances.v ===== *)
(** Application instances: the operations of [PersistentStore] on the instances
    table and the caches of instances (src/PersistentStore.cpp). *)

From S2P Require Import Prelude Entities Cache Dynamo Store.
From S2P Require Import Demo Listing Catalogue StoreGroups StoreClusters.

Section instances.
Context `{D : Dynamo} `{P : Platform}.

(** The configuration of an instance is stored in an item of its own. *)
Definition instance_item (i : ApplicationInstance.t) : Item :=
  {["ID" := AVS (ApplicationInstance.id i); "sortKey" := AVS (ApplicationInstance.id i);
    "name" := AVS (ApplicationInstance.name i);
    "application" := AVS (ApplicationInstance.application i);
    "owningGroup" := AVS (ApplicationInstance.owningGroup i);
    "cluster" := AVS (ApplicationInstance.cluster i);
    "ctime" := AVS (ApplicationInstance.ctime i)]}.

Definition instance_config_item (i : ApplicationInstance.t) : Item :=
  {["ID" := AVS (ApplicationInstance.id i);
    "sortKey" := AVS (ApplicationInstance.id i +:+ ":config");
    "config" := AVS (ApplicationInstance.config i)]}.

(** Decoding of an item; [err] gives the message for each missing attribute. *)
Definition instance_of_item (id name : Res string) (err : string → string) (item : Item) :
    Res ApplicationInstance.t :=
  id ← id;
  name ← name;
  application ← attr_string item "application" (err "application");
  owningGroup ← attr_string item "owningGroup" (err "owningGroup");
  cluster ← attr_string item "cluster" (err "cluster");
  ctime ← attr_string item "ctime" (err "ctime");
  mret (ApplicationInstance.mk true id name application owningGroup cluster "" ctime).

Definition instance_err (key : string) : string :=
  "Instance record missing " +:+ key +:+ " attribute".
(** the messages of the queries by group, cluster and name *)
Definition instance_err_query (key : string) : string :=
  if bool_decide (key = "owningGroup") then instance_err "owning Group" else instance_err key.
(** the messages of the scan *)
Definition instance_err_scan (key : string) : string :=
  if bool_decide (key ∈ ["owningGroup"; "cluster"; "ctime"]) then instance_err "ID"
  else instance_err key.

Definition instance_attr (item : Item) (key : string) : Res string :=
  attr_string item key (instance_err key).

Definition group_and_cluster (group cluster : string) : string := group +:+ ":" +:+ cluster.

(** The main cache and the four caches by category. *)
Definition cache_instance (inst : ApplicationInstance.t) : Store unit :=
  record ← make_record inst instanceCacheValidity;
  _ ← modify (upd_instances (upd_instanceCache
         (replaceCacheRecord (ApplicationInstance.id inst) record)));
  _ ← multi_insert (λ f, upd_instances (upd_instanceByGroupCache f))
        (ApplicationInstance.owningGroup inst) record;
  _ ← multi_insert (λ f, upd_instances (upd_instanceByNameCache f))
        (ApplicationInstance.name inst) record;
  _ ← multi_insert (λ f, upd_instances (upd_instanceByClusterCache f))
        (ApplicationInstance.cluster inst) record;
  multi_insert (λ f, upd_instances (upd_instanceByGroupAndClusterCache f))
    (group_and_cluster (ApplicationInstance.owningGroup inst) (ApplicationInstance.cluster inst))
    record.

(** [cuckoohash_map::insert] keeps a record that is already present. *)
Definition insert_config (id : string) (record : CacheRecord.t string)
    (m : gmap string (CacheRecord.t string)) : gmap string (CacheRecord.t string) :=
  match m !! id with Some _ => m | None => <[id:=record]> m end.

Definition addApplicationInstance (inst : ApplicationInstance.t) : Store bool :=
  outcome ← request (PutItem SLATE_instances (instance_item inst));
  match outcome with
  | inl err => mret false
  | inr _ =>
      outcome ← request (PutItem SLATE_instances (instance_config_item inst));
      match outcome with
      | inl err => mret false
      | inr _ =>
          _ ← cache_instance inst;
          record ← make_record (ApplicationInstance.config inst) instanceCacheValidity;
          _ ← modify (upd_instances (upd_instanceConfigCache
                 (insert_config (ApplicationInstance.id inst) record)));
          mret true
      end
  end.

(** Dropping an instance from every cache. *)
Definition forget_instance (id : string) : Store unit :=
  c ← gets (λ w, instanceCache (instances w));
  _ ← match c !! id with
      | Some record =>
          let inst := CacheRecord.record record in
          _ ← modify (upd_instances (upd_instanceByGroupCache
                 (λ m, (mm_erase (ApplicationInstance.owningGroup inst) record m).2)));
          _ ← modify (upd_instances (upd_instanceByNameCache
                 (λ m, (mm_erase (ApplicationInstance.name inst) record m).2)));
          _ ← modify (upd_instances (upd_instanceByClusterCache
                 (λ m, (mm_erase (ApplicationInstance.cluster inst) record m).2)));
          modify (upd_instances (upd_instanceByGroupAndClusterCache
            (λ m, (mm_erase (group_and_cluster (ApplicationInstance.owningGroup inst)
                               (ApplicationInstance.cluster inst)) record m).2)))
      | None => mret tt
      end;
  _ ← modify (upd_instances (upd_instanceCache (delete id)));
  modify (upd_instances (upd_instanceConfigCache (delete id))).

Definition removeApplicationInstance (id : string) : Store bool :=
  _ ← forget_instance id;
  outcome ← request (DeleteItem SLATE_instances (id, id) None);
  match outcome with
  | inl err => mret false
  | inr _ =>
      outcome ← request (DeleteItem SLATE_instances (id, id +:+ ":config") None);
      match outcome with
      | inl err => mret false
      | inr _ => mret true
      end
  end.

Definition getApplicationInstance (id : string) : Store ApplicationInstance.t :=
  cached ← find_cached (λ w, instanceCache (instances w)) id;
  match cached with
  | Some inst => mret inst
  | None =>
      _ ← databaseQuery;
      outcome ← request (GetItem SLATE_instances (id, id));
      match outcome with
      | inl err => mret ApplicationInstance.none
      | inr item =>
          if bool_decide (item = ∅) then mret ApplicationInstance.none else
          inst ← lift (instance_of_item (Ok id) (instance_attr item "name") instance_err item);
          _ ← cache_instance inst;
          mret inst
      end
  end.

Definition getApplicationInstanceConfig (id : string) : Store string :=
  cached ← find_cached (λ w, instanceConfigCache (instances w)) id;
  match cached with
  | Some config => mret config
  | None =>
      _ ← databaseQuery;
      outcome ← request (GetItem SLATE_instances (id, id +:+ ":config"));
      match outcome with
      | inl err => mret ""
      | inr item =>
          if bool_decide (item = ∅) then mret "" else
          config ← lift (attr_string item "config"
                           "Instance config record missing config attribute");
          record ← make_record config instanceCacheValidity;
          _ ← modify (upd_instances (upd_instanceConfigCache (replaceCacheRecord id record)));
          mret config
      end
  end.

Definition list_instance (item : Item) : Store ApplicationInstance.t :=
  inst ← lift (instance_of_item (instance_attr item "ID") (instance_attr item "name")
           instance_err_scan item);
  _ ← cache_instance inst;
  mret inst.

Definition listApplicationInstances (fuel : nat) : Store (list ApplicationInstance.t) :=
  list_all (λ w, instanceCacheExpirationTime (instances w)) (λ w, instanceCache (instances w))
    SLATE_instances (EExists "ctime") list_instance
    (λ _ time, modify (upd_instances (upd_instanceCacheExpirationTime (λ _, time))))
    instanceCacheValidity fuel.

(** [if(!x.empty() && !normalize(x)) return {};] *)
Definition normalize_nonempty (normalize : string → Store (option string)) (x : string) :
    Store (option string) :=
  if str_empty x then mret (Some x) else normalize x.

(** The query of a listing by group and cluster; with neither, the outcome is the
    default-constructed one, a failure, and nothing is sent. *)
Definition list_query (t : Table) (group cluster : string) : Store (outcome (list Item)) :=
  if negb (str_empty group) && negb (str_empty cluster) then
    request (Query t (Some "ByGroup") (mkKC "owningGroup" (AVS group) None)
               (EContains "cluster" cluster))
  else if negb (str_empty group) then
    request (Query t (Some "ByGroup") (mkKC "owningGroup" (AVS group) None) ETrue)
  else if negb (str_empty cluster) then
    request (Query t (Some "ByCluster") (mkKC "cluster" (AVS cluster) None) ETrue)
  else mret (inl "").

Definition listApplicationInstancesByClusterOrGroup (group cluster : string) :
    Store (list ApplicationInstance.t) :=
  g ← normalize_nonempty (λ g, normalizeGroupID g false) group;
  match g with
  | None => mret []
  | Some group =>
      c ← normalize_nonempty normalizeClusterID cluster;
      match c with
      | None => mret []
      | Some cluster =>
          let gc := group_and_cluster group cluster in
          cached ← (if negb (str_empty group) && negb (str_empty cluster) then
                      maybeReturnCachedCategoryMembers
                        (λ w, instanceByGroupAndClusterCache (instances w)) gc
                    else if negb (str_empty group) then
                      maybeReturnCachedCategoryMembers
                        (λ w, instanceByGroupCache (instances w)) group
                    else if negb (str_empty cluster) then
                      maybeReturnCachedCategoryMembers
                        (λ w, instanceByClusterCache (instances w)) cluster
                    else mret None);
          match cached with
          | Some results => mret results
          | None =>
              _ ← databaseQuery;
              outcome ← list_query SLATE_instances group cluster;
              match outcome with
              | inl err => mret []
              | inr [] => mret []
              | inr items =>
                  result ← for_collect items (λ item,
                    inst ← lift (name ← instance_attr item "name";
                                 instance_of_item (instance_attr item "ID") (Ok name)
                                   instance_err_query item);
                    _ ← cache_instance inst;
                    mret inst);
                  t ← now;
                  let time := (t + instanceCacheValidity)%Z in
                  _ ← (if negb (str_empty group) && negb (str_empty cluster) then
                         modify (upd_instances (upd_instanceByGroupAndClusterCache
                           (λ m, (mm_update_expiration gc time m).2)))
                       else if negb (str_empty group) then
                         modify (upd_instances (upd_instanceByGroupCache
                           (λ m, (mm_update_expiration group time m).2)))
                       else
                         modify (upd_instances (upd_instanceByClusterCache
                           (λ m, (mm_update_expiration cluster time m).2))));
                  mret result
              end
          end
      end
  end.

Definition findInstancesByName (name : string) : Store (list ApplicationInstance.t) :=
  _ ← databaseQuery;
  outcome ← request (Query SLATE_instances (Some "ByName")
                       (mkKC "name" (AVS name) None) ETrue);
  match outcome with
  | inl err => mret []
  | inr items =>
      for_collect items (λ item,
        inst ← lift (instance_of_item (instance_attr item "ID") (Ok name)
                       instance_err_query item);
        _ ← cache_instance inst;
        mret inst)
  end.
End instances.

(** * Arguments of the listings by group and cluster *)

Section listing_arguments.
Context `{D : Dynamo} `{P : Platform}.

(** An ID, or nothing. *)
Definition group_arg (g : string) : Prop := g = "" ∨ begins_with g groupIDPrefix = true.
Definition cluster_arg (c : string) : Prop := c = "" ∨ begins_with c clusterIDPrefix = true.

Lemma normalize_group_arg g :
  group_arg g → normalize_nonempty (λ g, normalizeGroupID g false) g = mret (Some g).
Proof.
  unfold normalize_nonempty. intros [->|Hg]; [done|].
  rewrite normalizeGroupID_id by done. by destruct g.
Qed.

Lemma normalize_cluster_arg c :
  cluster_arg c → normalize_nonempty normalizeClusterID c = mret (Some c).
Proof.
  unfold normalize_nonempty. intros [->|Hc]; [done|].
  rewrite normalizeClusterID_id by done. by destruct c.
Qed.

Lemma group_and_cluster_inj g c g' c' :
  no_colon g → no_colon g' → group_and_cluster g c = group_and_cluster g' c' → g = g' ∧ c = c'.
Proof. apply str_split_colon. Qed.

End listing_arguments.

(** * Listings by group and cluster *)

(** The kinds of records that have a group and a cluster, with the two indexes by them;
    [decode] reads the entries of these indexes. *)
Section listings.
Context `{D : Dynamo} `{P : Platform} `{L : !DynamoLaws}.

Class GroupedLaws {T} (K : Kind T) (group cluster : T → string) (decode : Item → Res T)
    (ByGroup ByCluster : Index) : Prop := {
  gl_kind :: KindLaws K;
  gl_group : ∀ x it, k_row K x it → it !! "owningGroup" = Some (AVS (group x));
  gl_cluster : ∀ x it, k_row K x it → it !! "cluster" = Some (AVS (cluster x));
  gl_aux : ∀ k it, k_aux K k it → it !! "owningGroup" = None ∧ it !! "cluster" = None;
  gl_no_colon : ∀ x it, k_row K x it → no_colon (group x);
  gl_ByGroup : assoc "ByGroup" (indexes (k_table K)) = Some ByGroup ∧
    ix_key ByGroup = "owningGroup" ∧ "cluster" ∈ index_attributes (k_table K) ByGroup;
  gl_ByCluster : assoc "ByCluster" (indexes (k_table K)) = Some ByCluster ∧
    ix_key ByCluster = "cluster";
  gl_decode : ∀ x it index e, k_row K x it → index ∈ ["ByGroup"; "ByCluster"] →
    index_entry (k_table K) (Some index) it = Some e → decode e = Ok x;
  gl_norm_group : ∀ x, group (k_norm K x) = group x;
  gl_norm_cluster : ∀ x, cluster (k_norm K x) = cluster x;
}.

Context {T : Type} (K : Kind T) (group_of cluster_of : T → string) (decode : Item → Res T)
  {ByGroup ByCluster : Index} `{GL : !GroupedLaws K group_of cluster_of decode ByGroup ByCluster}.

(** The records a listing is about. *)
Definition listed_in (group cluster : string) (x : T) : Prop :=
  (group ≠ "" → group_of x = group) ∧ (cluster ≠ "" → cluster_of x = cluster).

(** No cluster of a stored record contains the cluster of the argument and is not it: IDs
    have the same length. *)
Definition distinct_cluster_ids (w : World) (cluster : string) : Prop :=
  cluster ≠ "" → ∀ x, stored K w x → str_contains cluster (cluster_of x) = true →
  cluster_of x = cluster.

(** The answer of the query decodes to the records of the listing. *)
Definition query_answers (group cluster : string) (w : World) (l : list Item) : Prop :=
  (∀ e, e ∈ l → ∃ x, decode e = Ok x ∧ stored K w x ∧ listed_in group cluster x) ∧
  (∀ x, stored K w x → listed_in group cluster x → ∃ e, e ∈ l ∧ decode e = Ok x).

Lemma grouped_rows index ix attr w k it :
  (index, ix, attr) ∈ [("ByGroup", ByGroup, "owningGroup"); ("ByCluster", ByCluster, "cluster")] →
  KindInv K w → table w (k_table K) !! k = Some it → is_Some (it !! attr) →
  ∃ x, k_row K x it ∧ k = (k_id K x, k_id K x).
Proof.
  intros Hix Hi Hit Hs. destruct (kv_table _ _ Hi _ _ Hit) as [?|Ha]; [done|].
  destruct (gl_aux _ _ Ha) as [Hg Hc]. rewrite !elem_of_cons, elem_of_nil in Hix.
  destruct Hix as [[= -> -> ->]|[[= -> -> ->]|[]]]; rewrite ?Hg, ?Hc in Hs; by destruct Hs.
Qed.

Lemma query_answers_intro group cluster index ix attr proj v f w l :
  (index, ix, attr) ∈ [("ByGroup", ByGroup, "owningGroup"); ("ByCluster", ByCluster, "cluster")] →
  (∀ x it, k_row K x it → it !! attr = Some (AVS (proj x))) →
  assoc index (indexes (k_table K)) = Some ix → ix_key ix = attr →
  KindInv K w →
  l ≡ₚ query_items (k_table K) (Some index) (mkKC attr (AVS v) None) f (table w (k_table K)) →
  (∀ x it e, stored K w x → k_row K x it → index_entry (k_table K) (Some index) it = Some e →
    proj x = v ∧ eval f e = true ↔ listed_in group cluster x) →
  query_answers group cluster w l.
Proof.
  intros Hin Hattr Hix Hk Hi Hl Hiff.
  assert (Hin' : index ∈ ["ByGroup"; "ByCluster"]).
  { rewrite !elem_of_cons, elem_of_nil in Hin. rewrite !elem_of_cons.
    destruct Hin as [[= -> -> ->]|[[= -> -> ->]|[]]]; auto. }
  assert (He := index_query (k_row K) (λ x, (k_id K x, k_id K x)) proj (k_table K) index ix attr
    v f _ l Hix Hk (λ k it, grouped_rows index ix attr w k it Hin Hi) Hattr Hl). split.
  - intros e (x & it & Hit & Hr & Hp & Hen & Hf)%He. exists x.
    assert (Hx : stored K w x) by by exists it.
    split; [by eapply gl_decode|]. split; [done|]. by eapply Hiff.
  - intros x Hx Hls. pose proof Hx as (it & Hit & Hr).
    destruct (proj1 (index_entry_is_some (k_table K) index ix it Hix)) as [e Hen].
    { rewrite Hk. eexists. by apply Hattr. }
    exists e. split; [|by eapply gl_decode]. apply He. exists x, it.
    destruct (proj2 (Hiff x it e Hx Hr Hen) Hls). done.
Qed.

Lemma list_query_spec group cluster w :
  KindInv K w → distinct_cluster_ids w cluster → group ≠ "" ∨ cluster ≠ "" →
  wp (list_query (k_table K) group cluster) (λ r w', quiet w w' ∧ ∃ o, r = Ok o ∧
    match o with inl _ => ¬ healthy (db w) | inr l => query_answers group cluster w l end) w.
Proof.
  intros Hi Hd Hne. unfold list_query.
  destruct gl_ByGroup as (Hg1 & Hg2 & Hg3). destruct gl_ByCluster as (Hc1 & Hc2).
  assert (Hq : ∀ index ix attr proj v f,
    (index, ix, attr) ∈ [("ByGroup", ByGroup, "owningGroup"); ("ByCluster", ByCluster, "cluster")] →
    (∀ x it, k_row K x it → it !! attr = Some (AVS (proj x))) →
    assoc index (indexes (k_table K)) = Some ix → ix_key ix = attr →
    (∀ x it e, stored K w x → k_row K x it → index_entry (k_table K) (Some index) it = Some e →
      proj x = v ∧ eval f e = true ↔ listed_in group cluster x) →
    wp (request (Query (k_table K) (Some index) (mkKC attr (AVS v) None) f))
      (λ r w', quiet w w' ∧ ∃ o, r = Ok o ∧
        match o with inl _ => ¬ healthy (db w) | inr l => query_answers group cluster w l end) w).
  { intros index ix attr proj v f Hin Hattr Hix Hk Hiff. apply wp_last, wp_Query.
    - intros e w' Hq Hh. split; [done|]. by eexists.
    - intros l w' Hq Hl. split; [done|]. eexists. split; [done|]. by eapply query_answers_intro. }
  destruct (str_empty group) eqn:Hg; [apply str_empty_true in Hg as ->|
    assert (Hg' : group ≠ "") by (intros ->; done)];
  (destruct (str_empty cluster) eqn:Hc; [apply str_empty_true in Hc as ->|
    assert (Hc' : cluster ≠ "") by (intros ->; done)]); simpl.
  - by destruct Hne as [[]|[]].
  - apply (Hq _ ByCluster _ cluster_of); [right; left|apply gl_cluster|done..|].
    intros x it e Hx Hr Hen. split; [by intros [<- _]|]. intros [_ Hs']. auto.
  - apply (Hq _ ByGroup _ group_of); [left|apply gl_group|done..|].
    intros x it e Hx Hr Hen. split; [by intros [<- _]|]. intros [Hs' _]. auto.
  - apply (Hq _ ByGroup _ group_of); [left|apply gl_group|done..|].
    intros x it e Hx Hr Hen.
    assert (He : e !! "cluster" = Some (AVS (cluster_of x))).
    { rewrite (index_entry_lookup_eq (k_table K) "ByGroup" ByGroup it e) by done.
      by apply gl_cluster. }
    simpl. rewrite He, GetS_AVS. split.
    + intros [<- Hf%(Hd Hc' _ Hx)]. done.
    + intros [Hs1 Hs2]. split; [auto|]. rewrite Hs2 by done. apply str_contains_refl.
Qed.
(** ** The listing itself *)

Context (cache_gc cache_g cache_c : World → gmap string (category (CacheRecord.t T)))
  (save : T → Store unit) (extend : string → string → Z → Store unit).
Hypothesis cache_gc_category : ∀ w,
  ((λ x, group_and_cluster (group_of x) (cluster_of x)), cache_gc w) ∈ categories (k_view K w).
Hypothesis cache_g_category : ∀ w, (group_of, cache_g w) ∈ categories (k_view K w).
Hypothesis cache_c_category : ∀ w, (cluster_of, cache_c w) ∈ categories (k_view K w).
Hypothesis save_saves : saves K save.
Hypothesis extend_ok : ∀ group cluster time w, ∃ w', extend group cluster time w = (Ok tt, w') ∧
  db w' = db w ∧ recatalogued (k_view K w) (k_view K w').

(** When the listing is answered from a cache. *)
Definition list_fresh (group cluster : string) (w : World) : Prop :=
  if str_empty group then cluster ≠ "" ∧ fresh cache_c cluster w
  else if str_empty cluster then fresh cache_g group w
  else fresh cache_gc (group_and_cluster group cluster) w.

Definition list_by_post (group cluster : string) (w : World) : Res (list T) → World → Prop :=
  category_post K (listed_in group cluster)
    ((group ≠ "" ∨ cluster ≠ "") ∧ ¬ list_fresh group cluster w) w.

Lemma list_by_nothing group cluster w w' :
  KindInv K w → quiet w w' →
  (healthy (db w) → group ≠ "" ∨ cluster ≠ "" → ∀ x, stored K w x → ¬ listed_in group cluster x) →
  list_by_post group cluster w (Ok []) w'.
Proof.
  intros Hi Hq Hn. split; [by apply (quiet_KindInv K w)|]. split; [apply Hq|].
  exists []. split; [done|]. split; [by intros x ?%not_elem_of_nil|].
  intros Hh [Hne _] x Hx Hl. by destruct (Hn Hh Hne x Hx).
Qed.

Lemma list_by_cached group cluster w w' l :
  KindInv K w → quiet w w' → list_fresh group cluster w →
  (∀ x, x ∈ l → stored K w (k_norm K x) ∧ listed_in group cluster x) →
  list_by_post group cluster w (Ok l) w'.
Proof.
  intros Hi Hq Hf Hl. split; [by apply (quiet_KindInv K w)|]. split; [apply Hq|].
  exists l. split; [done|]. split; [|by intros _ [_ ?]].
  intros x Hx. destruct (Hl x Hx) as [Hs [H1 H2]]. split; [done|].
  unfold listed_in. by rewrite gl_norm_group, gl_norm_cluster.
Qed.

(** What is done when no cache answers. *)
Definition list_by_query (group cluster : string) (validity : Z) : Store (list T) :=
  _ ← databaseQuery;
  outcome ← list_query (k_table K) group cluster;
  match outcome with
  | inl err => mret []
  | inr [] => mret []
  | inr items =>
      result ← for_collect items (λ item, x ← lift (decode item); _ ← save x; mret x);
      t ← now;
      _ ← extend group cluster (t + validity)%Z;
      mret result
  end.

Lemma list_by_query_spec group cluster validity w w1 :
  KindInv K w → distinct_cluster_ids w cluster → quiet w w1 →
  wp (list_by_query group cluster validity) (list_by_post group cluster w) w1.
Proof.
  intros Hi Hd Hq1. apply wp_databaseQuery. intros w2 Hq2.
  assert (Hq : quiet w w2) by by etrans. clear w1 Hq1 Hq2.
  destruct (decide (group = "" ∧ cluster = "")) as [[-> ->]|Hne].
  { eapply wp_run; [reflexivity|]. apply list_by_nothing; [done..|]. by intros _ [[]|[]]. }
  assert (Hne' : group ≠ "" ∨ cluster ≠ "").
  { destruct (decide (group = "")) as [->|?]; [right|by left]. intros ->. by apply Hne. }
  assert (Hst : ∀ x, stored K w2 x ↔ stored K w x) by (intros x; apply read_only_stored, Hq).
  eapply wp_seq.
  { apply list_query_spec; [by apply (quiet_KindInv K w)| |exact Hne'].
    intros Hcl x Hx%Hst. by apply Hd. }
  2: by intros e w' (_ & o & [=] & _).
  2: by intros w' (_ & o & [=] & _).
  intros o w3 (Hq3 & o' & [= <-] & Ho). assert (Hq' : quiet w w3) by by etrans.
  destruct o as [err|items].
  { apply list_by_nothing; [done..|]. intros Hh. by destruct Ho; apply Hq. }
  destruct Ho as [Hdec Hall]. destruct (decide (items = [])) as [->|Hitems].
  { apply list_by_nothing; [done..|]. intros _ _ x Hx%Hst Hl.
    by destruct (Hall x Hx Hl) as (e & ?%not_elem_of_nil & _). }
  assert (Hst3 : ∀ x, stored K w3 x ↔ stored K w x) by (intros x; apply read_only_stored, Hq').
  destruct items as [|item0 items0]; [done|]. set (items := item0 :: items0) in *.
  apply (wp_collect K); [done|by apply (quiet_KindInv K w)| |].
  { intros e He. destruct (Hdec e He) as (x & Hx & Hx' & _). exists x. split; [done|].
    by apply Hst3, Hst. }
  intros l w4 Hi4 Hdb4 Hsound Hcomplete Horigin. apply wp_now.
  destruct (extend_ok group cluster (steady (ticks w4) + validity) (upd_ticks S w4))
    as (w5 & Hm & Hdb5 & Hre).
  rewrite (kind_quiet _ _ (quiet_tick w4)) in Hre. simpl in Hdb5.
  eapply wp_run; [exact Hm|]. apply wp_ret.
  assert (Hdb : db w5 = db w3) by congruence.
  split; [eapply (KindInv_recatalogued K w4); [done|by rewrite Hdb5|done]|].
  split; [etrans; [apply Hq'|by apply read_only_db]|]. exists l. split; [done|]. split.
  - intros x Hx. assert (Hxs : stored K w x) by by apply Hst3, Hsound.
    rewrite (stored_norm K w x Hxs). split; [done|].
    destruct (Horigin x Hx) as (e & He & Hex). destruct (Hdec e He) as (x' & Hex' & _ & Hls).
    rewrite Hex in Hex'. by injection Hex' as <-.
  - intros _ _ x Hx Hls. destruct (Hall x) as (e & He & Hex); [by apply Hst|done|].
    by eapply Hcomplete.
Qed.

(** The code: [g] and [c] are the arguments, names or IDs. *)
Definition list_by (g c : string) (validity : Z) : Store (list T) :=
  group ← normalize_nonempty (λ g, normalizeGroupID g false) g;
  match group with
  | None => mret []
  | Some group =>
      cluster ← normalize_nonempty normalizeClusterID c;
      match cluster with
      | None => mret []
      | Some cluster =>
          cached ← (if negb (str_empty group) && negb (str_empty cluster) then
                      maybeReturnCachedCategoryMembers cache_gc (group_and_cluster group cluster)
                    else if negb (str_empty group) then
                      maybeReturnCachedCategoryMembers cache_g group
                    else if negb (str_empty cluster) then
                      maybeReturnCachedCategoryMembers cache_c cluster
                    else mret None);
          match cached with
          | Some results => mret results
          | None => list_by_query group cluster validity
          end
      end
  end.

Lemma list_by_spec group cluster validity w :
  KindInv K w → group_arg group → cluster_arg cluster → no_colon group →
  distinct_cluster_ids w cluster →
  wp (list_by group cluster validity) (list_by_post group cluster w) w.
Proof.
  intros Hi Hga Hca Hcol Hd. unfold list_by.
  rewrite normalize_group_arg by done. eapply wp_run; [reflexivity|].
  rewrite normalize_cluster_arg by done. eapply wp_run; [reflexivity|].
  pose proof (λ w1, list_by_query_spec group cluster validity w w1 Hi Hd) as Hrest.
  pose proof (λ w' l, list_by_cached group cluster w w' l Hi) as Hcached.
  apply wp_cached_or, wp_last. unfold list_fresh in Hcached.
  destruct (str_empty group) eqn:Hg; [apply str_empty_true in Hg as ->|];
    (destruct (str_empty cluster) eqn:Hc; [apply str_empty_true in Hc as ->|]); simpl.
  - eapply wp_run; [reflexivity|]. by apply Hrest.
  - apply (wp_cached_category K cluster_of); [done..| |by intros w' Hq _; apply Hrest].
    intros l w' Hq Hf Hl. apply Hcached; [done| |].
    + split; [by intros ->|done].
    + intros x Hx. destruct (Hl x Hx). by repeat split.
  - apply (wp_cached_category K group_of); [done..| |by intros w' Hq _; apply Hrest].
    intros l w' Hq Hf Hl. apply Hcached; [done..|].
    intros x Hx. destruct (Hl x Hx). by repeat split.
  - apply (wp_cached_category K (λ x, group_and_cluster (group_of x) (cluster_of x)));
      [done..| |by intros w' Hq _; apply Hrest].
    intros l w' Hq Hf Hl. apply Hcached; [done..|].
    intros x Hx. destruct (Hl x Hx) as [Hs Hk].
    apply group_and_cluster_inj in Hk as [Hk1 Hk2]; [by repeat split| |done].
    destruct Hs as (it & _ & Hr). apply gl_no_colon in Hr. by rewrite gl_norm_group in Hr.
Qed.
End listings.

(** * Application instances *)

Section instance_invariant.
Context `{D : Dynamo} `{P : Platform}.
Implicit Types (i : ApplicationInstance.t) (it : Item).

(** The configuration is not in the row of an instance: a record read from the database
    has none, the record cached by [addApplicationInstance] has it. *)
Definition without_config i : ApplicationInstance.t :=
  ApplicationInstance.mk (ApplicationInstance.valid i) (ApplicationInstance.id i)
    (ApplicationInstance.name i) (ApplicationInstance.application i)
    (ApplicationInstance.owningGroup i) (ApplicationInstance.cluster i) ""
    (ApplicationInstance.ctime i).

Definition instance_row i it : Prop :=
  ApplicationInstance.valid i = true ∧ instance_item i ⊆ it ∧
  ApplicationInstance.config i = "" ∧ no_colon (ApplicationInstance.owningGroup i).

(** The rows of the configurations. *)
Definition config_row (k : string * string) it : Prop :=
  k.2 = k.1 +:+ ":config" ∧ it !! "owningGroup" = None ∧ it !! "cluster" = None ∧
  it !! "ctime" = None ∧ it !! "name" = None ∧ ∃ c, it !! "config" = Some (AVS c).

Definition instance_category i : string :=
  group_and_cluster (ApplicationInstance.owningGroup i) (ApplicationInstance.cluster i).

Definition instance_kind : Kind ApplicationInstance.t := {|
  k_table := SLATE_instances;
  k_row := instance_row;
  k_aux := config_row;
  k_id := ApplicationInstance.id;
  k_norm := without_config;
  k_none := ApplicationInstance.none;
  k_view w := mkCatalogue (instanceCache (instances w))
    [(ApplicationInstance.owningGroup, instanceByGroupCache (instances w));
     (ApplicationInstance.name, instanceByNameCache (instances w));
     (ApplicationInstance.cluster, instanceByClusterCache (instances w));
     (instance_category, instanceByGroupAndClusterCache (instances w))] |}.

Lemma instance_row_lookup i it a v :
  instance_row i it → instance_item i !! a = Some v → it !! a = Some v.
Proof. intros (_ & Hsub & _) Ha. by eapply lookup_weaken. Qed.

(** Any part of the row that has the attributes of [addApplicationInstance] decodes to the
    instance, whatever the error messages. *)
Lemma instance_row_decode i it (e : Item) id name err :
  instance_row i it → (∀ a v, a ∈ ["application"; "owningGroup"; "cluster"; "ctime"] →
    it !! a = Some v → e !! a = Some v) →
  id = Ok (ApplicationInstance.id i) → name = Ok (ApplicationInstance.name i) →
  instance_of_item id name err e = Ok i.
Proof.
  intros Hr He -> ->. unfold instance_of_item, mbind, Res_bind. simpl.
  rewrite (attr_string_ok _ _ _ (ApplicationInstance.application i)),
    (attr_string_ok _ _ _ (ApplicationInstance.owningGroup i)),
    (attr_string_ok _ _ _ (ApplicationInstance.cluster i)),
    (attr_string_ok _ _ _ (ApplicationInstance.ctime i));
    [destruct Hr as (Hv & _ & Hc & _); destruct i; simpl in *; by subst|..];
    (apply He; [compute_done|by eapply instance_row_lookup]).
Qed.

Lemma instance_row_attr i it (e : Item) key s :
  instance_row i it → (∀ v, it !! key = Some v → e !! key = Some v) →
  instance_item i !! key = Some (AVS s) → instance_attr e key = Ok s.
Proof. intros Hr He Hk. eapply attr_string_ok, He, instance_row_lookup; done. Qed.

Lemma instance_row_found i it err :
  instance_row i it →
  instance_of_item (Ok (ApplicationInstance.id i)) (instance_attr it "name") err it = Ok i.
Proof. intros Hr. eapply instance_row_decode; try done. by eapply instance_row_attr. Qed.

Lemma instance_row_listed i it err :
  instance_row i it →
  instance_of_item (instance_attr it "ID") (instance_attr it "name") err it = Ok i.
Proof. intros Hr. eapply instance_row_decode; try done; by eapply instance_row_attr. Qed.

(** The entries of an index, which have all the attributes. *)
Lemma instance_row_entry i it e index ix name :
  instance_row i it → assoc index (indexes SLATE_instances) = Some ix →
  index_entry SLATE_instances (Some index) it = Some e →
  (∀ a, a ∈ ["ID"; "name"; "application"; "owningGroup"; "cluster"; "ctime"] →
    a ∈ index_attributes SLATE_instances ix) →
  name = Ok (ApplicationInstance.name i) ∨ name = instance_attr e "name" →
  instance_of_item (instance_attr e "ID") name instance_err_query e = Ok i.
Proof.
  intros Hr Hix He Hattrs Hname.
  assert (Hp : ∀ a v, a ∈ ["ID"; "name"; "application"; "owningGroup"; "cluster"; "ctime"] →
    it !! a = Some v → e !! a = Some v).
  { intros a v Ha Hv. by rewrite (index_entry_lookup_eq SLATE_instances index ix it e) by auto. }
  eapply instance_row_decode; [done|..].
  - intros a v Ha. apply Hp. rewrite !elem_of_cons, elem_of_nil in *. naive_solver.
  - eapply instance_row_attr; [done| |done]. intros v. apply Hp. compute_done.
  - destruct Hname as [->| ->]; [done|].
    eapply instance_row_attr; [done| |done]. intros v. apply Hp. compute_done.
Qed.

(** The decoding of the listing by group and cluster. *)
Definition decode_listed_instance (item : Item) : Res ApplicationInstance.t :=
  name ← instance_attr item "name";
  instance_of_item (instance_attr item "ID") (Ok name) instance_err_query item.

Lemma config_row_key id it : config_row (id, id) it → False.
Proof.
  intros (Hk & _). simpl in Hk. apply (f_equal str_size) in Hk.
  rewrite str_size_app in Hk. simpl in Hk. lia.
Qed.

Context `{L : !DynamoLaws}.

#[global] Instance instance_kind_laws : KindLaws instance_kind.
Proof.
  split; try done.
  - intros i1 i2 it R1%(instance_row_listed _ _ instance_err) R2%(instance_row_listed _ _ instance_err).
    congruence.
  - intros i it Hr. by apply item_key_eq; eapply instance_row_lookup.
  - intros i it (_ & _ & Hc & _). destruct i. simpl in *. by subst.
  - intros [h s] it Ha Heq. simpl in Heq. subst. by apply config_row_key in Ha.
  - intros w w' Hq. simpl. by rewrite (quiet_instances _ _ Hq).
  - intros w p i. simpl. rewrite !elem_of_cons, elem_of_nil.
    by intros [->|[->|[->|[->|[]]]]].
Qed.

#[global] Instance instance_grouped :
  GroupedLaws instance_kind ApplicationInstance.owningGroup ApplicationInstance.cluster
    decode_listed_instance instance_ByGroup instance_ByCluster.
Proof.
  split; try done.
  - apply _.
  - intros i it Hr. by eapply instance_row_lookup.
  - intros i it Hr. by eapply instance_row_lookup.
  - intros k it (_ & Hg & Hc & _). done.
  - intros i it Hr. apply Hr.
  - split; [done|]. split; [done|]. compute_done.
  - intros i it index e Hr Hin He.
    assert (Hix : ∃ ix, assoc index (indexes SLATE_instances) = Some ix ∧
      ∀ a, a ∈ ["ID"; "name"; "application"; "owningGroup"; "cluster"; "ctime"] →
        a ∈ index_attributes SLATE_instances ix).
    { rewrite !elem_of_cons, elem_of_nil in Hin. destruct Hin as [->|[->|[]]];
        (eexists; split; [reflexivity|]); intros a; rewrite !elem_of_cons, elem_of_nil;
        by intros [->|[->|[->|[->|[->|[->|[]]]]]]]; compute_done. }
    destruct Hix as (ix & Hix & Hattrs). unfold decode_listed_instance.
    assert (Hn : instance_attr e "name" = Ok (ApplicationInstance.name i)).
    { eapply instance_row_attr; [done| |done]. intros v.
      rewrite (index_entry_lookup_eq SLATE_instances index ix it e); [done..|].
      apply Hattrs. compute_done. }
    rewrite Hn. simpl. eapply instance_row_entry; try done. by left.
Qed.

Lemma cache_instance_saves : saves instance_kind cache_instance.
Proof.
  intros i w. eexists. split; [reflexivity|]. split; [done|]. split; [simpl; lia|].
  exists (CacheRecord.make i instanceCacheValidity (steady (ticks w))).
  split; [done|]. split; [reflexivity|]. solve_catalogued.
Qed.

Lemma forget_instance_forgets : forgets instance_kind forget_instance.
Proof.
  intros id w. unfold forget_instance, mbind, M_bind, gets. simpl.
  destruct (instanceCache (instances w) !! id) as [r|] eqn:Hr;
    (eexists; split; [reflexivity|]; split; [done|]; split; [reflexivity|]; simpl;
     solve_uncatalogued Hr).
Qed.
End instance_invariant.

Section instance_operations.
Context `{D : Dynamo} `{P : Platform} `{L : !DynamoLaws}.
Implicit Types (i : ApplicationInstance.t) (it : Item) (id c : string).

Definition is_instance : World → ApplicationInstance.t → Prop := stored instance_kind.

Definition config_key id : string * string := (id, id +:+ ":config").

Definition stored_config (w : World) id c : Prop :=
  ∃ it, table w SLATE_instances !! config_key id = Some it ∧ it !! "config" = Some (AVS c).

(** The cached configurations are those of the table. *)
Definition ConfigInv (w : World) : Prop :=
  ∀ id r, instanceConfigCache (instances w) !! id = Some r →
    stored_config w id (CacheRecord.record r).

Definition InstancesInv (w : World) : Prop := KindInv instance_kind w ∧ ConfigInv w.

Lemma config_key_ne id id' : config_key id ≠ (id', id').
Proof.
  intros Heq. injection Heq as -> Heq. apply (f_equal str_size) in Heq.
  rewrite str_size_app in Heq. simpl in Heq. lia.
Qed.

Lemma config_key_inj id id' : config_key id = config_key id' → id = id'.
Proof. by intros [= -> _]. Qed.

(** The configuration rows and the cached configurations are as before. *)
Lemma ConfigInv_same w w' :
  ConfigInv w → (∀ id, table w' SLATE_instances !! config_key id =
    table w SLATE_instances !! config_key id) →
  instanceConfigCache (instances w') ⊆ instanceConfigCache (instances w) → ConfigInv w'.
Proof.
  intros Hi Ht Hc id r Hr. destruct (Hi id r) as (it & Hit & Hcfg); [by eapply lookup_weaken|].
  exists it. by rewrite Ht.
Qed.

Lemma quiet_ConfigInv w w' : quiet w w' → ConfigInv w → ConfigInv w'.
Proof.
  intros Hq Hi. eapply ConfigInv_same; [done| |].
  - intros id. by rewrite (proj1 (quiet_ro _ _ Hq)).
  - by rewrite (quiet_instances _ _ Hq).
Qed.

(** What does not write the table nor the cached configurations keeps them coherent. *)
Lemma wp_keeps_configs {A} (m : Store A) Q w :
  frame (λ w, table w SLATE_instances) m → frame (λ w, instanceConfigCache (instances w)) m →
  ConfigInv w → wp m Q w → wp m (λ r w', Q r w' ∧ ConfigInv w') w.
Proof.
  intros H1 H2 Hi Hm. split; [exact Hm|]. eapply ConfigInv_same; [exact Hi| |].
  - intros id. by rewrite (H1 w).
  - by rewrite (H2 w).
Qed.

Lemma cache_instance_configs i : frame (λ w, instanceConfigCache (instances w)) (cache_instance i).
Proof. unfold cache_instance. solve_frame. Qed.
Lemma cache_instance_table i : frame (λ w, table w SLATE_instances) (cache_instance i).
Proof. unfold cache_instance. solve_frame. Qed.
#[local] Hint Resolve cache_instance_configs cache_instance_table : slate.

Lemma get_instance_configs id :
  frame (λ w, instanceConfigCache (instances w)) (getApplicationInstance id).
Proof. unfold getApplicationInstance. solve_frame. Qed.
Lemma get_instance_table id : frame (λ w, table w SLATE_instances) (getApplicationInstance id).
Proof. unfold getApplicationInstance. solve_frame. Qed.

Lemma getApplicationInstance_spec id w :
  InstancesInv w → wp (getApplicationInstance id)
    (λ r w', lookup_post instance_kind id w r w' ∧ ConfigInv w') w.
Proof.
  intros [Hi Hc]. apply wp_keeps_configs; [apply get_instance_table|apply get_instance_configs|done|].
  apply (find_by_id_spec instance_kind (λ w, instanceCache (instances w)));
    [done|apply cache_instance_saves| |done].
  intros i it Hr <-. by apply instance_row_found.
Qed.

(** The configuration row of an ID. *)
Lemma config_row_at w id it :
  KindInv instance_kind w → table w SLATE_instances !! config_key id = Some it →
  ∃ c, it !! "config" = Some (AVS c).
Proof.
  intros Hi Hit. destruct (kv_table _ _ Hi _ _ Hit) as [(i & _ & Hk)|Ha].
  - by destruct (config_key_ne id (ApplicationInstance.id i)).
  - apply Ha.
Qed.

Definition config_post id (w : World) (r : Res string) (w' : World) : Prop :=
  InstancesInv w' ∧ read_only w w' ∧
  match r with
  | Ok c => stored_config w id c ∨ (c = "" ∧ (healthy (db w) → ∀ c', ¬ stored_config w id c'))
  | _ => False
  end.

Lemma quiet_InstancesInv w w' : quiet w w' → InstancesInv w → InstancesInv w'.
Proof.
  intros Hq [Hi Hc]. split; [by apply (quiet_KindInv instance_kind w)|by eapply quiet_ConfigInv].
Qed.

(** Caching a configuration. *)
Lemma InstancesInv_cache_config w w' id r :
  InstancesInv w → stored_config w id (CacheRecord.record r) → db w' = db w →
  k_view instance_kind w' = k_view instance_kind w →
  instanceConfigCache (instances w') = <[id := r]> (instanceConfigCache (instances w)) →
  InstancesInv w'.
Proof.
  intros [Hi Hc] Hs Hdb Hv Hcache. split.
  - apply (KindInv_same instance_kind w); [done|by rewrite Hdb|done].
  - intros id' r'. rewrite Hcache, lookup_insert. unfold stored_config. rewrite Hdb.
    case_decide; [intros [= <-]; by subst|]. apply Hc.
Qed.

Lemma getApplicationInstanceConfig_spec id w :
  InstancesInv w → wp (getApplicationInstanceConfig id) (config_post id w) w.
Proof.
  intros Hi. unfold getApplicationInstanceConfig. apply wp_find_cached.
  { intros r w1 Hq Hr. split; [by eapply quiet_InstancesInv|]. split; [apply Hq|].
    left. by apply Hi. }
  intros w1 Hq1. apply wp_databaseQuery. intros w2 Hq2.
  assert (Hq : quiet w w2) by by etrans. clear w1 Hq1 Hq2.
  apply wp_GetItem; [intros e w3 Hq3 Hh|intros w3 Hq3];
    (assert (Hq' : quiet w w3) by by etrans);
    (assert (Hi3 : InstancesInv w3) by by eapply quiet_InstancesInv).
  { split; [done|]. split; [apply Hq'|]. right. split; [done|]. intros H'. by apply Hq in H'. }
  rewrite (proj1 (quiet_ro _ _ Hq)). change (id, id +:+ ":config") with (config_key id).
  destruct (table w SLATE_instances !! config_key id) as [it|] eqn:Hit; simpl.
  - destruct (config_row_at _ _ _ (proj1 Hi) Hit) as (c & Hcfg).
    rewrite bool_decide_false by (intros ->; by rewrite lookup_empty in Hcfg).
    rewrite (attr_string_ok _ _ _ _ Hcfg). eapply wp_run; [reflexivity|].
    eapply wp_run; [reflexivity|]. eapply wp_run; [reflexivity|]. apply wp_ret.
    assert (Hs : stored_config w id c) by by exists it.
    split; [|split; [etrans; [apply Hq'|by apply read_only_db]|by left]].
    eapply (InstancesInv_cache_config w3 _ id
      (CacheRecord.make c instanceCacheValidity (steady (ticks w3)))); try reflexivity; [done|].
    unfold stored_config. by rewrite (proj1 (quiet_ro _ _ Hq')).
  - rewrite bool_decide_true by done. split; [done|]. split; [apply Hq'|]. right.
    split; [done|]. intros _ c' (it & Hit' & _). congruence.
Qed.

(** ** Storing an instance *)

Definition new_instance (w : World) i : Prop :=
  ApplicationInstance.valid i = true ∧ ApplicationInstance.id i ≠ "" ∧
  no_colon (ApplicationInstance.owningGroup i) ∧
  (∀ y, is_instance w y → ApplicationInstance.id y ≠ ApplicationInstance.id i) ∧
  table w SLATE_instances !! config_key (ApplicationInstance.id i) = None.

(** Between the two requests the instance has no configuration, and so it stays if the
    second one is refused. *)
Definition add_instance_post i (w : World) (r : Res bool) (w' : World) : Prop :=
  InstancesInv w' ∧ (healthy (db w) → healthy (db w')) ∧
  (∀ t, t ≠ SLATE_instances → table w' t = table w t) ∧
  match r with
  | Ok true => (∀ y, is_instance w' y ↔ y = without_config i ∨
        (is_instance w y ∧ ApplicationInstance.id y ≠ ApplicationInstance.id i)) ∧
      stored_config w' (ApplicationInstance.id i) (ApplicationInstance.config i)
  | Ok false => ¬ healthy (db w) ∧
      (∀ y, is_instance w' y → y = without_config i ∨ is_instance w y) ∧
      (∀ y, is_instance w y → is_instance w' y)
  | _ => False
  end.

(** The row of a new instance. *)
Lemma instance_row_put i w w' :
  InstancesInv w → new_instance w i → same_caches w w' →
  table_set SLATE_instances (<[(ApplicationInstance.id i, ApplicationInstance.id i) :=
    instance_item i]> (table w SLATE_instances)) w w' →
  InstancesInv w' ∧ ∀ y, is_instance w' y ↔ y = without_config i ∨
    (is_instance w y ∧ ApplicationInstance.id y ≠ ApplicationInstance.id i).
Proof.
  intros [Hk Hc] (Hv & Hne & Hcol & Hnew & Hnoc) Hq Ht. pose proof (table_set_same _ _ _ _ Ht) as Htk.
  assert (Hr : instance_row (without_config i) (instance_item i)) by by split_and!.
  split; [split|].
  - eapply (KindInv_insert instance_kind w); [done|exact Hr|done|done|exact Htk|].
    by apply (same_caches_view instance_kind).
  - eapply ConfigInv_same; [done| |by rewrite (quiet_instances _ _ Hq : instances w' = instances w)].
    intros id. rewrite Htk, lookup_insert_ne; [done|]. intros Heq. by eapply config_key_ne.
  - intros y. unfold is_instance, stored. simpl. rewrite Htk.
    by apply (stored_in_insert instance_kind _ (without_config i)).
Qed.

(** Writing or deleting the configuration of an ID for which none is cached. *)
Lemma config_row_write id w w' :
  InstancesInv w → same_caches w w' → instanceConfigCache (instances w) !! id = None →
  (∀ k, k ≠ config_key id → table w' SLATE_instances !! k = table w SLATE_instances !! k) →
  (∀ it, table w' SLATE_instances !! config_key id = Some it → k_aux instance_kind (config_key id) it) →
  InstancesInv w' ∧ ∀ y, is_instance w' y ↔ is_instance w y.
Proof.
  intros [Hk Hc] Hq Hn Ho Hx.
  assert (Haux : (config_key id).1 ≠ (config_key id).2).
  { intros Heq. apply (config_key_ne id id). simpl in Heq. unfold config_key. by rewrite <- Heq. }
  split; [split|].
  - apply (KindInv_aux instance_kind w w' (config_key id) _ Hk eq_refl); [|done..].
    exact (same_caches_view instance_kind _ _ Hq).
  - intros id' r. rewrite (quiet_instances _ _ Hq : instances w' = instances w). intros Hr.
    destruct (Hc id' r Hr) as (it & Hit & Hcf). exists it. split; [|done].
    rewrite Ho; [done|]. intros ->%config_key_inj. simpl in Hr. congruence.
  - by apply (stored_aux instance_kind w w' (config_key id) _ eq_refl).
Qed.

(** Caching an instance with its configuration. *)
Lemma instance_cached i w :
  InstancesInv w → is_instance w (without_config i) →
  stored_config w (ApplicationInstance.id i) (ApplicationInstance.config i) →
  instanceConfigCache (instances w) !! ApplicationInstance.id i = None →
  wp (_ ← cache_instance i;
      record ← make_record (ApplicationInstance.config i) instanceCacheValidity;
      _ ← modify (upd_instances (upd_instanceConfigCache
             (insert_config (ApplicationInstance.id i) record)));
      mret true) (λ r w', r = Ok true ∧ InstancesInv w' ∧ db w' = db w) w.
Proof.
  intros [Hk Hc] Hst Hown Hn. destruct (cache_instance_saves i w) as (w1 & Hw1 & Hdb1 & _ & Hcat).
  pose proof (cache_instance_configs i w) as Hcfg. rewrite Hw1 in Hcfg. simpl in Hcfg.
  eapply wp_run; [exact Hw1|]. eapply wp_run; [reflexivity|]. eapply wp_run; [reflexivity|].
  apply wp_ret. split; [done|]. split; [|done].
  eapply (InstancesInv_cache_config w1 _ (ApplicationInstance.id i)
    (CacheRecord.make (ApplicationInstance.config i) instanceCacheValidity (steady (ticks w1))));
    [split| |done|done|].
  - eapply (KindInv_cached instance_kind w); [done|exact Hst|by rewrite Hdb1|done].
  - eapply ConfigInv_same; [done|by rewrite Hdb1|by rewrite Hcfg].
  - unfold stored_config. by rewrite Hdb1.
  - simpl. unfold insert_config. by rewrite Hcfg, Hn.
Qed.

Lemma addApplicationInstance_spec i w :
  InstancesInv w → new_instance w i → wp (addApplicationInstance i) (add_instance_post i w) w.
Proof.
  intros Hi Hnew. unfold addApplicationInstance.
  eapply wp_PutItem; [by apply item_key_eq|..].
  { intros e w1 Hq Hh. split; [by eapply quiet_InstancesInv|]. split; [apply Hq|].
    destruct (quiet_ro _ _ Hq) as [Ht _]. split; [done|]. split; [done|].
    unfold is_instance, stored. rewrite Ht. auto. }
  intros w1 Hq1 Hh1 Ht1. destruct (instance_row_put i w w1 Hi Hnew Hq1 Ht1) as [Hi1 Hst1].
  eapply (wp_PutItem _ _ (config_key (ApplicationInstance.id i))); [by apply item_key_eq|..].
  { intros e w2 Hq Hh. split; [by eapply quiet_InstancesInv|].
    destruct (quiet_ro _ _ Hq) as [Ht Hh']. split; [auto|].
    split; [intros t Hne'; rewrite Ht; by eapply table_set_other|].
    split; [auto|]. assert (Hst2 : ∀ y, is_instance w2 y ↔ is_instance w1 y)
      by (intros y; by apply stored_tables).
    split; intros y; rewrite Hst2, Hst1; [tauto|]. intros Hy. right. split; [done|]. by apply Hnew. }
  intros w2 Hq2 Hh2 Ht2. pose proof (table_set_same _ _ _ _ Ht2) as Htk2.
  assert (Hn : instanceConfigCache (instances w1) !! ApplicationInstance.id i = None).
  { rewrite (quiet_instances _ _ Hq1 : instances w1 = instances w). apply eq_None_not_Some. intros [r Hr].
    destruct (proj2 Hi _ _ Hr) as (it & Hit & _). destruct Hnew as (_ & _ & _ & _ & Hnoc). congruence. }
  destruct (config_row_write (ApplicationInstance.id i) w1 w2) as [Hi2 Hst2]; [done..| | |].
  { intros k Hk. by rewrite Htk2, lookup_insert_ne. }
  { rewrite Htk2, lookup_insert_eq. intros it [= <-]. split_and!; try done. by eexists. }
  assert (Hown : stored_config w2 (ApplicationInstance.id i) (ApplicationInstance.config i)).
  { eexists. rewrite Htk2, lookup_insert_eq. by split. }
  eapply wp_mono, instance_cached; [|done|by apply Hst2, Hst1; left|done|].
  2: by rewrite (quiet_instances _ _ Hq2 : instances w2 = instances w1).
  intros r w3 (-> & Hi3 & Hdb). split; [done|]. rewrite Hdb. split; [auto|]. split; [|split].
  - intros t Hne. rewrite (table_set_other _ _ _ _ _ Ht2 Hne). by eapply table_set_other.
  - intros y. rewrite <- Hst1, <- Hst2. apply stored_tables. by rewrite Hdb.
  - unfold stored_config. by rewrite Hdb.
Qed.

(** ** Removing an instance *)

Definition remove_instance_post id (w : World) (r : Res bool) (w' : World) : Prop :=
  InstancesInv w' ∧ (healthy (db w) → healthy (db w')) ∧
  (∀ t, t ≠ SLATE_instances → table w' t = table w t) ∧
  match r with
  | Ok true => (∀ y, is_instance w' y ↔ is_instance w y ∧ ApplicationInstance.id y ≠ id) ∧
      ∀ c, ¬ stored_config w' id c
  | Ok false => ¬ healthy (db w) ∧ (∀ y, is_instance w' y → is_instance w y) ∧
      (∀ y, is_instance w y → ApplicationInstance.id y ≠ id → is_instance w' y)
  | _ => False
  end.

Lemma forget_instance_configs id w :
  instanceConfigCache (instances (forget_instance id w).2) =
    delete id (instanceConfigCache (instances w)).
Proof.
  unfold forget_instance, mbind, M_bind, gets. simpl.
  by destruct (instanceCache (instances w) !! id).
Qed.

(** An instance that no cache has any more is deleted with its configuration. *)
Lemma instance_row_deleted id w w' :
  InstancesInv w → forgotten instance_kind id w → same_caches w w' →
  table_set SLATE_instances (delete (id, id) (table w SLATE_instances)) w w' →
  InstancesInv w' ∧ ∀ y, is_instance w' y ↔ is_instance w y ∧ ApplicationInstance.id y ≠ id.
Proof.
  intros [Hk Hc] Hf Hq Ht. pose proof (table_set_same _ _ _ _ Ht) as Htk. split; [split|].
  - apply (KindInv_delete instance_kind id w w' Hk Hf Htk). exact (same_caches_view instance_kind _ _ Hq).
  - eapply ConfigInv_same; [exact Hc| |by rewrite (quiet_instances _ _ Hq : instances w' = instances w)].
    intros id'. rewrite Htk, lookup_delete_ne; [done|]. intros Heq. by eapply config_key_ne.
  - intros y. unfold is_instance, stored. simpl. rewrite Htk. apply (stored_in_delete instance_kind).
Qed.

Lemma removeApplicationInstance_spec id w :
  InstancesInv w → wp (removeApplicationInstance id) (remove_instance_post id w) w.
Proof.
  intros [Hk Hc]. unfold removeApplicationInstance.
  destruct (forget_instance_forgets id w) as (w1 & Hw1 & Hdb1 & Hu).
  pose proof (forget_instance_configs id w) as Hcfg1. rewrite Hw1 in Hcfg1. simpl in Hcfg1.
  destruct (KindInv_forget instance_kind id w w1 Hk Hdb1 Hu) as [Hk1 Hf1].
  assert (Hi1 : InstancesInv w1).
  { split; [done|]. eapply ConfigInv_same; [exact Hc|by rewrite Hdb1|].
    rewrite Hcfg1. apply delete_subseteq. }
  assert (Hst1 : ∀ y, is_instance w1 y ↔ is_instance w y)
    by (intros y; apply stored_tables; by rewrite Hdb1).
  eapply wp_run; [exact Hw1|]. apply wp_DeleteItem.
  { intros e w2 Hq Hh. destruct (quiet_ro _ _ Hq) as [Ht Hh'].
    assert (Hst2 : ∀ y, is_instance w2 y ↔ is_instance w y)
      by (intros y; rewrite <- Hst1; by apply stored_tables).
    split; [by apply (quiet_InstancesInv w1)|]. rewrite <- Hdb1. split; [auto|].
    split; [intros; by rewrite Ht|]. split; [intros Hd; by destruct (Hh Hd) as (? & [=] & _)|].
    split; intros y; by rewrite Hst2. }
  intros w2 Hq2 Hh2 _ Ht2. destruct (instance_row_deleted id w1 w2 Hi1 Hf1 Hq2 Ht2) as [Hi2 Hst2].
  assert (Hothers2 : ∀ t, t ≠ SLATE_instances → table w2 t = table w t).
  { intros t Hne. rewrite (table_set_other _ _ _ _ _ Ht2 Hne). by rewrite Hdb1. }
  apply wp_DeleteItem.
  { intros e w3 Hq Hh. destruct (quiet_ro _ _ Hq) as [Ht Hh'].
    assert (Hst3 : ∀ y, is_instance w3 y ↔ is_instance w2 y)
      by (intros y; by apply stored_tables).
    split; [by apply (quiet_InstancesInv w2)|]. rewrite <- Hdb1. split; [auto|].
    split; [intros t Hne; rewrite Ht, Hothers2 by done; by rewrite Hdb1|].
    split; [intros Hd; by destruct (Hh (Hh2 Hd)) as (? & [=] & _)|].
    split; intros y; rewrite Hst3, Hst2, Hst1; tauto. }
  intros w3 Hq3 Hh3 _ Ht3. pose proof (table_set_same _ _ _ _ Ht3) as Htk3.
  change (id, id +:+ ":config") with (config_key id) in Htk3.
  destruct (config_row_write id w2 w3) as [Hi3 Hst3]; [done|done| | | |].
  { rewrite (quiet_instances _ _ Hq2 : instances w2 = instances w1), Hcfg1. apply lookup_delete_eq. }
  { intros k Hne. by rewrite Htk3, lookup_delete_ne. }
  { intros it. by rewrite Htk3, lookup_delete_eq. }
  apply wp_ret. split; [done|]. split; [rewrite <- Hdb1; auto|]. split; [|split].
  - intros t Hne. rewrite (table_set_other _ _ _ _ _ Ht3 Hne). auto.
  - intros y. by rewrite Hst3, Hst2, Hst1.
  - intros c (it & Hit & _). rewrite Htk3, lookup_delete_eq in Hit. done.
Qed.
(** ** Listings *)

Lemma cache_instance_expiration i w :
  instanceCacheExpirationTime (instances (cache_instance i w).2) =
  instanceCacheExpirationTime (instances w).
Proof.
  revert w. change (frame (λ w, instanceCacheExpirationTime (instances w)) (cache_instance i)).
  unfold cache_instance. solve_frame.
Qed.

#[global] Instance instance_listing :
  ListingLaws (λ w, instanceCacheExpirationTime (instances w)) (λ w, instanceCache (instances w))
    SLATE_instances (EExists "ctime") list_instance
    (λ _ time, modify (upd_instances (upd_instanceCacheExpirationTime (λ _, time))))
    (KindInv instance_kind) (stored instance_kind) instance_row ApplicationInstance.id
    without_config ApplicationInstance.none.
Proof.
  apply (kind_listing instance_kind) with (save := cache_instance) (decode := λ item,
    instance_of_item (instance_attr item "ID") (instance_attr item "name") instance_err_scan item).
  - done.
  - apply cache_instance_saves.
  - intros i it Hr. simpl. apply bool_decide_eq_true. eexists.
    exact (instance_row_lookup i it "ctime" _ Hr eq_refl).
  - intros k it (_ & _ & _ & Hn & _). simpl. rewrite Hn. reflexivity.
  - intros i it. apply instance_row_listed.
  - done.
  - intros w w' Hq. by rewrite (quiet_instances _ _ Hq).
  - intros i w. apply cache_instance_expiration.
  - intros l time w Hi. eexists. split; [reflexivity|]. split; [done|]. solve_recatalogued.
Qed.

Definition InstancesListed : World → Prop :=
  listed (expiration := λ w, instanceCacheExpirationTime (instances w))
    (cache := λ w, instanceCache (instances w)) (stored := is_instance)
    (id := ApplicationInstance.id).

(** A listing returns instances only, but for the invalid instance, and every instance if
    the service is available; a configuration may or may not come with it. *)
Definition listApplicationInstances_post (w : World) (r : Res (list ApplicationInstance.t))
    (w' : World) : Prop :=
  KindInv instance_kind w' ∧ InstancesListed w' ∧ read_only w w' ∧
  ∃ l, r = Ok l ∧
    (∀ i, i ∈ l → i = ApplicationInstance.none ∨ is_instance w (without_config i)) ∧
    (healthy (db w) → ∀ i, is_instance w i → i ∈ without_config <$> l).

Lemma listApplicationInstances_spec `{!ClockLaws} fuel w :
  KindInv instance_kind w → InstancesListed w →
  pages_left (db w) SLATE_instances (EExists "ctime") None < fuel →
  wp (listApplicationInstances fuel) (listApplicationInstances_post w) w.
Proof. apply list_all_spec. Qed.

(** [listApplicationInstancesByClusterOrGroup] is the common listing. *)
Definition extend_instances (group cluster : string) (time : Z) : Store unit :=
  if negb (str_empty group) && negb (str_empty cluster) then
    modify (upd_instances (upd_instanceByGroupAndClusterCache
      (λ m, (mm_update_expiration (group_and_cluster group cluster) time m).2)))
  else if negb (str_empty group) then
    modify (upd_instances (upd_instanceByGroupCache (λ m, (mm_update_expiration group time m).2)))
  else
    modify (upd_instances (upd_instanceByClusterCache
      (λ m, (mm_update_expiration cluster time m).2))).

Lemma list_instances_by group cluster :
  listApplicationInstancesByClusterOrGroup group cluster =
  list_by instance_kind decode_listed_instance
    (λ w, instanceByGroupAndClusterCache (instances w)) (λ w, instanceByGroupCache (instances w))
    (λ w, instanceByClusterCache (instances w)) cache_instance extend_instances group cluster
    instanceCacheValidity.
Proof. reflexivity. Qed.

Definition list_instances_post (group cluster : string) (w : World) :
    Res (list ApplicationInstance.t) → World → Prop :=
  list_by_post instance_kind ApplicationInstance.owningGroup ApplicationInstance.cluster
    (λ w, instanceByGroupAndClusterCache (instances w)) (λ w, instanceByGroupCache (instances w))
    (λ w, instanceByClusterCache (instances w)) group cluster w.

Definition distinct_instance_clusters : World → string → Prop :=
  distinct_cluster_ids instance_kind ApplicationInstance.cluster.

Lemma listByClusterOrGroup_spec group cluster w :
  KindInv instance_kind w → group_arg group → cluster_arg cluster → no_colon group →
  distinct_instance_clusters w cluster →
  wp (listApplicationInstancesByClusterOrGroup group cluster)
    (list_instances_post group cluster w) w.
Proof.
  intros. rewrite list_instances_by.
  apply (list_by_spec instance_kind ApplicationInstance.owningGroup ApplicationInstance.cluster
    decode_listed_instance (ByGroup := instance_ByGroup) (ByCluster := instance_ByCluster)); try done.
  - intros w'. simpl. rewrite !elem_of_cons. auto 10.
  - intros w'. simpl. rewrite !elem_of_cons. auto 10.
  - intros w'. simpl. rewrite !elem_of_cons. auto 10.
  - apply cache_instance_saves.
  - intros g c time w'. unfold extend_instances.
    destruct (negb (str_empty g) && negb (str_empty c)), (negb (str_empty g));
      (eexists; split; [reflexivity|]; split; [done|]; solve_recatalogued).
Qed.

Definition named_instances_post (name : string) (w : World) :
    Res (list ApplicationInstance.t) → World → Prop :=
  category_post instance_kind (λ i, ApplicationInstance.name i = name) True w.

Lemma findInstancesByName_spec name w :
  KindInv instance_kind w → wp (findInstancesByName name) (named_instances_post name w) w.
Proof.
  intros Hi. unfold findInstancesByName. apply wp_databaseQuery. intros w1 Hq1.
  apply wp_Query; [intros e w2 Hq2 Hh|intros l w2 Hq2 Hl];
    (assert (Hq : quiet w w2) by by etrans);
    (assert (Hi2 : KindInv instance_kind w2) by by apply (quiet_KindInv instance_kind w)).
  { split; [done|]. split; [apply Hq|]. exists []. split; [done|].
    split; [by intros x ?%not_elem_of_nil|]. intros H'. by apply Hq1 in H'. }
  rewrite (proj1 (quiet_ro _ _ Hq1)) in Hl.
  assert (Hrows : ∀ k it, table w SLATE_instances !! k = Some it → is_Some (it !! "name") →
    ∃ i, instance_row i it ∧ k = (ApplicationInstance.id i, ApplicationInstance.id i)).
  { intros k it Hit Hs. destruct (kv_table _ _ Hi _ _ Hit) as [?|(_ & _ & _ & _ & Hn & _)]; [done|].
    rewrite Hn in Hs. by destruct Hs. }
  assert (He := index_query instance_row (λ i, (ApplicationInstance.id i, ApplicationInstance.id i))
    ApplicationInstance.name SLATE_instances "ByName" instance_ByName "name" name ETrue _ l
    eq_refl eq_refl Hrows (λ i it Hr, instance_row_lookup i it "name" _ Hr eq_refl) Hl).
  assert (Hdec : ∀ i it e, instance_row i it → ApplicationInstance.name i = name →
    index_entry SLATE_instances (Some "ByName") it = Some e →
    instance_of_item (instance_attr e "ID") (Ok name) instance_err_query e = Ok i).
  { intros i it e Hr <- Hen.
    eapply (instance_row_entry i it e "ByName" instance_ByName); try done; [|by left].
    intros a. rewrite !elem_of_cons, elem_of_nil.
    by intros [->|[->|[->|[->|[->|[->|[]]]]]]]; compute_done. }
  assert (Hst : ∀ i, is_instance w2 i ↔ is_instance w i) by (intros i; apply read_only_stored, Hq).
  apply wp_last, (wp_collect instance_kind); [apply cache_instance_saves|done| |].
  { intros e (i & it & Hit & Hr & Hn & Hen & _)%He. exists i. split; [by eapply Hdec|].
    apply Hst. by exists it. }
  intros l' w3 Hi3 Hdb3 Hsound Hcomplete Horigin. apply wp_ret. split; [done|].
  split; [etrans; [apply Hq|by apply read_only_db]|]. exists l'. split; [done|]. split.
  - intros i Hil. assert (Hs : is_instance w i) by by apply Hst, Hsound.
    rewrite (stored_norm instance_kind w i Hs). split; [done|].
    destruct (Horigin i Hil) as (e & (i' & it & Hit & Hr & Hn & Hen & _)%He & Hi').
    rewrite (Hdec i' it e Hr Hn Hen) in Hi'. by injection Hi' as <-.
  - intros _ _ i (it & Hit & Hr) Hn.
    destruct (proj1 (index_entry_is_some SLATE_instances "ByName" instance_ByName it eq_refl))
      as [e Hen].
    { eexists. by eapply (instance_row_lookup i it "name"). }
    apply (Hcomplete e i); [|exact (Hdec i it e Hr Hn Hen)]. apply He. by exists i, it.
Qed.
End instance_operations.

(** * Properties *)

Section instance_theorems.
Context `{D : Dynamo} `{P : Platform} `{L : !DynamoLaws}.

(** The operations on one application instance. A lookup returns the stored instance
    with that ID, up to its configuration, or - the service being available - the invalid
    instance exactly when there is none; its configuration is looked up in a row of its
    own; adding a new instance stores both rows, removing an instance deletes both and
    leaves nothing in the caches. [false] is returned only if the service refused a
    request; then an added instance may be there without its configuration, and no other
    instance has changed. *)
Theorem instance_operations_correct (id : string) (i : ApplicationInstance.t) (w : World) :
  InstancesInv w →
  wp (getApplicationInstance id)
    (λ r w', lookup_post instance_kind id w r w' ∧ ConfigInv w') w ∧
  wp (getApplicationInstanceConfig id) (config_post id w) w ∧
  (new_instance w i → wp (addApplicationInstance i) (add_instance_post i w) w) ∧
  wp (removeApplicationInstance id) (remove_instance_post id w) w.
Proof.
  intros Hi. split; [by apply getApplicationInstance_spec|].
  split; [by apply getApplicationInstanceConfig_spec|].
  split; [by apply addApplicationInstance_spec|by apply removeApplicationInstance_spec].
Qed.

(** The listings of application instances. All of them, those of a group or a cluster
    or both, and those with a name: each listing returns stored instances of that kind only
    and - the service being available and, for a group or cluster, the caches not recent
    enough to answer - all of them; the rows of the configurations are not taken for
    instances. *)
Theorem instance_listings_correct `{!ClockLaws} (fuel : nat) (group cluster name : string)
    (w : World) :
  KindInv instance_kind w →
  (InstancesListed w → pages_left (db w) SLATE_instances (EExists "ctime") None < fuel →
   wp (listApplicationInstances fuel) (listApplicationInstances_post w) w) ∧
  (group_arg group → cluster_arg cluster → no_colon group →
   distinct_instance_clusters w cluster →
   wp (listApplicationInstancesByClusterOrGroup group cluster)
     (list_instances_post group cluster w) w) ∧
  wp (findInstancesByName name) (named_instances_post name w) w.
Proof.
  intros Hi. split; [by apply listApplicationInstances_spec|].
  split; [by apply listByClusterOrGroup_spec|by apply findInstancesByName_spec].
Qed.
End instance_theorems.

Section instance_witnesses.
Import Demo.

Definition demo_instance : ApplicationInstance.t :=
  ApplicationInstance.mk true "instance_1" "nginx-web" "nginx" "group_1" "cluster_1" "conf" "now".

Lemma empty_InstancesInv : InstancesInv empty.
Proof.
  split; [split|].
  - intros k it. by rewrite empty_table, lookup_empty.
  - intros i (it & Hit & _). by rewrite empty_table, lookup_empty in Hit.
  - split; [intros k r; simpl; by rewrite lookup_empty|].
    intros p Hp k r Hin. simpl in Hp. rewrite !elem_of_cons, elem_of_nil in Hp.
    by destruct Hp as [->|[->|[->|[->|[]]]]]; apply in_category_empty in Hin.
  - intros id r. simpl. by rewrite lookup_empty.
Qed.

Lemma demo_new_instance : new_instance empty demo_instance.
Proof.
  split_and!; try done. intros i (it & Hit & _). by rewrite empty_table, lookup_empty in Hit.
Qed.

(** The server after adding the instance. *)
Definition demo_instances : World := (addApplicationInstance demo_instance empty).2.

Lemma demo_instances_facts :
  InstancesInv demo_instances ∧
  ∀ i, is_instance demo_instances i ↔ i = without_config demo_instance.
Proof.
  pose proof (addApplicationInstance_spec demo_instance empty empty_InstancesInv demo_new_instance)
    as Ha. unfold wp, add_instance_post in Ha.
  assert (Hres : (addApplicationInstance demo_instance empty).1 = Ok true)
    by (vm_compute; reflexivity).
  destruct Ha as (Hi & _ & _ & Hs). rewrite Hres in Hs. destruct Hs as [Hs _].
  split; [exact Hi|]. intros i. etrans; [apply Hs|].
  split; [|by left]. intros [?|[(it & Hit & _) _]]; [done|].
  by rewrite empty_table, lookup_empty in Hit.
Qed.

Lemma demo_distinct_instances : distinct_instance_clusters demo_instances "cluster_1".
Proof. intros _ i Hi. apply demo_instances_facts in Hi as ->. done. Qed.

Lemma instance_operations_witness :
  wp (getApplicationInstanceConfig "instance_1") (config_post "instance_1" demo_instances)
    demo_instances ∧
  (getApplicationInstanceConfig "instance_1" demo_instances).1 = Ok "conf".
Proof.
  split; [|vm_compute; reflexivity].
  exact (proj1 (proj2 (instance_operations_correct "instance_1" demo_instance demo_instances
    (proj1 demo_instances_facts)))).
Defined.

Lemma instance_listings_witness :
  wp (listApplicationInstancesByClusterOrGroup "group_1" "cluster_1")
    (list_instances_post "group_1" "cluster_1" demo_instances) demo_instances ∧
  (findInstancesByName "nginx-web" demo_instances).1 = Ok [without_config demo_instance].
Proof.
  split; [|vm_compute; reflexivity].
  exact (proj1 (proj2 (instance_listings_correct 5 "group_1" "cluster_1" "nginx-web" demo_instances
    (proj1 (proj1 demo_instances_facts)))) (or_intror eq_refl) (or_intror eq_refl) eq_refl
    demo_distinct_instances).
Defined.
End instance_witnesses.
