(* ===== verification/StoreSecrets.v ===== *)
(** Secrets: the operations of [PersistentStore] on the secrets table and the
    caches of secrets, and the encryption of their contents
    (src/PersistentStore.cpp). scrypt is vendored code: its two functions are a
    parameter. *)

From S2P Require Import Prelude Entities Cache Dynamo Store.
From S2P Require Import Demo Listing Catalogue StoreGroups StoreClusters StoreInstances.

(** [scryptenc_buf] draws a salt from the operating system; [scryptdec_buf] does
    not. Both return an error code, or the output buffer. *)
Class Scrypt `{Platform} := {
  scryptenc_buf : string → string → FS → (Z + string) * FS;
  scryptdec_buf : string → string → Z + string;
  (** [std::to_string(int)] *)
  show_int : Z → string;
}.

(** The format documented by scrypt: a header and a signature of 128 bytes in all,
    beginning with the name of the format, and decryption inverting encryption. *)
Class ScryptLaws `{Scrypt} : Prop := {
  scryptenc_ok : ∀ data key f out f', scryptenc_buf data key f = (inr out, f') →
    str_size out = str_size data + 128 ∧ str_take 6 out = "scrypt" ∧
    scryptdec_buf out key = inr data;
}.

Section secrets.
Context `{D : Dynamo} `{P : Platform} `{!Scrypt}.
(** the member [secretKey], read from the encryption key file *)
Context (secretKey : string).

Definition encryptSecret (s : string) : Store string :=
  let enc := scryptenc_buf s secretKey in
  r ← (λ w, (Ok (enc (fs w)).1, upd_fs (λ f, (enc f).2) w));
  match r with
  | inl err => throw ("Failed to encrypt with scrypt: error " +:+ show_int err)
  | inr result => mret result
  end.

Definition decryptSecret (s : Secret.t) : Res string :=
  if str_size (Secret.data s) <? 128 then
    Throw "Invalid encrypted data: too short to contain header"
  else
    match scryptdec_buf (Secret.data s) secretKey with
    | inl err => Throw ("Failed to decrypt with scrypt: error " +:+ show_int err)
    | inr output => Ok output
    end.

Definition secret_item (s : Secret.t) : Item :=
  {["ID" := AVS (Secret.id s); "sortKey" := AVS (Secret.id s);
    "name" := AVS (Secret.name s); "owningGroup" := AVS (Secret.group s);
    "cluster" := AVS (Secret.cluster s); "ctime" := AVS (Secret.ctime s);
    "contents" := AVB (Secret.data s)]}.

Definition secret_attr (item : Item) (key : string) : Res string :=
  attr_string item key ("Secret record missing " +:+ key +:+ " attribute").

(** Decoding of an item, with the ID, group and cluster found by the arguments. *)
Definition secret_of_item (id group cluster : Res string) (item : Item) : Res Secret.t :=
  name ← secret_attr item "name";
  id ← id;
  group ← group;
  cluster ← cluster;
  ctime ← secret_attr item "ctime";
  data ← attr_blob item "contents" "Secret record missing contents attribute";
  mret (Secret.mk true id name group cluster ctime data).

Definition cache_secret (secret : Secret.t) : Store unit :=
  record ← make_record secret secretCacheValidity;
  _ ← modify (upd_secrets (upd_secretCache (replaceCacheRecord (Secret.id secret) record)));
  _ ← multi_insert (λ f, upd_secrets (upd_secretByGroupCache f)) (Secret.group secret) record;
  multi_insert (λ f, upd_secrets (upd_secretByGroupAndClusterCache f))
    (group_and_cluster (Secret.group secret) (Secret.cluster secret)) record.

(** Encrypted data begins with the name of the format. *)
Definition addSecret (secret : Secret.t) : Store bool :=
  if negb (bool_decide (str_take 6 (Secret.data secret) = "scrypt")) then
    throw "Secret data does not have valid encryption header"
  else if str_size (Secret.data secret) <? 128 then
    throw "Secret data does not have valid encryption header"
  else
    outcome ← request (PutItem SLATE_secrets (secret_item secret));
    match outcome with
    | inl err => mret false
    | inr _ => _ ← cache_secret secret; mret true
    end.

(** The whole category by group and cluster is dropped. *)
Definition forget_secret (id : string) : Store unit :=
  c ← gets (λ w, secretCache (secrets w));
  _ ← match c !! id with
      | Some record =>
          let secret := CacheRecord.record record in
          _ ← modify (upd_secrets (upd_secretByGroupCache
                 (λ m, (mm_erase (Secret.group secret) record m).2)));
          modify (upd_secrets (upd_secretByGroupAndClusterCache
            (λ m, (mm_erase_key (group_and_cluster (Secret.group secret)
                                   (Secret.cluster secret)) m).2)))
      | None => mret tt
      end;
  modify (upd_secrets (upd_secretCache (delete id))).

Definition removeSecret (id : string) : Store bool :=
  _ ← forget_secret id;
  outcome ← request (DeleteItem SLATE_secrets (id, id) None);
  match outcome with
  | inl err => mret false
  | inr _ => mret true
  end.

Definition getSecret (id : string) : Store Secret.t :=
  cached ← find_cached (λ w, secretCache (secrets w)) id;
  match cached with
  | Some secret => mret secret
  | None =>
      _ ← databaseQuery;
      outcome ← request (GetItem SLATE_secrets (id, id));
      match outcome with
      | inl err => mret Secret.none
      | inr item =>
          if bool_decide (item = ∅) then mret Secret.none else
          secret ← lift (secret_of_item (Ok id)
                     (attr_string item "owningGroup" "Secret record missing owning group attribute")
                     (secret_attr item "cluster") item);
          _ ← cache_secret secret;
          mret secret
      end
  end.

(** The query of a listing; with neither a group nor a cluster, which an
    assertion forbids, nothing is sent and the outcome is a failure. *)
Definition secrets_query (group cluster : string) : Store (outcome (list Item)) :=
  if negb (str_empty group) then
    request (Query SLATE_secrets (Some "ByGroup") (mkKC "owningGroup" (AVS group) None)
               (if negb (str_empty cluster) then EContains "cluster" cluster else ETrue))
  else if negb (str_empty cluster) then
    request (Query SLATE_secrets (Some "ByCluster") (mkKC "cluster" (AVS cluster) None) ETrue)
  else mret (inl "").

(** The group and the cluster of the arguments, when they are given, are taken for
    those of the secret. *)
Definition listSecrets (group cluster : string) : Store (list Secret.t) :=
  g ← normalize_nonempty (λ g, normalizeGroupID g false) group;
  match g with
  | None => mret []
  | Some group =>
      c ← normalize_nonempty normalizeClusterID cluster;
      match c with
      | None => mret []
      | Some cluster =>
          let gc := group_and_cluster group cluster in
          cached ← (if negb (str_empty group) && negb (str_empty cluster) then
                      maybeReturnCachedCategoryMembers
                        (λ w, secretByGroupAndClusterCache (secrets w)) gc
                    else if negb (str_empty group) then
                      maybeReturnCachedCategoryMembers
                        (λ w, secretByGroupCache (secrets w)) group
                    else mret None);
          match cached with
          | Some results => mret results
          | None =>
              _ ← databaseQuery;
              outcome ← secrets_query group cluster;
              match outcome with
              | inl err => mret []
              | inr items =>
                  result ← for_collect items (λ item,
                    secret ← lift (secret_of_item (secret_attr item "ID")
                      (if str_empty group
                       then attr_string item "owningGroup"
                              "Secret record missing owning group attribute"
                       else Ok group)
                      (if str_empty cluster then secret_attr item "cluster" else Ok cluster)
                      item);
                    _ ← cache_secret secret;
                    mret secret);
                  t ← now;
                  let time := (t + secretCacheValidity)%Z in
                  _ ← (if negb (str_empty cluster) then
                         modify (upd_secrets (upd_secretByGroupAndClusterCache
                           (λ m, (mm_update_expiration gc time m).2)))
                       else
                         modify (upd_secrets (upd_secretByGroupCache
                           (λ m, (mm_update_expiration group time m).2))));
                  mret result
              end
          end
      end
  end.

Definition findSecretByName (group cluster name : string) : Store Secret.t :=
  secrets ← listSecrets group cluster;
  mret (default Secret.none
          (snd <$> list_find (λ s, Secret.name s = name) secrets)).
End secrets.

(** * What the table and the caches hold *)

Section secret_invariant.
Context `{D : Dynamo} `{P : Platform}.
Implicit Types (s : Secret.t) (it : Item).

(** The row of a secret; IDs of groups have no colon. *)
Definition secret_row s it : Prop :=
  Secret.valid s = true ∧ secret_item s ⊆ it ∧ no_colon (Secret.group s).

Definition secret_category s : string := group_and_cluster (Secret.group s) (Secret.cluster s).

Definition secret_kind : Kind Secret.t := {|
  k_table := SLATE_secrets;
  k_row := secret_row;
  k_aux _ _ := False;
  k_id := Secret.id;
  k_norm s := s;
  k_none := Secret.none;
  k_view w := mkCatalogue (secretCache (secrets w))
    [(Secret.group, secretByGroupCache (secrets w));
     (secret_category, secretByGroupAndClusterCache (secrets w))] |}.

Lemma secret_row_lookup s it a v :
  secret_row s it → secret_item s !! a = Some v → it !! a = Some v.
Proof. intros (_ & Hsub & _) Ha. by eapply lookup_weaken. Qed.

(** Any part of the row that has the attributes of [addSecret] decodes to the secret. *)
Lemma secret_of_item_ok s (e : Item) id group cluster :
  Secret.valid s = true →
  (∀ a, a ∈ ["name"; "ctime"; "contents"] → e !! a = secret_item s !! a) →
  id = Ok (Secret.id s) → group = Ok (Secret.group s) → cluster = Ok (Secret.cluster s) →
  secret_of_item id group cluster e = Ok s.
Proof.
  intros Hv He -> -> ->. unfold secret_of_item, secret_attr, mbind, Res_bind. simpl.
  rewrite (attr_string_ok _ _ _ (Secret.name s)), (attr_string_ok _ _ _ (Secret.ctime s)),
    (attr_blob_ok _ _ _ (Secret.data s));
    [destruct s; simpl in *; by subst|..];
    rewrite He by (rewrite !elem_of_cons; auto); reflexivity.
Qed.

Lemma secret_row_attrs s it (e : Item) a :
  secret_row s it → a ∈ ["name"; "ctime"; "contents"] →
  (∀ v, it !! a = Some v → e !! a = Some v) → e !! a = secret_item s !! a.
Proof.
  intros Hr Ha He. assert (Hs : is_Some (secret_item s !! a)).
  { rewrite !elem_of_cons, elem_of_nil in Ha. destruct Ha as [->|[->|[->|[]]]]; by eexists. }
  destruct Hs as [v Hv]. rewrite Hv. apply He. by eapply secret_row_lookup.
Qed.

Lemma secret_row_found s it :
  secret_row s it →
  secret_of_item (Ok (Secret.id s))
    (attr_string it "owningGroup" "Secret record missing owning group attribute")
    (secret_attr it "cluster") it = Ok s.
Proof.
  intros Hr. apply secret_of_item_ok; try done; [apply Hr| |..].
  - intros a Ha. by eapply secret_row_attrs.
  - by eapply attr_string_ok, secret_row_lookup.
  - by eapply attr_string_ok, secret_row_lookup.
Qed.

(** The entry of a secret in an index which has all its attributes. *)
Lemma secret_row_entry s it e index ix id group cluster :
  secret_row s it → assoc index (indexes SLATE_secrets) = Some ix →
  index_entry SLATE_secrets (Some index) it = Some e →
  (∀ a, a ∈ ["ID"; "name"; "owningGroup"; "cluster"; "ctime"; "contents"] →
    a ∈ index_attributes SLATE_secrets ix) →
  id = secret_attr e "ID" →
  group = Ok (Secret.group s) ∨
    group = attr_string e "owningGroup" "Secret record missing owning group attribute" →
  cluster = Ok (Secret.cluster s) ∨ cluster = secret_attr e "cluster" →
  secret_of_item id group cluster e = Ok s.
Proof.
  intros Hr Hix He Hattrs -> Hg Hc.
  assert (Hp : ∀ a v, a ∈ ["ID"; "name"; "owningGroup"; "cluster"; "ctime"; "contents"] →
    it !! a = Some v → e !! a = Some v).
  { intros a v Ha Hv. by rewrite (index_entry_lookup_eq SLATE_secrets index ix it e) by auto. }
  assert (Hs : ∀ a v, a ∈ ["ID"; "name"; "owningGroup"; "cluster"; "ctime"; "contents"] →
    secret_item s !! a = Some v → e !! a = Some v).
  { intros a v Ha Hv. apply Hp; [done|]. by eapply secret_row_lookup. }
  apply secret_of_item_ok; [apply Hr| |..].
  - intros a Ha. eapply secret_row_attrs; [done..|]. intros v. apply Hp.
    rewrite !elem_of_cons, elem_of_nil in *. naive_solver.
  - eapply attr_string_ok, Hs; [compute_done|done].
  - destruct Hg as [->| ->]; [done|]. eapply attr_string_ok, Hs; [compute_done|done].
  - destruct Hc as [->| ->]; [done|]. eapply attr_string_ok, Hs; [compute_done|done].
Qed.

Context `{L : !DynamoLaws}.

#[global] Instance secret_kind_laws : KindLaws secret_kind.
Proof.
  split; try done.
  - intros s1 s2 it R1 R2. assert (Hid : Secret.id s1 = Secret.id s2).
    { apply AVS_inj. pose proof (secret_row_lookup _ _ "ID" _ R1 eq_refl).
      pose proof (secret_row_lookup _ _ "ID" _ R2 eq_refl). congruence. }
    apply secret_row_found in R1, R2. rewrite Hid in R1. congruence.
  - intros s it Hr. by apply item_key_eq; eapply secret_row_lookup.
  - intros w w' Hq. simpl. by rewrite (quiet_secrets _ _ Hq).
Qed.

Definition SecretsInv : World → Prop := KindInv secret_kind.
Definition is_secret : World → Secret.t → Prop := stored secret_kind.

Lemma cache_secret_saves : saves secret_kind cache_secret.
Proof.
  intros s w. eexists. split; [reflexivity|]. split; [done|]. split; [simpl; lia|].
  exists (CacheRecord.make s secretCacheValidity (steady (ticks w))).
  split; [done|]. split; [reflexivity|]. solve_catalogued.
Qed.

Lemma forget_secret_forgets : forgets secret_kind forget_secret.
Proof.
  intros id w. unfold forget_secret, mbind, M_bind, gets. simpl.
  destruct (secretCache (secrets w) !! id) as [r|] eqn:Hr.
  - eexists. split; [reflexivity|]. split; [done|]. split; [reflexivity|]. simpl.
    solve_uncatalogued Hr.
  - eexists. split; [reflexivity|]. split; [done|]. split; [reflexivity|]. simpl.
    solve_uncatalogued Hr.
Qed.
(** ** Operations *)

Lemma getSecret_spec id w :
  SecretsInv w → wp (getSecret id) (lookup_post secret_kind id w) w.
Proof.
  intros Hi. apply (find_by_id_spec secret_kind (λ w, secretCache (secrets w)));
    [done|apply cache_secret_saves| |done].
  intros s it Hr <-. by apply secret_row_found.
Qed.

(** The data has the header of the encryption format, and room for it. *)
Definition encrypted (data : string) : Prop :=
  str_take 6 data = "scrypt" ∧ 128 ≤ str_size data.

#[global] Instance encrypted_dec data : Decision (encrypted data).
Proof. unfold encrypted. apply _. Defined.

(** A secret that is not stored yet. *)
Definition new_secret (w : World) (s : Secret.t) : Prop :=
  new_record secret_kind w s (secret_item s).

(** A secret whose data is not encrypted is refused. *)
Definition add_secret_post (s : Secret.t) (w : World) (r : Res bool) (w' : World) : Prop :=
  if decide (encrypted (Secret.data s)) then write_post secret_kind s w r w'
  else r = Throw "Secret data does not have valid encryption header" ∧ w' = w.

Lemma addSecret_spec s w :
  SecretsInv w → new_secret w s → wp (addSecret s) (add_secret_post s w) w.
Proof.
  intros Hi Hn. unfold addSecret, add_secret_post.
  destruct (decide (encrypted (Secret.data s))) as [[H1 H2]|Hne].
  - rewrite bool_decide_true by done. simpl.
    destruct (Nat.ltb_spec (str_size (Secret.data s)) 128); [lia|].
    by apply (add_spec secret_kind); [apply cache_secret_saves|..].
  - destruct (bool_decide_reflect (str_take 6 (Secret.data s) = "scrypt")) as [H1|H1]; [|done].
    simpl. destruct (Nat.ltb_spec (str_size (Secret.data s)) 128); [done|].
    by destruct Hne.
Qed.

Lemma removeSecret_spec id w :
  SecretsInv w →
  wp (removeSecret id) (removed_post SecretsInv SLATE_secrets is_secret Secret.id id w) w.
Proof. intros Hi. apply (remove_spec secret_kind forget_secret); [apply forget_secret_forgets|done]. Qed.

(** ** Listing *)

(** The secrets a listing is about. *)
Definition listed_secret (group cluster : string) (s : Secret.t) : Prop :=
  (group ≠ "" → Secret.group s = group) ∧ (cluster ≠ "" → Secret.cluster s = cluster).

(** No cluster of a secret of the group contains the cluster of the argument and is not
    it: IDs have the same length. *)
Definition distinct_clusters (w : World) (cluster : string) : Prop :=
  cluster ≠ "" → ∀ s, is_secret w s → str_contains cluster (Secret.cluster s) = true →
  Secret.cluster s = cluster.

(** When the listing is answered from a cache. *)
Definition secrets_fresh (group cluster : string) (w : World) : Prop :=
  group ≠ "" ∧
  (if str_empty cluster then fresh (λ w, secretByGroupCache (secrets w)) group w
   else fresh (λ w, secretByGroupAndClusterCache (secrets w)) (group_and_cluster group cluster) w).

Definition list_secrets_post (group cluster : string) (w : World) :
    Res (list Secret.t) → World → Prop :=
  category_post secret_kind (listed_secret group cluster)
    ((group ≠ "" ∨ cluster ≠ "") ∧ ¬ secrets_fresh group cluster w) w.

Lemma list_secrets_nothing group cluster w w' :
  SecretsInv w → quiet w w' → ((group ≠ "" ∨ cluster ≠ "") → ¬ healthy (db w)) →
  list_secrets_post group cluster w (Ok []) w'.
Proof.
  intros Hi Hq Hn. split; [by apply (quiet_KindInv secret_kind w)|]. split; [apply Hq|].
  exists []. split; [done|]. split; [by intros x ?%not_elem_of_nil|].
  intros Hh [Hne _]. by destruct (Hn Hne).
Qed.

(** What the query of an index returns. *)
Lemma secrets_query_entries index ix attr proj v f w l :
  SecretsInv w → assoc index (indexes SLATE_secrets) = Some ix → ix_key ix = attr →
  (∀ s, secret_item s !! attr = Some (AVS (proj s))) →
  l ≡ₚ query_items SLATE_secrets (Some index) (mkKC attr (AVS v) None) f (table w SLATE_secrets) →
  ∀ e, e ∈ l ↔ ∃ s it, table w SLATE_secrets !! (Secret.id s, Secret.id s) = Some it ∧
    secret_row s it ∧ proj s = v ∧ index_entry SLATE_secrets (Some index) it = Some e ∧
    eval f e = true.
Proof.
  intros Hi Hix Hk Hattr Hl. eapply (index_query secret_row (λ s, (Secret.id s, Secret.id s)));
    [done..| | |done].
  - intros k it Hit _. by destruct (kv_table _ _ Hi _ _ Hit).
  - intros s it Hr. by eapply secret_row_lookup.
Qed.

(** The answer of the query decodes to the secrets of the listing. *)
Definition answers (group cluster : string) (w : World) (l : list Item) : Prop :=
  let decode e := secret_of_item (secret_attr e "ID")
    (if str_empty group
     then attr_string e "owningGroup" "Secret record missing owning group attribute" else Ok group)
    (if str_empty cluster then secret_attr e "cluster" else Ok cluster) e in
  (∀ e, e ∈ l → ∃ s, decode e = Ok s ∧ is_secret w s ∧ listed_secret group cluster s) ∧
  (∀ s, is_secret w s → listed_secret group cluster s → ∃ e, e ∈ l ∧ decode e = Ok s).

Lemma answers_intro group cluster index ix attr proj v f w l :
  SecretsInv w → assoc index (indexes SLATE_secrets) = Some ix → ix_key ix = attr →
  (∀ s, secret_item s !! attr = Some (AVS (proj s))) →
  (∀ a, a ∈ ["ID"; "name"; "owningGroup"; "cluster"; "ctime"; "contents"] →
    a ∈ index_attributes SLATE_secrets ix) →
  l ≡ₚ query_items SLATE_secrets (Some index) (mkKC attr (AVS v) None) f (table w SLATE_secrets) →
  (∀ s e, is_secret w s → e !! "cluster" = Some (AVS (Secret.cluster s)) →
    proj s = v ∧ eval f e = true ↔ listed_secret group cluster s) →
  answers group cluster w l.
Proof.
  intros Hi Hix Hk Hattr Hattrs Hl Hiff.
  pose proof (secrets_query_entries _ _ _ _ _ _ _ _ Hi Hix Hk Hattr Hl) as He.
  assert (Hcl : ∀ s it e, secret_row s it → index_entry SLATE_secrets (Some index) it = Some e →
    e !! "cluster" = Some (AVS (Secret.cluster s))).
  { intros s it e Hr Hen. rewrite (index_entry_lookup_eq SLATE_secrets index ix it e);
      [by eapply secret_row_lookup|done..|]. apply Hattrs. compute_done. }
  assert (Hdec : ∀ s it e, secret_row s it → index_entry SLATE_secrets (Some index) it = Some e →
    listed_secret group cluster s →
    secret_of_item (secret_attr e "ID")
      (if str_empty group
       then attr_string e "owningGroup" "Secret record missing owning group attribute" else Ok group)
      (if str_empty cluster then secret_attr e "cluster" else Ok cluster) e = Ok s).
  { intros s it e Hr Hen [Hlg Hlc]. eapply secret_row_entry; try done.
    - destruct (str_empty group) eqn:Hg; [by right|left]. rewrite Hlg; [done|]. by intros ->.
    - destruct (str_empty cluster) eqn:Hc; [by right|left]. rewrite Hlc; [done|]. by intros ->. }
  split.
  - intros e (s & it & Hit & Hr & Hp & Hen & Hf)%He. exists s.
    assert (Hs : is_secret w s) by by exists it.
    assert (Hls : listed_secret group cluster s) by (apply (Hiff s e); eauto).
    split_and!; [by eapply Hdec|done..].
  - intros s Hs Hls. pose proof Hs as (it & Hit & Hr).
    destruct (proj1 (index_entry_is_some SLATE_secrets index ix it Hix)) as [e Hen].
    { rewrite Hk. eexists. eapply secret_row_lookup; [done|apply Hattr]. }
    exists e. split; [|by eapply Hdec]. apply He. exists s, it.
    destruct (proj2 (Hiff s e Hs (Hcl _ _ _ Hr Hen)) Hls). done.
Qed.

Lemma secrets_query_spec group cluster w :
  SecretsInv w → distinct_clusters w cluster → group ≠ "" ∨ cluster ≠ "" →
  wp (secrets_query group cluster) (λ r w', quiet w w' ∧ ∃ o, r = Ok o ∧
    match o with inl _ => ¬ healthy (db w) | inr l => answers group cluster w l end) w.
Proof.
  intros Hi Hd Hne. unfold secrets_query.
  assert (Hq : ∀ index ix attr proj v f, assoc index (indexes SLATE_secrets) = Some ix →
    ix_key ix = attr → (∀ s, secret_item s !! attr = Some (AVS (proj s))) →
    (∀ a, a ∈ ["ID"; "name"; "owningGroup"; "cluster"; "ctime"; "contents"] →
      a ∈ index_attributes SLATE_secrets ix) →
    (∀ s e, is_secret w s → e !! "cluster" = Some (AVS (Secret.cluster s)) →
      proj s = v ∧ eval f e = true ↔ listed_secret group cluster s) →
    wp (request (Query SLATE_secrets (Some index) (mkKC attr (AVS v) None) f))
      (λ r w', quiet w w' ∧ ∃ o, r = Ok o ∧
        match o with inl _ => ¬ healthy (db w) | inr l => answers group cluster w l end) w).
  { intros index ix attr proj v f Hix Hk Hattr Hattrs Hiff.
    apply wp_last, wp_Query.
    - intros e w' Hq Hh. split; [done|]. by eexists.
    - intros l w' Hq Hl. split; [done|]. eexists. split; [done|]. by eapply answers_intro. }
  destruct (str_empty group) eqn:Hg; simpl.
  - apply str_empty_true in Hg as ->. destruct Hne as [?|Hc]; [done|].
    destruct (str_empty cluster) eqn:Hc'; [by apply str_empty_true in Hc'|]. simpl.
    apply (Hq _ secret_ByCluster _ Secret.cluster); [reflexivity|done|done| |].
    + intros a. rewrite !elem_of_cons, elem_of_nil. by intros [->|[->|[->|[->|[->|[->|[]]]]]]]; compute_done.
    + intros s e Hs He. split; [by intros [<- _]|]. intros [_ Hs']. auto.
  - assert (Hg' : group ≠ "") by (intros ->; done).
    apply (Hq _ secret_ByGroup _ Secret.group); [reflexivity|done|done| |].
    + intros a. rewrite !elem_of_cons, elem_of_nil. by intros [->|[->|[->|[->|[->|[->|[]]]]]]]; compute_done.
    + intros s e Hs He. destruct (str_empty cluster) eqn:Hc; simpl.
      * apply str_empty_true in Hc as ->. split; [by intros [<- _]|]. intros [Hs' _]. auto.
      * assert (Hc' : cluster ≠ "") by (intros ->; done). rewrite He, GetS_AVS. split.
        -- intros [<- Hf%(Hd Hc' _ Hs)]. done.
        -- intros [Hs1 Hs2]. split; [auto|]. rewrite Hs2 by done. apply str_contains_refl.
Qed.
Lemma secrets_from_cache group cluster w w' l :
  SecretsInv w → quiet w w' → secrets_fresh group cluster w →
  (∀ s, s ∈ l → is_secret w s ∧ listed_secret group cluster s) →
  list_secrets_post group cluster w (Ok l) w'.
Proof.
  intros Hi Hq Hf Hl. split; [by apply (quiet_KindInv secret_kind w)|]. split; [apply Hq|].
  exists l. split; [done|]. split; [done|]. by intros _ [_ ?].
Qed.

Lemma is_secret_no_colon w s : is_secret w s → no_colon (Secret.group s).
Proof. by intros (it & _ & _ & _ & Hg). Qed.

Lemma listSecrets_spec group cluster w :
  SecretsInv w → group_arg group → cluster_arg cluster → no_colon group →
  distinct_clusters w cluster →
  wp (listSecrets group cluster) (list_secrets_post group cluster w) w.
Proof.
  intros Hi Hga Hca Hcol Hd. unfold listSecrets.
  rewrite normalize_group_arg by done. eapply wp_run; [reflexivity|].
  rewrite normalize_cluster_arg by done. eapply wp_run; [reflexivity|]. simpl.
  match goal with |- wp (_ ≫= λ c, match c with Some l => mret l | None => ?R end) ?Q _ =>
    assert (Hrest : ∀ w1, quiet w w1 → ¬ secrets_fresh group cluster w → wp R Q w1) end.
  { intros w1 Hq1 Hnf. apply wp_databaseQuery. intros w2 Hq2.
    assert (Hq : quiet w w2) by by etrans. clear w1 Hq1 Hq2.
    destruct (decide (group = "" ∧ cluster = "")) as [[-> ->]|Hne].
    { eapply wp_run; [reflexivity|]. apply list_secrets_nothing; [done..|]. by intros [?|?]. }
    assert (Hne' : group ≠ "" ∨ cluster ≠ "").
    { destruct (decide (group = "")) as [->|?]; [right|by left]. intros ->. by apply Hne. }
    assert (Hst : ∀ s, is_secret w2 s ↔ is_secret w s) by (intros s; apply read_only_stored, Hq).
    eapply wp_seq.
    { apply secrets_query_spec; [by apply (quiet_KindInv secret_kind w)| |exact Hne'].
      intros Hcl s Hs%Hst. by apply Hd. }
    2: by intros e w' (_ & o & [=] & _).
    2: by intros w' (_ & o & [=] & _).
    intros o w3 (Hq3 & o' & [= <-] & Ho). assert (Hq' : quiet w w3) by by etrans.
    destruct o as [err|items].
    { apply list_secrets_nothing; [done..|]. intros _ Hh. by apply Ho, Hq. }
    destruct Ho as [Hdec Hall].
    assert (Hst3 : ∀ s, is_secret w3 s ↔ is_secret w s) by (intros s; apply read_only_stored, Hq').
    apply (wp_collect secret_kind); [apply cache_secret_saves|by apply (quiet_KindInv secret_kind w)| |].
    { intros e He. destruct (Hdec e He) as (s & Hs & Hs' & _). exists s. split; [done|].
      by apply Hst3, Hst. }
    intros l w4 Hi4 Hdb4 Hsound Hcomplete Horigin. apply wp_now.
    match goal with |- wp (?m ≫= _) _ _ => assert (Hm : ∃ w5, m (upd_ticks S w4) = (Ok tt, w5) ∧
      db w5 = db w4 ∧ recatalogued (k_view secret_kind w4) (k_view secret_kind w5)) end.
    { destruct (str_empty cluster); simpl; (eexists; split; [reflexivity|]; split; [done|]);
        solve_recatalogued. }
    destruct Hm as (w5 & Hm & Hdb5 & Hre). eapply wp_run; [exact Hm|]. apply wp_ret.
    assert (Hdb : db w5 = db w3) by congruence.
    split; [eapply (KindInv_recatalogued secret_kind w4); [done|by rewrite Hdb5|done]|].
    split; [etrans; [apply Hq'|by apply read_only_db]|]. exists l. split; [done|]. split.
    - intros s Hs. split; [by apply Hst3, Hsound|].
      destruct (Horigin s Hs) as (e & He & Hes). destruct (Hdec e He) as (s' & Hes' & _ & Hls).
      rewrite Hes in Hes'. by injection Hes' as <-.
    - intros _ _ s Hs Hls. destruct (Hall s) as (e & He & Hes); [by apply Hst|done|].
      by eapply Hcomplete. }
  apply wp_cached_or, wp_last. destruct (str_empty group) eqn:Hg; simpl.
  { eapply wp_run; [reflexivity|]. apply Hrest; [done|]. apply str_empty_true in Hg as ->.
    by intros []. }
  assert (Hg' : group ≠ "") by by intros ->.
  unfold secrets_fresh in *. destruct (str_empty cluster) eqn:Hc; simpl.
  - apply (wp_cached_category secret_kind Secret.group); [done|left|..].
    + intros l w' Hq Hf Hl. apply str_empty_true in Hc as ->.
      apply secrets_from_cache; [done..|]. intros s Hs. destruct (Hl s Hs). by repeat split.
    + intros w' Hq Hf. apply Hrest; [done|]. by intros [].
  - apply (wp_cached_category secret_kind secret_category); [done|right; left|..].
    + intros l w' Hq Hf Hl. apply secrets_from_cache; [done..| |].
      { split; [done|]. by rewrite Hc. }
      intros s Hs. destruct (Hl s Hs) as [Hs' Hk].
      apply group_and_cluster_inj in Hk as [Hk1 Hk2]; [|by eapply is_secret_no_colon|done].
      by repeat split.
    + intros w' Hq Hf. apply Hrest; [done|]. by intros [].
Qed.

(** Finding a secret by its name among those of a group on a cluster. *)
Definition find_secret_post (group cluster name : string) (w : World) (r : Res Secret.t)
    (w' : World) : Prop :=
  SecretsInv w' ∧ read_only w w' ∧ ∃ s, r = Ok s ∧
    ((is_secret w s ∧ Secret.name s = name ∧ listed_secret group cluster s) ∨ s = Secret.none) ∧
    (healthy (db w) → group ≠ "" ∨ cluster ≠ "" → ¬ secrets_fresh group cluster w →
     s = Secret.none → ∀ s', is_secret w s' → listed_secret group cluster s' →
     Secret.name s' ≠ name).

Lemma findSecretByName_spec group cluster name w :
  SecretsInv w → group_arg group → cluster_arg cluster → no_colon group →
  distinct_clusters w cluster →
  wp (findSecretByName group cluster name) (find_secret_post group cluster name w) w.
Proof.
  intros Hi Hg Hc Hcol Hd. unfold findSecretByName.
  eapply wp_seq; [by apply listSecrets_spec|..].
  2: by intros e w' (_ & _ & l & [=] & _).
  2: by intros w' (_ & _ & l & [=] & _).
  intros l w' (Hi' & Hro & l' & [= <-] & Hl & Hall). split; [done|]. split; [done|].
  eexists. split; [done|].
  destruct (list_find (λ s, Secret.name s = name) l) as [[i s]|] eqn:Hf; simpl.
  - apply list_find_Some in Hf as (Hs & Hn & _). apply list_elem_of_lookup_2 in Hs.
    destruct (Hl s Hs) as [Hs' Hls]. split; [by left|]. intros _ _ _ Hnone.
    by destruct (kv_nonempty _ _ Hi s Hs'); rewrite Hnone.
  - split; [by right|]. intros Hh Hne Hnf _ s' Hs' Hls Hn.
    apply list_find_None in Hf. apply (proj1 (Forall_forall _ _) Hf s'); [|done].
    apply list_elem_of_In. by apply Hall.
Qed.
End secret_invariant.

(** * Encryption *)

Section encryption.
Context `{D : Dynamo} `{P : Platform} `{!Scrypt} `{L : !DynamoLaws} `{SL : !ScryptLaws}.
Context (secretKey : string).

Lemma encryptSecret_spec data w :
  wp (encryptSecret secretKey data) (λ r w', db w' = db w ∧ secrets w' = secrets w ∧
    match r with
    | Ok enc => encrypted enc ∧ ∀ s, Secret.data s = enc → decryptSecret secretKey s = Ok data
    | Throw e => ∃ err, e = "Failed to encrypt with scrypt: error " +:+ show_int err
    | OutOfFuel => False
    end) w.
Proof.
  unfold encryptSecret. apply wp_bind. unfold wp. simpl.
  destruct (scryptenc_buf data secretKey (fs w)) as [[err|enc] f'] eqn:Henc; simpl.
  - split; [done|]. split; [done|]. by exists err.
  - split; [done|]. split; [done|].
    destruct (scryptenc_ok _ _ _ _ _ Henc) as (Hlen & Hhead & Hdec).
    split; [split; [done|lia]|]. intros s Hs. unfold decryptSecret. rewrite Hs, Hdec.
    destruct (Nat.ltb_spec (str_size enc) 128); [lia|done].
Qed.

(** What the header check of [decryptSecret] refuses. *)
Lemma decryptSecret_short s :
  str_size (Secret.data s) < 128 →
  decryptSecret secretKey s = Throw "Invalid encrypted data: too short to contain header".
Proof.
  unfold decryptSecret. intros Hlt.
  by destruct (Nat.ltb_spec (str_size (Secret.data s)) 128); [|lia].
Qed.
End encryption.

(** * Properties *)

Section secret_theorems.
Context `{D : Dynamo} `{P : Platform} `{L : !DynamoLaws}.

(** The operations on one secret. A lookup returns the stored secret with that ID or,
    the service being available, the invalid secret exactly when there is none; a secret
    whose data does not have the header of the encryption format is refused by an exception
    and nothing changes; adding a new secret and removing a secret change the secrets
    exactly as intended, and [false] is returned only if the service refused. All keep the
    main cache and the caches by group and by group and cluster coherent with the table. *)
Theorem secret_operations_correct (id : string) (s : Secret.t) (w : World) :
  SecretsInv w →
  wp (getSecret id) (lookup_post secret_kind id w) w ∧
  (new_secret w s → wp (addSecret s) (add_secret_post s w) w) ∧
  wp (removeSecret id) (removed_post SecretsInv SLATE_secrets is_secret Secret.id id w) w.
Proof.
  intros Hi. split; [by apply getSecret_spec|]. split; [by apply addSecret_spec|].
  by apply removeSecret_spec.
Qed.

(** Listing the secrets of a group, of a cluster or of both returns stored secrets of
    that group and cluster only - never one of another group - and all of them when the
    service is available and the caches are not recent enough to answer; finding a secret
    by name returns one with that name among those, and none only when there is none. The
    clusters of the argument and of the stored secrets are IDs of the same length, so that
    none contains another. *)
Theorem listSecrets_correct (group cluster name : string) (w : World) :
  SecretsInv w → group_arg group → cluster_arg cluster → no_colon group →
  distinct_clusters w cluster →
  wp (listSecrets group cluster) (list_secrets_post group cluster w) w ∧
  wp (findSecretByName group cluster name) (find_secret_post group cluster name w) w.
Proof. intros. split; [by apply listSecrets_spec|by apply findSecretByName_spec]. Qed.

(** A removed secret is gone. Once [removeSecret] has succeeded, it is found neither
    by its ID nor in any listing, whatever the caches had. *)
Theorem removed_secret_is_gone (id group cluster : string) (w w1 : World) :
  SecretsInv w → id ≠ "" → removeSecret id w = (Ok true, w1) →
  (getSecret id w1).1 = Ok Secret.none ∧
  (group_arg group → cluster_arg cluster → no_colon group → distinct_clusters w1 cluster →
   ∃ l, (listSecrets group cluster w1).1 = Ok l ∧ ∀ s, s ∈ l → Secret.id s ≠ id).
Proof.
  intros Hi Hne Hrm. pose proof (removeSecret_spec id w Hi) as Hr. unfold wp in Hr.
  rewrite Hrm in Hr. simpl in Hr. destruct Hr as (Hi1 & _ & _ & H1). split.
  - destruct (getSecret_spec id w1 Hi1) as (_ & _ & Hg).
    destruct (getSecret id w1).1 as [s| |]; [|done..]. f_equal.
    destruct Hg as [[Hid Hs]|[-> _]]; [|done]. by destruct (proj1 (H1 s) Hs) as [_ Hn].
  - intros Hg Hc Hcol Hd. destruct (listSecrets_spec group cluster w1 Hi1 Hg Hc Hcol Hd)
      as (_ & _ & l & -> & Hl & _).
    exists l. split; [done|]. intros s Hs. destruct (Hl s Hs) as [Hs' _]. by apply H1.
Qed.

End secret_theorems.

Section secret_witnesses.
Import Demo.

(** An encryption with the documented format: the name of the format, padding up to the
    length of the header and the signature, and the data. *)
Fixpoint padding (n : nat) : string := match n with O => "" | S n => String "-" (padding n) end.

Lemma padding_size n : str_size (padding n) = n.
Proof. induction n; simpl; congruence. Qed.

#[local] Instance demo_scrypt : Scrypt := {
  scryptenc_buf data key f := (inr ("scrypt" +:+ padding 122 +:+ data), f);
  scryptdec_buf data key := inr (str_drop 128 data);
  show_int z := "-1" }.

#[local] Instance demo_scrypt_laws : ScryptLaws.
Proof.
  split. intros data key f out f' Heq.
  assert (out = ("scrypt" +:+ padding 122) +:+ data) as ->.
  { rewrite str_app_assoc. by injection Heq. }
  assert (Hsize : str_size ("scrypt" +:+ padding 122) = 128) by by rewrite str_size_app, padding_size.
  split; [rewrite str_size_app, Hsize; lia|]. split; [by rewrite str_app_assoc|].
  cbn [scryptdec_buf demo_scrypt]. rewrite <- Hsize. by rewrite str_drop_app.
Qed.

Definition demo_enc : string := "scrypt" +:+ padding 122 +:+ "hush".
Definition demo_secret : Secret.t :=
  Secret.mk true "secret_1" "password" "group_1" "cluster_1" "now" demo_enc.

Lemma empty_SecretsInv : SecretsInv empty.
Proof.
  split.
  - intros k it. by rewrite empty_table, lookup_empty.
  - intros s (it & Hit & _). by rewrite empty_table, lookup_empty in Hit.
  - split; [intros k r; simpl; by rewrite lookup_empty|].
    intros p Hp k r Hin. simpl in Hp. rewrite !elem_of_cons, elem_of_nil in Hp.
    by destruct Hp as [->|[->|[]]]; apply in_category_empty in Hin.
Qed.

Lemma demo_new_secret : new_secret empty demo_secret.
Proof.
  split; [|split; [done|]].
  - split; [done|]. split; [done|]. vm_compute. reflexivity.
  - intros s (it & Hit & _). by rewrite empty_table, lookup_empty in Hit.
Qed.

(** The server after adding the secret. *)
Definition demo_secrets : World := (addSecret demo_secret empty).2.

Lemma demo_encrypted : encrypted demo_enc.
Proof. split; [vm_compute; reflexivity|]. apply Nat.leb_le. vm_compute. reflexivity. Qed.

Lemma demo_secrets_facts :
  SecretsInv demo_secrets ∧ ∀ s, is_secret demo_secrets s ↔ s = demo_secret.
Proof.
  pose proof (addSecret_spec demo_secret empty empty_SecretsInv demo_new_secret) as Ha.
  unfold wp, add_secret_post in Ha. rewrite decide_True in Ha by apply demo_encrypted.
  assert (Hres : (addSecret demo_secret empty).1 = Ok true) by (vm_compute; reflexivity).
  destruct Ha as (Hi & _ & _ & Hs). rewrite Hres in Hs. split; [exact Hi|]. intros s.
  etrans; [apply Hs|].
  split; [|by left]. intros [?|[(it & Hit & _) _]]; [done|].
  by rewrite empty_table, lookup_empty in Hit.
Qed.

Lemma demo_distinct : distinct_clusters demo_secrets "cluster_1".
Proof. intros _ s Hs. apply demo_secrets_facts in Hs as ->. done. Qed.

Lemma secret_operations_witness :
  wp (getSecret "secret_1") (lookup_post secret_kind "secret_1" demo_secrets) demo_secrets ∧
  (getSecret "secret_1" demo_secrets).1 = Ok demo_secret.
Proof.
  split; [|vm_compute; reflexivity].
  exact (proj1 (secret_operations_correct "secret_1" demo_secret demo_secrets
    (proj1 demo_secrets_facts))).
Defined.

Lemma listSecrets_witness :
  wp (listSecrets "group_1" "cluster_1")
    (list_secrets_post "group_1" "cluster_1" demo_secrets) demo_secrets ∧
  (listSecrets "group_1" "cluster_1" demo_secrets).1 = Ok [demo_secret].
Proof.
  split; [|vm_compute; reflexivity].
  exact (proj1 (listSecrets_correct "group_1" "cluster_1" "password" demo_secrets
    (proj1 demo_secrets_facts) (or_intror eq_refl) (or_intror eq_refl) eq_refl demo_distinct)).
Defined.

(** An argument that begins like the ID of a cluster is taken for one, and the filter is by
    substring: a listing for a part of an ID returns secrets of other clusters, and caches
    them as being on a cluster with that ID. *)
Example partial_cluster_id :
  let misplaced := Secret.mk true "secret_1" "password" "group_1" "cluster_" "now" demo_enc in
  let r := listSecrets "group_1" "cluster_" demo_secrets in
  r.1 = Ok [misplaced] ∧ (getSecret "secret_1" r.2).1 = Ok misplaced.
Proof. split; vm_compute; reflexivity. Qed.

Lemma removed_secret_witness :
  (getSecret "secret_1" (removeSecret "secret_1" demo_secrets).2).1 = Ok Secret.none.
Proof.
  refine (proj1 (removed_secret_is_gone "secret_1" "" "" demo_secrets _
    (proj1 demo_secrets_facts) _ _)); [done|].
  apply run_result. vm_compute. reflexivity.
Defined.

End secret_witnesses.
