(* ===== verification/StoreMonCreds.v ===== *)
(** Monitoring credentials: the operations of [PersistentStore] on the
    monitoring credentials table, which is never cached
    (src/PersistentStore.cpp). Two servers may share the table: the allocation
    of a credential relies on the conditional update of the database. *)

From S2P Require Import Prelude Entities Cache Dynamo Store Demo.

Section moncreds.
Context `{D : Dynamo} `{P : Platform}.

Definition moncred_item (cred : S3Credential.t) : Item :=
  {["accessKey" := AVS (S3Credential.accessKey cred);
    "sortKey" := AVS (S3Credential.accessKey cred);
    "secretKey" := AVS (S3Credential.secretKey cred);
    "inUse" := AVBool (S3Credential.inUse cred);
    "revoked" := AVBool (S3Credential.revoked cred)]}.

Definition moncred_err (key : string) : string :=
  "Monitoring credential record missing " +:+ key +:+ " attribute".

Definition moncred_of_item (accessKey : Res string) (item : Item) : Res S3Credential.t :=
  accessKey ← accessKey;
  secretKey ← attr_string item "secretKey" (moncred_err "secretKey");
  inUse ← attr_bool item "inUse" (moncred_err "inUse");
  revoked ← attr_bool item "revoked" (moncred_err "revoked");
  mret (S3Credential.mk accessKey secretKey inUse revoked).

Definition addMonitoringCredential (cred : S3Credential.t) : Store bool :=
  if negb (S3Credential.to_bool cred) then
    throw "Cannot store invalid S3 credentials in Dynamo"
  else if S3Credential.inUse cred then
    throw "Already in-use credentials should not be added"
  else if S3Credential.revoked cred then
    throw "Already revoked credentials should not be added"
  else
    outcome ← request (PutItem SLATE_moncreds
                (moncred_item (S3Credential.make (S3Credential.accessKey cred)
                                 (S3Credential.secretKey cred))));
    match outcome with
    | inl err => mret false
    | inr _ => mret true
    end.

Definition getMonitoringCredential (accessKey : string) : Store S3Credential.t :=
  _ ← databaseQuery;
  outcome ← request (GetItem SLATE_moncreds (accessKey, accessKey));
  match outcome with
  | inl err => mret S3Credential.none
  | inr item =>
      if bool_decide (item = ∅) then mret S3Credential.none
      else lift (moncred_of_item (Ok accessKey) item)
  end.

Definition listMonitoringCredentials (fuel : nat) : Store (list S3Credential.t) :=
  _ ← databaseScan;
  result ← scan_loop fuel SLATE_moncreds ETrue None [] (λ item,
    lift (moncred_of_item (attr_string item "accessKey" (moncred_err "accessKey")) item));
  mret result.1.

(** [#inUse = :false AND #revoked = :false] *)
Definition available : Expr :=
  EAnd (EEq "inUse" (AVBool false)) (EEq "revoked" (AVBool false)).

(** The attempt to take one candidate: [None] to go on with the next one. *)
Definition try_allocate (item : Item) : Store (option S3Credential.t) :=
  accessKey ← lift (attr_string item "accessKey" (moncred_err "accessKey"));
  updateResult ← request (UpdateItem SLATE_moncreds (accessKey, accessKey)
                            {["inUse" := AVBool true]} (Some available));
  match updateResult with
  | inl err => mret None
  | inr _ =>
      secretKey ← lift (attr_string item "secretKey" (moncred_err "secretKey"));
      mret (Some (S3Credential.mk accessKey secretKey true false))
  end.

Fixpoint try_candidates (items : list Item) : Store (option S3Credential.t) :=
  match items with
  | [] => mret None
  | item :: items =>
      r ← try_allocate item;
      match r with
      | Some cred => mret (Some cred)
      | None => try_candidates items
      end
  end.

(** [while(true)]: look at the first page of available credentials and try each;
    start over if all were taken in between. The second component is the error
    message. *)
Fixpoint allocateMonitoringCredential (fuel : nat) : Store (S3Credential.t * string) :=
  match fuel with
  | O => out_of_fuel
  | S fuel =>
      _ ← databaseScan;
      outcome ← request (Scan SLATE_moncreds available None);
      match outcome with
      | inl err =>
          mret (S3Credential.none, "Failed to look up available monitoring credentials: " +:+ err)
      | inr ([], _) =>
          mret (S3Credential.none, "No monitoring credentials available for allocation")
      | inr (items, _) =>
          r ← try_candidates items;
          match r with
          | Some cred => mret (cred, "")
          | None => allocateMonitoringCredential fuel
          end
      end
  end.

Definition revokeMonitoringCredential (accessKey : string) : Store bool :=
  outcome ← request (UpdateItem SLATE_moncreds (accessKey, accessKey)
              {["inUse" := AVBool false; "revoked" := AVBool true]} (Some (EExists "inUse")));
  match outcome with
  | inl err => mret false
  | inr _ => mret true
  end.

Definition deleteMonitoringCredential (accessKey : string) : Store bool :=
  outcome ← request (DeleteItem SLATE_moncreds (accessKey, accessKey)
              (Some (EEq "inUse" (AVBool false))));
  match outcome with
  | inl err => mret false
  | inr _ => mret true
  end.
End moncreds.

(** * What the table holds *)

Section moncreds_table.
Context `{D : Dynamo} `{P : Platform} `{L : !DynamoLaws}.
Implicit Types (k : string) (c : S3Credential.t).

(** The attributes of a credential's row. *)
Definition cred_row c (it : Item) : Prop := moncred_item c ⊆ it.

Lemma cred_row_item c : cred_row c (moncred_item c).
Proof. by unfold cred_row. Qed.

Definition cred_at (w : World) k : Item := default ∅ (table w SLATE_moncreds !! (k, k)).

Definition stored_cred (w : World) c : Prop :=
  ∃ it, table w SLATE_moncreds !! (S3Credential.accessKey c, S3Credential.accessKey c) = Some it
    ∧ cred_row c it.

(** Every row is that of a credential. *)
Definition CredsInv (w : World) : Prop :=
  ∀ key it, table w SLATE_moncreds !! key = Some it →
    ∃ c, cred_row c it ∧ key = (S3Credential.accessKey c, S3Credential.accessKey c).

Lemma cred_row_lookup c it a v :
  cred_row c it → moncred_item c !! a = Some v → it !! a = Some v.
Proof. intros Hr Ha. by eapply lookup_weaken. Qed.

Lemma quiet_stored_cred w w' c : quiet w w' → stored_cred w' c ↔ stored_cred w c.
Proof. unfold stored_cred. intros Hq. by rewrite (proj1 (quiet_ro _ _ Hq)). Qed.

Lemma quiet_CredsInv w w' : quiet w w' → CredsInv w → CredsInv w'.
Proof. unfold CredsInv. intros Hq. by rewrite (proj1 (quiet_ro _ _ Hq)). Qed.

Lemma cred_row_decode c it accessKey :
  cred_row c it → accessKey = Ok (S3Credential.accessKey c) →
  moncred_of_item accessKey it = Ok c.
Proof.
  intros Hr ->. unfold moncred_of_item.
  rewrite (attr_string_ok _ "secretKey" _ (S3Credential.secretKey c)),
    (attr_bool_ok _ "inUse" _ (S3Credential.inUse c)),
    (attr_bool_ok _ "revoked" _ (S3Credential.revoked c));
    [by destruct c|by eapply cred_row_lookup..].
Qed.

Lemma cred_row_accessKey c it err :
  cred_row c it → attr_string it "accessKey" err = Ok (S3Credential.accessKey c).
Proof. intros Hr. apply attr_string_ok. by eapply cred_row_lookup. Qed.

Lemma cred_row_inj c c' it : cred_row c it → cred_row c' it → c = c'.
Proof.
  intros H1 H2. assert (Hk : S3Credential.accessKey c = S3Credential.accessKey c').
  { pose proof (cred_row_accessKey _ _ "" H1). pose proof (cred_row_accessKey _ _ "" H2). congruence. }
  pose proof (cred_row_decode _ _ (Ok (S3Credential.accessKey c)) H1 eq_refl) as D1.
  rewrite Hk in D1. rewrite (cred_row_decode _ _ _ H2 eq_refl) in D1. congruence.
Qed.

Lemma stored_cred_inj w c c' :
  stored_cred w c → stored_cred w c' → S3Credential.accessKey c = S3Credential.accessKey c' →
  c = c'.
Proof.
  intros (it & H1 & R1) (it' & H2 & R2) Hk. rewrite Hk, H2 in H1. simplify_eq.
  by eapply cred_row_inj.
Qed.

(** The test of the allocation, on the row of a credential. *)
Lemma available_row c it :
  cred_row c it →
  eval available it = negb (S3Credential.inUse c) && negb (S3Credential.revoked c).
Proof.
  intros Hr. unfold available. simpl.
  rewrite (cred_row_lookup c it "inUse" _ Hr eq_refl),
    (cred_row_lookup c it "revoked" _ Hr eq_refl).
  assert (Hb : ∀ b, bool_decide (Some (AVBool b) = Some (AVBool false)) = negb b).
  { intros []; simpl; [apply bool_decide_eq_false|by apply bool_decide_eq_true].
    intros [= Heq]. apply (f_equal GetBool) in Heq. by rewrite !GetBool_AVBool in Heq. }
  by rewrite !Hb.
Qed.

(** The row after an update. *)
Lemma cred_row_update c c' it u :
  cred_row c it →
  moncred_item c' = key_item SLATE_moncreds (S3Credential.accessKey c, S3Credential.accessKey c)
                      ∪ u ∪ moncred_item c →
  cred_row c' (key_item SLATE_moncreds (S3Credential.accessKey c, S3Credential.accessKey c)
                 ∪ u ∪ it).
Proof. intros Hr Heq. unfold cred_row. rewrite Heq. by apply map_union_mono_l. Qed.

Definition set_inUse (c : S3Credential.t) : S3Credential.t :=
  S3Credential.mk (S3Credential.accessKey c) (S3Credential.secretKey c) true
    (S3Credential.revoked c).
Definition set_revoked (c : S3Credential.t) : S3Credential.t :=
  S3Credential.mk (S3Credential.accessKey c) (S3Credential.secretKey c) false true.

Lemma cred_row_allocated c it :
  cred_row c it →
  cred_row (set_inUse c)
    (key_item SLATE_moncreds (S3Credential.accessKey c, S3Credential.accessKey c)
       ∪ {["inUse" := AVBool true]} ∪ it).
Proof. intros Hr. by apply cred_row_update. Qed.

Lemma cred_row_revoked c it :
  cred_row c it →
  cred_row (set_revoked c)
    (key_item SLATE_moncreds (S3Credential.accessKey c, S3Credential.accessKey c)
       ∪ {["inUse" := AVBool false; "revoked" := AVBool true]} ∪ it).
Proof. intros Hr. by apply cred_row_update. Qed.
End moncreds_table.

(** * What the operations do *)

Section moncreds_operations.
Context `{D : Dynamo} `{P : Platform} `{L : !DynamoLaws}.
Implicit Types (k : string) (c : S3Credential.t).

(** The credential with access key [k] is now [new], the others are the same. *)
Definition cred_changed k (new : option S3Credential.t) (w w' : World) : Prop :=
  (∀ t, t ≠ SLATE_moncreds → table w' t = table w t) ∧
  (∀ c, stored_cred w' c ↔
     if decide (S3Credential.accessKey c = k) then new = Some c else stored_cred w c).

Lemma cred_written k c it w w' :
  S3Credential.accessKey c = k → cred_row c it → CredsInv w →
  table_set SLATE_moncreds (<[(k, k) := it]> (table w SLATE_moncreds)) w w' →
  CredsInv w' ∧ cred_changed k (Some c) w w'.
Proof.
  intros Hk Hr Hi Ht. pose proof (table_set_same _ _ _ _ Ht) as Hm. split; [|split].
  - intros key it'. rewrite Hm, lookup_insert. case_decide; [|apply Hi].
    intros [= <-]. exists c. by subst.
  - intros t Hne. by eapply table_set_other.
  - intros c'. unfold stored_cred. rewrite Hm. case_decide as Hd.
    + rewrite Hd, lookup_insert_eq. split.
      * intros (it' & [= <-] & Hr'). f_equal. by eapply cred_row_inj.
      * intros [= <-]. eauto.
    + by rewrite lookup_insert_ne by congruence.
Qed.

Lemma cred_deleted k w w' :
  CredsInv w → table_set SLATE_moncreds (delete (k, k) (table w SLATE_moncreds)) w w' →
  CredsInv w' ∧ cred_changed k None w w'.
Proof.
  intros Hi Ht. pose proof (table_set_same _ _ _ _ Ht) as Hm. split; [|split].
  - intros key it'. rewrite Hm. intros [_ Hit]%lookup_delete_Some. by apply Hi.
  - intros t Hne. by eapply table_set_other.
  - intros c'. unfold stored_cred. rewrite Hm. case_decide as Hd.
    + rewrite Hd, lookup_delete_eq. split; [by intros (it' & ? & ?)|done].
    + by rewrite lookup_delete_ne by congruence.
Qed.

Lemma cred_at_row k w :
  CredsInv w → (table w SLATE_moncreds !! (k, k) = None ∧ cred_at w k = ∅) ∨
  ∃ c, cred_row c (cred_at w k) ∧ S3Credential.accessKey c = k ∧ stored_cred w c.
Proof.
  intros Hi. unfold cred_at.
  destruct (table w SLATE_moncreds !! (k, k)) as [it|] eqn:Hit; [right|by left].
  destruct (Hi _ _ Hit) as (c & Hr & [= Hk]). subst k. exists c.
  split_and!; [done..|]. by exists it.
Qed.

(** The outcome of an operation that changes at most the credential [k]; refusals
    leave the table alone. *)
Definition cred_post k (new : World → option (option S3Credential.t)) (w : World)
    (r : Res bool) (w' : World) : Prop :=
  CredsInv w' ∧ (healthy (db w) → healthy (db w')) ∧
  match r, new w with
  | Ok true, Some c => cred_changed k c w w'
  | Ok false, Some _ => ¬ healthy (db w) ∧ ∀ t, table w' t = table w t
  | Ok false, None => ∀ t, table w' t = table w t
  | _, _ => False
  end.

Lemma addMonitoringCredential_spec c w :
  CredsInv w → S3Credential.to_bool c = true → S3Credential.inUse c = false →
  S3Credential.revoked c = false →
  wp (addMonitoringCredential c)
    (cred_post (S3Credential.accessKey c) (λ _, Some (Some c)) w) w.
Proof.
  intros Hi Hv Hu Hr. unfold addMonitoringCredential. rewrite Hv, Hu, Hr. simpl.
  assert (Hc : S3Credential.make (S3Credential.accessKey c) (S3Credential.secretKey c) = c).
  { destruct c. simpl in *. by subst. }
  rewrite Hc.
  eapply (wp_PutItem _ _ (S3Credential.accessKey c, S3Credential.accessKey c));
    [by apply item_key_eq|..].
  - intros e w' Hq Hh. split; [by eapply quiet_CredsInv|].
    destruct (quiet_ro _ _ Hq) as [Ht Hd]. by split_and!.
  - intros w' Hq Hh Ht. destruct (cred_written _ c (moncred_item c) _ _ eq_refl (cred_row_item c) Hi Ht).
    by split_and!.
Qed.

Lemma addMonitoringCredential_refused c w :
  S3Credential.to_bool c = false ∨ S3Credential.inUse c = true ∨ S3Credential.revoked c = true →
  ∃ e, addMonitoringCredential c w = (Throw e, w).
Proof.
  unfold addMonitoringCredential.
  destruct (S3Credential.to_bool c), (S3Credential.inUse c), (S3Credential.revoked c);
    try (by eexists); by intros [|[|]].
Qed.

Lemma getMonitoringCredential_spec k w :
  CredsInv w →
  wp (getMonitoringCredential k) (λ r w', quiet w w' ∧ ∃ c, r = Ok c ∧
    ((stored_cred w c ∧ S3Credential.accessKey c = k) ∨
     (c = S3Credential.none ∧
      (healthy (db w) → ∀ c', stored_cred w c' → S3Credential.accessKey c' ≠ k)))) w.
Proof.
  intros Hi. unfold getMonitoringCredential. apply wp_databaseQuery. intros w1 Hq1.
  apply wp_GetItem; [intros e w2 Hq2 Hh|intros w2 Hq2]; assert (Hq : quiet w w2) by by etrans.
  { split; [done|]. eexists. split; [done|]. right. split; [done|]. intros Hd.
    by apply Hq1 in Hd. }
  rewrite (proj1 (quiet_ro _ _ Hq1)). fold (cred_at w k).
  destruct (cred_at_row k w Hi) as [[Hn ->]|(c & Hr & <- & Hst)].
  - rewrite bool_decide_true by done. split; [done|]. eexists. split; [done|]. right.
    split; [done|]. intros _ c' (it & Hit & _) <-. congruence.
  - rewrite bool_decide_false.
    + rewrite (cred_row_decode c) by done. split; [done|]. eauto 6.
    + intros Hn. pose proof (cred_row_lookup _ _ "accessKey" _ Hr eq_refl) as Hl.
      by rewrite Hn in Hl.
Qed.

(** Revoking needs the row; a revoked credential is not in use. *)
Definition revoke_result k (w : World) : option (option S3Credential.t) :=
  match moncred_of_item (Ok k) (cred_at w k) with
  | Ok c => Some (Some (set_revoked c)) | _ => None
  end.

Lemma row_absent_decode k : moncred_of_item (Ok k) ∅ = Throw (moncred_err "secretKey").
Proof. done. Qed.

Lemma revokeMonitoringCredential_spec k w :
  CredsInv w → wp (revokeMonitoringCredential k) (cred_post k (revoke_result k) w) w.
Proof.
  intros Hi. unfold revokeMonitoringCredential, revoke_result, cred_post.
  destruct (cred_at_row k w Hi) as [[Hn Hat]|(c & Hr & <- & Hst)].
  - rewrite Hat, row_absent_decode. apply wp_UpdateItem.
    + intros e w' Hq Hh. split; [by eapply quiet_CredsInv|].
      destruct (quiet_ro _ _ Hq) as [Ht Hd]. by split_and!.
    + intros w' _ _ Hc _. specialize (Hc _ eq_refl). fold (cred_at w k) in Hc.
      rewrite Hat in Hc. simpl in Hc. by rewrite lookup_empty, bool_decide_false in Hc by by intros [].
  - rewrite (cred_row_decode c) by done. apply wp_UpdateItem.
    + intros e w' Hq Hh. split; [by eapply quiet_CredsInv|].
      destruct (quiet_ro _ _ Hq) as [Ht Hd]. split; [done|]. split; [|done]. intros Hd'.
      destruct (Hh Hd') as (? & [= <-] & He). fold (cred_at w (S3Credential.accessKey c)) in He.
      simpl in He. rewrite (cred_row_lookup c _ "inUse" _ Hr eq_refl) in He.
      by rewrite bool_decide_true in He by eauto.
    + intros w' Hq Hh _ Ht. fold (cred_at w (S3Credential.accessKey c)) in Ht.
      destruct (cred_written _ (set_revoked c) _ w w' eq_refl (cred_row_revoked _ _ Hr) Hi Ht).
      by split_and!.
Qed.

(** Deleting needs the credential not to be in use. *)
Definition delete_result k (w : World) : option (option S3Credential.t) :=
  match moncred_of_item (Ok k) (cred_at w k) with
  | Ok c => if S3Credential.inUse c then None else Some None
  | _ => None
  end.

Lemma AVBool_eqb b b' : bool_decide (Some (AVBool b) = Some (AVBool b')) = bool_decide (b = b').
Proof.
  apply bool_decide_ext. split; [|by intros ->]. intros [= Heq].
  apply (f_equal GetBool) in Heq. by rewrite !GetBool_AVBool in Heq.
Qed.

Lemma deleteMonitoringCredential_spec k w :
  CredsInv w → wp (deleteMonitoringCredential k) (cred_post k (delete_result k) w) w.
Proof.
  intros Hi. unfold deleteMonitoringCredential, delete_result, cred_post.
  assert (Hrefuse : ∀ w', quiet w w' → CredsInv w' ∧ (healthy (db w) → healthy (db w')) ∧
    ∀ t, table w' t = table w t).
  { intros w' Hq. split; [by eapply quiet_CredsInv|].
    destruct (quiet_ro _ _ Hq) as [Ht Hd]. by split. }
  destruct (cred_at_row k w Hi) as [[Hn Hat]|(c & Hr & <- & Hst)].
  - rewrite Hat, row_absent_decode. apply wp_DeleteItem; [intros e w' Hq _; by apply Hrefuse|].
    intros w' _ _ Hc _. specialize (Hc _ eq_refl). fold (cred_at w k) in Hc.
    by rewrite Hat in Hc.
  - rewrite (cred_row_decode c) by done.
    assert (He : eval (EEq "inUse" (AVBool false)) (cred_at w (S3Credential.accessKey c))
      = negb (S3Credential.inUse c)).
    { simpl. rewrite (cred_row_lookup c _ "inUse" _ Hr eq_refl), AVBool_eqb.
      by destruct (S3Credential.inUse c). }
    apply wp_DeleteItem.
    + intros e w' Hq Hh. destruct (Hrefuse w' Hq) as (H1 & H2 & H3).
      destruct (S3Credential.inUse c) eqn:Hu; [by split_and!|].
      split; [done|]. split; [done|]. split; [|done].
      intros Hd. destruct (Hh Hd) as (? & [= <-] & Hf).
      fold (cred_at w (S3Credential.accessKey c)) in Hf. by rewrite He in Hf.
    + intros w' Hq Hh Hc Ht. specialize (Hc _ eq_refl).
      fold (cred_at w (S3Credential.accessKey c)) in Hc. rewrite He in Hc.
      destruct (S3Credential.inUse c); [done|].
      destruct (cred_deleted _ w w' Hi Ht). by split_and!.
Qed.
End moncreds_operations.

(** * Allocation *)

Section allocation.
Context `{D : Dynamo} `{P : Platform} `{L : !DynamoLaws}.
Implicit Types (k : string) (c : S3Credential.t).

Definition cred_available c : Prop :=
  S3Credential.inUse c = false ∧ S3Credential.revoked c = false.

(** Credential [cur] was available and is now in use; [c] is what is handed out. *)
Definition allocated c (w w' : World) : Prop :=
  ∃ cur, stored_cred w cur ∧ cred_available cur ∧
    S3Credential.accessKey cur = S3Credential.accessKey c ∧
    S3Credential.inUse c = true ∧ S3Credential.revoked c = false ∧
    cred_changed (S3Credential.accessKey c) (Some (set_inUse cur)) w w'.

Lemma try_allocate_spec c0 item w :
  CredsInv w → cred_row c0 item →
  wp (try_allocate item) (λ r w', CredsInv w' ∧ (healthy (db w) → healthy (db w')) ∧
    ∃ o, r = Ok o ∧
    match o with
    | Some c => allocated c w w' ∧ S3Credential.accessKey c = S3Credential.accessKey c0 ∧
        S3Credential.secretKey c = S3Credential.secretKey c0
    | None => quiet w w' ∧ (healthy (db w) → stored_cred w c0 → ¬ cred_available c0)
    end) w.
Proof.
  intros Hi Hr0. unfold try_allocate. rewrite (cred_row_accessKey c0) by done.
  eapply wp_run; [reflexivity|]. apply wp_UpdateItem.
  - intros e w' Hq Hh. split; [by eapply quiet_CredsInv|]. split; [apply (quiet_ro _ _ Hq)|].
    exists None. split; [done|]. split; [done|]. intros Hd (it & Hit & Hr) [Hu Hv].
    destruct (Hh Hd) as (? & [= <-] & He). rewrite Hit in He.
    change (eval available it = false) in He. rewrite (available_row c0 it Hr), Hu, Hv in He. done.
  - intros w' Hq Hh Hc Ht. specialize (Hc _ eq_refl).
    rewrite (attr_string_ok _ _ _ (S3Credential.secretKey c0)) by by eapply cred_row_lookup.
    eapply wp_run; [reflexivity|].
    destruct (cred_at_row (S3Credential.accessKey c0) w Hi) as [[Hn _]|(cur & Hr & Hk & Hst)].
    { rewrite Hn in Hc. unfold available in Hc. simpl in Hc.
      by rewrite lookup_empty, bool_decide_false in Hc. }
    fold (cred_at w (S3Credential.accessKey c0)) in Hc, Ht.
    rewrite (available_row cur _ Hr), andb_true_iff, !negb_true_iff in Hc.
    rewrite <- Hk in Ht, Hr.
    destruct (cred_written _ (set_inUse cur) _ w w' eq_refl (cred_row_allocated _ _ Hr) Hi Ht)
      as [Hi' Hch].
    split; [done|]. split; [done|]. eexists. split; [done|]. split; [|done].
    exists cur. split_and!; try done. simpl. by rewrite <- Hk.
Qed.

(** Trying the candidates in turn; on a healthy service the first one succeeds. *)
Lemma try_candidates_spec items w :
  CredsInv w → (∀ it, it ∈ items → ∃ c, cred_row c it) →
  wp (try_candidates items) (λ r w', CredsInv w' ∧ (healthy (db w) → healthy (db w')) ∧
    ∃ o, r = Ok o ∧
    match o with
    | Some c => (∃ w1, quiet w w1 ∧ allocated c w1 w') ∧ ∃ it c0, it ∈ items ∧ cred_row c0 it ∧
        S3Credential.accessKey c = S3Credential.accessKey c0 ∧
        S3Credential.secretKey c = S3Credential.secretKey c0
    | None => quiet w w' ∧ (healthy (db w) → ∀ it c, it ∈ items → cred_row c it →
        stored_cred w c → ¬ cred_available c)
    end) w.
Proof.
  revert w. induction items as [|it items IH]; intros w Hi Hrows; simpl.
  { split; [done|]. split; [done|]. exists None. split; [done|]. split; [done|].
    by intros _ it c ?%not_elem_of_nil. }
  destruct (Hrows it) as [c0 Hr0]; [by left|].
  eapply wp_seq; [by apply (try_allocate_spec c0)| |
    by intros e w' (_ & _ & b & [=] & _)|by intros w' (_ & _ & b & [=] & _)].
  intros o w1 (Hi1 & Hh1 & o' & [= <-] & Ho). destruct o as [c|].
  - split; [done|]. split; [done|]. exists (Some c). split; [done|]. split.
    + exists w. split; [done|apply Ho].
    + exists it, c0. split; [by left|]. split; [done|apply Ho].
  - destruct Ho as [Hq Hno]. eapply wp_mono, IH; [|done|intros; apply Hrows; by right].
    intros r w2 (Hi2 & Hh2 & o & -> & Ho). split; [done|]. split; [auto|].
    exists o. split; [done|]. destruct o as [c|].
    + destruct Ho as ((w1' & Hq' & Ha) & it' & c0' & Hit' & Hrow'). split.
      * exists w1'. split; [by etrans|done].
      * exists it', c0'. split; [by right|done].
    + destruct Ho as [Hq' Hno']. split; [by etrans|].
      intros Hd it' c [->|Hit']%elem_of_cons Hr Hst.
      * rewrite (cred_row_inj _ _ _ Hr Hr0) in Hst |- *. auto.
      * eapply Hno'; eauto. by apply (quiet_stored_cred _ _ _ Hq).
Qed.

(** The first page of the scan for available credentials. *)
Definition first_page (w : World) (items : list Item) (next : option PageKey) : Prop :=
  (Scan SLATE_moncreds available None (db w)).1 = inr (items, next).

Lemma wp_scan_page {B} (k : outcome (list Item * option PageKey) → Store B) Q w :
  (∀ e w', quiet w w' → ¬ healthy (db w) → wp (k (inl e)) Q w') →
  (∀ items next w', quiet w w' → first_page w items next →
    (∀ it, it ∈ items → it ∈ scan_items available (table w SLATE_moncreds)) →
    (next = None → ∀ it, it ∈ scan_items available (table w SLATE_moncreds) → it ∈ items) →
    wp (k (inr (items, next))) Q w') →
  wp (request (Scan SLATE_moncreds available None) ≫= k) Q w.
Proof. apply wp_Scan_first. Qed.

(** On a healthy service the allocation ends in its first round, whatever the fuel
    beyond. *)
Lemma allocateMonitoringCredential_spec fuel w :
  CredsInv w → healthy (db w) →
  wp (allocateMonitoringCredential (S fuel)) (λ r w', CredsInv w' ∧ healthy (db w') ∧
    ((∃ c w1, r = Ok (c, "") ∧ quiet w w1 ∧ allocated c w1 w' ∧
        stored_cred w (S3Credential.make (S3Credential.accessKey c) (S3Credential.secretKey c))) ∨
     (r = Ok (S3Credential.none, "No monitoring credentials available for allocation") ∧
      quiet w w' ∧ ∃ next, first_page w [] next ∧
      (next = None → ∀ c, stored_cred w c → ¬ cred_available c)))) w.
Proof.
  intros Hi Hd. simpl. apply wp_databaseScan. intros w1 Hq1 Hdb1.
  assert (Hd1 : healthy (db w1)) by by apply Hq1.
  apply wp_scan_page; [by intros|]. intros items next w2 Hq2 Hpage Hin Hall.
  assert (Hq : quiet w w2) by by etrans.
  assert (Hd2 : healthy (db w2)) by by apply Hq2.
  pose proof (quiet_CredsInv _ _ Hq Hi) as Hi2.
  rewrite (proj1 (quiet_ro _ _ Hq1)) in Hin, Hall.
  assert (Hst : ∀ it, it ∈ items → ∃ c, cred_row c it ∧ stored_cred w2 c ∧ cred_available c).
  { intros it Hit. apply Hin, elem_of_scan_items in Hit as (key & Hkey & He).
    destruct (Hi _ _ Hkey) as (c & Hr & ->). exists c. split; [done|]. split.
    - apply (quiet_stored_cred _ _ _ Hq). by exists it.
    - rewrite (available_row c it Hr), andb_true_iff, !negb_true_iff in He. done. }
  destruct items as [|it items].
  - split; [done|]. split; [done|]. right. split; [done|]. split; [done|].
    exists next. unfold first_page in *. rewrite Hdb1 in Hpage. split; [done|].
    intros Hn c (it & Hit & Hr) [Hu Hv]. apply (not_elem_of_nil it). apply Hall; [done|].
    apply elem_of_scan_items. eexists. split; [done|].
    by rewrite (available_row c it Hr), Hu, Hv.
  - eapply wp_seq; [apply try_candidates_spec; [done|]| |
      by intros e w' (_ & _ & b & [=] & _)|by intros w' (_ & _ & b & [=] & _)].
    { intros it' Hit'. destruct (Hst it' Hit') as (c & Hr & _). eauto. }
    intros o w3 (Hi3 & Hh3 & o' & [= <-] & Ho). destruct o as [c|].
    + destruct Ho as ((w2' & Hq' & Ha) & it' & c0 & Hit' & Hr0 & Hk & Hs). split; [done|].
      split; [auto|]. left. exists c, w2'. split_and!; [done|by etrans|done|].
      destruct (Hst it' Hit') as (c1 & Hr1 & Hc1 & Hu & Hv).
      rewrite (cred_row_inj _ _ _ Hr1 Hr0) in Hc1, Hu, Hv. apply (quiet_stored_cred _ _ _ Hq) in Hc1.
      rewrite Hk, Hs. destruct c0. simpl in *. by subst.
    + destruct Ho as [_ Hno]. exfalso. destruct (Hst it) as (c & Hr & Hs & Ha); [by left|].
      eapply Hno; eauto. by left.
Qed.

(** ** Several servers

    The requests of the servers that share the table interleave. What one server
    does to the table is one of these steps: an operation that ends well, or
    anything that leaves the table alone, including failed operations. *)
Inductive cred_event :=
  | Added k | Allocated k | Revoked k | Deleted k | Other.

#[global] Instance cred_event_eq_dec : EqDecision cred_event.
Proof. solve_decision. Defined.

Inductive cred_step : World → cred_event → World → Prop :=
  | step_added c w w' :
      addMonitoringCredential c w = (Ok true, w') →
      cred_step w (Added (S3Credential.accessKey c)) w'
  | step_allocated item c w w' :
      try_allocate item w = (Ok (Some c), w') →
      cred_step w (Allocated (S3Credential.accessKey c)) w'
  | step_revoked k w w' :
      revokeMonitoringCredential k w = (Ok true, w') → cred_step w (Revoked k) w'
  | step_deleted k w w' :
      deleteMonitoringCredential k w = (Ok true, w') → cred_step w (Deleted k) w'
  | step_other w w' :
      table w' SLATE_moncreds = table w SLATE_moncreds → cred_step w Other w'.

Inductive cred_trace : World → list cred_event → World → Prop :=
  | trace_nil w : cred_trace w [] w
  | trace_cons w e w1 evs w2 :
      cred_step w e w1 → cred_trace w1 evs w2 → cred_trace w (e :: evs) w2.

(** Credential [k] cannot be allocated. *)
Definition unavailable k (w : World) : Prop := eval available (cred_at w k) = false.

Lemma cred_at_insert k k' it w w' :
  table_set SLATE_moncreds (<[(k', k') := it]> (table w SLATE_moncreds)) w w' →
  cred_at w' k = if decide (k = k') then it else cred_at w k.
Proof.
  intros Ht. unfold cred_at. rewrite (table_set_same _ _ _ _ Ht).
  case_decide; [subst; by rewrite lookup_insert_eq|by rewrite lookup_insert_ne by congruence].
Qed.

Lemma unavailable_lookup (it : Item) :
  it !! "inUse" = Some (AVBool true) ∨ it !! "revoked" = Some (AVBool true) →
  eval available it = false.
Proof.
  unfold available. simpl. intros [->| ->]; rewrite AVBool_eqb; simpl; [done|].
  by rewrite andb_false_r.
Qed.

(** An allocation finds the credential available and leaves it unavailable. *)
Lemma try_allocate_inv item c w w' :
  try_allocate item w = (Ok (Some c), w') →
  ¬ unavailable (S3Credential.accessKey c) w ∧ unavailable (S3Credential.accessKey c) w' ∧
  ∀ k, k ≠ S3Credential.accessKey c → cred_at w' k = cred_at w k.
Proof.
  intros Hrun. cut (wp (try_allocate item) (λ r w', ∀ c, r = Ok (Some c) →
    ¬ unavailable (S3Credential.accessKey c) w ∧ unavailable (S3Credential.accessKey c) w' ∧
    ∀ k, k ≠ S3Credential.accessKey c → cred_at w' k = cred_at w k) w).
  { unfold wp. rewrite Hrun. simpl. intros Hc. by apply Hc. }
  clear c w' Hrun. unfold try_allocate. apply wp_lift; [intros ak Hak|done..].
  apply wp_UpdateItem; [by intros|]. intros w' _ _ Hc Ht.
  apply wp_lift; [intros sk Hsk|done..]. apply wp_ret. intros c [= <-]. simpl.
  split; [|split].
  - specialize (Hc _ eq_refl). unfold unavailable, cred_at. rewrite Hc. done.
  - unfold unavailable. rewrite (cred_at_insert _ _ _ _ _ Ht), decide_True by done.
    apply unavailable_lookup. left. apply lookup_union_Some_l. reflexivity.
  - intros k Hne. by rewrite (cred_at_insert _ _ _ _ _ Ht), decide_False.
Qed.

Lemma allocated_step k w w' :
  cred_step w (Allocated k) w' → ¬ unavailable k w ∧ unavailable k w'.
Proof.
  inversion 1 as [|item c ? ? Ha| | |]; subst.
  by apply try_allocate_inv in Ha as (? & ? & _).
Qed.

Lemma revoke_inv k w w' :
  revokeMonitoringCredential k w = (Ok true, w') →
  unavailable k w' ∧ ∀ k', k' ≠ k → cred_at w' k' = cred_at w k'.
Proof.
  intros Hrun. cut (wp (revokeMonitoringCredential k) (λ r w', r = Ok true →
    unavailable k w' ∧ ∀ k', k' ≠ k → cred_at w' k' = cred_at w k') w).
  { unfold wp. rewrite Hrun. simpl. auto. }
  unfold revokeMonitoringCredential. apply wp_UpdateItem; [by intros|].
  intros w2 _ _ _ Ht _. split.
  - unfold unavailable. simpl. rewrite (cred_at_insert _ _ _ _ _ Ht), decide_True by done.
    apply unavailable_lookup. right. apply lookup_union_Some_l. reflexivity.
  - intros k' Hne. simpl. by rewrite (cred_at_insert _ _ _ _ _ Ht), decide_False.
Qed.

Lemma delete_inv k w w' :
  deleteMonitoringCredential k w = (Ok true, w') →
  unavailable k w' ∧ ∀ k', k' ≠ k → cred_at w' k' = cred_at w k'.
Proof.
  intros Hrun. cut (wp (deleteMonitoringCredential k) (λ r w', r = Ok true →
    unavailable k w' ∧ ∀ k', k' ≠ k → cred_at w' k' = cred_at w k') w).
  { unfold wp. rewrite Hrun. simpl. auto. }
  unfold deleteMonitoringCredential. apply wp_DeleteItem; [by intros|].
  intros w2 _ _ _ Ht _. unfold unavailable, cred_at. simpl.
  rewrite (table_set_same _ _ _ _ Ht). split.
  - by rewrite lookup_delete_eq.
  - intros k' Hne. by rewrite lookup_delete_ne by congruence.
Qed.

Lemma add_inv c w w' :
  addMonitoringCredential c w = (Ok true, w') →
  ∀ k', k' ≠ S3Credential.accessKey c → cred_at w' k' = cred_at w k'.
Proof.
  intros Hrun. cut (wp (addMonitoringCredential c) (λ r w', r = Ok true →
    ∀ k', k' ≠ S3Credential.accessKey c → cred_at w' k' = cred_at w k') w).
  { unfold wp. rewrite Hrun. simpl. auto. }
  unfold addMonitoringCredential. repeat (case_match; [done|]).
  eapply (wp_PutItem _ _ (S3Credential.accessKey c, S3Credential.accessKey c));
    [by apply item_key_eq|by intros|].
  intros w2 _ _ Ht _ k' Hne. simpl. by rewrite (cred_at_insert _ _ _ _ _ Ht), decide_False.
Qed.

(** A credential stays unavailable until it is added again. *)
Lemma unavailable_step k e w w' :
  cred_step w e w' → e ≠ Added k → unavailable k w → unavailable k w'.
Proof.
  unfold unavailable. destruct 1 as [c w w' Hs|item c w w' Hs|k' w w' Hs|k' w w' Hs|w w' Hs];
    intros Hne Hu.
  - rewrite (add_inv _ _ _ Hs); [done|]. congruence.
  - destruct (try_allocate_inv _ _ _ _ Hs) as (_ & Hun & Ho).
    destruct (decide (k = S3Credential.accessKey c)) as [->|]; [done|by rewrite Ho].
  - destruct (revoke_inv _ _ _ Hs) as [Hun Ho].
    destruct (decide (k = k')) as [->|]; [done|by rewrite Ho].
  - destruct (delete_inv _ _ _ Hs) as [Hun Ho].
    destruct (decide (k = k')) as [->|]; [done|by rewrite Ho].
  - unfold cred_at in *. by rewrite Hs.
Qed.

Lemma unavailable_trace k evs w w' :
  cred_trace w evs w' → Added k ∉ evs → unavailable k w → unavailable k w'.
Proof.
  induction 1 as [|w e w1 evs w2 Hs _ IH]; [done|].
  intros [Hne Hni]%not_elem_of_cons Hu. apply IH; [done|].
  eapply unavailable_step; [done| |done]. congruence.
Qed.

Lemma trace_app evs1 evs2 w w' :
  cred_trace w (evs1 ++ evs2) w' → ∃ w1, cred_trace w evs1 w1 ∧ cred_trace w1 evs2 w'.
Proof.
  revert w. induction evs1 as [|e evs1 IH]; intros w; simpl.
  - intros Ht. exists w. split; [constructor|done].
  - inversion 1 as [|? ? w1 ? ? Hs Ht]; subst. destruct (IH _ Ht) as (w2 & H1 & H2).
    exists w2. split; [by econstructor|done].
Qed.
End allocation.

(** * Properties *)

Section moncred_theorems.
Context `{D : Dynamo} `{P : Platform} `{L : !DynamoLaws}.

(** C33: a monitoring credential is never handed out twice. However the operations of
    any number of servers on the shared table interleave, and whatever requests
    fail, between two allocations of the same access key there is an operation that
    added that key again. *)
Theorem credential_allocated_once (k : string) (evs : list cred_event) (w w' : World) :
  cred_trace w (Allocated k :: evs ++ [Allocated k]) w' → Added k ∈ evs.
Proof.
  intros Ht. inversion Ht as [|? ? w1 ? ? Hs Ht1]; subst.
  apply trace_app in Ht1 as (w2 & H1 & H2).
  inversion H2 as [|? ? w3 ? ? Hs2 _]; subst.
  destruct (decide (Added k ∈ evs)) as [|Hn]; [done|]. exfalso.
  apply allocated_step in Hs as [_ Hun]. apply allocated_step in Hs2 as [Hav _].
  apply Hav. by eapply unavailable_trace.
Qed.

(** On a healthy service the allocation ends in its first round: it hands out a
    credential as it is stored, that was neither in use nor revoked, and marks that one
    alone as in use, or reports that none is available, the first page of the scan being empty
    then. *)
Theorem allocateMonitoringCredential_correct (fuel : nat) (w : World) :
  CredsInv w → healthy (db w) →
  wp (allocateMonitoringCredential (S fuel)) (λ r w', CredsInv w' ∧ healthy (db w') ∧
    ((∃ c w1, r = Ok (c, "") ∧ quiet w w1 ∧ allocated c w1 w' ∧
        stored_cred w (S3Credential.make (S3Credential.accessKey c) (S3Credential.secretKey c))) ∨
     (r = Ok (S3Credential.none, "No monitoring credentials available for allocation") ∧
      quiet w w' ∧ ∃ next, first_page w [] next ∧
      (next = None → ∀ c, stored_cred w c → ¬ cred_available c)))) w.
Proof. apply allocateMonitoringCredential_spec. Qed.

(** The other operations on monitoring credentials, on every branch: adding
    stores an unused, unrevoked credential and rejects any other without effect;
    reading returns the stored credential; revoking marks an existing credential as
    revoked and not in use, and refuses an unknown key; deleting refuses a
    credential that is in use. A refusal changes nothing. *)
Theorem moncred_operations_correct (c : S3Credential.t) (k : string) (w : World) :
  CredsInv w →
  (if S3Credential.to_bool c && negb (S3Credential.inUse c) && negb (S3Credential.revoked c)
   then wp (addMonitoringCredential c)
          (cred_post (S3Credential.accessKey c) (λ _, Some (Some c)) w) w
   else ∃ e, addMonitoringCredential c w = (Throw e, w)) ∧
  wp (getMonitoringCredential k) (λ r w', quiet w w' ∧ ∃ c, r = Ok c ∧
    ((stored_cred w c ∧ S3Credential.accessKey c = k) ∨
     (c = S3Credential.none ∧
      (healthy (db w) → ∀ c', stored_cred w c' → S3Credential.accessKey c' ≠ k)))) w ∧
  wp (revokeMonitoringCredential k) (cred_post k (revoke_result k) w) w ∧
  wp (deleteMonitoringCredential k) (cred_post k (delete_result k) w) w.
Proof.
  intros Hi. split; [|split; [by apply getMonitoringCredential_spec|]].
  - destruct (S3Credential.to_bool c) eqn:Hv, (S3Credential.inUse c) eqn:Hu,
      (S3Credential.revoked c) eqn:Hr; simpl;
      try (apply addMonitoringCredential_refused; rewrite Hv, Hu, Hr; tauto).
    by apply addMonitoringCredential_spec.
  - split; [by apply revokeMonitoringCredential_spec|by apply deleteMonitoringCredential_spec].
Qed.
End moncred_theorems.

Section moncred_witnesses.
Import Demo.

Definition demo_cred : S3Credential.t := S3Credential.make "AKIA" "secret".
Definition demo_creds : World := (addMonitoringCredential demo_cred empty).2.

Lemma empty_CredsInv : CredsInv empty.
Proof. intros k it Hit. done. Qed.

Lemma demo_creds_inv : CredsInv demo_creds.
Proof. by apply addMonitoringCredential_spec; [apply empty_CredsInv|..]. Qed.

(** Allocated, revoked, added again and allocated again. *)
Definition demo_alloc (w : World) : World :=
  (try_allocate (moncred_item demo_cred) w).2.
Definition demo_again : World :=
  (addMonitoringCredential demo_cred
    (revokeMonitoringCredential "AKIA" (demo_alloc demo_creds)).2).2.

Lemma demo_allocated w :
  (try_allocate (moncred_item demo_cred) w).1 =
    Ok (Some (S3Credential.mk "AKIA" "secret" true false)) →
  cred_step w (Allocated "AKIA") (demo_alloc w).
Proof.
  intros Hr. apply (step_allocated (moncred_item demo_cred)
    (S3Credential.mk "AKIA" "secret" true false)). by apply run_result.
Qed.

Lemma credential_allocated_once_witness :
  Added "AKIA" ∈ [Revoked "AKIA"; Added "AKIA"].
Proof.
  apply (credential_allocated_once "AKIA" [Revoked "AKIA"; Added "AKIA"] demo_creds
    (demo_alloc demo_again)). simpl.
  eapply trace_cons; [apply demo_allocated; vm_compute; reflexivity|].
  eapply trace_cons; [apply step_revoked, run_result; vm_compute; reflexivity|].
  eapply trace_cons.
  { apply (step_added demo_cred), run_result. vm_compute. reflexivity. }
  eapply trace_cons; [apply demo_allocated; vm_compute; reflexivity|].
  apply trace_nil.
Defined.

Lemma allocateMonitoringCredential_witness :
  CredsInv (allocateMonitoringCredential 1 demo_creds).2 ∧
  (allocateMonitoringCredential 1 demo_creds).1 =
    Ok (S3Credential.mk "AKIA" "secret" true false, "").
Proof.
  split; [|vm_compute; reflexivity].
  exact (proj1 (allocateMonitoringCredential_correct 0 demo_creds demo_creds_inv eq_refl)).
Defined.

Lemma moncred_operations_witness :
  wp (revokeMonitoringCredential "AKIA") (cred_post "AKIA" (revoke_result "AKIA") demo_creds)
    demo_creds ∧
  (revokeMonitoringCredential "AKIA" demo_creds).1 = Ok true.
Proof.
  split; [|vm_compute; reflexivity].
  exact (proj1 (proj2 (proj2 (moncred_operations_correct demo_cred "AKIA" demo_creds
    demo_creds_inv)))).
Defined.
End moncred_witnesses.
