(* ===== verification/StoreVolumes.v ===== *)
(** Persistent volume claims: the operations of [PersistentStore] on the volumes
    table and the caches of volume claims (src/PersistentStore.cpp). *)

From S2P Require Import Prelude Entities Cache Dynamo Store.
From S2P Require Import Demo Listing Catalogue StoreGroups StoreClusters StoreInstances.

Section volumes.
Context `{D : Dynamo} `{P : Platform}.

(** The selector of a claim is not stored. *)
Definition volume_item (v : PersistentVolumeClaim.t) : Item :=
  {["ID" := AVS (PersistentVolumeClaim.id v);
    "sortKey" := AVS (PersistentVolumeClaim.id v);
    "name" := AVS (PersistentVolumeClaim.name v);
    "owningGroup" := AVS (PersistentVolumeClaim.group v);
    "cluster" := AVS (PersistentVolumeClaim.cluster v);
    "storageRequest" := AVS (PersistentVolumeClaim.storageRequest v);
    "accessMode" := AVS (PersistentVolumeClaim.accessMode_to_string
                           (PersistentVolumeClaim.accessMode v));
    "volumeMode" := AVS (PersistentVolumeClaim.volumeMode_to_string
                           (PersistentVolumeClaim.volumeMode v));
    "storageClass" := AVS (PersistentVolumeClaim.storageClass v);
    "ctime" := AVS (PersistentVolumeClaim.ctime v)]}.

Definition volume_attr (item : Item) (key : string) : Res string :=
  attr_string item key ("Volume record missing " +:+ key +:+ " attribute").

Definition volume_of_item (id : Res string) (item : Item) : Res PersistentVolumeClaim.t :=
  id ← id;
  name ← volume_attr item "name";
  group ← attr_string item "owningGroup" "Volume record missing owning group attribute";
  cluster ← volume_attr item "cluster";
  storageRequest ← volume_attr item "storageRequest";
  accessMode ← volume_attr item "accessMode";
  accessMode ← PersistentVolumeClaim.accessModeFromString accessMode;
  volumeMode ← volume_attr item "volumeMode";
  volumeMode ← PersistentVolumeClaim.volumeModeFromString volumeMode;
  storageClass ← volume_attr item "storageClass";
  ctime ← attr_string item "ctime" "Volume missing ctime attribute";
  mret (PersistentVolumeClaim.mk true id name group cluster storageRequest accessMode
          volumeMode storageClass "" ctime []).

(** The same when listing, where the creation time is read before the storage
    class. *)
Definition volume_of_listed_item (item : Item) : Res PersistentVolumeClaim.t :=
  id ← volume_attr item "ID";
  name ← volume_attr item "name";
  group ← attr_string item "owningGroup" "Volume record missing owning group attribute";
  cluster ← volume_attr item "cluster";
  storageRequest ← volume_attr item "storageRequest";
  accessMode ← volume_attr item "accessMode";
  accessMode ← PersistentVolumeClaim.accessModeFromString accessMode;
  volumeMode ← volume_attr item "volumeMode";
  volumeMode ← PersistentVolumeClaim.volumeModeFromString volumeMode;
  ctime ← attr_string item "ctime" "Volume missing ctime attribute";
  storageClass ← volume_attr item "storageClass";
  mret (PersistentVolumeClaim.mk true id name group cluster storageRequest accessMode
          volumeMode storageClass "" ctime []).

Definition volume_key (v : PersistentVolumeClaim.t) : string :=
  group_and_cluster (PersistentVolumeClaim.group v) (PersistentVolumeClaim.cluster v).

(** The main cache and the three caches by category. *)
Definition cache_volume (pvc : PersistentVolumeClaim.t) : Store unit :=
  record ← make_record pvc volumeCacheValidity;
  _ ← modify (upd_volumes (upd_volumeCache
         (replaceCacheRecord (PersistentVolumeClaim.id pvc) record)));
  _ ← multi_insert (λ f, upd_volumes (upd_volumeByGroupCache f))
        (PersistentVolumeClaim.group pvc) record;
  _ ← multi_insert (λ f, upd_volumes (upd_volumeByClusterCache f))
        (PersistentVolumeClaim.cluster pvc) record;
  multi_insert (λ f, upd_volumes (upd_volumeByGroupAndClusterCache f)) (volume_key pvc) record.

(** The listing by group or cluster leaves out the cache by cluster. *)
Definition cache_listed_volume (pvc : PersistentVolumeClaim.t) : Store unit :=
  record ← make_record pvc volumeCacheValidity;
  _ ← modify (upd_volumes (upd_volumeCache
         (replaceCacheRecord (PersistentVolumeClaim.id pvc) record)));
  _ ← multi_insert (λ f, upd_volumes (upd_volumeByGroupCache f))
        (PersistentVolumeClaim.group pvc) record;
  multi_insert (λ f, upd_volumes (upd_volumeByGroupAndClusterCache f)) (volume_key pvc) record.

Definition addPersistentVolumeClaim (pvc : PersistentVolumeClaim.t) : Store bool :=
  outcome ← request (PutItem SLATE_volumes (volume_item pvc));
  match outcome with
  | inl err => mret false
  | inr _ => _ ← cache_volume pvc; mret true
  end.

(** The whole category by group and cluster is dropped. *)
Definition forget_volume (id : string) : Store unit :=
  c ← gets (λ w, volumeCache (volumes w));
  _ ← match c !! id with
      | Some record =>
          let pvc := CacheRecord.record record in
          _ ← modify (upd_volumes (upd_volumeByGroupCache
                 (λ m, (mm_erase (PersistentVolumeClaim.group pvc) record m).2)));
          _ ← modify (upd_volumes (upd_volumeByClusterCache
                 (λ m, (mm_erase (PersistentVolumeClaim.cluster pvc) record m).2)));
          modify (upd_volumes (upd_volumeByGroupAndClusterCache
                 (λ m, (mm_erase_key (volume_key pvc) m).2)))
      | None => mret tt
      end;
  modify (upd_volumes (upd_volumeCache (delete id))).

Definition removePersistentVolumeClaim (id : string) : Store bool :=
  _ ← forget_volume id;
  outcome ← request (DeleteItem SLATE_volumes (id, id) None);
  match outcome with
  | inl err => mret false
  | inr _ => mret true
  end.

Definition getPersistentVolumeClaim (id : string) : Store PersistentVolumeClaim.t :=
  cached ← find_cached (λ w, volumeCache (volumes w)) id;
  match cached with
  | Some pvc => mret pvc
  | None =>
      _ ← databaseQuery;
      outcome ← request (GetItem SLATE_volumes (id, id));
      match outcome with
      | inl err => mret PersistentVolumeClaim.none
      | inr item =>
          if bool_decide (item = ∅) then mret PersistentVolumeClaim.none else
          pvc ← lift (volume_of_item (Ok id) item);
          _ ← cache_volume pvc;
          mret pvc
      end
  end.

(** Extending the categories of the groups and clusters of the claims found. *)
Definition extend_volume_categories (pvcs : list PersistentVolumeClaim.t) (time : Z) :
    Store unit :=
  let allGroups := elements (list_to_set (PersistentVolumeClaim.group <$> pvcs) : gset string) in
  let allClusters :=
    elements (list_to_set (PersistentVolumeClaim.cluster <$> pvcs) : gset string) in
  _ ← for_each allGroups (λ group, modify (upd_volumes (upd_volumeByGroupCache
         (λ m, (mm_update_expiration group time m).2))));
  for_each allClusters (λ cluster,
    _ ← modify (upd_volumes (upd_volumeByClusterCache
           (λ m, (mm_update_expiration cluster time m).2)));
    for_each allGroups (λ group, modify (upd_volumes (upd_volumeByGroupAndClusterCache
           (λ m, (mm_update_expiration (group_and_cluster group cluster) time m).2))))).

Definition list_volume (item : Item) : Store PersistentVolumeClaim.t :=
  pvc ← lift (volume_of_listed_item item);
  _ ← cache_volume pvc;
  mret pvc.

Definition listPersistentVolumeClaims (fuel : nat) : Store (list PersistentVolumeClaim.t) :=
  list_all (λ w, volumeCacheExpirationTime (volumes w)) (λ w, volumeCache (volumes w))
    SLATE_volumes ETrue list_volume
    (λ result expirationTime,
       _ ← modify (upd_volumes (upd_volumeCacheExpirationTime (λ _, expirationTime)));
       extend_volume_categories result expirationTime)
    volumeCacheValidity fuel.

Definition listPersistentVolumeClaimsByClusterOrGroup (group cluster : string) :
    Store (list PersistentVolumeClaim.t) :=
  g ← normalize_nonempty (λ g, normalizeGroupID g false) group;
  match g with
  | None => mret []
  | Some group =>
      c ← normalize_nonempty normalizeClusterID cluster;
      match c with
      | None => mret []
      | Some cluster =>
          let gc := group_and_cluster group cluster in
          cached ← (if negb (str_empty group) && negb (str_empty cluster) then
                      maybeReturnCachedCategoryMembers
                        (λ w, volumeByGroupAndClusterCache (volumes w)) gc
                    else if negb (str_empty group) then
                      maybeReturnCachedCategoryMembers
                        (λ w, volumeByGroupCache (volumes w)) group
                    else if negb (str_empty cluster) then
                      maybeReturnCachedCategoryMembers
                        (λ w, volumeByClusterCache (volumes w)) cluster
                    else mret None);
          match cached with
          | Some results => mret results
          | None =>
              _ ← databaseQuery;
              outcome ← list_query SLATE_volumes group cluster;
              match outcome with
              | inl err => mret []
              | inr [] => mret []
              | inr items =>
                  result ← for_collect items (λ item,
                    pvc ← lift (volume_of_listed_item item);
                    _ ← cache_listed_volume pvc;
                    mret pvc);
                  t ← now;
                  let time := (t + volumeCacheValidity)%Z in
                  _ ← (if negb (str_empty group) && negb (str_empty cluster) then
                         modify (upd_volumes (upd_volumeByGroupAndClusterCache
                           (λ m, (mm_update_expiration gc time m).2)))
                       else if negb (str_empty group) then
                         modify (upd_volumes (upd_volumeByGroupCache
                           (λ m, (mm_update_expiration group time m).2)))
                       else
                         modify (upd_volumes (upd_volumeByClusterCache
                           (λ m, (mm_update_expiration cluster time m).2))));
                  mret result
              end
          end
      end
  end.

Definition findPersistentVolumeClaimByName (group cluster name : string) :
    Store PersistentVolumeClaim.t :=
  volumes ← listPersistentVolumeClaimsByClusterOrGroup group cluster;
  mret (default PersistentVolumeClaim.none
          (snd <$> list_find (λ v, PersistentVolumeClaim.name v = name) volumes)).
End volumes.

(** * What the table and the caches hold *)

Section volume_invariant.
Context `{D : Dynamo} `{P : Platform}.
Implicit Types (v : PersistentVolumeClaim.t) (it : Item).

(** The selectors of a claim are not in its row: a record read from the database has none,
    the record cached by [addPersistentVolumeClaim] has those it was given. *)
Definition without_selectors v : PersistentVolumeClaim.t :=
  PersistentVolumeClaim.mk (PersistentVolumeClaim.valid v) (PersistentVolumeClaim.id v)
    (PersistentVolumeClaim.name v) (PersistentVolumeClaim.group v)
    (PersistentVolumeClaim.cluster v) (PersistentVolumeClaim.storageRequest v)
    (PersistentVolumeClaim.accessMode v) (PersistentVolumeClaim.volumeMode v)
    (PersistentVolumeClaim.storageClass v) "" (PersistentVolumeClaim.ctime v) [].

Definition volume_row v it : Prop :=
  PersistentVolumeClaim.valid v = true ∧ volume_item v ⊆ it ∧ without_selectors v = v ∧
  no_colon (PersistentVolumeClaim.group v).

Definition volume_kind : Kind PersistentVolumeClaim.t := {|
  k_table := SLATE_volumes;
  k_row := volume_row;
  k_aux _ _ := False;
  k_id := PersistentVolumeClaim.id;
  k_norm := without_selectors;
  k_none := PersistentVolumeClaim.none;
  k_view w := mkCatalogue (volumeCache (volumes w))
    [(PersistentVolumeClaim.group, volumeByGroupCache (volumes w));
     (PersistentVolumeClaim.cluster, volumeByClusterCache (volumes w));
     (volume_key, volumeByGroupAndClusterCache (volumes w))] |}.

Lemma volume_row_lookup v it a x :
  volume_row v it → volume_item v !! a = Some x → it !! a = Some x.
Proof. intros (_ & Hsub & _) Ha. by eapply lookup_weaken. Qed.

Definition volume_attributes : list string :=
  ["ID"; "name"; "owningGroup"; "cluster"; "storageRequest"; "accessMode"; "volumeMode";
   "storageClass"; "ctime"].

(** Any part of the row that has the attributes decodes to the claim, the access and volume
    modes through their texts; the order in which attributes are read does not matter. *)
Lemma volume_row_decode v it (e : Item) :
  volume_row v it → (∀ a x, a ∈ volume_attributes → it !! a = Some x → e !! a = Some x) →
  volume_of_listed_item e = Ok v ∧
  ∀ id, id = Ok (PersistentVolumeClaim.id v) → volume_of_item id e = Ok v.
Proof.
  intros Hr He.
  assert (Hs : ∀ a s err, a ∈ volume_attributes → volume_item v !! a = Some (AVS s) →
    attr_string e a err = Ok s).
  { intros a s err Ha Hv. apply attr_string_ok, He; [done|]. by eapply volume_row_lookup. }
  assert (Hn : without_selectors v = v) by apply Hr.
  assert (Hv : PersistentVolumeClaim.valid v = true) by apply Hr.
  unfold volume_of_listed_item, volume_of_item, volume_attr, mbind, Res_bind.
  rewrite (Hs "ID" (PersistentVolumeClaim.id v)), (Hs "name" (PersistentVolumeClaim.name v)),
    (Hs "owningGroup" (PersistentVolumeClaim.group v)),
    (Hs "cluster" (PersistentVolumeClaim.cluster v)),
    (Hs "storageRequest" (PersistentVolumeClaim.storageRequest v)),
    (Hs "accessMode" (PersistentVolumeClaim.accessMode_to_string (PersistentVolumeClaim.accessMode v))),
    (Hs "volumeMode" (PersistentVolumeClaim.volumeMode_to_string (PersistentVolumeClaim.volumeMode v))),
    (Hs "storageClass" (PersistentVolumeClaim.storageClass v)),
    (Hs "ctime" (PersistentVolumeClaim.ctime v)); 
    [|first [reflexivity|compute_done]..].
  rewrite PersistentVolumeClaim.accessMode_roundtrip, PersistentVolumeClaim.volumeMode_roundtrip.
  unfold without_selectors in Hn. rewrite Hv in Hn.
  split; [|intros id ->]; unfold mret, Res_ret; by rewrite Hn.
Qed.

Context `{L : !DynamoLaws}.

#[global] Instance volume_kind_laws : KindLaws volume_kind.
Proof.
  split; try done.
  - intros v1 v2 it R1 R2. apply volume_row_decode with (e := it) in R1 as [R1 _], R2 as [R2 _];
      [congruence|done..].
  - intros v it Hr. by apply item_key_eq; eapply volume_row_lookup.
  - intros v it Hr. apply Hr.
  - intros w w' Hq. simpl. by rewrite (quiet_volumes _ _ Hq).
  - intros w p v. simpl. rewrite !elem_of_cons, elem_of_nil. by intros [->|[->|[->|[]]]].
Qed.

#[global] Instance volume_grouped :
  GroupedLaws volume_kind PersistentVolumeClaim.group PersistentVolumeClaim.cluster
    volume_of_listed_item volume_ByGroup volume_ByCluster.
Proof.
  split; try done.
  - apply _.
  - intros v it Hr. by eapply volume_row_lookup.
  - intros v it Hr. by eapply volume_row_lookup.
  - intros v it Hr. apply Hr.
  - split; [done|]. split; [done|]. compute_done.
  - intros v it index e Hr Hin He. apply (volume_row_decode v it e Hr).
    assert (Hix : ∃ ix, assoc index (indexes SLATE_volumes) = Some ix ∧
      Forall (λ a, a ∈ index_attributes SLATE_volumes ix) volume_attributes).
    { rewrite !elem_of_cons, elem_of_nil in Hin.
      destruct Hin as [->|[->|[]]]; (eexists; split; [reflexivity|compute_done]). }
    destruct Hix as (ix & Hix & Hattrs). intros a x Ha Hx.
    rewrite (index_entry_lookup_eq SLATE_volumes index ix it e); try done.
    by apply (proj1 (Forall_forall _ _) Hattrs), list_elem_of_In.
Qed.

Lemma cache_volume_saves : saves volume_kind cache_volume.
Proof.
  intros v w. eexists. split; [reflexivity|]. split; [done|]. split; [simpl; lia|].
  exists (CacheRecord.make v volumeCacheValidity (steady (ticks w))).
  split; [done|]. split; [reflexivity|]. solve_catalogued.
Qed.

Lemma cache_listed_volume_saves : saves volume_kind cache_listed_volume.
Proof.
  intros v w. eexists. split; [reflexivity|]. split; [done|]. split; [simpl; lia|].
  exists (CacheRecord.make v volumeCacheValidity (steady (ticks w))).
  split; [done|]. split; [reflexivity|]. solve_catalogued.
Qed.

Lemma forget_volume_forgets : forgets volume_kind forget_volume.
Proof.
  intros id w. unfold forget_volume, mbind, M_bind, gets. simpl.
  destruct (volumeCache (volumes w) !! id) as [r|] eqn:Hr;
    (eexists; split; [reflexivity|]; split; [done|]; split; [reflexivity|]; simpl;
     solve_uncatalogued Hr).
Qed.
End volume_invariant.

(** * Operations *)

Section volume_operations.
Context `{D : Dynamo} `{P : Platform} `{L : !DynamoLaws}.
Implicit Types (v : PersistentVolumeClaim.t) (it : Item) (id : string).

Definition VolumesInv : World → Prop := KindInv volume_kind.
Definition is_volume : World → PersistentVolumeClaim.t → Prop := stored volume_kind.

Definition new_volume (w : World) v : Prop := new_record volume_kind w v (volume_item v).

Lemma getPersistentVolumeClaim_spec id w :
  VolumesInv w → wp (getPersistentVolumeClaim id) (lookup_post volume_kind id w) w.
Proof.
  intros Hi. apply (find_by_id_spec volume_kind (λ w, volumeCache (volumes w)));
    [done|apply cache_volume_saves| |done].
  intros v it Hr <-. by apply (volume_row_decode v it it).
Qed.

Lemma addPersistentVolumeClaim_spec v w :
  VolumesInv w → new_volume w v →
  wp (addPersistentVolumeClaim v) (write_post volume_kind v w) w.
Proof. intros Hi Hn. by apply (add_spec volume_kind); [apply cache_volume_saves|..]. Qed.

Lemma removePersistentVolumeClaim_spec id w :
  VolumesInv w → wp (removePersistentVolumeClaim id)
    (removed_post VolumesInv SLATE_volumes is_volume PersistentVolumeClaim.id id w) w.
Proof. intros Hi. apply (remove_spec volume_kind forget_volume); [apply forget_volume_forgets|done]. Qed.

(** ** Listings *)

Lemma cache_volume_expiration v w :
  volumeCacheExpirationTime (volumes (cache_volume v w).2) = volumeCacheExpirationTime (volumes w).
Proof.
  revert w. change (frame (λ w, volumeCacheExpirationTime (volumes w)) (cache_volume v)).
  unfold cache_volume. solve_frame.
Qed.

(** Extending the categories adds no record to them. *)
Lemma extend_volume_categories_maintains l time :
  maintains volume_kind (extend_volume_categories l time).
Proof.
  unfold extend_volume_categories.
  apply maintains_bind, maintains_for_each; [apply maintains_for_each|]; intros x.
  - intros w. eexists. split; [reflexivity|]. split; [done|]. solve_recatalogued.
  - apply maintains_bind, maintains_for_each; [|intros y];
      (intros w; eexists; split; [reflexivity|]; split; [done|]; solve_recatalogued).
Qed.

#[global] Instance volume_listing :
  ListingLaws (λ w, volumeCacheExpirationTime (volumes w)) (λ w, volumeCache (volumes w))
    SLATE_volumes ETrue list_volume
    (λ result expirationTime,
       _ ← modify (upd_volumes (upd_volumeCacheExpirationTime (λ _, expirationTime)));
       extend_volume_categories result expirationTime)
    (KindInv volume_kind) (stored volume_kind) volume_row PersistentVolumeClaim.id
    without_selectors PersistentVolumeClaim.none.
Proof.
  apply (kind_listing volume_kind) with (save := cache_volume) (decode := volume_of_listed_item).
  - done.
  - apply cache_volume_saves.
  - done.
  - done.
  - intros v it Hr. by apply (volume_row_decode v it it).
  - done.
  - intros w w' Hq. by rewrite (quiet_volumes _ _ Hq).
  - intros v w. apply cache_volume_expiration.
  - intros l time w _. apply maintains_bind; [|apply extend_volume_categories_maintains].
    intros w1. eexists. split; [reflexivity|]. split; [done|]. solve_recatalogued.
Qed.

Definition VolumesListed : World → Prop :=
  listed (expiration := λ w, volumeCacheExpirationTime (volumes w))
    (cache := λ w, volumeCache (volumes w)) (stored := is_volume)
    (id := PersistentVolumeClaim.id).

(** A listing returns claims only, but for the invalid claim, and every claim if the service
    is available; the selectors of a claim may or may not come with it. *)
Definition listPersistentVolumeClaims_post (w : World) (r : Res (list PersistentVolumeClaim.t))
    (w' : World) : Prop :=
  VolumesInv w' ∧ VolumesListed w' ∧ read_only w w' ∧ ∃ l, r = Ok l ∧
    (∀ v, v ∈ l → v = PersistentVolumeClaim.none ∨ is_volume w (without_selectors v)) ∧
    (healthy (db w) → ∀ v, is_volume w v → v ∈ without_selectors <$> l).

Lemma listPersistentVolumeClaims_spec `{!ClockLaws} fuel w :
  VolumesInv w → VolumesListed w → pages_left (db w) SLATE_volumes ETrue None < fuel →
  wp (listPersistentVolumeClaims fuel) (listPersistentVolumeClaims_post w) w.
Proof. apply list_all_spec. Qed.

(** [listPersistentVolumeClaimsByClusterOrGroup] is the common listing. *)
Definition extend_volumes (group cluster : string) (time : Z) : Store unit :=
  if negb (str_empty group) && negb (str_empty cluster) then
    modify (upd_volumes (upd_volumeByGroupAndClusterCache
      (λ m, (mm_update_expiration (group_and_cluster group cluster) time m).2)))
  else if negb (str_empty group) then
    modify (upd_volumes (upd_volumeByGroupCache (λ m, (mm_update_expiration group time m).2)))
  else
    modify (upd_volumes (upd_volumeByClusterCache
      (λ m, (mm_update_expiration cluster time m).2))).

Lemma list_volumes_by group cluster :
  listPersistentVolumeClaimsByClusterOrGroup group cluster =
  list_by volume_kind volume_of_listed_item
    (λ w, volumeByGroupAndClusterCache (volumes w)) (λ w, volumeByGroupCache (volumes w))
    (λ w, volumeByClusterCache (volumes w)) cache_listed_volume extend_volumes group cluster
    volumeCacheValidity.
Proof. reflexivity. Qed.

Definition list_volumes_post (group cluster : string) (w : World) :
    Res (list PersistentVolumeClaim.t) → World → Prop :=
  list_by_post volume_kind PersistentVolumeClaim.group PersistentVolumeClaim.cluster
    (λ w, volumeByGroupAndClusterCache (volumes w)) (λ w, volumeByGroupCache (volumes w))
    (λ w, volumeByClusterCache (volumes w)) group cluster w.

Definition distinct_volume_clusters : World → string → Prop :=
  distinct_cluster_ids volume_kind PersistentVolumeClaim.cluster.

Lemma list_volumes_by_spec group cluster w :
  VolumesInv w → group_arg group → cluster_arg cluster → no_colon group →
  distinct_volume_clusters w cluster →
  wp (listPersistentVolumeClaimsByClusterOrGroup group cluster)
    (list_volumes_post group cluster w) w.
Proof.
  intros. rewrite list_volumes_by.
  apply (list_by_spec volume_kind PersistentVolumeClaim.group PersistentVolumeClaim.cluster
    volume_of_listed_item (ByGroup := volume_ByGroup) (ByCluster := volume_ByCluster)); try done.
  - intros w'. simpl. rewrite !elem_of_cons. auto 10.
  - intros w'. simpl. rewrite !elem_of_cons. auto 10.
  - intros w'. simpl. rewrite !elem_of_cons. auto 10.
  - apply cache_listed_volume_saves.
  - intros g c time w'. unfold extend_volumes.
    destruct (negb (str_empty g) && negb (str_empty c)), (negb (str_empty g));
      (eexists; split; [reflexivity|]; split; [done|]; solve_recatalogued).
Qed.

(** Finding a claim by its name among those of a group on a cluster. *)
Definition find_volume_post (group cluster name : string) (w : World)
    (r : Res PersistentVolumeClaim.t) (w' : World) : Prop :=
  VolumesInv w' ∧ read_only w w' ∧ ∃ v, r = Ok v ∧
    ((is_volume w (without_selectors v) ∧ PersistentVolumeClaim.name v = name ∧
      listed_in PersistentVolumeClaim.group PersistentVolumeClaim.cluster group cluster v) ∨
     v = PersistentVolumeClaim.none) ∧
    (healthy (db w) → group ≠ "" ∨ cluster ≠ "" →
     ¬ list_fresh (λ w, volumeByGroupAndClusterCache (volumes w))
         (λ w, volumeByGroupCache (volumes w)) (λ w, volumeByClusterCache (volumes w))
         group cluster w →
     v = PersistentVolumeClaim.none → ∀ v', is_volume w v' →
     listed_in PersistentVolumeClaim.group PersistentVolumeClaim.cluster group cluster v' →
     PersistentVolumeClaim.name v' ≠ name).

Lemma findPersistentVolumeClaimByName_spec group cluster name w :
  VolumesInv w → group_arg group → cluster_arg cluster → no_colon group →
  distinct_volume_clusters w cluster →
  wp (findPersistentVolumeClaimByName group cluster name)
    (find_volume_post group cluster name w) w.
Proof.
  intros Hi Hg Hc Hcol Hd. unfold findPersistentVolumeClaimByName.
  eapply wp_seq; [by apply list_volumes_by_spec|..].
  2: by intros e w' (_ & _ & l & [=] & _).
  2: by intros w' (_ & _ & l & [=] & _).
  intros l w' (Hi' & Hro & l' & [= <-] & Hl & Hall). split; [done|]. split; [done|].
  eexists. split; [done|].
  destruct (list_find (λ v, PersistentVolumeClaim.name v = name) l) as [[i v]|] eqn:Hf; simpl.
  - apply list_find_Some in Hf as (Hv & Hn & _). apply list_elem_of_lookup_2 in Hv.
    destruct (Hl v Hv) as [Hv' Hls]. split; [left; split; [done|]; by split|].
    intros _ _ _ ->. by destruct (kv_nonempty _ _ Hi _ Hv').
  - split; [by right|]. intros Hh Hne Hnf _ v' Hv' Hls Hn.
    apply list_find_None in Hf. apply (proj1 (Forall_forall _ _) Hf v'); [|done].
    by apply list_elem_of_In, Hall.
Qed.
End volume_operations.

(** * Properties *)

Section volume_theorems.
Context `{D : Dynamo} `{P : Platform} `{L : !DynamoLaws}.

(** The operations on one volume claim. A lookup returns the stored claim with that ID,
    up to its selectors, or - the service being available - the invalid claim exactly when
    there is none; adding a new claim and removing one change that claim alone, and keep
    the main cache and the three caches by category coherent with the table; [false] is
    returned only if the service refused. *)
Theorem volume_operations_correct (id : string) (v : PersistentVolumeClaim.t) (w : World) :
  VolumesInv w →
  wp (getPersistentVolumeClaim id) (lookup_post volume_kind id w) w ∧
  (new_volume w v → wp (addPersistentVolumeClaim v) (write_post volume_kind v w) w) ∧
  wp (removePersistentVolumeClaim id)
    (removed_post VolumesInv SLATE_volumes is_volume PersistentVolumeClaim.id id w) w.
Proof.
  intros Hi. split; [by apply getPersistentVolumeClaim_spec|].
  split; [by apply addPersistentVolumeClaim_spec|by apply removePersistentVolumeClaim_spec].
Qed.

(** The listings of volume claims. All of them, those of a group or a cluster or both,
    and the one with a name: each returns stored claims of that kind only and - the service
    being available and, for a group or cluster, the caches not recent enough to answer -
    all of them. *)
Theorem volume_listings_correct `{!ClockLaws} (fuel : nat) (group cluster name : string)
    (w : World) :
  VolumesInv w →
  (VolumesListed w → pages_left (db w) SLATE_volumes ETrue None < fuel →
   wp (listPersistentVolumeClaims fuel) (listPersistentVolumeClaims_post w) w) ∧
  (group_arg group → cluster_arg cluster → no_colon group → distinct_volume_clusters w cluster →
   wp (listPersistentVolumeClaimsByClusterOrGroup group cluster)
     (list_volumes_post group cluster w) w ∧
   wp (findPersistentVolumeClaimByName group cluster name)
     (find_volume_post group cluster name w) w).
Proof.
  intros Hi. split; [by apply listPersistentVolumeClaims_spec|]. intros.
  split; [by apply list_volumes_by_spec|by apply findPersistentVolumeClaimByName_spec].
Qed.
End volume_theorems.

Section volume_witnesses.
Import Demo.

Definition demo_volume : PersistentVolumeClaim.t :=
  PersistentVolumeClaim.mk true "volume_1" "data" "group_1" "cluster_1" "10Gi"
    PersistentVolumeClaim.ReadWriteMany PersistentVolumeClaim.Filesystem "ssd" "label" "now" [].

Lemma empty_VolumesInv : VolumesInv empty.
Proof.
  split.
  - intros k it. by rewrite empty_table, lookup_empty.
  - intros v (it & Hit & _). by rewrite empty_table, lookup_empty in Hit.
  - split; [intros k r; simpl; by rewrite lookup_empty|].
    intros p Hp k r Hin. simpl in Hp. rewrite !elem_of_cons, elem_of_nil in Hp.
    by destruct Hp as [->|[->|[->|[]]]]; apply in_category_empty in Hin.
Qed.

Lemma demo_new_volume : new_volume empty demo_volume.
Proof.
  split_and!; try done. intros v (it & Hit & _). by rewrite empty_table, lookup_empty in Hit.
Qed.

(** The server after adding the claim. *)
Definition demo_volumes : World := (addPersistentVolumeClaim demo_volume empty).2.

Lemma demo_volumes_facts :
  VolumesInv demo_volumes ∧ ∀ v, is_volume demo_volumes v ↔ v = without_selectors demo_volume.
Proof.
  pose proof (addPersistentVolumeClaim_spec demo_volume empty empty_VolumesInv demo_new_volume)
    as Ha. unfold wp in Ha.
  assert (Hres : (addPersistentVolumeClaim demo_volume empty).1 = Ok true)
    by (vm_compute; reflexivity).
  destruct Ha as (Hi & _ & _ & Hs). rewrite Hres in Hs.
  split; [exact Hi|]. intros v. etrans; [apply Hs|].
  split; [|by left]. intros [?|[(it & Hit & _) _]]; [done|].
  by rewrite empty_table, lookup_empty in Hit.
Qed.

Lemma demo_distinct_volumes : distinct_volume_clusters demo_volumes "cluster_1".
Proof. intros _ v Hv. apply demo_volumes_facts in Hv as ->. done. Qed.

Lemma volume_operations_witness :
  wp (getPersistentVolumeClaim "volume_1") (lookup_post volume_kind "volume_1" demo_volumes)
    demo_volumes ∧
  (getPersistentVolumeClaim "volume_1" demo_volumes).1 = Ok demo_volume.
Proof.
  split; [|vm_compute; reflexivity].
  exact (proj1 (volume_operations_correct "volume_1" demo_volume demo_volumes
    (proj1 demo_volumes_facts))).
Defined.

Lemma volume_listings_witness :
  wp (findPersistentVolumeClaimByName "group_1" "cluster_1" "data")
    (find_volume_post "group_1" "cluster_1" "data" demo_volumes) demo_volumes ∧
  (findPersistentVolumeClaimByName "group_1" "cluster_1" "data" demo_volumes).1 =
    Ok (without_selectors demo_volume).
Proof.
  split; [|vm_compute; reflexivity].
  exact (proj2 (proj2 (volume_listings_correct 5 "group_1" "cluster_1" "data" demo_volumes
    (proj1 demo_volumes_facts)) (or_intror eq_refl) (or_intror eq_refl) eq_refl
    demo_distinct_volumes)).
Defined.
End volume_witnesses.
