(* ===== verification/StoreApplications.v ===== *)
(** The catalogue of applications: the tables that helm prints, and the cache of
    applications by repository (src/PersistentStore.cpp). *)

From S2P Require Import Prelude Text Entities Cache Dynamo Store Demo Kubernetes Catalogue.

Section applications.
Context `{D : Dynamo} `{P : Platform} `{PR : !Processes}.
Implicit Types (app : Application.t).

(** [tokens[n]] without a test: undefined behaviour when there are too few. *)
Definition column (tokens : list string) (n : nat) : Res string :=
  match tokens !! n with
  | Some token => Ok token
  | None => Throw "undefined behaviour: column out of range"
  end.

(** The first record of that name, unless it has expired. *)
Fixpoint find_record (appName : string) (records : list (CacheRecord.t Application.t)) :
    Store (option Application.t) :=
  match records with
  | [] => mret None
  | record :: records =>
      if bool_decide (Application.name (CacheRecord.record record) = appName) then
        valid ← record_valid record;
        if valid : bool then mret (Some (CacheRecord.record record))
        else find_record appName records
      else find_record appName records
  end.

(** The line of the application among those that helm prints below the header. *)
Fixpoint find_line (target appName : string) (lines : list string) : Res Application.t :=
  match lines with
  | [] => Ok Application.none
  | line :: lines =>
      let tokens := string_split_columns line tab true in
      front ← column tokens 0;
      if bool_decide (trim front = target) then
        if 4 <=? length tokens then
          version ← column tokens 2;
          chartVersion ← column tokens 1;
          description ← column tokens 3;
          Ok (Application.mk true appName version chartVersion description)
        else Ok (Application.mk true appName "unknown" "unknown" "")
      else find_line target appName lines
  end.

Definition cache_application (repository : string) (app : Application.t) : Store unit :=
  record ← make_record app instanceCacheValidity;
  multi_insert upd_applicationCache repository record.

Definition findApplication (repository appName chartVersion : string) : Store Application.t :=
  cache ← gets applicationCache;
  t ← now;
  let cached := mm_find repository cache in
  found ← (if (t <? cached.2)%Z then find_record appName cached.1 else mret None);
  match found with
  | Some app => mret app
  | None =>
      let target := repository +:+ "/" +:+ appName in
      version ← getHelmMajorVersion;
      let searchArgs := if (version =? 3)%Z
        then ["search"; "repo"; target; "--version"; chartVersion]
        else ["search"; target; "--version"; chartVersion] in
      result ← run "helm" searchArgs [];
      if negb (status result =? 0)%Z then
        throw ("Command failed: helm search " +:+ target +:+ ": [err] " +:+ error result
               +:+ " [out] " +:+ output result)
      else
      match str_find "No results found" (output result) with
      | Some _ => mret Application.none
      | None =>
          app ← lift (find_line target appName (tail (string_split_lines (output result))));
          _ ← cache_application repository app;
          mret app
      end
  end.

Definition fetch_args (version : Z) (repository : string) : list string :=
  if (version =? 2)%Z then ["search"; repository +:+ "/"; "--col-width=1024"]
  else if (version =? 3)%Z
  then ["search"; "repo"; repository +:+ "/"; "--max-col-width=1024"]
  else ["search"; repository +:+ "/"].

(** An application of the listing; [substr] throws when the line is too short. *)
Definition application_of_line (repository line : string) : Res Application.t :=
  let tokens := string_split_columns line tab true in
  front ← column tokens 0;
  if str_size front <? str_size repository + 1 then Throw "basic_string::substr" else
  version ← column tokens 2;
  chartVersion ← column tokens 1;
  description ← column tokens 3;
  Ok (Application.mk true (str_drop (str_size repository + 1) front) version chartVersion
        description).

Definition fetchApplications (repository : string) : Store (list Application.t) :=
  helmMajorVersion ← getHelmMajorVersion;
  result ← run "helm" (fetch_args helmMajorVersion repository) [];
  if negb (status result =? 0)%Z then
    throw ("helm search failed: [err] " +:+ error result +:+ " [out] " +:+ output result)
  else
  results ← for_collect (tail (string_split_lines (output result))) (λ line,
    app ← lift (application_of_line repository line);
    _ ← cache_application repository app;
    mret app);
  t ← now;
  _ ← modify (upd_applicationCache (λ m,
         (mm_update_expiration repository (t + instanceCacheValidity)%Z m).2));
  mret results.

Definition listApplications (repository : string) : Store (list Application.t) :=
  cached ← maybeReturnCachedCategoryMembers applicationCache repository;
  match cached with
  | Some results => mret results
  | None => fetchApplications repository
  end.

(** * The tables of helm *)

(** A line of the table: four columns separated by tabs, each padded with spaces, and
    something in the last. *)
Definition helm_row (repository : string) app (line : string) : Prop :=
  ∃ (cells : list (string * string * string)) l w r,
    line = join tab ((λ c, c.1.1 +:+ c.1.2 +:+ c.2) <$> cells) +:+ l +:+ w +:+ r ∧
    Forall (λ c, blank c.1.1 ∧ trimmed c.1.2 ∧ blank c.2 ∧
      without tab (c.1.1 +:+ c.1.2 +:+ c.2)) (cells ++ [(l, w, r)]) ∧
    str_empty (l +:+ w +:+ r) = false ∧ without newline line ∧
    (λ c, c.1.2) <$> cells = [repository +:+ "/" +:+ Application.name app;
      Application.chartVersion app; Application.version app] ∧
    w = Application.description app ∧ Application.valid app = true.

Lemma helm_row_columns repository app line :
  helm_row repository app line → string_split_columns line tab true =
    [repository +:+ "/" +:+ Application.name app; Application.chartVersion app;
     Application.version app; Application.description app].
Proof.
  intros (cells & l & w & r & -> & Hc & He & _ & Hw & -> & _).
  rewrite string_split_correct by done. rewrite He, Hw. simpl.
  rewrite !filter_cons. rewrite !decide_True by (rewrite orb_true_r; done). done.
Qed.

Lemma helm_row_parsed repository app line :
  helm_row repository app line → application_of_line repository line = Ok app.
Proof.
  intros Hr. unfold application_of_line. rewrite (helm_row_columns _ _ _ Hr). simpl.
  destruct Hr as (_ & _ & _ & _ & _ & _ & _ & _ & _ & _ & Hv).
  rewrite str_size_app. simpl. destruct (Nat.ltb_spec (str_size repository +
    S (str_size (Application.name app))) (str_size repository + 1)) as [Hlt|_]; [lia|].
  rewrite str_drop_app_add. destruct app. simpl in *. by subst.
Qed.

Lemma helm_table_lines header lines :
  without newline header → Forall (without newline) lines →
  tail (string_split_lines (join newline (header :: lines))) = lines.
Proof.
  intros Hh Hl. unfold string_split_lines.
  rewrite <- (str_app_nil_r (join newline (header :: lines))).
  rewrite getlines_join by (done || by constructor). simpl. by rewrite app_nil_r.
Qed.

(** * What is cached *)

(** The category of the repository: records of [apps] that are valid until [until]. *)
Definition cached_apps (repository : string) (apps : list Application.t) (until : Z)
    (m : gmap string (category (CacheRecord.t Application.t))) : Prop :=
  match apps with
  | [] => m !! repository = None
  | _ => ∃ rs e, m !! repository = Some (rs, e) ∧ CacheRecord.record <$> rs = apps ∧
      Forall (λ r, (until <= CacheRecord.expirationTime r)%Z) rs
  end.

Lemma new_name_absent (rs : list (CacheRecord.t Application.t)) r :
  Application.name (CacheRecord.record r) ∉ Application.name <$> (CacheRecord.record <$> rs) →
  set_has r rs = false.
Proof.
  intros Hn. apply set_has_false. intros x Hx.
  destruct (cpp_eq r x) eqn:He; [|done]. destruct Hn.
  unfold cpp_eq, CacheRecord.eqb, cpp_eq, Application.eqb, eq_on in He.
  apply bool_decide_eq_true in He. injection He as -> _.
  by apply list_elem_of_fmap_2, list_elem_of_fmap_2.
Qed.

Context `{C : !ClockLaws}.

Lemma cache_application_adds repository apps app until w :
  cached_apps repository apps until (applicationCache w) →
  Application.name app ∉ Application.name <$> apps →
  (until <= steady (ticks w) + instanceCacheValidity)%Z →
  wp (cache_application repository app)
    (λ r w', r = Ok tt ∧ ticks w ≤ ticks w' ∧
       cached_apps repository (apps ++ [app]) until (applicationCache w')) w.
Proof.
  intros Hc Hn Hu. unfold cache_application. apply wp_make_record. unfold wp. simpl.
  split; [done|]. split; [lia|]. set (r := CacheRecord.make _ _ _).
  destruct apps as [|a apps]; simpl in Hc |- *.
  - unfold mm_insert_or_assign. rewrite Hc. simpl. eexists _, _. rewrite lookup_insert_eq.
    split; [done|]. split; [done|]. by repeat constructor.
  - destruct Hc as (rs & e & Hm & Hrs & Hf). unfold mm_insert_or_assign. rewrite Hm. simpl.
    assert (Hs : set_has r rs = false) by (apply new_name_absent; by rewrite Hrs).
    rewrite Hs. unfold set_emplace. rewrite Hs. simpl. eexists _, _. rewrite lookup_insert_eq.
    split; [done|]. split; [by rewrite fmap_app, Hrs|].
    apply list.Forall_app. split; [done|]. by repeat constructor.
Qed.

Lemma fetch_loop repository lines apps before until w :
  Forall2 (helm_row repository) apps lines →
  NoDup (Application.name <$> before ++ apps) →
  cached_apps repository before until (applicationCache w) →
  (until <= steady (ticks w) + instanceCacheValidity)%Z →
  wp (for_collect lines (λ line,
        app ← lift (application_of_line repository line);
        _ ← cache_application repository app;
        mret app))
    (λ r w', r = Ok apps ∧ ticks w ≤ ticks w' ∧
       cached_apps repository (before ++ apps) until (applicationCache w')) w.
Proof.
  intros Hrows. revert before w.
  induction Hrows as [|app line apps lines Hrow _ IH]; intros before w Hnd Hc Hu; cbn [for_collect].
  { apply wp_ret. rewrite app_nil_r. auto. }
  rewrite (helm_row_parsed _ _ _ Hrow).
  assert (Hn : Application.name app ∉ Application.name <$> before).
  { rewrite fmap_app in Hnd. apply list.NoDup_app in Hnd as (_ & Hdis & _).
    intros Hin. apply (Hdis _ Hin). left. }
  eapply (wp_seq (λ r w1, r = Ok app ∧ ticks w ≤ ticks w1 ∧
    cached_apps repository (before ++ [app]) until (applicationCache w1)));
    [|..|by intros w1 ([=] & _)].
  - eapply wp_run; [reflexivity|]. eapply wp_seq; [by apply cache_application_adds| |..].
    + intros [] w1 (_ & ? & ?). by apply wp_ret.
    + by intros e w1 ([=] & _).
    + by intros w1 ([=] & _).
  - intros a w1 ([= ->] & Ht & Hc1). eapply wp_seq; [eapply (IH (before ++ [app])); [|done|]| |..].
    + by rewrite <- app_assoc.
    + pose proof (steady_mono _ _ Ht). lia.
    + intros l w2 ([= ->] & Ht2 & Hc2). apply wp_ret. rewrite <- app_assoc in Hc2.
      split; [done|]. split; [lia|done].
    + by intros e w2 ([=] & _).
    + by intros w2 ([=] & _).
  - by intros e w1 ([=] & _).
Qed.

(** The clock stays below [limit] for the next [n] readings. *)
Definition time_left (n : nat) (limit : Z) (w : World) : Prop :=
  ∀ i, i ≤ n → (steady (ticks w + i) < limit)%Z.

Lemma filter_fresh (rs : list (CacheRecord.t Application.t)) limit w :
  time_left (length rs) limit w → Forall (λ r, (limit <= CacheRecord.expirationTime r)%Z) rs →
  (for_filter rs (λ r, v ← record_valid r;
     if v : bool then _ ← cacheHit; mret true else mret false) w).1 = Ok rs.
Proof.
  revert w. induction rs as [|r rs IH]; intros w Ht Hf; [done|]. cbn [for_filter].
  apply list.Forall_cons in Hf as [Hr Hf].
  pose proof (Ht 0 ltac:(lia)) as H0. rewrite Nat.add_0_r in H0.
  assert (Hv : CacheRecord.to_bool (steady (ticks w)) r = true).
  { unfold CacheRecord.to_bool. apply Z.leb_le. lia. }
  unfold mbind, M_bind, record_valid, now, mret, M_ret, cacheHit, modify, mbind, M_bind.
  rewrite Hv. set (w1 := upd_stats _ _).
  assert (Ht1 : time_left (length rs) limit w1).
  { intros i Hi. specialize (Ht (S i) ltac:(simpl; lia)). unfold w1. simpl.
    by rewrite Nat.add_succ_r in Ht. }
  pose proof (IH w1 Ht1 Hf) as HIH. unfold mbind, M_bind, record_valid, now, mret, M_ret, cacheHit,
    modify in HIH. destruct (for_filter rs _ w1) as [r2 w2]. simpl in HIH. by subst r2.
Qed.

Lemma find_record_fresh rs limit app w :
  time_left (length rs) limit w → Forall (λ r, (limit <= CacheRecord.expirationTime r)%Z) rs →
  NoDup (Application.name <$> (CacheRecord.record <$> rs)) → app ∈ CacheRecord.record <$> rs →
  (find_record (Application.name app) rs w).1 = Ok (Some app).
Proof.
  revert w. induction rs as [|r rs IH]; intros w Ht Hf Hnd Hin; [by apply not_elem_of_nil in Hin|].
  apply list.Forall_cons in Hf as [Hr Hf]. cbn [fmap list_fmap] in Hnd, Hin.
  apply list.NoDup_cons in Hnd as [Hnew Hnd].
  cbn [find_record]. case_bool_decide as Hname.
  - assert (app = CacheRecord.record r) as ->.
    { apply elem_of_cons in Hin as [?|Hin]; [done|]. destruct Hnew. rewrite Hname.
      by apply list_elem_of_fmap_2. }
    pose proof (Ht 0 ltac:(lia)) as H0. rewrite Nat.add_0_r in H0.
    assert (Hv : CacheRecord.to_bool (steady (ticks w)) r = true).
    { unfold CacheRecord.to_bool. apply Z.leb_le. lia. }
    unfold mbind, M_bind, record_valid, now, mret, M_ret, mbind, M_bind. by rewrite Hv.
  - apply elem_of_cons in Hin as [->|Hin]; [done|]. apply IH; [|done..].
    intros i Hi. apply Ht. simpl. lia.
Qed.

(** helm answers the search with a table of these lines. *)
Definition helm_prints (repository : string) (lines : list string) (w : World) : Prop :=
  ∃ version w1 header err, getHelmMajorVersion w = (Ok version, w1) ∧ without newline header ∧
    (run "helm" (fetch_args version repository) [] w1).1 =
      Ok (mkCommandResult (join newline (header :: lines)) err 0).

Lemma inside_ticks w w' : inside w' = inside w → ticks w' = ticks w.
Proof. unfold inside. by intros [= _ -> _]. Qed.

Lemma inside_applications w w' : inside w' = inside w → applicationCache w' = applicationCache w.
Proof. unfold inside. by intros [= _ _ _ _ _ _ _ _ _ ->]. Qed.

Lemma fetchApplications_spec repository apps lines w :
  applicationCache w !! repository = None → NoDup (Application.name <$> apps) →
  Forall2 (helm_row repository) apps lines → helm_prints repository lines w →
  wp (fetchApplications repository) (λ r w', r = Ok apps ∧ (apps ≠ [] → ∃ rs e,
    applicationCache w' !! repository = Some (rs, e) ∧ CacheRecord.record <$> rs = apps ∧
    (steady (ticks w) + instanceCacheValidity <= e)%Z ∧
    Forall (λ r, (steady (ticks w) + instanceCacheValidity <= CacheRecord.expirationTime r)%Z) rs)) w.
Proof.
  intros Hc Hnd Hrows (version & w1 & header & err & Hv & Hh & Hr). unfold fetchApplications.
  pose proof (frame_getHelmMajorVersion w) as Hf1. rewrite Hv in Hf1. simpl in Hf1.
  eapply wp_run; [exact Hv|].
  pose proof (frame_run "helm" (fetch_args version repository) [] w1) as Hf2.
  destruct (run "helm" (fetch_args version repository) [] w1) as [r w2] eqn:Hrun.
  simpl in Hr, Hf2. subst r. eapply wp_run; [exact Hrun|]. simpl.
  assert (Hin : inside w2 = inside w) by congruence.
  pose proof (inside_ticks _ _ Hin) as Ht. pose proof (inside_applications _ _ Hin) as Ha.
  assert (Hl : Forall (without newline) lines).
  { clear -Hrows. induction Hrows as [|a l apps lines (? & ? & ? & ? & _ & _ & _ & ? & _)]; by constructor. }
  change (header +:+ String newline (join newline lines)) with (join newline (header :: lines)).
  rewrite helm_table_lines by done.
  eapply wp_seq; [eapply (fetch_loop repository lines apps [] (steady (ticks w2) + instanceCacheValidity));
    [done|done|simpl; by rewrite Ha|lia]| |by intros e w3 ([=] & _)|by intros w3 ([=] & _)].
  intros l w3 ([= ->] & Ht3 & Hc3). apply wp_now, wp_modify, wp_ret. split; [done|]. intros Hne.
  simpl in Hc3. destruct apps as [|a apps]; [done|]. destruct Hc3 as (rs & e & Hm & Hrs & Hf).
  simpl. unfold mm_update_expiration. rewrite Hm. simpl. rewrite lookup_insert_eq.
  rewrite Ht in Hf, Ht3. pose proof (steady_mono _ _ Ht3).
  eexists rs, _. split; [done|]. split; [done|]. split; [lia|done].
Qed.

End applications.

(** * An example *)

Section application_witnesses.
Import Demo.

Definition demo_line : string :=
  join tab ["slate/nginx"; "1.2.3 "; " 1.19"] +:+ "A web server ".
Definition demo_application : Application.t :=
  Application.mk true "nginx" "1.19" "1.2.3" "A web server".
Definition demo_header : string := "version.BuildInfo{Version:" +:+ dquote +:+ "v3.5.4" +:+ dquote.
Definition demo_table : string := join newline [demo_header; demo_line].

Lemma trimmed_ends x d :
  match x with String c _ => isspace c = false | _ => True end → isspace d = false →
  trimmed (x +:+ String d "").
Proof.
  intros Hc Hd. right. destruct x as [|c x]; [by exists d, "", d, ""|].
  by exists c, (x +:+ String d ""), d, (String c x).
Qed.

Lemma demo_row : helm_row "slate" demo_application demo_line.
Proof.
  exists [("", "slate/nginx", ""); ("", "1.2.3", " "); (" ", "1.19", "")], "", "A web server", " ".
  split; [by vm_compute|].
  split; [|by split_and!; vm_compute].
  repeat (apply list.Forall_cons; split); [..|by constructor];
    (split; [by vm_compute|split; [|split; by vm_compute]]).
  - by apply (trimmed_ends "slate/ngin").
  - by apply (trimmed_ends "1.2.").
  - by apply (trimmed_ends "1.1").
  - by apply (trimmed_ends "A web serve").
Qed.

End application_witnesses.
