(* ===== verification/Directory.v ===== *)
(** The directory: users, groups and memberships as one abstract state, what a request
    may do to it on behalf of a user, and the operations of the store seen as changes of
    it. The handlers of the server are proved against this file. *)

From S2P Require Import Prelude Entities Cache Dynamo Store Demo Listing StoreGroups.
From S2P Require Import StoreUsers StoreMembership.

(** * The abstract state *)

Record Directory := mkDirectory {
  dir_users : User.t → Prop; dir_groups : Group.t → Prop;
  dir_members : string → string → Prop }.

(** [new] is stored, in place of what had its ID. *)
Definition put {T} (id : T → string) (new : T) (holds holds' : T → Prop) : Prop :=
  ∀ x, holds' x ↔ x = new ∨ (holds x ∧ id x ≠ id new).

Definition dropped {T} (id : T → string) (key : string) (holds holds' : T → Prop) : Prop :=
  ∀ x, holds' x ↔ holds x ∧ id x ≠ key.

Definition same {T} (holds holds' : T → Prop) : Prop := ∀ x, holds' x ↔ holds x.

Definition member_set (uID gID : string) (b : bool) (members members' : string → string → Prop) :
    Prop :=
  ∀ u g, members' u g ↔ if decide (u = uID ∧ g = gID) then b = true else members u g.

Definition same_members (d d' : Directory) : Prop :=
  ∀ u g, dir_members d' u g ↔ dir_members d u g.

Definition same_directory (d d' : Directory) : Prop :=
  same (dir_users d) (dir_users d') ∧ same (dir_groups d) (dir_groups d') ∧
  same_members d d'.

#[global] Instance same_preorder T : PreOrder (@same T).
Proof. split; [by intros h x|]. intros h1 h2 h3 H1 H2 x. etrans; [apply H2|apply H1]. Qed.
#[global] Instance same_members_preorder : PreOrder same_members.
Proof. split; [by intros d u g|]. intros d1 d2 d3 H1 H2 u g. etrans; [apply H2|apply H1]. Qed.
#[global] Instance same_directory_preorder : PreOrder same_directory.
Proof.
  split; [by split|]. intros d1 d2 d3 (?&?&?) (?&?&?). split_and!; by etrans.
Qed.

(** Who may act on the account of a user: an administrator and the user. *)
Definition may_manage (u : User.t) (uID : string) : Prop :=
  User.admin u = true ∨ User.id u = uID.

(** Who may act on a group: an administrator and the members of the group. *)
Definition may_steer (d : Directory) (u : User.t) (gID : string) : Prop :=
  User.admin u = true ∨ dir_members d (User.id u) gID.

Definition new_to (d : Directory) (x : User.t) : Prop :=
  ∀ y, dir_users d y → User.id y ≠ User.id x ∧ User.token y ≠ User.token x ∧
    User.globusID y ≠ User.globusID x.

(** * What a user may do *)

Inductive action (u : User.t) (d d' : Directory) : Prop :=
  | create_user x :
      User.admin u = true → new_to d x → put User.id x (dir_users d) (dir_users d') →
      same (dir_groups d) (dir_groups d') → same_members d d' → action u d d'
  (** the token stays, and only administrators change the flag *)
  | update_user old new :
      may_manage u (User.id old) → dir_users d old →
      User.id new = User.id old → User.token new = User.token old →
      User.globusID new = User.globusID old →
      User.admin new = User.admin old ∨ User.admin u = true →
      put User.id new (dir_users d) (dir_users d') →
      same (dir_groups d) (dir_groups d') → same_members d d' → action u d d'
  | replace_token old new :
      may_manage u (User.id old) → dir_users d old →
      User.id new = User.id old → User.globusID new = User.globusID old →
      User.admin new = User.admin old →
      put User.id new (dir_users d) (dir_users d') →
      same (dir_groups d) (dir_groups d') → same_members d d' → action u d d'
  | delete_user uID :
      may_manage u uID → dropped User.id uID (dir_users d) (dir_users d') →
      same (dir_groups d) (dir_groups d') → same_members d d' → action u d d'
  (** of an existing user to an existing group *)
  | add_member uID gID :
      (∃ x, dir_users d x ∧ User.id x = uID) → (∃ g, dir_groups d g ∧ Group.id g = gID) →
      may_steer d u gID →
      same (dir_users d) (dir_users d') → same (dir_groups d) (dir_groups d') →
      member_set uID gID true (dir_members d) (dir_members d') → action u d d'
  (** by a member of the group, or of one's own account *)
  | remove_member uID gID :
      may_steer d u gID ∨ uID = User.id u →
      same (dir_users d) (dir_users d') → same (dir_groups d) (dir_groups d') →
      member_set uID gID false (dir_members d) (dir_members d') → action u d d'
  (** with its creator as a member, unless this fails *)
  | create_group g :
      (∀ h, dir_groups d h → Group.id h ≠ Group.id g ∧ Group.name h ≠ Group.name g) →
      (∀ x, ¬ dir_members d x (Group.id g)) →
      same (dir_users d) (dir_users d') → put Group.id g (dir_groups d) (dir_groups d') →
      same_members d d' ∨
        member_set (User.id u) (Group.id g) true (dir_members d) (dir_members d') →
      action u d d'
  | update_group old new :
      may_steer d u (Group.id old) → dir_groups d old →
      Group.id new = Group.id old → Group.name new = Group.name old →
      same (dir_users d) (dir_users d') → put Group.id new (dir_groups d) (dir_groups d') →
      same_members d d' → action u d d'.

(** What a request may do: any number of actions. *)
Inductive actions (u : User.t) : Directory → Directory → Prop :=
  | no_action d d' : same_directory d d' → actions u d d'
  | one_action d d' : action u d d' → actions u d d'
  | more_actions d d' d'' : actions u d d' → actions u d' d'' → actions u d d''.

(** A property of the two ends that composes and that actions have. *)
Lemma actions_ind_preorder u (R : Directory → Directory → Prop) `{!Transitive R} :
  (∀ d d', same_directory d d' → R d d') → (∀ d d', action u d d' → R d d') →
  ∀ d d', actions u d d' → R d d'.
Proof. intros Hs Ha d d'. induction 1; [auto|auto|etrans; eauto]. Qed.

(** * The store as a directory *)

Section store.
Context `{D : Dynamo} `{P : Platform} `{L : !DynamoLaws}.

Definition directory (w : World) : Directory :=
  mkDirectory (is_user w) (is_group w) (is_member w).

(** What [idGenerator] makes of groups: the prefix, no colon, and no dash at the end. *)
Definition group_id (s : string) : Prop :=
  begins_with s groupIDPrefix = true ∧ no_colon s ∧ ∀ x, s ≠ x +:+ "-".

(** The caches are coherent, and IDs of groups look like IDs. *)
Record ServerInv (w : World) : Prop := {
  si_directory : DirectoryInv w;
  si_group_ids : ∀ g, is_group w g → group_id (Group.id g) }.

Lemma ServerInv_same w w' :
  ServerInv w → DirectoryInv w' → same (is_group w) (is_group w') → ServerInv w'.
Proof. intros [Hd Hg] Hd' Hs. split; [done|]. intros g Hgr. by apply Hg, Hs. Qed.

Lemma read_only_directory w w' : read_only w w' → same_directory (directory w) (directory w').
Proof.
  intros [Ht _]. split_and!.
  - intros x. simpl. unfold is_user. by rewrite Ht.
  - intros x. simpl. unfold is_group. by rewrite Ht.
  - intros u g. simpl. unfold is_member. by rewrite Ht.
Qed.

Lemma ServerInv_read_only w w' : ServerInv w → DirectoryInv w' → read_only w w' → ServerInv w'.
Proof. intros Hi Hd Hr. eapply ServerInv_same; [done..|]. apply (read_only_directory _ _ Hr). Qed.

(** ** Operations that do not meet *)

Lemma frame_PutItem_at t it key k :
  item_key t it = Some key → k ≠ key → frame (λ w, table w t !! k) (request (PutItem t it)).
Proof.
  intros Hk Hne w. simpl. destruct (PutItem t it (db w)) as [[e|[]] d'] eqn:E; simpl.
  - f_equal. eapply PutItem_err; eauto.
  - apply PutItem_ok in E as (key' & Hk' & ->). simplify_eq.
    rewrite decide_True by done. by rewrite lookup_insert_ne.
Qed.

Lemma frame_UpdateItem_at t key u c k :
  k ≠ key → frame (λ w, table w t !! k) (request (UpdateItem t key u c)).
Proof.
  intros Hne w. simpl. destruct (UpdateItem t key u c (db w)) as [[e|[]] d'] eqn:E; simpl.
  - f_equal. eapply UpdateItem_err; eauto.
  - apply UpdateItem_ok in E as [_ ->]. rewrite decide_True by done. by rewrite lookup_insert_ne.
Qed.

Lemma frame_DeleteItem_at t key c k :
  k ≠ key → frame (λ w, table w t !! k) (request (DeleteItem t key c)).
Proof.
  intros Hne w. simpl. destruct (DeleteItem t key c (db w)) as [[e|[]] d'] eqn:E; simpl.
  - f_equal. eapply DeleteItem_err; eauto.
  - apply DeleteItem_ok in E as [_ ->]. rewrite decide_True by done. by rewrite lookup_delete_ne.
Qed.

Local Abbreviation member_cell u g := (λ w, table w SLATE_users !! membership_key u g).
Local Abbreviation member_cache := (λ w, userByGroupCache (users w)).
Local Abbreviation group_rows := (λ w, table w SLATE_groups).
Local Abbreviation user_rows := (λ w, table w SLATE_users).

(** An operation on users alone: the coherence of the users is enough for that of the
    directory. *)
Lemma wp_users_only {A} (m : Store A) Q w :
  DirectoryInv w → wp m (λ r w', UsersInv w' ∧ Q r w') w →
  frame groups m → frame group_rows m → frame member_cache m →
  (∀ u g, frame (member_cell u g) m) →
  wp m (λ r w', DirectoryInv w' ∧ same (is_group w) (is_group w') ∧
    same_members (directory w) (directory w') ∧ Q r w') w.
Proof.
  intros [Hg Hu Hm] [Hu' HQ] Fg Fr Fm Fc.
  assert (Hmem : same_members (directory w) (directory (m w).2)).
  { intros u g. pose proof (Fc u g w) as Hc. simpl in *. unfold is_member. by rewrite Hc. }
  pose proof (Fr w) as Hr. pose proof (Fm w) as Hc. simpl in Hr, Hc.
  split; [split|split_and!]; try done.
  - unfold GroupsInv. by rewrite (Fg w), Hr.
  - intros g u Hcd Hne. apply Hmem, Hm; [|done]. unfold member_cached in *. by rewrite <- Hc.
  - intros x. unfold is_group. by rewrite Hr.
Qed.

(** An operation on groups alone. *)
Lemma wp_groups_only {A} (m : Store A) Q w :
  DirectoryInv w → wp m (λ r w', GroupsInv w' ∧ Q r w') w →
  frame users m → frame user_rows m →
  wp m (λ r w', DirectoryInv w' ∧ same (is_user w) (is_user w') ∧
    same_members (directory w) (directory w') ∧ Q r w') w.
Proof.
  intros [Hg Hu Hm] [Hg' HQ] Fu Fr. pose proof (Fr w) as Hr. simpl in Hr.
  split; [split|split_and!]; try done.
  - unfold UsersInv. by rewrite (Fu w), Hr.
  - eapply MembersInv_same; [done|by rewrite (Fu w)|done].
  - intros x. unfold is_user. by rewrite Hr.
  - intros u g. simpl. unfold is_member. by rewrite Hr.
Qed.

(** ** Lookups *)

(** A computation that looks things up keeps the caches coherent. *)
Definition looks_up {A} (m : Store A) : Prop := keeps ServerInv m.

Lemma looks_up_ret {A} (a : A) : looks_up (mret a).
Proof. apply keeps_ret. Qed.
Lemma looks_up_lift {A} (r : Res A) : looks_up (lift r).
Proof. apply keeps_lift. Qed.
Lemma looks_up_bind {A B} (m : Store A) (k : A → Store B) :
  looks_up m → (∀ a, looks_up (k a)) → looks_up (m ≫= k).
Proof. apply keeps_bind. Qed.
Lemma looks_up_for_collect {A B} (l : list A) (body : A → Store B) :
  (∀ x, looks_up (body x)) → looks_up (for_collect l body).
Proof. apply keeps_for_collect. Qed.
Lemma looks_up_checked {A B} (c : B + A) (k : A → Store B) :
  (∀ a, looks_up (k a)) → looks_up (match c with inl r => mret r | inr a => k a end).
Proof. intros Hk. destruct c; [apply looks_up_ret|apply Hk]. Qed.

Lemma quiet_ServerInv w w' : quiet w w' → ServerInv w → ServerInv w'.
Proof.
  intros Hq Hi. eapply ServerInv_read_only; [done| |apply Hq].
  by eapply quiet_DirectoryInv, Hi.
Qed.

Lemma looks_up_query t ix kc f : looks_up (request (Query t ix kc f)).
Proof. apply keeps_query, quiet_ServerInv. Qed.
Lemma looks_up_databaseQuery : looks_up databaseQuery.
Proof. apply keeps_databaseQuery, quiet_ServerInv. Qed.
Lemma looks_up_cacheHit : looks_up cacheHit.
Proof. apply keeps_cacheHit, quiet_ServerInv. Qed.
Lemma looks_up_now : looks_up now.
Proof. apply keeps_now, quiet_ServerInv. Qed.

(** A lookup of users, or of groups, known to keep its own caches coherent. *)
Lemma looks_up_users {A} (m : Store A) w (Q : Res A → Prop) :
  ServerInv w → wp m (λ r w', UsersInv w' ∧ read_only w w' ∧ Q r) w →
  frame groups m → frame member_cache m →
  wp m (λ r w', ServerInv w' ∧ read_only w w' ∧ Q r) w.
Proof.
  intros Hi (Hu & Hro & HQ) Fg Fm. split; [|done]. eapply ServerInv_read_only; [done| |done].
  destruct Hi as [[Hg _ Hm] _]. split; [|done|].
  - unfold GroupsInv. by rewrite (Fg w), (proj1 Hro).
  - eapply MembersInv_same; [done|apply (Fm w)|apply Hro].
Qed.

Lemma looks_up_groups {A} (m : Store A) w (Q : Res A → Prop) :
  ServerInv w → wp m (λ r w', GroupsInv w' ∧ read_only w w' ∧ Q r) w → frame users m →
  wp m (λ r w', ServerInv w' ∧ read_only w w' ∧ Q r) w.
Proof.
  intros Hi (Hg & Hro & HQ) Fu. split; [|done]. eapply ServerInv_read_only; [done| |done].
  destruct Hi as [[_ Hu Hm] _]. split; [done| |].
  - unfold UsersInv. by rewrite (Fu w), (proj1 Hro).
  - eapply MembersInv_same; [done|by rewrite (Fu w)|apply Hro].
Qed.

Lemma wp_looks_up {A} (m : Store A) (Q : Res A → Prop) w :
  wp m (λ r w', ServerInv w' ∧ read_only w w' ∧ Q r) w → ServerInv (m w).2 ∧ read_only w (m w).2.
Proof. by intros (? & ? & _). Qed.

(** The result of a lookup by key. *)
Definition user_found (proj : User.t → string) (key : string) (w : World) (r : Res User.t) : Prop :=
  match r with
  | Ok u => (User.valid u = true ∧ proj u = key ∧ is_user w u) ∨
            (u = User.none ∧ (healthy (db w) → ∀ u', is_user w u' → proj u' ≠ key))
  | _ => False
  end.

Definition group_found (proj : Group.t → string) (key : string) (w : World) (r : Res Group.t) :
    Prop :=
  match r with
  | Ok g => (Group.valid g = true ∧ proj g = key ∧ is_group w g) ∨
            (g = Group.none ∧ (healthy (db w) → ∀ g', is_group w g' → proj g' ≠ key))
  | _ => False
  end.

Lemma getUser_found id w :
  ServerInv w →
  wp (getUser id) (λ r w', ServerInv w' ∧ read_only w w' ∧ user_found User.id id w r) w.
Proof.
  intros Hi. apply looks_up_users; [done|apply getUser_spec, Hi| |].
  - apply getUser_groups.
  - apply getUser_members.
Qed.

Lemma findUserByToken_found token w :
  ServerInv w → wp (findUserByToken token)
    (λ r w', ServerInv w' ∧ read_only w w' ∧ user_found User.token token w r) w.
Proof.
  intros Hi. apply looks_up_users; [done|apply findUserByToken_spec, Hi| |].
  - unfold findUserByToken, cache_user. solve_frame.
  - unfold findUserByToken, cache_user. solve_frame.
Qed.

Lemma findUserByGlobusID_found globusID w :
  ServerInv w → wp (findUserByGlobusID globusID)
    (λ r w', ServerInv w' ∧ read_only w w' ∧ user_found User.globusID globusID w r) w.
Proof.
  intros Hi. apply looks_up_users; [done|apply findUserByGlobusID_spec, Hi| |].
  - unfold findUserByGlobusID, cache_user. solve_frame.
  - unfold findUserByGlobusID, cache_user. solve_frame.
Qed.

Lemma findGroupByID_found id w :
  ServerInv w →
  wp (findGroupByID id) (λ r w', ServerInv w' ∧ read_only w w' ∧ group_found Group.id id w r) w.
Proof.
  intros Hi. apply looks_up_groups; [done|apply findGroupByID_spec, Hi|apply findGroupByID_users].
Qed.

Lemma findGroupByName_users name : frame users (findGroupByName name).
Proof. unfold findGroupByName, cache_group. solve_frame. Qed.

Lemma findGroupByName_found name w :
  ServerInv w → wp (findGroupByName name)
    (λ r w', ServerInv w' ∧ read_only w w' ∧ group_found Group.name name w r) w.
Proof.
  intros Hi.
  apply looks_up_groups; [done|apply findGroupByName_spec, Hi|apply findGroupByName_users].
Qed.

Lemma getGroup_found idOrName w :
  ServerInv w → wp (getGroup idOrName)
    (λ r w', ServerInv w' ∧ read_only w w' ∧
       group_found (if begins_with idOrName groupIDPrefix then Group.id else Group.name)
         idOrName w r) w.
Proof.
  intros Hi. unfold getGroup. case_match; [by apply findGroupByID_found|].
  by apply findGroupByName_found.
Qed.

(** The user a request with that token is made by. *)
Definition requester (w : World) (token : option string) (u : User.t) : Prop :=
  is_user w u ∧ token = Some (User.token u).

Lemma authenticateUser_found token w :
  ServerInv w → wp (authenticateUser token) (λ r w', ServerInv w' ∧ read_only w w' ∧
    ∃ u, r = Ok u ∧ (User.valid u = true → requester w token u) ∧
      (User.valid u = false → healthy (db w) → ∀ u', ¬ requester w token u')) w.
Proof.
  intros Hi. unfold authenticateUser. destruct token as [t|].
  2: { split_and!; [done..|]. exists User.none. split_and!; [done..|]. by intros _ _ u' [_ ?]. }
  eapply wp_mono, findUserByToken_found; [|done]. intros r w' (Hi' & Hro & Hr).
  split_and!; [done..|]. destruct r as [u|e|]; [|done..]. exists u. split; [done|].
  destruct Hr as [(Hv & <- & Hu)|[-> Hn]].
  - split; [by intros _|congruence].
  - split; [done|]. intros _ Hd u' [Hu' [= ->]]. by eapply Hn.
Qed.

(** A group is named by its ID or by its name. *)
Definition names (w : World) (groupID gid : string) : Prop :=
  if begins_with groupID groupIDPrefix then gid = groupID
  else ∃ g, is_group w g ∧ Group.name g = groupID ∧ Group.id g = gid.

Lemma names_inj w s g g' : ServerInv w → names w s g → names w s g' → g = g'.
Proof.
  intros Hi. unfold names. case_match; [congruence|].
  intros (h & Hh & Hn & <-) (h' & Hh' & Hn' & <-).
  apply (gi_names _ _ (di_groups _ (si_directory _ Hi))); [done..|congruence].
Qed.

Lemma names_same w w' s g : same (is_group w) (is_group w') → names w s g → names w' s g.
Proof.
  intros Hs. unfold names. case_match; [done|]. intros (h & Hh & Hn). exists h.
  split; [by apply Hs|done].
Qed.

Lemma normalizeGroupID_found groupID w :
  ServerInv w → wp (normalizeGroupID groupID false) (λ r w', ServerInv w' ∧ read_only w w' ∧
    match r with
    | Ok (Some gid) => names w groupID gid ∧ begins_with gid groupIDPrefix = true
    | Ok None => healthy (db w) → ∀ gid, ¬ names w groupID gid
    | _ => False
    end) w.
Proof.
  intros Hi. destruct (begins_with groupID groupIDPrefix) eqn:Hg.
  { rewrite normalizeGroupID_is_id by done. apply wp_ret. split; [done|]. split; [done|].
    split; [|done]. unfold names. by rewrite Hg. }
  unfold normalizeGroupID. rewrite Hg. simpl.
  eapply wp_seq; [by apply findGroupByName_found| |by intros e w' (_ & _ & [])
                 |by intros w' (_ & _ & [])].
  intros g w' (Hi' & Hro & [(Hv & Hname & Hgr)|[-> Hno]]); simpl.
  - rewrite Hv. apply wp_ret. split; [done|]. split; [done|].
    split; [|by apply (si_group_ids _ Hi g)]. unfold names. rewrite Hg. by exists g.
  - apply wp_ret. split; [done|]. split; [done|]. intros Hd gid. unfold names. rewrite Hg.
    intros (g & Hgr & Hname & _). by apply (Hno Hd g).
Qed.

(** What follows the normalisation of the ID of a group may be run with the real ID, for
    which the normalisation does nothing. *)
Lemma wp_normalized {A} groupID (F : option string → Store A) Q w :
  ServerInv w →
  (∀ gid w', begins_with gid groupIDPrefix = true → names w groupID gid →
    ServerInv w' → read_only w w' → wp (normalizeGroupID gid false ≫= F) Q w') →
  (∀ w', ServerInv w' → read_only w w' →
    (healthy (db w) → ∀ gid, ¬ names w groupID gid) → wp (F None) Q w') →
  wp (normalizeGroupID groupID false ≫= F) Q w.
Proof.
  intros Hi Hs Hn. eapply wp_seq; [by apply normalizeGroupID_found| |by intros e w' (_ & _ & [])
                                  |by intros w' (_ & _ & [])].
  intros [gid|] w' (Hi' & Hro & Hr); [|by apply Hn].
  destruct Hr as [Hname Hp]. specialize (Hs gid w' Hp Hname Hi' Hro).
  rewrite (normalizeGroupID_is_id gid false Hp) in Hs. exact Hs.
Qed.

Lemma userInGroup_found uID groupID w :
  ServerInv w → uID ≠ "" → wp (userInGroup uID groupID) (λ r w', ServerInv w' ∧ read_only w w' ∧
    ∃ b, r = Ok b ∧ (b = true → ∃ gid, names w groupID gid ∧ is_member w uID gid)) w.
Proof.
  intros Hi Hne. unfold userInGroup. apply wp_normalized; [done| |].
  - intros gid w1 Hp Hname Hi1 Hro1. change (wp (userInGroup uID gid)
      (λ r w', ServerInv w' ∧ read_only w w' ∧
         ∃ b, r = Ok b ∧ (b = true → ∃ gid, names w groupID gid ∧ is_member w uID gid)) w1).
    pose proof (userInGroup_spec uID gid w1) as Hs.
    assert (Hf : frame groups (userInGroup uID gid)).
    { unfold userInGroup, normalizeGroupID, cache_member. rewrite Hp. solve_frame. }
    eapply wp_mono; [|exact (wp_frame groups _ _ _ Hf (Hs (di_users _ (si_directory _ Hi1))
      (di_members _ (si_directory _ Hi1)) Hne Hp))].
    intros r w' [(Hu & Hm & Hro & b & -> & Hb & _) Hg].
    split; [|split; [by etrans|]].
    + eapply ServerInv_read_only; [exact Hi1| |done]. split; [|done|done].
      unfold GroupsInv. rewrite Hg, (proj1 Hro). apply Hi1.
    + exists b. split; [done|]. intros Hbt. exists gid. split; [done|].
      unfold is_member in *. rewrite <- (proj1 Hro1). by apply Hb.
  - intros w1 Hi1 Hro1 _. split_and!; [done..|]. by exists false.
Qed.

(** ** Changes *)

(** The outcome of a change of the users: refused only by a service that is not
    available, and then nothing has changed. *)
Definition users_changed (change : (User.t → Prop) → (User.t → Prop) → Prop) (w : World)
    (r : Res bool) (w' : World) : Prop :=
  ServerInv w' ∧ (healthy (db w) → healthy (db w')) ∧ same (is_group w) (is_group w') ∧
  same_members (directory w) (directory w') ∧
  ∃ b, r = Ok b ∧
    if b : bool then change (is_user w) (is_user w')
    else ¬ healthy (db w) ∧ same (is_user w) (is_user w').

(** Operations on users do not touch the memberships. *)
Lemma addUser_cells x u g : frame (member_cell u g) (addUser x).
Proof.
  unfold addUser, cache_user. apply frame_bind; [|intros; solve_frame].
  eapply frame_PutItem_at; [by apply item_key_eq|apply membership_not_user_key].
Qed.

Lemma updateUser_cells x old u g : frame (member_cell u g) (updateUser x old).
Proof.
  unfold updateUser, cache_user. apply frame_bind; [|intros; solve_frame].
  apply frame_UpdateItem_at, membership_not_user_key.
Qed.

Lemma removeUser_cells id u g : frame (member_cell u g) (removeUser id).
Proof.
  unfold removeUser, forget_user. apply frame_bind; [solve_frame|]. intros _.
  apply frame_bind; [|intros; solve_frame].
  apply frame_DeleteItem_at, membership_not_user_key.
Qed.

Lemma wp_users_changed (m : Store bool) change w :
  ServerInv w → frame groups m → frame group_rows m → frame member_cache m →
  (∀ u g, frame (member_cell u g) m) →
  wp m (λ r w', UsersInv w' ∧ (healthy (db w) → healthy (db w')) ∧
    ∃ b, r = Ok b ∧ if b : bool then change (is_user w) (is_user w')
      else ¬ healthy (db w) ∧ same (is_user w) (is_user w')) w →
  wp m (users_changed change w) w.
Proof.
  intros Hi Fg Fr Fm Fc Hm. eapply wp_mono.
  2: { apply wp_users_only; [apply Hi|exact Hm|done..]. }
  intros r w' (Hd & Hg & Hmem & Hh & Hr). split_and!; try done.
  by eapply ServerInv_same.
Qed.

Lemma addUser_changed x w :
  ServerInv w → new_user (table w SLATE_users) x →
  wp (addUser x) (users_changed (put User.id x) w) w.
Proof.
  intros Hi Hn. apply wp_users_changed; [done|..].
  1-3: unfold addUser, cache_user; solve_frame. 1: apply addUser_cells.
  eapply wp_mono, addUser_spec; [|apply Hi|done].
  intros r w' (Hu & Hh & _ & Hr). split_and!; [done..|]. destruct r as [[]| |]; eauto; done.
Qed.

Lemma updateUser_changed x old w :
  ServerInv w → is_user w old → User.id old = User.id x → User.globusID old = User.globusID x →
  compatible_user (table w SLATE_users) x →
  wp (updateUser x old) (users_changed (put User.id x) w) w.
Proof.
  intros Hi Ho Hid Hgl Hc. apply wp_users_changed; [done|..].
  1-3: unfold updateUser, cache_user; solve_frame. 1: intros; apply updateUser_cells.
  eapply wp_mono, updateUser_spec; [|apply Hi|done..].
  intros r w' (Hu & Hh & _ & Hr). split_and!; [done..|]. destruct r as [[]| |]; eauto; done.
Qed.

Lemma removeUser_changed id w :
  ServerInv w → wp (removeUser id) (users_changed (dropped User.id id) w) w.
Proof.
  intros Hi. apply wp_users_changed; [done|..].
  1-3: unfold removeUser, forget_user; solve_frame. 1: apply removeUser_cells.
  eapply wp_mono, removeUser_spec; [|apply Hi].
  intros r w' (Hu & Hh & _ & Hr). split_and!; [done..|]. destruct r as [[]| |]; eauto; done.
Qed.

Definition groups_changed (g : Group.t) (w : World) (r : Res bool) (w' : World) : Prop :=
  ServerInv w' ∧ (healthy (db w) → healthy (db w')) ∧ same (is_user w) (is_user w') ∧
  same_members (directory w) (directory w') ∧
  ∃ b, r = Ok b ∧
    if b : bool then put Group.id g (is_group w) (is_group w')
    else ¬ healthy (db w) ∧ same (is_group w) (is_group w').

Lemma wp_groups_changed (m : Store bool) g w :
  ServerInv w → group_id (Group.id g) →
  frame users m → frame user_rows m → wp m (group_write_post g w) w →
  wp m (groups_changed g w) w.
Proof.
  intros Hi Hp Fu Fr Hm. eapply wp_mono.
  2: { apply wp_groups_only; [apply Hi|exact Hm|done..]. }
  intros r w' (Hd & Hu & Hmem & Hh & _ & Hr).
  assert (Hput : ∃ b, r = Ok b ∧ if b : bool then put Group.id g (is_group w) (is_group w')
    else ¬ healthy (db w) ∧ same (is_group w) (is_group w')).
  { destruct r as [[]| |]; eauto; done. }
  split_and!; try done. split; [done|]. intros h Hh'.
  destruct Hput as ([] & _ & Hb); [|by apply Hi, Hb].
  apply Hb in Hh' as [->|[Hh' _]]; [done|by apply Hi].
Qed.

Lemma addGroup_changed g w :
  ServerInv w → group_id (Group.id g) → group_complete g = true →
  compatible_group (table w SLATE_groups) g → wp (addGroup g) (groups_changed g w) w.
Proof.
  intros Hi Hp Hc Hcg. apply wp_groups_changed; [done..| | |].
  1-2: unfold addGroup, cache_group; solve_frame.
  apply addGroup_spec; [apply Hi|done..].
Qed.

Lemma updateGroup_changed g w :
  ServerInv w → group_id (Group.id g) →
  compatible_group (table w SLATE_groups) g → wp (updateGroup g) (groups_changed g w) w.
Proof.
  intros Hi Hp Hcg. apply wp_groups_changed; [done..| | |].
  1-2: unfold updateGroup, cache_group; solve_frame.
  apply updateGroup_spec; [apply Hi|done].
Qed.

(** The outcome of a change of the membership of [uID] in the group called [groupID]. *)
Definition members_changed (uID groupID : string) (b : bool) (w : World) (r : Res bool)
    (w' : World) : Prop :=
  ServerInv w' ∧ (healthy (db w) → healthy (db w')) ∧ same (is_user w) (is_user w') ∧
  same (is_group w) (is_group w') ∧
  ∃ ok, r = Ok ok ∧
    if ok : bool then ∃ gid, names w groupID gid ∧
      member_set uID gid b (is_member w) (is_member w')
    else same_members (directory w) (directory w') ∧
      (healthy (db w) → ∀ gid, ¬ names w groupID gid).

Lemma wp_members_changed uID groupID b (F : option string → Store bool) w :
  ServerInv w →
  (∀ w', wp (F None) (λ r w'', r = Ok false ∧ w'' = w') w') →
  (∀ gid w', DirectoryInv w' → begins_with gid groupIDPrefix = true →
    wp (normalizeGroupID gid false ≫= F) (membership_post uID gid b w') w') →
  wp (normalizeGroupID groupID false ≫= F) (members_changed uID groupID b w) w.
Proof.
  intros Hi Hn Hs. apply wp_normalized; [done| |].
  - intros gid w1 Hp Hname Hi1 Hro1. eapply wp_mono, Hs; [|apply Hi1|done].
    destruct (read_only_directory _ _ Hro1) as (Su & Sg & Sm).
    intros r w' (Hd & Hh & Hr). assert (Hh' : healthy (db w) → healthy (db w')).
    { intros Hdb. by apply Hh, Hro1. }
    destruct r as [[]| |]; [|destruct Hr as [Hnh Ht]|done..].
    + destruct Hr as (Ht & Hu & Hm).
      assert (Sg' : same (is_group w1) (is_group w')).
      { intros g. unfold is_group. by rewrite Ht. }
      split; [by eapply ServerInv_same|]. split; [done|].
      split; [by etrans; [exact Su|]|]. split; [by etrans; [exact Sg|]|].
      exists true. split; [done|]. exists gid. split; [done|]. intros u g. rewrite Hm.
      case_decide; [done|]. apply Sm.
    + destruct (read_only_directory w1 w') as (Su' & Sg' & Sm'); [by split|].
      split; [by eapply ServerInv_same|]. split; [done|].
      split; [by etrans; [exact Su|]|]. split; [by etrans; [exact Sg|]|].
      exists false. split; [done|]. split; [by etrans; [exact Sm|]|].
      intros Hdb. destruct Hnh. by apply Hro1.
  - intros w1 Hi1 Hro1 Hno. destruct (read_only_directory _ _ Hro1) as (Su & Sg & Sm).
    eapply wp_mono, Hn. intros r w' [-> ->]. split; [done|]. split; [apply Hro1|].
    split; [done|]. split; [done|]. by exists false.
Qed.

Lemma addUserToGroup_changed uID groupID w :
  ServerInv w → wp (addUserToGroup uID groupID) (members_changed uID groupID true w) w.
Proof.
  intros Hi. unfold addUserToGroup. apply wp_members_changed; [done|done|].
  intros gid w' Hd Hp. by apply (addUserToGroup_spec uID gid w').
Qed.

Lemma removeUserFromGroup_changed uID groupID w :
  ServerInv w → wp (removeUserFromGroup uID groupID) (members_changed uID groupID false w) w.
Proof.
  intros Hi. unfold removeUserFromGroup. apply wp_members_changed; [done|done|].
  intros gid w' Hd Hp. by apply (removeUserFromGroup_spec uID gid w').
Qed.

(** ** Listings *)

(** Steps that change the caches of users, or those of groups, only. *)
Lemma ServerInv_users w w' :
  ServerInv w → db w' = db w → groups w' = groups w → users_inv (users w') (table w SLATE_users) →
  (∀ g u, member_cached w' g u → u ≠ "" → is_member w u g) → ServerInv w'.
Proof.
  intros Hi Hdb Hg Hu Hm. eapply ServerInv_read_only; [done| |by apply read_only_db].
  split; [|by unfold UsersInv; rewrite Hdb|].
  - unfold GroupsInv. rewrite Hdb, Hg. apply Hi.
  - intros g u Hc Hne. unfold is_member. rewrite Hdb. by apply Hm.
Qed.

Lemma ServerInv_groups w w' :
  ServerInv w → db w' = db w → users w' = users w →
  groups_inv (groups w') (table w SLATE_groups) → ServerInv w'.
Proof.
  intros Hi Hdb Hu Hg. eapply ServerInv_read_only; [done| |by apply read_only_db].
  split; [by unfold GroupsInv; rewrite Hdb| |].
  - unfold UsersInv. rewrite Hdb, Hu. apply Hi.
  - eapply MembersInv_same; [apply Hi|by rewrite Hu|by rewrite Hdb].
Qed.

Lemma looks_up_getUser id : looks_up (getUser id).
Proof. intros w Hi. eapply wp_looks_up, getUser_found, Hi. Qed.
Lemma looks_up_findUserByGlobusID globusID : looks_up (findUserByGlobusID globusID).
Proof. intros w Hi. eapply wp_looks_up, findUserByGlobusID_found, Hi. Qed.
Lemma looks_up_findGroupByID id : looks_up (findGroupByID id).
Proof. intros w Hi. eapply wp_looks_up, findGroupByID_found, Hi. Qed.
Lemma looks_up_findGroupByName name : looks_up (findGroupByName name).
Proof. intros w Hi. eapply wp_looks_up, findGroupByName_found, Hi. Qed.
Lemma looks_up_getGroup idOrName : looks_up (getGroup idOrName).
Proof. intros w Hi. eapply wp_looks_up, getGroup_found, Hi. Qed.

Lemma looks_up_getUserGroupMemberships uID useNames :
  looks_up (getUserGroupMemberships uID useNames).
Proof.
  unfold getUserGroupMemberships. apply looks_up_bind; [apply looks_up_databaseQuery|]. intros _.
  apply looks_up_bind; [apply looks_up_query|]. intros [e|items]; [apply looks_up_ret|].
  destruct useNames; [|apply looks_up_ret]. apply looks_up_for_collect. intros g.
  apply looks_up_bind; [apply looks_up_findGroupByID|]. intros h. apply looks_up_ret.
Qed.

Lemma looks_up_getMembersOfGroup groupID : looks_up (getMembersOfGroup groupID).
Proof.
  unfold getMembersOfGroup. apply looks_up_bind; [apply looks_up_databaseQuery|]. intros _.
  apply looks_up_bind; [apply looks_up_query|]. intros [e|items]; [apply looks_up_ret|].
  apply looks_up_for_collect. intros it. apply looks_up_lift.
Qed.

Lemma frame_scan_loop {X A} (f : World → X) fuel t e start acc (body : Item → Store A) :
  (∀ h w, f (upd_db h w) = f w) → (∀ it, frame f (body it)) →
  frame f (scan_loop fuel t e start acc body).
Proof.
  intros Hf Hb. revert start acc. induction fuel as [|fuel IH]; intros start acc; [done|].
  simpl. apply frame_bind; [intros w; apply Hf|]. intros [err|[items next]]; [done|].
  apply frame_bind; [by apply frame_for_collect|]. intros page. case_match; [apply IH|done].
Qed.

Lemma looks_up_listUsers fuel : looks_up (listUsers fuel).
Proof.
  intros w Hi. eapply (wp_looks_up _ (λ _, True)). apply looks_up_users; [done| | |].
  1: eapply wp_mono, list_all_keeps, Hi; by intros r w' [? ?].
  all: unfold listUsers, list_all, list_user;
    repeat (apply frame_bind; [solve_frame|intros]); case_match; [solve_frame|];
    apply frame_bind; [solve_frame|intros];
    apply frame_bind; [apply frame_scan_loop; [done|solve_frame]|solve_frame].
Qed.

Lemma looks_up_listGroups fuel : looks_up (listGroups fuel).
Proof.
  intros w Hi. eapply (wp_looks_up _ (λ _, True)). apply looks_up_groups; [done| |].
  1: eapply wp_mono, list_all_keeps, Hi; by intros r w' [? ?].
  all: unfold listGroups, list_all, list_group, cache_group;
    repeat (apply frame_bind; [solve_frame|intros]); case_match; [solve_frame|];
    apply frame_bind; [solve_frame|intros];
    apply frame_bind; [apply frame_scan_loop; [done|solve_frame]|solve_frame].
Qed.

Lemma looks_up_wp {A} (m : Store A) w0 w :
  looks_up m → ServerInv w → read_only w0 w →
  wp m (λ _ w', ServerInv w' ∧ read_only w0 w') w.
Proof. intros Hm Hi Hro. destruct (Hm w Hi). split; [done|by etrans]. Qed.

(** The rows of the members of a group, as its index gives them. *)
Lemma members_query group w l e :
  ServerInv w →
  l ≡ₚ query_items SLATE_users (Some "ByGroup") (mkKC "groupID" (AVS group) None) ETrue
         (table w SLATE_users) →
  e ∈ l → ∃ u, e !! "ID" = Some (AVS u) ∧ is_member w u group.
Proof.
  intros Hi Hl He. rewrite Hl in He.
  apply elem_of_query_items in He as (k & it & Hit & He & Hm%kc_match_eq & _).
  rewrite (index_entry_lookup_eq SLATE_users "ByGroup" user_ByGroup it e "groupID") in Hm
    by (try done; compute_done).
  destruct (ui_table _ _ (di_users _ (si_directory _ Hi)) _ _ Hit)
    as [(u & (_ & _ & Hn) & _)|(u & g & (Hid & Hg & _) & ->)]; [congruence|].
  assert (g = group) as ->.
  { rewrite Hg in Hm. injection Hm as Hm. by apply AVS_inj in Hm. }
  exists u. split; [|by exists it].
  by rewrite (index_entry_lookup_eq SLATE_users "ByGroup" user_ByGroup it e "ID")
    by (try done; compute_done).
Qed.

(** Caching what a lookup of a user returned, and that the user is a member. *)
Lemma wp_cache_listed_member {B} group id (user : User.t) (k : unit → Store B) Q w0 w :
  ServerInv w → read_only w0 w → user = User.none ∨ (User.id user = id ∧ is_user w user) →
  is_member w id group →
  (∀ w', ServerInv w' → read_only w0 w' → wp (k tt) Q w') →
  wp (record ← make_record user userCacheValidity;
      _ ← modify (upd_users (upd_userCache (replaceCacheRecord (User.id user) record)));
      _ ← cache_member group (User.id user);
      k tt) Q w.
Proof.
  intros Hi Hro Hu Hm Hk. apply wp_make_record, wp_modify, wp_cache_member.
  intros w' Hdb Hg Hus Hc. apply Hk.
  2: { etrans; [exact Hro|]. by apply read_only_db. }
  apply (ServerInv_users w); [done|done|done| |].
  - rewrite Hus. destruct (di_users _ (si_directory _ Hi)). split; simpl; eauto using synchronised_main.
    apply coherent_insert; [done|done|].
    destruct Hu as [->|[_ ?]]; [by left|by right].
  - intros g u [[-> ->]|Hcd]%Hc Hne.
    + by destruct Hu as [->|[-> _]].
    + by apply (di_members _ (si_directory _ Hi)).
Qed.

Lemma looks_up_listUsersByGroup group : looks_up (listUsersByGroup group).
Proof.
  intros w Hi. change (wp (listUsersByGroup group) (λ _ w', ServerInv w' ∧ read_only w w') w).
  unfold listUsersByGroup. apply wp_gets, wp_now. pose proof (quiet_tick w) as Hq1. case_match.
  { apply looks_up_wp; [|by eapply quiet_ServerInv|apply Hq1]. apply looks_up_for_collect.
    intros r. apply looks_up_bind; [apply looks_up_cacheHit|intros; apply looks_up_getUser]. }
  apply wp_databaseQuery. intros w2 Hq2. assert (Hq : quiet w w2) by by etrans. clear Hq1 Hq2.
  apply wp_Query; [intros e w3 Hq3 _|intros l w3 Hq3 Hl]; assert (Hq' : quiet w w3) by by etrans.
  { split; [by eapply quiet_ServerInv|apply Hq']. }
  rewrite (proj1 (quiet_ro _ _ Hq)) in Hl.
  destruct l as [|e0 l0]; [split; [by eapply quiet_ServerInv|apply Hq']|].
  set (l := e0 :: l0) in *.
  eapply wp_seq.
  { apply (for_collect_spec (λ _ w', ServerInv w' ∧ read_only w w') _ _ []).
    - split; [by eapply quiet_ServerInv|apply Hq'].
    - intros e w' acc He [Hi' Hro'].
      destruct (members_query group w l e Hi Hl He) as (u & Hid & Hm).
      eapply wp_run; [unfold lift; by rewrite (attr_string_ok e "ID" _ u Hid)|].
      eapply wp_seq; [by apply getUser_found| |by intros ? ? (_ & _ & [])
                     |by intros ? (_ & _ & [])].
      intros user w4 (Hi4 & Hro4 & Hu).
      apply (wp_cache_listed_member group u user (λ _, mret user) _ w w4); [done|by etrans| | |].
      + destruct Hu as [(_ & ? & ?)|[-> _]]; [right|by left].
        split; [done|]. by apply (read_only_directory _ _ Hro4).
      + by apply (read_only_directory w w4); [etrans|].
      + intros w5 Hi5 Hro5. exists user. by split. }
  2: { by intros ? ? (? & ? & _). }
  2: { by intros ? (? & ? & _). }
  intros members w' (done & _ & _ & Hi' & Hro'). apply wp_now, wp_modify. split; [|done].
  eapply ServerInv_users; [by eapply quiet_ServerInv, Hi'; apply quiet_tick|done|done| |].
  - destruct (di_users _ (si_directory _ Hi')). by split.
  - intros g u Hc Hne. apply (di_members _ (si_directory _ Hi')); [|done].
    unfold member_cached in *. simpl in Hc. by rewrite mm_contains_update_expiration in Hc.
Qed.

Lemma looks_up_for_filter {A} (l : list A) (test : A → Store bool) :
  (∀ x, looks_up (test x)) → looks_up (for_filter l test).
Proof.
  intros Hb. induction l as [|x l IH]; simpl; [apply looks_up_ret|].
  apply looks_up_bind; [done|]. intros y. apply looks_up_bind; [done|]. intros ys.
  apply looks_up_ret.
Qed.

Lemma looks_up_record_valid {T} (r : CacheRecord.t T) : looks_up (record_valid r).
Proof. apply looks_up_bind; [apply looks_up_now|]. intros t. apply looks_up_ret. Qed.

Lemma looks_up_cached_category {T} (cache : World → gmap string (category (CacheRecord.t T))) key :
  looks_up (maybeReturnCachedCategoryMembers cache key).
Proof.
  unfold maybeReturnCachedCategoryMembers. apply looks_up_bind; [by intros w Hi|]. intros c.
  apply looks_up_bind; [apply looks_up_now|]. intros t. case_match; [|apply looks_up_ret].
  apply looks_up_bind; [|intros; apply looks_up_ret]. apply looks_up_for_filter. intros r.
  apply looks_up_bind; [apply looks_up_record_valid|]. intros []; [|apply looks_up_ret].
  apply looks_up_bind; [apply looks_up_cacheHit|intros; apply looks_up_ret].
Qed.

(** A group that was looked up goes into the caches by ID, by name and by user. *)
Lemma looks_up_recache_group user groupID :
  looks_up (group ← findGroupByID groupID;
            record ← make_record group groupCacheValidity;
            _ ← modify (upd_groups (upd_groupCache (replaceCacheRecord (Group.id group) record)));
            _ ← modify (upd_groups (upd_groupByNameCache
                                      (replaceCacheRecord (Group.name group) record)));
            _ ← multi_insert (λ f, upd_groups (upd_groupByUserCache f)) user record;
            mret group).
Proof.
  intros w Hi. match goal with |- ServerInv (?m w).2 ∧ _ =>
    change (wp m (λ _ w', ServerInv w' ∧ read_only w w') w) end.
  eapply wp_seq; [by apply findGroupByID_found| |by intros ? ? (? & ? & _)
                 |by intros ? (? & ? & _)].
  intros g w1 (Hi1 & Hro1 & Hg). apply wp_make_record, wp_modify, wp_modify.
  eapply wp_run; [reflexivity|]. apply wp_ret. split.
  2: { etrans; [exact Hro1|]. by apply read_only_db. }
  eapply ServerInv_groups; [exact Hi1|done|done|].
  set (r := CacheRecord.make g groupCacheValidity (steady (ticks w1))).
  apply (groups_inv_caches (upd_groupByNameCache (replaceCacheRecord (Group.name g) r)
    (upd_groupCache (replaceCacheRecord (Group.id g) r) (groups w1)))); [done|done|].
  apply groups_inv_cache; [apply Hi1| |done].
  destruct Hg as [(_ & _ & ?)|[-> _]]; [right|by left].
  by apply (read_only_directory _ _ Hro1).
Qed.

Lemma looks_up_listGroupsForUser user : looks_up (listGroupsForUser user).
Proof.
  unfold listGroupsForUser. apply looks_up_bind; [apply looks_up_cached_category|].
  intros [rs|]; [apply looks_up_ret|].
  apply looks_up_bind; [apply looks_up_databaseQuery|]. intros _.
  apply looks_up_bind; [apply looks_up_query|]. intros [e|[|it items]]; try apply looks_up_ret.
  apply looks_up_bind; [apply looks_up_for_collect; intros x; apply looks_up_bind|].
  - apply looks_up_lift.
  - intros groupID. apply looks_up_recache_group.
  - intros vos. apply looks_up_bind; [apply looks_up_now|]. intros t.
    apply looks_up_bind; [|intros; apply looks_up_ret]. intros w Hi.
    split; [|by apply read_only_db]. eapply ServerInv_groups; [exact Hi|done|done|].
    by apply (groups_inv_caches (groups w)), Hi.
Qed.

Lemma looks_up_authenticateUser token : looks_up (authenticateUser token).
Proof. intros w Hi. eapply wp_looks_up, authenticateUser_found, Hi. Qed.

(** A member of the group looks it up under his own ID, which is not empty. *)
Lemma requester_id w token u : ServerInv w → requester w token u → User.id u ≠ "".
Proof. intros Hi [Hu _]. by apply (ui_nonempty _ _ (di_users _ (si_directory _ Hi))). Qed.

Lemma begins_with_app s t p : begins_with (s +:+ t) (s +:+ p) = begins_with t p.
Proof.
  unfold begins_with. induction s as [|c s IH]; simpl; [done|].
  destruct (Ascii.ascii_dec c c); done.
Qed.

(** The sort keys of the rows of a user that begin like those of memberships. *)
Lemma membership_match uID k it w :
  ServerInv w → table w SLATE_users !! k = Some it →
  kc_match (mkKC "ID" (AVS uID) (Some (uID +:+ ":" +:+ groupIDPrefix))) it = true ↔
  ∃ g, k = membership_key uID g ∧ it !! "groupID" = Some (AVS g) ∧
    begins_with g groupIDPrefix = true.
Proof.
  intros Hi Hk. pose proof (rows_keyed _ _ _ _ Hk) as Hkey. unfold item_key in Hkey. simpl in Hkey.
  unfold kc_match. simpl. rewrite andb_true_iff, bool_decide_eq_true.
  destruct (it !! "ID") as [i|] eqn:Hid; [|done].
  destruct (it !! "sortKey") as [s|] eqn:Hs; [|done]. injection Hkey as <-.
  destruct (ui_table _ _ (di_users _ (si_directory _ Hi)) _ _ Hk)
    as [(u & Hr & [= H1 H2])|(u & g & (Hmid & Hmg & _) & [= H1 H2])].
  - split.
    + intros [[= ->] Hb]. exfalso. rewrite GetS_AVS in H1. subst uID.
      apply begins_with_iff in Hb as [t Ht]. rewrite H2 in Ht.
      apply (f_equal str_size) in Ht. rewrite !str_size_app in Ht. simpl in Ht. lia.
    + intros (g & _ & Hg & _). destruct Hr as (_ & _ & Hno). congruence.
  - rewrite H1, H2. rewrite Hid in Hmid. injection Hmid as ->. split.
    + intros [[= ->%AVS_inj] Hb]. exists g. split; [done|]. split; [done|].
      rewrite begins_with_app in Hb. exact Hb.
    + intros (g' & [-> ->]%membership_key_inj & _ & Hp). split; [done|].
      rewrite begins_with_app. exact Hp.
Qed.

(** The memberships of a user, by the sort keys of their rows. *)
Lemma getUserGroupMemberships_found uID w :
  ServerInv w → healthy (db w) →
  wp (getUserGroupMemberships uID false) (λ r w', quiet w w' ∧ ∃ l, r = Ok l ∧
    ∀ g, g ∈ l ↔ is_member w uID g ∧ begins_with g groupIDPrefix = true) w.
Proof.
  intros Hi Hd. unfold getUserGroupMemberships. apply wp_databaseQuery. intros w1 Hq1.
  apply wp_Query; [intros e w2 Hq2 Hh|intros items w2 Hq2 Hl].
  { destruct Hh. by apply Hq1. }
  rewrite (proj1 (quiet_ro _ _ Hq1)) in Hl. apply wp_ret. split; [by etrans|].
  eexists. split; [done|]. intros g. rewrite list_elem_of_omap. unfold is_member.
  pose proof (di_users _ (si_directory _ Hi)) as Hu. split.
  - intros (it & Hit & Hg). rewrite Hl in Hit.
    apply elem_of_query_items in Hit as (k & it' & Hk & [= <-] & Hm & _).
    apply (membership_match uID k it' w Hi Hk) in Hm as (g' & -> & Hg' & Hp).
    rewrite Hg' in Hg. injection Hg as <-. rewrite GetS_AVS. split; [by exists it'|done].
  - intros [[it Hk] Hp]. exists it.
    assert (Hg : it !! "groupID" = Some (AVS g)).
    { destruct (ui_table _ _ Hu _ _ Hk) as [(x & _ & He)|(u & g' & (_ & Hg & _) & He)].
      - by destruct (membership_not_user_key uID g (User.id x)).
      - by apply membership_key_inj in He as [_ ->]. }
    split; [|rewrite Hg; simpl; by rewrite GetS_AVS].
    rewrite Hl. apply elem_of_query_items. exists (membership_key uID g), it.
    split_and!; [done|done| |done]. apply (membership_match uID _ it w Hi Hk). by exists g.
Qed.
End store.

Create HintDb lookups.
#[export] Hint Resolve looks_up_ret looks_up_lift looks_up_query looks_up_databaseQuery
  looks_up_cacheHit looks_up_now looks_up_getUser looks_up_findUserByGlobusID
  looks_up_findGroupByID looks_up_findGroupByName looks_up_getGroup
  looks_up_getUserGroupMemberships looks_up_getMembersOfGroup looks_up_listUsers
  looks_up_listGroups looks_up_listUsersByGroup looks_up_listGroupsForUser
  looks_up_authenticateUser : lookups.
