(* ===== verification/Federation.v ===== *)
(** The federation: the directory together with the clusters, the grants of access, the
    permitted applications and the monitoring credentials, as one abstract state; what a
    request may do to it on behalf of a user; and the invariant that joins those of the
    parts of the store, with the operations of each part shown to keep the others'. *)

From S2P Require Import Prelude Entities Cache Dynamo Store Listing StoreGroups StoreUsers StoreMembership.
From S2P Require Import StoreClusters StoreAccess StoreMonCreds Directory.

(** * The abstract state *)

(** [fed_grants c g]: the group - or, as the wildcard, everyone - has a grant on the
    cluster; [fed_applications c g]: what the group may use there. *)
Record Federation := mkFederation {
  fed_directory : Directory;
  fed_clusters : Cluster.t → Prop;
  fed_grants : string → string → Prop;
  fed_applications : string → string → gset string }.

Definition same_grants (f f' : Federation) : Prop :=
  ∀ c g, no_colon g → fed_grants f' c g ↔ fed_grants f c g.

Definition same_applications (f f' : Federation) : Prop :=
  ∀ c g, cluster_id c → no_colon g → fed_applications f' c g = fed_applications f c g.

Definition same_resources (f f' : Federation) : Prop :=
  same (fed_clusters f) (fed_clusters f') ∧ same_grants f f' ∧ same_applications f f'.

Definition same_federation (f f' : Federation) : Prop :=
  same_directory (fed_directory f) (fed_directory f') ∧ same_resources f f'.

(** A cluster of the federation, the only one with its ID. *)
Definition holds_cluster (f : Federation) (c : Cluster.t) : Prop :=
  fed_clusters f c ∧ ∀ c', fed_clusters f c' → Cluster.id c' = Cluster.id c → c' = c.

(** Administrators and the members of the owning group decide about a cluster. *)
Definition may_own (f : Federation) (u : User.t) (c : Cluster.t) : Prop :=
  may_steer (fed_directory f) u (Cluster.owningGroup c).

(** What a user may do. *)
Inductive deed (u : User.t) (f f' : Federation) : Prop :=
  | in_directory :
      actions u (fed_directory f) (fed_directory f') → same_resources f f' → deed u f f'
  | set_grant c g b :
      holds_cluster f c → may_own f u c →
      same_directory (fed_directory f) (fed_directory f') →
      same (fed_clusters f) (fed_clusters f') →
      (∀ c' g', no_colon g' → fed_grants f' c' g' ↔
         if decide (c' = Cluster.id c ∧ g' = g) then b = true else fed_grants f c' g') →
      same_applications f f' → deed u f f'
  | set_applications c g s :
      holds_cluster f c → may_own f u c →
      same_directory (fed_directory f) (fed_directory f') →
      same (fed_clusters f) (fed_clusters f') → same_grants f f' →
      (∀ c' g', cluster_id c' → no_colon g' → fed_applications f' c' g' =
         if decide (c' = Cluster.id c ∧ g' = g) then s else fed_applications f c' g') →
      deed u f f'
  | set_credential c cred :
      holds_cluster f c → may_own f u c →
      same_directory (fed_directory f) (fed_directory f') →
      put Cluster.id (with_credential c cred) (fed_clusters f) (fed_clusters f') →
      same_grants f f' → same_applications f f' → deed u f f'.

(** What a request may do. *)
Inductive deeds (u : User.t) : Federation → Federation → Prop :=
  | no_deed f f' : same_federation f f' → deeds u f f'
  | one_deed f f' : deed u f f' → deeds u f f'
  | more_deeds f f' f'' : deeds u f f' → deeds u f' f'' → deeds u f f''.

#[global] Instance same_grants_preorder : PreOrder same_grants.
Proof.
  split; [by intros f c g|]. intros f1 f2 f3 H12 H23 c g Hg. etrans; [by apply H23|by apply H12].
Qed.
#[global] Instance same_applications_preorder : PreOrder same_applications.
Proof.
  split; [by intros f c g|]. intros f1 f2 f3 H12 H23 c g Hc Hg. rewrite H23 by done. by apply H12.
Qed.
#[global] Instance same_resources_preorder : PreOrder same_resources.
Proof. split; [by split|]. intros f1 f2 f3 (?&?&?) (?&?&?). split_and!; by etrans. Qed.
#[global] Instance same_federation_preorder : PreOrder same_federation.
Proof. split; [by split|]. intros f1 f2 f3 (?&?) (?&?). split; by etrans. Qed.

(** * The store as a federation *)

Section store.
Context `{D : Dynamo} `{P : Platform} `{L : !DynamoLaws} `{DL : !DiskLaws}.

Definition federation (w : World) : Federation :=
  mkFederation (directory w) (is_cluster w) (granted w) (applications w).

(** What a cluster of the server looks like: a generated ID, and a group that owns it. *)
Definition proper_cluster (c : Cluster.t) : Prop :=
  cluster_id (Cluster.id c) ∧ begins_with (Cluster.owningGroup c) groupIDPrefix = true.

(** A credential that survives being written into a cluster's record. *)
Definition proper_credential (c : S3Credential.t) : Prop :=
  wf_credential (S3Credential.make (S3Credential.accessKey c) (S3Credential.secretKey c)).

Record FedInv (w : World) : Prop := {
  fi_server : ServerInv w;
  fi_clusters : ClustersInv w;
  fi_access : AccessInv w;
  fi_apps : AppsInv w;
  fi_creds : CredsInv w;
  fi_proper : ∀ c, is_cluster w c → proper_cluster c;
  fi_keys : ∀ c, stored_cred w c → proper_credential c }.

Lemma read_only_federation w w' : read_only w w' → same_federation (federation w) (federation w').
Proof.
  intros Hro. split; [by apply read_only_directory|]. destruct Hro as [Ht _].
  split_and!; [intros c|intros c g _|intros c g _ _]; simpl;
    unfold is_cluster, granted, applications, applications_row; by rewrite Ht.
Qed.

Lemma group_id_proper g : group_id g → proper_group g.
Proof. intros (Hp & Hc & Hd). split; [by right|by split]. Qed.

Lemma stored_holds w c : is_cluster w c → holds_cluster (federation w) c.
Proof. intros Hc. split; [done|]. intros c' Hc' Hid. exact (stored_cluster_inj _ _ _ Hc' Hc Hid). Qed.

Lemma quiet_FedInv w w' : quiet w w' → FedInv w → FedInv w'.
Proof.
  intros Hq Hi. destruct (read_only_federation w w' (quiet_ro _ _ Hq)) as (_ & Hc & _).
  split.
  - eapply quiet_ServerInv, Hi; done.
  - eapply quiet_ClustersInv, Hi; done.
  - eapply quiet_AccessInv, Hi; done.
  - eapply quiet_AppsInv, Hi; done.
  - eapply quiet_CredsInv, Hi; done.
  - intros c Hcl. by apply (fi_proper _ Hi), Hc.
  - intros c Hcr. apply (fi_keys _ Hi). by apply (quiet_stored_cred w w' c Hq).
Qed.
End store.

(** * Operations that do not meet *)

Section kept.
Context `{D : Dynamo} `{P : Platform} `{L : !DynamoLaws} `{DL : !DiskLaws}.

(** The parts of the cluster caches that hold the records of the clusters. *)
Definition record_caches (w : World) :=
  (clusterCache (clusters w), clusterByNameCache (clusters w), clusterConfigs (clusters w)).
Definition access_cache (w : World) := clusterGroupAccessCache (clusters w).
Definition application_cache (w : World) := clusterGroupApplicationCache (clusters w).

Record directory_kept (w w' : World) : Prop := {
  dk_users : users w' = users w;
  dk_groups : groups w' = groups w;
  dk_user_rows : table w' SLATE_users = table w SLATE_users;
  dk_group_rows : table w' SLATE_groups = table w SLATE_groups }.

Record resources_kept (w w' : World) : Prop := {
  rk_clusters : clusters w' = clusters w;
  rk_fs : fs w' = fs w;
  rk_cluster_rows : table w' SLATE_clusters = table w SLATE_clusters;
  rk_cred_rows : table w' SLATE_moncreds = table w SLATE_moncreds }.

Lemma ServerInv_kept w w' :
  directory_kept w w' → ServerInv w →
  ServerInv w' ∧ same_directory (directory w) (directory w').
Proof.
  intros [Hu Hg Htu Htg] [[Hgi Hui Hmi] Hids]. split; [split; [split|]|].
  - unfold GroupsInv. by rewrite Hg, Htg.
  - unfold UsersInv. by rewrite Hu, Htu.
  - eapply MembersInv_same; [done|by rewrite Hu|done].
  - intros g. unfold is_group. rewrite Htg. apply Hids.
  - split_and!; [intros x|intros x|intros x y]; simpl; unfold is_user, is_group, is_member;
      by rewrite ?Htu, ?Htg.
Qed.

Lemma AccessInv_kept w w' :
  AccessInv w → access_cache w' = access_cache w →
  (∀ c g, proper_group g → granted w' c g ↔ granted w c g) → AccessInv w'.
Proof.
  unfold AccessInv, access_cached, access_cache. intros Hi -> Hg c v Hv.
  destruct (Hi c v Hv) as [H1 H2]. split.
  - intros Hp. by apply Hg, H1.
  - intros g Heq Hp. rewrite Hg by done. by apply H2.
Qed.

Lemma AppsInv_kept w w' :
  AppsInv w → application_cache w' = application_cache w →
  (∀ c g, applications_row w' c g = applications_row w c g) → AppsInv w'.
Proof.
  unfold application_cache. intros [Hr Hc] Hcache Hrow. split.
  - intros c g it. rewrite Hrow. apply Hr.
  - intros c g r Hcl Hg. rewrite Hcache. unfold applications. rewrite Hrow. by apply Hc.
Qed.

(** The rows of the table that are not of clusters. *)
Definition auxiliary_rows (w : World) : Prop :=
  ∀ k it, table w SLATE_clusters !! k = Some it → k.1 ≠ k.2 → auxiliary_row k it.

Lemma ClustersInv_auxiliary w : ClustersInv w → auxiliary_rows w.
Proof.
  intros Hi k it Hit Hk. destruct (ci_table _ _ (cl_inv _ Hi) _ _ Hit) as [(c & _ & ->)|Ha]; done.
Qed.

Lemma is_cluster_kept w w' :
  (∀ id, table w' SLATE_clusters !! (id, id) = table w SLATE_clusters !! (id, id)) →
  ∀ c, is_cluster w' c ↔ is_cluster w c.
Proof. intros Ht c. unfold is_cluster, stored_cluster, cluster_key. by rewrite Ht. Qed.

Lemma ClustersInv_kept w w' :
  ClustersInv w → record_caches w' = record_caches w → fs w' = fs w →
  (∀ id, table w' SLATE_clusters !! (id, id) = table w SLATE_clusters !! (id, id)) →
  auxiliary_rows w' → ClustersInv w'.
Proof.
  intros [Hi Hcf Hd] Hrc Hfs Ht Ha. injection Hrc as Hc Hn Hp.
  pose proof (is_cluster_kept _ _ Ht) as Hs. unfold is_cluster in Hs. destruct Hi. split.
  - split.
    + intros [k1 k2] it Hit. destruct (decide (k1 = k2)) as [<-|Hne]; [|right; by apply Ha].
      rewrite Ht in Hit. destruct (ci_table _ _ Hit) as [?|[? _]]; [by left|done].
    + intros c1 c2 ?%Hs ?%Hs. by apply ci_names.
    + intros c ?%Hs. by apply ci_nonempty.
    + rewrite Hc. intros k r Hr. destruct (ci_cache k r Hr). split; [done|by apply Hs].
    + rewrite Hn. intros k r Hr. destruct (ci_byname k r Hr). split; [done|by apply Hs].
    + by rewrite Hc, Hn.
  - unfold configs_inv. by rewrite Hc, Hp, Hfs.
  - by rewrite Hfs.
Qed.
End kept.

(** * The invariant after each kind of operation *)

Section kept_invariant.
Context `{D : Dynamo} `{P : Platform} `{L : !DynamoLaws} `{DL : !DiskLaws}.
Implicit Types (c g : string).

(** An operation on the directory. *)
Lemma FedInv_directory w w' :
  FedInv w → ServerInv w' → resources_kept w w' →
  FedInv w' ∧ same_resources (federation w) (federation w').
Proof.
  intros [Hs Hc Ha Hp Hcr Hpr Hk] Hs' [Hcl Hfs Htc Htm]. split; [split|split_and!].
  - done.
  - destruct Hc as [H1 H2 H3]. split; [by rewrite Hcl, Htc| |by rewrite Hfs].
    unfold configs_inv. by rewrite Hcl, Hfs.
  - eapply AccessInv_kept; [done|by unfold access_cache; rewrite Hcl|].
    intros c g _. unfold granted. by rewrite Htc.
  - eapply AppsInv_kept; [done|by unfold application_cache; rewrite Hcl|].
    intros c g. unfold applications_row. by rewrite Htc.
  - unfold CredsInv. by rewrite Htm.
  - intros x. unfold is_cluster. rewrite Htc. apply Hpr.
  - intros x. unfold stored_cred. rewrite Htm. apply Hk.
  - intros x. simpl. unfold is_cluster. by rewrite Htc.
  - intros c g _. simpl. unfold granted. by rewrite Htc.
  - intros c g _ _. simpl. unfold applications, applications_row. by rewrite Htc.
Qed.

(** An operation on what belongs to the clusters. *)
Lemma FedInv_clusters w w' :
  FedInv w → directory_kept w w' → table w' SLATE_moncreds = table w SLATE_moncreds →
  ClustersInv w' → AccessInv w' → AppsInv w' → (∀ x, is_cluster w' x → proper_cluster x) →
  FedInv w' ∧ same_directory (directory w) (directory w').
Proof.
  intros Hi Hd Htm Hc Ha Hp Hpr. destruct (ServerInv_kept _ _ Hd (fi_server _ Hi)) as [Hs Hsd].
  split; [split|]; try done.
  - unfold CredsInv. rewrite Htm. apply Hi.
  - intros x. unfold stored_cred. rewrite Htm. apply Hi.
Qed.

(** The keys of the records of the clusters table differ. *)
Lemma access_key_aux c g id : access_key c g ≠ (id, id).
Proof.
  unfold access_key. intros [= -> Heq]. apply (f_equal str_size) in Heq.
  rewrite !str_size_app in Heq. simpl in Heq. lia.
Qed.

Lemma applications_key_aux c g id : (c, applications_key g c) ≠ (id, id).
Proof.
  unfold applications_key. intros [= -> Heq]. apply (f_equal str_size) in Heq.
  rewrite !str_size_app in Heq. simpl in Heq. lia.
Qed.

Lemma access_key_applications c g c' g' :
  no_colon g → access_key c g ≠ (c', applications_key g' c').
Proof.
  unfold access_key, applications_key, no_colon. intros Hg [= -> Heq].
  apply str_app_inj_l, (str_app_inj_l ":") in Heq. subst g.
  rewrite str_all_app in Hg. simpl in Hg. by rewrite andb_false_r in Hg.
Qed.

(** Frames of single rows. *)
Local Abbreviation cell k := (λ w, table w SLATE_clusters !! k).

Lemma frame_cell {A} (m : Store A) k : frame (λ w, table w SLATE_clusters) m → frame (cell k) m.
Proof. intros Hf w. by rewrite (Hf w : table _ _ = _). Qed.

(** The operations, once the group and the cluster are given by their IDs. *)
Lemma addGroupToCluster_proper g c :
  proper_group g → begins_with c clusterIDPrefix = true →
  addGroupToCluster g c =
    (_ ← uncache_access c (negative g);
     outcome ← request (PutItem SLATE_clusters (access_item c g));
     match outcome with
     | inl err => mret false
     | inr _ => _ ← cache_access c g; mret true
     end).
Proof.
  intros Hp Hc. unfold addGroupToCluster.
  rewrite normalizeGroupID_proper by done. etrans; [apply bind_ret|]. cbv beta iota.
  by rewrite normalizeClusterID_id by done.
Qed.

Lemma removeGroupFromCluster_proper g c :
  proper_group g → begins_with c clusterIDPrefix = true →
  removeGroupFromCluster g c =
    (_ ← uncache_access c g;
     outcome ← request (DeleteItem SLATE_clusters (access_key c g) None);
     match outcome with
     | inl err => mret false
     | inr _ => _ ← cache_access c (negative g); mret true
     end).
Proof.
  intros Hp Hc. unfold removeGroupFromCluster.
  rewrite normalizeGroupID_proper by done. etrans; [apply bind_ret|]. cbv beta iota.
  by rewrite normalizeClusterID_id by done.
Qed.

Lemma addGroupToCluster_cell g c k :
  proper_group g → begins_with c clusterIDPrefix = true → k ≠ access_key c g →
  frame (cell k) (addGroupToCluster g c).
Proof.
  intros Hp Hc Hk. rewrite addGroupToCluster_proper by done.
  apply frame_bind; [apply frame_cell; unfold uncache_access; solve_frame|].
  intros _. apply frame_bind; [by apply (frame_PutItem_at _ _ (access_key c g)); [apply item_key_eq|]|].
  intros x. apply frame_cell. unfold cache_access. solve_frame.
Qed.

Lemma removeGroupFromCluster_cell g c k :
  proper_group g → begins_with c clusterIDPrefix = true → k ≠ access_key c g →
  frame (cell k) (removeGroupFromCluster g c).
Proof.
  intros Hp Hc Hk. rewrite removeGroupFromCluster_proper by done.
  apply frame_bind; [apply frame_cell; unfold uncache_access; solve_frame|].
  intros _. apply frame_bind; [by apply frame_DeleteItem_at|].
  intros x. apply frame_cell. unfold cache_access. solve_frame.
Qed.
End kept_invariant.

(** * Changes of the federation *)

Section changes.
Context `{D : Dynamo} `{P : Platform} `{L : !DynamoLaws} `{DL : !DiskLaws}.
Implicit Types (c g : string).
Local Abbreviation cell k := (λ w, table w SLATE_clusters !! k).

(** An operation on the grants, or on the applications, leaves the rest alone. *)
Record on_access_only {A} (m : Store A) : Prop := {
  oa_users : frame users m;
  oa_groups : frame groups m;
  oa_fs : frame fs m;
  oa_records : frame record_caches m;
  oa_auxiliary : preserves auxiliary_rows m }.

Lemma preserves_auxiliary_frame {A} (m : Store A) :
  frame (λ w, table w SLATE_clusters) m → preserves auxiliary_rows m.
Proof. intros Hf. by apply (preserves_frame _ _ (λ t, ∀ k it, t !! k = Some it → k.1 ≠ k.2 → auxiliary_row k it) _ (λ w, iff_refl _)). Qed.

Lemma preserves_auxiliary_PutItem it key :
  item_key SLATE_clusters it = Some key → (key.1 ≠ key.2 → auxiliary_row key it) →
  preserves auxiliary_rows (request (PutItem SLATE_clusters it)).
Proof.
  intros Hk Ha w Hw k it'. simpl.
  destruct (PutItem SLATE_clusters it (db w)) as [[e|[]] d'] eqn:E; simpl.
  - rewrite (PutItem_err _ _ _ _ _ E). apply Hw.
  - apply PutItem_ok in E as (key' & Hk' & ->). simplify_eq.
    rewrite decide_True by done. rewrite lookup_insert. case_decide; [|apply Hw].
    intros [= <-]. by subst.
Qed.

Lemma preserves_auxiliary_DeleteItem key :
  preserves auxiliary_rows (request (DeleteItem SLATE_clusters key None)).
Proof.
  intros w Hw k it'. simpl.
  destruct (DeleteItem SLATE_clusters key None (db w)) as [[e|[]] d'] eqn:E; simpl.
  - rewrite (DeleteItem_err _ _ _ _ _ _ E). apply Hw.
  - apply DeleteItem_ok in E as [_ ->]. rewrite decide_True by done.
    intros [_ Hit]%lookup_delete_Some. by apply Hw.
Qed.

Lemma access_row_auxiliary c g : auxiliary_row (access_key c g) (access_item c g).
Proof.
  split; [|done]. intros Hk. apply (access_key_aux c g c). exact (f_equal (pair c) (eq_sym Hk)).
Qed.

Lemma addGroupToCluster_only g c :
  proper_group g → begins_with c clusterIDPrefix = true → on_access_only (addGroupToCluster g c).
Proof.
  intros Hp Hc. rewrite addGroupToCluster_proper by done. unfold uncache_access, cache_access.
  split; [solve_frame..|]. apply preserves_bind; [apply preserves_auxiliary_frame; solve_frame|].
  intros _. apply preserves_bind.
  - apply (preserves_auxiliary_PutItem _ (access_key c g)); [by apply item_key_eq|].
    intros _. apply access_row_auxiliary.
  - intros x. apply preserves_auxiliary_frame. solve_frame.
Qed.

Lemma removeGroupFromCluster_only g c :
  proper_group g → begins_with c clusterIDPrefix = true →
  on_access_only (removeGroupFromCluster g c).
Proof.
  intros Hp Hc. rewrite removeGroupFromCluster_proper by done. unfold uncache_access, cache_access.
  split; [solve_frame..|]. apply preserves_bind; [apply preserves_auxiliary_frame; solve_frame|].
  intros _. apply preserves_bind; [apply preserves_auxiliary_DeleteItem|].
  intros x. apply preserves_auxiliary_frame. solve_frame.
Qed.

(** What such an operation does to the federation, when it changes no other table and no
    row of a cluster. *)
Lemma FedInv_access {A} (m : Store A) w :
  FedInv w → on_access_only m → (∀ t, t ≠ SLATE_clusters → table (m w).2 t = table w t) →
  (∀ id, frame (cell (id, id)) m) → AccessInv (m w).2 → AppsInv (m w).2 →
  FedInv (m w).2 ∧ same_directory (directory w) (directory (m w).2) ∧
  same (is_cluster w) (is_cluster (m w).2).
Proof.
  intros Hi [Hu Hg Hf Hr Ha] Ht Hcell Hac Hap.
  assert (Hs : same (is_cluster w) (is_cluster (m w).2)).
  { intros x. apply is_cluster_kept. intros id. apply Hcell. }
  assert (Hd : directory_kept w (m w).2) by (split; [apply Hu|apply Hg|by apply Ht..]).
  destruct (FedInv_clusters _ _ Hi Hd) as [Hi' Hsd]; [by apply Ht| |done|done| |done].
  - apply ClustersInv_kept with w; [apply Hi|apply Hr|apply Hf|intros id; apply Hcell|].
    apply Ha, ClustersInv_auxiliary, Hi.
  - intros x Hx%Hs. by apply Hi.
Qed.

(** The outcome of a change of a grant. *)
Definition fed_granted c g (b : bool) (w : World) (r : Res bool) (w' : World) : Prop :=
  FedInv w' ∧ (healthy (db w) → healthy (db w')) ∧
  same_directory (directory w) (directory w') ∧ same (is_cluster w) (is_cluster w') ∧
  same_applications (federation w) (federation w') ∧
  ∃ ok, r = Ok ok ∧ if ok : bool
    then ∀ c' g', granted w' c' g' ↔
           if decide (c' = c ∧ g' = g) then b = true else granted w c' g'
    else ¬ healthy (db w) ∧ same_grants (federation w) (federation w').

Lemma fed_grant_change (m : Store bool) c g b w :
  FedInv w → no_colon g → on_access_only m → frame application_cache m →
  (∀ k, k ≠ access_key c g → frame (cell k) m) → wp m (grant_post c g b w) w →
  wp m (fed_granted c g b w) w.
Proof.
  intros Hi Hg Hm Hac Hcell (Ha & Hh & Hr).
  assert (Hrow : ∀ c' g', applications_row (m w).2 c' g' = applications_row w c' g').
  { intros c' g'. apply (Hcell (c', applications_key g' c')).
    intros Heq. by eapply access_key_applications. }
  assert (Ht : ∀ t, t ≠ SLATE_clusters → table (m w).2 t = table w t).
  { destruct (m w).1 as [[]| |]; [apply Hr|intros t _; apply Hr|done..]. }
  destruct (FedInv_access m w Hi Hm Ht) as (Hi' & Hsd & Hsc).
  - intros id. apply Hcell. intros Heq. by eapply access_key_aux.
  - exact Ha.
  - by eapply AppsInv_kept; [apply Hi|apply Hac|].
  - split_and!; try done.
    + intros c' g' _ _. unfold federation, applications. simpl. by rewrite Hrow.
    + destruct (m w).1 as [ok| |]; [|done..]. exists ok. split; [done|]. destruct ok; [apply Hr|].
      destruct Hr as [Hn Ht']. split; [done|]. intros c' g' _. simpl. unfold granted.
      by rewrite Ht'.
Qed.

Lemma addGroupToCluster_fed g c w :
  FedInv w → proper_group g → begins_with c clusterIDPrefix = true →
  wp (addGroupToCluster g c) (fed_granted c g true w) w.
Proof.
  intros Hi Hp Hc. apply fed_grant_change; [done|apply Hp|by apply addGroupToCluster_only| | |].
  - rewrite addGroupToCluster_proper by done. unfold uncache_access, cache_access. solve_frame.
  - intros k. by apply addGroupToCluster_cell.
  - by apply addGroupToCluster_spec; [apply Hi|..].
Qed.

Lemma removeGroupFromCluster_fed g c w :
  FedInv w → proper_group g → begins_with c clusterIDPrefix = true →
  wp (removeGroupFromCluster g c) (fed_granted c g false w) w.
Proof.
  intros Hi Hp Hc. apply fed_grant_change; [done|apply Hp|by apply removeGroupFromCluster_only| | |].
  - rewrite removeGroupFromCluster_proper by done. unfold uncache_access, cache_access. solve_frame.
  - intros k. by apply removeGroupFromCluster_cell.
  - by apply removeGroupFromCluster_spec; [apply Hi|..].
Qed.
End changes.

(** * Changes of the permitted applications *)

Section applications.
Context `{D : Dynamo} `{P : Platform} `{L : !DynamoLaws} `{DL : !DiskLaws}.
Implicit Types (c g app : string).
Local Abbreviation cell k := (λ w, table w SLATE_clusters !! k).

(** The operations, once the group and the cluster are given by their IDs. *)
Lemma listApplications_proper g c :
  proper_group g → begins_with c clusterIDPrefix = true →
  listApplicationsGroupMayUseOnCluster g c =
    (cached ← find_cached (λ w, clusterGroupApplicationCache (clusters w)) (applications_key g c);
     match cached with
     | Some allowed => mret allowed
     | None =>
         _ ← databaseQuery;
         outcome ← request (GetItem SLATE_clusters (c, applications_key g c));
         match outcome with
         | inl err => mret ∅
         | inr item =>
             result ← lift (applications_of_item item);
             _ ← cache_applications (applications_key g c) result;
             mret result
         end
     end).
Proof.
  intros Hp Hc. unfold listApplicationsGroupMayUseOnCluster.
  rewrite normalizeGroupID_proper by done. etrans; [apply bind_ret|]. cbv beta iota.
  by rewrite normalizeClusterID_id by done.
Qed.

(** The parts an operation on the applications leaves alone. *)
Lemma listApplications_frame {X} (f : World → X) g c :
  proper_group g → begins_with c clusterIDPrefix = true →
  (∀ h w, f (upd_ticks h w) = f w) → (∀ h w, f (upd_stats h w) = f w) →
  frame f (request (GetItem SLATE_clusters (c, applications_key g c))) →
  (∀ h w, f (upd_clusters (upd_clusterGroupApplicationCache h) w) = f w) →
  frame f (listApplicationsGroupMayUseOnCluster g c).
Proof.
  intros Hp Hc Ht Hs Hr Ha. rewrite listApplications_proper by done.
  apply frame_bind; [by apply frame_find_cached|]. intros [allowed|]; [solve_frame|].
  apply frame_bind; [by apply frame_databaseQuery|]. intros _. apply frame_bind; [done|].
  intros [e|item]; [solve_frame|]. apply frame_bind; [solve_frame|]. intros result.
  apply frame_bind; [|solve_frame]. unfold cache_applications.
  apply frame_bind; [by apply frame_make_record|]. intros r. by apply frame_modify.
Qed.

Lemma store_applications_frame {X} (f : World → X) c key value allowed :
  (∀ h w, f (upd_ticks h w) = f w) →
  frame f (request (PutItem SLATE_clusters (applications_item c key value))) →
  (∀ h w, f (upd_clusters (upd_clusterGroupApplicationCache h) w) = f w) →
  frame f (store_applications c key value allowed).
Proof.
  intros Ht Hr Ha. apply frame_bind; [done|]. intros [e|x]; [solve_frame|].
  apply frame_bind; [|solve_frame]. unfold cache_applications.
  apply frame_bind; [by apply frame_make_record|]. intros r. by apply frame_modify.
Qed.

(** Both changes read the set, and store another one or give up. *)
Definition change_applications g c (next : gset string → option (list string * gset string)) :
    Store bool :=
  allowed ← listApplicationsGroupMayUseOnCluster g c;
  match next allowed with
  | Some (value, allowed) => store_applications c (applications_key g c) value allowed
  | None => mret false
  end.

Lemma allow_proper g c app :
  proper_group g → begins_with c clusterIDPrefix = true →
  allowVoToUseApplication g c app = change_applications g c (λ old,
    let s := allow_result (application_name app) old in Some (elements s, s)).
Proof.
  intros Hp Hc. unfold allowVoToUseApplication.
  rewrite normalizeGroupID_proper by done. etrans; [apply bind_ret|]. cbv beta iota.
  by rewrite normalizeClusterID_id by done.
Qed.

Definition deny_next app (old : gset string) : option (list string * gset string) :=
  (λ s, (if bool_decide (s = ∅) then [noApplications] else elements s, s))
    <$> deny_result (application_name app) old.

Lemma change_applications_ext g c n n' w :
  (∀ old, n old = n' old) → change_applications g c n w = change_applications g c n' w.
Proof.
  intros Hn. unfold change_applications, mbind, M_bind.
  destruct (listApplicationsGroupMayUseOnCluster g c w) as [[old| |] w']; [|done..].
  by rewrite Hn.
Qed.

Lemma deny_proper g c app w :
  proper_group g → begins_with c clusterIDPrefix = true →
  denyGroupUseOfApplication g c app w = change_applications g c (deny_next app) w.
Proof.
  intros Hp Hc. unfold denyGroupUseOfApplication.
  rewrite normalizeGroupID_proper by done. etrans; [exact (f_equal (λ m, m w) (bind_ret _ _))|]. cbv beta iota.
  rewrite normalizeClusterID_id by done. etrans; [exact (f_equal (λ m, m w) (bind_ret _ _))|]. cbv beta iota.
  unfold change_applications, mbind, M_bind.
  destruct (listApplicationsGroupMayUseOnCluster g c w) as [[old| |] w']; [|done..].
  unfold deny_next, deny_result, application_name.
  by repeat (case_bool_decide; simpl; try done).
Qed.

Lemma change_applications_frame {X} (f : World → X) g c next :
  proper_group g → begins_with c clusterIDPrefix = true →
  (∀ h w, f (upd_ticks h w) = f w) → (∀ h w, f (upd_stats h w) = f w) →
  frame f (request (GetItem SLATE_clusters (c, applications_key g c))) →
  (∀ value, frame f (request (PutItem SLATE_clusters (applications_item c (applications_key g c) value)))) →
  (∀ h w, f (upd_clusters (upd_clusterGroupApplicationCache h) w) = f w) →
  frame f (change_applications g c next).
Proof.
  intros Hp Hc Ht Hs Hg Hput Ha. apply frame_bind; [by apply listApplications_frame|].
  intros old. destruct (next old) as [[value allowed]|]; [|solve_frame].
  by apply store_applications_frame.
Qed.
End applications.

Section application_changes.
Context `{D : Dynamo} `{P : Platform} `{L : !DynamoLaws} `{DL : !DiskLaws}.
Implicit Types (c g app : string).
Local Abbreviation cell k := (λ w, table w SLATE_clusters !! k).

Lemma applications_row_auxiliary c g value :
  auxiliary_row (c, applications_key g c) (applications_item c (applications_key g c) value).
Proof.
  split; [|done]. intros Hk. apply (applications_key_aux c g c). exact (f_equal (pair c) (eq_sym Hk)).
Qed.

Lemma change_applications_only g c next :
  proper_group g → begins_with c clusterIDPrefix = true →
  on_access_only (change_applications g c next).
Proof.
  intros Hp Hc. split; try by apply change_applications_frame.
  apply preserves_bind.
  - apply preserves_auxiliary_frame. apply listApplications_frame; try done. apply frame_GetItem.
  - intros old. destruct (next old) as [[value allowed]|].
    + apply preserves_bind.
      * apply (preserves_auxiliary_PutItem _ (c, applications_key g c)); [by apply item_key_eq|].
        intros _. apply applications_row_auxiliary.
      * intros x. apply preserves_auxiliary_frame. unfold cache_applications. solve_frame.
    + apply preserves_auxiliary_frame. solve_frame.
Qed.

Lemma change_applications_cell g c next k :
  proper_group g → begins_with c clusterIDPrefix = true → k ≠ (c, applications_key g c) →
  frame (cell k) (change_applications g c next).
Proof.
  intros Hp Hc Hk. apply change_applications_frame; try done.
  - apply frame_cell, frame_GetItem.
  - intros value. by apply (frame_PutItem_at _ _ (c, applications_key g c)); [apply item_key_eq|].
Qed.

(** The outcome of a change of what [g] may use on [c]. *)
Definition fed_permitted c g (w : World) (r : Res bool) (w' : World) : Prop :=
  FedInv w' ∧ (healthy (db w) → healthy (db w')) ∧
  same_directory (directory w) (directory w') ∧ same (is_cluster w) (is_cluster w') ∧
  same_grants (federation w) (federation w') ∧
  ∃ ok, r = Ok ok ∧ if ok : bool
    then ∃ s, ∀ c' g', cluster_id c' → no_colon g' → applications w' c' g' =
           if decide (c' = c ∧ g' = g) then s else applications w c' g'
    else same_applications (federation w) (federation w').

Lemma fed_permission_change next c g w :
  FedInv w → proper_group g → cluster_id c →
  wp (change_applications g c next) (λ r w', AppsInv w' ∧ (healthy (db w) → healthy (db w')) ∧
    match r with
    | Ok true => ∃ s, applications_changed c g s w w'
    | Ok false => ∀ t, table w' t = table w t
    | _ => False
    end) w →
  wp (change_applications g c next) (fed_permitted c g w) w.
Proof.
  intros Hi Hp Hc (Ha & Hh & Hr). pose proof (proj1 Hc) as Hcp.
  pose proof (change_applications_only g c next Hp Hcp) as Honly.
  pose proof (λ k, change_applications_cell g c next k Hp Hcp) as Hcell.
  set (m := change_applications g c next) in *.
  assert (Hgr : ∀ c' g', no_colon g' → granted (m w).2 c' g' ↔ granted w c' g').
  { intros c' g' Hg'. unfold granted. by rewrite (Hcell (access_key c' g')
      (access_key_applications c' g' c g Hg') w : table _ _ !! _ = _). }
  assert (Ht : ∀ t, t ≠ SLATE_clusters → table (m w).2 t = table w t).
  { destruct (m w).1 as [[]| |]; [|intros t _; apply Hr|done..].
    destruct Hr as (s & Hr & _). exact Hr. }
  destruct (FedInv_access m w Hi Honly Ht) as (Hi' & Hsd & Hsc).
  - intros id. apply Hcell. intros Heq. by eapply applications_key_aux.
  - eapply AccessInv_kept; [apply Hi|by apply change_applications_frame|].
    intros c' g' (_ & Hg' & _). by apply Hgr.
  - exact Ha.
  - split_and!; [exact Hi'|exact Hh|exact Hsd|exact Hsc|intros c' g' Hg'; by apply Hgr|].
    destruct (m w).1 as [ok| |]; [|done..]. exists ok. split; [done|]. destruct ok.
    + destruct Hr as (s & _ & Hs & Ho). exists s. intros c' g' Hc' Hg'.
      case_decide as Hd; [by destruct Hd as [-> ->]|]. apply Ho; [done..|].
      intros [= -> ->]. by apply Hd.
    + intros c' g' _ _. simpl. unfold applications, applications_row. by rewrite Hr.
Qed.

Lemma allow_fed g c app w :
  FedInv w → proper_group g → cluster_id c → app ≠ noApplications →
  wp (allowVoToUseApplication g c app) (fed_permitted c g w) w.
Proof.
  intros Hi Hp Hc Happ. rewrite allow_proper by (done || apply Hc).
  apply fed_permission_change; [done..|]. rewrite <- allow_proper by (done || apply Hc).
  eapply wp_mono, allowVoToUseApplication_spec; [|apply Hi|done..].
  intros r w' (Ha & Hh & old & _ & Hr). split; [done|]. split; [done|].
  destruct r as [[]| |]; [eauto|apply Hr|done..].
Qed.

Lemma deny_fed g c app w :
  FedInv w → proper_group g → cluster_id c →
  wp (denyGroupUseOfApplication g c app) (fed_permitted c g w) w.
Proof.
  intros Hi Hp Hc. unfold wp. rewrite deny_proper by (done || apply Hc).
  apply fed_permission_change; [done..|]. unfold wp. rewrite <- deny_proper by (done || apply Hc).
  eapply wp_mono, denyGroupUseOfApplication_spec; [|apply Hi|done..].
  intros r w' (Ha & Hh & old & _ & Hr). split; [done|]. split; [done|].
  destruct r as [[]| |]; destruct (deny_result (application_name app) old); try done; [eauto|apply Hr].
Qed.
End application_changes.

(** * Lookups *)

Section lookups.
Context `{D : Dynamo} `{P : Platform} `{L : !DynamoLaws} `{DL : !DiskLaws}.
Implicit Types (g : string).

Lemma fed_read_only w w' :
  FedInv w → directory_kept w w' → read_only w w' → ClustersInv w' → AccessInv w' → AppsInv w' →
  FedInv w'.
Proof.
  intros Hi Hd Hro Hc Ha Hp. apply (FedInv_clusters w w' Hi Hd); try done; [apply Hro|].
  intros x Hx. apply (fi_proper _ Hi). by apply (read_only_is_cluster w w').
Qed.

(** A lookup in the directory keeps the invariant of the whole. *)
Lemma fed_directory_lookup {A} (m : Store A) (Q : Res A → Prop) w :
  FedInv w → wp m (λ r w', ServerInv w' ∧ read_only w w' ∧ Q r) w →
  frame clusters m → frame fs m →
  wp m (λ r w', FedInv w' ∧ read_only w w' ∧ Q r) w.
Proof.
  intros Hi (Hs & Hro & HQ) Fc Ff. split; [|done].
  apply (FedInv_directory w); [done..|]. split; [apply Fc|apply Ff|apply Hro..].
Qed.

(** So does a lookup of clusters. *)
Lemma fed_cluster_lookup {A} (m : Store A) (Q : Res A → Prop) w :
  FedInv w → wp m (λ r w', ClustersInv w' ∧ read_only w w' ∧ Q r) w →
  frame users m → frame groups m → frame access_cache m → frame application_cache m →
  wp m (λ r w', FedInv w' ∧ read_only w w' ∧ Q r) w.
Proof.
  intros Hi (Hc & Hro & HQ) Fu Fg Fa Fp. split; [|done].
  apply (fed_read_only w); [done|split; [apply Fu|apply Fg|apply Hro..]|done|done| |].
  - eapply AccessInv_kept; [apply Hi|apply Fa|]. intros c g _. unfold granted. by rewrite (proj1 Hro).
  - eapply AppsInv_kept; [apply Hi|apply Fp|]. intros c g. unfold applications_row.
    by rewrite (proj1 Hro).
Qed.

Lemma authenticateUser_fed token w :
  FedInv w → wp (authenticateUser token) (λ r w', FedInv w' ∧ read_only w w' ∧
    ∃ u, r = Ok u ∧ (User.valid u = true → requester w token u) ∧
      (User.valid u = false → healthy (db w) → ∀ u', ¬ requester w token u')) w.
Proof.
  intros Hi. apply fed_directory_lookup; [done|apply authenticateUser_found, Hi|..];
    unfold authenticateUser, findUserByToken, cache_user; solve_frame.
Qed.

Lemma getGroup_fed idOrName w :
  FedInv w → wp (getGroup idOrName) (λ r w', FedInv w' ∧ read_only w w' ∧
    group_found (if begins_with idOrName groupIDPrefix then Group.id else Group.name)
      idOrName w r) w.
Proof.
  intros Hi. apply fed_directory_lookup; [done|apply getGroup_found, Hi|..];
    unfold getGroup, findGroupByID, findGroupByName, cache_group; solve_frame.
Qed.

Lemma userInGroup_fed uID groupID w :
  FedInv w → uID ≠ "" → wp (userInGroup uID groupID) (λ r w', FedInv w' ∧ read_only w w' ∧
    ∃ b, r = Ok b ∧ (b = true → ∃ gid, names w groupID gid ∧ is_member w uID gid)) w.
Proof.
  intros Hi Hne. apply fed_directory_lookup; [done|apply userInGroup_found; [apply Hi|done]|..];
    unfold userInGroup, normalizeGroupID, findGroupByName, cache_group, cache_member; solve_frame.
Qed.

(** A cluster is named by its ID or by its name. *)
Definition cluster_names (w : World) (s id : string) : Prop :=
  if begins_with s clusterIDPrefix then id = s
  else ∃ c, is_cluster w c ∧ Cluster.name c = s ∧ Cluster.id c = id.

Lemma cluster_names_inj w s id id' :
  FedInv w → cluster_names w s id → cluster_names w s id' → id = id'.
Proof.
  intros Hi. unfold cluster_names. case_match; [congruence|].
  intros (c & Hc & Hn & <-) (c' & Hc' & Hn' & <-).
  apply (ci_names _ _ (cl_inv _ (fi_clusters _ Hi))); [done..|congruence].
Qed.

Lemma cluster_names_same w w' s id :
  same (is_cluster w) (is_cluster w') → cluster_names w s id → cluster_names w' s id.
Proof.
  intros Hs. unfold cluster_names. case_match; [done|]. intros (c & Hc & Hn). exists c.
  split; [by apply Hs|done].
Qed.

Lemma writeClusterConfigToDisk_frame {X} (f : World → X) c :
  (∀ h w, f (upd_fs h w) = f w) → (∀ h w, f (upd_clusters (upd_clusterConfigs h) w) = f w) →
  frame f (writeClusterConfigToDisk c).
Proof.
  intros Hf Hc. apply frame_bind; [intros w; apply Hf|]. intros [e|path]; [solve_frame|].
  by apply frame_modify.
Qed.

Lemma cache_cluster_frames c :
  frame users (cache_cluster c) ∧ frame groups (cache_cluster c) ∧
  frame access_cache (cache_cluster c) ∧ frame application_cache (cache_cluster c).
Proof.
  split_and!; unfold cache_cluster; do 4 (apply frame_bind; [solve_frame|intros ?]);
    by apply writeClusterConfigToDisk_frame.
Qed.

Lemma getCluster_frames s :
  frame users (getCluster s) ∧ frame groups (getCluster s) ∧
  frame access_cache (getCluster s) ∧ frame application_cache (getCluster s).
Proof.
  split_and!; unfold getCluster, findClusterByID, findClusterByName; solve_frame;
    apply cache_cluster_frames.
Qed.

Definition cluster_found (s : string) (w : World) (r : Res Cluster.t) : Prop :=
  match r with
  | Ok c => (Cluster.valid c = true ∧ is_cluster w c ∧ cluster_names w s (Cluster.id c)) ∨
            (c = Cluster.none ∧ (healthy (db w) → ∀ c', is_cluster w c' →
               ¬ cluster_names w s (Cluster.id c')))
  | _ => False
  end.

Lemma getCluster_fed s w :
  FedInv w → wp (getCluster s) (λ r w', FedInv w' ∧ read_only w w' ∧ cluster_found s w r) w.
Proof.
  intros Hi. apply fed_cluster_lookup; [done| |apply getCluster_frames..].
  eapply wp_mono, getCluster_spec, Hi. intros r w' (Hc & Hro & Hr). split_and!; [done..|].
  destruct r as [c| |]; [|done..]. unfold cluster_found, cluster_names.
  destruct Hr as [(Hv & Hk & Hcl & _)|[-> Hn]]; [left|right].
  - split_and!; [done..|]. case_match; [done|]. by exists c.
  - split; [done|]. intros Hd c' Hc'. case_match; [by apply Hn|].
    intros (c2 & Hc2 & Hname & _). by apply (Hn Hd c2).
Qed.

Lemma findClusterByName_getCluster s :
  begins_with s clusterIDPrefix = false → findClusterByName s = getCluster s.
Proof. unfold getCluster. by intros ->. Qed.

Lemma normalizeClusterID_fed s w :
  FedInv w → wp (normalizeClusterID s) (λ r w', FedInv w' ∧ read_only w w' ∧
    match r with
    | Ok (Some id) => cluster_names w s id ∧ begins_with id clusterIDPrefix = true
    | Ok None => True
    | _ => False
    end) w.
Proof.
  intros Hi. unfold normalizeClusterID. destruct (begins_with s clusterIDPrefix) eqn:Hs; simpl.
  { apply wp_ret. split; [done|]. split; [done|]. unfold cluster_names. by rewrite Hs. }
  rewrite findClusterByName_getCluster by done.
  eapply wp_seq; [by apply getCluster_fed| |by intros ? ? (_ & _ & [])|by intros ? (_ & _ & [])].
  intros c w' (Hi' & Hro & [(Hv & Hc & Hn)|[-> _]]); [rewrite Hv|simpl];
    apply wp_ret; (split; [done|]; split; [done|]); [|done].
  split; [done|]. by apply (fi_proper _ Hi c Hc).
Qed.

(** An operation that is given a group and a cluster by their IDs or names. *)
Definition by_names (groupID clusterID : string) (F : string → string → Store bool) : Store bool :=
  g ← normalizeGroupID groupID true;
  match g with
  | None => mret false
  | Some g =>
      c ← normalizeClusterID clusterID;
      match c with None => mret false | Some c => F g c end
  end.

Lemma normalizeGroupID_fed groupID w :
  FedInv w → wp (normalizeGroupID groupID true) (λ r w', FedInv w' ∧ read_only w w' ∧
    match r with
    | Ok (Some g) => g = wildcard ∨ names w groupID g ∧ begins_with g groupIDPrefix = true
    | Ok None => True
    | _ => False
    end) w.
Proof.
  intros Hi. destruct (decide (groupID = wildcard)) as [->|Hne].
  { apply wp_ret. split; [done|]. split; [done|]. by left. }
  destruct (decide (groupID = wildcardName)) as [->|Hne'].
  { apply wp_ret. split; [done|]. split; [done|]. by left. }
  assert (Hw : normalizeGroupID groupID true = normalizeGroupID groupID false).
  { unfold normalizeGroupID. by rewrite !bool_decide_false. }
  rewrite Hw. apply fed_directory_lookup; [done| |..].
  - eapply wp_mono, normalizeGroupID_found, Hi. intros r w' (Hs & Hro & Hr).
    split_and!; [done..|]. destruct r as [[g|]| |]; [by right|done..].
  - unfold normalizeGroupID, findGroupByName, cache_group. solve_frame.
  - unfold normalizeGroupID, findGroupByName, cache_group. solve_frame.
Qed.

Lemma wp_by_names groupID clusterID F Q w :
  FedInv w →
  (∀ g c w', FedInv w' → read_only w w' →
     g = wildcard ∨ names w groupID g ∧ begins_with g groupIDPrefix = true →
     cluster_names w clusterID c → begins_with c clusterIDPrefix = true → wp (F g c) Q w') →
  (∀ w', FedInv w' → read_only w w' → Q (Ok false) w') →
  wp (by_names groupID clusterID F) Q w.
Proof.
  intros Hi HF Hno. unfold by_names.
  eapply wp_seq; [by apply normalizeGroupID_fed| |by intros ? ? (_ & _ & [])|by intros ? (_ & _ & [])].
  intros [g|] w1 (Hi1 & Hro1 & Hg); [|by apply wp_ret, Hno].
  eapply wp_seq; [by apply normalizeClusterID_fed| |by intros ? ? (_ & _ & [])|by intros ? (_ & _ & [])].
  intros [c|] w2 (Hi2 & Hro2 & Hc); [|apply wp_ret, Hno; [done|by etrans]].
  destruct Hc as [Hc Hp]. apply HF; [done|by etrans|done| |done].
  eapply (cluster_names_same w1); [|done]. intros x. symmetry. by apply read_only_is_cluster.
Qed.
End lookups.

(** * Changes of the credentials *)

Section credentials.
Context `{D : Dynamo} `{P : Platform} `{L : !DynamoLaws} `{DL : !DiskLaws}.

(** An operation on the table of credentials leaves the rest alone. *)
Record on_credentials_only {A} (m : Store A) : Prop := {
  oc_users : frame users m;
  oc_groups : frame groups m;
  oc_clusters : frame clusters m;
  oc_fs : frame fs m;
  oc_tables : ∀ t, t ≠ SLATE_moncreds → frame (λ w, table w t) m }.

Lemma FedInv_credentials {A} (m : Store A) w :
  FedInv w → on_credentials_only m → CredsInv (m w).2 →
  (∀ c, stored_cred (m w).2 c → proper_credential c) →
  FedInv (m w).2 ∧ same_federation (federation w) (federation (m w).2).
Proof.
  intros Hi [Fu Fg Fc Ff Ft] Hc Hk.
  pose proof (Ft SLATE_users ltac:(done) w) as Tu. pose proof (Ft SLATE_groups ltac:(done) w) as Tg.
  pose proof (Ft SLATE_clusters ltac:(done) w) as Tc. simpl in Tu, Tg, Tc.
  destruct (ServerInv_kept w (m w).2) as [Hs Hsd]; [by split; [apply Fu|apply Fg|..]|apply Hi|].
  split; [split|split]; try done.
  - destruct (fi_clusters _ Hi) as [H1 H2 H3]. specialize (Fc w). specialize (Ff w).
    split; [by rewrite Fc, Tc| |by rewrite Ff]. unfold configs_inv. by rewrite Fc, Ff.
  - eapply AccessInv_kept; [apply Hi|by unfold access_cache; rewrite Fc|].
    intros c g _. unfold granted. by rewrite Tc.
  - eapply AppsInv_kept; [apply Hi|by unfold application_cache; rewrite Fc|].
    intros c g. unfold applications_row. by rewrite Tc.
  - intros x. unfold is_cluster. rewrite Tc. apply Hi.
  - split_and!; [intros x|intros c g _|intros c g _ _]; simpl;
      unfold is_cluster, granted, applications, applications_row; by rewrite Tc.
Qed.

Lemma try_candidates_frame {X} (f : World → X) items :
  (∀ key u c, frame f (request (UpdateItem SLATE_moncreds key u c))) →
  frame f (try_candidates items).
Proof.
  intros Hu. induction items as [|it items IH]; [by intros w|]. cbn [try_candidates].
  apply frame_bind; [|intros [c|]; [by intros w|exact IH]]. unfold try_allocate.
  apply frame_bind; [by intros w|]. intros key. apply frame_bind; [apply Hu|].
  intros [e|x]; [by intros w|]. apply frame_bind; by intros.
Qed.

Lemma allocate_frame {X} (f : World → X) fuel :
  (∀ h w, f (upd_stats h w) = f w) →
  frame f (request (Scan SLATE_moncreds available None)) →
  (∀ key u c, frame f (request (UpdateItem SLATE_moncreds key u c))) →
  frame f (allocateMonitoringCredential fuel).
Proof.
  intros Hs Hscan Hu. induction fuel as [|fuel IH]; [by intros w|].
  cbn [allocateMonitoringCredential]. apply frame_bind; [by apply frame_databaseScan|]. intros _.
  apply frame_bind; [exact Hscan|]. intros [e|[[|it items] next]]; [by intros w..|].
  apply frame_bind; [by apply try_candidates_frame|]. intros [c|]; [by intros w|exact IH].
Qed.

Lemma allocate_only fuel : on_credentials_only (allocateMonitoringCredential fuel).
Proof.
  split; try by apply allocate_frame. intros t Ht. apply allocate_frame; [done|apply frame_Scan|].
  intros. by apply frame_UpdateItem.
Qed.

Lemma credential_change_only (m : Store bool) :
  (∃ c, m = StoreMonCreds.addMonitoringCredential c) ∨
  (∃ k, m = StoreMonCreds.revokeMonitoringCredential k) ∨
  (∃ k, m = StoreMonCreds.deleteMonitoringCredential k) → on_credentials_only m.
Proof.
  intros [[c ->]|[[k ->]|[k ->]]]; split; try intros t Ht;
    unfold StoreMonCreds.addMonitoringCredential, StoreMonCreds.revokeMonitoringCredential,
      StoreMonCreds.deleteMonitoringCredential; solve_frame;
    first [by apply frame_PutItem|by apply frame_UpdateItem|by apply frame_DeleteItem].
Qed.

(** Whether a credential can be copied to a cluster depends on its keys alone. *)
Lemma proper_credential_keys c c' :
  S3Credential.accessKey c = S3Credential.accessKey c' →
  S3Credential.secretKey c = S3Credential.secretKey c' → proper_credential c → proper_credential c'.
Proof. unfold proper_credential. by intros -> ->. Qed.

Lemma cred_changed_proper k new w w' :
  FedInv w → cred_changed k new w w' → (∀ c, new = Some c → proper_credential c) →
  ∀ c, stored_cred w' c → proper_credential c.
Proof.
  intros Hi [_ Hc] Hn c Hst%Hc. case_decide; [by apply Hn|by apply (fi_keys _ Hi)].
Qed.

(** The outcome of an operation that leaves the federation as it is. *)
Definition fed_same {A} (Q : Res A → Prop) (w : World) (r : Res A) (w' : World) : Prop :=
  FedInv w' ∧ (healthy (db w) → healthy (db w')) ∧
  same_federation (federation w) (federation w') ∧ Q r.

Lemma same_tables_creds w w' : (∀ t, table w' t = table w t) → ∀ c, stored_cred w' c ↔ stored_cred w c.
Proof. intros Ht c. unfold stored_cred. by rewrite Ht. Qed.

Lemma fed_credential_change (m : Store bool) k new w :
  FedInv w → on_credentials_only m → wp m (cred_post k new w) w →
  (∀ c, new w = Some (Some c) → proper_credential c) →
  wp m (fed_same (λ r, ∃ b, r = Ok b) w) w.
Proof.
  intros Hi Hm (Hc & Hh & Hr) Hnew.
  assert (Hp : ∀ c, stored_cred (m w).2 c → proper_credential c).
  { assert (Hsame : (∀ t, table (m w).2 t = table w t) → ∀ c, stored_cred (m w).2 c → proper_credential c).
    { intros Ht c Hst. apply (fi_keys _ Hi). by apply (same_tables_creds w (m w).2). }
    destruct (m w).1 as [[]| |]; destruct (new w) as [n|] eqn:Hn; try done; [|by apply Hsame, Hr|by apply Hsame].
    eapply cred_changed_proper; [done|exact Hr|]. intros c ->. by apply Hnew. }
  destruct (FedInv_credentials m w Hi Hm Hc Hp) as [Hi' Hs].
  split; [done|]. split; [done|]. split; [done|].
  destruct (m w).1 as [b| |]; [eauto|by destruct (new w)..].
Qed.
End credentials.

Section cluster_credentials.
Context `{D : Dynamo} `{P : Platform} `{L : !DynamoLaws} `{DL : !DiskLaws}.

(** The outcome of writing the record of a cluster. *)
Definition fed_written new (w : World) (r : Res bool) (w' : World) : Prop :=
  FedInv w' ∧ (healthy (db w) → healthy (db w')) ∧
  same_directory (directory w) (directory w') ∧
  same_grants (federation w) (federation w') ∧
  same_applications (federation w) (federation w') ∧
  ∃ ok, r = Ok ok ∧ if ok : bool
    then put Cluster.id new (is_cluster w) (is_cluster w')
    else same (is_cluster w) (is_cluster w').

(** Giving a cluster another credential. *)
Definition fed_assigned c cred : World → Res bool → World → Prop :=
  fed_written (with_credential c cred).

Lemma is_cluster_put w w' new :
  is_cluster w' new →
  (∀ k, k ≠ cluster_key new → table w' SLATE_clusters !! k = table w SLATE_clusters !! k) →
  put Cluster.id new (is_cluster w) (is_cluster w').
Proof.
  intros Hn Ht x. unfold is_cluster, stored_cluster in *. split.
  - intros Hx. destruct (decide (Cluster.id x = Cluster.id new)) as [Heq|Hne].
    + left. by eapply stored_cluster_inj.
    + right. split; [|congruence]. destruct Hx as (it & Hit & Hr). exists it.
      rewrite Ht in Hit; [done|]. unfold cluster_key. congruence.
  - intros [->|[(it & Hit & Hr) Hne]]; [done|]. exists it. rewrite Ht; [done|].
    unfold cluster_key. congruence.
Qed.

Lemma fed_write (m : Store bool) new w :
  FedInv w → proper_cluster new →
  frame users m → frame groups m → frame access_cache m → frame application_cache m →
  wp m (cluster_write_post new w) w → wp m (fed_written new w) w.
Proof.
  intros Hi Hnew Fu Fg Fa Fp (Hc' & Hh & Ht & Hr).
  assert (Hk : ∀ k, k.1 ≠ k.2 → table (m w).2 SLATE_clusters !! k = table w SLATE_clusters !! k).
  { intros k Hne. destruct (m w).1 as [[|]| |]; [|by destruct Hr as [_ ->]|done..].
    destruct Hr as (_ & Hrow & _). apply Hrow. intros ->. by apply Hne. }
  assert (Hgr : ∀ c' g, granted (m w).2 c' g ↔ granted w c' g).
  { intros c' g. unfold granted. rewrite Hk; [done|]. intros Heq.
    apply (access_key_aux c' g c'). exact (f_equal (pair c') (eq_sym Heq)). }
  assert (Hap : ∀ c' g, applications_row (m w).2 c' g = applications_row w c' g).
  { intros c' g. apply Hk. intros Heq.
    apply (applications_key_aux c' g c'). exact (f_equal (pair c') (eq_sym Heq)). }
  assert (Hput : ∃ ok, (m w).1 = Ok ok ∧ if ok : bool
    then put Cluster.id new (is_cluster w) (is_cluster (m w).2)
    else same (is_cluster w) (is_cluster (m w).2)).
  { destruct (m w).1 as [[|]| |]; [| |done..]; eexists; (split; [done|]).
    - destruct Hr as (Hst & Hrow & _). exact (is_cluster_put _ _ _ Hst Hrow).
    - intros x. unfold is_cluster. by rewrite (proj2 Hr). }
  destruct (FedInv_clusters w (m w).2 Hi) as [Hi' Hsd].
  - split; [apply Fu|apply Fg|by apply Ht..].
  - by apply Ht.
  - done.
  - eapply AccessInv_kept; [apply Hi|apply Fa|]. intros c' g _. apply Hgr.
  - eapply AppsInv_kept; [apply Hi|apply Fp|done].
  - destruct Hput as ([|] & _ & Hput); intros x Hx%Hput; [|by apply Hi].
    destruct Hx as [->|[Hx _]]; [done|by apply Hi].
  - split_and!; [done|done|done|intros c' g _; apply Hgr| |done].
    intros c' g _ _. simpl. unfold applications. by rewrite Hap.
Qed.

Lemma fed_assign (m : Store bool) c cred w :
  FedInv w → is_cluster w c →
  frame users m → frame groups m → frame access_cache m → frame application_cache m →
  wp m (λ r w', r = Ok true ∧ cluster_write_post (with_credential c cred) w r w') w →
  wp m (fed_assigned c cred w) w.
Proof.
  intros Hi Hc Fu Fg Fa Fp [_ Hw]. apply fed_write; try done. apply (fi_proper _ Hi c Hc).
Qed.

Lemma addCluster_fed c w :
  FedInv w → compatible_cluster (table w SLATE_clusters) c → proper_cluster c →
  wp (addCluster c) (fed_written c w) w.
Proof.
  intros Hi Hc Hp. apply fed_write; [done|done| | | | |by apply addCluster_spec; [apply Hi|]].
  all: unfold addCluster; solve_frame; apply cache_cluster_frames.
Qed.

Lemma updateCluster_fed c w :
  FedInv w → compatible_cluster (table w SLATE_clusters) c → proper_cluster c →
  wp (updateCluster c) (fed_written c w) w.
Proof.
  intros Hi Hc Hp. apply fed_write; [done|done| | | | |by apply updateCluster_spec; [apply Hi|]].
  all: unfold updateCluster; solve_frame; apply cache_cluster_frames.
Qed.

Lemma findClusterByID_frames cID :
  frame users (findClusterByID cID) ∧ frame groups (findClusterByID cID) ∧
  frame access_cache (findClusterByID cID) ∧ frame application_cache (findClusterByID cID).
Proof. split_and!; unfold findClusterByID; solve_frame; apply cache_cluster_frames. Qed.

Lemma credential_frames (m : Store bool) :
  (∃ cID cred, m = setClusterMonitoringCredential cID cred) ∨
  (∃ cID, m = removeClusterMonitoringCredential cID) →
  frame users m ∧ frame groups m ∧ frame access_cache m ∧ frame application_cache m.
Proof.
  intros [(cID & cred & ->)|(cID & ->)]; split_and!;
    unfold setClusterMonitoringCredential, removeClusterMonitoringCredential, reload_cluster;
    solve_frame; apply findClusterByID_frames.
Qed.

(** The record of a cluster has the keys alone. *)
Definition plain (cred : S3Credential.t) : S3Credential.t :=
  S3Credential.make (S3Credential.accessKey cred) (S3Credential.secretKey cred).

Lemma setClusterMonitoringCredential_fed c cred w :
  FedInv w → healthy (db w) → is_cluster w c → proper_credential cred →
  wp (setClusterMonitoringCredential (Cluster.id c) cred) (fed_assigned c (plain cred) w) w.
Proof.
  intros Hi Hh Hc Hp.
  change (setClusterMonitoringCredential (Cluster.id c) cred)
    with (setClusterMonitoringCredential (Cluster.id c) (plain cred)).
  set (m := setClusterMonitoringCredential (Cluster.id c) (plain cred)).
  destruct (credential_frames m) as (Fu & Fg & Fa & Fp); [left; unfold m; eauto|].
  pose proof (setClusterMonitoringCredential_spec c (plain cred) w (fi_clusters _ Hi) Hh Hc Hp) as Hs.
  fold m in Hs. destruct Hs as (Hc' & Hh' & Hs). case_decide.
  - by apply fed_assign.
  - destruct Hs as [Hr Hro]. pose proof (read_only_federation _ _ Hro) as (Hsd & Hsc & Hsg & Hsa).
    split; [|split; [done|]].
    + exact (proj1 (fed_cluster_lookup m (λ _, True) w Hi (conj Hc' (conj Hro I)) Fu Fg Fa Fp)).
    + split_and!; [done..|]. by exists false.
Qed.

Lemma removeClusterMonitoringCredential_fed c w :
  FedInv w → healthy (db w) → is_cluster w c →
  wp (removeClusterMonitoringCredential (Cluster.id c)) (fed_assigned c S3Credential.none w) w.
Proof.
  intros Hi Hh Hc. set (m := removeClusterMonitoringCredential (Cluster.id c)).
  destruct (credential_frames m) as (Fu & Fg & Fa & Fp); [right; unfold m; eauto|].
  apply fed_assign; [done..|]. apply removeClusterMonitoringCredential_spec; [apply Hi|done|done].
Qed.

(** Looking for the cluster that uses a credential. *)
Lemma findClusterUsingCredential_fed cred w :
  FedInv w → S3Credential.to_bool cred = true →
  wp (findClusterUsingCredential cred) (λ r w', FedInv w' ∧ read_only w w' ∧
    match r with
    | Ok c => c = Cluster.none ∨ is_cluster w c ∧
        S3Credential.serialize (Cluster.monitoringCredential c) = S3Credential.serialize cred
    | _ => False
    end) w.
Proof.
  intros Hi Hcred. apply fed_cluster_lookup; [done| |unfold findClusterUsingCredential; solve_frame;
    apply cache_cluster_frames..].
  unfold findClusterUsingCredential. apply wp_databaseScan. intros w1 Hq1 _.
  apply wp_Scan_first.
  { intros e w2 Hq2 _. assert (Hq : quiet w w2) by by etrans. apply wp_ret.
    split; [eapply quiet_ClustersInv, Hi; done|]. split; [apply Hq|]. by left. }
  intros items next w2 Hq2 _ Hin _. assert (Hq : quiet w w2) by by etrans.
  pose proof (quiet_ClustersInv _ _ Hq (fi_clusters _ Hi)) as Hi2.
  destruct items as [|it items].
  { apply wp_ret. split; [done|]. split; [apply Hq|]. by left. }
  assert (Hit : it ∈ scan_items (EEq "monCredential" (AVS (S3Credential.serialize cred)))
    (table w1 SLATE_clusters)) by (apply Hin; by left).
  apply elem_of_scan_items in Hit as (key & Hkey & He). simpl in He.
  apply bool_decide_eq_true in He. rewrite (proj1 (quiet_ro _ _ Hq1)) in Hkey.
  destruct (ci_table _ _ (cl_inv _ (fi_clusters _ Hi)) _ _ Hkey) as [(c & Hr & ->)|(_ & _ & _ & Hn)];
    [|congruence].
  assert (Hc : is_cluster w c) by by exists it.
  eapply wp_run; [unfold lift; by rewrite (cluster_row_listed c it Hr)|].
  apply wp_cache_cluster; [done|by apply (read_only_is_cluster w w2 c (quiet_ro _ _ Hq))|].
  intros w3 Hi3 Hcc. apply wp_ret. split; [done|].
  split; [etrans; [apply Hq|apply read_only_db, (cc_db _ _ _ Hcc)]|]. right. split; [done|].
  rewrite (cluster_row_lookup c it "monCredential" _ Hr eq_refl) in He. injection He as He.
  by apply AVS_inj.
Qed.
End cluster_credentials.

(** ** The commands about credentials *)

Section credential_changes.
Context `{D : Dynamo} `{P : Platform} `{L : !DynamoLaws} `{DL : !DiskLaws}.

Lemma for_collect_lift {W A B} (l : list A) (body : A → Res B) (w : W) :
  (for_collect l (λ x, lift (body x)) w).2 = w.
Proof.
  induction l as [|x l IH]; [done|]. cbn [for_collect]. unfold mbind, M_bind, lift.
  destruct (body x) as [y| |]; simpl; [|done..].
  unfold lift in IH. destruct (for_collect l _ w) as [[ys| |] w'] eqn:E; simpl in *; congruence.
Qed.

(** A scan whose items are only decoded. *)
Lemma scan_loop_quiet {A} fuel t f start acc (body : Item → Res A) w :
  wp (scan_loop fuel t f start acc (λ it, lift (body it))) (λ _ w', quiet w w') w.
Proof.
  revert start acc w. induction fuel as [|fuel IH]; intros start acc w; [done|].
  cbn [scan_loop]. apply wp_request. intros o d' Hr.
  assert (Hq : quiet w (upd_db (λ _, d') w)).
  { split; [|done..]. split; simpl.
    - destruct o as [|[]]; [by eapply Scan_err|by eapply Scan_ok].
    - intros [Hd _]%(healthy_Scan t f start). by rewrite Hr in Hd. }
  destruct o as [e|[items next]]; [by apply wp_ret|]. apply wp_bind. unfold wp.
  pose proof (for_collect_lift items body (upd_db (λ _, d') w)) as Hf.
  destruct (for_collect items _ _) as [[page| |] w1]; simpl in *; subst w1; [|done..].
  destruct next as [key|]; [|by apply wp_ret]. eapply wp_mono, IH. intros r w2 Hq2. by etrans.
Qed.

Lemma listMonitoringCredentials_quiet fuel w :
  wp (listMonitoringCredentials fuel) (λ _ w', quiet w w') w.
Proof.
  unfold listMonitoringCredentials. apply wp_databaseScan. intros w1 Hq1 _.
  apply (wp_seq (λ _ w', quiet w w')).
  - eapply wp_mono, scan_loop_quiet. intros r w2 Hq2. by etrans.
  - intros r w2 Hq2. by apply wp_ret.
  - done.
  - done.
Qed.

Lemma getMonitoringCredential_fed k w :
  FedInv w → wp (getMonitoringCredential k) (λ r w', FedInv w' ∧ read_only w w' ∧ ∃ c, r = Ok c ∧
    (S3Credential.to_bool c = true → stored_cred w c ∧ S3Credential.accessKey c = k)) w.
Proof.
  intros Hi. eapply wp_mono, getMonitoringCredential_spec, Hi.
  intros r w' (Hq & c & -> & Hc). split; [by eapply quiet_FedInv|]. split; [apply Hq|].
  exists c. split; [done|]. intros Hb. destruct Hc as [Hc|[-> _]]; [done|done].
Qed.

Lemma revokeMonitoringCredential_fed k w :
  FedInv w → wp (revokeMonitoringCredential k) (fed_same (λ r, ∃ b, r = Ok b) w) w.
Proof.
  intros Hi. apply (fed_credential_change _ k (revoke_result k)); [done| | |].
  - apply credential_change_only. eauto.
  - apply revokeMonitoringCredential_spec, Hi.
  - intros c. unfold revoke_result.
    destruct (cred_at_row k w (fi_creds _ Hi)) as [[_ ->]|(c0 & Hr & Hk & Hst)]; [done|].
    rewrite (cred_row_decode c0) by (done || by f_equal). intros [= <-].
    eapply (proper_credential_keys c0); [done..|]. by apply (fi_keys _ Hi).
Qed.

Lemma deleteMonitoringCredential_fed k w :
  FedInv w → wp (deleteMonitoringCredential k) (fed_same (λ r, ∃ b, r = Ok b) w) w.
Proof.
  intros Hi. apply (fed_credential_change _ k (delete_result k)); [done| | |].
  - apply credential_change_only. eauto.
  - apply deleteMonitoringCredential_spec, Hi.
  - intros c. unfold delete_result. by repeat case_match.
Qed.

Lemma addMonitoringCredential_fed c w :
  FedInv w → S3Credential.to_bool c = true → c = plain c → proper_credential c →
  wp (addMonitoringCredential c) (fed_same (λ r, ∃ b, r = Ok b) w) w.
Proof.
  intros Hi Hb Hc Hp. apply (fed_credential_change _ (S3Credential.accessKey c) (λ _, Some (Some c)));
    [done| | |by intros c' [= <-]].
  - apply credential_change_only. eauto.
  - apply addMonitoringCredential_spec; [apply Hi|done|by rewrite Hc..].
Qed.

Lemma allocateMonitoringCredential_fed fuel w :
  FedInv w → healthy (db w) →
  wp (allocateMonitoringCredential fuel) (fed_same (λ r, ∀ c msg, r = Ok (c, msg) →
    S3Credential.to_bool c = true → proper_credential c) w) w.
Proof.
  intros Hi Hd. destruct fuel as [|fuel].
  { split; [done|]. split; [done|]. by split. }
  destruct (allocateMonitoringCredential_spec fuel w (fi_creds _ Hi) Hd) as (Hc & Hh & Hr).
  set (m := allocateMonitoringCredential (S fuel)) in *.
  assert (Hkeys : (∀ c, stored_cred (m w).2 c → proper_credential c) ∧
    ∀ c msg, (m w).1 = Ok (c, msg) → S3Credential.to_bool c = true → proper_credential c).
  { destruct Hr as [(c & w1 & -> & Hq & (cur & Hst & _ & Hk & _ & _ & Hch) & Hc0)|(-> & Hq & _)]; split.
    - eapply cred_changed_proper; [eapply quiet_FedInv, Hi; exact Hq|exact Hch|].
      intros c' [= <-]. eapply (proper_credential_keys cur); [done..|].
      apply (fi_keys _ Hi). by apply (quiet_stored_cred w w1).
    - intros c' msg [= -> _] _. by apply (fi_keys _ Hi) in Hc0.
    - intros c Hst. apply (fi_keys _ Hi). by apply (quiet_stored_cred w (m w).2).
    - by intros c msg [= <- _]. }
  destruct (FedInv_credentials m w Hi (allocate_only _) Hc (proj1 Hkeys)) as [Hi' Hs].
  split; [done|]. split; [done|]. split; [done|apply Hkeys].
Qed.
End credential_changes.

(** * Computations that look things up *)

Section looking_up.
Context `{D : Dynamo} `{P : Platform} `{L : !DynamoLaws} `{DL : !DiskLaws}.

Definition fed_looks_up {A} (m : Store A) : Prop := keeps FedInv m.

(** A question about the access to clusters. *)
Lemma fed_access_lookup {A} (m : Store A) (Q : Res A → Prop) w :
  FedInv w → wp m (λ r w', AccessInv w' ∧ read_only w w' ∧ Q r) w →
  frame users m → frame groups m → frame fs m → frame record_caches m →
  frame application_cache m →
  wp m (λ r w', FedInv w' ∧ read_only w w' ∧ Q r) w.
Proof.
  intros Hi (Ha & Hro & HQ) Fu Fg Ff Fr Fp. split; [|done].
  apply (fed_read_only w); [done|split; [apply Fu|apply Fg|apply Hro..]|done| |done|].
  - apply ClustersInv_kept with w; [apply Hi|apply Fr|apply Ff| |].
    + intros id. by rewrite (proj1 Hro).
    + intros k it. rewrite (proj1 Hro). apply ClustersInv_auxiliary, Hi.
  - eapply AppsInv_kept; [apply Hi|apply Fp|]. intros c g. unfold applications_row.
    by rewrite (proj1 Hro).
Qed.

(** A question about the permitted applications. *)
Lemma fed_applications_lookup {A} (m : Store A) (Q : Res A → Prop) w :
  FedInv w → wp m (λ r w', AppsInv w' ∧ read_only w w' ∧ Q r) w →
  frame users m → frame groups m → frame fs m → frame record_caches m → frame access_cache m →
  wp m (λ r w', FedInv w' ∧ read_only w w' ∧ Q r) w.
Proof.
  intros Hi (Ha & Hro & HQ) Fu Fg Ff Fr Fp. split; [|done].
  apply (fed_read_only w); [done|split; [apply Fu|apply Fg|apply Hro..]|done| | |done].
  - apply ClustersInv_kept with w; [apply Hi|apply Fr|apply Ff| |].
    + intros id. by rewrite (proj1 Hro).
    + intros k it. rewrite (proj1 Hro). apply ClustersInv_auxiliary, Hi.
  - eapply AccessInv_kept; [apply Hi|apply Fp|]. intros c g _. unfold granted. by rewrite (proj1 Hro).
Qed.

(** The parts of the state the questions about access leave alone. *)
Lemma clusterAllowsAllGroups_frame {X} (f : World → X) c :
  (∀ h w, f (upd_ticks h w) = f w) → (∀ h w, f (upd_stats h w) = f w) →
  (∀ h w, f (upd_db h w) = f w) →
  (∀ h w, f (upd_clusters (upd_clusterGroupAccessCache h) w) = f w) →
  frame f (clusterAllowsAllGroups c).
Proof.
  intros Ht Hs Hd Ha. unfold clusterAllowsAllGroups, fetch_access, cache_access, record_valid, now,
    cacheHit, databaseQuery. solve_frame; try (by intros w; apply Ht); try by apply frame_modify.
  all: try by apply frame_find_cached_val. all: try by apply frame_request.
  all: try by apply frame_make_record. all: by apply frame_multi_insert.
Qed.

Lemma clusterAllowsAllGroups_fed c w :
  FedInv w → wp (clusterAllowsAllGroups c) (λ r w', FedInv w' ∧ read_only w w' ∧ ∃ b, r = Ok b ∧
    (b = true → granted w c wildcard) ∧
    (b = false → healthy (db w) → ¬ granted w c wildcard ∨ grant_expiring w c)) w.
Proof.
  intros Hi. apply fed_access_lookup; [done|apply clusterAllowsAllGroups_spec, Hi|..];
    by apply clusterAllowsAllGroups_frame.
Qed.

(** [groupAllowedOnCluster], once the group and the cluster are given by their IDs. *)
Lemma groupAllowedOnCluster_proper g c :
  begins_with g groupIDPrefix = true → begins_with c clusterIDPrefix = true →
  groupAllowedOnCluster g c =
    (all ← clusterAllowsAllGroups c;
     if all : bool then mret true else
     yes ← find_cached_val (λ w, clusterGroupAccessCache (clusters w)) c g;
     if yes : bool then mret true else
     no ← find_cached_val (λ w, clusterGroupAccessCache (clusters w)) c (negative g);
     if no : bool then mret false else fetch_access c g).
Proof.
  intros Hg Hc. unfold groupAllowedOnCluster.
  rewrite normalizeGroupID_id by done. etrans; [apply bind_ret|]. cbv beta iota.
  by rewrite normalizeClusterID_id by done.
Qed.

Lemma groupAllowedOnCluster_frame {X} (f : World → X) g c :
  begins_with g groupIDPrefix = true → begins_with c clusterIDPrefix = true →
  (∀ h w, f (upd_ticks h w) = f w) → (∀ h w, f (upd_stats h w) = f w) →
  (∀ h w, f (upd_db h w) = f w) →
  (∀ h w, f (upd_clusters (upd_clusterGroupAccessCache h) w) = f w) →
  frame f (groupAllowedOnCluster g c).
Proof.
  intros Hg Hc Ht Hs Hd Ha. rewrite groupAllowedOnCluster_proper by done.
  unfold fetch_access, cache_access.
  apply frame_bind; [by apply clusterAllowsAllGroups_frame|]. intros [|]; [solve_frame|].
  apply frame_bind; [by apply frame_find_cached_val|]. intros [|]; [solve_frame|].
  apply frame_bind; [by apply frame_find_cached_val|]. intros [|]; [solve_frame|].
  apply frame_bind; [by apply frame_databaseQuery|]. intros _.
  apply frame_bind; [by apply frame_request|]. intros [e|item]; [solve_frame|].
  case_match; (apply frame_bind; [|solve_frame]); (apply frame_bind; [by apply frame_make_record|]);
    intros r; by apply frame_multi_insert.
Qed.

Lemma groupAllowedOnCluster_fed g c w :
  FedInv w → group_id g → begins_with c clusterIDPrefix = true →
  wp (groupAllowedOnCluster g c) (λ r w', FedInv w' ∧ read_only w w' ∧ ∃ b, r = Ok b ∧
    (b = true → allowed w c g) ∧
    (b = false → healthy (db w) → ¬ allowed w c g ∨ grant_expiring w c)) w.
Proof.
  intros Hi Hg Hc. apply fed_access_lookup; [done| |by apply groupAllowedOnCluster_frame; [apply Hg|..]..].
  apply groupAllowedOnCluster_spec; [apply Hi|by apply group_id_proper|apply Hg|done].
Qed.

Lemma listApplications_fed g c w :
  FedInv w → proper_group g → cluster_id c →
  wp (listApplicationsGroupMayUseOnCluster g c) (λ r w', FedInv w' ∧ read_only w w' ∧
    ∃ s, r = Ok s ∧ (s = applications w c g ∨ (¬ healthy (db w) ∧ s = ∅))) w.
Proof.
  intros Hi Hg Hc. apply fed_applications_lookup; [done| |..].
  1: by apply listApplications_spec; [apply Hi|..].
  all: apply listApplications_frame; done || apply Hc.
Qed.

Lemma findGroupByID_fed id w :
  FedInv w → wp (findGroupByID id) (λ r w', FedInv w' ∧ read_only w w' ∧ group_found Group.id id w r) w.
Proof.
  intros Hi. apply fed_directory_lookup; [done|apply findGroupByID_found, Hi|..];
    unfold findGroupByID, cache_group; solve_frame.
Qed.

Lemma listGroupsAllowedOnCluster_looks_up c :
  begins_with c clusterIDPrefix = true → fed_looks_up (listGroupsAllowedOnCluster c false).
Proof.
  intros Hc. unfold listGroupsAllowedOnCluster. rewrite normalizeClusterID_id by done.
  change (fed_looks_up (mret (Some c) ≫= λ c, match c with
    | None => mret []
    | Some cID =>
        all ← clusterAllowsAllGroups cID;
        if all : bool then mret [wildcard] else
        _ ← databaseQuery;
        outcome ← request (Query SLATE_clusters None
                    (mkKC "ID" (AVS cID) (Some (cID +:+ ":" +:+ groupIDPrefix))) ETrue);
        match outcome with
        | inl err => mret []
        | inr items => mret (omap (λ item : Item, GetS <$> item !! "groupID") items)
        end
    end)).
  apply keeps_bind; [apply keeps_ret|]. intros [cID|]; [|apply keeps_ret].
  apply keeps_bind; [eapply (keeps_wp _ _ (λ w r, ∃ b, r = Ok b ∧ (b = true → granted w cID wildcard) ∧ _));
    intros w Hi; by apply clusterAllowsAllGroups_fed|].
  intros [|]; [apply keeps_ret|].
  apply keeps_bind; [apply keeps_databaseQuery, quiet_FedInv|]. intros _.
  apply keeps_bind; [apply keeps_query, quiet_FedInv|]. intros [e|items]; apply keeps_ret.
Qed.
End looking_up.

(** ** Listings of clusters *)

Section listings.
Context `{D : Dynamo} `{P : Platform} `{L : !DynamoLaws} `{DL : !DiskLaws}.

Lemma listClusters_looks_up fuel : fed_looks_up (listClusters fuel).
Proof.
  eapply (keeps_wp _ _ (λ _ _, True)). intros w Hi. apply fed_cluster_lookup; [done| |..].
  { eapply wp_mono, list_all_keeps, Hi. intros r w' [? ?]. split_and!; [done..|exact I]. }
  all: unfold listClusters, list_all, list_cluster;
    repeat (apply frame_bind; [solve_frame|intros]); case_match; [solve_frame|];
    apply frame_bind; [solve_frame|intros];
    apply frame_bind; [apply frame_scan_loop; [done|solve_frame; apply cache_cluster_frames]|solve_frame].
Qed.

Lemma groupAllowedOnCluster_looks_up g c :
  (begins_with g groupIDPrefix = true → group_id g) → fed_looks_up (groupAllowedOnCluster g c).
Proof.
  intros Hg. eapply (keeps_wp _ _ (λ _ _, True)). intros w Hi. unfold groupAllowedOnCluster.
  eapply wp_seq.
  { apply (fed_directory_lookup _ _ w Hi (normalizeGroupID_found g w (fi_server _ Hi)));
      unfold normalizeGroupID, findGroupByName, cache_group; solve_frame. }
  2: { by intros e w' (_ & _ & []). }
  2: { by intros w' (_ & _ & []). }
  intros [g'|] w1 (Hi1 & Hro1 & Hn); [|by apply wp_ret].
  assert (Hid : group_id g').
  { destruct Hn as [Hn Hp]. unfold names in Hn. revert Hn. case_match; [by intros ->; apply Hg|].
    intros (x & Hx & _ & <-). by apply (si_group_ids _ (fi_server _ Hi)). }
  eapply wp_seq; [by apply normalizeClusterID_fed| |by intros ? ? (_ & _ & [])
                 |by intros ? (_ & _ & [])].
  intros [c'|] w2 (Hi2 & Hro2 & Hc); [|apply wp_ret; split_and!; [done|by etrans|done]].
  rewrite <- groupAllowedOnCluster_proper by (apply Hid || apply Hc).
  eapply wp_mono, groupAllowedOnCluster_fed; [|done|done|apply Hc].
  intros r w3 (Hi3 & Hro3 & _). split_and!; [done| |done]. etrans; [|done]. by etrans.
Qed.

Lemma findGroupByName_looks_up name :
  begins_with name groupIDPrefix = false → fed_looks_up (findGroupByName name).
Proof.
  intros Hn. eapply keeps_wp. intros w Hi. pose proof (getGroup_fed name w Hi) as Hg.
  unfold getGroup in Hg. rewrite Hn in Hg. exact Hg.
Qed.

(** A group is named, or given by a proper ID. *)
Lemma listClustersByGroup_looks_up fuel g :
  (begins_with g groupIDPrefix = true → group_id g) → fed_looks_up (listClustersByGroup fuel g).
Proof.
  intros Hg w Hi. unfold listClustersByGroup.
  assert (Hlist : ∀ g', (begins_with g' groupIDPrefix = true → group_id g') →
    fed_looks_up (allClusters ← listClusters fuel;
      for_filter allClusters (λ cluster,
        if bool_decide (g' = Cluster.owningGroup cluster) then mret true
        else groupAllowedOnCluster g' (Cluster.id cluster)))).
  { intros g' Hg'. apply keeps_bind; [apply listClusters_looks_up|]. intros l.
    apply keeps_for_filter. intros c. case_match; [apply keeps_ret|].
    by apply groupAllowedOnCluster_looks_up. }
  destruct (negb (str_empty g) && negb (begins_with g groupIDPrefix)) eqn:Hb.
  2: { exact (Hlist g Hg w Hi). }
  apply andb_true_iff in Hb as [_ Hb%negb_true_iff].
  pose proof (getGroup_fed g w Hi) as Hx. unfold getGroup in Hx. rewrite Hb in Hx.
  change (wp ((group_ ← findGroupByName g;
    if Group.valid group_ then mret (Some (Group.id group_)) else mret None) ≫= λ group,
    match group with
    | None => mret []
    | Some group => allClusters ← listClusters fuel;
      for_filter allClusters (λ cluster,
        if bool_decide (group = Cluster.owningGroup cluster) then mret true
        else groupAllowedOnCluster group (Cluster.id cluster))
    end) (λ _ w', FedInv w' ∧ read_only w w') w).
  apply (wp_seq (λ r w', FedInv w' ∧ read_only w w' ∧ ∀ i, r = Ok (Some i) → group_id i)).
  - eapply wp_seq; [exact Hx| |by intros ? ? (_ & _ & [])|by intros ? (_ & _ & [])].
    intros x w1 (Hi1 & Hro1 & [(Hv & _ & Hs)|[-> _]]); [rewrite Hv|]; apply wp_ret;
      (split_and!; [done..|]); [|done].
    intros i [= <-]. by apply (si_group_ids _ (fi_server _ Hi)).
  - intros [i|] w1 (Hi1 & Hro1 & Hid); [|by apply wp_ret].
    destruct (Hlist i (λ _, Hid i eq_refl) w1 Hi1) as [Hi2 Hro2]. split; [done|by etrans].
  - by intros e w1 (? & ? & _).
  - by intros w1 (? & ? & _).
Qed.

Lemma upd_locations_keeps h : fed_looks_up (modify (upd_clusters (upd_clusterLocationCache h))).
Proof.
  intros w Hi. split; [|done]. apply (fed_read_only w); [done|done|done| | |].
  - apply ClustersInv_kept with w; [apply Hi|done..|]. exact (ClustersInv_auxiliary w (fi_clusters _ Hi)).
  - eapply AccessInv_kept; [apply Hi|done|done].
  - eapply AppsInv_kept; [apply Hi|done|done].
Qed.

Lemma getLocationsForCluster_looks_up c : fed_looks_up (getLocationsForCluster c).
Proof.
  unfold getLocationsForCluster.
  apply keeps_bind; [eapply keeps_wp; intros w Hi; by apply normalizeClusterID_fed|].
  intros [id|]; [|apply keeps_ret].
  apply keeps_bind; [apply keeps_find_cached, quiet_FedInv|]. intros [l|]; [apply keeps_ret|].
  apply keeps_bind; [apply keeps_databaseQuery, quiet_FedInv|]. intros _.
  apply keeps_bind; [apply keeps_GetItem, quiet_FedInv|]. intros [e|it]; [apply keeps_ret|].
  apply keeps_bind.
  { case_match; [apply keeps_ret|]. apply keeps_bind; [apply keeps_lift|]. intros v.
    apply keeps_for_collect. intros s. apply keeps_lift. }
  intros l. apply keeps_bind; [apply keeps_make_record, quiet_FedInv|]. intros r.
  apply keeps_bind; [apply upd_locations_keeps|]. intros _. apply keeps_ret.
Qed.

Lemma getCluster_looks_up s : fed_looks_up (getCluster s).
Proof. eapply keeps_wp. intros w Hi. by apply getCluster_fed. Qed.

Lemma getGroup_looks_up s : fed_looks_up (getGroup s).
Proof.
  eapply (keeps_wp _ _ (λ w r, group_found (if begins_with s groupIDPrefix then Group.id
    else Group.name) s w r)). intros w Hi. by apply getGroup_fed.
Qed.

Lemma clustersOwnedByGroup_looks_up g : fed_looks_up (clustersOwnedByGroup g).
Proof.
  apply keeps_bind; [apply keeps_databaseQuery, quiet_FedInv|]. intros _.
  apply keeps_bind; [apply keeps_query, quiet_FedInv|]. intros [e|items]; [apply keeps_ret|].
  apply keeps_for_collect. intros it. apply keeps_lift.
Qed.
End listings.
