(* ===== verification/Http.v ===== *)
(** What the command handlers of the server share: requests, JSON values and the checks
    of a request body, replies, and the sending of email
    (src/ServerUtilities.cpp, src/Utilities.cpp, [EmailClient] of src/PersistentStore.cpp).

    A handler is a computation of [Store Response]. Parsing and printing JSON is the work
    of rapidjson, and sending a form over HTTP that of libcurl: both are parameters. *)

From S2P Require Import Prelude Entities Cache Dynamo Store.

(** * JSON *)

(** [rapidjson::Value]; a number is kept as it is written. *)
Inductive Json :=
  | JNull
  | JBool (b : bool)
  | JNumber (s : string)
  | JString (s : string)
  | JArray (l : list Json)
  | JObject (members : list (string * Json)).

Definition nul : ascii := Ascii false false false false false false false false.

(** A string read through a pointer to its first character: [GetString] of a value
    that becomes a [std::string], or [StringRef(s.c_str())]. *)
Fixpoint c_str (s : string) : string :=
  match s with
  | EmptyString => EmptyString
  | String c s => if char_is c nul then EmptyString else String c (c_str s)
  end.

(** [FindMember]: the first member with that name. *)
Fixpoint find_member (name : string) (members : list (string * Json)) : option Json :=
  match members with
  | [] => None
  | (n, v) :: members => if bool_decide (n = name) then Some v else find_member name members
  end.

(** Reading a document: [operator[]] asserts that there is such a member, [HasMember] that
    it is applied to an object, [GetArray] and [GetString] that the value is of that type.
    [None] is a failed assertion. *)
Definition member (name : string) (v : Json) : option Json :=
  match v with JObject members => find_member name members | _ => None end.

Definition has_member (name : string) (v : Json) : option bool :=
  match v with
  | JObject members =>
      Some (match find_member name members with Some _ => true | None => false end)
  | _ => None
  end.

Definition get_array (v : Json) : option (list Json) :=
  match v with JArray l => Some l | _ => None end.

Definition get_string (v : Json) : option string :=
  match v with JString s => Some (c_str s) | _ => None end.

Definition is_object (v : Json) : bool := match v with JObject _ => true | _ => false end.
Definition is_array (v : Json) : bool := match v with JArray _ => true | _ => false end.
Definition is_string (v : Json) : bool := match v with JString _ => true | _ => false end.

(** [StringRef(s.c_str())] *)
Definition StringRef (s : string) : Json := JString (c_str s).

(** [Document::Parse]: a document that cannot be parsed stays null. *)
Class JsonParser := Parse : string → Json.

(** * Requests and replies *)

(** [crow::request], as far as the handlers read it; a parameter given several times
    counts with the value [url_params.get] returns. *)
Record Request := mkRequest { url_params : gmap string string; req_body : string }.

Definition param (req : Request) (name : string) : option string := url_params req !! name.

(** A reply with its status code and its body, if any; or the end of the process: the
    assertions of rapidjson are enabled. *)
Inductive Response :=
  | Reply (code : Z) (content : option Json)
  | AssertionFailed.

(** The object of [generateError] as the body of a reply. *)
Definition generateError (message : string) : Json :=
  JObject [("kind", JString "Error"); ("message", StringRef message)].

(** The process goes on after this reply. *)
Definition alive (r : Response) : bool := match r with AssertionFailed => false | _ => true end.

Definition failure (code : Z) (message : string) : Response :=
  Reply code (Some (generateError message)).

(** [crow::response(to_string(result))] *)
Definition reply (result : list (string * Json)) : Response := Reply 200 (Some (JObject result)).

(** [crow::response(200)] *)
Definition done_reply : Response := Reply 200 None.

Definition code (r : Response) : option Z :=
  match r with Reply code _ => Some code | AssertionFailed => None end.

(** * Checks of the body: a reply when one fails *)

Definition Checked (A : Type) : Type := Response + A.

Definition and_then {A B} (c : Checked A) (k : A → Checked B) : Checked B :=
  match c with inl r => inl r | inr a => k a end.

Declare Scope check_scope.
Notation "x ←? c ; k" := (and_then c (λ x, k))
  (at level 20, c at level 100, k at level 200, only parsing) : check_scope.
Open Scope check_scope.

Section checks.
Context `{!JsonParser}.

(** The members of the body. [HasMember] asserts that it is applied to an object. *)
Definition body_members (req : Request) : Checked (list (string * Json)) :=
  match Parse (c_str (req_body req)) with
  | JNull => inl (failure 400 "Invalid JSON in request body")
  | JObject members => inr members
  | _ => inl AssertionFailed
  end.

(** The members of the [metadata] object among them. *)
Definition metadata_in (members : list (string * Json)) (missing wrong : string) :
    Checked (list (string * Json)) :=
  match find_member "metadata" members with
  | None => inl (failure 400 missing)
  | Some (JObject metadata) => inr metadata
  | Some _ => inl (failure 400 wrong)
  end.

Definition metadata_of (req : Request) (missing wrong : string) : Checked (list (string * Json)) :=
  members ←? body_members req; metadata_in members missing wrong.
End checks.

Definition required (metadata : list (string * Json)) (name missing : string) : Checked Json :=
  match find_member name metadata with
  | None => inl (failure 400 missing)
  | Some v => inr v
  end.

Definition as_string (wrong : string) (v : Json) : Checked string :=
  match v with JString s => inr (c_str s) | _ => inl (failure 400 wrong) end.

Definition as_bool (wrong : string) (v : Json) : Checked bool :=
  match v with JBool b => inr b | _ => inl (failure 400 wrong) end.

Definition required_string (metadata : list (string * Json)) (name missing wrong : string) :
    Checked string :=
  v ←? required metadata name missing; as_string wrong v.

(** A member that may be absent. *)
Definition optional {A} (metadata : list (string * Json)) (name : string)
    (as_type : Json → Checked A) : Checked (option A) :=
  match find_member name metadata with
  | None => inr None
  | Some v => a ←? as_type v; inr (Some a)
  end.

(** The handler goes on with what the checks return. *)
Definition checked {W A} (c : Checked A) (k : A → M W Response) : M W Response :=
  match c with inl r => mret r | inr a => k a end.

(** [std::regex_match(token, std::regex("[a-z0-9-]*"))] *)
Definition tag_char (c : ascii) : bool :=
  let n := Ascii.nat_of_ascii c in
  (97 <=? n) && (n <=? 122) || (48 <=? n) && (n <=? 57) || (n =? 45).

Definition validTagGroupName (token : string) : bool := str_all tag_char token.

(** * Email *)

Record Email := mkEmail {
  fromAddress : string; toAddresses : list string; ccAddresses : list string;
  bccAddresses : list string; subject : string; email_body : string }.

(** The configuration of [EmailClient], the address [getOpsEmail] returns, and
    [httpRequests::httpPostForm], which gives the status of the response or throws. *)
Class Mailer := {
  mailgunEndpoint : string; mailgunKey : string; emailDomain : string; opsEmail : string;
  httpPostForm : string → list (string * string) → Res Z }.

Section email.
Context `{!Mailer}.

Definition canSendEmail : bool :=
  negb (str_empty mailgunEndpoint) && negb (str_empty mailgunKey) && negb (str_empty emailDomain).

(** The form is a [multimap]: its fields are sent in the order of their names. *)
Definition sendEmail (email : Email) : Res bool :=
  if negb canSendEmail then Ok false else
  let url := "https://api:" +:+ mailgunKey +:+ "@" +:+ mailgunEndpoint +:+ "/v3/"
             +:+ emailDomain +:+ "/messages" in
  let data := ((λ bcc, ("bcc", bcc)) <$> bccAddresses email)
    ++ ((λ cc, ("cc", cc)) <$> ccAddresses email)
    ++ [("from", fromAddress email); ("subject", subject email); ("text", email_body email)]
    ++ ((λ to, ("to", to)) <$> toAddresses email) in
  status ← httpPostForm url data;
  Ok (bool_decide (status = 200%Z)).
End email.

(** ** What the checks guarantee *)

Lemma and_then_inr {A B} (c : Checked A) (k : A → Checked B) b :
  and_then c k = inr b → ∃ a, c = inr a ∧ k a = inr b.
Proof. destruct c; simpl; [done|eauto]. Qed.

(** Takes a successful check apart into its steps. *)
Ltac invert_checks :=
  repeat match goal with
  | E : and_then _ _ = inr _ |- _ =>
      let a := fresh "a" in let E' := fresh "E" in
      apply and_then_inr in E as (a & E' & E)
  end.

Lemma optional_inr {A} metadata name (as_type : Json → Checked A) o :
  optional metadata name as_type = inr o →
  o = None ∨ ∃ v a, o = Some a ∧ as_type v = inr a.
Proof.
  unfold optional. destruct (find_member name metadata) as [v|]; [|intros [= <-]; by left].
  intros (a & Ha & [= <-])%and_then_inr. right. eauto.
Qed.

Lemma wp_checked {W A} (c : Checked A) (k : A → M W Response) Q w :
  (∀ a, c = inr a → wp (k a) Q w) → (∀ r, Q (Ok r) w) → wp (checked c k) Q w.
Proof. intros Hk Hr. destruct c as [r|a]; simpl; [apply wp_ret, Hr|by apply Hk]. Qed.

(** A check of the body fails with status 400 or ends the process. *)
Definition refusal (r : Response) : Prop :=
  (∃ body, r = Reply 400 body) ∨ r = AssertionFailed.

Definition refuses {A} (c : Checked A) : Prop := ∀ r, c = inl r → refusal r.

Lemma refuses_failure msg {A} : refuses (A := A) (inl (failure 400 msg)).
Proof. intros r [= <-]. left. by eexists. Qed.

Lemma refuses_inr {A} (a : A) : refuses (inr a).
Proof. by intros r [=]. Qed.

Lemma refuses_and_then {A B} (c : Checked A) (k : A → Checked B) :
  refuses c → (∀ a, refuses (k a)) → refuses (and_then c k).
Proof.
  intros Hc Hk. destruct c as [r|a]; simpl; [|apply Hk].
  intros r' [= <-]. by apply Hc.
Qed.

Lemma refuses_body `{!JsonParser} req : refuses (body_members req).
Proof.
  unfold body_members. case_match; try apply refuses_failure; try apply refuses_inr;
    intros r [= <-]; by right.
Qed.

Lemma refuses_metadata_in members missing wrong : refuses (metadata_in members missing wrong).
Proof. unfold metadata_in. repeat case_match; try apply refuses_failure; apply refuses_inr. Qed.

Lemma refuses_metadata `{!JsonParser} req missing wrong : refuses (metadata_of req missing wrong).
Proof. apply refuses_and_then; [apply refuses_body|intros; apply refuses_metadata_in]. Qed.

Lemma refuses_string wrong v : refuses (as_string wrong v).
Proof. destruct v; try apply refuses_failure. apply refuses_inr. Qed.

Lemma refuses_required_string metadata name missing wrong :
  refuses (required_string metadata name missing wrong).
Proof.
  apply refuses_and_then; [|intros; apply refuses_string]. unfold required.
  case_match; [apply refuses_inr|apply refuses_failure].
Qed.

Lemma refuses_optional {A} metadata name (as_type : Json → Checked A) :
  (∀ v, refuses (as_type v)) → refuses (optional metadata name as_type).
Proof.
  intros Ht. unfold optional. case_match; [|apply refuses_inr].
  apply refuses_and_then; [done|]. intros a. apply refuses_inr.
Qed.

