(* ===== verification/Geocoder.v ===== *)
(** Looking up what is at a place (src/Geocoder.cpp, include/Geocoder.h), and completing the
    location of a cluster with it (supplementLocation in src/ClusterCommands.cpp). The service
    that knows is reached with an HTTP request, which is a parameter. *)

From stdpp Require Import pretty.
From S2P Require Import Prelude Text Entities Cache Dynamo Store Demo Kubernetes Http.

(** [httpRequests::httpGet], which gives the status and the body of the response or throws its
    message, and [std::to_string] of a [double]. *)
Class Web `{Platform} := {
  httpGet : string → FS → (string + (Z * string)) * FS;
  to_string : double → string }.

(** * Numbers of a document *)

(** [IsDouble]: the number is written with a fraction or an exponent. *)
Definition is_double (s : string) : bool :=
  match find_first (λ c, char_is "."%char c || char_is "e"%char c || char_is "E"%char c) s with
  | Some _ => true
  | None => false
  end.

(** [v.HasMember(name) && v[name].IsString()], and its value *)
Definition string_member (name : string) (members : list (string * Json)) : option string :=
  match find_member name members with Some (JString s) => Some (c_str s) | _ => None end.

Definition double_member (name : string) (members : list (string * Json)) : option string :=
  match find_member name members with
  | Some (JNumber s) => if is_double s then Some s else None
  | _ => None
  end.

Definition uint64_member (name : string) (members : list (string * Json)) : option Z :=
  match find_member name members with
  | Some (JNumber s) =>
      if negb (str_empty s) && str_all isdigit s && (decimal 0 s <? 2 ^ 64)%Z
      then Some (decimal 0 s) else None
  | _ => None
  end.

(** [error.description] *)
Definition described_error (members : list (string * Json)) : option string :=
  match find_member "error" members with
  | Some (JObject error) => string_member "description" error
  | _ => None
  end.

(** * [Geocoder] *)

Module GeocodeResult.
(** A number that is not in the response has no value ([None]). *)
Record t := mk {
  latitude : option string; longitude : option string; error : string; geocode : string;
  geonumber : option Z; timezone : string; city : string; countryCode : string;
  countryName : string }.

Definition failed (error : string) : t := mk None None error "" None "" "" "" "".
Definition ok (r : t) : bool := str_empty (error r).
End GeocodeResult.

Module Geocoder.
Record t := mk { serviceURL : string; serviceAuthToken : string }.

Definition canGeocode (g : t) : bool :=
  negb (str_empty (serviceURL g)) && negb (str_empty (serviceAuthToken g)).

Section lookup.
Context `{D : Dynamo} `{P : Platform} `{J : !JsonParser} `{W : !Web}.

Definition requestURL (g : t) (loc : GeoLocation.t) : string :=
  serviceURL g +:+ "/" +:+ to_string (GeoLocation.lat loc) +:+ "," +:+
  to_string (GeoLocation.lon loc) +:+ "?json=1&auth=" +:+ serviceAuthToken g.

(** The status is no success. *)
Definition http_error (status : Z) (body : Json) : GeocodeResult.t :=
  GeocodeResult.failed ("HTTP Error " +:+ pretty status +:+
    match body with
    | JObject members =>
        match described_error members with Some text => ": " +:+ text | None => "" end
    | _ => ""
    end).

Definition result_of (members : list (string * Json)) : GeocodeResult.t :=
  GeocodeResult.mk (double_member "latt" members) (double_member "longt" members)
    (default "" (described_error members))
    (default "" (string_member "geocode" members)) (uint64_member "geonumber" members)
    (default "" (string_member "timezone" members)) (default "" (string_member "city" members))
    (default "" (string_member "prov" members))
    match string_member "countryname" members with
    | Some name => name
    | None => default "" (string_member "country" members)
    end.

Definition reverseLookup (g : t) (loc : GeoLocation.t) : Store GeocodeResult.t :=
  r ← system (httpGet (requestURL g loc));
  match r with
  | inl e => throw e
  | inr (status, body) =>
      let body := Parse (c_str body) in
      if negb (bool_decide (status = 200%Z)) then mret (http_error status body)
      else mret (match body with
                 | JObject members => result_of members
                 | _ => GeocodeResult.failed "Failed to parse response JSON"
                 end)
  end.
End lookup.
End Geocoder.

(** * Completing a location *)

Section supplement.
Context `{D : Dynamo} `{P : Platform} `{J : !JsonParser} `{W : !Web}.

Definition describe (loc : GeoLocation.t) (geoData : GeocodeResult.t) : string :=
  let description := if str_empty (GeocodeResult.city geoData) then GeoLocation.description loc
                     else GeocodeResult.city geoData in
  if str_empty (GeocodeResult.countryName geoData) then description
  else description +:+ (if str_empty description then "" else ", ")
       +:+ GeocodeResult.countryName geoData.

(** The new location is written and read again for the log, which throws [bad_lexical_cast]
    when it cannot be read. *)
Definition supplementLocation (geocoder : Geocoder.t) (loc : GeoLocation.t) : Store GeoLocation.t :=
  if negb (Geocoder.canGeocode geocoder) then mret loc else
  geoData ← Geocoder.reverseLookup geocoder loc;
  if negb (GeocodeResult.ok geoData) then mret loc else
  let loc := GeoLocation.mk _ (GeoLocation.lat loc) (GeoLocation.lon loc) (describe loc geoData) in
  match GeoLocation.read (GeoLocation.show loc) with
  | Some _ => mret loc
  | None => throw "bad lexical cast: source type value could not be interpreted as target"
  end.

(** A location is completed in its description alone. *)
Lemma supplement_place geocoder loc w :
  wp (supplementLocation geocoder loc) (λ r w', inside w' = inside w ∧
    ∀ loc', r = Ok loc' → GeoLocation.lat loc' = GeoLocation.lat loc ∧
      GeoLocation.lon loc' = GeoLocation.lon loc) w.
Proof.
  unfold supplementLocation. destruct (negb _).
  { apply wp_ret. split; [done|]. by intros ? [= <-]. }
  unfold Geocoder.reverseLookup, wp, mbind, M_bind, system. simpl.
  destruct (httpGet _ _).1 as [e|[status body]]; [by split|].
  destruct (negb (bool_decide _)); simpl.
  { split; [done|]. by intros ? [= <-]. }
  destruct (negb _); simpl; [split; [done|by intros ? [= <-]]|].
  destruct (GeoLocation.read _); simpl; (split; [done|]); intros ? [=]; by subst.
Qed.
End supplement.

(** * A service to try it on *)

Module DemoGeocoder.
Import Demo.
Local Instance demo_json : JsonParser := λ _,
  JObject [("city", JString "Chicago"); ("country", JString "United States")].
Local Instance demo_web : Web := {
  httpGet url files := (inr (200%Z, url), files);
  to_string z := pretty z }.

Example supplemented :
  (supplementLocation (Geocoder.mk "https://geocode.xyz" "token")
     (GeoLocation.mk _ 1%Z 0%Z "") Demo.empty).1
  = Ok (GeoLocation.mk _ 1%Z 0%Z "Chicago, United States").
Proof. vm_compute. done. Qed.
End DemoGeocoder.
