(* ===== verification/UserCommands.v ===== *)
(** The handlers of the requests about users (src/UserCommands.cpp).

    The names are those of the source: where a handler has the name of the store's
    operation it calls, the operation is written with its file. The IDs and tokens that
    [idGenerator] draws are arguments. *)

From S2P Require Import Prelude Entities Cache Dynamo Store Demo Listing StoreGroups.
From S2P Require Import StoreUsers StoreMembership Directory Http.

Section handlers.
Context `{D : Dynamo} `{P : Platform} `{J : !JsonParser} `{E : !Mailer}.

Definition apiVersion : string * Json := ("apiVersion", JString "v1alpha3").
Definition strings (l : list string) : Json := JArray (JString <$> l).

Definition listUsers (fuel : nat) (req : Request) : Store Response :=
  user ← authenticateUser (param req "token");
  if negb (User.valid user) then mret (failure 403 "User not authorized") else
  users ← (match param req "group" with
           | Some group => listUsersByGroup group
           | None => StoreUsers.listUsers fuel
           end);
  let items := (λ u, JObject
    [apiVersion; ("kind", JString "User");
     ("metadata", JObject
        [("id", StringRef (User.id u)); ("name", StringRef (User.name u));
         ("email", StringRef (User.email u)); ("phone", StringRef (User.phone u));
         ("institution", StringRef (User.institution u))])]) <$> users in
  mret (reply [apiVersion; ("items", JArray items)]).

(** The checks of the body of [createUser], in the order of the source. *)
Definition new_user_of (req : Request) (newID newToken : string) : Checked User.t :=
  metadata ←? metadata_of req "Missing user metadata in request"
                "Incorrect type for configuration";
  globusID ←? required_string metadata "globusID" "Missing user globus ID in request"
                "Incorrect type for user globus ID";
  name ←? required_string metadata "name" "Missing user name in request"
            "Incorrect type for user name";
  email ←? required_string metadata "email" "Missing user email in request"
             "Incorrect type for user email";
  phone ←? required_string metadata "phone" "Missing user phone in request"
             "Incorrect type for user phone";
  institution ←? required_string metadata "institution" "Missing user institution in request"
                   "Incorrect type for user institution";
  v ←? required metadata "admin" "Missing admin flag in request";
  admin ←? as_bool "Incorrect type for user admin flag" v;
  inr (User.mk true newID name email phone institution newToken globusID admin).

(** The description of a user in a reply. *)
Definition user_metadata (u : User.t) (groups : list string) : Json := JObject
  [("id", StringRef (User.id u)); ("name", StringRef (User.name u));
   ("email", StringRef (User.email u)); ("phone", StringRef (User.phone u));
   ("institution", StringRef (User.institution u));
   ("access_token", StringRef (User.token u)); ("admin", JBool (User.admin u));
   ("groups", strings groups)].

Definition createUser (newID newToken : string) (req : Request) : Store Response :=
  user ← authenticateUser (param req "token");
  if negb (User.valid user) then mret (failure 403 "Not authorized") else
  if negb (User.admin user) then mret (failure 403 "Not authorized") else
  checked (new_user_of req newID newToken) (λ targetUser,
    existing ← findUserByGlobusID (User.globusID targetUser);
    if User.valid existing then mret (failure 400 "Globus ID is already registered") else
    created ← addUser targetUser;
    if negb created then mret (failure 500 "User account creation failed") else
    mret (reply [apiVersion; ("metadata", user_metadata targetUser [])])).

Definition getUserInfo (uID : string) (req : Request) : Store Response :=
  user ← authenticateUser (param req "token");
  if negb (User.valid user) then mret (failure 403 "User not authorized") else
  if negb (User.admin user) && negb (bool_decide (User.id user = uID))
  then mret (failure 403 "User not authorized") else
  targetUser ← getUser uID;
  if negb (User.valid targetUser) then mret (failure 404 "Not found") else
  groups ← getUserGroupMemberships uID true;
  mret (reply [apiVersion; ("kind", JString "User");
               ("metadata", user_metadata targetUser groups)]).

Definition whoAreThey (req : Request) : Store Response :=
  user ← authenticateUser (param req "token");
  if negb (User.valid user) then mret (failure 403 "User not found") else
  groups ← getUserGroupMemberships (User.id user) true;
  mret (reply [apiVersion; ("kind", JString "User");
               ("metadata", user_metadata user groups)]).

(** What the body of [updateUser] makes of the user; the admin flag may only be given by
    an administrator. *)
Definition updated_user (req : Request) (user targetUser : User.t) : Checked User.t :=
  metadata ←? metadata_of req "Missing user metadata in request"
                "Incorrect type for user metadata";
  name ←? optional metadata "name" (as_string "Incorrect type for user name");
  email ←? optional metadata "email" (as_string "Incorrect type for user email");
  phone ←? optional metadata "phone" (as_string "Incorrect type for user phone");
  institution ←? optional metadata "institution"
                   (as_string "Incorrect type for user institution");
  admin ←? optional metadata "admin" (λ v,
             b ←? as_bool "Incorrect type for user admin flag" v;
             if negb (User.admin user) then inl (failure 403 "User not authorized") else inr b);
  inr (User.mk (User.valid targetUser) (User.id targetUser)
         (default (User.name targetUser) name) (default (User.email targetUser) email)
         (default (User.phone targetUser) phone)
         (default (User.institution targetUser) institution)
         (User.token targetUser) (User.globusID targetUser)
         (default (User.admin targetUser) admin)).

Definition updateUser (uID : string) (req : Request) : Store Response :=
  user ← authenticateUser (param req "token");
  if negb (User.valid user) then mret (failure 403 "User not authorized") else
  if negb (User.admin user) && negb (bool_decide (User.id user = uID))
  then mret (failure 403 "User not authorized") else
  targetUser ← getUser uID;
  if negb (User.valid targetUser) then mret (failure 404 "User not found") else
  checked (updated_user req user targetUser) (λ updatedUser,
    updated ← StoreUsers.updateUser updatedUser targetUser;
    if negb updated then mret (failure 500 "User account update failed")
    else mret done_reply).

Definition deletion_notice (u : User.t) : Email :=
  mkEmail "noreply@slate.io" [User.email u] [] [] "SLATE account deleted"
    ("This is an automatic notification that your SLATE user account (" +:+ User.name u
     +:+ ", " +:+ User.id u +:+ ") has been deleted.").

Definition deleteUser (uID : string) (req : Request) : Store Response :=
  user ← authenticateUser (param req "token");
  if negb (User.valid user) then mret (failure 403 "Not authorized") else
  if negb (User.admin user) && negb (bool_decide (User.id user = uID))
  then mret (failure 403 "Not authorized") else
  targetUser ← (if bool_decide (User.id user = uID) then mret user else getUser uID);
  if negb (User.valid targetUser) then mret (failure 404 "User not found") else
  groupMembershipList ← getUserGroupMemberships uID false;
  _ ← for_each groupMembershipList (λ groupID,
        _ ← StoreMembership.removeUserFromGroup uID groupID; mret tt);
  deleted ← removeUser uID;
  if negb deleted then mret (failure 500 "User account deletion failed") else
  _ ← lift (sendEmail (deletion_notice targetUser));
  mret done_reply.

Definition listUsergroups (uID : string) (req : Request) : Store Response :=
  user ← authenticateUser (param req "token");
  if negb (User.valid user) then mret (failure 403 "Not authorized") else
  targetUser ← (if bool_decide (User.id user = uID) then mret user else getUser uID);
  if negb (User.valid targetUser) then mret (failure 404 "User not found") else
  groupMembershipList ← getUserGroupMemberships uID true;
  items ← for_collect groupMembershipList (λ groupName,
    group ← findGroupByName groupName;
    mret (JObject [apiVersion; ("kind", JString "Group");
                   ("metadata", JObject [("name", JString groupName);
                                         ("id", JString (Group.id group))])]));
  mret (reply [apiVersion; ("items", JArray items)]).

Definition addUserToGroup (uID groupID : string) (req : Request) : Store Response :=
  user ← authenticateUser (param req "token");
  if negb (User.valid user) then mret (failure 403 "Not authorized") else
  targetUser ← getUser uID;
  if negb (User.valid targetUser) then mret (failure 404 "User not found") else
  group ← getGroup groupID;
  if negb (Group.valid group) then mret (failure 404 "Group not found") else
  allowed ← (if User.admin user then mret true else userInGroup (User.id user) groupID);
  if negb allowed then mret (failure 403 "Not authorized") else
  success ← StoreMembership.addUserToGroup uID groupID;
  if negb success then mret (failure 500 "User addition to Group failed")
  else mret done_reply.

Definition removeUserFromGroup (uID groupID : string) (req : Request) : Store Response :=
  user ← authenticateUser (param req "token");
  if negb (User.valid user) then mret (failure 403 "Not authorized") else
  targetUser ← getUser uID;
  if negb (User.valid targetUser) then mret (failure 404 "User not found") else
  allowed ← (if User.admin user then mret true else userInGroup (User.id user) groupID);
  if negb allowed then mret (failure 403 "Not authorized") else
  success ← StoreMembership.removeUserFromGroup uID groupID;
  if negb success then mret (failure 500 "User removal from Group failed")
  else mret done_reply.

Definition findUser (req : Request) : Store Response :=
  user ← authenticateUser (param req "token");
  if negb (User.valid user) || negb (User.admin user)
  then mret (failure 403 "Not authorized") else
  match param req "globus_id" with
  | None => mret (failure 400 "Missing globus ID in request")
  | Some globusID =>
      targetUser ← findUserByGlobusID globusID;
      if negb (User.valid targetUser) then mret (failure 404 "User not found") else
      mret (reply [apiVersion; ("kind", JString "User");
                   ("metadata", JObject
                      [("id", StringRef (User.id targetUser));
                       ("access_token", StringRef (User.token targetUser))])])
  end.

Definition with_token (u : User.t) (token : string) : User.t :=
  User.mk (User.valid u) (User.id u) (User.name u) (User.email u) (User.phone u)
    (User.institution u) token (User.globusID u) (User.admin u).

Definition token_notice (u : User.t) : Email :=
  mkEmail "noreply@slate.io" [User.email u] [] [] "SLATE account credentials updated"
    ("This is an automatic notification that your SLATE user account (" +:+ User.name u
     +:+ ", " +:+ User.id u +:+ ") has had its access token replaced. This should not affect "
     +:+ "how you log into the SLATE web portal, but if you use the slate CLI tool you will "
     +:+ "need to download your updated token from https://portal.slateci.io/cli").

Definition replaceUserToken (newToken uID : string) (req : Request) : Store Response :=
  user ← authenticateUser (param req "token");
  if negb (User.valid user) then mret (failure 403 "Not authorized") else
  if negb (User.admin user) && negb (bool_decide (User.id user = uID))
  then mret (failure 403 "Not authorized") else
  targetUser ← getUser uID;
  if negb (User.valid targetUser) then mret (failure 404 "User not found") else
  let updatedUser := with_token targetUser newToken in
  updated ← StoreUsers.updateUser updatedUser targetUser;
  if negb updated then mret (failure 500 "User account update failed") else
  _ ← lift (sendEmail (token_notice targetUser));
  mret (reply [apiVersion; ("kind", JString "User");
               ("metadata", JObject [("id", JString (User.id updatedUser));
                                     ("access_token", JString (User.token updatedUser))])]).
End handlers.

(** * What a request does to the directory *)

Section served.
Context `{D : Dynamo} `{P : Platform} `{L : !DynamoLaws}.

(** A request changes the directory only by actions of the user it is made by. *)
Definition served (token : option string) (w : World) (r : Res Response) (w' : World) : Prop :=
  ServerInv w' ∧ (healthy (db w) → healthy (db w')) ∧
  (same_directory (directory w) (directory w') ∨
   ∃ u, requester w token u ∧ actions u (directory w) (directory w')).

Lemma served_looked_up token w r w' : ServerInv w' → read_only w w' → served token w r w'.
Proof.
  intros Hi Hro. split; [done|]. split; [apply Hro|]. left. by apply read_only_directory.
Qed.

Lemma looks_up_served (m : Store Response) token w :
  looks_up m → ServerInv w → wp m (served token w) w.
Proof. intros Hm Hi. destruct (Hm w Hi). by apply served_looked_up. Qed.

Lemma served_actions token w w1 w' r u :
  requester w token u → read_only w w1 → ServerInv w' → (healthy (db w1) → healthy (db w')) →
  actions u (directory w1) (directory w') → served token w r w'.
Proof.
  intros Hu Hro Hi Hh Ha. split; [done|]. split; [intros Hd; by apply Hh, Hro|]. right.
  exists u. split; [done|]. apply read_only_directory in Hro.
  eapply more_actions; [by apply no_action|done].
Qed.

Lemma served_same token w w1 w' r :
  read_only w w1 → ServerInv w' → (healthy (db w1) → healthy (db w')) →
  same_directory (directory w1) (directory w') → served token w r w'.
Proof.
  intros Hro Hi Hh Hs. split; [done|]. split; [intros Hd; by apply Hh, Hro|]. left.
  etrans; [by apply read_only_directory|done].
Qed.

(** The beginning of every handler. *)
Lemma wp_authenticated token msg (k : User.t → Store Response) Q w :
  ServerInv w →
  (∀ u w', requester w token u → ServerInv w' → read_only w w' → wp (k u) Q w') →
  (∀ w', ServerInv w' → read_only w w' → Q (Ok (failure 403 msg)) w') →
  wp (user ← authenticateUser token;
      if negb (User.valid user) then mret (failure 403 msg) else k user) Q w.
Proof.
  intros Hi Hk Hr. eapply wp_seq; [by apply authenticateUser_found| | |].
  2: { by intros e w' (_ & _ & u & [=] & _). }
  2: { by intros w' (_ & _ & u & [=] & _). }
  intros u w' (Hi' & Hro & u' & [= <-] & Hv & _).
  destruct (User.valid u); simpl; [by apply Hk; auto|by apply wp_ret, Hr].
Qed.

(** A lookup by key in the middle of a handler. *)
Lemma wp_getUser id (k : User.t → Store Response) Q w0 w :
  ServerInv w → read_only w0 w →
  (∀ x w', ServerInv w' → read_only w0 w' → User.valid x = true → User.id x = id →
    is_user w' x → wp (k x) Q w') →
  (∀ w', ServerInv w' → read_only w0 w' → wp (k User.none) Q w') →
  wp (getUser id ≫= k) Q w.
Proof.
  intros Hi Hro Hk Hn. eapply wp_seq; [by apply getUser_found| |by intros ? ? (_ & _ & [])
                                      |by intros ? (_ & _ & [])].
  intros x w' (Hi' & Hro' & [(Hv & Hid & Hx)|[-> _]]).
  - apply Hk; [done|by etrans|done|done|]. by apply (read_only_directory _ _ Hro').
  - apply Hn; [done|by etrans].
Qed.

(** The new version of a stored user that keeps the ID and the Globus ID. *)
Lemma compatible_update w old new :
  ServerInv w → is_user w old → User.valid new = true → User.id new = User.id old →
  User.globusID new = User.globusID old →
  (User.token new = User.token old ∨ ∀ u, is_user w u → User.token u ≠ User.token new) →
  compatible_user (table w SLATE_users) new.
Proof.
  intros Hi Ho Hv Hid Hg Ht. pose proof (di_users _ (si_directory _ Hi)) as Hu.
  split; [done|]. split; [rewrite Hid; by apply (ui_nonempty _ _ Hu)|].
  intros u' Hu' Hne. split.
  - destruct Ht as [Ht|Ht]; [|by apply Ht]. intros E. apply Hne. rewrite Hid.
    apply (ui_tokens _ _ Hu); [done..|congruence].
  - intros E. apply Hne. rewrite Hid. apply (ui_globusIDs _ _ Hu); [done..|congruence].
Qed.

End served.

Section handler_proofs.
Context `{D : Dynamo} `{P : Platform} `{L : !DynamoLaws} `{J : !JsonParser} `{E : !Mailer}.

Lemma manages_check (user : User.t) uID :
  negb (User.admin user) && negb (bool_decide (User.id user = uID)) = false →
  may_manage user uID.
Proof.
  unfold may_manage. destruct (User.admin user); [by left|]. simpl.
  case_bool_decide; [by right|done].
Qed.

Lemma new_user_of_inr req newID newToken x :
  new_user_of req newID newToken = inr x →
  User.valid x = true ∧ User.id x = newID ∧ User.token x = newToken.
Proof. unfold new_user_of. intros Hx. invert_checks. by injection Hx as <-. Qed.

Lemma updated_user_inr req user target x :
  updated_user req user target = inr x →
  User.valid x = User.valid target ∧ User.id x = User.id target ∧
  User.token x = User.token target ∧ User.globusID x = User.globusID target ∧
  (User.admin x = User.admin target ∨ User.admin user = true).
Proof.
  unfold updated_user. intros Hx. invert_checks. injection Hx as <-. simpl.
  split_and!; [done..|].
  match goal with E : optional _ "admin" _ = inr ?o |- _ =>
    apply optional_inr in E as [->|(v & b & -> & E)] end; [by left|].
  invert_checks. destruct (User.admin user); [by right|done].
Qed.

(** ** The handlers that only look things up *)

Lemma listUsers_looks_up fuel req : looks_up (listUsers fuel req).
Proof.
  unfold listUsers. apply looks_up_bind; [auto with lookups|]. intros user.
  case_match; [auto with lookups|].
  apply looks_up_bind; [case_match; auto with lookups|auto with lookups].
Qed.

Lemma getUserInfo_looks_up uID req : looks_up (getUserInfo uID req).
Proof.
  unfold getUserInfo. apply looks_up_bind; [auto with lookups|]. intros user.
  case_match; [auto with lookups|]. case_match; [auto with lookups|].
  apply looks_up_bind; [auto with lookups|]. intros x. case_match; [auto with lookups|].
  apply looks_up_bind; auto with lookups.
Qed.

Lemma whoAreThey_looks_up req : looks_up (whoAreThey req).
Proof.
  unfold whoAreThey. apply looks_up_bind; [auto with lookups|]. intros user.
  case_match; [auto with lookups|]. apply looks_up_bind; auto with lookups.
Qed.

Lemma listUsergroups_looks_up uID req : looks_up (listUsergroups uID req).
Proof.
  unfold listUsergroups. apply looks_up_bind; [auto with lookups|]. intros user.
  case_match; [auto with lookups|].
  apply looks_up_bind; [case_match; auto with lookups|]. intros x.
  case_match; [auto with lookups|].
  apply looks_up_bind; [auto with lookups|]. intros l.
  apply looks_up_bind; [|auto with lookups]. apply looks_up_for_collect. intros name.
  apply looks_up_bind; auto with lookups.
Qed.

Lemma findUser_looks_up req : looks_up (findUser req).
Proof.
  unfold findUser. apply looks_up_bind; [auto with lookups|]. intros user.
  case_match; [auto with lookups|]. case_match; [|auto with lookups].
  apply looks_up_bind; [auto with lookups|]. intros x. case_match; auto with lookups.
Qed.

(** ** The handlers that change something *)

Definition fresh_user (w : World) (newID newToken : string) : Prop :=
  newID ≠ "" ∧ ∀ u, is_user w u → User.id u ≠ newID ∧ User.token u ≠ newToken.

Lemma createUser_served newID newToken req w :
  ServerInv w → healthy (db w) → fresh_user w newID newToken →
  wp (createUser newID newToken req) (served (param req "token") w) w.
Proof.
  intros Hi Hd [Hne Hf]. unfold createUser. apply wp_authenticated; [done| |].
  2: { intros. by apply served_looked_up. }
  intros u w1 Hu Hi1 Hro1. destruct (User.admin u) eqn:Ha; simpl.
  2: { by apply served_looked_up. }
  apply wp_checked; [|intros; by apply served_looked_up].
  intros x (Hv & Hid & Ht)%new_user_of_inr.
  eapply wp_seq; [by apply findUserByGlobusID_found| |by intros ? ? (_ & _ & [])
                 |by intros ? (_ & _ & [])].
  intros existing w2 (Hi2 & Hro2 & Hex). assert (Hro : read_only w w2) by by etrans.
  destruct Hex as [(Hvx & _)|[-> Hno]]; [rewrite Hvx; by apply served_looked_up|simpl].
  assert (Hnew : new_to (directory w2) x).
  { intros y Hy. apply (read_only_directory _ _ Hro) in Hy as Hy0. simpl in Hy0.
    destruct (Hf y Hy0) as [? ?]. split_and!; [congruence..|].
    apply Hno; [by apply Hro1|]. by apply (read_only_directory _ _ Hro2). }
  eapply wp_seq; [apply addUser_changed; [done|]| | |].
  - split; [split_and!; [done|congruence|]|]; intros y Hy; [intros _|];
      destruct (Hnew y Hy) as (? & ? & ?); done.
  - intros b w3 (Hi3 & Hh3 & Hg3 & Hm3 & b' & [= <-] & Hb). destruct b; simpl.
    + eapply served_actions; [exact Hu|exact Hro|done|done|].
      eapply one_action, create_user; done.
    + apply (served_same _ w w2); [done..|]. by destruct Hb.
  - by intros e w3 (_ & _ & _ & _ & b' & [=] & _).
  - by intros w3 (_ & _ & _ & _ & b' & [=] & _).
Qed.

Lemma updateUser_served uID req w :
  ServerInv w → wp (updateUser uID req) (served (param req "token") w) w.
Proof.
  intros Hi. unfold updateUser. apply wp_authenticated; [done| |].
  2: { intros. by apply served_looked_up. }
  intros u w1 Hu Hi1 Hro1. case_match eqn:Hm; [by apply served_looked_up|].
  apply manages_check in Hm. apply (wp_getUser _ _ _ w); [done..| |].
  2: { intros. by apply served_looked_up. }
  intros target w2 Hi2 Hro Hv Hid Ht. rewrite Hv. simpl.
  apply wp_checked; [|intros; by apply served_looked_up].
  intros x (Hvx & Hidx & Htx & Hgx & Hax)%updated_user_inr.
  eapply wp_seq; [apply updateUser_changed; [done|done|done|done|]| | |].
  - eapply compatible_update; [done|exact Ht|congruence|done|done|by left].
  - intros b w3 (Hi3 & Hh3 & Hg3 & Hm3 & b' & [= <-] & Hb). destruct b; simpl.
    + eapply served_actions; [exact Hu|exact Hro|done|done|].
      eapply one_action, (update_user _ _ _ target x); try done. by rewrite Hid.
    + apply (served_same _ w w2); [done..|]. by destruct Hb.
  - by intros e w3 (_ & _ & _ & _ & b' & [=] & _).
  - by intros w3 (_ & _ & _ & _ & b' & [=] & _).
Qed.

Lemma replaceUserToken_served newToken uID req w :
  ServerInv w → (∀ u, is_user w u → User.token u ≠ newToken) →
  wp (replaceUserToken newToken uID req) (served (param req "token") w) w.
Proof.
  intros Hi Hf. unfold replaceUserToken. apply wp_authenticated; [done| |].
  2: { intros. by apply served_looked_up. }
  intros u w1 Hu Hi1 Hro1. case_match eqn:Hm; [by apply served_looked_up|].
  apply manages_check in Hm. apply (wp_getUser _ _ _ w); [done..| |].
  2: { intros. by apply served_looked_up. }
  intros target w2 Hi2 Hro Hv Hid Ht. rewrite Hv. simpl.
  eapply wp_seq; [apply updateUser_changed; [done|done|done|done|]| | |].
  - eapply compatible_update; [done|exact Ht|done|done|done|]. right.
    intros y Hy. by apply Hf, (read_only_directory _ _ Hro).
  - intros b w3 (Hi3 & Hh3 & Hg3 & Hm3 & b' & [= <-] & Hb). destruct b; simpl.
    + assert (Hs : ∀ r, served (param req "token") w r w3).
      { intros r. eapply served_actions; [exact Hu|exact Hro|done|done|].
        eapply one_action, (replace_token _ _ _ target (with_token target newToken)); try done.
        by rewrite Hid. }
      eapply (wp_seq (λ _ w', w' = w3)); [done| | |]; intros; subst; apply Hs.
    + apply (served_same _ w w2); [done..|]. by destruct Hb.
  - by intros e w3 (_ & _ & _ & _ & b' & [=] & _).
  - by intros w3 (_ & _ & _ & _ & b' & [=] & _).
Qed.

(** Removing a user from groups one after the other. *)
Lemma leave_groups u uID groups w :
  ServerInv w → may_manage u uID →
  wp (for_each groups (λ groupID,
        _ ← StoreMembership.removeUserFromGroup uID groupID; mret tt))
    (λ r w', r = Ok tt ∧ ServerInv w' ∧ (healthy (db w) → healthy (db w')) ∧
       actions u (directory w) (directory w')) w.
Proof.
  intros Hi Hm. revert w Hi. induction groups as [|g groups IH]; intros w Hi; simpl.
  { split_and!; [done..|]. by apply no_action. }
  eapply wp_seq.
  { eapply wp_seq; [by apply removeUserFromGroup_changed| | |].
    - intros b w1 Hb. instantiate (1 := λ r w1, r = Ok tt ∧ ∃ b,
        members_changed uID g false w (Ok b) w1). split; [done|]. by exists b.
    - by intros e w1 (_ & _ & _ & _ & ok & [=] & _).
    - by intros w1 (_ & _ & _ & _ & ok & [=] & _). }
  2: { by intros e w1 [? _]. }
  2: { by intros w1 [? _]. }
  intros _ w1 (_ & b & Hi1 & Hh1 & Hu1 & Hg1 & ok & [= <-] & Hb).
  eapply wp_mono, IH; [|done]. intros r w2 (-> & Hi2 & Hh2 & Ha).
  split_and!; [done|done|auto|].
  assert (H1 : actions u (directory w) (directory w1)).
  { destruct b; [|apply no_action; split_and!; [done..|apply Hb]].
    destruct Hb as (gid & _ & Hset). apply one_action, (remove_member _ _ _ uID gid); [|done..].
    destruct Hm as [Ha'|Hid]; [left; by left|by right]. }
  by eapply more_actions.
Qed.

Lemma deleteUser_served uID req w :
  ServerInv w → wp (deleteUser uID req) (served (param req "token") w) w.
Proof.
  intros Hi. unfold deleteUser. apply wp_authenticated; [done| |].
  2: { intros. by apply served_looked_up. }
  intros u w1 Hu Hi1 Hro1. case_match eqn:Hm; [by apply served_looked_up|].
  apply manages_check in Hm.
  eapply (wp_seq (λ r w', ServerInv w' ∧ read_only w w')).
  { case_match; [by apply wp_ret|]. by apply looks_up_wp; [auto with lookups|..]. }
  2, 3: intros *; intros [? ?]; by apply served_looked_up.
  intros x w2 [Hi2 Hro2]. case_match; [by apply served_looked_up|].
  eapply (wp_seq (λ r w', ServerInv w' ∧ read_only w w')).
  { by apply looks_up_wp; [auto with lookups|..]. }
  2, 3: intros *; intros [? ?]; by apply served_looked_up.
  intros groups w3 [Hi3 Hro].
  eapply wp_seq; [by apply (leave_groups u)| |by intros e w4 [? _]|by intros w4 [? _]].
  intros _ w4 (_ & Hi4 & Hh4 & Ha4).
  eapply wp_seq; [by apply removeUser_changed| | |].
  - intros b w5 (Hi5 & Hh5 & Hg5 & Hm5 & b' & [= <-] & Hb).
    assert (Hs : ∀ r, served (param req "token") w r w5).
    { intros r. eapply served_actions; [exact Hu|exact Hro|done|auto|].
      eapply more_actions; [exact Ha4|]. destruct b.
      - by eapply one_action, delete_user.
      - apply no_action. by destruct Hb. }
    destruct b; simpl; [|apply Hs].
    eapply (wp_seq (λ _ w', w' = w5)); [done| | |]; intros; subst; apply Hs.
  - by intros e w5 (_ & _ & _ & _ & b' & [=] & _).
  - by intros w5 (_ & _ & _ & _ & b' & [=] & _).
Qed.

(** The check that the requester is an administrator or a member of the group. *)
Lemma wp_allowed u groupID (k : bool → Store Response) Q w0 w :
  ServerInv w → read_only w0 w → User.id u ≠ "" →
  (∀ w', ServerInv w' → read_only w0 w' →
    User.admin u = true ∨ (∃ gid, names w groupID gid ∧ is_member w (User.id u) gid) →
    wp (k true) Q w') →
  (∀ w', ServerInv w' → read_only w0 w' → wp (k false) Q w') →
  wp (allowed ← (if User.admin u then mret true else userInGroup (User.id u) groupID);
      k allowed) Q w.
Proof.
  intros Hi Hro Hne Hk Hn. destruct (User.admin u) eqn:Ha.
  { eapply wp_run; [reflexivity|]. apply Hk; auto. }
  eapply wp_seq; [by apply userInGroup_found| |by intros ? ? (_ & _ & ? & [=] & _)
                 |by intros ? (_ & _ & ? & [=] & _)].
  intros b w' (Hi' & Hro' & b' & [= <-] & Hb). assert (read_only w0 w') by by etrans.
  destruct b; [apply Hk|apply Hn]; auto.
Qed.

Lemma steers u groupID gid w w' :
  ServerInv w → same_directory (directory w) (directory w') →
  User.admin u = true ∨ (∃ gid, names w groupID gid ∧ is_member w (User.id u) gid) →
  names w' groupID gid → may_steer (directory w') u gid.
Proof.
  intros Hi (_ & Hsg & Hsm) [?|(g & Hn & Hm)] Hn'; [by left|right].
  apply Hsm. assert (gid = g) as ->; [|done]. eapply names_inj; [exact Hi| |exact Hn].
  eapply names_same; [|exact Hn']. intros x. symmetry. apply Hsg.
Qed.

(** The end of both handlers that change a membership. *)
Lemma membership_served token (m : Store bool) (b : bool) msg u uID groupID w w2 w1 :
  requester w token u → ServerInv w2 → read_only w w1 → read_only w2 w1 →
  wp m (members_changed uID groupID b w1) w1 → (b = true → ∃ x, is_user w1 x ∧ User.id x = uID) →
  (b = true → ∀ gid, names w1 groupID gid → ∃ g, is_group w1 g ∧ Group.id g = gid) →
  User.admin u = true ∨ (∃ gid, names w2 groupID gid ∧ is_member w2 (User.id u) gid) →
  wp (success ← m; if negb success then mret (failure 500 msg) else mret done_reply)
    (served token w) w1.
Proof.
  intros Hu Hi2 Hro Hro2 Hm Hx Hg Hal. eapply wp_seq; [exact Hm| | |].
  - intros ok w' (Hi' & Hh & Hus & Hgr & ok' & [= <-] & Hb). destruct ok; simpl.
    + destruct Hb as (gid & Hn & Hset). eapply served_actions; [exact Hu|exact Hro|done|done|].
      pose proof (steers u groupID gid w2 w1 Hi2 (read_only_directory _ _ Hro2) Hal Hn) as Hst.
      apply one_action. destruct b.
      * apply (add_member _ _ _ uID gid); auto.
      * apply (remove_member _ _ _ uID gid); auto.
    + apply (served_same _ w w1); [done..|]. split_and!; [done..|apply Hb].
  - by intros e w' (_ & _ & _ & _ & b' & [=] & _).
  - by intros w' (_ & _ & _ & _ & b' & [=] & _).
Qed.

Lemma addUserToGroup_served uID groupID req w :
  ServerInv w → wp (addUserToGroup uID groupID req) (served (param req "token") w) w.
Proof.
  intros Hi. unfold addUserToGroup. apply wp_authenticated; [done| |].
  2: { intros. by apply served_looked_up. }
  intros u w1 Hu Hi1 Hro1. apply (wp_getUser _ _ _ w); [done..| |].
  2: { intros. by apply served_looked_up. }
  intros x w2 Hi2 Hro2 Hv Hid Hx. rewrite Hv. simpl.
  eapply wp_seq; [by apply getGroup_found| |by intros ? ? (_ & _ & [])|by intros ? (_ & _ & [])].
  intros g w3 (Hi3 & Hro3 & Hg). assert (Hro : read_only w w3) by by etrans.
  destruct Hg as [(Hvg & Hn & Hg)|[-> _]]; [|by apply served_looked_up]. rewrite Hvg. simpl.
  apply (wp_allowed _ _ _ _ w3); [done|done|by eapply requester_id, Hu| |].
  2: { intros w4 Hi4 Hro4. apply served_looked_up; [done|]. by etrans. }
  intros w4 Hi4 Hro4 Hal. assert (Hr : same_directory (directory w2) (directory w4)).
  { etrans; by apply read_only_directory. }
  eapply (membership_served _ _ true); [exact Hu|exact Hi3|by etrans|done| | | |done].
  - by apply addUserToGroup_changed.
  - intros _. exists x. split; [by apply Hr|done].
  - intros _ gid Hnm. exists g. split; [by apply Hr|].
    eapply names_inj; [exact Hi4| |exact Hnm]. unfold names in *. revert Hn. case_match; [done|].
    intros Hn. exists g. split; [by apply Hr|done].
Qed.

Lemma removeUserFromGroup_served uID groupID req w :
  ServerInv w → wp (removeUserFromGroup uID groupID req) (served (param req "token") w) w.
Proof.
  intros Hi. unfold removeUserFromGroup. apply wp_authenticated; [done| |].
  2: { intros. by apply served_looked_up. }
  intros u w1 Hu Hi1 Hro1. apply (wp_getUser _ _ _ w); [done..| |].
  2: { intros. by apply served_looked_up. }
  intros x w2 Hi2 Hro2 Hv Hid Hx. rewrite Hv. simpl.
  apply (wp_allowed _ _ _ _ w2); [done|done|by eapply requester_id, Hu| |].
  2: { intros w4 Hi4 Hro4. apply served_looked_up; [done|]. by etrans. }
  intros w4 Hi4 Hro4 Hal.
  eapply (membership_served _ _ false); [exact Hu|exact Hi2|by etrans|done| |done|done|done].
  by apply removeUserFromGroup_changed.
Qed.
End handler_proofs.

(** * Functional behaviour *)

Section functional.
Context `{D : Dynamo} `{P : Platform} `{L : !DynamoLaws} `{J : !JsonParser} `{E : !Mailer}.

(** On an available service, the user a request is made by is found. *)
Lemma wp_requester token msg u (k : User.t → Store Response) Q w :
  ServerInv w → healthy (db w) → requester w token u →
  (∀ w', ServerInv w' → read_only w w' → wp (k u) Q w') →
  wp (user ← authenticateUser token;
      if negb (User.valid user) then mret (failure 403 msg) else k user) Q w.
Proof.
  intros Hi Hd Hu Hk. eapply wp_seq; [by apply authenticateUser_found| | |].
  2: { by intros e w' (_ & _ & x & [=] & _). }
  2: { by intros w' (_ & _ & x & [=] & _). }
  intros x w' (Hi' & Hro & x' & [= <-] & Hv & Hn).
  destruct (User.valid x) eqn:Hx; simpl.
  - assert (x = u) as ->; [|by apply Hk].
    pose proof (di_users _ (si_directory _ Hi)) as Hui.
    destruct (Hv eq_refl) as [Hxu Ht], Hu as [Huu Ht'].
    eapply stored_user_inj; [done..|]. apply (ui_tokens _ _ Hui); [done..|congruence].
  - by destruct (Hn eq_refl Hd u).
Qed.

Lemma wp_getUser_stored {A} x (k : User.t → Store A) Q w0 w :
  ServerInv w → healthy (db w) → read_only w0 w → is_user w x →
  (∀ w', ServerInv w' → read_only w0 w' → healthy (db w') → wp (k x) Q w') →
  wp (getUser (User.id x) ≫= k) Q w.
Proof.
  intros Hi Hd Hro Hx Hk.
  eapply wp_seq; [by apply getUser_found| |by intros ? ? (_ & _ & [])|by intros ? (_ & _ & [])].
  intros y w' (Hi' & Hro' & [(Hv & Hid & Hy)|[-> Hn]]).
  - assert (y = x) as -> by by eapply stored_user_inj.
    apply Hk; [done|by etrans|by apply Hro'].
  - by destruct (Hn Hd x).
Qed.

Lemma may_manage_check (user : User.t) uID :
  may_manage user uID → negb (User.admin user) && negb (bool_decide (User.id user = uID)) = false.
Proof.
  intros [->|Hid]; [done|]. rewrite bool_decide_true by done. by rewrite andb_false_r.
Qed.

(** Authentication, once it is known who has the token. *)
Lemma authenticate_known w t u :
  ServerInv w → healthy (db w) → is_user w u → User.token u = t →
  (authenticateUser (Some t) w).1 = Ok u.
Proof.
  intros Hi Hd Hu Ht. destruct (authenticateUser_found (Some t) w Hi) as (_ & _ & x & Hx & Hv & Hn).
  rewrite Hx. f_equal. destruct (User.valid x) eqn:Hvx.
  - destruct (Hv eq_refl) as [Hxs [= Htx]]. pose proof (di_users _ (si_directory _ Hi)) as Hui.
    eapply stored_user_inj; [done..|]. apply (ui_tokens _ _ Hui); [done..|congruence].
  - destruct (Hn eq_refl Hd u). by split; [|rewrite Ht].
Qed.

Lemma authenticate_unknown w t :
  ServerInv w → healthy (db w) → (∀ u, is_user w u → User.token u ≠ t) →
  (authenticateUser (Some t) w).1 = Ok User.none.
Proof.
  intros Hi Hd Hn. pose proof (authenticateUser_spec (Some t) w (di_users _ (si_directory _ Hi)))
    as (_ & _ & Hr).
  destruct (authenticateUser (Some t) w).1 as [u| |]; [|done..].
  destruct Hr as [(_ & Ht & Hu)|[-> _]]; [by destruct (Hn u)|done].
Qed.


(** A body that cannot be parsed is refused with status 400, but a body that is valid
    JSON and not an object - a number or an array, say - ends the process, since
    [HasMember] asserts that it is applied to an object: any user can do this with a
    request to update the own account. *)
Theorem malformed_bodies (req : Request) (u : User.t) (w : World) :
  ServerInv w → healthy (db w) → requester w (param req "token") u →
  wp (updateUser (User.id u) req) (λ r w',
    match Parse (c_str (req_body req)) with
    | JNull => r = Ok (failure 400 "Invalid JSON in request body") ∧ read_only w w'
    | JObject _ => True
    | _ => r = Ok AssertionFailed
    end) w.
Proof.
  intros Hi Hd Hu. unfold updateUser. apply (wp_requester _ _ u); [done..|].
  intros w1 Hi1 Hro1. rewrite may_manage_check by by right.
  apply (wp_getUser_stored u _ _ w);
    [done|by apply Hro1|done|apply (read_only_directory _ _ Hro1), Hu|].
  intros w2 Hi2 Hro Hd2. rewrite (stored_user_valid _ _ (proj1 Hu)). simpl.
  unfold updated_user, metadata_of, body_members. by destruct (Parse (c_str (req_body req))).
Qed.

(** Leaving groups given by their IDs, on an available service. *)
Lemma leave_groups_exact uID groups w :
  ServerInv w → healthy (db w) → Forall (λ g, begins_with g groupIDPrefix = true) groups →
  wp (for_each groups (λ groupID,
        _ ← StoreMembership.removeUserFromGroup uID groupID; mret tt))
    (λ r w', r = Ok tt ∧ ServerInv w' ∧ healthy (db w') ∧ same (is_user w) (is_user w') ∧
       same (is_group w) (is_group w') ∧
       ∀ v g, is_member w' v g ↔ is_member w v g ∧ ¬ (v = uID ∧ g ∈ groups)) w.
Proof.
  intros Hi Hd Hall. revert w Hi Hd. induction Hall as [|g groups Hg _ IH]; intros w Hi Hd; simpl.
  { split_and!; [done..|]. intros v g. split; [intros ?|by intros []].
    split; [done|]. by intros [_ ?%not_elem_of_nil]. }
  eapply (wp_seq (λ r w1, r = Ok tt ∧ members_changed uID g false w (Ok true) w1)).
  { eapply wp_seq; [by apply removeUserFromGroup_changed| |
      by intros e w1 (_ & _ & _ & _ & ok & [=] & _)|by intros w1 (_ & _ & _ & _ & ok & [=] & _)].
    intros b w1 Hb. destruct b; [by split|].
    destruct Hb as (_ & _ & _ & _ & ok & [= <-] & _ & Hno). destruct (Hno Hd g).
    unfold names. by rewrite Hg. }
  2: { by intros e w1 [? _]. }
  2: { by intros w1 [? _]. }
  intros _ w1 (_ & Hi1 & Hh1 & Hu1 & Hg1 & ok & [= <-] & gid & Hn & Hset).
  unfold names in Hn. rewrite Hg in Hn. subst gid.
  eapply wp_mono, IH; [|done|auto]. intros r w2 (-> & Hi2 & Hd2 & Hu2 & Hg2 & Hm2).
  split_and!; [done|done|done|by etrans|by etrans|]. intros v g'.
  rewrite Hm2. rewrite (Hset v g'). rewrite elem_of_cons. case_decide as Hx; [|naive_solver].
  destruct Hx as [-> ->]. naive_solver.
Qed.

(** Deleting an account: for the user and for an administrator, the user is not stored
    any more, is a member of no group, and no other user, membership or group changes. *)
Theorem deleted_user_is_gone (req : Request) (u x : User.t) (w : World) :
  ServerInv w → healthy (db w) → requester w (param req "token") u → is_user w x →
  may_manage u (User.id x) →
  wp (deleteUser (User.id x) req) (λ r w',
    r = match sendEmail (deletion_notice x) with
        | Ok _ => Ok done_reply | Throw e => Throw e | OutOfFuel => OutOfFuel end ∧
    ServerInv w' ∧ dropped User.id (User.id x) (is_user w) (is_user w') ∧
    same (is_group w) (is_group w') ∧
    ∀ v g, is_member w' v g ↔ is_member w v g ∧
      ¬ (v = User.id x ∧ begins_with g groupIDPrefix = true)) w.
Proof.
  intros Hi Hd Hu Hx Hm. unfold deleteUser. apply (wp_requester _ _ u); [done..|].
  intros w1 Hi1 Hro1. rewrite may_manage_check by done.
  eapply (wp_seq (λ r w', r = Ok x ∧ ServerInv w' ∧ read_only w w')).
  { case_bool_decide as Hid.
    - apply wp_ret. split; [|done]. f_equal. eapply stored_user_inj; [apply Hu|done|done].
    - apply wp_last. apply (wp_getUser_stored x _ _ w);
        [done|by apply Hro1|done|by apply (read_only_directory _ _ Hro1)|].
      intros w2 Hi2 Hro2 _. by apply wp_ret. }
  2: { by intros e w' [? _]. }
  2: { by intros w' [? _]. }
  intros x' w2 ([= ->] & Hi2 & Hro). rewrite (stored_user_valid _ _ Hx). simpl.
  eapply wp_seq; [apply getUserGroupMemberships_found; [done|by apply Hro]| |
    by intros e w3 (_ & l & [=] & _)|by intros w3 (_ & l & [=] & _)].
  intros groups w3 (Hq3 & l & [= <-] & Hl).
  assert (Hro3 : read_only w w3) by (etrans; [done|apply Hq3]).
  pose proof (read_only_directory _ _ Hro3) as (Su & Sg & Sm).
  pose proof (read_only_directory _ _ Hro) as (_ & _ & Sm2).
  eapply wp_seq; [apply leave_groups_exact; [by eapply quiet_ServerInv|by apply Hro3|]| |
    by intros e w4 [? _]|by intros w4 [? _]].
  { apply list.Forall_forall. by intros g [_ ?]%Hl. }
  intros _ w4 (_ & Hi4 & Hd4 & Hu4 & Hg4 & Hm4).
  eapply wp_seq; [by apply removeUser_changed| | |].
  - intros b w5 (Hi5 & Hh5 & Hg5 & Hm5 & b' & [= <-] & Hb).
    destruct b; [|by destruct Hb]. simpl.
    assert (Hpost : ServerInv w5 ∧ dropped User.id (User.id x) (is_user w) (is_user w5) ∧
      same (is_group w) (is_group w5) ∧
      ∀ v g, is_member w5 v g ↔ is_member w v g ∧
        ¬ (v = User.id x ∧ begins_with g groupIDPrefix = true)).
    { split_and!; [done| | |].
      - intros y. etrans; [apply Hb|]. rewrite (Hu4 y). by rewrite (Su y : is_user w3 y ↔ is_user w y).
      - etrans; [exact Sg|]. by etrans.
      - intros v g. etrans; [apply Hm5|]. simpl. rewrite Hm4, Hl.
        rewrite (Sm v g : is_member w3 v g ↔ is_member w v g).
        rewrite (Sm2 (User.id x) g : is_member w2 (User.id x) g ↔ is_member w (User.id x) g).
        naive_solver. }
    unfold lift. destruct (sendEmail (deletion_notice x)); unfold wp, mbind, M_bind; simpl; done.
  - by intros e w5 (_ & _ & _ & _ & b' & [=] & _).
  - by intros w5 (_ & _ & _ & _ & b' & [=] & _).
Qed.
End functional.
