(* ===== verification/GroupCommands.v ===== *)
(** The handlers of the requests about groups (src/GroupCommands.cpp). The
    deletion of a group is in ClusterLifecycle.v, with that of clusters. *)

From S2P Require Import Prelude Entities Cache Dynamo Store Demo Listing StoreGroups.
From S2P Require Import StoreUsers StoreMembership StoreClusters Directory Http UserCommands.

Definition scienceFields : list string :=
  ["Resource Provider"; "Astronomy"; "Astrophysics"; "Biology"; "Biochemistry";
   "Bioinformatics"; "Biomedical research"; "Biophysics"; "Botany"; "Cellular Biology";
   "Ecology"; "Evolutionary Biology"; "Microbiology"; "Molecular Biology"; "Neuroscience";
   "Physiology"; "Structural Biology"; "Zoology"; "Chemistry"; "Biochemistry";
   "Physical Chemistry"; "Earth Sciences"; "Economics"; "Education";
   "Educational Psychology"; "Engineering"; "Electronic Engineering"; "Nanoelectronics";
   "Mathematics & Computer Science"; "Computer Science"; "Geographic Information Science";
   "Information Theory"; "Mathematics"; "Medicine"; "Medical Imaging"; "Neuroscience";
   "Physiology"; "Logic"; "Statistics"; "Physics"; "Accelerator Physics";
   "Astro-particle Physics"; "Astrophysics"; "Biophysics";
   "Computational Condensed Matter Physics"; "Gravitational Physics"; "High Energy Physics";
   "Neutrino Physics"; "Nuclear Physics"; "Physical Chemistry"; "Psychology";
   "Child Psychology"; "Educational Psychology"; "Materials Science"; "Multidisciplinary";
   "Network Science"; "Technology"].

(** [std::tolower] in the C locale. *)
Definition tolower (c : ascii) : ascii :=
  let n := Ascii.nat_of_ascii c in
  if (65 <=? n) && (n <=? 90) then Ascii.ascii_of_nat (n + 32) else c.

(** The comparison of strings of the same size. *)
Fixpoint same_letters (raw field : string) : bool :=
  match raw, field with
  | String c raw, String d field =>
      if bool_decide (tolower c = tolower d) then same_letters raw field else false
  | _, _ => true
  end.

Fixpoint matching_field (raw : string) (fields : list string) : string :=
  match fields with
  | [] => ""
  | field :: fields =>
      if negb (str_size field =? str_size raw) then matching_field raw fields
      else if same_letters raw field then field else matching_field raw fields
  end.

Definition normalizeScienceField (raw : string) : string := matching_field raw scienceFields.

(** [s.back()=='-'] *)
Fixpoint ends_with_dash (s : string) : bool :=
  match s with
  | EmptyString => false
  | String c EmptyString => char_is c "-"%char
  | String _ s => ends_with_dash s
  end.

Definition or_blank (s : string) : string := if str_empty s then " " else s.

Section handlers.
Context `{D : Dynamo} `{P : Platform} `{J : !JsonParser}.

Definition group_json (g : Group.t) : Json := JObject
  [("id", StringRef (Group.id g)); ("name", StringRef (Group.name g));
   ("email", StringRef (Group.email g)); ("phone", StringRef (Group.phone g));
   ("scienceField", StringRef (Group.scienceField g));
   ("description", StringRef (Group.description g))].

Definition listGroups (fuel : nat) (req : Request) : Store Response :=
  user ← authenticateUser (param req "token");
  if negb (User.valid user) then mret (failure 403 "User not authorized") else
  vos ← (match param req "user" with
         | Some _ => listGroupsForUser (User.id user)
         | None => StoreGroups.listGroups fuel
         end);
  let items := (λ g, JObject [apiVersion; ("kind", JString "Group");
                              ("metadata", group_json g)]) <$> vos in
  mret (reply [apiVersion; ("items", JArray items)]).

(** The members of the body of [createGroup] with their types checked. *)
Record group_body := mkGroupBody {
  body_name : string; body_email : option string; body_phone : option string;
  body_scienceField : string; body_description : option string }.

Definition group_body_of (req : Request) : Checked group_body :=
  metadata ←? metadata_of req "Missing user metadata in request"
                "Incorrect type for configuration";
  name ←? required_string metadata "name" "Missing Group name in request"
            "Incorrect type for Group name";
  email ←? optional metadata "email" (as_string "Incorrect type for Group email");
  phone ←? optional metadata "phone" (as_string "Incorrect type for Group phone");
  scienceField ←? required_string metadata "scienceField"
                    "Missing Group scienceField in request"
                    "Incorrect type for Group scienceField";
  description ←? optional metadata "description"
                   (as_string "Incorrect type for Group description");
  inr (mkGroupBody name email phone scienceField description).

(** What the name of a new group must be. *)
Definition check_group_name (name : string) : Checked unit :=
  if str_empty name then
    inl (failure 400 "Group names may not be the empty string")
  else if negb (validTagGroupName name) then
    inl (failure 400 "Group names may only contain [a-z], [0-9] and -")
  else if ends_with_dash name then
    inl (failure 400 "Group names may not end with a dash")
  else if 54 <? str_size name then
    inl (failure 400 "Group names may not be more than 54 characters long")
  else if begins_with name groupIDPrefix then
    inl (failure 400 ("Group names may not begin with " +:+ groupIDPrefix))
  else inr tt.

Definition unknown_field : string :=
  "Unrecognized value for Group scienceField" +:+ String "010"%char EmptyString
  +:+ "See http://slateci.io/docs/science-fields for a list of accepted values".

(** The group to create, what is not given being taken from the user. *)
Definition new_group_of (newID : string) (user : User.t) (body : group_body) : Checked Group.t :=
  let email := or_blank (default (User.email user) (body_email body)) in
  let phone := or_blank (default (User.phone user) (body_phone body)) in
  let scienceField := normalizeScienceField (body_scienceField body) in
  if str_empty scienceField then inl (failure 400 unknown_field) else
  inr (Group.mk true newID (body_name body) email phone scienceField
         (or_blank (default "" (body_description body)))).

Definition createGroup (newID : string) (req : Request) : Store Response :=
  user ← authenticateUser (param req "token");
  if negb (User.valid user) then mret (failure 403 "User not authorized") else
  checked (group_body_of req) (λ body,
  checked (check_group_name (body_name body)) (λ _,
    existing ← findGroupByName (body_name body);
    if Group.valid existing then mret (failure 400 "Group name is already in use") else
  checked (new_group_of newID user body) (λ group,
    created ← addGroup group;
    if negb created then mret (failure 500 "Group creation failed") else
    added ← StoreMembership.addUserToGroup (User.id user) (Group.id group);
    if negb added
    then mret (failure 500 ("Failed to add creating user " +:+ User.show user
                            +:+ " to new Group " +:+ Group.show group))
    else mret (reply [apiVersion; ("kind", JString "Group"); ("metadata", group_json group)])))).

Definition getGroupInfo (groupID : string) (req : Request) : Store Response :=
  user ← authenticateUser (param req "token");
  if negb (User.valid user) then mret (failure 403 "User not authorized") else
  group ← getGroup groupID;
  if negb (Group.valid group) then mret (failure 404 "Group not found") else
  mret (reply [apiVersion; ("kind", JString "Group"); ("metadata", group_json group)]).

(** What the body of [updateGroup] makes of the group; nothing if it changes nothing. *)
Definition updated_group (req : Request) (g : Group.t) : Checked (option Group.t) :=
  metadata ←? metadata_of req "Missing Group metadata in request"
                "Incorrect type for metadata";
  email ←? optional metadata "email" (as_string "Incorrect type for email");
  phone ←? optional metadata "phone" (as_string "Incorrect type for phone");
  scienceField ←? optional metadata "scienceField" (λ v,
    raw ←? as_string "Incorrect type for scienceField" v;
    if str_empty (normalizeScienceField raw)
    then inl (failure 400 "Unrecognized value for Group scienceField")
    else inr (normalizeScienceField raw));
  description ←? optional metadata "description"
                   (as_string "Incorrect type for description");
  match email, phone, scienceField, description with
  | None, None, None, None => inr None
  | _, _, _, _ =>
      inr (Some (Group.mk (Group.valid g) (Group.id g) (Group.name g)
        (default (Group.email g) email) (default (Group.phone g) phone)
        (default (Group.scienceField g) scienceField)
        (default (Group.description g) description)))
  end.

Definition updateGroup (groupID : string) (req : Request) : Store Response :=
  user ← authenticateUser (param req "token");
  if negb (User.valid user) then mret (failure 403 "User not authorized") else
  allowed ← (if User.admin user then mret true else userInGroup (User.id user) groupID);
  if negb allowed then mret (failure 403 "User not authorized") else
  targetGroup ← getGroup groupID;
  if negb (Group.valid targetGroup) then mret (failure 404 "Group not found") else
  checked (updated_group req targetGroup) (λ update,
    match update with
    | None => mret done_reply
    | Some targetGroup =>
        success ← StoreGroups.updateGroup targetGroup;
        if negb success
        then mret (failure 500 ("Failed to update " +:+ Group.show targetGroup))
        else mret done_reply
    end).

Definition listGroupMembers (groupID : string) (req : Request) : Store Response :=
  user ← authenticateUser (param req "token");
  if negb (User.valid user) then mret (failure 403 "User not authorized") else
  targetGroup ← getGroup groupID;
  if negb (Group.valid targetGroup) then mret (failure 404 "Group not found") else
  allowed ← (if User.admin user then mret true
             else userInGroup (User.id user) (Group.id targetGroup));
  if negb allowed then mret (failure 403 "User not authorized") else
  userIDs ← getMembersOfGroup (Group.id targetGroup);
  items ← for_collect userIDs (λ userID,
    groupUser ← getUser userID;
    mret (JObject [apiVersion; ("kind", JString "User");
      ("metadata", JObject
         [("id", JString (User.id groupUser)); ("name", JString (User.name groupUser));
          ("email", JString (User.email groupUser)); ("phone", JString (User.phone groupUser));
          ("institution", JString (User.institution groupUser))])]));
  mret (reply [apiVersion; ("items", JArray items)]).

Definition listGroupClusters (groupID : string) (req : Request) : Store Response :=
  user ← authenticateUser (param req "token");
  if negb (User.valid user) then mret (failure 403 "User not authorized") else
  targetGroup ← getGroup groupID;
  if negb (Group.valid targetGroup) then mret (failure 404 "Group not found") else
  clusterIDs ← clustersOwnedByGroup (Group.id targetGroup);
  items ← for_collect clusterIDs (λ clusterID,
    cluster ← getCluster clusterID;
    mret (JObject [apiVersion; ("kind", JString "Cluster");
      ("metadata", JObject
         [("id", JString (Cluster.id cluster)); ("name", JString (Cluster.name cluster));
          ("owningGroup", JString (Group.name targetGroup));
          ("owningOrganization", JString (Cluster.owningOrganization cluster))])]));
  mret (reply [apiVersion; ("items", JArray items)]).
End handlers.

Section group_proofs.
Context `{D : Dynamo} `{P : Platform} `{L : !DynamoLaws} `{J : !JsonParser}.

Lemma listGroups_looks_up fuel req : looks_up (listGroups fuel req).
Proof.
  unfold listGroups. apply looks_up_bind; [auto with lookups|]. intros user.
  case_match; [auto with lookups|].
  apply looks_up_bind; [case_match; auto with lookups|auto with lookups].
Qed.

Lemma getGroupInfo_looks_up groupID req : looks_up (getGroupInfo groupID req).
Proof.
  unfold getGroupInfo. apply looks_up_bind; [auto with lookups|]. intros user.
  case_match; [auto with lookups|]. apply looks_up_bind; [auto with lookups|]. intros g.
  case_match; auto with lookups.
Qed.

(** The group a handler works on. *)
Lemma wp_getGroup idOrName (k : Group.t → Store Response) Q w0 w :
  ServerInv w → read_only w0 w →
  (∀ g w', ServerInv w' → read_only w0 w' → Group.valid g = true → is_group w' g →
    names w' idOrName (Group.id g) → wp (k g) Q w') →
  (∀ w', ServerInv w' → read_only w0 w' → wp (k Group.none) Q w') →
  wp (getGroup idOrName ≫= k) Q w.
Proof.
  intros Hi Hro Hk Hn. eapply wp_seq; [by apply getGroup_found| |by intros ? ? (_ & _ & [])
                                      |by intros ? (_ & _ & [])].
  intros g w' (Hi' & Hro' & [(Hv & Hid & Hg)|[-> _]]).
  - apply (read_only_directory _ _ Hro') in Hg.
    apply Hk; [done|by etrans|done|done|]. unfold names. revert Hid. case_match; [done|].
    intros Hid. by exists g.
  - apply Hn; [done|by etrans].
Qed.

Lemma listGroupMembers_served groupID req w :
  ServerInv w → wp (listGroupMembers groupID req) (served (param req "token") w) w.
Proof.
  intros Hi. unfold listGroupMembers. apply wp_authenticated; [done| |].
  2: { intros. by apply served_looked_up. }
  intros u w1 Hu Hi1 Hro1. apply (wp_getGroup _ _ _ w); [done..| |].
  2: { intros. by apply served_looked_up. }
  intros g w2 Hi2 Hro2 Hv Hg Hn. rewrite Hv. simpl.
  apply (wp_allowed _ _ _ _ w); [done|done|by eapply requester_id, Hu| |].
  2: { intros. by apply served_looked_up. }
  intros w3 Hi3 Hro3 _. simpl.
  eapply wp_mono; [|apply (looks_up_wp _ w); [|done|done]].
  { intros r w' [? ?]. by apply served_looked_up. }
  apply looks_up_bind; [auto with lookups|]. intros l.
  apply looks_up_bind; [|auto with lookups]. apply looks_up_for_collect. intros x.
  apply looks_up_bind; auto with lookups.
Qed.

(** ** Creating a group *)

(** What [idGenerator] gives for a group. *)
Definition fresh_group (w : World) (newID : string) : Prop :=
  group_id newID ∧ (∀ g, is_group w g → Group.id g ≠ newID) ∧
  ∀ u, ¬ is_member w u newID.

Lemma or_blank_nonempty s : str_empty (or_blank s) = false.
Proof. by destruct s. Qed.

Lemma new_group_of_inr newID user body g :
  new_group_of newID user body = inr g →
  Group.valid g = true ∧ Group.id g = newID ∧ Group.name g = body_name body ∧
  Group.scienceField g = normalizeScienceField (body_scienceField body) ∧
  group_complete g = true.
Proof.
  unfold new_group_of. generalize (normalizeScienceField (body_scienceField body)) as field.
  intros field. case_match eqn:Hs; [done|]. intros [= <-]. split_and!; [done..|].
  unfold group_complete. simpl. by rewrite Hs, !or_blank_nonempty.
Qed.

Lemma group_complete_field g : group_complete g = true → str_empty (Group.scienceField g) = false.
Proof.
  unfold group_complete. rewrite !andb_true_iff, !negb_true_iff. by intros [[[_ _] ?] _].
Qed.

Lemma check_group_name_inr name x :
  check_group_name name = inr x →
  name ≠ "" ∧ validTagGroupName name = true ∧ ends_with_dash name = false ∧
  str_size name ≤ 54 ∧ begins_with name groupIDPrefix = false.
Proof.
  unfold check_group_name. intros Hc. repeat (case_match; [done|]).
  match goal with H : (54 <? _) = false |- _ => apply Nat.ltb_ge in H end.
  split_and!; try done; [by intros ->|].
  by destruct (validTagGroupName name).
Qed.

Lemma createGroup_served newID req w :
  ServerInv w → healthy (db w) → fresh_group w newID →
  wp (createGroup newID req) (served (param req "token") w) w.
Proof.
  intros Hi Hd (Hp & Hfg & Hfm). unfold createGroup. apply wp_authenticated; [done| |].
  2: { intros. by apply served_looked_up. }
  intros u w1 Hu Hi1 Hro1. apply wp_checked; [|intros; by apply served_looked_up].
  intros body _. apply wp_checked; [|intros; by apply served_looked_up].
  intros _ (Hne & _)%check_group_name_inr.
  eapply wp_seq; [by apply findGroupByName_found| |by intros ? ? (_ & _ & [])
                 |by intros ? (_ & _ & [])].
  intros existing w2 (Hi2 & Hro2 & Hex). assert (Hro : read_only w w2) by by etrans.
  destruct Hex as [(Hvx & _)|[-> Hno]]; [rewrite Hvx; by apply served_looked_up|simpl].
  apply wp_checked; [|intros; by apply served_looked_up].
  intros g (Hv & Hid & Hname & _ & Hc)%new_group_of_inr.
  assert (Hnew : ∀ h, is_group w2 h → Group.id h ≠ Group.id g ∧ Group.name h ≠ Group.name g).
  { intros h Hh. rewrite Hid, Hname. split.
    - apply Hfg. by apply (read_only_directory _ _ Hro).
    - apply Hno; [by apply Hro1|]. by apply (read_only_directory _ _ Hro2). }
  assert (Hfree : ∀ x, ¬ is_member w2 x (Group.id g)).
  { intros x Hx. apply (Hfm x). rewrite <- Hid. by apply (read_only_directory _ _ Hro). }
  eapply wp_seq; [apply addGroup_changed; [done|by rewrite Hid|done|]| | |].
  - split_and!; [done|rewrite Hid; intros ->; by destruct Hp|congruence|].
    intros h Hh. destruct (Hnew h Hh). done.
  - intros b w3 (Hi3 & Hh3 & Hu3 & Hm3 & b' & [= <-] & Hb). destruct b; simpl.
    2: { apply (served_same _ w w2); [done..|]. by destruct Hb. }
    eapply wp_seq; [by apply addUserToGroup_changed| | |].
    + intros ok w4 (Hi4 & Hh4 & Hu4 & Hg4 & ok' & [= <-] & Hok).
      assert (Hs : ∀ r, served (param req "token") w r w4).
      { intros r. eapply served_actions; [exact Hu|exact Hro|done|auto|].
        apply one_action, (create_group _ _ _ g); [done|done|by etrans| |].
        - intros x. etrans; [apply Hg4|apply Hb].
        - destruct ok; [right|left; etrans; [exact Hm3|apply Hok]].
          destruct Hok as (gid & Hn & Hset). unfold names in Hn.
          rewrite Hid, (proj1 Hp) in Hn. subst gid. intros x y. rewrite Hid. etrans; [apply Hset|].
          case_decide; [done|apply Hm3]. }
      destruct ok; simpl; apply Hs.
    + by intros e w4 (_ & _ & _ & _ & ok & [=] & _).
    + by intros w4 (_ & _ & _ & _ & ok & [=] & _).
  - by intros e w3 (_ & _ & _ & _ & b' & [=] & _).
  - by intros w3 (_ & _ & _ & _ & b' & [=] & _).
Qed.

(** ** Updating a group *)

Lemma updated_group_inr req g g' :
  updated_group req g = inr (Some g') →
  Group.valid g' = Group.valid g ∧ Group.id g' = Group.id g ∧ Group.name g' = Group.name g.
Proof.
  unfold updated_group. intros Hx. invert_checks.
  repeat case_match; simplify_eq; done.
Qed.

Lemma updateGroup_served groupID req w :
  ServerInv w → wp (updateGroup groupID req) (served (param req "token") w) w.
Proof.
  intros Hi. unfold updateGroup. apply wp_authenticated; [done| |].
  2: { intros. by apply served_looked_up. }
  intros u w1 Hu Hi1 Hro1.
  apply (wp_allowed _ _ _ _ w1); [done|done|by eapply requester_id, Hu| |].
  2: { intros. apply served_looked_up; [done|by etrans]. }
  intros w2 Hi2 Hro2 Hal. simpl. apply (wp_getGroup _ _ _ w1); [done..| |].
  2: { intros. apply served_looked_up; [done|by etrans]. }
  intros g w3 Hi3 Hro3 Hv Hg Hn. assert (Hro : read_only w w3) by by etrans.
  rewrite Hv. simpl. apply wp_checked; [|intros; by apply served_looked_up].
  intros [g'|]; [|intros _; by apply served_looked_up].
  intros (Hv' & Hid & Hname)%updated_group_inr.
  pose proof (steers u groupID _ w1 w3 Hi1 (read_only_directory _ _ Hro3) Hal Hn) as Hst.
  pose proof (di_groups _ (si_directory _ Hi3)) as Hgi.
  eapply wp_seq; [apply updateGroup_changed; [done|rewrite Hid; by apply (si_group_ids _ Hi3)|]| | |].
  - destruct (gi_nonempty _ _ Hgi _ Hg). split_and!; [congruence..|].
    intros h Hh. rewrite Hid, Hname. split; [|by apply (gi_names _ _ Hgi)].
    intros E. f_equal. by eapply stored_group_inj.
  - intros b w4 (Hi4 & Hh4 & Hu4 & Hm4 & b' & [= <-] & Hb). destruct b; simpl.
    + eapply served_actions; [exact Hu|exact Hro|done|done|].
      by eapply one_action, (update_group _ _ _ g g').
    + apply (served_same _ w w3); [done..|]. by destruct Hb.
  - by intros e w4 (_ & _ & _ & _ & b' & [=] & _).
  - by intros w4 (_ & _ & _ & _ & b' & [=] & _).
Qed.
End group_proofs.

(** * Science fields *)

Fixpoint lower (s : string) : string :=
  match s with EmptyString => EmptyString | String c s => String (tolower c) (lower s) end.

Lemma same_letters_lower raw field :
  str_size raw = str_size field → same_letters raw field = bool_decide (lower raw = lower field).
Proof.
  revert field. induction raw as [|c raw IH]; intros [|d field]; simpl; try done.
  intros [= Hlen]. rewrite IH by done. case_bool_decide as Hc.
  - rewrite Hc. apply bool_decide_ext. split; congruence.
  - rewrite bool_decide_false; [done|congruence].
Qed.

Lemma lower_size s : str_size (lower s) = str_size s.
Proof. induction s; simpl; congruence. Qed.

Lemma matching_field_find raw fields :
  matching_field raw fields = default "" (snd <$> list_find (λ f, lower f = lower raw) fields).
Proof.
  induction fields as [|f fields IH]; simpl; [done|].
  destruct (decide (lower f = lower raw)) as [Heq|Hne].
  - assert (Hlen : str_size f = str_size raw) by (rewrite <- (lower_size f), Heq; apply lower_size).
    rewrite Hlen, Nat.eqb_refl. simpl. by rewrite same_letters_lower, bool_decide_true.
  - assert (Hrest : matching_field raw fields =
      default "" (snd <$> (prod_map S id <$> list_find (λ f, lower f = lower raw) fields))).
    { rewrite IH. by destruct (list_find _ fields) as [[]|]. }
    destruct (str_size f =? str_size raw) eqn:Hlen; simpl; [|done].
    apply Nat.eqb_eq in Hlen. rewrite same_letters_lower, bool_decide_false; [done|congruence|lia].
Qed.

(** The science field of a group is looked up without regard to the case of letters:
    the loop over the characters finds the first field of the table whose lower-case
    form is that of the text, and the fields of the table are found as they are. *)
Theorem normalizeScienceField_equiv (raw : string) :
  normalizeScienceField raw =
    default "" (snd <$> list_find (λ f, lower f = lower raw) scienceFields) ∧
  Forall (λ f, normalizeScienceField f = f) scienceFields.
Proof.
  split; [apply matching_field_find|].
  apply (bool_decide_eq_true_1 _); vm_compute; reflexivity.
Qed.

Lemma normalizeScienceField_in raw :
  str_empty (normalizeScienceField raw) = false → normalizeScienceField raw ∈ scienceFields.
Proof.
  unfold normalizeScienceField. rewrite matching_field_find.
  destruct (list_find _ scienceFields) as [[i f]|] eqn:Hf; simpl; [|done]. intros _.
  apply list_find_Some in Hf as (Hf & _). by eapply list_elem_of_lookup_2.
Qed.

(** * Creating a group, on an available service *)

Section group_functional.
Context `{D : Dynamo} `{P : Platform} `{L : !DynamoLaws} `{J : !JsonParser}.

(** The groups the service accepts. *)
Definition acceptable_group (newID : string) (g : Group.t) : Prop :=
  Group.valid g = true ∧ Group.id g = newID ∧ Group.name g ≠ "" ∧
  validTagGroupName (Group.name g) = true ∧ ends_with_dash (Group.name g) = false ∧
  str_size (Group.name g) ≤ 54 ∧ begins_with (Group.name g) groupIDPrefix = false ∧
  Group.scienceField g ∈ scienceFields ∧ group_complete g = true.

Lemma new_group_acceptable newID user body g x :
  check_group_name (body_name body) = inr x → new_group_of newID user body = inr g →
  acceptable_group newID g.
Proof.
  intros (H1 & H2 & H3 & H4 & H5)%check_group_name_inr Hg.
  destruct (new_group_of_inr _ _ _ _ Hg) as (Hv & Hid & Hname & Hf & Hc).
  pose proof (group_complete_field _ Hc) as Hne. unfold acceptable_group. rewrite Hname.
  repeat (split; [assumption|]). split; [|assumption].
  rewrite Hf in Hne |- *. by apply normalizeScienceField_in.
Qed.

(** The replies of [createGroup]: a created group is returned, everything else leaves
    the directory as it is. *)
Definition group_created (newID : string) (u : User.t) (w : World) (r : Res Response)
    (w' : World) : Prop :=
  ServerInv w' ∧
  match r with
  | Ok (Reply 200 body) => ∃ g, acceptable_group newID g ∧
      body = Some (JObject [apiVersion; ("kind", JString "Group"); ("metadata", group_json g)]) ∧
      (∀ h, is_group w h → Group.name h ≠ Group.name g) ∧
      put Group.id g (is_group w) (is_group w') ∧ same (is_user w) (is_user w') ∧
      member_set (User.id u) newID true (is_member w) (is_member w')
  | Ok (Reply 400 _) | Ok AssertionFailed => same_directory (directory w) (directory w')
  | _ => False
  end.

Lemma group_body_refuses req : refuses (group_body_of req).
Proof.
  unfold group_body_of.
  repeat first [apply refuses_metadata|apply refuses_required_string|apply refuses_optional
    |apply refuses_string|apply refuses_and_then; [|intros]|intros v]. apply refuses_inr.
Qed.

Lemma check_group_name_refuses name : refuses (check_group_name name).
Proof.
  unfold check_group_name. repeat (case_match; [apply refuses_failure|]). apply refuses_inr.
Qed.

Lemma new_group_refuses newID user body : refuses (new_group_of newID user body).
Proof. unfold new_group_of. case_match; [apply refuses_failure|apply refuses_inr]. Qed.

Lemma wp_refuses {A} (c : Checked A) (k : A → Store Response) newID u w0 w :
  refuses c → ServerInv w → read_only w0 w →
  (∀ a, c = inr a → wp (k a) (group_created newID u w0) w) →
  wp (checked c k) (group_created newID u w0) w.
Proof.
  intros Hc Hi Hro Hk. destruct c as [r|a]; simpl; [|by apply Hk]. apply wp_ret.
  split; [done|]. pose proof (read_only_directory _ _ Hro).
  by destruct (Hc r eq_refl) as [[body ->]| ->].
Qed.

End group_functional.
