(* ===== verification/ClusterCommands.v ===== *)
(** The commands about the clusters that need no cluster to be contacted: listing them,
    the access of groups, the applications the groups may use, and the monitoring
    credentials (src/ClusterCommands.cpp). *)

From S2P Require Import Prelude Entities Cache Dynamo Store StoreGroups StoreUsers StoreMembership.
From S2P Require Import StoreClusters StoreAccess StoreMonCreds Directory Federation Http UserCommands.

(** What rapidjson writes for a [double]. *)
Class JsonWriter `{Doubles} := Print : double → string.

Section handlers.
Context `{D : Dynamo} `{P : Platform} `{JW : !JsonWriter} `{E : !Mailer}.

Definition location_json (location : GeoLocation.t) : Json := JObject
  ([("lat", JNumber (Print (GeoLocation.lat location)));
    ("lon", JNumber (Print (GeoLocation.lon location)))]
   ++ if str_empty (GeoLocation.description location) then []
      else [("desc", JString (GeoLocation.description location))]).

Definition listClusters (fuel : nat) (req : Request) : Store Response :=
  user ← authenticateUser (param req "token");
  if negb (User.valid user) then mret (failure 403 "User not authorized") else
  found ← match param req "group" with
          | Some group => listClustersByGroup fuel group
          | None => StoreClusters.listClusters fuel
          end;
  items ← for_collect found (λ cluster,
    owner ← findGroupByID (Cluster.owningGroup cluster);
    locations ← getLocationsForCluster (Cluster.id cluster);
    mret (JObject [apiVersion; ("kind", JString "Cluster");
      ("metadata", JObject
         [("id", JString (Cluster.id cluster)); ("name", JString (Cluster.name cluster));
          ("owningGroup", JString (Group.name owner));
          ("owningOrganization", JString (Cluster.owningOrganization cluster));
          ("location", JArray (location_json <$> locations));
          ("hasMonitoring",
             JBool (S3Credential.to_bool (Cluster.monitoringCredential cluster)))])]));
  mret (reply [apiVersion; ("items", JArray items)]).

(** ** Access of groups *)

Definition is_wildcard (groupID : string) : bool :=
  bool_decide (groupID = wildcard) || bool_decide (groupID = wildcardName).

Definition allowed_group_json (id name : string) : Json := JObject
  [apiVersion; ("kind", JString "Group");
   ("metadata", JObject [("id", JString id); ("name", JString name)])].

(** An ID of no group is passed over. *)
Definition listClusterAllowedgroups (clusterID : string) (req : Request) : Store Response :=
  user ← authenticateUser (param req "token");
  if negb (User.valid user) then mret (failure 403 "User not authorized") else
  cluster ← getCluster clusterID;
  if negb (Cluster.valid cluster) then mret (failure 404 "Cluster not found") else
  groupIDs ← listGroupsAllowedOnCluster (Cluster.id cluster) false;
  items ← (if bool_decide (groupIDs = [wildcard])
           then mret [[allowed_group_json wildcard wildcardName]]
           else for_collect (groupIDs ++ [Cluster.owningGroup cluster]) (λ groupID,
             group ← findGroupByID groupID;
             mret (if Group.valid group
                   then [allowed_group_json groupID (Group.name group)] else [])));
  mret (reply [apiVersion; ("items", JArray (concat items))]).

Definition access_reply (clusterID groupID : string) (allowed : bool) : Response :=
  reply [apiVersion; ("cluster", JString clusterID); ("group", JString groupID);
         ("accessAllowed", JBool allowed)].

(** The question about everyone is asked with the ID as it was given. *)
Definition checkGroupClusterAccess (clusterID groupID : string) (req : Request) : Store Response :=
  user ← authenticateUser (param req "token");
  if negb (User.valid user) then mret (failure 403 "User not authorized") else
  cluster ← getCluster clusterID;
  if negb (Cluster.valid cluster) then mret (failure 404 "Cluster not found") else
  if is_wildcard groupID then
    allowed ← clusterAllowsAllGroups clusterID;
    mret (access_reply clusterID groupID allowed)
  else
    group ← getGroup groupID;
    if negb (Group.valid group) then mret (failure 404 "Group not found") else
    if bool_decide (Group.id group = Cluster.owningGroup cluster)
    then mret (access_reply clusterID groupID true) else
    allowed ← groupAllowedOnCluster (Group.id group) (Cluster.id cluster);
    mret (access_reply clusterID groupID allowed).

(** [user.admin || store.userInGroup(user.id,cluster.owningGroup)] *)
Definition owns (user : User.t) (cluster : Cluster.t) : Store bool :=
  if User.admin user then mret true else userInGroup (User.id user) (Cluster.owningGroup cluster).

(** The start of the commands reserved to administrators and the owners of a cluster. *)
Definition as_owner (clusterID : string) (req : Request) (k : User.t → Cluster.t → Store Response) :
    Store Response :=
  user ← authenticateUser (param req "token");
  if negb (User.valid user) then mret (failure 403 "User not authorized") else
  cluster ← getCluster clusterID;
  if negb (Cluster.valid cluster) then mret (failure 404 "Cluster not found") else
  allowed ← owns user cluster;
  if negb allowed then mret (failure 403 "User not authorized") else k user cluster.

Definition grantGroupClusterAccess (clusterID groupID : string) (req : Request) : Store Response :=
  as_owner clusterID req (λ _ cluster,
    let finish (success : bool) : Store Response :=
      if negb success then mret (failure 500 "Granting Group access to cluster failed")
      else mret done_reply in
    if is_wildcard groupID then
      success ← addGroupToCluster wildcard (Cluster.id cluster); finish success
    else
      group ← getGroup groupID;
      if negb (Group.valid group) then mret (failure 404 "Group not found") else
      if bool_decide (Group.id group = Cluster.owningGroup cluster) then mret done_reply else
      success ← addGroupToCluster (Group.id group) (Cluster.id cluster); finish success).

Definition revokeGroupClusterAccess (clusterID groupID : string) (req : Request) : Store Response :=
  as_owner clusterID req (λ _ cluster,
    let finish (success : bool) : Store Response :=
      if negb success then mret (failure 500 "Removing Group access to cluster failed")
      else mret done_reply in
    if is_wildcard groupID then
      success ← removeGroupFromCluster wildcard (Cluster.id cluster); finish success
    else
      group ← getGroup groupID;
      if negb (Group.valid group) then mret (failure 404 "Group not found") else
      if bool_decide (Group.id group = Cluster.owningGroup cluster)
      then mret (failure 400 "Cannot deny cluster access to owning Group") else
      success ← removeGroupFromCluster (Group.id group) (Cluster.id cluster); finish success).

(** ** Applications of groups *)

(** A [std::set] is traversed in the order of its elements. *)
Definition listClusterGroupAllowedApplications (clusterID groupID : string) (req : Request) :
    Store Response :=
  user ← authenticateUser (param req "token");
  if negb (User.valid user) then mret (failure 403 "User not authorized") else
  cluster ← getCluster clusterID;
  if negb (Cluster.valid cluster) then mret (failure 404 "Cluster not found") else
  group ← getGroup groupID;
  if negb (Group.valid group) then mret (failure 404 "Group not found") else
  owner ← owns user cluster;
  allowed ← (if owner : bool then mret true else userInGroup (User.id user) (Group.id group));
  if negb allowed then mret (failure 403 "User not authorized") else
  applications ← listApplicationsGroupMayUseOnCluster (Group.id group) (Cluster.id cluster);
  mret (reply [apiVersion; ("items", strings (merge_sort String.le (elements applications)))]).

(** The start of the two commands that change what a group may use. *)
Definition as_owner_for_group (clusterID groupID : string) (req : Request) (k : Store Response) :
    Store Response :=
  user ← authenticateUser (param req "token");
  if negb (User.valid user) then mret (failure 403 "User not authorized") else
  cluster ← getCluster clusterID;
  if negb (Cluster.valid cluster) then mret (failure 404 "Cluster not found") else
  group ← getGroup groupID;
  if negb (Group.valid group) then mret (failure 404 "Group not found") else
  allowed ← owns user cluster;
  if negb allowed then mret (failure 403 "User not authorized") else k.

Definition application_reply (success : bool) : Response :=
  if negb success then failure 500 "Granting Group permission to use application failed"
  else done_reply.

(** The store is given the cluster and the group as they were named. *)
Definition allowGroupUseOfApplication (clusterID groupID applicationName : string)
    (req : Request) : Store Response :=
  as_owner_for_group clusterID groupID req (
    success ← allowVoToUseApplication groupID clusterID applicationName;
    mret (application_reply success)).

Definition denyGroupUseOfApplication (clusterID groupID applicationName : string)
    (req : Request) : Store Response :=
  as_owner_for_group clusterID groupID req (
    success ← StoreAccess.denyGroupUseOfApplication groupID clusterID applicationName;
    mret (application_reply success)).

(** ** Monitoring credentials *)

Definition credential_json (cred : S3Credential.t) : Json := JObject
  [("accessKey", JString (S3Credential.accessKey cred));
   ("secretKey", JString (S3Credential.secretKey cred));
   ("inUse", JBool (S3Credential.inUse cred)); ("revoked", JBool (S3Credential.revoked cred))].

Definition ops_notice (subject body : string) : Email :=
  mkEmail "noreply@slate.io" [opsEmail] [] [] subject body.

(** [if(!store.getOpsEmail().empty()) ... sendEmail(message)] *)
Definition notify_ops (message : Email) : Store unit :=
  if str_empty opsEmail then mret tt else _ ← lift (sendEmail message); mret tt.

Definition newline : string := String "010"%char EmptyString.

Definition allocation_failed (cluster : Cluster.t) (errMsg : string) : Email :=
  ops_notice "API Server: Failed to allocate monitoring credential"
    ("Allocation of a monitoring credential for the " +:+ Cluster.name cluster
     +:+ " cluster was requested but could not be fulfilled:" +:+ newline +:+ errMsg).

Definition setting_failed (cluster : Cluster.t) (cred : S3Credential.t) : Email :=
  ops_notice "API Server: Failed to set monitoring credential"
    ("The monitoring credential " +:+ S3Credential.accessKey cred +:+ " was allocated for"
     +:+ Cluster.name cluster +:+ " cluster but adding it to the cluster record in "
     +:+ "the persistent store failed. This inconsistent state should be "
     +:+ "manually resolved.").

(** [std::to_string] of the few values it is used for here. *)
Definition few_left (availableCreds : Z) : Email :=
  let number := match availableCreds with 0 => "0" | 1 => "1" | _ => "2" end%Z in
  ops_notice "API Server: Low number of monitoring credentials available"
    ((if bool_decide (availableCreds = 0%Z) then "" else "Only ") +:+ number +:+ " credential"
     +:+ (if bool_decide (availableCreds = 1%Z) then "" else "s")
     +:+ " remain available for allocation.").

Definition is_available (c : S3Credential.t) : bool :=
  negb (S3Credential.inUse c) && negb (S3Credential.revoked c).

(** The number is kept in an [unsigned int]. *)
Definition count_available (allCreds : list S3Credential.t) : Z :=
  (Z.of_nat (length (filter is_available allCreds)) mod 2 ^ 32)%Z.

(** A credential for a cluster that has none: the error reply, or the credential. *)
Definition assign_credential (fuel : nat) (cluster : Cluster.t) :
    Store (Response + S3Credential.t) :=
  allocated ← allocateMonitoringCredential fuel;
  let (cred, errMsg) := allocated : S3Credential.t * string in
  if negb (S3Credential.to_bool cred) then
    _ ← notify_ops (allocation_failed cluster errMsg);
    mret (inl (failure 500 "Allocating monitoring credential failed"))
  else
    set ← setClusterMonitoringCredential (Cluster.id cluster) cred;
    if negb set then
      _ ← notify_ops (setting_failed cluster cred);
      mret (inl (failure 500 "Allocating monitoring credential failed"))
    else
      allCreds ← listMonitoringCredentials fuel;
      let availableCreds := count_available allCreds in
      _ ← (if (availableCreds <? 3)%Z then notify_ops (few_left availableCreds) else mret tt);
      mret (inr cred).

Definition getClusterMonitoringCredential (fuel : nat) (clusterID : string) (req : Request) :
    Store Response :=
  as_owner clusterID req (λ _ cluster,
    found ← (if S3Credential.to_bool (Cluster.monitoringCredential cluster)
             then mret (inr (Cluster.monitoringCredential cluster))
             else assign_credential fuel cluster);
    checked found (λ cred,
      mret (reply [apiVersion; ("kind", JString "MonitoringCredential");
                   ("metadata", credential_json cred)]))).

(** [internal::removeClusterMonitoringCredential]: the empty string is success, and what
    becomes of the credential itself does not matter. *)
Definition detach_credential (cluster : Cluster.t) : Store string :=
  if S3Credential.to_bool (Cluster.monitoringCredential cluster) then
    removed ← StoreClusters.removeClusterMonitoringCredential (Cluster.id cluster);
    if negb removed
    then mret ("Failed to remove monitoring credential for Cluster " +:+ Cluster.name cluster)
    else
      _ ← StoreMonCreds.revokeMonitoringCredential
            (S3Credential.accessKey (Cluster.monitoringCredential cluster));
      mret ""
  else mret "".

Definition removeClusterMonitoringCredential (clusterID : string) (req : Request) :
    Store Response :=
  as_owner clusterID req (λ _ cluster,
    credRemoval ← detach_credential cluster;
    if negb (str_empty credRemoval)
    then mret (failure 500 "Removing monitoring credential failed") else mret done_reply).
End handlers.

(** * What a request does to the federation *)

Section stewarded.
Context `{D : Dynamo} `{P : Platform} `{L : !DynamoLaws} `{DL : !DiskLaws}.

(** A request changes the federation only by deeds of the user it is made by. *)
Definition stewarded {A} (token : option string) (w : World) (r : Res A) (w' : World) : Prop :=
  FedInv w' ∧ (healthy (db w) → healthy (db w')) ∧
  (same_federation (federation w) (federation w') ∨
   ∃ u, requester w token u ∧ deeds u (federation w) (federation w')).

(** The part of a request after the user is known. *)
Record done_by (u : User.t) (w w' : World) : Prop := {
  db_inv : FedInv w';
  db_healthy : healthy (db w) → healthy (db w');
  db_deeds : deeds u (federation w) (federation w') }.

Lemma done_by_trans u w1 w2 w3 : done_by u w1 w2 → done_by u w2 w3 → done_by u w1 w3.
Proof. intros [] []. split; [done|auto|by eapply more_deeds]. Qed.

Lemma done_by_same u w w' :
  FedInv w' → (healthy (db w) → healthy (db w')) →
  same_federation (federation w) (federation w') → done_by u w w'.
Proof. intros. split; [done..|by constructor]. Qed.

Lemma done_by_looked_up u w w' : FedInv w' → read_only w w' → done_by u w w'.
Proof. intros Hi Hro. apply done_by_same; [done|apply Hro|by apply read_only_federation]. Qed.

Lemma done_by_deed u w w' :
  FedInv w' → (healthy (db w) → healthy (db w')) → deed u (federation w) (federation w') →
  done_by u w w'.
Proof. intros. split; [done..|by constructor]. Qed.

Lemma stewarded_looked_up {A} token w w' (r : Res A) :
  FedInv w' → read_only w w' → stewarded token w r w'.
Proof.
  intros Hi Hro. split; [done|]. split; [apply Hro|]. left. by apply read_only_federation.
Qed.

Lemma stewarded_by {A} token w w' (r : Res A) u :
  requester w token u → done_by u w w' → stewarded token w r w'.
Proof. intros Hu []. split; [done|]. split; [done|]. right. eauto. Qed.

(** The beginning of every handler. *)
Lemma wp_authenticated_fed token msg (k : User.t → Store Response) w :
  FedInv w →
  (∀ u w', requester w token u → FedInv w' → read_only w w' → wp (k u) (λ _, done_by u w') w') →
  wp (user ← authenticateUser token;
      if negb (User.valid user) then mret (failure 403 msg) else k user) (stewarded token w) w.
Proof.
  intros Hi Hk. eapply wp_seq; [by apply authenticateUser_fed| | |].
  2: { by intros e w' (_ & _ & u & [=] & _). }
  2: { by intros w' (_ & _ & u & [=] & _). }
  intros u w' (Hi' & Hro & u' & [= <-] & Hv & _).
  destruct (User.valid u) eqn:Hu; simpl; [|by apply wp_ret, stewarded_looked_up].
  eapply wp_mono, Hk; auto. intros r w2 Hd. eapply stewarded_by; [by apply Hv|].
  eapply done_by_trans; [by apply done_by_looked_up|done].
Qed.

(** A lookup in the middle of a handler. *)
Lemma wp_getCluster_fed s msg u (k : Cluster.t → Store Response) w :
  FedInv w →
  (∀ c w', FedInv w' → read_only w w' → is_cluster w' c → cluster_names w' s (Cluster.id c) →
     wp (k c) (λ _, done_by u w') w') →
  wp (cluster ← getCluster s;
      if negb (Cluster.valid cluster) then mret (failure 404 msg) else k cluster)
    (λ _, done_by u w) w.
Proof.
  intros Hi Hk. eapply wp_seq; [by apply getCluster_fed| |by intros ? ? (_ & _ & [])
                               |by intros ? (_ & _ & [])].
  intros c w' (Hi' & Hro & [(Hv & Hc & Hn)|[-> _]]); [rewrite Hv|]; simpl.
  2: { by apply wp_ret, done_by_looked_up. }
  assert (Hs : same (is_cluster w) (is_cluster w')) by (intros x; by apply read_only_is_cluster).
  eapply wp_mono, Hk; [|done|done|by apply Hs|by eapply cluster_names_same].
  intros r w2 Hd. eapply done_by_trans; [by apply done_by_looked_up|done].
Qed.

Lemma wp_getGroup_fed s msg u (k : Group.t → Store Response) w :
  FedInv w →
  (∀ g w', FedInv w' → read_only w w' → is_group w' g → names w' s (Group.id g) →
     wp (k g) (λ _, done_by u w') w') →
  wp (group ← getGroup s;
      if negb (Group.valid group) then mret (failure 404 msg) else k group)
    (λ _, done_by u w) w.
Proof.
  intros Hi Hk. eapply wp_seq; [by apply getGroup_fed| |by intros ? ? (_ & _ & [])
                               |by intros ? (_ & _ & [])].
  intros g w' (Hi' & Hro & Hg). destruct Hg as [(Hv & Hk' & Hg)|[-> _]]; [rewrite Hv|]; simpl.
  2: { by apply wp_ret, done_by_looked_up. }
  assert (Hg' : is_group w' g) by by apply (read_only_directory _ _ Hro).
  eapply wp_mono, Hk; [|done|done|done|].
  - intros r w2 Hd. eapply done_by_trans; [by apply done_by_looked_up|done].
  - unfold names. case_match; [done|]. by exists g.
Qed.

Lemma proper_owner w c gid :
  FedInv w → is_cluster w c → names w (Cluster.owningGroup c) gid → gid = Cluster.owningGroup c.
Proof. intros Hi Hc. unfold names. destruct (fi_proper _ Hi c Hc) as [_ ->]. done. Qed.

(** The check of the owner. *)
Lemma wp_owns token (user : User.t) c (k : bool → Store Response) w0 w :
  FedInv w → requester w0 token user → read_only w0 w → is_cluster w c →
  (∀ b w', FedInv w' → read_only w w' → (b = true → may_own (federation w') user c) →
     wp (k b) (λ _, done_by user w') w') →
  wp (owns user c ≫= k) (λ _, done_by user w) w.
Proof.
  intros Hi Hu Hro0 Hc Hk. unfold owns. destruct (User.admin user) eqn:Ha.
  { apply (wp_run _ _ _ _ true w); [done|]. apply Hk; [done..|]. intros _. by left. }
  assert (Hne : User.id user ≠ "").
  { eapply requester_id; [apply Hi|]. destruct Hu as [Hu Ht]. split; [|exact Ht].
    by apply (read_only_directory _ _ Hro0). }
  eapply wp_seq; [by apply userInGroup_fed| | |].
  2: { by intros e w' (_ & _ & b & [=] & _). }
  2: { by intros w' (_ & _ & b & [=] & _). }
  intros b w' (Hi' & Hro & b' & [= <-] & Hb).
  eapply wp_mono, Hk; [|done|done|].
  - intros r w2 Hd. eapply done_by_trans; [by apply done_by_looked_up|done].
  - intros Hbt. destruct (Hb Hbt) as (gid & Hn & Hm). right.
    rewrite <- (proper_owner w c gid Hi Hc Hn). by apply (read_only_directory _ _ Hro).
Qed.

Lemma wp_as_owner clusterID req (k : User.t → Cluster.t → Store Response) w :
  FedInv w →
  (∀ u c w', requester w (param req "token") u → FedInv w' → read_only w w' → is_cluster w' c →
     may_own (federation w') u c → wp (k u c) (λ _, done_by u w') w') →
  wp (as_owner clusterID req k) (stewarded (param req "token") w) w.
Proof.
  intros Hi Hk. apply wp_authenticated_fed; [done|]. intros u w1 Hu Hi1 Hro1.
  apply wp_getCluster_fed; [done|]. intros c w2 Hi2 Hro2 Hc _.
  assert (Hro : read_only w w2) by by etrans.
  eapply (wp_owns _ u c _ w); [done..|]. intros b w3 Hi3 Hro3 Hb.
  destruct b; simpl; [|by apply wp_ret, done_by_looked_up].
  apply Hk; [done|done|by etrans|by apply (read_only_is_cluster w2 w3)|by apply Hb].
Qed.
End stewarded.

(** ** Grants and applications *)

Section access_proofs.
Context `{D : Dynamo} `{P : Platform} `{L : !DynamoLaws} `{DL : !DiskLaws} `{E : !Mailer}.

Lemma done_by_granted u c g b w r w' :
  is_cluster w c → may_own (federation w) u c → fed_granted (Cluster.id c) g b w r w' →
  done_by u w w' ∧ ∃ ok, r = Ok ok.
Proof.
  intros Hc Ho (Hi & Hh & Hd & Hcl & Ha & ok & -> & Hok). split; [|eauto]. destruct ok.
  - apply done_by_deed; [done..|]. eapply (set_grant _ _ _ c g b); try done.
    + by apply stored_holds.
    + intros c' g' _. apply Hok.
  - apply done_by_same; [done..|]. destruct Hok as [_ Hs]. by split_and!.
Qed.

Lemma done_by_permitted u c g w r w' :
  is_cluster w c → may_own (federation w) u c → fed_permitted (Cluster.id c) g w r w' →
  done_by u w w' ∧ ∃ ok, r = Ok ok.
Proof.
  intros Hc Ho (Hi & Hh & Hd & Hcl & Hg & ok & -> & Hok). split; [|eauto]. destruct ok.
  - destruct Hok as [s Hs]. apply done_by_deed; [done..|].
    eapply (set_applications _ _ _ c g s); try done. by apply stored_holds.
  - apply done_by_same; [done..|]. by split_and!.
Qed.

Lemma done_by_assigned u c cred w r w' :
  is_cluster w c → may_own (federation w) u c → fed_assigned c cred w r w' →
  done_by u w w' ∧ ∃ ok, r = Ok ok.
Proof.
  intros Hc Ho (Hi & Hh & Hd & Hg & Ha & ok & -> & Hok). split; [|eauto]. destruct ok.
  - apply done_by_deed; [done..|]. eapply (set_credential _ _ _ c cred); try done.
    by apply stored_holds.
  - apply done_by_same; [done..|]. by split_and!.
Qed.

(** A step whose result is a flag, the rest of the handler only replying. *)
Lemma wp_then_reply u (m : Store bool) (k : bool → Store Response) w :
  wp m (λ r w', done_by u w w' ∧ ∃ ok, r = Ok ok) w → (∀ ok, ∃ r, k ok = mret r) →
  wp (m ≫= k) (λ _, done_by u w) w.
Proof.
  intros Hm Hk. eapply wp_seq; [exact Hm| |by intros e w' (_ & ? & [=])|by intros w' (_ & ? & [=])].
  intros ok w' [Hd _]. destruct (Hk ok) as [r ->]. by apply wp_ret.
Qed.

Lemma finish_replies (success : bool) (a b : Response) :
  ∃ r, (if negb success then mret a else mret b) = (mret r : Store Response).
Proof. destruct success; eexists; reflexivity. Qed.

Lemma stored_proper_group w g : FedInv w → is_group w g → proper_group (Group.id g).
Proof. intros Hi Hg. apply group_id_proper. by apply (si_group_ids _ (fi_server _ Hi)). Qed.

Lemma may_own_read_only w w' u c :
  read_only w w' → may_own (federation w) u c → may_own (federation w') u c.
Proof. intros Hro [?|Hm]; [by left|right]. by apply (read_only_directory _ _ Hro). Qed.

(** Both changes of a grant have this form. *)
Lemma change_grant_stewarded (op : string → string → Store bool) b (finish : bool → Store Response)
    (own : Response) clusterID groupID req w :
  (∀ ok, ∃ r, finish ok = mret r) →
  (∀ g c w, FedInv w → proper_group g → begins_with c clusterIDPrefix = true →
     wp (op g c) (fed_granted c g b w) w) →
  FedInv w →
  wp (as_owner clusterID req (λ _ cluster,
        if is_wildcard groupID then
          success ← op wildcard (Cluster.id cluster); finish success
        else
          group ← getGroup groupID;
          if negb (Group.valid group) then mret (failure 404 "Group not found") else
          if bool_decide (Group.id group = Cluster.owningGroup cluster) then mret own else
          success ← op (Group.id group) (Cluster.id cluster); finish success))
    (stewarded (param req "token") w) w.
Proof.
  intros Hfin Hop Hi. apply wp_as_owner; [done|]. intros u c w1 Hu Hi1 _ Hc Ho.
  assert (Hstep : ∀ g w2, proper_group g → FedInv w2 → read_only w1 w2 →
    wp (success ← op g (Cluster.id c); finish success) (λ _, done_by u w2) w2).
  { intros g w2 Hg Hi2 Hro2. apply wp_then_reply; [|done].
    assert (Hc2 : is_cluster w2 c) by by apply (read_only_is_cluster w1 w2).
    eapply wp_mono, Hop; [|done|done|by apply (fi_proper _ Hi2 c Hc2)].
    intros r w3. apply done_by_granted; [done|by eapply may_own_read_only]. }
  case_match; [by apply Hstep; [apply proper_wildcard|..]|].
  apply wp_getGroup_fed; [done|]. intros g w2 Hi2 Hro2 Hg _.
  case_bool_decide; [by apply wp_ret, done_by_looked_up|].
  apply Hstep; [by eapply stored_proper_group|done..].
Qed.

Lemma grantGroupClusterAccess_stewarded clusterID groupID req w :
  FedInv w →
  wp (grantGroupClusterAccess clusterID groupID req) (stewarded (param req "token") w) w.
Proof.
  intros Hi. apply (change_grant_stewarded addGroupToCluster true); [|intros; by apply addGroupToCluster_fed|done].
  intros ok. apply finish_replies.
Qed.

Lemma revokeGroupClusterAccess_stewarded clusterID groupID req w :
  FedInv w →
  wp (revokeGroupClusterAccess clusterID groupID req) (stewarded (param req "token") w) w.
Proof.
  intros Hi. apply (change_grant_stewarded removeGroupFromCluster false); [|intros; by apply removeGroupFromCluster_fed|done].
  intros ok. apply finish_replies.
Qed.

(** The two commands about applications; the store is given the names again. *)
Lemma as_owner_for_group_stewarded clusterID groupID req (F : string → string → Store bool) w :
  FedInv w →
  (∀ g c w, FedInv w → proper_group g → cluster_id c → wp (F g c) (fed_permitted c g w) w) →
  wp (as_owner_for_group clusterID groupID req
        (success ← by_names groupID clusterID F; mret (application_reply success)))
    (stewarded (param req "token") w) w.
Proof.
  intros Hi HF. apply wp_authenticated_fed; [done|]. intros u w1 Hu Hi1 Hro1.
  apply wp_getCluster_fed; [done|]. intros c w2 Hi2 Hro2 Hc Hn.
  apply wp_getGroup_fed; [done|]. intros g w3 Hi3 Hro3 Hg Hng.
  assert (Hro : read_only w w3) by (etrans; [|done]; by etrans).
  assert (Hs3 : same (is_cluster w2) (is_cluster w3)) by (intros x; by apply read_only_is_cluster).
  eapply (wp_owns _ u c _ w); [done..|by apply Hs3|]. intros b w4 Hi4 Hro4 Hb.
  destruct b; simpl; [|by apply wp_ret, done_by_looked_up].
  apply wp_then_reply; [|by eexists].
  assert (Hs4 : same (is_cluster w3) (is_cluster w4)) by (intros x; by apply read_only_is_cluster).
  apply wp_by_names; [done| |intros w5 Hi5 Hro5; split; [by apply done_by_looked_up|eauto]].
  intros g' c' w5 Hi5 Hro5 Hg' Hc' Hp'.
  assert (c' = Cluster.id c) as ->.
  { eapply cluster_names_inj; [exact Hi4|exact Hc'|].
    eapply cluster_names_same; [exact Hs4|]. by eapply cluster_names_same. }
  assert (Hc4 : is_cluster w4 c) by by apply Hs4, Hs3.
  assert (Hc5 : is_cluster w5 c) by by apply (read_only_is_cluster w4 w5).
  assert (Hpg : proper_group g').
  { destruct Hg' as [->|[Hg' _]]; [apply proper_wildcard|].
    assert (Hng4 : names w4 groupID (Group.id g)).
    { eapply names_same; [|exact Hng]. apply (read_only_directory _ _ Hro4). }
    rewrite (names_inj w4 groupID g' (Group.id g) (fi_server _ Hi4) Hg' Hng4).
    exact (stored_proper_group w3 g Hi3 Hg). }
  eapply wp_mono, HF; [|done|done|by apply (fi_proper _ Hi5 c Hc5)].
  intros r w6 Hr. destruct (done_by_permitted u c g' w5 r w6 Hc5) as [Hd Hok]; [|done|].
  - eapply may_own_read_only; [done|by apply Hb].
  - split; [|done]. eapply done_by_trans; [by apply done_by_looked_up|done].
Qed.

Lemma allowGroupUseOfApplication_stewarded clusterID groupID app req w :
  FedInv w → app ≠ noApplications →
  wp (allowGroupUseOfApplication clusterID groupID app req) (stewarded (param req "token") w) w.
Proof.
  intros Hi Happ. apply as_owner_for_group_stewarded; [done|]. intros g c w1 Hi1 Hg Hc.
  pose proof (allow_fed g c app w1 Hi1 Hg Hc Happ) as Ha.
  rewrite allow_proper in Ha by (done || apply Hc). exact Ha.
Qed.

Lemma denyGroupUseOfApplication_stewarded clusterID groupID app req w :
  FedInv w →
  wp (denyGroupUseOfApplication clusterID groupID app req) (stewarded (param req "token") w) w.
Proof.
  intros Hi. apply as_owner_for_group_stewarded; [done|]. intros g c w1 Hi1 Hg Hc.
  match goal with |- wp ?m _ _ =>
    assert (Heq : StoreAccess.denyGroupUseOfApplication g c app = m) end.
  { unfold StoreAccess.denyGroupUseOfApplication. rewrite normalizeGroupID_proper by done.
    etrans; [apply bind_ret|]. cbv beta iota. by rewrite normalizeClusterID_id by apply Hc. }
  rewrite <- Heq. by apply deny_fed.
Qed.

(** ** Monitoring credentials of clusters *)

(** An operation that leaves the federation alone. *)
Lemma done_by_fed_same {A} u (Q : Res A → Prop) w r w' : fed_same Q w r w' → done_by u w w'.
Proof. intros (Hi & Hh & Hs & _). by apply done_by_same. Qed.

Lemma may_own_same f f' u c :
  same_directory (fed_directory f) (fed_directory f') → may_own f u c → may_own f' u c.
Proof. intros (_ & _ & Hm) [?|Hu]; [by left|right]. by apply Hm. Qed.

(** A message to the operators changes nothing, but sending it may throw. *)
Lemma wp_notify_ops {A} (message : Email) (k : unit → Store A) (Q : World → Prop) w :
  Q w → wp (k tt) (λ _, Q) w → wp (notify_ops message ≫= k) (λ _, Q) w.
Proof.
  intros Hd Hk. unfold notify_ops. case_match; [exact Hk|].
  apply wp_bind, wp_lift; [intros b _; exact Hk|done..].
Qed.

Lemma assign_credential_done u fuel c w :
  FedInv w → healthy (db w) → is_cluster w c → may_own (federation w) u c →
  wp (assign_credential fuel c) (λ _, done_by u w) w.
Proof.
  intros Hi Hd Hc Ho. unfold assign_credential.
  eapply wp_seq; [by apply allocateMonitoringCredential_fed| | |].
  2: { intros e w'. apply done_by_fed_same. }
  2: { intros w'. apply done_by_fed_same. }
  intros [cred errMsg] w1 Hal. pose proof (done_by_fed_same u _ _ _ _ Hal) as Hd1.
  destruct Hal as (Hi1 & Hh1 & (Hsd1 & Hsc1 & _) & Hcred).
  destruct (S3Credential.to_bool cred) eqn:Hb; simpl.
  2: { by apply wp_notify_ops; [|apply wp_ret]. }
  assert (Hc1 : is_cluster w1 c) by by apply Hsc1.
  eapply wp_seq; [apply setClusterMonitoringCredential_fed; eauto| | |].
  2: { by intros e w2 (_ & _ & _ & _ & _ & ok & [=] & _). }
  2: { by intros w2 (_ & _ & _ & _ & _ & ok & [=] & _). }
  intros ok w2 Hset. destruct (done_by_assigned u c _ w1 _ w2 Hc1
    (may_own_same (federation w) (federation w1) u c Hsd1 Ho) Hset) as [Hd2 _].
  assert (Hd02 : done_by u w w2) by by eapply done_by_trans.
  destruct ok; simpl; [|by apply wp_notify_ops; [|apply wp_ret]].
  apply (wp_seq (λ _ w', quiet w2 w')).
  { apply listMonitoringCredentials_quiet. }
  2: { intros e w3 Hq. eapply done_by_trans; [exact Hd02|]. apply done_by_looked_up; [|apply Hq].
       eapply quiet_FedInv, Hd02; exact Hq. }
  2: { intros w3 Hq. eapply done_by_trans; [exact Hd02|]. apply done_by_looked_up; [|apply Hq].
       eapply quiet_FedInv, Hd02; exact Hq. }
  intros allCreds w3 Hq. assert (Hd03 : done_by u w w3).
  { eapply done_by_trans; [exact Hd02|]. apply done_by_looked_up; [|apply Hq].
    eapply quiet_FedInv, Hd02; exact Hq. }
  case_match; [by apply wp_notify_ops; [|apply wp_ret]|by apply wp_ret].
Qed.

Lemma getClusterMonitoringCredential_stewarded fuel clusterID req w :
  FedInv w → healthy (db w) →
  wp (getClusterMonitoringCredential fuel clusterID req) (stewarded (param req "token") w) w.
Proof.
  intros Hi Hd. apply wp_as_owner; [done|]. intros u c w1 Hu Hi1 Hro1 Hc Ho.
  apply (wp_seq (λ _, done_by u w1)); [|intros found w2 Hd2; destruct found; by apply wp_ret|done..].
  case_match; [by apply wp_ret, done_by_looked_up|].
  apply assign_credential_done; [done|by apply Hro1|done..].
Qed.

Lemma detach_credential_done u c w :
  FedInv w → healthy (db w) → is_cluster w c → may_own (federation w) u c →
  wp (detach_credential c) (λ _, done_by u w) w.
Proof.
  intros Hi Hd Hc Ho. unfold detach_credential. case_match; [|by apply wp_ret, done_by_looked_up].
  eapply wp_seq; [by apply removeClusterMonitoringCredential_fed| | |].
  2: { by intros e w2 (_ & _ & _ & _ & _ & ok & [=] & _). }
  2: { by intros w2 (_ & _ & _ & _ & _ & ok & [=] & _). }
  intros ok w1 Hset. destruct (done_by_assigned u c _ w _ w1 Hc Ho Hset) as [Hd1 _].
  destruct ok; simpl; [|by apply wp_ret].
  eapply wp_seq; [apply revokeMonitoringCredential_fed, Hd1| | |].
  - intros b w2 Hr. apply wp_ret. eapply done_by_trans; [done|by eapply done_by_fed_same].
  - by intros e w2 (_ & _ & _ & b & [=]).
  - by intros w2 (_ & _ & _ & b & [=]).
Qed.

Lemma removeClusterMonitoringCredential_stewarded clusterID req w :
  FedInv w → healthy (db w) →
  wp (removeClusterMonitoringCredential clusterID req) (stewarded (param req "token") w) w.
Proof.
  intros Hi Hd. apply wp_as_owner; [done|]. intros u c w1 Hu Hi1 Hro1 Hc Ho.
  apply (wp_seq (λ _, done_by u w1)); [|intros s w2 Hd2; case_match; by apply wp_ret|done..].
  apply detach_credential_done; [done|by apply Hro1|done..].
Qed.
End access_proofs.

(** ** The commands that only look things up *)

Section lookup_proofs.
Context `{D : Dynamo} `{P : Platform} `{L : !DynamoLaws} `{DL : !DiskLaws} `{E : !Mailer}.

Lemma done_by_looks_up {A} u (m : Store A) w :
  fed_looks_up m → FedInv w → wp m (λ _, done_by u w) w.
Proof. intros Hm Hi. destruct (Hm w Hi). by apply done_by_looked_up. Qed.

Lemma findGroupByID_looks_up id : fed_looks_up (findGroupByID id).
Proof. eapply keeps_wp. intros w Hi. by apply findGroupByID_fed. Qed.

Lemma clusterAllowsAllGroups_looks_up c : fed_looks_up (clusterAllowsAllGroups c).
Proof.
  eapply (keeps_wp _ _ (λ w r, ∃ b, r = Ok b ∧ (b = true → granted w c wildcard) ∧ _)).
  intros w Hi. by apply clusterAllowsAllGroups_fed.
Qed.

Lemma listClusterAllowedgroups_stewarded clusterID req w :
  FedInv w →
  wp (listClusterAllowedgroups clusterID req) (stewarded (param req "token") w) w.
Proof.
  intros Hi. apply wp_authenticated_fed; [done|]. intros u w1 Hu Hi1 _.
  apply wp_getCluster_fed; [done|]. intros c w2 Hi2 _ Hc _. apply done_by_looks_up; [|done].
  apply keeps_bind; [apply listGroupsAllowedOnCluster_looks_up, (fi_proper _ Hi2 c Hc)|].
  intros groupIDs. apply keeps_bind; [|intros items; apply keeps_ret].
  case_match; [apply keeps_ret|]. apply keeps_for_collect. intros g.
  apply keeps_bind; [apply findGroupByID_looks_up|]. intros h. apply keeps_ret.
Qed.

Lemma checkGroupClusterAccess_stewarded clusterID groupID req w :
  FedInv w →
  wp (checkGroupClusterAccess clusterID groupID req) (stewarded (param req "token") w) w.
Proof.
  intros Hi. apply wp_authenticated_fed; [done|]. intros u w1 Hu Hi1 _.
  apply wp_getCluster_fed; [done|]. intros c w2 Hi2 _ Hc _.
  case_match.
  { apply done_by_looks_up; [|done].
    apply keeps_bind; [apply clusterAllowsAllGroups_looks_up|]. intros b. apply keeps_ret. }
  apply wp_getGroup_fed; [done|]. intros g w3 Hi3 Hro3 Hg _.
  case_bool_decide; [by apply wp_ret, done_by_looked_up|].
  eapply wp_seq; [apply groupAllowedOnCluster_fed; [done|by apply (si_group_ids _ (fi_server _ Hi3))|
    by apply (fi_proper _ Hi2 c Hc)]| | |].
  - intros b w4 (Hi4 & Hro4 & _). by apply wp_ret, done_by_looked_up.
  - by intros e w4 (_ & _ & b & [=] & _).
  - by intros w4 (_ & _ & b & [=] & _).
Qed.

Lemma listClusterGroupAllowedApplications_stewarded clusterID groupID req w :
  FedInv w →
  wp (listClusterGroupAllowedApplications clusterID groupID req) (stewarded (param req "token") w) w.
Proof.
  intros Hi. apply wp_authenticated_fed; [done|]. intros u w1 Hu Hi1 Hro1.
  apply wp_getCluster_fed; [done|]. intros c w2 Hi2 Hro2 Hc _.
  apply wp_getGroup_fed; [done|]. intros g w3 Hi3 Hro3 Hg _.
  assert (Hro : read_only w w3) by (etrans; [|done]; by etrans).
  assert (Hc3 : is_cluster w3 c) by by apply (read_only_is_cluster w2 w3).
  eapply (wp_owns _ u c _ w); [done..|]. intros b w4 Hi4 Hro4 _.
  assert (Hne : User.id u ≠ "") by (eapply requester_id, Hu; apply Hi).
  assert (Hp : proper_group (Group.id g)) by exact (stored_proper_group w3 g Hi3 Hg).
  assert (Hid : cluster_id (Cluster.id c)) by apply (fi_proper _ Hi3 c Hc3).
  apply done_by_looks_up; [|done]. apply keeps_bind.
  - case_match; [apply keeps_ret|].
    eapply (keeps_wp _ _ (λ w r, ∃ b, r = Ok b ∧ (b = true → ∃ gid, names w (Group.id g) gid ∧ _))).
    intros w5 Hi5. by apply userInGroup_fed.
  - intros [|]; [|apply keeps_ret]. simpl. apply keeps_bind; [|intros s; apply keeps_ret].
    eapply (keeps_wp _ _ (λ w r, ∃ s, r = Ok s ∧ (s = applications w (Cluster.id c) (Group.id g) ∨ _))).
    intros w5 Hi5. by apply listApplications_fed.
Qed.
(** The group of a listing is named, or given by a proper ID. *)
Definition group_given (req : Request) : Prop :=
  ∀ g, param req "group" = Some g → begins_with g groupIDPrefix = true → group_id g.

Lemma listClusters_stewarded `{JW : !JsonWriter} fuel req w :
  FedInv w → group_given req →
  wp (listClusters fuel req) (stewarded (param req "token") w) w.
Proof.
  intros Hi Hg. apply wp_authenticated_fed; [done|]. intros u w1 _ Hi1 _.
  apply done_by_looks_up; [|done]. apply keeps_bind.
  - destruct (param req "group") as [g|] eqn:Hp; [|apply listClusters_looks_up].
    apply listClustersByGroup_looks_up. by apply Hg.
  - intros l. apply keeps_bind; [|intros items; apply keeps_ret]. apply keeps_for_collect.
    intros c. apply keeps_bind; [apply findGroupByID_looks_up|]. intros g.
    apply keeps_bind; [apply getLocationsForCluster_looks_up|]. intros locs. apply keeps_ret.
Qed.
End lookup_proofs.
