(* ===== verification/ClusterAccess.v ===== *)
(** What the answers about the access of groups to clusters mean: asking for it, granting
    and revoking it, from the request to the table (src/ClusterCommands.cpp). *)

From S2P Require Import Prelude Entities Cache Dynamo Store StoreGroups StoreUsers StoreMembership.
From S2P Require Import StoreClusters StoreAccess Directory Federation Http UserCommands.
From S2P Require Import ClusterCommands.

(** * Lookups, as seen from the beginning of the request *)

Section seen.
Context `{D : Dynamo} `{P : Platform} `{L : !DynamoLaws} `{DL : !DiskLaws}.

Lemma requester_inj w token u u' :
  FedInv w → requester w token u → requester w token u' → u = u'.
Proof.
  intros Hi [Hu Ht] [Hu' Ht']. pose proof (di_users _ (si_directory _ (fi_server _ Hi))) as Hui.
  apply (stored_user_inj (table w SLATE_users)); [done|done|].
  apply (ui_tokens _ _ Hui); [done|done|congruence].
Qed.

Lemma names_back w w' s g : read_only w w' → names w' s g → names w s g.
Proof.
  intros Hro. apply names_same. intros x. symmetry. by apply (read_only_directory _ _ Hro).
Qed.

Lemma cluster_names_back w w' s c : read_only w w' → cluster_names w' s c → cluster_names w s c.
Proof.
  intros Hro. apply cluster_names_same. intros x. symmetry. by apply read_only_is_cluster.
Qed.

(** A lookup whose result is a fact about the world [w0] the request began in. *)
Lemma wp_seen {A B} (m : Store A) (R : World → Res A → Prop) (k : A → Store B) Q w0 w :
  wp m (λ r w', FedInv w' ∧ read_only w w' ∧ R w r) w → read_only w0 w →
  (∀ r, R w r → R w0 r ∧ is_Some (match r with Ok a => Some a | _ => None end)) →
  (∀ a w', FedInv w' → read_only w0 w' → R w0 (Ok a) → wp (k a) Q w') →
  wp (m ≫= k) Q w.
Proof.
  intros Hm Hro HR Hk. eapply wp_seq; [exact Hm| | |].
  - intros a w' (Hi & Hro' & Ha). apply Hk; [done|by etrans|by apply HR].
  - intros e w' (_ & _ & Ha). by destruct (HR _ Ha) as [_ [? [=]]].
  - intros w' (_ & _ & Ha). by destruct (HR _ Ha) as [_ [? [=]]].
Qed.

Lemma wp_seen_user {B} token (k : User.t → Store B) Q w :
  FedInv w →
  (∀ u w', FedInv w' → read_only w w' → (User.valid u = true → requester w token u) →
     (User.valid u = false → healthy (db w) → ∀ u', ¬ requester w token u') → wp (k u) Q w') →
  wp (authenticateUser token ≫= k) Q w.
Proof.
  intros Hi Hk. eapply wp_seq; [by apply authenticateUser_fed| | |].
  2: { by intros e w' (_ & _ & u & [=] & _). }
  2: { by intros w' (_ & _ & u & [=] & _). }
  intros u w' (Hi' & Hro & u' & [= <-] & Hv & Hn). by apply Hk.
Qed.

Lemma wp_seen_cluster {B} s (k : Cluster.t → Store B) Q w0 w :
  FedInv w → read_only w0 w →
  (∀ c w', FedInv w' → read_only w0 w' → cluster_found s w0 (Ok c) → wp (k c) Q w') →
  wp (getCluster s ≫= k) Q w.
Proof.
  intros Hi Hro. apply wp_seen; [by apply (getCluster_fed s w)|done|].
  intros [c| |]; [|done..]. intros Hf. split; [|by eexists]. destruct Hf as [(Hv & Hc & Hn)|[-> Hn]].
  - left. split; [done|]. split; [by apply (read_only_is_cluster w0 w)|by eapply cluster_names_back].
  - right. split; [done|]. intros Hd c' Hc' Hnm. apply (Hn (proj2 Hro Hd) c').
    + by apply (read_only_is_cluster w0 w).
    + eapply cluster_names_same, Hnm. intros x. by apply read_only_is_cluster.
Qed.

(** The group that is named, if there is one. *)
Definition named_group (s : string) (w : World) (r : Res Group.t) : Prop :=
  match r with
  | Ok g => (Group.valid g = true ∧ is_group w g ∧ names w s (Group.id g)) ∨
            (g = Group.none ∧ (healthy (db w) → ∀ g', is_group w g' → ¬ names w s (Group.id g')))
  | _ => False
  end.

Lemma group_found_named s w r :
  group_found (if begins_with s groupIDPrefix then Group.id else Group.name) s w r →
  named_group s w r.
Proof.
  destruct r as [g| |]; [|done..]. unfold group_found, named_group, names.
  intros [(Hv & Hk & Hg)|[-> Hn]]; [left|right]; (split; [done|]).
  - split; [done|]. case_match; [done|]. by exists g.
  - intros Hd g' Hg'. case_match; [by apply Hn|]. intros (h & Hh & Hname & _). by apply (Hn Hd h).
Qed.

Lemma wp_seen_group {B} s (k : Group.t → Store B) Q w0 w :
  FedInv w → read_only w0 w →
  (∀ g w', FedInv w' → read_only w0 w' → named_group s w0 (Ok g) → wp (k g) Q w') →
  wp (getGroup s ≫= k) Q w.
Proof.
  intros Hi Hro. apply (wp_seen (getGroup s) (named_group s)); [|done|].
  { eapply wp_mono, getGroup_fed, Hi. intros r w' (? & ? & Hg). split_and!; [done..|].
    by apply group_found_named. }
  destruct (read_only_directory _ _ Hro) as (_ & Hsg & _).
  intros [g| |]; [|done..]. intros Hf. split; [|by eexists]. destruct Hf as [(Hv & Hg & Hn)|[-> Hn]].
  - left. split; [done|]. split; [by apply Hsg|by eapply names_back].
  - right. split; [done|]. intros Hd g' Hg' Hnm. apply (Hn (proj2 Hro Hd) g').
    + by apply Hsg.
    + by eapply names_same, Hnm.
Qed.
End seen.

(** * Granting and revoking *)

Section change.
Context `{D : Dynamo} `{P : Platform} `{L : !DynamoLaws} `{DL : !DiskLaws} `{E : !Mailer}.

(** The group a request is about, or everyone. *)
Definition grantee (w : World) (groupID g : string) : Prop :=
  if is_wildcard groupID then g = wildcard
  else ∃ gr, is_group w gr ∧ names w groupID (Group.id gr) ∧ Group.id gr = g.

(** What a reply without an error says: the group that owns the cluster has access and
    keeps it, any other has a grant from now on, or has none. *)
Definition access_set (clusterID groupID : string) (b : bool) (w w' : World) : Prop :=
  ∃ c g, is_cluster w c ∧ cluster_names w clusterID (Cluster.id c) ∧ grantee w groupID g ∧
    (b = true ∧ g = Cluster.owningGroup c ∨ (granted w' (Cluster.id c) g ↔ b = true)).

(** When there must be such a reply. *)
Definition access_asked (clusterID groupID : string) (token : option string) (w : World) : Prop :=
  healthy (db w) ∧ (∃ u, requester w token u ∧ User.admin u = true) ∧
  ∃ c g, is_cluster w c ∧ cluster_names w clusterID (Cluster.id c) ∧ grantee w groupID g ∧
    g ≠ Cluster.owningGroup c.

Definition access_post (clusterID groupID : string) (b : bool) (token : option string) (w : World)
    (r : Res Response) (w' : World) : Prop :=
  (r = Ok done_reply → access_set clusterID groupID b w w') ∧
  (access_asked clusterID groupID token w → r = Ok done_reply).

Lemma access_refused clusterID groupID b token w n msg w' :
  ¬ access_asked clusterID groupID token w →
  access_post clusterID groupID b token w (Ok (failure n msg)) w'.
Proof. intros Hn. split; [by intros [=]|by intros ?]. Qed.

(** The last step. *)
Lemma access_step (m : Store bool) clusterID groupID b token msg c g w w1 :
  FedInv w1 → read_only w w1 → is_cluster w c → cluster_names w clusterID (Cluster.id c) →
  grantee w groupID g → wp m (fed_granted (Cluster.id c) g b w1) w1 →
  wp (m ≫= λ success, if negb success then mret (failure 500 msg) else mret done_reply)
    (access_post clusterID groupID b token w) w1.
Proof.
  intros Hi1 Hro Hc Hn Hg Hm. eapply wp_seq; [exact Hm| | |].
  2: { by intros e w2 (_ & _ & _ & _ & _ & ok & [=] & _). }
  2: { by intros w2 (_ & _ & _ & _ & _ & ok & [=] & _). }
  intros ok w2 (_ & _ & _ & _ & _ & ok' & [= <-] & Hok). destruct ok; apply wp_ret.
  - split; [|done]. intros _. exists c, g. split_and!; [done..|]. right.
    rewrite Hok. by rewrite decide_True.
  - apply access_refused. intros [Hd _]. apply Hok. by apply Hro.
Qed.

Lemma change_access_correct (op : string → string → Store bool) b (own : Response) msg clusterID
    groupID req w :
  (∀ g c w, FedInv w → proper_group g → begins_with c clusterIDPrefix = true →
     wp (op g c) (fed_granted c g b w) w) →
  (if b then own = done_reply else ∃ n msg, own = failure n msg) →
  FedInv w →
  wp (as_owner clusterID req (λ _ cluster,
        let finish (success : bool) : Store Response :=
          if negb success then mret (failure 500 msg) else mret done_reply in
        if is_wildcard groupID then
          success ← op wildcard (Cluster.id cluster); finish success
        else
          group ← getGroup groupID;
          if negb (Group.valid group) then mret (failure 404 "Group not found") else
          if bool_decide (Group.id group = Cluster.owningGroup cluster) then mret own else
          success ← op (Group.id group) (Cluster.id cluster); finish success))
    (access_post clusterID groupID b (param req "token") w) w.
Proof.
  intros Hop Hown Hi. apply wp_seen_user; [done|]. intros u w1 Hi1 Hro1 Hv Hno.
  destruct (User.valid u) eqn:Hu; simpl.
  2: { apply wp_ret, access_refused. intros (Hd & (u' & Hu' & _) & _). by destruct (Hno eq_refl Hd u'). }
  apply (wp_seen_cluster _ _ _ w); [done..|]. intros c w2 Hi2 Hro2 [(-> & Hc & Hn)|[-> Hno2]]; simpl.
  2: { apply wp_ret, access_refused. intros (Hd & _ & c & g & Hc & Hn & _). by destruct (Hno2 Hd c). }
  assert (Hc2 : is_cluster w2 c) by by apply (read_only_is_cluster w w2).
  assert (Huniq : ∀ c', is_cluster w c' → cluster_names w clusterID (Cluster.id c') → c' = c).
  { intros c' Hc' Hn'. apply (stored_cluster_inj _ _ _ Hc' Hc). exact (cluster_names_inj w clusterID _ _ Hi Hn' Hn). }
  apply (wp_seq (λ r w', FedInv w' ∧ read_only w w' ∧ ∃ ok, r = Ok ok ∧ (User.admin u = true → ok = true))).
  { unfold owns. destruct (User.admin u) eqn:Ha.
    { apply wp_ret. split_and!; [done..|]. by exists true. }
    assert (Hne : User.id u ≠ "") by (eapply requester_id; [apply Hi|by apply Hv]).
    eapply wp_mono; [|by apply (userInGroup_fed (User.id u) (Cluster.owningGroup c) w2)].
    intros r w3 (Hi3 & Hro3 & ok & -> & _). split_and!; [done|by etrans|]. by exists ok. }
  2: { by intros e w3 (_ & _ & ok & [=] & _). }
  2: { by intros w3 (_ & _ & ok & [=] & _). }
  intros ok w3 (Hi3 & Hro3 & ok' & [= <-] & Hadm). destruct ok; simpl.
  2: { apply wp_ret, access_refused. intros (_ & (u' & Hu' & Ha) & _).
       rewrite (requester_inj w _ u' u Hi Hu' (Hv eq_refl)) in Ha. by apply Hadm in Ha. }
  assert (Hid : begins_with (Cluster.id c) clusterIDPrefix = true) by apply (fi_proper _ Hi c Hc).
  destruct (is_wildcard groupID) eqn:Hw.
  { apply (access_step _ _ _ _ _ _ c wildcard); [done..| |].
    - unfold grantee. by rewrite Hw.
    - by apply Hop; [|apply proper_wildcard|]. }
  apply (wp_seen_group _ _ _ w); [done..|]. intros g w4 Hi4 Hro4 [(-> & Hg & Hng)|[-> Hno4]]; simpl.
  2: { apply wp_ret, access_refused. intros (Hd & _ & c' & g & _ & _ & Hgr & _).
       unfold grantee in Hgr. rewrite Hw in Hgr. destruct Hgr as (gr & Hgr & Hngr & _).
       by destruct (Hno4 Hd gr). }
  assert (Hgr : grantee w groupID (Group.id g)) by (unfold grantee; rewrite Hw; eauto).
  case_bool_decide as Heq.
  2: { apply (access_step _ _ _ _ _ _ c (Group.id g)); [done..|].
       apply Hop; [done|by apply (stored_proper_group w)|done]. }
  apply wp_ret. split.
  - intros [= ->]. destruct b; [|by destruct Hown as (? & ? & [=])].
    exists c, (Group.id g). split_and!; [done..|]. by left.
  - intros (_ & _ & c' & g' & Hc' & Hn' & Hg' & Hne). destruct Hne.
    rewrite (Huniq c' Hc' Hn'), <- Heq. unfold grantee in Hg'. rewrite Hw in Hg'.
    destruct Hg' as (gr & Hgr' & Hn3 & <-). by eapply (names_inj w groupID); [apply Hi|..].
Qed.

End change.

(** * Asking *)

Section asking.
Context `{D : Dynamo} `{P : Platform} `{L : !DynamoLaws} `{DL : !DiskLaws}.

(** A lookup that leaves the cached grants alone. *)
Lemma wp_access_kept {A} (m : Store A) Q w :
  frame access_cache m → wp m Q w → wp m (λ r w', Q r w' ∧ access_cache w' = access_cache w) w.
Proof. apply wp_frame. Qed.

Lemma authenticateUser_access token : frame access_cache (authenticateUser token).
Proof. unfold authenticateUser, findUserByToken, cache_user. solve_frame. Qed.

Lemma getGroup_access s : frame access_cache (getGroup s).
Proof. unfold getGroup, findGroupByID, findGroupByName, cache_group. solve_frame. Qed.

(** A grant for everyone is cached, and may expire while the request is answered. *)
Definition everyone_cached (w : World) (c : string) : Prop :=
  is_Some (mm_find_val c (CacheRecord.stale wildcard) (access_cache w)).

Lemma expiring_cached w w' c :
  access_cache w' = access_cache w → grant_expiring w' c → everyone_cached w c.
Proof. intros Ha (r & Hr & _). exists r. by rewrite <- Ha. Qed.

(** What an answer means; [granted w clusterID wildcard] is about the ID as it was given. *)
Definition access_answered (clusterID groupID : string) (b : bool) (w : World) : Prop :=
  ∃ c, is_cluster w c ∧ cluster_names w clusterID (Cluster.id c) ∧
  if is_wildcard groupID then
    (b = true → granted w clusterID wildcard) ∧
    (b = false → healthy (db w) → ¬ everyone_cached w clusterID → ¬ granted w clusterID wildcard)
  else ∃ g, is_group w g ∧ names w groupID (Group.id g) ∧
    let has_access := Group.id g = Cluster.owningGroup c ∨ allowed w (Cluster.id c) (Group.id g) in
    (b = true → has_access) ∧
    (b = false → healthy (db w) → ¬ everyone_cached w (Cluster.id c) → ¬ has_access).

Definition asked_post (clusterID groupID : string) (w : World) (r : Res Response) (w' : World) :
    Prop :=
  FedInv w' ∧ read_only w w' ∧
  ∀ b, r = Ok (access_reply clusterID groupID b) → access_answered clusterID groupID b w.

Lemma asked_refused clusterID groupID w n msg w' :
  FedInv w' → read_only w w' → asked_post clusterID groupID w (Ok (failure n msg)) w'.
Proof. intros Hi Hro. split_and!; [done..|]. by intros b [=]. Qed.

Lemma granted_read_only w w' c g : read_only w w' → granted w' c g ↔ granted w c g.
Proof. intros [Ht _]. unfold granted. by rewrite Ht. Qed.

Lemma allowed_read_only w w' c g : read_only w w' → allowed w' c g ↔ allowed w c g.
Proof. intros Hro. unfold allowed. by rewrite !(granted_read_only w w'). Qed.

(** The answer to the question whether a group has access to a cluster: it is yes only
    if the group - named by ID or by name, as the cluster is - owns the cluster or a grant
    for it or for everyone is stored, whatever is cached; and no only if there is none, as
    long as the service is available and no grant for everyone was cached. The question
    about everyone is answered from the grants stored under the ID of the cluster as it is
    written in the path, so for a cluster given by its name the answer is about another
    key. *)
Theorem access_check_correct (clusterID groupID : string) (req : Request) (w : World) :
  FedInv w →
  wp (checkGroupClusterAccess clusterID groupID req) (asked_post clusterID groupID w) w.
Proof.
  intros Hi. eapply wp_seq; [apply wp_access_kept;
    [apply authenticateUser_access|by apply authenticateUser_fed]| | |].
  2: { by intros e w' [(_ & _ & u & [=] & _) _]. }
  2: { by intros w' [(_ & _ & u & [=] & _) _]. }
  intros u w1 [(Hi1 & Hro1 & _) Ha1]. case_match; [by apply wp_ret, asked_refused|].
  eapply wp_seq; [apply wp_access_kept;
    [apply getCluster_frames|by apply (getCluster_fed clusterID)]| |by intros ? ? [(_ & _ & []) _]
    |by intros ? [(_ & _ & []) _]].
  intros c w2 [(Hi2 & Hro2' & Hc) Ha2']. assert (Ha2 : access_cache w2 = access_cache w) by congruence.
  assert (Hro2 : read_only w w2) by by etrans.
  destruct Hc as [(Hv & Hc & Hn)|[-> _]]; [rewrite Hv|by apply wp_ret, asked_refused]. simpl.
  assert (Hcw : is_cluster w c) by by apply (read_only_is_cluster w w1).
  assert (Hnw : cluster_names w clusterID (Cluster.id c)) by exact (cluster_names_back w w1 _ _ Hro1 Hn).
  destruct (is_wildcard groupID) eqn:Hw.
  - eapply wp_seq; [by apply clusterAllowsAllGroups_fed| | |].
    2: { by intros e w3 (_ & _ & b & [=] & _). }
    2: { by intros w3 (_ & _ & b & [=] & _). }
    intros b w3 (Hi3 & Hro3 & b' & [= <-] & Hyes & Hno). apply wp_ret.
    split; [done|]. split; [by etrans|]. intros b' [= <-]. exists c. split_and!; [done..|].
    rewrite Hw. split; [intros Hb; by apply (granted_read_only w w2), Hyes|].
    intros Hb Hd Hcached. destruct (Hno Hb (proj2 Hro2 Hd)) as [Hng|He].
    + intros Hg. by apply Hng, (granted_read_only w w2).
    + destruct Hcached. by eapply expiring_cached.
  - eapply wp_seq; [apply wp_access_kept; [apply getGroup_access|by apply (getGroup_fed groupID)]|
      |by intros ? ? [(_ & _ & []) _]|by intros ? [(_ & _ & []) _]].
    intros g w3 [(Hi3 & Hro3' & Hg) Ha3']. assert (Ha3 : access_cache w3 = access_cache w) by congruence.
    assert (Hro3 : read_only w w3) by by etrans.
    destruct (group_found_named _ _ _ Hg) as [(Hvg & Hgs & Hng)|[-> _]]; [rewrite Hvg|by apply wp_ret, asked_refused].
    simpl. assert (Hgw : is_group w g) by by apply (read_only_directory _ _ Hro2).
    assert (Hngw : names w groupID (Group.id g)) by exact (names_back w w2 _ _ Hro2 Hng).
    case_bool_decide as Heq.
    { apply wp_ret. split; [done|]. split; [done|]. intros b [= <-]. exists c.
      split_and!; [done..|]. rewrite Hw. exists g. cbv zeta. split_and!; [done..|by intros _; left|by intros [=]]. }
    eapply wp_seq; [by apply (groupAllowedOnCluster_fed (Group.id g) (Cluster.id c) w3 Hi3);
      [apply (si_group_ids _ (fi_server _ Hi))|apply (fi_proper _ Hi)]| | |].
    2: { by intros e w4 (_ & _ & b & [=] & _). }
    2: { by intros w4 (_ & _ & b & [=] & _). }
    intros b w4 (Hi4 & Hro4 & b' & [= <-] & Hyes & Hno). apply wp_ret.
    split; [done|]. split; [by etrans|]. intros b' [= <-]. exists c. split_and!; [done..|].
    rewrite Hw. exists g. cbv zeta. split_and!; [done..|intros Hb; right; by apply (allowed_read_only w w3), Hyes|].
    intros Hb Hd Hcached. destruct (Hno Hb (proj2 Hro3 Hd)) as [Hng'|He].
    + intros [?|Hal]; [done|]. by apply Hng', (allowed_read_only w w3).
    + destruct Hcached. by eapply expiring_cached.
Qed.
End asking.
