(* ===== verification/CredentialCommands.v ===== *)
(** The commands about the monitoring credentials themselves, which are reserved to
    administrators (src/MonitoringCredentialCommands.cpp). *)

From S2P Require Import Prelude Entities Cache Dynamo Store StoreUsers StoreClusters StoreMonCreds.
From S2P Require Import Directory Federation Http UserCommands ClusterCommands.

Section handlers.
Context `{D : Dynamo} `{P : Platform} `{J : !JsonParser}.

(** [if(!user || !user.admin)] *)
Definition as_admin (req : Request) (k : Store Response) : Store Response :=
  user ← authenticateUser (param req "token");
  if negb (User.valid user) || negb (User.admin user)
  then mret (failure 403 "User not authorized") else k.

Definition listMonitoringCredentials (fuel : nat) (req : Request) : Store Response :=
  as_admin req (
    credentials ← StoreMonCreds.listMonitoringCredentials fuel;
    mret (reply [apiVersion; ("items", JArray ((λ cred, JObject
      [apiVersion; ("kind", JString "MonitoringCredential");
       ("metadata", credential_json cred)]) <$> credentials))])).

(** The credential in the body of [addMonitoringCredential]. *)
Definition new_credential_of (req : Request) : Checked S3Credential.t :=
  metadata ←? metadata_of req "Missing metadata in request" "Incorrect type for metadata member";
  accessKey ←? required_string metadata "accessKey" "Missing access key in request"
                 "Incorrect type for access key";
  secretKey ←? required_string metadata "secretKey" "Missing secret key in request"
                 "Incorrect type for secret key";
  let cred := S3Credential.make accessKey secretKey in
  if str_empty (S3Credential.accessKey cred)
  then inl (failure 400 "Empty access key in request")
  else if str_empty (S3Credential.secretKey cred)
  then inl (failure 400 "Empty secret key in request")
  else inr cred.

Definition addMonitoringCredential (req : Request) : Store Response :=
  as_admin req (
    checked (new_credential_of req) (λ cred,
      added ← StoreMonCreds.addMonitoringCredential cred;
      if negb added then mret (failure 500 "Storing monitoring credential failed")
      else mret done_reply)).

(** A cluster that uses the credential loses it first. *)
Definition revokeMonitoringCredential (credentialID : string) (req : Request) : Store Response :=
  as_admin req (
    cred ← getMonitoringCredential credentialID;
    if negb (S3Credential.to_bool cred)
    then mret (failure 404 "Monitoring credential not found") else
    usingCluster ← findClusterUsingCredential cred;
    removed ← (if Cluster.valid usingCluster
               then StoreClusters.removeClusterMonitoringCredential (Cluster.id usingCluster)
               else mret true);
    if negb removed then mret (failure 500 "Revoking monitoring credential failed") else
    revoked ← StoreMonCreds.revokeMonitoringCredential credentialID;
    if negb revoked then mret (failure 500 "Revoking monitoring credential failed")
    else mret done_reply).

Definition deleteMonitoringCredential (credentialID : string) (req : Request) : Store Response :=
  as_admin req (
    cred ← getMonitoringCredential credentialID;
    if negb (S3Credential.to_bool cred)
    then mret (failure 404 "Monitoring credential not found") else
    deleted ← StoreMonCreds.deleteMonitoringCredential credentialID;
    if negb deleted then mret (failure 500 "Deleting monitoring credential failed")
    else mret done_reply).
End handlers.

(** * What these commands do to the federation *)

Section stewarded.
Context `{D : Dynamo} `{P : Platform} `{L : !DynamoLaws} `{DL : !DiskLaws} `{J : !JsonParser}.

(** Only an administrator gets past the check. *)
Lemma wp_as_admin req (k : Store Response) w :
  FedInv w →
  (∀ u w', requester w (param req "token") u → User.admin u = true → FedInv w' →
     read_only w w' → wp k (λ _, done_by u w') w') →
  wp (as_admin req k) (stewarded (param req "token") w) w.
Proof.
  intros Hi Hk. eapply wp_seq; [by apply authenticateUser_fed| | |].
  2: { by intros e w' (_ & _ & u & [=] & _). }
  2: { by intros w' (_ & _ & u & [=] & _). }
  intros u w' (Hi' & Hro & u' & [= <-] & Hv & _).
  destruct (User.valid u) eqn:Hu; simpl; [|by apply wp_ret, stewarded_looked_up].
  destruct (User.admin u) eqn:Ha; simpl; [|by apply wp_ret, stewarded_looked_up].
  eapply wp_mono, Hk; auto. intros r w2 Hd. eapply stewarded_by; [by apply Hv|].
  eapply done_by_trans; [by apply done_by_looked_up|done].
Qed.

(** A change of the credentials alone, followed by a reply. *)
Lemma wp_credential_step u (m : Store bool) (k : bool → Store Response) w :
  wp m (fed_same (λ r, ∃ b, r = Ok b) w) w → (∀ ok, ∃ r, k ok = mret r) →
  wp (m ≫= k) (λ _, done_by u w) w.
Proof.
  intros Hm Hk. apply wp_then_reply; [|done]. eapply wp_mono, Hm.
  intros r w' Hf. split; [by eapply done_by_fed_same|apply Hf].
Qed.

Lemma listMonitoringCredentials_stewarded fuel req w :
  FedInv w →
  wp (listMonitoringCredentials fuel req) (stewarded (param req "token") w) w.
Proof.
  intros Hi. apply (wp_as_admin req); [done|]. intros u w1 _ _ Hi1 _.
  apply (wp_seq (λ _ w', quiet w1 w')); [apply listMonitoringCredentials_quiet|intros l w2 Hq; apply wp_ret|..];
    intros; (apply done_by_looked_up; [by eapply quiet_FedInv|by apply quiet_ro]).
Qed.

(** The keys a request may bring: the cluster's record separates them by a space. *)
Definition keys_accepted (req : Request) : Prop :=
  ∀ cred, new_credential_of req = inr cred → proper_credential cred.

Lemma addMonitoringCredential_stewarded req w :
  FedInv w → keys_accepted req →
  wp (addMonitoringCredential req) (stewarded (param req "token") w) w.
Proof.
  intros Hi Hkeys. apply (wp_as_admin req); [done|]. intros u w1 _ _ Hi1 _.
  apply wp_checked; [|intros r; by apply done_by_looked_up]. intros cred Hcred.
  apply wp_credential_step; [|intros [|]; by eexists].
  apply addMonitoringCredential_fed; [done| | |by apply Hkeys].
  all: unfold new_credential_of in Hcred; invert_checks; repeat case_match; simplify_eq.
  2: reflexivity.
  by unfold S3Credential.to_bool; destruct (S3Credential.accessKey _), (S3Credential.secretKey _).
Qed.

Lemma deleteMonitoringCredential_stewarded credentialID req w :
  FedInv w →
  wp (deleteMonitoringCredential credentialID req) (stewarded (param req "token") w) w.
Proof.
  intros Hi. apply (wp_as_admin req); [done|]. intros u w1 _ _ Hi1 _.
  eapply wp_seq; [by apply getMonitoringCredential_fed| | |].
  2: { by intros e w' (_ & _ & c & [=] & _). }
  2: { by intros w' (_ & _ & c & [=] & _). }
  intros cred w2 (Hi2 & Hro2 & _). case_match; [by apply wp_ret, done_by_looked_up|].
  eapply wp_mono; [intros r w3 Hd; eapply done_by_trans; [by apply done_by_looked_up|exact Hd]|].
  apply wp_credential_step; [by apply deleteMonitoringCredential_fed|intros [|]; by eexists].
Qed.

Lemma revokeMonitoringCredential_stewarded credentialID req w :
  FedInv w → healthy (db w) →
  wp (revokeMonitoringCredential credentialID req) (stewarded (param req "token") w) w.
Proof.
  intros Hi Hd. apply (wp_as_admin req); [done|]. intros u w1 _ Ha Hi1 Hro1.
  eapply wp_seq; [by apply getMonitoringCredential_fed| | |].
  2: { by intros e w' (_ & _ & c & [=] & _). }
  2: { by intros w' (_ & _ & c & [=] & _). }
  intros cred w2 (Hi2 & Hro2 & _). destruct (S3Credential.to_bool cred) eqn:Hb; simpl.
  2: { by apply wp_ret, done_by_looked_up. }
  eapply wp_seq; [by apply (findClusterUsingCredential_fed cred)| |by intros ? ? (_ & _ & [])
                 |by intros ? (_ & _ & [])].
  intros c w3 (Hi3 & Hro3 & Hc).
  assert (Hro13 : read_only w1 w3) by by etrans.
  eapply wp_mono; [intros r w4 Hd4; eapply done_by_trans; [by apply done_by_looked_up|exact Hd4]|].
  assert (Hrev : ∀ w, FedInv w → wp (revoked ← StoreMonCreds.revokeMonitoringCredential credentialID;
    if negb revoked then mret (failure 500 "Revoking monitoring credential failed")
    else mret done_reply) (λ _, done_by u w) w).
  { intros w0 Hi0. apply wp_credential_step; [by apply revokeMonitoringCredential_fed|].
    intros [|]; by eexists. }
  apply (wp_seq (λ r w', done_by u w3 w' ∧ ∃ ok, r = Ok ok)).
  - destruct Hc as [->|[Hc _]]; [apply wp_ret; split; [by apply done_by_looked_up|eauto]|].
    case_match; [|apply wp_ret; split; [by apply done_by_looked_up|eauto]].
    assert (Hc3 : is_cluster w3 c) by by apply (read_only_is_cluster w2 w3).
    eapply wp_mono, removeClusterMonitoringCredential_fed; [|done| |done].
    + intros r w4. apply done_by_assigned; [done|by left].
    + by apply Hro13, Hro1.
  - intros ok w4 [Hd4 _]. destruct ok; simpl; [|by apply wp_ret].
    eapply wp_mono, Hrev, Hd4. intros r w5. by apply done_by_trans.
  - by intros e w4 (_ & ok & [=]).
  - by intros w4 (_ & ok & [=]).
Qed.
End stewarded.
