(* ===== verification/SecretCommands.v ===== *)
(** The handlers of the requests about secrets (src/SecretCommands.cpp), which keep the
    secrets of the store and those of the Kubernetes clusters in step. *)

From S2P Require Import Prelude Bytes Base64 Text Entities Cache Dynamo Store Demo Kubernetes.
From S2P Require Import Listing Catalogue StoreGroups StoreUsers StoreMembership StoreClusters.
From S2P Require Import StoreAccess StoreInstances StoreSecrets StoreMonCreds Directory.
From S2P Require Import Federation Http UserCommands GroupCommands ClusterCommands.

(** * The buffer the contents are written to *)

(** [SecretStringBuffer]: a buffer that overwrites what it leaves behind. Its cells are
    the characters written, and [None] where nothing has been written. *)
Module SecretStringBuffer.
Record t := mk { data : list (option ascii); size : nat }.

Definition dataSize (b : t) : nat := length (data b).

Definition make : t := mk (replicate 32 None) 0.

(** [SecretData newData(count); std::copy_n(data.data.get(),size,newData.data.get());] *)
Definition moved (count : nat) (b : t) : t :=
  mk (take (size b) (data b) ++ replicate (count - size b) None) (size b).

Definition Reserve (count : nat) (b : t) : t := if dataSize b <? count then moved count b else b.

(** Storing through a pointer: undefined behind the end, where it gives nothing. *)
Definition store (i : nat) (c : ascii) (b : t) : option t :=
  if i <? dataSize b then Some (mk (<[i := Some c]> (data b)) (size b)) else None.

Definition Put (c : ascii) (b : t) : option t :=
  let b := if size b =? dataSize b then Reserve (2 * size b) b else b in
  b ← store (size b) c b;
  Some (mk (data b) (size b + 1)).

Definition PutUnsafe : ascii → t → option t := Put.
Definition Clear (b : t) : t := make.
Definition ShrinkToFit (b : t) : t := moved (size b) b.

(** [Push(count)] returns a pointer to the new cells. *)
Definition Push (count : nat) (b : t) : nat * t :=
  let b := Reserve (size b + count) b in (size b, mk (data b) (size b + count)).
Definition Pop (count : nat) (b : t) : t := mk (data b) (size b - count).

(** The first [GetSize()] characters of [GetString()]. *)
Fixpoint text (cells : list (option ascii)) : option string :=
  match cells with
  | [] => Some ""
  | Some c :: cells => String c <$> text cells
  | None :: _ => None
  end.
Definition contents (b : t) : option string := text (take (size b) (data b)).
End SecretStringBuffer.

(** [rapidjson::Writer], as the characters it puts into its stream. *)
Class JsonSerializer := Serialize : Json → string.

(** [writer(buf)] with [value.Accept(writer)] *)
Fixpoint write_text (s : string) (b : SecretStringBuffer.t) : option SecretStringBuffer.t :=
  match s with
  | EmptyString => Some b
  | String c s => b ← SecretStringBuffer.Put c b; write_text s b
  end.

(** * Bodies of requests *)

Section bodies.
Context `{J : !JsonParser}.

Definition allowedKeyCharacters : string :=
  "-._0123456789abcdefghijklmnopqrstuvwxyzABCDEFGHIJKLMNOPQRSTUVWXYZ".
Definition allowedNameCharacters : string := "abcdefghijklmnopqrstuvwxyz0123456789-.".

(** The loop over the members of the contents: keys and coded values. *)
Fixpoint check_contents (members : list (string * Json)) : Checked (list (string * string)) :=
  match members with
  | [] => inr []
  | (name, value) :: members =>
      match value with
      | JString value =>
          if str_size name =? 0 then inl (failure 400 "Secret keys may not be empty") else
          if 253 <? str_size name
          then inl (failure 400 "Secret keys may be no more than 253 characters") else
          if has_not_of allowedKeyCharacters (c_str name)
          then inl (failure 400 "Secret key does not match [-._a-zA-Z0-9]+") else
          if negb (sanityCheckBase64 (c_str value))
          then inl (failure 400 "Secret data items must be base64 encoded") else
          rest ←? check_contents members; inr ((name, value) :: rest)
      | _ => inl (failure 400 "Secret value is not a string")
      end
  end.

Inductive Source := Contents (members : list (string * Json)) | CopyFrom (sourceID : string).

Record SecretBody := mkSecretBody {
  sb_name : string; sb_group : string; sb_cluster : string; sb_source : Source }.

Definition source_of (members : list (string * Json)) : Checked Source :=
  match find_member "contents" members, find_member "copyFrom" members with
  | Some _, Some _ => inl (failure 400 "Secret contents and copy source cannot both be specified")
  | None, None => inl (failure 400 "Missing secret contents or source in request")
  | Some (JObject contents), None =>
      _ ←? check_contents contents; inr (Contents contents)
  | Some _, None => inl (failure 400 "Incorrect type for contents")
  | None, Some (JString sourceID) => inr (CopyFrom (c_str sourceID))
  | None, Some _ => inl (failure 400 "Incorrect type for copyFrom")
  end.

Definition secret_body_of (req : Request) : Checked SecretBody :=
  members ←? body_members req;
  metadata ←? metadata_in members "Missing user metadata in request" "Incorrect type for metadata";
  name ←? required_string metadata "name"
            "Missing secret name in request" "Incorrect type for secret name";
  group ←? required_string metadata "group"
            "Missing Group ID in request" "Incorrect type for Group ID";
  cluster ←? required_string metadata "cluster"
            "Missing cluster ID in request" "Incorrect type for cluster ID";
  source ←? source_of members;
  if 253 <? str_size name then inl (failure 400 "Secret name too long") else
  if has_not_of allowedNameCharacters name
  then inl (failure 400 "Secret name contains an invalid character") else
  inr (mkSecretBody name group cluster source).
End bodies.

(** * The handlers *)

Section handlers.
Context `{D : Dynamo} `{P : Platform} `{!Scrypt} `{!Processes} `{J : !JsonParser}.
Context `{JS : !JsonSerializer}.
Context (secretKey : string).

Definition secret_json (s : Secret.t) : Store Json :=
  group ← getGroup (Secret.group s);
  cluster ← getCluster (Secret.cluster s);
  mret (JObject [("id", JString (Secret.id s)); ("name", JString (Secret.name s));
    ("group", JString (Group.name group)); ("cluster", JString (Cluster.name cluster));
    ("created", JString (Secret.ctime s))]).

Definition listSecrets (req : Request) : Store Response :=
  user ← authenticateUser (param req "token");
  if negb (User.valid user) then mret (failure 403 "User not authorized") else
  match param req "group" with
  | None => mret (failure 400 "Group not specified")
  | Some groupRaw =>
      let cluster := default "" (param req "cluster") in
      group ← getGroup groupRaw;
      if negb (Group.valid group) then mret (failure 404 "Group not found") else
      allowed ← (if User.admin user then mret true
                 else userInGroup (User.id user) (Group.id group));
      if negb allowed then mret (failure 403 "User not authorized") else
      secrets ← StoreSecrets.listSecrets (Group.id group) cluster;
      items ← for_collect secrets (λ secret,
        metadata ← secret_json secret;
        mret (JObject [apiVersion; ("kind", JString "Secret"); ("metadata", metadata)]));
      mret (reply [apiVersion; ("items", JArray items)])
  end.

(** The contents as they are encrypted. *)
Definition encrypt_contents (members : list (string * Json)) : Store string :=
  match write_text (Serialize (JObject members)) SecretStringBuffer.make
          ≫= SecretStringBuffer.contents with
  | Some data => encryptSecret secretKey data
  | None => throw "undefined behaviour: write past the end of the buffer"
  end.

(** The data of the new secret, and the document its values are taken from. *)
Definition secret_data (user : User.t) (source : Source)
    (k : string → Json → Store Response) : Store Response :=
  match source with
  | Contents members => data ← encrypt_contents members; k data (JObject members)
  | CopyFrom sourceID =>
      existing ← StoreSecrets.getSecret sourceID;
      if negb (Secret.valid existing)
      then mret (failure 404 "The specified source secret does not exist") else
      allowed ← userInGroup (User.id user) (Secret.group existing);
      if negb allowed then mret (failure 403 "User not authorized") else
      secretData ← lift (decryptSecret secretKey existing);
      k (Secret.data existing) (Parse secretData)
  end.

(** [makeTemporaryFile("secret_")] for each value; the files last until [k] has ended. *)
Fixpoint with_value_files (members : list (string * Json)) (arguments : list string)
    (k : list string → Store Response) : Store Response :=
  match members with
  | [] => k arguments
  | (name, JString coded) :: members =>
      value ← lift (default (Throw "undefined behaviour: write past the end of the buffer")
                     (decodeBase64 (c_str coded)));
      with_temporary alive "secret_" (λ outPath,
        failed ← system (write_file outPath value);
        match failed with
        | Some CannotOpen => throw ("Failed to open " +:+ outPath +:+ " for writing")
        | Some CannotWrite => throw ("Failed while writing to " +:+ outPath)
        | None =>
            with_value_files members
              (arguments ++ ["--from-file=" +:+ c_str name +:+ "=" +:+ outPath]) k
        end)
  | _ => mret AssertionFailed
  end.

(** Putting the secret into Kubernetes; when that fails it is removed from the store. *)
Definition install_secret (configPath : string) (group : Group.t) (secret : Secret.t)
    (contents : Json) (k : Store Response) : Store Response :=
  created ← try_catch (_ ← kubectl_create_namespace configPath group; mret None)
              (λ err, mret (Some err));
  match created with
  | Some err =>
      _ ← StoreSecrets.removeSecret (Secret.id secret);
      mret (failure 500 ("Failed to create namespace: " +:+ err))
  | None =>
      match contents with
      | JObject members =>
          with_value_files members
            ["create"; "secret"; "generic"; Secret.name secret; "--namespace";
             Group.namespaceName group]
            (λ arguments,
              result ← kubectl configPath arguments;
              if negb (status result =? 0)%Z then
                _ ← StoreSecrets.removeSecret (Secret.id secret);
                mret (failure 500 ("Failed to store secret to kubernetes: " +:+ error result))
              else k)
      | _ => mret AssertionFailed
      end
  end.

(** Adding the new secret to the store and to Kubernetes. *)
Definition store_secret (group : Group.t) (cluster : Cluster.t) (secret : Secret.t)
    (contents : Json) : Store Response :=
  success ← try_catch (StoreSecrets.addSecret secret) (λ _, mret false);
  if negb success
  then mret (failure 500 "Failed to store secret to the persistent store") else
  configPath ← configPathForCluster (Cluster.id cluster);
  install_secret configPath group secret contents
    (mret (reply [apiVersion; ("kind", JString "Secret");
       ("metadata", JObject [("id", JString (Secret.id secret));
                             ("name", JString (Secret.name secret))])])).

(** [newID] is what [idGenerator.generateSecretID()] returns. *)
Definition createSecret (newID : string) (req : Request) : Store Response :=
  user ← authenticateUser (param req "token");
  if negb (User.valid user) then mret (failure 403 "User not authorized") else
  checked (secret_body_of req) (λ body,
    ctime ← gets (λ w, timestamp (fs w));
    group ← getGroup (sb_group body);
    if negb (Group.valid group) then mret (failure 404 "Group not found") else
    member ← userInGroup (User.id user) (Group.id group);
    if negb member then mret (failure 403 "User not authorized") else
    cluster ← getCluster (sb_cluster body);
    if negb (Cluster.valid cluster) then mret (failure 404 "Cluster not found") else
    allowed ← (if negb (bool_decide (Group.id group = Cluster.owningGroup cluster))
               then groupAllowedOnCluster (Group.id group) (Cluster.id cluster)
               else mret true);
    if negb allowed then mret (failure 403 "User not authorized") else
    existing ← findSecretByName (Group.id group) (Cluster.id cluster) (sb_name body);
    if Secret.valid existing
    then mret (failure 400 "A secret with the same name already exists") else
    secret_data user (sb_source body) (λ data contents,
      store_secret group cluster
        (Secret.mk true newID (sb_name body) (Group.id group) (Cluster.id cluster) ctime data)
        contents)).

(** [internal::deleteSecret]: the message of the error, or nothing. *)
Definition delete_secret (secret : Secret.t) (force reachable : bool) : Store string :=
  group ← findGroupByID (Secret.group secret);
  let deleted : Store string :=
    configPath ← configPathForCluster (Secret.cluster secret);
    result ← kubectl configPath
      ["delete"; "secret"; Secret.name secret; "--namespace"; Group.namespaceName group];
    mret (if negb (status result =? 0)%Z && negb force
          then "Failed to delete secret from kubernetes" else "") in
  err ← (if reachable then
           try_catch deleted (λ _,
             mret (if negb force then "Failed to delete secret from kubernetes" else ""))
         else mret "");
  if negb (str_empty err) then mret err else
  success ← StoreSecrets.removeSecret (Secret.id secret);
  mret (if negb success then "Failed to delete secret from database" else "").

Definition deleteSecret (secretID : string) (req : Request) : Store Response :=
  user ← authenticateUser (param req "token");
  if negb (User.valid user) then mret (failure 403 "User not authorized") else
  secret ← StoreSecrets.getSecret secretID;
  if negb (Secret.valid secret) then mret (failure 404 "Secret not found") else
  member ← userInGroup (User.id user) (Secret.group secret);
  if negb member then mret (failure 403 "User not authorized") else
  let force := match param req "force" with Some _ => true | None => false end in
  err ← delete_secret secret force true;
  if negb (str_empty err) then mret (failure 500 err) else mret done_reply.

Definition getSecret (secretID : string) (req : Request) : Store Response :=
  user ← authenticateUser (param req "token");
  if negb (User.valid user) then mret (failure 403 "User not authorized") else
  secret ← StoreSecrets.getSecret secretID;
  if negb (Secret.valid secret) then mret (failure 404 "Secret not found") else
  member ← userInGroup (User.id user) (Secret.group secret);
  if negb member then mret (failure 403 "User not authorized") else
  metadata ← secret_json secret;
  match decryptSecret secretKey secret with
  | Ok secretData =>
      mret (reply [apiVersion; ("kind", JString "Secret"); ("metadata", metadata);
                   ("contents", Parse secretData)])
  | Throw err => mret (failure 500 ("Secret decryption failed: " +:+ err))
  | OutOfFuel => out_of_fuel
  end.
End handlers.

(** * The buffer *)

Module Buffer.
Import SecretStringBuffer.

(** The buffer holds a text: the written cells are its characters, and fit. *)
Definition holds_text (b : t) (s : string) : Prop :=
  size b = str_size s ∧ contents b = Some s ∧ size b ≤ dataSize b.

Lemma text_app l k :
  text (l ++ k) = (s ← text l; t ← text k; Some (s +:+ t)).
Proof.
  induction l as [|[c|] l IH]; simpl; [by destruct (text k)| |done].
  rewrite IH. destruct (text l); simpl; [|done]. by destruct (text k).
Qed.

Lemma moved_holds count b s :
  holds_text b s → size b ≤ count → holds_text (moved count b) s ∧ dataSize (moved count b) = count.
Proof.
  intros (Hs & Hc & Hle) Hn. unfold holds_text, contents, moved, dataSize in *. simpl.
  rewrite length_app, length_take, length_replicate.
  replace (size b `min` length (data b)) with (size b) by lia. split; [|lia].
  split; [done|]. split; [|lia]. rewrite take_app_le, take_take by (rewrite length_take; lia).
  by rewrite Nat.min_id.
Qed.

Lemma Reserve_holds count b s :
  holds_text b s → holds_text (Reserve count b) s ∧ count ≤ dataSize (Reserve count b) ∧
    dataSize b ≤ dataSize (Reserve count b).
Proof.
  intros Hb. unfold Reserve. destruct (Nat.ltb_spec (dataSize b) count); [|done].
  pose proof Hb as (_ & _ & Hle). destruct (moved_holds count b s Hb) as [Hm ->]; [lia|].
  split; [done|]. lia.
Qed.

Lemma store_holds c b s :
  holds_text b s → size b < dataSize b →
  ∃ b', store (size b) c b = Some b' ∧
    holds_text (mk (data b') (size b + 1)) (s +:+ String c "") ∧ dataSize b' = dataSize b.
Proof.
  intros (Hs & Hc & Hle) Hlt. unfold store. rewrite (proj2 (Nat.ltb_lt _ _)) by done.
  eexists. split; [done|]. unfold holds_text, contents, dataSize in *. simpl.
  rewrite length_insert. split; [|done]. split; [rewrite str_size_app; simpl; lia|]. split; [|lia].
  rewrite Nat.add_1_r. rewrite (take_S_r _ _ (Some c)) by by apply list_lookup_insert_eq.
  rewrite take_insert_ge by lia. by rewrite text_app, Hc.
Qed.

Lemma Put_holds c b s :
  holds_text b s → 0 < dataSize b →
  ∃ b', Put c b = Some b' ∧ holds_text b' (s +:+ String c "") ∧ 0 < dataSize b'.
Proof.
  intros Hb Hpos. unfold Put. pose proof Hb as (_ & _ & Hle).
  set (b1 := if size b =? dataSize b then Reserve (2 * size b) b else b).
  assert (Hb1 : holds_text b1 s ∧ size b1 < dataSize b1).
  { unfold b1. destruct (Nat.eqb_spec (size b) (dataSize b)) as [Heq|Hne]; [|split; [done|lia]].
    destruct (Reserve_holds (2 * size b) b s Hb) as (Hr & Hn & _). split; [done|].
    destruct Hr as (Hr & _). destruct Hb as (Hs & _). lia. }
  destruct Hb1 as [Hb1 Hlt]. destruct (store_holds c b1 s Hb1 Hlt) as (b' & Hst & Hh & Hd).
  rewrite Hst. simpl. eexists. split; [done|]. unfold store in Hst.
  destruct (_ <? _) in Hst; [|done]. injection Hst as <-. split; [exact Hh|].
  unfold dataSize in *. simpl in *. lia.
Qed.

Lemma write_text_holds s t b :
  holds_text b t → 0 < dataSize b →
  ∃ b', write_text s b = Some b' ∧ holds_text b' (t +:+ s) ∧ 0 < dataSize b'.
Proof.
  revert b t. induction s as [|c s IH]; intros b t Hb Hpos; simpl.
  - exists b. by rewrite str_app_nil_r.
  - destruct (Put_holds c b t Hb Hpos) as (b1 & -> & Hb1 & Hpos1). simpl.
    destruct (IH b1 _ Hb1 Hpos1) as (b2 & -> & Hb2 & Hpos2). exists b2.
    rewrite str_app_assoc in Hb2. done.
Qed.

Lemma make_holds : holds_text make "" ∧ dataSize make = 32.
Proof. unfold holds_text. simpl. split_and!; [done|done|lia|done]. Qed.

(** C28: the buffer implements an appendable text within its bounds: what a writer puts into a
    buffer with room for at least one character is appended, never behind the end; the
    other operations keep the text, or start over, as they should. Only a buffer shrunk to
    nothing has no room, and writing to it goes past its end. *)
Theorem buffer_refines_text (b : t) (t s : string) (n : nat) :
  holds_text b t →
  (0 < dataSize b → ∃ b', write_text s b = Some b' ∧ holds_text b' (t +:+ s)) ∧
  holds_text (Clear b) "" ∧ holds_text (Reserve n b) t ∧ holds_text (ShrinkToFit b) t ∧
  (size (Pop n (Push n b).2) = size b ∧ holds_text (Pop n (Push n b).2) t) ∧
  (dataSize b = 0 → ∀ c, Put c b = None).
Proof.
  intros Hb. pose proof Hb as (Hs & Hc & Hle). split_and!.
  - intros Hpos. destruct (write_text_holds s t b Hb Hpos) as (b' & ? & ? & _). eauto.
  - apply make_holds.
  - by apply Reserve_holds.
  - by apply moved_holds.
  - destruct (Reserve_holds (size b + n) b t Hb) as ((Hs' & _) & _). simpl. lia.
  - destruct (Reserve_holds (size b + n) b t Hb) as ((Hs' & Hc' & Hle') & Hn & _).
    unfold Pop, Push. simpl. unfold holds_text, contents, dataSize in *. simpl in *.
    rewrite Nat.add_sub. split_and!; [done|done|lia].
  - intros Hz c. assert (Hsz : size b = 0) by lia. unfold Put. rewrite Hsz, Hz. simpl.
    unfold store, Reserve. rewrite Hz. simpl. by rewrite Hz, Hsz.
Qed.
End Buffer.
