(* ===== verification/VolumeCommands.v ===== *)
(** The commands about volume claims (src/VolumeClaimCommands.cpp). *)

From S2P Require Import Prelude Text Entities Cache Dynamo Store Kubernetes Listing.
From S2P Require Import Catalogue StoreGroups StoreUsers StoreMembership StoreClusters.
From S2P Require Import StoreAccess StoreInstances StoreVolumes Http UserCommands SecretCommands.

Section handlers.
Context `{D : Dynamo} `{P : Platform} `{PR : !Processes} `{J : !JsonParser}.
Context `{JS : !JsonSerializer}.

(** * Reading claims *)

(** The status in the description that kubectl prints of a claim. *)
Definition phase_of (volumeStatus : Json) : Json :=
  match member "status" volumeStatus ≫= member "phase" with
  | Some phase => phase
  | None => JString "unknown"
  end.

(** The metadata and the status of a claim in the listing. *)
Definition volume_item_json (volume : PersistentVolumeClaim.t) : Store Json :=
  group ← getGroup (PersistentVolumeClaim.group volume);
  cluster ← getCluster (PersistentVolumeClaim.cluster volume);
  configPath ← configPathForCluster (PersistentVolumeClaim.cluster volume);
  group' ← getGroup (PersistentVolumeClaim.group volume);
  let nspace := Group.namespaceName group' in
  result ← kubectl configPath
    ["get"; "pvc"; PersistentVolumeClaim.name volume; "--namespace"; nspace; "-o=json"];
  mret (JObject [apiVersion; ("kind", JString "PersistentVolumeClaim");
    ("metadata", JObject
      [("id", JString (PersistentVolumeClaim.id volume));
       ("name", JString (PersistentVolumeClaim.name volume));
       ("group", JString (Group.name group)); ("cluster", JString (Cluster.name cluster));
       ("storageRequest", JString (PersistentVolumeClaim.storageRequest volume));
       ("storageClass", JString (PersistentVolumeClaim.storageClass volume));
       ("accessMode", JString (PersistentVolumeClaim.accessMode_to_string
          (PersistentVolumeClaim.accessMode volume)));
       ("volumeMode", JString (PersistentVolumeClaim.volumeMode_to_string
          (PersistentVolumeClaim.volumeMode volume)));
       ("created", JString (PersistentVolumeClaim.ctime volume));
       ("status", phase_of (Parse (c_str (output result))))])]).

(** The claims that are asked for. *)
Definition requested_volumes (fuel : nat) (req : Request) : Store (list PersistentVolumeClaim.t) :=
  match param req "group", param req "cluster" with
  | None, None => listPersistentVolumeClaims fuel
  | group, cluster =>
      listPersistentVolumeClaimsByClusterOrGroup (default "" group) (default "" cluster)
  end.

Definition listVolumeClaims (fuel : nat) (req : Request) : Store Response :=
  user ← authenticateUser (param req "token");
  if negb (User.valid user) then mret (failure 403 "User not authorized") else
  volumes ← requested_volumes fuel req;
  items ← for_collect volumes volume_item_json;
  mret (reply [apiVersion; ("items", JArray items)]).

(** What the details of a claim and the reply to its creation tell of it, after its ID and
    name. *)
Definition volume_metadata (volume : PersistentVolumeClaim.t) : Store (list (string * Json)) :=
  group ← getGroup (PersistentVolumeClaim.group volume);
  cluster ← getCluster (PersistentVolumeClaim.cluster volume);
  mret [("group", JString (Group.name group)); ("cluster", JString (Cluster.name cluster));
        ("storageRequest", JString (PersistentVolumeClaim.storageRequest volume));
        ("accessMode", JString (PersistentVolumeClaim.accessMode_to_string
           (PersistentVolumeClaim.accessMode volume)));
        ("volumeMode", JString (PersistentVolumeClaim.volumeMode_to_string
           (PersistentVolumeClaim.volumeMode volume)));
        ("storageClass", JString (PersistentVolumeClaim.storageClass volume));
        ("created", JString (PersistentVolumeClaim.ctime volume))].

(** The details that are added to the result. *)
Definition claim_details (query : commandResult) : Store (list (string * Json)) :=
  if negb (status query =? 0)%Z then
    mret [("details", JObject [("kind", JString "Error");
                               ("message", JString "Failed to get information for PVC")])]
  else
    status ← asserted (member "status" (Parse (c_str (output query))));
    has_phase ← asserted (has_member "phase" status);
    match has_phase, member "phase" status with
    | true, Some phase => mret [("details", JObject [("status", phase)])]
    | _, _ => mret []
    end.

Definition fetchVolumeClaimInfo (claimID : string) (req : Request) : Store Response :=
  user ← authenticateUser (param req "token");
  if negb (User.valid user) then mret (failure 403 "User not authorized") else
  volume ← getPersistentVolumeClaim claimID;
  if negb (PersistentVolumeClaim.valid volume) then mret (failure 404 "Volume not found") else
  member ← (if User.admin user then mret true
            else userInGroup (User.id user) (PersistentVolumeClaim.group volume));
  if negb member then mret (failure 403 "User not authorized") else
  cluster ← getCluster (PersistentVolumeClaim.cluster volume);
  if negb (Cluster.valid cluster) then mret (failure 500 "Invalid Cluster") else
  configPath ← configPathForCluster (Cluster.id cluster);
  group ← getGroup (PersistentVolumeClaim.group volume);
  let nspace := Group.namespaceName group in
  metadata ← volume_metadata volume;
  query ← kubectl configPath
    ["get"; "pvc"; "-n"; nspace; "-o=json"; PersistentVolumeClaim.name volume];
  details ← claim_details query;
  mret (reply ([apiVersion; ("kind", JString "PersistentVolumeClaim");
    ("metadata", JObject (("id", JString (PersistentVolumeClaim.id volume))
       :: ("name", JString (PersistentVolumeClaim.name volume)) :: metadata))] ++ details)).

(** * Creating claims *)

Definition mode_of {A} (mode : string) (from : string → Res A) (what : string) : Checked A :=
  match from mode with
  | Ok m => inr m
  | Throw err => inl (failure 400 ("Invalid value for " +:+ what +:+ " mode: " +:+ err))
  | OutOfFuel => inl AssertionFailed
  end.

(** The claim a request describes; the names of its group and its cluster are to be
    replaced by their IDs. *)
Definition new_volume_of (newID ctime : string) (req : Request) :
    Checked PersistentVolumeClaim.t :=
  metadata ←? metadata_of req "Missing user metadata in request" "Incorrect type for metadata";
  group ←? required_string metadata "group" "Missing Group" "Incorrect type for Group";
  cluster ←? required_string metadata "cluster" "Missing cluster" "Incorrect type for cluster";
  name ←? required_string metadata "name"
            "Missing volume name in request" "Incorrect type for volume name";
  storageRequest ←? required_string metadata "storageRequest"
            "Missing storage request" "Incorrect type for storage request";
  accessMode ←? required_string metadata "accessMode"
            "Missing access mode" "Incorrect type for access mode";
  volumeMode ←? required_string metadata "volumeMode"
            "Missing volume mode" "Incorrect type for volume mode";
  storageClass ←? required_string metadata "storageClass"
            "Missing StorageClass" "Incorrect type for StorageClass";
  accessMode ←? mode_of accessMode PersistentVolumeClaim.accessModeFromString "access";
  volumeMode ←? mode_of volumeMode PersistentVolumeClaim.volumeModeFromString "volume";
  if 253 <? str_size name then inl (failure 400 "Volume name too long") else
  if has_not_of allowedNameCharacters name
  then inl (failure 400 "Volume name contains an invalid character") else
  inr (PersistentVolumeClaim.mk true newID name group cluster storageRequest accessMode
         volumeMode storageClass "" ctime []).

Definition with_place (group cluster : string) (v : PersistentVolumeClaim.t) :
    PersistentVolumeClaim.t :=
  PersistentVolumeClaim.mk (PersistentVolumeClaim.valid v) (PersistentVolumeClaim.id v)
    (PersistentVolumeClaim.name v) group cluster (PersistentVolumeClaim.storageRequest v)
    (PersistentVolumeClaim.accessMode v) (PersistentVolumeClaim.volumeMode v)
    (PersistentVolumeClaim.storageClass v) (PersistentVolumeClaim.selectorMatchLabel v)
    (PersistentVolumeClaim.ctime v) (PersistentVolumeClaim.selectorLabelExpressions v).

(** The document that is given to kubectl. *)
Definition claim_document (volume : PersistentVolumeClaim.t) (group : Group.t) : Json :=
  JObject [("apiVersion", JString "v1"); ("kind", JString "PersistentVolumeClaim");
    ("metadata", JObject [("name", JString (PersistentVolumeClaim.name volume));
                          ("namespace", JString (Group.namespaceName group))]);
    ("spec", JObject
      [("accessModes", JArray [JString (PersistentVolumeClaim.accessMode_to_string
                                          (PersistentVolumeClaim.accessMode volume))]);
       ("volumeMode", JString (PersistentVolumeClaim.volumeMode_to_string
                                 (PersistentVolumeClaim.volumeMode volume)));
       ("resources", JObject [("requests", JObject
          [("storage", JString (PersistentVolumeClaim.storageRequest volume))])]);
       ("storageClassName", JString (PersistentVolumeClaim.storageClass volume))])].

(** Putting the claim into Kubernetes; when that fails it is removed from the store, and
    there is a reply. The output stream is not checked for errors. *)
Definition install_volume (configPath : string) (group : Group.t)
    (volume : PersistentVolumeClaim.t) : Store (option Response) :=
  created ← try_catch (_ ← kubectl_create_namespace configPath group; mret None)
              (λ err, mret (Some err));
  match created with
  | Some err =>
      _ ← removePersistentVolumeClaim (PersistentVolumeClaim.id volume);
      mret (Some (failure 500 ("Failed to create namespace: " +:+ err)))
  | None =>
      with_temporary (λ _, true) ".pvc.json" (λ pvcFile,
        _ ← system (write_file pvcFile (c_str (Serialize (claim_document volume group))));
        result ← kubectl configPath ["create"; "-f"; pvcFile];
        if negb (status result =? 0)%Z then
          _ ← removePersistentVolumeClaim (PersistentVolumeClaim.id volume);
          mret (Some (failure 500 ("Failed to create PVC on kubernetes: " +:+ error result)))
        else mret None)
  end.

Definition store_volume (group : Group.t) (cluster : Cluster.t)
    (volume : PersistentVolumeClaim.t) : Store (option Response) :=
  success ← try_catch (addPersistentVolumeClaim volume) (λ _, mret false);
  if negb success
  then mret (Some (failure 500 "Failed to store volume to the persistent store")) else
  configPath ← configPathForCluster (Cluster.id cluster);
  install_volume configPath group volume.

(** [newID] is what [idGenerator.generateVolumeID()] returns. *)
Definition createVolumeClaim (newID : string) (req : Request) : Store Response :=
  user ← authenticateUser (param req "token");
  if negb (User.valid user) then mret (failure 403 "User not authorized") else
  ctime ← gets (λ w, timestamp (fs w));
  checked (new_volume_of newID ctime req) (λ volume,
    group ← getGroup (PersistentVolumeClaim.group volume);
    if negb (Group.valid group) then mret (failure 404 "Group not found") else
    member ← userInGroup (User.id user) (Group.id group);
    if negb member then mret (failure 403 "User not authorized") else
    cluster ← getCluster (PersistentVolumeClaim.cluster volume);
    if negb (Cluster.valid cluster) then mret (failure 404 "Cluster not found") else
    let volume := with_place (Group.id group) (Cluster.id cluster) volume in
    allowed ← (if negb (bool_decide (Group.id group = Cluster.owningGroup cluster))
               then groupAllowedOnCluster (Group.id group) (Cluster.id cluster)
               else mret true);
    if negb allowed then mret (failure 403 "User not authorized") else
    existing ← findPersistentVolumeClaimByName (Group.id group) (Cluster.id cluster)
                 (PersistentVolumeClaim.name volume);
    if PersistentVolumeClaim.valid existing
    then mret (failure 400 "A volume with the same name already exists") else
    refused ← store_volume group cluster volume;
    match refused with
    | Some response => mret response
    | None =>
        metadata ← volume_metadata volume;
        mret (reply [apiVersion; ("kind", JString "PersistentVolumeClaim");
          ("metadata", JObject (("name", JString (PersistentVolumeClaim.name volume))
             :: ("id", JString (PersistentVolumeClaim.id volume)) :: metadata))])
    end).

(** * Deleting claims *)

(** The pods that mount the claim, by their names and the IDs of their instances. The
    message that a pod is skipped is only written to the log: the loop goes on with it. *)
Definition mounted_by (name : string) (pod podVolume : Json) :
    option (list (string * option string)) :=
  is_claim ← has_member "persistentVolumeClaim" podVolume;
  if negb is_claim then Some [] else
  claim ← member "persistentVolumeClaim" podVolume;
  claimName ← member "claimName" claim;
  if match claimName with JString s => bool_decide (s = name) | _ => false end then
    metadata ← member "metadata" pod;
    generateName ← member "generateName" metadata ≫= get_string;
    labelled ← has_member "labels" metadata;
    if negb labelled then Some [(generateName, None)] else
    labels ← member "labels" metadata;
    known ← has_member "instanceID" labels;
    if negb known then Some [(generateName, None)] else
    instanceID ← member "instanceID" labels ≫= get_string;
    Some [(generateName, Some instanceID)]
  else Some [].

Fixpoint collect_mounts (name : string) (pod : Json) (podVolumes : list Json) :
    option (list (string * option string)) :=
  match podVolumes with
  | [] => Some []
  | podVolume :: podVolumes =>
      mounts ← mounted_by name pod podVolume;
      rest ← collect_mounts name pod podVolumes;
      Some (mounts ++ rest)
  end.

(** The checks of the structure: [HasMember] of a member that is no object fails. *)
Definition pod_checked (pod : Json) : option unit :=
  match member "metadata" pod, member "spec" pod with
  | Some metadata, Some spec =>
      named ← has_member "generateName" metadata;
      Some tt
  | _, _ => Some tt
  end.

Fixpoint podsMountedBy (name : string) (pods : list Json) :
    option (list (string * option string)) :=
  match pods with
  | [] => Some []
  | pod :: pods =>
      if negb (is_object pod) then podsMountedBy name pods else
      _ ← pod_checked pod;
      podVolumes ← (member "spec" pod ≫= member "volumes") ≫= get_array;
      mounts ← collect_mounts name pod podVolumes;
      rest ← podsMountedBy name pods;
      Some (mounts ++ rest)
  end.

Definition mounted_message (pods : list (string * option string)) : string :=
  "Cannot delete volume from Kubernetes which is currently mounted by one or more pods: "
  +:+ String newline ""
  +:+ foldr (λ pod rest, pod.1 +:+
        match pod.2 with
        | Some id => " (Slate ID: " +:+ id +:+ ")" +:+ String newline ""
        | None => ""
        end +:+ rest) "" pods.

(** Removing the claim from Kubernetes: an error message, or nothing. *)
Definition unlink_volume (volume : PersistentVolumeClaim.t) (force : bool) : Store string :=
  group ← findGroupByID (PersistentVolumeClaim.group volume);
  try_catch
    (configPath ← configPathForCluster (PersistentVolumeClaim.cluster volume);
     let nspace := Group.namespaceName group in
     podResult ← kubectl configPath ["get"; "pods"; "--namespace"; nspace; "-o=json"];
     mounts ← asserted ((member "items" (Parse (c_str (output podResult))) ≫= get_array)
                ≫= podsMountedBy (PersistentVolumeClaim.name volume));
     match mounts with
     | _ :: _ => mret (mounted_message mounts)
     | [] =>
         result ← kubectl configPath
           ["delete"; "pvc"; PersistentVolumeClaim.name volume; "--namespace"; nspace];
         mret (if negb (status result =? 0)%Z && negb force
               then "Failed to delete volume from kubernetes" else "")
     end)
    (λ _, mret (if negb force then "Failed to delete volume from kubernetes" else "")).

(** [internal::deleteVolumeClaim] *)
Definition delete_volume (volume : PersistentVolumeClaim.t) (force reachable : bool) :
    Store string :=
  err ← (if reachable then unlink_volume volume force else mret "");
  if negb (str_empty err) then mret err else
  success ← removePersistentVolumeClaim (PersistentVolumeClaim.id volume);
  mret (if negb success then "Failed to delete volume from database" else "").

Definition deleteVolumeClaim (claimID : string) (req : Request) : Store Response :=
  user ← authenticateUser (param req "token");
  if negb (User.valid user) then mret (failure 403 "User not authorized") else
  volume ← getPersistentVolumeClaim claimID;
  if negb (PersistentVolumeClaim.valid volume) then mret (failure 404 "Volume not found") else
  member ← (if User.admin user then mret true
            else userInGroup (User.id user) (PersistentVolumeClaim.group volume));
  if negb member then mret (failure 403 "User not authorized") else
  let force := match param req "force" with Some _ => true | None => false end in
  err ← delete_volume volume force true;
  if negb (str_empty err) then mret (failure 500 err) else mret done_reply.
End handlers.
