(* ===== verification/ApplicationCommands.v ===== *)
(** The handlers of the requests about applications (src/ApplicationCommands.cpp): the
    catalogue, and the installation of an application for a group on a cluster. *)

From stdpp Require Import pretty.
From S2P Require Import Prelude Text Entities Cache Dynamo Store Demo Kubernetes Listing.
From S2P Require Import Catalogue StoreGroups StoreUsers StoreMembership StoreClusters.
From S2P Require Import StoreAccess StoreInstances StoreApplications Http UserCommands.

(** * Repositories and values files *)

Inductive Repository := MainRepository | DevelopmentRepository | TestRepository.

Definition selectRepo (req : Request) : Repository :=
  let repo := match param req "dev" with Some _ => DevelopmentRepository | None => MainRepository end in
  match param req "test" with Some _ => TestRepository | None => repo end.

Definition getRepoName (repo : Repository) : string :=
  match repo with
  | MainRepository => "slate"
  | DevelopmentRepository => "slate-dev"
  | TestRepository => "local"
  end.

Definition startMarker : string := "### SLATE-START ###".
Definition endMarker : string := "### SLATE-END ###".

(** [s.erase(pos, n)] *)
Definition str_erase (pos n : nat) (s : string) : string := str_take pos s +:+ str_drop (pos + n) s.

Fixpoint filter_loop (fuel pos : nat) (data : string) : option string :=
  match fuel with
  | O => None
  | S fuel =>
      match str_find_from startMarker pos data with
      | None => Some data
      | Some startPos =>
          match str_find_from endMarker startPos data with
          | None => Some data
          | Some endPos =>
              filter_loop fuel startPos
                (str_erase startPos (endPos - startPos + str_size endMarker) data)
          end
      end
  end.

Definition filterValuesFile (data : string) : option string := filter_loop (S (str_size data)) 0 data.

(** Each marked section of a text is left out, with its markers; what follows a mark of the
    beginning that has none of the end stays. *)
Inductive stripped : string → string → Prop :=
  | no_section s : str_find startMarker s = None → stripped s s
  | open_section s i :
      str_find startMarker s = Some i → str_find_from endMarker i s = None → stripped s s
  | section s i j r :
      str_find startMarker s = Some i → str_find_from endMarker i s = Some j →
      stripped (str_drop (j + str_size endMarker) s) r → stripped s (str_take i s +:+ r).

Lemma filter_loop_strips fuel pre rest :
  str_size rest < fuel → ∃ r, filter_loop fuel (str_size pre) (pre +:+ rest) = Some (pre +:+ r) ∧
    stripped rest r.
Proof.
  revert pre rest. induction fuel as [|fuel IH]; intros pre rest Hsize; [lia|].
  cbn [filter_loop]. unfold str_find_from at 1. rewrite str_drop_app.
  destruct (str_find startMarker rest) as [i|] eqn:Hi; cbn [fmap option_fmap option_map].
  2: { exists rest. split; [done|by constructor]. }
  unfold str_find_from. rewrite str_drop_app_add.
  destruct (str_find endMarker (str_drop i rest)) as [j|] eqn:Hj; cbn [fmap option_fmap option_map].
  2: { exists rest. split; [done|]. apply (open_section _ i); [done|].
       unfold str_find_from. by rewrite Hj. }
  destruct (str_find_split _ _ _ Hi) as (u & v & Hrest & ->).
  assert (Hu : str_size rest = str_size u + (str_size startMarker + str_size v)).
  { by rewrite Hrest, !str_size_app. }
  unfold str_erase. rewrite str_take_app_add.
  replace (str_size pre + str_size u + (str_size pre + str_size u + j - (str_size pre + str_size u)
    + str_size endMarker)) with (str_size pre + (str_size u + j + str_size endMarker)) by lia.
  rewrite str_drop_app_add.
  assert (Hp : str_size (pre +:+ str_take (str_size u) rest) = str_size pre + str_size u).
  { rewrite str_size_app, str_take_size; lia. }
  rewrite <- Hp. destruct (IH (pre +:+ str_take (str_size u) rest)
    (str_drop (str_size u + j + str_size endMarker) rest)) as (r & Hr & Hs).
  { rewrite str_drop_size. cbn [startMarker endMarker str_size] in *. lia. }
  exists (str_take (str_size u) rest +:+ r). split; [by rewrite Hr, str_app_assoc|].
  apply (section _ _ (str_size u + j)); [done| |done]. unfold str_find_from. by rewrite Hj.
Qed.

(** C27: [filterValuesFile] ends, and leaves out the sections of the values of a chart that are
    marked as internal, and nothing else. *)
Theorem filterValuesFile_strips (data : string) :
  ∃ r, filterValuesFile data = Some r ∧ stripped data r.
Proof. apply (filter_loop_strips (S (str_size data)) ""). lia. Qed.

(** * YAML *)

(** What yaml-cpp makes of a document. *)
Inductive YamlNode :=
  | YNull
  | YScalar (s : string)
  | YSequence (l : list YamlNode)
  | YMap (entries : list (YamlNode * YamlNode)).

(** [YAML::LoadAll] and [YAML::Load], which throw their message, and the text an [Emitter]
    writes. *)
Class Yaml := {
  LoadAll : string → string + list YamlNode;
  Load : string → string + YamlNode;
  Emit : list YamlNode → string }.

(** [node[key]] *)
Fixpoint yaml_entry (key : string) (entries : list (YamlNode * YamlNode)) : option YamlNode :=
  match entries with
  | [] => None
  | (YScalar k, v) :: entries => if bool_decide (k = key) then Some v else yaml_entry key entries
  | _ :: entries => yaml_entry key entries
  end.

Definition yaml_member (key : string) (node : YamlNode) : option YamlNode :=
  match node with YMap entries => yaml_entry key entries | _ => None end.

(** The settings of the server that are given to every application. *)
Class Settings := {
  baseDomain : string; appLoggingServerName : string; appLoggingServerPort : Z }.

Section handlers.
Context `{D : Dynamo} `{P : Platform} `{PR : !Processes} `{J : !JsonParser}.
Context `{Y : !Yaml} `{S : !Settings}.

Definition reduceYAML (input : string) : string :=
  match LoadAll input with
  | inl _ => input
  | inr [] => ""
  | inr parsedData => c_str (Emit parsedData)
  end.

(** The last document with an instance tag counts. *)
Fixpoint instance_tag (documents : list YamlNode) (tag : option string) : option string :=
  match documents with
  | [] => tag
  | document :: documents =>
      instance_tag documents
        match yaml_member "Instance" document with
        | Some (YScalar s) => Some s
        | _ => tag
        end
  end.

Definition extractInstanceTag (config : string) : string + option string :=
  match LoadAll config with
  | inl error => inl error
  | inr documents => inr (instance_tag documents None)
  end.

(** [extractChartName]: whether there is a name, and the name or an error. *)
Definition extractChartName (path : string) : Store (bool * string) :=
  result ← helm "" "" ["inspect"; "chart"; path];
  mret (if (status result =? 0)%Z then
    match Load (output result) with
    | inr node =>
        match yaml_member "name" node with
        | Some (YScalar name) => (true, name)
        | _ => (false, "Did not get valid YAML chart description")
        end
    | inl _ => (false, "Did not get valid YAML chart description")
    end
  else (false, error result)).

(** * What helm is told *)

Definition dnsNameForCluster (cluster : Cluster.t) : string :=
  Cluster.name cluster +:+ "." +:+ baseDomain.

Definition assembleExtraHelmValues (cluster : Cluster.t) (instance : ApplicationInstance.t)
    (group : Group.t) : string :=
  (if negb (str_empty appLoggingServerName) then
     "SLATE.Logging.Enabled=true" +:+ ",SLATE.Logging.Server.Name=" +:+ appLoggingServerName
     +:+ ",SLATE.Logging.Server.Port=" +:+ pretty appLoggingServerPort
   else "SLATE.Logging.Enabled=false")
  +:+ ",SLATE.Cluster.Name=" +:+ Cluster.name cluster
  +:+ ",SLATE.Cluster.DNSName=" +:+ dnsNameForCluster cluster
  +:+ ",SLATE.Cluster.ClusterID=" +:+ ApplicationInstance.cluster instance
  +:+ ",SLATE.Instance.ID=" +:+ ApplicationInstance.id instance
  +:+ ",SLATE.Metadata.Group=" +:+ Group.name group
  +:+ ",SLATE.Metadata.GroupEmail=" +:+ Group.email group.

Definition install_args (helmMajorVersion : Z) (instance : ApplicationInstance.t)
    (cluster : Cluster.t) (group : Group.t) (values : string) (chartVersion : option string) :
    list string :=
  ["install"] ++ (if (helmMajorVersion =? 2)%Z then ["--name"] else [])
  ++ [ApplicationInstance.name instance; ApplicationInstance.application instance;
      "--namespace"; Group.namespaceName group; "--values"; values;
      "--set"; assembleExtraHelmValues cluster instance group]
  ++ match chartVersion with Some version => ["--version"; version] | None => [] end
  ++ (if (helmMajorVersion =? 2)%Z
      then ["--tiller-namespace"; Cluster.systemNamespace cluster] else []).

(** The command has ended well and says that the release is running. *)
Definition deployed (result : commandResult) : bool :=
  (status result =? 0)%Z &&
  match str_find "STATUS: DEPLOYED" (output result), str_find "STATUS: deployed" (output result) with
  | None, None => false
  | _, _ => true
  end.

(** Arguments that remove what an installation has left behind. *)
Definition cleanup_args (helmMajorVersion : Z) (instance : ApplicationInstance.t)
    (cluster : Cluster.t) (group : Group.t) : list string :=
  if (helmMajorVersion =? 2)%Z
  then ["delete"; "--purge"; ApplicationInstance.name instance;
        "--tiller-namespace"; Cluster.systemNamespace cluster]
  else ["delete"; ApplicationInstance.name instance; "--namespace"; Group.namespaceName group].

(** * Installing *)

Definition install_body_of (members : list (string * Json)) :
    Checked (string * string * string) :=
  groupID ←? required_string members "group" "Missing Group" "Incorrect type for Group";
  clusterID ←? required_string members "cluster" "Missing cluster" "Incorrect type for cluster";
  config ←? required_string members "configuration"
              "Missing configuration" "Incorrect type for configuration";
  inr (groupID, clusterID, config).

Definition chart_version (members : list (string * Json)) : string :=
  match find_member "chartVersion" members with Some (JString s) => c_str s | _ => "" end.

(** The tag that the configuration gives, or else the default one of the chart. *)
Definition tag_for (appName installSrc config chartVersion : string) : Store (Checked string) :=
  match (if str_empty config then inr None else extractInstanceTag config) with
  | inl yamlError => mret (inl (failure 400
      ("Configuration could not be parsed as YAML." +:+ String newline yamlError)))
  | inr (Some tag) => mret (inr tag)
  | inr None =>
      result ← run "helm" ["inspect"; "values"; installSrc; "--version"; chartVersion] [];
      mret (if negb (status result =? 0)%Z
        then inl (failure 500 "Unable to fetch default application config") else
        match extractInstanceTag (output result) with
        | inl yamlError => inl (failure 500
            ("Default configuration could not be parsed as YAML." +:+ String newline yamlError))
        | inr None => inl (failure 500 ("Failed to determine instance tag for " +:+ appName))
        | inr (Some tag) => inr tag
        end)
  end.

Definition check_tag (tag : string) : Checked string :=
  if negb (validTagGroupName tag)
  then inl (failure 400 "Instance tags names may only contain [a-z], [0-9] and -") else
  if negb (str_empty tag) && bool_decide (str_back tag = Some "-"%char)
  then inl (failure 400 "Instance tags names may not end with a dash") else
  inr tag.

Definition new_instance_of (newID ctime appName installSrc tag config : string)
    (group : Group.t) (cluster : Cluster.t) : Checked ApplicationInstance.t :=
  let config := reduceYAML config in
  let config := if str_empty config then String newline "" else config in
  let name := if str_empty tag then appName else appName +:+ "-" +:+ tag in
  if 63 <? str_size name then inl (failure 400 "Instance tag too long") else
  inr (ApplicationInstance.mk true newID name installSrc (Group.id group) (Cluster.id cluster)
         config ctime).

(** helm installs the release; when it is not running the record is removed again, and so
    is what helm keeps of it. *)
Definition install_release (clusterConfig chartVersion values : string) (group : Group.t)
    (cluster : Cluster.t) (instance : ApplicationInstance.t) : Store (option Response) :=
  created ← try_catch (_ ← kubectl_create_namespace clusterConfig group; mret None)
              (λ err, mret (Some err));
  match created with
  | Some err =>
      _ ← removeApplicationInstance (ApplicationInstance.id instance);
      mret (Some (failure 500 err))
  | None =>
      helmMajorVersion ← getHelmMajorVersion;
      result ← run "helm"
        (install_args helmMajorVersion instance cluster group values (Some chartVersion))
        [("KUBECONFIG", clusterConfig)];
      if deployed result then mret None else
      _ ← removeApplicationInstance (ApplicationInstance.id instance);
      _ ← run "helm" (cleanup_args helmMajorVersion instance cluster group)
            [("KUBECONFIG", clusterConfig)];
      mret (Some (failure 500 ("Failed to start application instance with helm:"
        +:+ String newline "[exit] " +:+ pretty (status result)
        +:+ String newline "[err]: " +:+ error result
        +:+ String newline "[out]: " +:+ output result
        +:+ String newline " system namespace: " +:+ Cluster.systemNamespace cluster)))
  end.

Definition store_instance (chartVersion values : string) (group : Group.t) (cluster : Cluster.t)
    (instance : ApplicationInstance.t) : Store (option Response) :=
  success ← addApplicationInstance instance;
  if negb success
  then mret (Some (failure 500
    "Failed to add application instance record to the persistent store")) else
  clusterConfig ← configPathForCluster (Cluster.id cluster);
  install_release clusterConfig chartVersion values group cluster instance.

(** The configuration goes into a temporary file first. *)
Definition install_instance (chartVersion : string) (group : Group.t) (cluster : Cluster.t)
    (instance : ApplicationInstance.t) : Store (option Response) :=
  with_temporary (λ _, true) (ApplicationInstance.id instance) (λ instanceConfig,
    failed ← system (write_file instanceConfig (ApplicationInstance.config instance));
    match failed with
    | Some _ => mret (Some (failure 500
        ("Failed to write instance configuration to " +:+ instanceConfig)))
    | None => store_instance chartVersion instanceConfig group cluster instance
    end).

(** [newID] is what [idGenerator.generateInstanceID()] returns. *)
Definition installApplicationImpl (newID : string) (user : User.t) (appName installSrc : string)
    (body : list (string * Json)) : Store Response :=
  checked (install_body_of body) (λ '(groupID, clusterID, config),
    let chartVersion := chart_version body in
    tag ← tag_for appName installSrc config chartVersion;
    checked (tag ←? tag; check_tag tag) (λ tag,
      group ← getGroup groupID;
      if negb (Group.valid group) then mret (failure 400 "Invalid Group") else
      cluster ← getCluster clusterID;
      if negb (Cluster.valid cluster) then mret (failure 400 "Invalid Cluster") else
      member ← userInGroup (User.id user) (Group.id group);
      if negb member then mret (failure 403 "Not authorized") else
      let owned := bool_decide (Group.id group = Cluster.owningGroup cluster) in
      allowed ← (if negb owned then groupAllowedOnCluster (Group.id group) (Cluster.id cluster)
                 else mret true);
      if negb allowed then mret (failure 403 "Not authorized") else
      permitted ← (if negb owned
                   then groupMayUseApplication (Group.id group) (Cluster.id cluster) appName
                   else mret true);
      if negb permitted then mret (failure 403 "Not authorized") else
      ctime ← gets (λ w, timestamp (fs w));
      checked (new_instance_of newID ctime appName installSrc tag config group cluster)
        (λ instance,
        groupInsts ← listApplicationInstancesByClusterOrGroup (Group.id group) (Cluster.id cluster);
        if existsb (λ otherInst, bool_decide (ApplicationInstance.name otherInst
                                    = ApplicationInstance.name instance)) groupInsts
        then mret (failure 400
          "Instance name is already in use, consider using a different tag") else
        refused ← install_instance chartVersion group cluster instance;
        match refused with
        | Some response => mret response
        | None => mret (reply [apiVersion; ("kind", JString "Configuration");
            ("metadata", JObject [("id", JString (ApplicationInstance.id instance));
               ("name", JString (ApplicationInstance.name instance));
               ("revision", JString "?"); ("updated", JString "?");
               ("application", JString appName); ("group", JString (Group.id group))]);
            ("status", JString "DEPLOYED")])
        end))).

Definition has_quote (s : string) : bool :=
  match str_find_char quote 0 s with Some _ => true | None => false end.

Definition installApplication (newID appName : string) (req : Request) : Store Response :=
  user ← authenticateUser (param req "token");
  if negb (User.valid user)
  then mret (failure 403
    ("An unauthorized user attempted to install an instance of " +:+ appName)) else
  let repoName := getRepoName (selectRepo req) in
  if has_quote appName
  then mret (failure 400 "Application names cannot contain single quote characters") else
  checked (body_members req) (λ body,
    found ← try_catch (application ← findApplication repoName appName (chart_version body);
                       mret (Some application)) (λ _, mret None);
    match found with
    | None => mret (Reply 500 None)
    | Some application =>
        if negb (Application.valid application) then mret (failure 404 "Application not found")
        else installApplicationImpl newID user appName (repoName +:+ "/" +:+ appName) body
    end).

(** * The catalogue *)

Definition application_json (application : Application.t) : Json :=
  JObject [apiVersion; ("kind", JString "Application");
    ("metadata", JObject [("name", JString (Application.name application));
       ("app_version", JString (Application.version application));
       ("chart_version", JString (Application.chartVersion application));
       ("description", JString (Application.description application))])].

(** Anybody may ask for the catalogue; the user is only logged. *)
Definition listApplications (req : Request) : Store Response :=
  _ ← authenticateUser (param req "token");
  found ← try_catch (applications ← StoreApplications.listApplications (getRepoName (selectRepo req));
                     mret (Some applications)) (λ _, mret None);
  match found with
  | None => mret (failure 500 "helm search failed")
  | Some applications =>
      mret (reply [apiVersion; ("items", JArray (application_json <$> applications))])
  end.

Definition configuration_json (appName : string) (application : Application.t) (body : string) :
    Response :=
  reply [apiVersion; ("kind", JString "Configuration");
    ("metadata", JObject [("name", JString appName);
       ("version", JString (Application.version application));
       ("chartVersion", JString (Application.chartVersion application))]);
    ("spec", JObject [("body", JString body)])].

(** What helm shows of the chart of an application: its values or its documentation. *)
Definition inspect (what repoName : string) (application : Application.t) : Store commandResult :=
  run "helm" ["inspect"; what; repoName +:+ "/" +:+ Application.name application;
              "--version"; Application.chartVersion application] [].

Definition fetchApplicationConfig (appName : string) (req : Request) : Store Response :=
  _ ← authenticateUser (param req "token");
  let repoName := getRepoName (selectRepo req) in
  found ← try_catch (application ← findApplication repoName appName
                                     (default "" (param req "chartVersion"));
                     mret (inr application)) (λ err, mret (inl err));
  match found with
  | inl err => mret (failure 500 ("Runtime Error: " +:+ err))
  | inr application =>
      if negb (Application.valid application) then mret (failure 404 "Application not found") else
      result ← inspect "values" repoName application;
      if negb (status result =? 0)%Z
      then mret (failure 500 "Unable to fetch application config") else
      body ← stops (filterValuesFile (output result));
      mret (configuration_json appName application body)
  end.

Definition fetchApplicationDocumentation (appName : string) (req : Request) : Store Response :=
  _ ← authenticateUser (param req "token");
  let repoName := getRepoName (selectRepo req) in
  found ← try_catch (application ← findApplication repoName appName
                                     (default "" (param req "chartVersion"));
                     mret (Some application)) (λ _, mret None);
  match found with
  | None => mret (Reply 500 None)
  | Some application =>
      if negb (Application.valid application) then mret (failure 404 "Application not found") else
      result ← inspect "readme" repoName application;
      if negb (status result =? 0)%Z
      then mret (failure 500 "Unable to fetch application readme") else
      mret (configuration_json appName application (output result))
  end.

Fixpoint chart_versions (charts : list Json) : option string :=
  match charts with
  | [] => Some ""
  | chartEntry :: charts =>
      version ← member "version" chartEntry ≫= get_string;
      rest ← chart_versions charts;
      Some (version +:+ String newline rest)
  end.

Definition fetchApplicationVersions (appName : string) (req : Request) : Store Response :=
  _ ← authenticateUser (param req "token");
  let repoName := getRepoName (selectRepo req) in
  found ← try_catch (application ← findApplication repoName appName "";
                     mret (Some application)) (λ _, mret None);
  match found with
  | None => mret (Reply 500 None)
  | Some application =>
      if negb (Application.valid application) then mret (failure 404 "Application not found") else
      result ← run "helm" ["search"; "repo"; repoName +:+ "/" +:+ appName; "--versions"; "-o"; "json"] [];
      if negb (status result =? 0)%Z
      then mret (failure 500 "Unable to fetch application versions") else
      versions ← asserted (get_array (Parse (c_str (output result))) ≫= chart_versions);
      mret (reply [apiVersion; ("kind", JString "Configuration");
        ("metadata", JObject [("name", JString appName)]); ("spec", JObject [("body", JString versions)])])
  end.

Definition updateCatalog (req : Request) : Store Response :=
  user ← authenticateUser (param req "token");
  if negb (User.valid user)
  then mret (failure 403 "An unauthorized user attempted to update the application catalog") else
  result ← run "helm" ["repo"; "update"] [];
  if negb (status result =? 0)%Z then mret (failure 500 "helm repo update failed") else
  _ ← fetchApplications "slate";
  _ ← fetchApplications "slate-dev";
  mret done_reply.
End handlers.
