(* ===== verification/InstanceCommands.v ===== *)
(** The handlers of the requests about application instances
    (src/ApplicationInstanceCommands.cpp): listing, scaling, restarting, updating and
    deleting the applications that are installed, and their logs. *)

From stdpp Require Import pretty.
From S2P Require Import Prelude Text Entities Cache Dynamo Store Demo Kubernetes Listing.
From S2P Require Import Catalogue StoreGroups StoreUsers StoreMembership StoreClusters.
From S2P Require Import StoreAccess StoreInstances Http UserCommands ApplicationCommands.

(** * Reading what kubectl prints *)

(** A value where an assertion of rapidjson would fail otherwise: [None] is the failure. *)
Definition get_members (v : Json) : option (list (string * Json)) :=
  match v with JObject members => Some members | _ => None end.

(** The digits of a number that is an integer, and whether it is negative. *)
Definition integer_of (s : string) : option Z :=
  match s with
  | String c digits =>
      if char_is "-"%char c
      then if negb (str_empty digits) && str_all isdigit digits then Some (- decimal 0 digits)%Z
           else None
      else if str_all isdigit s then Some (decimal 0 s) else None
  | EmptyString => None
  end.

(** [IsInt] and [GetInt]; [IsUint64] and [GetUint64] *)
Definition get_int (v : Json) : option Z :=
  match v with
  | JNumber s => n ← integer_of s; if ((- 2 ^ 31 <=? n) && (n <? 2 ^ 31))%Z then Some n else None
  | _ => None
  end.

Definition get_uint64 (v : Json) : option Z :=
  match v with
  | JNumber s => n ← integer_of s; if ((0 <=? n) && (n <? 2 ^ 64))%Z then Some n else None
  | _ => None
  end.

(** A chain of [operator[]]. *)
Fixpoint member_at (path : list string) (v : Json) : option Json :=
  match path with
  | [] => Some v
  | name :: path => member name v ≫= member_at path
  end.

(** [if(v.HasMember(from)) info.AddMember(to,v[from],alloc);] *)
Definition copied (to from : string) (v : Json) : option (list (string * Json)) :=
  has ← has_member from v;
  Some (match member from v with Some x => [(to, x)] | None => [] end).

(** Results of a loop over an array, all of which must succeed. *)
Fixpoint each {A B} (f : A → option (list B)) (l : list A) : option (list B) :=
  match l with
  | [] => Some []
  | x :: l => here ← f x; rest ← each f l; Some (here ++ rest)
  end.

Section handlers.
Context `{D : Dynamo} `{P : Platform} `{PR : !Processes} `{J : !JsonParser}.
Context `{Y : !Yaml} `{S : !Settings}.
Implicit Types (instance : ApplicationInstance.t) (group : Group.t) (cluster : Cluster.t).

(** * Listing *)

(** The name of the application without its repository. *)
Definition application_name (application : string) : string :=
  match str_find_char "/"%char 0 application with
  | Some pos => if pos <? str_size application - 1 then str_drop (pos + 1) application
                else application
  | None => application
  end.

Definition instance_item_json instance : Store Json :=
  group ← getGroup (ApplicationInstance.owningGroup instance);
  cluster ← getCluster (ApplicationInstance.cluster instance);
  mret (JObject [apiVersion; ("kind", JString "ApplicationInstance");
    ("metadata", JObject
      [("id", JString (ApplicationInstance.id instance));
       ("name", JString (ApplicationInstance.name instance));
       ("application", JString (application_name (ApplicationInstance.application instance)));
       ("group", JString (Group.name group)); ("cluster", JString (Cluster.name cluster));
       ("created", JString (ApplicationInstance.ctime instance))])]).

Definition requested_instances (fuel : nat) (req : Request) : Store (list ApplicationInstance.t) :=
  match param req "group", param req "cluster" with
  | None, None => StoreInstances.listApplicationInstances fuel
  | group, cluster =>
      listApplicationInstancesByClusterOrGroup (default "" group) (default "" cluster)
  end.

Definition listApplicationInstances (fuel : nat) (req : Request) : Store Response :=
  user ← authenticateUser (param req "token");
  if negb (User.valid user) then mret (failure 403 "User not authorized") else
  instances ← requested_instances fuel req;
  items ← for_collect instances instance_item_json;
  mret (reply [apiVersion; ("items", JArray items)]).

(** * What the requests about one instance begin with *)

(** Only administrators and members of the group that owns the instance go on; [code] is
    the status when there is no such instance. *)
Definition as_manager (code : Z) (instanceID : string) (req : Request)
    (k : ApplicationInstance.t → Store Response) : Store Response :=
  user ← authenticateUser (param req "token");
  if negb (User.valid user) then mret (failure 403 "User not authorized") else
  instance ← getApplicationInstance instanceID;
  if negb (ApplicationInstance.valid instance)
  then mret (failure code "Application instance not found") else
  member ← (if User.admin user then mret true
            else userInGroup (User.id user) (ApplicationInstance.owningGroup instance));
  if negb member then mret (failure 403 "User not authorized") else
  k instance.

(** Its group and its cluster, which have to exist. *)
Definition with_owners instance (k : Group.t → Cluster.t → Store Response) : Store Response :=
  group ← getGroup (ApplicationInstance.owningGroup instance);
  if negb (Group.valid group) then mret (failure 500 "Invalid Group") else
  cluster ← getCluster (ApplicationInstance.cluster instance);
  if negb (Cluster.valid cluster) then mret (failure 500 "Invalid Cluster") else
  k group cluster.

(** * Deleting *)

Definition delete_args (helmMajorVersion : Z) instance group : list string :=
  if (helmMajorVersion =? 2)%Z then ["delete"; "--purge"; ApplicationInstance.name instance]
  else if (helmMajorVersion =? 3)%Z
  then ["delete"; ApplicationInstance.name instance; "--namespace"; Group.namespaceName group]
  else ["delete"; ApplicationInstance.name instance].

(** helm has ended well and says that the release is gone. *)
Definition release_gone instance (result : commandResult) : bool :=
  let release := "release " +:+ dquote +:+ ApplicationInstance.name instance +:+ dquote in
  (status result =? 0)%Z &&
  match str_find (release +:+ " deleted") (output result),
        str_find (release +:+ " uninstalled") (output result) with
  | None, None => false
  | _, _ => true
  end.

(** Removing the release: a message, or nothing. *)
Definition uninstall instance (force : bool) : Store string :=
  try_catch
    (group ← getGroup (ApplicationInstance.owningGroup instance);
     configPath ← configPathForCluster (ApplicationInstance.cluster instance);
     cluster ← getCluster (ApplicationInstance.cluster instance);
     helmMajorVersion ← getHelmMajorVersion;
     result ← helm configPath (Cluster.systemNamespace cluster)
                (delete_args helmMajorVersion instance group);
     mret (if negb (release_gone instance result) && negb force
           then "helm delete failed: " +:+ error result else ""))
    (λ e, mret (if negb force then "Failed to delete instance using helm: " +:+ e else "")).

(** [internal::deleteApplicationInstance] *)
Definition delete_instance instance (force : bool) : Store string :=
  err ← uninstall instance force;
  if negb (str_empty err) then mret err else
  success ← removeApplicationInstance (ApplicationInstance.id instance);
  mret (if negb success then "Failed to delete instance from database" else "").

Definition deleteApplicationInstance (instanceID : string) (req : Request) : Store Response :=
  as_manager 404 instanceID req (λ instance,
    let force := match param req "force" with Some _ => true | None => false end in
    err ← delete_instance instance force;
    if negb (str_empty err) then mret (failure 500 err) else mret done_reply).

(** * Restarting and updating *)

Definition not_found_message (helmMajorVersion : Z) instance : string :=
  if (helmMajorVersion =? 2)%Z
  then dquote +:+ ApplicationInstance.name instance +:+ dquote +:+ " not found"
  else if (helmMajorVersion =? 3)%Z
  then ApplicationInstance.name instance +:+ ": release: not found"
  else "".

(** Stopping the release: a message unless it is gone, or helm does not know it. *)
Definition stop_release (clusterConfig : string) instance group : Store (option string) :=
  try_catch
    (cluster ← getCluster (ApplicationInstance.cluster instance);
     helmMajorVersion ← getHelmMajorVersion;
     result ← helm clusterConfig (Cluster.systemNamespace cluster)
                (delete_args helmMajorVersion instance group);
     mret (if release_gone instance result then None else
       match str_find (not_found_message helmMajorVersion instance) (error result) with
       | Some _ => None
       | None => Some ("helm delete failed: " +:+ error result)
       end))
    (λ e, mret (Some ("Failed to delete instance using helm: " +:+ e))).

Definition maxTime : Z := 120.
Definition maxPollDelay : Z := 10.

(** One look at the objects of the old release: the message to stop waiting with. *)
Definition poll_objects (clusterConfig : string) instance group : Store (option string) :=
  try_catch
    (result ← kubectl clusterConfig
       ["get"; "all"; "-l release=" +:+ ApplicationInstance.name instance;
        "-n"; Group.namespaceName group; "-o=json"];
     if negb (status result =? 0)%Z
     then mret (Some ("Failed to check whether objects from old instance are fully deleted; reinstall may fail"
                      +:+ String newline ""))
     else
       let objData := Parse (c_str (output result)) in
       has ← asserted (has_member "items" objData);
       mret (match member "items" objData with Some (JArray []) => Some "" | _ => None end))
    (λ _, mret (Some ("[Warning] Failed to check whether objects from old instance are fully deleted; reinstall may fail"
                      +:+ String newline ""))).

(** The time waited, in seconds, and what is to be told about it. *)
Fixpoint wait_deleted (fuel : nat) (clusterConfig : string) instance group
    (elapsedTime pollDelay : Z) : Store (Z * string) :=
  if (elapsedTime <? maxTime)%Z then
    match fuel with
    | O => out_of_fuel
    | Datatypes.S fuel =>
        let pollDelay := (pollDelay + pollDelay)%Z in
        let pollDelay := if (maxPollDelay <? pollDelay)%Z then maxPollDelay else pollDelay in
        stop ← poll_objects clusterConfig instance group;
        match stop with
        | Some message => mret (elapsedTime, message)
        | None => wait_deleted fuel clusterConfig instance group (elapsedTime + pollDelay)%Z pollDelay
        end
    end
  else mret (elapsedTime, "").

(** The number of times the loop looks at most. *)
Definition maxPolls : nat := 14.

(** Starting the release again: a reply when that fails. *)
Definition start_release (clusterConfig values resultMessage : string)
    (chartVersion : option string) instance group cluster : Store (option Response) :=
  created ← try_catch (_ ← kubectl_create_namespace clusterConfig group; mret None)
              (λ err, mret (Some err));
  match created with
  | Some err =>
      _ ← removeApplicationInstance (ApplicationInstance.id instance);
      mret (Some (failure 500 err))
  | None =>
      helmMajorVersion ← getHelmMajorVersion;
      result ← run "helm" (install_args helmMajorVersion instance cluster group values chartVersion)
                 [("KUBECONFIG", clusterConfig)];
      if deployed result then mret None else
      helmMajorVersion ← getHelmMajorVersion;
      _ ← helm clusterConfig (Cluster.systemNamespace cluster)
        (if (helmMajorVersion =? 2)%Z
         then ["delete"; "--purge"; ApplicationInstance.name instance;
               "--namespace"; Group.namespaceName group]
         else ["delete"; ApplicationInstance.name instance;
               "--namespace"; Group.namespaceName group]);
      mret (Some (failure 500 ("Failed to start application instance with helm:"
        +:+ String newline (error result) +:+ String newline " system namespace: "
        +:+ Cluster.systemNamespace cluster
        +:+ if str_empty resultMessage then "" else String newline resultMessage)))
  end.

(** Stopping the release, waiting for its objects to go, and starting it with the
    configuration of the instance: a reply when that fails, or a message. *)
Definition reinstall (clusterConfig : string) (chartVersion : option string)
    instance group cluster : Store (Response + string) :=
  stopped ← stop_release clusterConfig instance group;
  match stopped with
  | Some message => mret (inl (failure 500 message))
  | None =>
      waited ← wait_deleted maxPolls clusterConfig instance group 0 1;
      let resultMessage := waited.2 +:+
        if (maxTime <=? waited.1)%Z
        then "[Warning] Object deletion check timeout reached; proceeding with reinstall anyway"
             +:+ String newline ""
        else "" in
      with_temporary (λ _, true) (ApplicationInstance.id instance) (λ instanceConfig,
        failed ← system (write_file instanceConfig (ApplicationInstance.config instance));
        match failed with
        | Some _ => mret (inl (failure 500 "Failed to write instance configuration to disk"))
        | None =>
            refused ← start_release clusterConfig instanceConfig resultMessage chartVersion
                        instance group cluster;
            mret (match refused with Some response => inl response | None => inr resultMessage end)
        end)
  end.

Definition reinstalled_json instance group (resultMessage : string) : Response :=
  reply [apiVersion; ("kind", JString "Configuration");
    ("metadata", JObject [("id", JString (ApplicationInstance.id instance));
       ("name", JString (ApplicationInstance.name instance));
       ("application", JString (ApplicationInstance.application instance));
       ("group", JString (Group.id group))]);
    ("message", JString resultMessage)].

Definition with_config (config : string) instance : ApplicationInstance.t :=
  ApplicationInstance.mk (ApplicationInstance.valid instance) (ApplicationInstance.id instance)
    (ApplicationInstance.name instance) (ApplicationInstance.application instance)
    (ApplicationInstance.owningGroup instance) (ApplicationInstance.cluster instance) config
    (ApplicationInstance.ctime instance).

Definition restartApplicationInstance (instanceID : string) (req : Request) : Store Response :=
  as_manager 404 instanceID req (λ instance,
    with_owners instance (λ group cluster,
      config ← getApplicationInstanceConfig (ApplicationInstance.id instance);
      let instance := with_config config instance in
      clusterConfig ← configPathForCluster (Cluster.id cluster);
      outcome ← reinstall clusterConfig None instance group cluster;
      mret (match outcome with
            | inl response => response
            | inr resultMessage => reinstalled_json instance group resultMessage
            end))).

(** The configuration and the version of the chart in the body. *)
Definition update_body_of (req : Request) : Checked (string * string) :=
  body ←? body_members req;
  configuration ←? required_string body "configuration"
    "Configuration for update missing" "Incorrect type for configuration";
  inr (configuration, chart_version body).

(** The results of removing the record and adding it again are not looked at. *)
Definition updateApplicationInstance (instanceID : string) (req : Request) : Store Response :=
  as_manager 404 instanceID req (λ instance,
    with_owners instance (λ group cluster,
      checked (update_body_of req) (λ '(config, chartVersion),
        let instance := with_config config instance in
        search ← run "helm" ["inspect"; "values"; ApplicationInstance.application instance;
                             "--version"; chartVersion] [];
        if negb (status search =? 0)%Z
        then mret (failure 500 "Unable to fetch application version") else
        clusterConfig ← configPathForCluster (Cluster.id cluster);
        outcome ← reinstall clusterConfig (Some chartVersion) instance group cluster;
        match outcome with
        | inl response => mret response
        | inr resultMessage =>
            _ ← removeApplicationInstance instanceID;
            _ ← addApplicationInstance instance;
            mret (reinstalled_json instance group resultMessage)
        end))).

(** * Scaling *)

(** The deployments that kubectl lists for an instance. *)
Definition deployments_of (clusterConfig : string) instance group : Store (list Json) :=
  result ← kubectl clusterConfig
    ["get"; "deployment"; "-l"; "release=" +:+ ApplicationInstance.name instance;
     "--namespace"; Group.namespaceName group; "-o=json"];
  asserted (member "items" (Parse (c_str (output result))) ≫= get_array).

(** The name of a deployment and its replicas, unless its structure is not as expected. *)
Definition deployment_scale (deployment : Json) : option (string * Z) :=
  name ← member_at ["metadata"; "name"] deployment ≫= get_string;
  replicas ← member_at ["spec"; "replicas"] deployment ≫= get_uint64;
  Some (name, replicas).

Definition scale_json (scale : string * Z) : string * Json := (scale.1, JNumber (pretty scale.2)).

Definition scales_reply (scales : list (string * Z)) : Response :=
  reply [apiVersion; ("kind", JString "ApplicationInstanceScale");
    ("deployments", JObject (scale_json <$> scales))].

Definition deployment_missing (code : Z) (depName instanceID : string) : Response :=
  failure code ("Deployment " +:+ depName +:+ " not found in " +:+ instanceID).

Definition getApplicationInstanceScale (instanceID : string) (req : Request) : Store Response :=
  as_manager 400 instanceID req (λ instance,
    group ← getGroup (ApplicationInstance.owningGroup instance);
    let depName := default "" (param req "deployment") in
    configPath ← configPathForCluster (ApplicationInstance.cluster instance);
    deployments ← deployments_of configPath instance group;
    let scales := filter (λ scale, str_empty depName = true ∨ scale.1 = depName)
                    (omap deployment_scale deployments) in
    mret (if negb (str_empty depName) && bool_decide (scales = [])
          then deployment_missing 400 depName instanceID else scales_reply scales)).

(** The deployment to scale: the one that is asked for, or else the only one, once it has
    been reached; and whether it has been found, with the scales that are told. *)
Fixpoint scale_loop (single : bool) (replicas : Z) (depName : string) (deploymentFound : bool)
    (deployments : list Json) : string * bool * list (string * Z) :=
  match deployments with
  | [] => (depName, deploymentFound, [])
  | deployment :: deployments =>
      match deployment_scale deployment with
      | None => scale_loop single replicas depName deploymentFound deployments
      | Some (name, depReplicas) =>
          let depName := if str_empty depName && single then name else depName in
          let selected := bool_decide (name = depName) in
          let '(depName, found, scales) :=
            scale_loop single replicas depName (deploymentFound || selected) deployments in
          (depName, found, (name, if selected then replicas else depReplicas) :: scales)
      end
  end.

(** [std::stoull] throws exceptions that are no [std::runtime_error], and are not caught. *)
Definition scaleApplicationInstance (instanceID : string) (req : Request) : Store Response :=
  as_manager 404 instanceID req (λ instance,
    group ← getGroup (ApplicationInstance.owningGroup instance);
    match param req "replicas" with
    | None => mret (failure 400 "Missing number of replicas")
    | Some reqReplicas =>
        replicas ← lift match stoul reqReplicas with
                        | Some n => Ok n
                        | None => Throw "stoull"
                        end;
        let depName := default "" (param req "deployment") in
        configPath ← configPathForCluster (ApplicationInstance.cluster instance);
        deployments ← deployments_of configPath instance group;
        let single := bool_decide (length deployments = 1) in
        if str_empty depName && negb single
        then mret (failure 400 (instanceID +:+
          " does not expose exactly one deployment, and no deployment was specified to be scaled.")) else
        let '(depName, deploymentFound, scales) :=
          scale_loop single replicas depName false deployments in
        if negb deploymentFound then mret (deployment_missing 404 depName instanceID) else
        result ← kubectl configPath
          ["scale"; "deployment"; depName; "--replicas"; pretty replicas;
           "--namespace"; Group.namespaceName group; "-o=json"];
        if negb (status result =? 0)%Z
        then mret (failure 500 ("Scaling deployment " +:+ depName +:+ " to " +:+ pretty replicas
                                +:+ " replicas failed: " +:+ error result))
        else mret (scales_reply scales)
    end).

(** * Logs *)

(** The containers of the pods, by the names of both; only those that are selected. *)
Definition pod_containers (selectedContainer : string) (pod : Json) :
    option (list (string * string)) :=
  spec ← member "spec" pod;
  has ← has_member "containers" spec;
  match member "containers" spec with
  | None => Some []
  | Some containers =>
      podName ← member_at ["metadata"; "name"] pod ≫= get_string;
      containers ← get_array containers;
      each (λ container,
        containerName ← member "name" container ≫= get_string;
        Some (if str_empty selectedContainer || bool_decide (containerName = selectedContainer)
              then [(podName, containerName)] else [])) containers
  end.

Definition log_header (pod container : string) : string :=
  "========================================" +:+ String newline "Pod: " +:+ pod
  +:+ " Container: " +:+ container +:+ String newline "".

Definition log_args (maxLines : Z) (previousLogs : bool) (nspace pod container : string) :
    list string :=
  ["logs"; pod; "-c"; container; "-n"; nspace]
  ++ (if negb (maxLines =? 0)%Z then ["--tail=" +:+ pretty maxLines] else [])
  ++ (if previousLogs then ["-p"] else []).

Definition collectLog (configPath nspace : string) (maxLines : Z) (previousLogs : bool)
    (container : string * string) : Store string :=
  result ← kubectl configPath (log_args maxLines previousLogs nspace container.1 container.2);
  mret (log_header container.1 container.2 +:+
    if negb (status result =? 0)%Z
    then "Failed to get logs: " +:+ error result +:+ String newline ""
    else output result).

(** A task started by [std::async]: what it throws is kept for [get], unless the process
    ends. *)
Definition async {A} (m : Store A) : Store (Res A) := λ w,
  match m w with
  | (Throw e, w') => (if bool_decide (e = "assertion failed") then Throw e else Ok (Throw e), w')
  | (OutOfFuel, w') => (OutOfFuel, w')
  | (Ok a, w') => (Ok (Ok a), w')
  end.

(** All tasks run, one after the other; then their results are asked for in order. *)
Definition run_all {A B} (l : list A) (task : A → Store B) : Store (list B) :=
  results ← for_collect l (λ x, async (task x));
  for_collect results lift.

Definition concat_logs (blocks : list string) : string := foldr (λ block rest, block +:+ rest) "" blocks.

Definition getApplicationInstanceLogs (instanceID : string) (req : Request) : Store Response :=
  as_manager 404 instanceID req (λ instance,
    let maxLines := match param req "max_lines" with
                    | Some reqMaxLines => default 20%Z (stoul reqMaxLines)
                    | None => 20%Z
                    end in
    let selectedContainer := default "" (param req "container") in
    let previousLogs := match param req "previous" with Some _ => true | None => false end in
    configPath ← configPathForCluster (ApplicationInstance.cluster instance);
    _ ← getCluster (ApplicationInstance.cluster instance);
    group ← getGroup (ApplicationInstance.owningGroup instance);
    let nspace := Group.namespaceName group in
    podsResult ← kubectl configPath
      ["get"; "pods"; "-l release=" +:+ ApplicationInstance.name instance; "-n"; nspace; "-o=json"];
    if negb (status podsResult =? 0)%Z then mret (failure 500 "Failed to look up pods") else
    allContainers ← asserted
      ((member "items" (Parse (c_str (output podsResult))) ≫= get_array)
         ≫= each (pod_containers selectedContainer));
    if bool_decide (allContainers = []) && negb (str_empty selectedContainer)
    then mret (failure 400 ("No containers found matching the name '" +:+ selectedContainer +:+ "'")) else
    logBlocks ← run_all allContainers (collectLog configPath nspace maxLines previousLogs);
    group' ← getGroup (ApplicationInstance.owningGroup instance);
    cluster ← getCluster (ApplicationInstance.cluster instance);
    mret (reply [apiVersion; ("kind", JString "ApplicationInstance");
      ("metadata", JObject
        [("id", JString (ApplicationInstance.id instance));
         ("name", JString (ApplicationInstance.name instance));
         ("application", JString (ApplicationInstance.application instance));
         ("group", JString (Group.name group')); ("cluster", JString (Cluster.name cluster));
         ("created", JString (ApplicationInstance.ctime instance));
         ("configuration", JString (ApplicationInstance.config instance))]);
      ("logs", StringRef (concat_logs logBlocks))])).
End handlers.
