(* ===== verification/InstanceDetails.v ===== *)
(** What is told of one application instance (src/ApplicationInstanceCommands.cpp): the
    services it offers and how to reach them, its pods and their events, as kubectl and
    helm describe them. *)

From stdpp Require Import pretty.
From S2P Require Import Prelude Text Entities Cache Dynamo Store Demo Kubernetes Listing.
From S2P Require Import Catalogue StoreGroups StoreUsers StoreMembership StoreClusters.
From S2P Require Import StoreAccess StoreInstances Http UserCommands ApplicationCommands.
From S2P Require Import InstanceCommands.

(** * Services *)

Record ServiceInterface := mkServiceInterface {
  clusterIP : string; externalIP : string; ports : string; netPathRef : string }.

(** [std::multimap::emplace]: behind the entries whose keys are not greater. *)
Fixpoint multimap_emplace {V} (k : string) (v : V) (m : list (string * V)) : list (string * V) :=
  match m with
  | [] => [(k, v)]
  | (k', v') :: rest =>
      if String.ltb k k' then (k, v) :: m else (k', v') :: multimap_emplace k v rest
  end.

(** The IP of a load balancer. *)
Definition load_balancer_ip (serviceData : Json) : option string :=
  loadBalancer ← member_at ["status"; "loadBalancer"] serviceData;
  has ← has_member "ingress" loadBalancer;
  match member "ingress" loadBalancer with
  | Some (JArray (JObject ingress :: _)) =>
      match find_member "ip" ingress with Some ip => get_string ip | None => Some "<pending>" end
  | _ => Some "<pending>"
  end.

(** The expression that selects the pods of a service. *)
Fixpoint selector_filter (selectors : list (string * Json)) (filter : string) : option string :=
  match selectors with
  | [] => Some filter
  | (name, value) :: selectors =>
      value ← get_string value;
      selector_filter selectors
        ((if str_empty filter then filter else filter +:+ ",") +:+ c_str name +:+ "=" +:+ value)
  end.

(** The last external address counts. *)
Fixpoint external_ip (addresses : list Json) (ip : string) : option string :=
  match addresses with
  | [] => Some ip
  | addr :: addresses =>
      addrType ← member "type" addr ≫= get_string;
      if bool_decide (addrType = "ExternalIP") then
        address ← member "address" addr ≫= get_string;
        external_ip addresses address
      else external_ip addresses ip
  end.

(** A number of a port that is given. *)
Definition port_number (name : string) (port : Json) : option (option Z) :=
  has ← has_member name port;
  Some (member name port ≫= get_int).

Definition show_port (n : option Z) : string := match n with Some n => pretty n | None => "" end.

(** Whether there is a port, and it is positive. *)
Definition reachable (n : option Z) : option Z :=
  match n with Some n => if (0 <? n)%Z then Some n else None | None => None end.

(** An entry for a port of the service. *)
Definition port_interface (serviceType clusterIP externalIP : string) (port : Json) :
    option ServiceInterface :=
  internalPort ← port_number "port" port;
  externalPort ← port_number "nodePort" port;
  has ← has_member "protocol" port;
  let protocol := match member "protocol" port with Some (JString s) => c_str s | _ => "" end in
  let ports := show_port internalPort +:+ ":" +:+ show_port externalPort +:+ "/" +:+ protocol in
  let netPathRef :=
    match (if bool_decide (serviceType = "LoadBalancer") then reachable internalPort
           else if bool_decide (serviceType = "NodePort") then reachable externalPort
           else None) with
    | Some n => externalIP +:+ ":" +:+ pretty n
    | None => ""
    end in
  Some (mkServiceInterface clusterIP externalIP ports netPathRef).

Definition service_ports (serviceType clusterIP externalIP : string) (serviceData : Json) :
    option (list ServiceInterface) :=
  ports ← member_at ["spec"; "ports"] serviceData ≫= get_array;
  each (λ port, interface ← port_interface serviceType clusterIP externalIP port;
                Some [interface]) ports.

(** ** Ingresses *)

(** The service and the port behind a path, in the form of new or of old versions of
    Kubernetes. *)
Definition backend_target (backend : Json) : option (string * Z) :=
  modern ← has_member "service" backend;
  modern ← (if modern : bool then
    service ← member "service" backend;
    named ← has_member "name" service;
    if negb named then Some false else
    ported ← has_member "port" service;
    if negb ported then Some false else
    member "port" service ≫= has_member "number"
    else Some false);
  if modern : bool then
    name ← member_at ["service"; "name"] backend ≫= get_string;
    port ← member_at ["service"; "port"; "number"] backend ≫= get_int;
    Some (name, port)
  else
    named ← has_member "serviceName" backend;
    ported ← (if named : bool then has_member "servicePort" backend else Some false);
    if ported : bool then
      name ← member "serviceName" backend ≫= get_string;
      port ← member "servicePort" backend ≫= get_int;
      Some (name, port)
    else Some ("", 0%Z).

(** The internal port at the beginning of [ports], if there is one. *)
Definition first_port (interface : ServiceInterface) : option string :=
  match str_find_char ":"%char 0 (ports interface) with
  | Some (Datatypes.S n) => Some (str_take (Datatypes.S n) (ports interface))
  | _ => None
  end.

Definition refer (serviceName : string) (servicePort : Z) (url : string)
    (service : string * ServiceInterface) : string * ServiceInterface :=
  if bool_decide (service.1 = serviceName) && bool_decide (first_port service.2 = Some (pretty servicePort))
  then (service.1, mkServiceInterface (clusterIP service.2) (externalIP service.2)
                     (ports service.2) url)
  else service.

Definition Services : Type := list (string * ServiceInterface).

Definition refer_path (protocol hostName : string) (path : Json) (services : Services) :
    option Services :=
  has ← has_member "backend" path;
  match member "backend" path with
  | None => Some services
  | Some backend =>
      target ← backend_target backend;
      servicePath ← member "path" path ≫= get_string;
      Some (refer target.1 target.2 (protocol +:+ "://" +:+ hostName +:+ servicePath) <$> services)
  end.

(** A loop over an array that changes the services. *)
Fixpoint through {A} (f : A → Services → option Services) (l : list A) (services : Services) :
    option Services :=
  match l with
  | [] => Some services
  | x :: l => services ← f x services; through f l services
  end.

Definition refer_protocol (rule : Json) (hostName protocol : string) (services : Services) :
    option Services :=
  has ← has_member protocol rule;
  match member protocol rule with
  | None => Some services
  | Some http =>
      has ← has_member "paths" http;
      match member "paths" http with
      | None => Some services
      | Some paths =>
          paths ← get_array paths;
          through (refer_path protocol hostName) paths services
      end
  end.

Definition refer_rule (rule : Json) (services : Services) : option Services :=
  has ← has_member "host" rule;
  match member "host" rule with
  | None => Some services
  | Some host =>
      hostName ← get_string host;
      through (refer_protocol rule hostName) ["http"; "https"] services
  end.

Definition refer_ingress (ingressData : Json) (services : Services) : option Services :=
  rules ← member_at ["spec"; "rules"] ingressData ≫= get_array;
  through refer_rule rules services.

Section services.
Context `{D : Dynamo} `{P : Platform} `{PR : !Processes} `{J : !JsonParser}.

(** The IP of the node a service is on; nothing when the service is skipped. *)
Definition node_port_ip (configPath nspace : string) (serviceData : Json) :
    Store (option string) :=
  filter ← asserted ((member_at ["spec"; "selector"] serviceData ≫= get_members)
                       ≫= λ selectors, selector_filter selectors "");
  podResult ← kubectl configPath ["get"; "pod"; "-l"; filter; "--namespace"; nspace; "-o=json"];
  if negb (status podResult =? 0)%Z then mret None else
  pods ← asserted (member "items" (Parse (c_str (output podResult))) ≫= get_array);
  match pods with
  | [] => mret None
  | pod :: _ =>
      hosted ← asserted (member "status" pod ≫= has_member "hostIP");
      if negb hosted then mret (Some "<none>") else
      named ← asserted (member "spec" pod ≫= has_member "nodeName");
      if negb named then mret (Some "") else
      nodename ← asserted (member_at ["spec"; "nodeName"] pod ≫= get_string);
      nodeResult ← kubectl configPath ["get"; "node"; nodename; "-o=json"];
      if negb (status nodeResult =? 0)%Z then mret None else
      hostIP ← asserted (member_at ["status"; "hostIP"] pod ≫= get_string);
      let nodeData := Parse (c_str (output nodeResult)) in
      known ← asserted (has_member "status" nodeData);
      if negb known then mret (Some hostIP) else
      ip ← asserted ((member_at ["status"; "addresses"] nodeData ≫= get_array)
                       ≫= λ addresses, external_ip addresses hostIP);
      mret (Some ip)
  end.

(** A service is listed under its name, once for each of its ports. *)
Definition add_service (configPath nspace : string) (services : Services) (serviceData : Json) :
    Store Services :=
  serviceName ← asserted (member_at ["metadata"; "name"] serviceData ≫= get_string);
  clusterIP ← asserted (member_at ["spec"; "clusterIP"] serviceData ≫= get_string);
  serviceType ← asserted (member_at ["spec"; "type"] serviceData ≫= get_string);
  externalIP ←
    (if bool_decide (serviceType = "LoadBalancer")
     then ip ← asserted (load_balancer_ip serviceData); mret (Some ip)
     else if bool_decide (serviceType = "NodePort") then node_port_ip configPath nspace serviceData
     else mret (Some ""));
  match externalIP with
  | None => mret services
  | Some externalIP =>
      interfaces ← asserted (service_ports serviceType clusterIP externalIP serviceData);
      mret (foldl (λ services interface, multimap_emplace serviceName interface services)
              services interfaces)
  end.

Fixpoint add_services (configPath nspace : string) (services : Services) (items : list Json) :
    Store Services :=
  match items with
  | [] => mret services
  | serviceData :: items =>
      services ← add_service configPath nspace services serviceData;
      add_services configPath nspace services items
  end.

Definition getServices (configPath releaseName nspace : string) : Store Services :=
  let selection := ["-l"; "release=" +:+ releaseName; "--namespace"; nspace; "-o=json"] in
  servicesResult ← kubectl configPath (["get"; "services"] ++ selection);
  if negb (status servicesResult =? 0)%Z then mret [] else
  items ← asserted (member "items" (Parse (c_str (output servicesResult))) ≫= get_array);
  services ← add_services configPath nspace [] items;
  ingressesResult ← kubectl configPath (["get"; "ingresses"] ++ selection);
  if negb (status ingressesResult =? 0)%Z then mret [] else
  asserted ((member "items" (Parse (c_str (output ingressesResult))) ≫= get_array)
              ≫= λ ingresses, through refer_ingress ingresses services).

End services.

(** * Pods *)

(** What follows the last colon of the ID of an image. *)
Definition image_hash (idStr : string) : string :=
  match find_first (char_is ":"%char) (str_rev idStr) with
  | Some (Datatypes.S n) => str_drop (str_size idStr - Datatypes.S n) idStr
  | _ => idStr
  end.

(** Members that are copied when they are there. *)
Fixpoint copied_all (names : list (string * string)) (v : Json) : option (list (string * Json)) :=
  match names with
  | [] => Some []
  | (to, from) :: names => here ← copied to from v; rest ← copied_all names v; Some (here ++ rest)
  end.

Definition container_json (item : Json) : option Json :=
  image ← copied "image" "image" item;
  has ← has_member "imageID" item;
  imageID ← match member "imageID" item with
            | Some v => idStr ← get_string v; Some [("imageID", JString (image_hash idStr))]
            | None => Some []
            end;
  rest ← copied_all [("name", "name"); ("ready", "ready"); ("restartCount", "restartCount");
                     ("state", "state"); ("lastState", "lastState")] item;
  Some (JObject (image ++ imageID ++ rest)).

(** The part of the description under [name], if there is one. *)
Definition part (name : string) (pod : Json) (f : Json → option (list (string * Json))) :
    option (list (string * Json)) :=
  has ← has_member name pod;
  match member name pod with Some v => f v | None => Some [] end.

Definition containers_json (status : Json) : option (list (string * Json)) :=
  has ← has_member "containerStatuses" status;
  match member "containerStatuses" status with
  | Some v =>
      items ← get_array v;
      containers ← each (λ item, container ← container_json item; Some [container]) items;
      Some [("containers", JArray containers)]
  | None => Some []
  end.

(** The name of a pod and what is told of it, apart from its events. *)
Definition pod_info (pod : Json) : option (string * list (string * Json)) :=
  podName ← member_at ["metadata"; "name"] pod ≫= get_string;
  metadata ← part "metadata" pod (copied_all [("created", "creationTimestamp"); ("name", "name")]);
  spec ← part "spec" pod (copied "hostName" "nodeName");
  status ← part "status" pod (λ status,
    members ← copied_all [("hostIP", "hostIP"); ("status", "phase");
                          ("conditions", "conditions"); ("message", "message")] status;
    containers ← containers_json status;
    Some (members ++ containers));
  Some (podName, metadata ++ spec ++ status).

Definition event_json (item : Json) : option Json :=
  members ← copied_all [("count", "count"); ("firstTimestamp", "firstTimestamp");
    ("lastTimestamp", "lastTimestamp"); ("reason", "reason"); ("message", "message")] item;
  Some (JObject members).

Section details.
Context `{D : Dynamo} `{P : Platform} `{PR : !Processes} `{J : !JsonParser}.

(** The document starts as an object, and stays one if the output cannot be parsed. *)
Definition events_of (output : string) : option (list (string * Json)) :=
  let data := match Parse (c_str output) with JNull => JObject [] | data => data end in
  has ← has_member "items" data;
  match member "items" data with
  | Some (JArray items) =>
      events ← each (λ item, event ← event_json item; Some [event]) items;
      Some [("events", JArray events)]
  | _ => Some []
  end.

Definition getPodEvents (configPath nspace podName : string) : Store string :=
  result ← kubectl configPath
    ["get"; "event"; "--field-selector"; "involvedObject.name=" +:+ podName; "-n"; nspace; "-o=json"];
  mret (output result).

Definition fetchInstanceDetails (instance : ApplicationInstance.t) : Store Json :=
  group ← getGroup (ApplicationInstance.owningGroup instance);
  let nspace := Group.namespaceName group in
  configPath ← configPathForCluster (ApplicationInstance.cluster instance);
  result ← kubectl configPath
    ["get"; "pods"; "-l"; "release=" +:+ ApplicationInstance.name instance; "-n"; nspace; "-o=json"];
  if negb (status result =? 0)%Z then
    mret (JObject [("pods", JArray [JObject [("kind", JString "Error");
      ("message", JString "Failed to get information for pods")]])])
  else
  pods ← asserted ((member "items" (Parse (c_str (output result))) ≫= get_array)
                     ≫= each (λ pod, info ← pod_info pod; Some [info]));
  eventData ← for_collect pods (λ pod, task ← async (getPodEvents configPath nspace pod.1);
                                       mret (pod.2, task));
  podDetails ← for_collect eventData (λ '(podInfo, task),
    output ← lift task;
    events ← asserted (events_of output);
    mret (JObject (podInfo ++ events)));
  mret (JObject [("pods", JArray podDetails)]).

(** * The reply *)

(** A member of the first release that helm lists; [Unknown] when there is none. *)
Definition release_info (name : string) (releaseInfo : Json) : option string :=
  match releaseInfo with
  | JArray (release :: _) =>
      has ← has_member name release;
      match member name release with Some v => get_string v | None => Some "Unknown" end
  | _ => Some "Unknown"
  end.

Definition service_json (service : string * ServiceInterface) : Json :=
  JObject [("name", StringRef service.1); ("clusterIP", StringRef (clusterIP service.2));
    ("externalIP", StringRef (externalIP service.2)); ("ports", StringRef (ports service.2));
    ("url", StringRef (netPathRef service.2))].

Definition fetchApplicationInstanceInfo (instanceID : string) (req : Request) : Store Response :=
  as_manager 404 instanceID req (λ instance,
    config ← getApplicationInstanceConfig instanceID;
    with_owners instance (λ group cluster,
      clusterConfig ← configPathForCluster (Cluster.id cluster);
      result ← run "helm" ["list"; "-f"; "^" +:+ ApplicationInstance.name instance +:+ "$";
                           "-n"; Group.namespaceName group; "--output"; "json"]
                 [("KUBECONFIG", clusterConfig)];
      let releaseInfo := Parse (c_str (output result)) in
      appVersion ← asserted (release_info "app_version" releaseInfo);
      group' ← getGroup (ApplicationInstance.owningGroup instance);
      cluster' ← getCluster (ApplicationInstance.cluster instance);
      chartVersion ← asserted (release_info "chart" releaseInfo);
      configPath ← configPathForCluster (ApplicationInstance.cluster instance);
      _ ← getCluster (ApplicationInstance.cluster instance);
      services ← getServices configPath (ApplicationInstance.name instance) (Group.namespaceName group);
      details ← match param req "detailed" with
                | Some _ =>
                    try_catch (details ← fetchInstanceDetails instance; mret [("details", details)])
                      (λ err, mret [("details", JObject [("kind", JString "Error");
                         ("message", JString ("Failed to detailed information for instance: " +:+ err))])])
                | None => mret []
                end;
      mret (reply ([apiVersion; ("kind", JString "ApplicationInstance");
        ("metadata", JObject
          [("id", StringRef (ApplicationInstance.id instance));
           ("name", StringRef (ApplicationInstance.name instance));
           ("application", JString (application_name (ApplicationInstance.application instance)));
           ("appVersion", JString appVersion);
           ("group", JString (Group.name group')); ("cluster", JString (Cluster.name cluster'));
           ("created", StringRef (ApplicationInstance.ctime instance));
           ("configuration", StringRef config);
           ("chartVersion", JString chartVersion)]);
        ("services", JArray (service_json <$> services))] ++ details)))).
End details.

