(* ===== verification/ClusterStatus.v ===== *)
(** What is told of the state of a cluster (src/ClusterCommands.cpp): whether it can be reached,
    what classes of storage and priority and which nodes it has, and whether the instances and
    the secrets on it are those of the store. *)

From stdpp Require Import pretty.
From S2P Require Import Prelude Text Entities Cache Dynamo Store Demo Kubernetes Listing.
From S2P Require Import Catalogue StoreGroups StoreUsers StoreMembership StoreClusters.
From S2P Require Import StoreAccess StoreInstances StoreSecrets Http Geocoder UserCommands.
From S2P Require Import ClusterCommands ApplicationCommands InstanceCommands.

(** * Classes *)

Module StorageClass.
Record t := mk { name : string; isDefault : bool; allowVolumeExpansion : bool;
  bindingMode : string; reclaimPolicy : string }.
End StorageClass.

Module PriorityClass.
Record t := mk { name : string; description : string; isDefault : bool; priority : Z }.
End PriorityClass.

(** [v.HasMember(name) && v[name].IsBool()], and its value *)
Definition bool_member (name : string) (members : list (string * Json)) : bool :=
  match find_member name members with Some (JBool b) => b | _ => false end.

Definition default_annotation : string := "storageclass.kubernetes.io/is-default-class".

Definition is_default_class (metadata : list (string * Json)) : bool :=
  match find_member "annotations" metadata with
  | Some (JObject annotations) =>
      match find_member default_annotation annotations with
      | Some (JBool b) => b
      | Some (JString s) => bool_decide (c_str s = "true")
      | _ => false
      end
  | _ => false
  end.

(** The members of an item that has a name, with the metadata; others are left out. [None] is
    a failed assertion. *)
Definition named_item (item : Json) :
    option (option (string * list (string * Json) * list (string * Json))) :=
  members ← get_members item;
  Some (match find_member "metadata" members with
        | Some (JObject metadata) =>
            name ← string_member "name" metadata; Some (name, metadata, members)
        | _ => None
        end).

Definition storage_class (item : Json) : option (list StorageClass.t) :=
  named ← named_item item;
  Some (match named with
        | None => []
        | Some (name, metadata, members) =>
            [StorageClass.mk name (is_default_class metadata)
               (bool_member "allowVolumeExpansion" members)
               (default "" (string_member "volumeBindingMode" members))
               (default "" (string_member "reclaimPolicy" members))]
        end).

(** A priority is an [uint32_t]. *)
Definition priority_class (item : Json) : option (list PriorityClass.t) :=
  named ← named_item item;
  Some (match named with
        | None => []
        | Some (name, metadata, members) =>
            [PriorityClass.mk name (default "" (string_member "description" members))
               (bool_member "globalDefault" members)
               (match find_member "value" members ≫= get_int with
                | Some n => n mod 2 ^ 32 | None => 0 end)%Z]
        end).

Definition storage_class_json (storageClass : StorageClass.t) : Json := JObject
  [("name", JString (StorageClass.name storageClass));
   ("isDefault", JBool (StorageClass.isDefault storageClass));
   ("allowVolumeExpansion", JBool (StorageClass.allowVolumeExpansion storageClass));
   ("bindingMode", JString (StorageClass.bindingMode storageClass));
   ("reclaimPolicy", JString (StorageClass.reclaimPolicy storageClass))].

Definition priority_class_json (priorityClass : PriorityClass.t) : Json := JObject
  [("name", JString (PriorityClass.name priorityClass));
   ("isDefault", JBool (PriorityClass.isDefault priorityClass));
   ("description", JString (PriorityClass.description priorityClass));
   ("priority", JNumber (pretty (PriorityClass.priority priorityClass)))].

(** * Nodes *)

(** [std::stoi]: the number a text begins with. *)
Definition std_stoi (s : string) : Res Z :=
  let s := str_drop (default (str_size s) (find_first (λ c, negb (isspace c)) s)) s in
  let '(negative, s) :=
    match s with
    | String c s' => if char_is "-"%char c then (true, s')
                     else if char_is "+"%char c then (false, s') else (false, s)
    | EmptyString => (false, s)
    end in
  let n := default (str_size s) (find_first (λ c, negb (isdigit c)) s) in
  let v := (if negative : bool then - decimal 0 (str_take n s) else decimal 0 (str_take n s))%Z in
  if (n =? 0) || (v <? - 2 ^ 31)%Z || (2 ^ 31 <=? v)%Z then Throw "stoi" else Ok v.

Definition checked_sum (width : Z) (what : string) (a b : Z) : Res Z :=
  if ((- 2 ^ (width - 1) <=? a + b) && (a + b <? 2 ^ (width - 1)))%Z then Ok (a + b)%Z
  else Throw ("undefined behaviour: overflow of " +:+ what).

Definition assertion {A} (o : option A) : Res A :=
  match o with Some a => Ok a | None => Throw "assertion failed" end.

(** The processors and the memory of all nodes so far. *)
Definition Totals : Type := Z * Z.

Definition text_of (name : string) (members : list (string * Json)) : option (option string) :=
  match find_member name members with
  | None => Some None
  | Some v => Some <$> get_string v
  end.

(** The members of [names] that there are, all of which must be texts. *)
Fixpoint texts_of (names : list string) (members : list (string * Json)) : option unit :=
  match names with
  | [] => Some tt
  | name :: names => _ ← text_of name members; texts_of names members
  end.

(** What a node can give to the pods, added to the totals. *)
Definition add_allocatable (allocatable : list (string * Json)) (totals : Totals) : Res Totals :=
  cpu ← assertion (text_of "cpu" allocatable);
  totalCpus ← match cpu with
              | Some cpu => n ← std_stoi cpu; checked_sum 32 "an int" totals.1 n
              | None => Ok totals.1
              end;
  _ ← assertion (texts_of ["ephemeral-storage"; "hugepages-1Gi"; "hugepages-2Mi"] allocatable);
  memory ← assertion (text_of "memory" allocatable);
  totalMemory ← match memory with
                | Some memory => n ← parseStringSuffix memory; checked_sum 64 "a long" totals.2 n
                | None => Ok totals.2
                end;
  _ ← assertion (text_of "pods" allocatable);
  Ok (totalCpus, totalMemory).

(** An address counts when it is internal or external. *)
Definition add_address (status : list (string * Json)) (addr : Json) (totals : Totals) : Res Totals :=
  addrType ← assertion (member "type" addr ≫= get_string);
  if negb (bool_decide (addrType ∈ ["InternalIP"; "ExternalIP"])) then Ok totals else
  _ ← assertion (member "address" addr ≫= get_string);
  totals ← match find_member "allocatable" status with
           | Some info => info ← assertion (get_members info); add_allocatable info totals
           | None => Ok totals
           end;
  match find_member "capacity" status with
  | Some info =>
      info ← assertion (get_members info);
      _ ← assertion (texts_of ["cpu"; "ephemeral-storage"; "hugepages-1Gi"; "hugepages-2Mi";
                               "memory"; "pods"] info);
      Ok totals
  | None => Ok totals
  end.

Fixpoint add_addresses (status : list (string * Json)) (addresses : list Json) (totals : Totals) :
    Res Totals :=
  match addresses with
  | [] => Ok totals
  | addr :: addresses => totals ← add_address status addr totals; add_addresses status addresses totals
  end.

(** A node without a name or without addresses does not count. *)
Definition add_node (node : Json) (totals : Totals) : Res Totals :=
  node ← assertion (get_members node);
  match find_member "metadata" node with
  | None => Ok totals
  | Some metadata =>
      metadata ← assertion (get_members metadata);
      match find_member "name" metadata with
      | None => Ok totals
      | Some name =>
          _ ← assertion (get_string name);
          match find_member "status" node with
          | None => Ok totals
          | Some status =>
              status ← assertion (get_members status);
              match find_member "addresses" status with
              | None => Ok totals
              | Some addresses =>
                  addresses ← assertion (get_array addresses); add_addresses status addresses totals
              end
          end
      end
  end.

Fixpoint add_nodes (nodes : list Json) (totals : Totals) : Res Totals :=
  match nodes with
  | [] => Ok totals
  | node :: nodes => totals ← add_node node totals; add_nodes nodes totals
  end.

(** * The requests *)

Section handlers.
Context `{D : Dynamo} `{P : Platform} `{PR : !Processes} `{J : !JsonParser} `{JW : !JsonWriter}.
Implicit Types (cluster : Cluster.t).

(** ** Whether a cluster can be reached *)

Definition list_accounts : list string :=
  ["get"; "serviceaccounts"; "-o=jsonpath={.items[*].metadata.name}"].

(** kubectl ends well, and names the default account. *)
Definition contacted (clusterInfo : commandResult) : bool :=
  (status clusterInfo =? 0)%Z &&
  match str_find "default" (output clusterInfo) with Some _ => true | None => false end.

Definition ping cluster : Store bool :=
  configPath ← configPathForCluster (Cluster.id cluster);
  clusterInfo ← kubectl configPath list_accounts;
  mret (contacted clusterInfo).

(** A fresh look, which the cache keeps. *)
Definition look cluster : Store bool :=
  reachable ← ping cluster;
  _ ← cacheClusterReachability (Cluster.id cluster) reachable;
  mret reachable.

(** What the requests about one cluster begin with. *)
Definition with_cluster (clusterID : string) (req : Request) (k : User.t → Cluster.t → Store Response) :
    Store Response :=
  user ← authenticateUser (param req "token");
  if negb (User.valid user) then mret (failure 403 "User not authorized") else
  cluster ← getCluster clusterID;
  if negb (Cluster.valid cluster) then mret (failure 404 "Cluster not found") else
  k user cluster.

Definition pingCluster (clusterID : string) (req : Request) : Store Response :=
  with_cluster clusterID req (λ _ cluster,
    cacheResult ← match param req "cache" with
                  | Some _ => getCachedClusterReachability (Cluster.id cluster)
                  | None => mret (CacheRecord.stale false)
                  end;
    valid ← record_valid cacheResult;
    reachable ← (if valid : bool then mret (CacheRecord.record cacheResult) else look cluster);
    mret (reply [apiVersion; ("reachable", JBool reachable)])).

(** ** What there is on a cluster *)

Definition get_classes {A} (what : string) (of_item : Json → option (list A)) cluster :
    Store (list A) :=
  configPath ← configPathForCluster (Cluster.id cluster);
  classInfoRaw ← kubectl configPath ["get"; what; "-o=json"];
  if negb (status classInfoRaw =? 0)%Z then mret [] else
  let classInfo := Parse (c_str (output classInfoRaw)) in
  members ← asserted (get_members classInfo);
  match find_member "items" members with
  | Some (JArray items) => asserted (each of_item items)
  | _ => mret []
  end.

Definition getClusterStorageClasses cluster : Store (list StorageClass.t) :=
  get_classes "storageclasses" storage_class cluster.
Definition getClusterPriorityClasses cluster : Store (list PriorityClass.t) :=
  get_classes "priorityclasses" priority_class cluster.

(** A reference to the characters of a string that is gone when the document is written. *)
Definition gone {A} : Store A := throw "undefined behaviour: characters of a string that is gone".

Definition version_members (configPath : string) : Store (list (string * Json)) :=
  versionInfo ← kubectl configPath ["version"; "-o"; "json"];
  match Parse (c_str (output versionInfo)) with
  | JObject members =>
      match find_member "serverVersion" members with
      | None => mret []
      | Some serverInfo =>
          serverInfo ← asserted (get_members serverInfo);
          match string_member "gitVersion" serverInfo with
          | Some version => mret [("version", JString version)]
          | None => gone
          end
      end
  | _ => mret []
  end.

(** The nodes: nothing when kubectl tells of none; otherwise the sums and the names are added
    as references to strings that do not last. *)
Definition node_members (configPath : string) : Store (list (string * Json)) :=
  node_info ← kubectl configPath ["get"; "nodes"; "-o"; "json"];
  match Parse (c_str (output node_info)) with
  | JObject members =>
      match find_member "items" members with
      | None => mret []
      | Some items =>
          items ← asserted (get_array items);
          totals ← lift (add_nodes items (0, 0)%Z);
          gone
      end
  | _ => mret []
  end.

Definition getClusterInfo (clusterID : string) (req : Request) : Store Response :=
  with_cluster clusterID req (λ _ cluster,
    owner ← findGroupByID (Cluster.owningGroup cluster);
    configPath ← configPathForCluster (Cluster.id cluster);
    server_info ← kubectl configPath
      ["config"; "view"; "-o=jsonpath={.clusters[0].cluster.server}"];
    locations ← getLocationsForCluster (Cluster.id cluster);
    storageClasses ← getClusterStorageClasses cluster;
    priorityClasses ← getClusterPriorityClasses cluster;
    version ← version_members configPath;
    nodes ← match param req "nodes" with Some _ => node_members configPath | None => mret [] end;
    mret (reply
      [("apiVersion", JString "v1"); ("kind", JString "Cluster");
       ("metadata", JObject
          ([("id", JString (Cluster.id cluster)); ("name", JString (Cluster.name cluster));
            ("owningGroup", JString (Group.name owner));
            ("owningOrganization", JString (Cluster.owningOrganization cluster));
            ("masterAddress", JString (output server_info));
            ("location", JArray (location_json <$> locations));
            ("hasMonitoring",
               JBool (S3Credential.to_bool (Cluster.monitoringCredential cluster)));
            ("storageClasses", JArray (storage_class_json <$> storageClasses));
            ("priorityClasses", JArray (priority_class_json <$> priorityClasses))]
           ++ version ++ nodes))])).
End handlers.

(** * Whether the store and the cluster agree *)

Inductive ClusterConsistencyState := Unreachable | HelmFailure | Inconsistent | Consistent.

Record ClusterConsistencyResult := mkConsistency {
  state : ClusterConsistencyState;
  expectedInstancesByName : gmap string ApplicationInstance.t;
  missingInstances : gset string; unexpectedInstances : gset string;
  missingSecrets : gset string; unexpectedSecrets : gset string }.

(** The first columns of the lines below the header. *)
Definition release_names (text : string) : gset string :=
  list_to_set (omap (λ line, head (string_split_columns line tab false))
                 (tail (string_split_lines text))).

(** [emplace] keeps the first instance of a name. *)
Definition by_name (instances : list ApplicationInstance.t) : gmap string ApplicationInstance.t :=
  list_to_map ((λ i, (ApplicationInstance.name i, i)) <$> instances).

Section consistency.
Context `{D : Dynamo} `{P : Platform} `{PR : !Processes}.
Implicit Types (cluster : Cluster.t).

Definition list_namespaces (version : Z) : list string :=
  ["get"; if (version =? 1)%Z then "clusternamespaces" else "clusternss";
   "-o=jsonpath={.items[*].metadata.name}"].

(** The secrets of a group, without those of Kubernetes itself. *)
Definition secrets_in (configPath namespaceName : string) : Store (gset string) :=
  if negb (begins_with namespaceName Group.namespacePrefix) then mret ∅ else
  let groupName := str_drop (str_size Group.namespacePrefix) namespaceName in
  secretsInfo ← kubectl configPath
    ["get"; "secrets"; "-n"; namespaceName; "-o=jsonpath={.items[*].metadata.name}"];
  mret (list_to_set ((λ secretName, groupName +:+ ":" +:+ secretName) <$>
    filter (λ secretName, begins_with secretName "default-token-" = false)
      (string_split_columns (output secretsInfo) " " false))).

Definition existing_secrets (configPath : string) : Store (gset string) :=
  version ← getControllerVersion configPath;
  namespaceInfo ← kubectl configPath (list_namespaces version);
  found ← for_collect (string_split_columns (output namespaceInfo) " " false) (secrets_in configPath);
  mret (⋃ found).

Definition expected_secrets cluster : Store (gset string) :=
  expectedSecrets ← listSecrets "" (Cluster.id cluster);
  names ← for_collect expectedSecrets (λ secret,
    group ← findGroupByID (Secret.group secret);
    mret (Group.name group +:+ ":" +:+ Secret.name secret));
  mret (list_to_set names).

(** The sets differ. *)
Definition differ (missing unexpected : gset string) : bool :=
  negb (bool_decide (missing = ∅) && bool_decide (unexpected = ∅)).

Definition check_consistency cluster : Store ClusterConsistencyResult :=
  configPath ← configPathForCluster (Cluster.id cluster);
  reachable ← ping cluster;
  if negb reachable then mret (mkConsistency Unreachable ∅ ∅ ∅ ∅ ∅) else
  instanceInfo ← helm configPath (Cluster.systemNamespace cluster) ["list"];
  if negb (status instanceInfo =? 0)%Z then mret (mkConsistency HelmFailure ∅ ∅ ∅ ∅ ∅) else
  let existing := release_names (output instanceInfo) in
  expectedInstances ← listApplicationInstancesByClusterOrGroup "" (Cluster.id cluster);
  let expected : gset string := list_to_set (ApplicationInstance.name <$> expectedInstances) in
  existingSecrets ← existing_secrets configPath;
  expectedSecrets ← expected_secrets cluster;
  let missing := expected ∖ existing in
  let unexpected := existing ∖ expected in
  let missing' := expectedSecrets ∖ existingSecrets in
  let unexpected' := existingSecrets ∖ expectedSecrets in
  mret (mkConsistency
    (if differ missing unexpected || differ missing' unexpected' then Inconsistent else Consistent)
    (by_name expectedInstances) missing unexpected missing' unexpected').

(** ** As a document *)

(** The elements of an [std::set<std::string>], in order. *)
Definition not_above (a b : string) : Prop := String.leb a b = true.
#[global] Instance not_above_dec a b : Decision (not_above a b).
Proof. unfold not_above. apply _. Defined.

Definition in_order (s : gset string) : list string := merge_sort not_above (elements s).

Definition state_name (s : ClusterConsistencyState) : string :=
  match s with
  | Unreachable => "Unreachable" | HelmFailure => "HelmFailure"
  | Inconsistent => "Inconsistent" | Consistent => "Consistent"
  end.

Definition missing_json (instance : ApplicationInstance.t) : Json := JObject
  [apiVersion; ("kind", JString "ApplicationInstance");
   ("metadata", JObject
      [("id", JString (ApplicationInstance.id instance));
       ("name", JString (ApplicationInstance.name instance));
       ("application", JString (ApplicationInstance.application instance));
       ("group", JString (ApplicationInstance.owningGroup instance));
       ("cluster", JString (ApplicationInstance.cluster instance));
       ("created", JString (ApplicationInstance.ctime instance))])].

Definition toJSON (result : ClusterConsistencyResult) : list (string * Json) :=
  [apiVersion; ("status", JString (state_name (state result)));
   ("missingInstances", JArray (missing_json <$>
      omap (λ name, expectedInstancesByName result !! name) (in_order (missingInstances result))));
   ("unexpectedInstances", JArray (JString <$> in_order (unexpectedInstances result)));
   ("missingSecrets", JNumber (pretty (size (missingSecrets result))));
   ("unexpectedSecrets", JNumber (pretty (size (unexpectedSecrets result))))].

Definition verifyCluster (clusterID : string) (req : Request) : Store Response :=
  with_cluster clusterID req (λ _ cluster,
    result ← check_consistency cluster; mret (reply (toJSON result))).

(** Nothing is repaired yet. *)
Definition repairCluster (clusterID : string) (req : Request) : Store Response :=
  user ← authenticateUser (param req "token");
  if negb (User.valid user && User.admin user) then mret (failure 403 "User not authorized") else
  cluster ← getCluster clusterID;
  if negb (Cluster.valid cluster) then mret (failure 404 "Cluster not found") else
  _ ← check_consistency cluster; mret done_reply.
End consistency.
