(* ===== verification/ClusterLifecycle.v ===== *)
(** Registering, updating and deleting clusters, and deleting groups with what they own
    (src/ClusterCommands.cpp, src/GroupCommands.cpp). *)

From stdpp Require Import pretty.
From S2P Require Import Prelude Text Dns Entities Cache Dynamo Store Demo Kubernetes Listing.
From S2P Require Import Catalogue StoreGroups StoreUsers StoreMembership StoreClusters.
From S2P Require Import StoreAccess StoreInstances StoreSecrets StoreMonCreds StoreVolumes.
From S2P Require Import Http Geocoder UserCommands ClusterCommands SecretCommands VolumeCommands.
From S2P Require Import ApplicationCommands InstanceCommands ClusterStatus.

Local Abbreviation newline := (String Text.newline "").

(** rapidjson's [GetDouble]. *)
Class JsonReader `{Doubles} := GetDouble : string → double.

Section handlers.
Context `{D : Dynamo} `{P : Platform} `{PR : !Processes} `{J : !JsonParser}.
Context `{JR : !JsonReader} `{W : !Web} `{E : !Mailer} `{Y : !Yaml} `{S : !Settings}.
Context `{R : !Route53 FS}.
Context (dnsClient : DNSManipulator.t) (geocoder : Geocoder.t).
Implicit Types (cluster : Cluster.t) (group : Group.t).

(** A step of the DNS service. *)
Definition on_net {A} (m : M FS A) : Store A := λ w,
  let '(r, net) := m (fs w) in (r, upd_fs (λ _, net) w).

(** * Setting up a cluster *)

Definition setClusterDNSRecord cluster : Store string :=
  configPath ← configPathForCluster (Cluster.id cluster);
  icAddress ← kubectl configPath
    ["get"; "services"; "-n"; Cluster.systemNamespace cluster;
     "-l"; "app.kubernetes.io/name=ingress-nginx"; "-o";
     "jsonpath={.items[*].status.loadBalancer.ingress[0].ip}"];
  if negb (status icAddress =? 0)%Z then
    mret ("[Warning] Failed to check ingress controller service status: " +:+ error icAddress
          +:+ newline)
  else if str_empty (output icAddress) then
    mret ("[Warning] There is either no ingress controller service in the "
          +:+ Cluster.systemNamespace cluster +:+ " namespace, " +:+ newline
          +:+ "or it has not received an address." +:+ newline
          +:+ " A DNS record cannot be generated for this cluster until this is resolved."
          +:+ newline)
  else
    let name := dnsNameForCluster cluster in
    if canUpdateDNS dnsClient then
      success ← try_catch (on_net (setDNSRecord dnsClient ("*." +:+ name) (output icAddress)))
                  (λ _, mret false);
      mret (if negb success then ""
            else "Services using Ingress on this cluster can be assigned subdomains within the "
                 +:+ name +:+ " domain." +:+ newline)
    else
      mret ("[Warning] The SLATE API server is not able to make DNS records, so no DNS name will be available for this cluster."
            +:+ newline).

(** A registration that fails; its record is removed. *)
Definition drop_and_fail {A} cluster (what : string) : Store A :=
  _ ← removeCluster (Cluster.id cluster); throw ("Cluster registration failed: " +:+ what).

(** The lines of a description that give the namespace: whether one is right, and the last
    one that is not. *)
Fixpoint check_namespace (nspace : string) (lines : list string) (okay : bool) (badline : string) :
    bool * string :=
  match lines with
  | [] => (okay, badline)
  | line :: lines =>
      match string_split_columns line " " false with
      | [field; value] =>
          if bool_decide (field = "Namespace:") then
            if bool_decide (value = nspace) then check_namespace nspace lines true badline
            else check_namespace nspace lines okay line
          else check_namespace nspace lines okay badline
      | _ => check_namespace nspace lines okay badline
      end
  end.

(** Whether the pods of the server part of helm 2 are all ready. *)
Fixpoint tiller_ready (lines : list string) : bool :=
  match lines with
  | [] => false
  | line :: lines =>
      match string_split_columns line " " false with
      | name :: ready :: _ :: _ =>
          match str_find "tiller-deploy" name with
          | None => tiller_ready lines
          | Some _ =>
              match str_find_char "/"%char 0 ready with
              | None | Some O => false
              | Some slashPos =>
                  if slashPos + 1 =? str_size ready then false else
                  match stoul (str_take slashPos ready), stoul (str_drop (slashPos + 1) ready) with
                  | Some numer, Some denom =>
                      if ((0 <? numer) && (numer =? denom))%Z then true else tiller_ready lines
                  | _, _ => false
                  end
              end
          end
      | _ => tiller_ready lines
      end
  end.

Definition maxDelay : Z := 120000.
Definition delay : Z := 500.

(** Waiting for it; [fuel] bounds the looks. *)
Fixpoint wait_tiller (fuel : nat) (configPath : string) cluster (delaySoFar : Z) : Store string :=
  match fuel with
  | O => out_of_fuel
  | Datatypes.S fuel =>
      commandResult ← kubectl configPath
        ["get"; "pods"; "--namespace"; Cluster.systemNamespace cluster];
      if negb (status commandResult =? 0)%Z then mret "" else
      if tiller_ready (string_split_lines (output commandResult)) then mret "" else
      if (delaySoFar <? maxDelay)%Z then wait_tiller fuel configPath cluster (delaySoFar + delay)
      else mret ("[Warning] Waiting for tiller readiness in the " +:+ Cluster.systemNamespace cluster
                 +:+ " namespace timed out." +:+ newline
                 +:+ " Applications cannot be installed on this cluster until this pod is running."
                 +:+ newline)
  end.

(** One look at each delay there is time for, and a last one. *)
Definition maxLooks : nat := 241.

Definition says (what text : string) : bool :=
  match str_find what text with Some _ => true | None => false end.

(** The server part of helm 2. *)
Definition setup_tiller (configPath : string) cluster : Store string :=
  let nspace := Cluster.systemNamespace cluster in
  commandResult ← run "helm" ["init"; "--service-account"; nspace; "--tiller-namespace"; nspace]
                    [("KUBECONFIG", configPath)];
  if negb (status commandResult =? 0)%Z
     || negb (says "Tiller (the Helm server-side component) has been installed" (output commandResult))
        && negb (says "Tiller is already installed" (output commandResult))
  then drop_and_fail cluster "Unable to initialize helm" else
  okay ← (if says "Warning: Tiller is already installed in the cluster" (output commandResult) then
            deployments ← kubectl configPath
              ["get"; "deployments"; "--namespace"; nspace; "-o=jsonpath={.items[*].metadata.name}"];
            mret ((status deployments =? 0)%Z &&
              bool_decide ("tiller-deploy" ∈ string_split_columns (output deployments) " " false))
          else mret true);
  if negb okay then drop_and_fail cluster "Unable to initialize helm" else
  wait_tiller maxLooks configPath cluster 0.

(** That the cluster answers, and has the account and the namespace that it should have. *)
Definition check_accounts (configPath : string) cluster (autodelete : bool) : Store unit :=
  clusterInfo ← kubectl configPath list_accounts;
  if negb (contacted clusterInfo) then
    _ ← (if autodelete then _ ← removeCluster (Cluster.id cluster); mret tt else mret tt);
    throw "Cluster registration failed: Unable to contact cluster with kubectl"
  else
  let serviceAccounts := string_split_columns (output clusterInfo) " " false in
  if bool_decide (serviceAccounts = [])
  then drop_and_fail cluster "Found no ServiceAccounts in the default namespace" else
  if negb (bool_decide (Cluster.systemNamespace cluster ∈ serviceAccounts))
  then throw "Cluster registration failed: Unable to find matching service account in default namespace"
  else
  namespaceCheck ← kubectl configPath
    ["describe"; "serviceaccount"; Cluster.systemNamespace cluster];
  if negb (status namespaceCheck =? 0)%Z
  then drop_and_fail cluster "Checking default namespace name failed" else
  let '(okay, badline) := check_namespace (Cluster.systemNamespace cluster)
                            (string_split_lines (output namespaceCheck)) false "" in
  if negb okay
  then drop_and_fail cluster
         ("Default namespace does not appear to match default ServiceAccount: " +:+ badline
          +:+ ", ServiceAccount: " +:+ Cluster.systemNamespace cluster)
  else mret tt.

Definition ensureClusterSetup cluster (autodelete : bool) : Store string :=
  configPath ← configPathForCluster (Cluster.id cluster);
  _ ← check_accounts configPath cluster autodelete;
  _ ← StoreClusters.updateCluster cluster;
  helmMajorVersion ← getHelmMajorVersion;
  resultMessage ← (if (helmMajorVersion =? 2)%Z then setup_tiller configPath cluster else mret "");
  dnsMessage ← setClusterDNSRecord cluster;
  mret (resultMessage +:+ dnsMessage).

(** * Registering a cluster *)

(** What the body of the request says, checked one after the other; the namespace is read
    without a check. *)
Record cluster_body := mkClusterBody {
  cb_name : string; cb_group : string; cb_organization : string; cb_caData : string;
  cb_token : string; cb_address : string; cb_namespace : string }.

Definition cluster_body_of (req : Request) : Checked cluster_body :=
  metadata ←? metadata_of req "Missing user metadata in request" "Incorrect type for metadata";
  name ←? required_string metadata "name" "Missing cluster name in request"
            "Incorrect type for cluster name";
  group ←? required_string metadata "group" "Missing Group ID in request"
             "Incorrect type for Group ID";
  organization ←? required_string metadata "owningOrganization"
                    "Missing organization name in request" "Incorrect type for organization";
  caData ←? required_string metadata "caData" "Missing caData in request"
              "Incorrect type for caData";
  token ←? required_string metadata "token" "Missing token in request" "Incorrect type for token";
  address ←? required_string metadata "serverAddress" "Missing serverAddress in request"
               "Incorrect type for serverAddress";
  match find_member "namespace" metadata with
  | Some (JString nspace) =>
      inr (mkClusterBody name group organization caData token address (c_str nspace))
  | _ => inl AssertionFailed
  end.

Definition entries (members : list (string * YamlNode)) : YamlNode :=
  YMap ((λ m, (YScalar m.1, m.2)) <$> members).

(** The configuration with which kubectl reaches the cluster; the members are in the order in
    which they are first set. *)
Definition kube_config (caData : string) (body : cluster_body) : YamlNode :=
  let nspace := YScalar (cb_namespace body) in
  let token := YScalar (cb_token body) in
  entries
    [("apiVersion", YScalar "v1"); ("current-context", nspace); ("kind", YScalar "Config");
     ("preferences", YMap []);
     ("clusters", YSequence [entries
        [("cluster", entries [("certificate-authority-data", YScalar caData);
                              ("server", YScalar (cb_address body))]);
         ("name", nspace)]]);
     ("contexts", YSequence [entries
        [("context", entries [("namespace", nspace); ("user", nspace); ("cluster", nspace)]);
         ("name", nspace); ("user", token)]]);
     ("users", YSequence [entries [("name", nspace); ("user", entries [("token", token)])]])].

Definition new_cluster (newID group config : string) (body : cluster_body) : Cluster.t :=
  Cluster.mk true newID (cb_name body) config (cb_namespace body) group (cb_organization body)
    S3Credential.none.

(** The owning group is given by ID or by name. *)
Definition owning_group (name : string) : Store (option string) :=
  if begins_with name groupIDPrefix then mret (Some name) else
  group ← findGroupByName name;
  mret (if Group.valid group then Some (Group.id group) else None).

Definition check_cluster_name (name : string) : Checked unit :=
  if negb (validDnsToken name)
  then inl (failure 400 "Cluster names may only contain [a-zA-Z0-9-]")
  else if begins_with name clusterIDPrefix
  then inl (failure 400 ("Cluster names may not begin with " +:+ clusterIDPrefix))
  else inr tt.

(** The record is added first, and removed again when the cluster is not as it should be. *)
Definition register_cluster cluster : Store Response :=
  created ← addCluster cluster;
  if negb created then mret (failure 500 "Cluster registration failed") else
  r ← try_catch (message ← ensureClusterSetup cluster true; mret (inr message))
        (λ err, mret (inl err));
  match r with
  | inl err => mret (failure 500 err)
  | inr resultMessage =>
      mret (reply [apiVersion; ("kind", JString "Cluster");
        ("metadata", JObject [("id", StringRef (Cluster.id cluster));
                              ("name", StringRef (Cluster.name cluster))]);
        ("message", JString resultMessage)])
  end.

Definition createCluster (newID : string) (req : Request) : Store Response :=
  user ← authenticateUser (param req "token");
  if negb (User.valid user) then mret (failure 403 "User not authorized") else
  checked (cluster_body_of req) (λ body,
    caData ← stops (unquoteString (cb_caData body));
    let config := Emit [kube_config caData body] in
    if str_empty (cb_namespace body)
    then mret (failure 400 "Unable to determine kubernetes namespace from kubeconfig") else
    group ← owning_group (cb_group body);
    match group with
    | None => mret (failure 403 "User not authorized")
    | Some group =>
        member ← userInGroup (User.id user) group;
        if negb member then mret (failure 403 "User not authorized") else
        checked (check_cluster_name (cb_name body)) (λ _,
          taken ← findClusterByName (cb_name body);
          if Cluster.valid taken then mret (failure 400 "Cluster name is already in use") else
          register_cluster (new_cluster newID group config body))
    end).

(** * Updating a cluster *)

Record cluster_update := mkClusterUpdate {
  cu_config : option string; cu_organization : option string;
  cu_locations : option (list Json) }.

Definition cluster_update_of (req : Request) : Checked cluster_update :=
  metadata ←? metadata_of req "Missing cluster metadata in request" "Incorrect type for metadata";
  config ←? optional metadata "kubeconfig" (as_string "Incorrect type for kubeconfig");
  organization ←? optional metadata "owningOrganization"
                    (as_string "Incorrect type for owningOrganization");
  locations ←? optional metadata "location" (λ v,
                 match v with
                 | JArray l => inr l
                 | _ => inl (failure 400 "Incorrect type for location")
                 end);
  inr (mkClusterUpdate config organization locations).

Definition updated_cluster (update : cluster_update) cluster : Cluster.t :=
  Cluster.mk (Cluster.valid cluster) (Cluster.id cluster) (Cluster.name cluster)
    (default (Cluster.config cluster) (cu_config update)) (Cluster.systemNamespace cluster)
    (Cluster.owningGroup cluster)
    (default (Cluster.owningOrganization cluster) (cu_organization update))
    (Cluster.monitoringCredential cluster).

(** The coordinates of an entry. *)
Definition location_of (entry : Json) : Checked GeoLocation.t :=
  match entry with
  | JObject members =>
      match find_member "lat" members, find_member "lon" members with
      | Some (JNumber lat), Some (JNumber lon) =>
          inr (GeoLocation.mk _ (GetDouble lat) (GetDouble lon) "")
      | _, _ => inl (failure 400 "Incorrect type for location")
      end
  | _ => inl (failure 400 "Incorrect type for location")
  end.

(** Each location is looked up before the next one is checked. *)
Fixpoint locations_of (entries : list Json) : Store (Checked (list GeoLocation.t)) :=
  match entries with
  | [] => mret (inr [])
  | entry :: entries =>
      match location_of entry with
      | inl r => mret (inl r)
      | inr location =>
          location ← supplementLocation geocoder location;
          rest ← locations_of entries;
          mret (locations ←? rest; inr (location :: locations))
      end
  end.

Definition is_some {A} (o : option A) : bool := match o with Some _ => true | None => false end.

Definition apply_update cluster (update : cluster_update) (locations : list GeoLocation.t) :
    Store Response :=
  let updateMainRecord := is_some (cu_config update) || is_some (cu_organization update) in
  let updateLocation := is_some (cu_locations update) in
  let cluster := updated_cluster update cluster in
  _ ← setClusterDNSRecord cluster;
  if negb updateMainRecord && negb updateLocation then mret done_reply else
  main ← (if updateMainRecord then StoreClusters.updateCluster cluster else mret true);
  place ← (if updateLocation then setLocationsForCluster (Cluster.id cluster) locations
           else mret true);
  if negb (main && place) then mret (failure 500 "Cluster update failed") else
  if is_some (cu_config update) then
    r ← try_catch (_ ← ensureClusterSetup cluster false; mret None) (λ err, mret (Some err));
    mret (match r with Some err => failure 500 err | None => done_reply end)
  else mret done_reply.

Definition updateCluster (clusterID : string) (req : Request) : Store Response :=
  with_cluster clusterID req (λ user cluster,
    allowed ← (if User.admin user then mret true
               else userInGroup (User.id user) (Cluster.owningGroup cluster));
    if negb allowed then mret (failure 403 "User not authorized") else
    checked (cluster_update_of req) (λ update,
      locations ← match cu_locations update with
                  | Some entries => locations_of entries
                  | None => mret (inr [])
                  end;
      checked locations (apply_update cluster update))).

(** * Deleting a cluster *)

(** The first message of a list of results that is not empty; what a task has thrown is thrown
    again. *)
Fixpoint first_failure (force : bool) (results : list (Res string)) : Store (option string) :=
  match results with
  | [] => mret None
  | r :: results =>
      result ← lift r;
      if negb force && negb (str_empty result) then mret (Some result)
      else first_failure force results
  end.

(** The instances on the cluster, one after the other. *)
Fixpoint delete_instances (cID : string) (force : bool) (l : list ApplicationInstance.t) :
    Store (option string) :=
  match l with
  | [] => mret None
  | instance :: l =>
      if bool_decide (ApplicationInstance.cluster instance = cID) then
        result ← delete_instance instance force;
        if negb force && negb (str_empty result) then mret (Some result)
        else delete_instances cID force l
      else delete_instances cID force l
  end.

Definition delete_namespaces (fuel : nat) (configPath : string) : Store unit :=
  vos ← StoreGroups.listGroups fuel;
  for_each vos (λ group, try_catch (kubectl_delete_namespace configPath group) (λ _, mret tt)).

(** The record of the cluster, which has an address of one of two kinds. *)
Definition find_record (name : string) : Store (list string) :=
  let look_up type := try_catch (on_net (getDNSRecord dnsClient type name)) (λ _, mret []) in
  record ← look_up RRType.A;
  if bool_decide (record = []) then look_up RRType.AAAA else mret record.

Definition delete_dns cluster : Store unit :=
  let dnsName := "*." +:+ dnsNameForCluster cluster in
  if canUpdateDNS dnsClient then
    record ← find_record dnsName;
    match record with
    | [] => mret tt
    | address :: _ =>
        _ ← try_catch (on_net (removeDNSRecord dnsClient dnsName address)) (λ _, mret false);
        mret tt
    end
  else mret tt.

(** All deletions of secrets and of volumes are started before the first result is looked at. *)
Definition delete_contents cluster (force reachable : bool) : Store (option string) :=
  secrets ← StoreSecrets.listSecrets "" (Cluster.id cluster);
  secretDeletions ← for_collect secrets (λ secret, async (delete_secret secret true reachable));
  volumes ← listPersistentVolumeClaimsByClusterOrGroup "" (Cluster.id cluster);
  volumeDeletions ← for_collect volumes (λ volume, async (delete_volume volume true reachable));
  volume ← first_failure force volumeDeletions;
  match volume with
  | Some result => mret (Some ("Failed to delete cluster due to failure deleting volume: " +:+ result))
  | None =>
      secret ← first_failure force secretDeletions;
      mret ((λ result, "Failed to delete cluster due to failure deleting secret: " +:+ result) <$> secret)
  end.

(** What is left when nothing is on the cluster any more. *)
Definition delete_record cluster : Store string :=
  _ ← delete_dns cluster;
  credRemoval ← detach_credential cluster;
  if negb (str_empty credRemoval) then mret ("Cluster deletion failed: " +:+ credRemoval) else
  removed ← removeCluster (Cluster.id cluster);
  mret (if negb removed then "Cluster deletion failed" else "").

(** [internal::deleteCluster] *)
Definition delete_cluster (fuel : nat) cluster (force : bool) : Store string :=
  configPath ← configPathForCluster (Cluster.id cluster);
  instances ← StoreInstances.listApplicationInstances fuel;
  failed ← delete_instances (Cluster.id cluster) force instances;
  match failed with
  | Some result => mret ("Failed to delete cluster due to failure deleting instance: " +:+ result)
  | None =>
      reachable ← look cluster;
      if negb reachable && negb force then mret "Must force delete an unreachable cluster" else
      failed ← delete_contents cluster force reachable;
      match failed with
      | Some message => mret message
      | None =>
          _ ← (if reachable : bool then delete_namespaces fuel configPath else mret tt);
          delete_record cluster
      end
  end.

Definition deletion_notice cluster (contacts : list string) : Email :=
  mkEmail "noreply@slate.io" contacts [] [] "SLATE: Cluster Deleted"
    ("A cluster your organization has access to (" +:+ Cluster.name cluster
     +:+ ") has been deleted by the cluster administrator.").

Definition deleteCluster (fuel : nat) (clusterID : string) (req : Request) : Store Response :=
  with_cluster clusterID req (λ user cluster,
    let force := is_some (param req "force") in
    member ← userInGroup (User.id user) (Cluster.owningGroup cluster);
    if negb member && (negb force || negb (User.admin user))
    then mret (failure 403 "User not authorized") else
    vos ← listGroupsAllowedOnCluster clusterID false;
    reachable ← look cluster;
    if negb reachable && negb force
    then mret (failure 500 "Cluster not reachable, please use force option when deleting") else
    err ← delete_cluster fuel cluster force;
    if negb (str_empty err) then mret (failure 500 err) else
    contacts ← for_collect vos (λ groupId, group ← getGroup groupId; mret (Group.email group));
    _ ← lift (sendEmail (deletion_notice cluster contacts));
    mret done_reply).

(** * Deleting a group *)

(** A task whose result nobody asks for. *)
Definition forgotten {A} (m : Store A) : Store unit := _ ← async m; mret tt.

(** The group goes first; then its instances, its secrets and its namespaces, and at the end
    its clusters. *)
Definition delete_belongings (fuel : nat) (targetGroup : Group.t) : Store unit :=
  instances ← listApplicationInstancesByClusterOrGroup (Group.id targetGroup) "";
  _ ← for_each instances (λ instance, forgotten (delete_instance instance true));
  secrets ← StoreSecrets.listSecrets (Group.id targetGroup) "";
  _ ← for_each secrets (λ secret, forgotten (delete_secret secret true true));
  clusters ← StoreClusters.listClusters fuel;
  _ ← for_each clusters (λ cluster, forgotten (try_catch
         (configPath ← configPathForCluster (Cluster.id cluster);
          kubectl_delete_namespace configPath targetGroup) (λ _, mret tt)));
  for_each (filter (λ cluster, Cluster.owningGroup cluster = Group.id targetGroup) clusters)
    (λ cluster, forgotten (delete_cluster fuel cluster true)).

Definition deleteGroup (fuel : nat) (groupID : string) (req : Request) : Store Response :=
  user ← authenticateUser (param req "token");
  if negb (User.valid user) then mret (failure 403 "User not authorized") else
  targetGroup ← getGroup groupID;
  if negb (Group.valid targetGroup) then mret (failure 404 "Group not found") else
  allowed ← (if User.admin user then mret true else userInGroup (User.id user) groupID);
  if negb allowed then mret (failure 403 "User not authorized") else
  deleted ← removeGroup (Group.id targetGroup);
  if negb deleted then mret (failure 500 "Group deletion failed") else
  _ ← delete_belongings fuel targetGroup;
  mret done_reply.
End handlers.
