(* ===== verification/Server.v ===== *)
(** The requests about users and groups as one interface: which handler a path leads to
    (src/slate_service.cpp), what every such request does to the directory, and what the
    actions it is made of leave alone. *)

From S2P Require Import Prelude Entities Cache Dynamo Store Demo Listing StoreGroups.
From S2P Require Import StoreUsers StoreMembership Directory Http UserCommands GroupCommands.

Inductive Method := GET | POST | PUT | DELETE.

(** A request with the handler it is for and its arguments; the new IDs and tokens are
    those [idGenerator] draws. *)
Inductive Command :=
  | ListUsers | CreateUser (newID newToken : string) | GetUserInfo (uID : string)
  | UpdateUser (uID : string) | DeleteUser (uID : string) | ListUsergroups (uID : string)
  | AddUserToGroup (uID groupID : string) | RemoveUserFromGroup (uID groupID : string)
  | ReplaceUserToken (newToken uID : string) | FindUser | WhoAreThey
  | ListGroups | CreateGroup (newID : string) | GetGroupInfo (groupID : string)
  | UpdateGroup (groupID : string) | ListGroupMembers (groupID : string).

(** The routes under [/v1alpha3], by the segments of the path; for the other paths, see
    the list of what is not modelled. *)
Definition route (newID newToken : string) (m : Method) (path : list string) : option Command :=
  match path, m with
  | ["users"], GET => Some ListUsers
  | ["users"], POST => Some (CreateUser newID newToken)
  | ["users"; uID], GET => Some (GetUserInfo uID)
  | ["users"; uID], PUT => Some (UpdateUser uID)
  | ["users"; uID], DELETE => Some (DeleteUser uID)
  | ["users"; uID; "groups"], GET => Some (ListUsergroups uID)
  | ["users"; uID; "groups"; groupID], PUT => Some (AddUserToGroup uID groupID)
  | ["users"; uID; "groups"; groupID], DELETE => Some (RemoveUserFromGroup uID groupID)
  | ["users"; uID; "replace_token"], GET => Some (ReplaceUserToken newToken uID)
  | ["find_user"], GET => Some FindUser
  | ["whoami"], GET => Some WhoAreThey
  | ["groups"], GET => Some ListGroups
  | ["groups"], POST => Some (CreateGroup newID)
  | ["groups"; groupID], GET => Some (GetGroupInfo groupID)
  | ["groups"; groupID], PUT => Some (UpdateGroup groupID)
  | ["groups"; groupID; "members"], GET => Some (ListGroupMembers groupID)
  | _, _ => None
  end.

Section server.
Context `{D : Dynamo} `{P : Platform} `{J : !JsonParser} `{E : !Mailer}.

(** [fuel] bounds the pages of the scans of the two listings. *)
Definition handle (fuel : nat) (c : Command) (req : Request) : Store Response :=
  match c with
  | ListUsers => UserCommands.listUsers fuel req
  | CreateUser newID newToken => createUser newID newToken req
  | GetUserInfo uID => getUserInfo uID req
  | UpdateUser uID => UserCommands.updateUser uID req
  | DeleteUser uID => deleteUser uID req
  | ListUsergroups uID => listUsergroups uID req
  | AddUserToGroup uID groupID => UserCommands.addUserToGroup uID groupID req
  | RemoveUserFromGroup uID groupID => UserCommands.removeUserFromGroup uID groupID req
  | ReplaceUserToken newToken uID => replaceUserToken newToken uID req
  | FindUser => findUser req
  | WhoAreThey => whoAreThey req
  | ListGroups => GroupCommands.listGroups fuel req
  | CreateGroup newID => createGroup newID req
  | GetGroupInfo groupID => getGroupInfo groupID req
  | UpdateGroup groupID => GroupCommands.updateGroup groupID req
  | ListGroupMembers groupID => listGroupMembers groupID req
  end.

Context `{L : !DynamoLaws}.

(** What a request relies on: new IDs and tokens are new, and the service is available
    when a name or a Globus ID must not be in use. *)
Definition acceptable (w : World) (c : Command) : Prop :=
  match c with
  | CreateUser newID newToken => healthy (db w) ∧ fresh_user w newID newToken
  | ReplaceUserToken newToken _ => ∀ u, is_user w u → User.token u ≠ newToken
  | CreateGroup newID => healthy (db w) ∧ fresh_group w newID
  | _ => True
  end.

Definition token_of (req : Request) : option string := param req "token".

Lemma handle_served fuel c req w :
  ServerInv w → acceptable w c → wp (handle fuel c req) (served (token_of req) w) w.
Proof.
  intros Hi Ha. destruct c; simpl in *.
  - apply looks_up_served; [apply listUsers_looks_up|done].
  - destruct Ha. by apply createUser_served.
  - apply looks_up_served; [apply getUserInfo_looks_up|done].
  - by apply updateUser_served.
  - by apply deleteUser_served.
  - apply looks_up_served; [apply listUsergroups_looks_up|done].
  - by apply addUserToGroup_served.
  - by apply removeUserFromGroup_served.
  - by apply replaceUserToken_served.
  - apply looks_up_served; [apply findUser_looks_up|done].
  - apply looks_up_served; [apply whoAreThey_looks_up|done].
  - apply looks_up_served; [apply listGroups_looks_up|done].
  - destruct Ha. by apply createGroup_served.
  - apply looks_up_served; [apply getGroupInfo_looks_up|done].
  - by apply updateGroup_served.
  - by apply listGroupMembers_served.
Qed.

(** ** Requests of nobody *)

Lemma wp_nobody token (k : User.t → Store Response) w :
  ServerInv w → healthy (db w) → (∀ u, ¬ requester w token u) →
  (∀ u, User.valid u = false → ∃ msg, k u = mret (failure 403 msg)) →
  wp (authenticateUser token ≫= k)
    (λ r w', (∃ msg, r = Ok (failure 403 msg)) ∧ ServerInv w' ∧ read_only w w') w.
Proof.
  intros Hi Hd Hn Hk. eapply wp_seq; [by apply authenticateUser_found| | |].
  2: { by intros e w' (_ & _ & u & [=] & _). }
  2: { by intros w' (_ & _ & u & [=] & _). }
  intros u w' (Hi' & Hro & u' & [= <-] & Hv & _).
  destruct (User.valid u) eqn:Hu; [by destruct (Hn u); apply Hv|].
  destruct (Hk u Hu) as [msg ->]. apply wp_ret. eauto.
Qed.

Lemma handle_nobody fuel c req w :
  ServerInv w → healthy (db w) → (∀ u, ¬ requester w (token_of req) u) →
  wp (handle fuel c req)
    (λ r w', (∃ msg, r = Ok (failure 403 msg)) ∧ ServerInv w' ∧ read_only w w') w.
Proof.
  intros Hi Hd Hn. destruct c; simpl; apply wp_nobody; try done;
    intros u ->; simpl; by eexists.
Qed.
End server.

(** * What actions leave alone *)

Definition no_new_admins (u : User.t) (d d' : Directory) : Prop :=
  User.admin u = false → ∀ x, dir_users d' x → User.admin x = true →
  ∃ y, dir_users d y ∧ User.id y = User.id x ∧ User.admin y = true.

#[global] Instance no_new_admins_trans u : Transitive (no_new_admins u).
Proof.
  intros d1 d2 d3 H12 H23 Hu x Hx Ha. destruct (H23 Hu x Hx Ha) as (y & Hy & <- & Hay).
  destruct (H12 Hu y Hy Hay) as (z & Hz & <- & Haz). eauto.
Qed.

Lemma no_new_admins_put u d d' old new :
  dir_users d old → User.id new = User.id old → User.admin new = User.admin old →
  put User.id new (dir_users d) (dir_users d') → no_new_admins u d d'.
Proof.
  intros Ho Hid Ha Hp _ x [->|[Hx _]]%Hp Hax; [|by exists x].
  exists old. split_and!; [done|done|congruence].
Qed.

Lemma no_new_admins_same u d d' : same (dir_users d) (dir_users d') → no_new_admins u d d'.
Proof. intros Hs _ x Hx Ha. exists x. split; [by apply Hs|done]. Qed.

Lemma action_no_new_admins u d d' : action u d d' → no_new_admins u d d'.
Proof.
  destruct 1 as [x Hadm|old new _ Ho Hid _ _ Hadm Hp|old new _ Ho Hid _ Hadm Hp|uID _ Hp
    |uID gID _ _ _ Hs|uID gID _ Hs|g _ _ Hs|old new _ _ _ _ Hs];
    try by apply no_new_admins_same.
  - intros Hu. congruence.
  - destruct Hadm as [Hadm|Hadm]; [by eapply no_new_admins_put|intros Hu; congruence].
  - by eapply no_new_admins_put.
  - intros _ x [Hx _]%Hp Ha. by exists x.
Qed.

Lemma actions_no_new_admins u d d' : actions u d d' → no_new_admins u d d'.
Proof.
  apply actions_ind_preorder; [apply _| |apply action_no_new_admins].
  intros d1 d2 Hs. apply no_new_admins_same, Hs.
Qed.

(** The accounts a user does not manage. *)
Definition accounts_kept (u : User.t) (d d' : Directory) : Prop :=
  ∀ x, dir_users d x → ¬ may_manage u (User.id x) → dir_users d' x.

#[global] Instance accounts_kept_trans u : Transitive (accounts_kept u).
Proof. intros d1 d2 d3 H12 H23 x Hx Hm. by apply H23, Hm; apply H12. Qed.

Lemma action_accounts_kept u d d' : action u d d' → accounts_kept u d d'.
Proof.
  destruct 1 as [x Hadm Hnew Hp|old new Hm Ho Hid _ _ _ Hp|old new Hm Ho Hid _ _ Hp|uID Hm Hp
    |uID gID _ _ _ Hs|uID gID _ Hs|g _ _ Hs|old new _ _ _ _ Hs]; intros y Hy Hmy;
    try by apply Hs.
  - apply Hp. right. split; [done|]. by apply Hnew.
  - apply Hp. right. split; [done|]. rewrite Hid. intros Heq. apply Hmy. by rewrite Heq.
  - apply Hp. right. split; [done|]. rewrite Hid. intros Heq. apply Hmy. by rewrite Heq.
  - apply Hp. split; [done|]. by intros <-.
Qed.

Lemma actions_accounts_kept u d d' : actions u d d' → accounts_kept u d d'.
Proof.
  apply actions_ind_preorder; [apply _| |apply action_accounts_kept].
  intros d1 d2 Hs x Hx _. by apply Hs.
Qed.

(** A group whose members do not include the user. *)
Definition group_same (gid : string) (d d' : Directory) : Prop :=
  (∀ g, Group.id g = gid → dir_groups d' g ↔ dir_groups d g) ∧
  ∀ x, dir_members d' x gid ↔ dir_members d x gid.

Definition group_kept (u : User.t) (gid : string) (d d' : Directory) : Prop :=
  (∃ g, dir_groups d g ∧ Group.id g = gid) → ¬ may_steer d u gid → group_same gid d d'.

#[global] Instance group_kept_trans u gid : Transitive (group_kept u gid).
Proof.
  intros d1 d2 d3 H12 H23 (g & Hg & Hid) Hm.
  destruct (H12 ltac:(eauto) Hm) as [Hg12 Hm12]. destruct H23 as [Hg23 Hm23].
  - exists g. split; [by apply Hg12|done].
  - intros [?|Hmem]; apply Hm; [by left|right]. by apply Hm12.
  - split.
    + intros h Hh. etrans; [by apply Hg23|by apply Hg12].
    + intros x. etrans; [apply Hm23|apply Hm12].
Qed.

Lemma group_same_members gid d d' :
  same (dir_groups d) (dir_groups d') → (∀ x, dir_members d' x gid ↔ dir_members d x gid) →
  group_same gid d d'.
Proof. intros Hs Hm. split; [intros g _; apply Hs|done]. Qed.

Lemma group_same_set gid d d' uID gID b :
  same (dir_groups d) (dir_groups d') →
  member_set uID gID b (dir_members d) (dir_members d') → gid ≠ gID → group_same gid d d'.
Proof.
  intros Hs Hm Hne. apply group_same_members; [done|]. intros x. etrans; [apply Hm|].
  by rewrite decide_False by (intros [_ ?]; done).
Qed.

Lemma group_same_put gid d d' g :
  put Group.id g (dir_groups d) (dir_groups d') → gid ≠ Group.id g →
  (∀ x, dir_members d' x gid ↔ dir_members d x gid) → group_same gid d d'.
Proof.
  intros Hp Hne Hm. split; [|done]. intros h Hid. etrans; [apply Hp|]. split.
  - intros [->|[Hh _]]; done.
  - intros Hh. right. split; [done|congruence].
Qed.

Lemma action_group_kept u gid d d' : action u d d' → group_kept u gid d d'.
Proof.
  destruct 1 as [x _ _ _ Hs Hm|old new _ _ _ _ _ _ _ Hs Hm|old new _ _ _ _ _ _ Hs Hm
    |uID _ _ Hs Hm|uID gID _ _ Hst _ Hs Hm|uID gID Hst _ Hs Hm|g Hnew _ _ Hp Hm
    |old new Hst _ Hid _ _ Hp Hm]; intros (h & Hh & Hhid) Hn;
    try (apply group_same_members; [done|intros; apply Hm]).
  - eapply group_same_set; [done..|]. by intros ->.
  - destruct (decide (gid = gID)) as [->|Hne]; [|by eapply group_same_set].
    destruct Hst as [Hst| ->]; [done|]. apply group_same_members; [done|]. intros x.
    etrans; [apply Hm|]. case_decide as Hx; [|done]. destruct Hx as [-> _].
    split; [done|]. intros Hmem. destruct Hn. by right.
  - assert (Hne : gid ≠ Group.id g) by (destruct (Hnew h Hh); congruence).
    eapply group_same_put; [done|done|]. intros x. destruct Hm as [Hm|Hm]; [apply Hm|].
    etrans; [apply Hm|]. by rewrite decide_False by (intros [_ ?]; done).
  - eapply group_same_put; [done| |intros; apply Hm]. rewrite Hid. by intros ->.
Qed.

Lemma actions_group_kept u gid d d' : actions u d d' → group_kept u gid d d'.
Proof.
  apply actions_ind_preorder; [apply _| |apply action_group_kept].
  intros d1 d2 (_ & Hg & Hm) _ _. split; [intros g _; apply Hg|intros x; apply Hm].
Qed.

Section server_witnesses.
Import Demo.

(** A parser that knows two bodies, and no configured email. *)
#[local] Instance demo_parser : JsonParser := λ s,
  if bool_decide (s = "{metadata:{admin:true}}")
  then JObject [("metadata", JObject [("admin", JBool true)])]
  else if bool_decide (s = "{metadata:{phone:556}}")
  then JObject [("metadata", JObject [("phone", JString "556")])]
  else if bool_decide (s = "{metadata:{name:bio-1,scienceField:biology}}")
  then JObject [("metadata", JObject [("name", JString "bio-1");
                                      ("scienceField", JString "biology")])]
  else if bool_decide (s = "[]") then JArray [] else JNull.
#[local] Instance demo_mailer : Mailer := {|
  mailgunEndpoint := ""; mailgunKey := ""; emailDomain := ""; opsEmail := "";
  httpPostForm _ _ := Throw "no connection" |}.

(** The user [user_1] is a member of [group_1]; [user_2] is in no group. *)
Definition demo_outsider : User.t :=
  User.mk true "user_2" "Eve" "e@b.c" "777" "Lab" "token_2" "globus_2" false.
Definition demo_server : World := (addUser demo_outsider demo_directory).2.

Definition demo_request (token body : string) : Request :=
  mkRequest {["token" := token]} body.

(** The server with the group alone. *)
Lemma demo_group_facts (w1 := (addGroup demo_group empty).2) :
  ServerInv w1 ∧ (∀ u, ¬ is_user w1 u) ∧ (∀ g, is_group w1 g ↔ g = demo_group) ∧
  ∀ u g, ¬ is_member w1 u g.
Proof.
  destruct (addGroup_spec demo_group empty) as (Hgi & _ & Ht & _);
    [by apply GroupsInv_empty|done|apply demo_compatible|].
  destruct demo_added as [_ Hg]. fold w1 in Hgi, Ht, Hg.
  assert (Htu : table w1 SLATE_users = ∅) by by apply Ht.
  assert (Hus : users w1 = users empty) by apply addGroup_users.
  split; [split; [split|]|split_and!].
  - exact Hgi.
  - apply users_inv_empty; [done|by rewrite Hus..].
  - intros g u Hc. unfold member_cached in Hc. by rewrite Hus in Hc.
  - intros g ->%Hg. split; [done|]. split; [done|]. by apply str_back_ne.
  - intros u (it & Hit & _). by rewrite Htu, lookup_empty in Hit.
  - exact Hg.
  - intros u g [it Hit]. by rewrite Htu, lookup_empty in Hit.
Qed.

Lemma demo_server_facts :
  ServerInv demo_server ∧
  (∀ u, is_user demo_server u ↔ u = demo_outsider ∨ u = demo_user) ∧
  (∀ g, is_group demo_server g ↔ g = demo_group) ∧
  ∀ u g, is_member demo_server u g ↔ u = "user_1" ∧ g = "group_1".
Proof.
  destruct demo_group_facts as (Hi1 & Hu1 & Hg1 & Hm1).
  set (w1 := (addGroup demo_group empty).2) in *.
  assert (Hnew0 : new_user (table w1 SLATE_users) demo_user).
  { split; [split_and!; try done|]; intros u' Hu'; by destruct (Hu1 u'). }
  destruct (addUser_changed _ _ Hi1 Hnew0) as (Hi0 & _ & Hg0 & Hm0 & b0 & Hb0 & Hput0).
  assert (Hrun0 : (addUser demo_user w1).1 = Ok true) by (vm_compute; reflexivity).
  rewrite Hrun0 in Hb0. injection Hb0 as <-.
  destruct (addUserToGroup_changed "user_1" "group_1" demo_directory0 Hi0)
    as (Hi & _ & Hu & Hg & b & Hb & Hput).
  assert (Hrun : (StoreMembership.addUserToGroup "user_1" "group_1" demo_directory0).1 = Ok true)
    by (vm_compute; reflexivity).
  rewrite Hrun in Hb. injection Hb as <-. destruct Hput as (gid & Hn & Hput).
  change (gid = "group_1") in Hn. subst gid.
  assert (Hus : ∀ u, is_user demo_directory u ↔ u = demo_user).
  { intros u. etrans; [apply Hu|]. etrans; [apply Hput0|]. split; [|by left].
    intros [?|[Hx _]]; [done|by destruct (Hu1 u)]. }
  assert (Hnew : new_user (table demo_directory SLATE_users) demo_outsider).
  { split; [split_and!; try done|]; by intros u' ->%Hus. }
  destruct (addUser_changed demo_outsider demo_directory Hi Hnew) as (Hi' & _ & Hg' & Hm' & b' & Hb' & Hput').
  assert (Hrun' : (addUser demo_outsider demo_directory).1 = Ok true)
    by (vm_compute; reflexivity).
  rewrite Hrun' in Hb'. injection Hb' as <-. split; [done|]. split; [|split].
  - intros u. etrans; [apply Hput'|]. rewrite Hus. split; [intros [?|[? _]]; auto|].
    intros [->| ->]; [by left|by right].
  - intros g. etrans; [apply Hg'|]. etrans; [apply Hg|]. etrans; [apply Hg0|]. apply Hg1.
  - intros u g. etrans; [apply Hm'|]. etrans; [apply Hput|]. case_decide; [done|].
    split; [|done]. intros Hm%Hm0. by destruct (Hm1 u g).
Qed.

Lemma demo_server_healthy : healthy (db demo_server).
Proof. done. Qed.

Lemma demo_outsider_requests body u :
  requester demo_server (token_of (demo_request "token_2" body)) u → u = demo_outsider.
Proof.
  intros [Hu Htk]. apply demo_server_facts in Hu as [->| ->]; [done|].
  by injection Htk.
Qed.

Lemma demo_outsider_not_member : ¬ is_member demo_server "user_2" "group_1".
Proof. by intros [[=] _]%demo_server_facts. Qed.

Lemma demo_member_requests body :
  requester demo_server (param (demo_request "token_1" body) "token") demo_user.
Proof. split; [|done]. apply (proj1 (proj2 demo_server_facts)). by right. Qed.


(** A body with an array. *)
Lemma malformed_bodies_witness :
  (UserCommands.updateUser "user_1" (demo_request "token_1" "[]") demo_server).1
    = Ok AssertionFailed.
Proof.
  exact (malformed_bodies (demo_request "token_1" "[]") demo_user demo_server
    (proj1 demo_server_facts) demo_server_healthy (demo_member_requests "[]")).
Defined.

Lemma deleted_user_witness :
  (deleteUser "user_1" (demo_request "token_1" "") demo_server).1 = Ok done_reply ∧
  ¬ is_member (deleteUser "user_1" (demo_request "token_1" "") demo_server).2 "user_1" "group_1".
Proof.
  destruct (deleted_user_is_gone (demo_request "token_1" "") demo_user demo_user demo_server
    (proj1 demo_server_facts) demo_server_healthy (demo_member_requests "")
    (proj1 (demo_member_requests "")) (or_intror eq_refl)) as (Hr & _ & _ & _ & Hm).
  split; [exact Hr|]. intros Hin. exact (proj2 (proj1 (Hm _ _) Hin) (conj eq_refl eq_refl)).
Defined.

End server_witnesses.
