(* ===== verification/Service.v ===== *)
(** All requests about users, groups, access to clusters and monitoring credentials as one
    function of the command, what they do to the federation, and what follows for sequences of
    requests by users with and without authority. *)

From S2P Require Import Prelude Entities Cache Dynamo Store Demo Listing StoreGroups.
From S2P Require Import StoreUsers StoreMembership StoreClusters StoreAccess StoreMonCreds.
From S2P Require Import Directory Federation Http UserCommands GroupCommands.
From S2P Require Import ClusterCommands CredentialCommands Server.

(** * The commands of the directory spare the clusters *)

Section spares.
Context `{D : Dynamo} `{P : Platform} `{L : !DynamoLaws} `{J : !JsonParser} `{E : !Mailer}.

(** What belongs to the clusters and the credentials. *)
Definition resources (w : World) :=
  (clusters w, fs w, table w SLATE_clusters, table w SLATE_moncreds).

Lemma resources_equal_kept w w' : resources w' = resources w → resources_kept w w'.
Proof. intros Hr. by injection Hr as ? ? ? ?. Qed.

Lemma resources_frame_kept {A} (m : Store A) w : frame resources m → resources_kept w (m w).2.
Proof. intros Hf. apply resources_equal_kept, Hf. Qed.

Lemma frame_resources_request {A} (g : DB → outcome A * DB) :
  frame (λ w, table w SLATE_clusters) (request g) →
  frame (λ w, table w SLATE_moncreds) (request g) → frame resources (request g).
Proof.
  intros H1 H2 w. unfold resources. rewrite (H1 w), (H2 w). simpl.
  by destruct (g (db w)).
Qed.

Local Hint Extern 1 (frame resources (request _)) =>
  apply frame_resources_request; auto with slate : slate.

Lemma frame_resources_scan {A} fuel t e start acc (body : Item → Store A) :
  (∀ it, frame resources (body it)) → frame resources (scan_loop fuel t e start acc body).
Proof.
  intros Hb. revert start acc. induction fuel as [|fuel IH]; intros start acc; [done|].
  simpl. apply frame_bind; [auto with slate|]. intros [err|[items next]]; [done|].
  apply frame_bind; [by apply frame_for_collect|]. intros page. case_match; [apply IH|done].
Qed.

Ltac spare := repeat first [progress solve_frame | apply frame_resources_scan].

Lemma spares_findUserByToken t : frame resources (findUserByToken t).
Proof. unfold findUserByToken. spare. Qed.
Local Hint Resolve spares_findUserByToken : slate.
Lemma spares_authenticateUser t : frame resources (authenticateUser t).
Proof. unfold authenticateUser. spare. Qed.
Lemma spares_getUser id : frame resources (getUser id).
Proof. unfold getUser. spare. Qed.
Lemma spares_findUserByGlobusID id : frame resources (findUserByGlobusID id).
Proof. unfold findUserByGlobusID. spare. Qed.
Lemma spares_addUser u : frame resources (addUser u).
Proof. unfold addUser, cache_user. spare. Qed.
Lemma spares_updateUser u u' : frame resources (StoreUsers.updateUser u u').
Proof. unfold StoreUsers.updateUser, cache_user. spare. Qed.
Lemma spares_removeUser u : frame resources (removeUser u).
Proof. unfold removeUser, forget_user. spare. Qed.
Lemma spares_listUsers fuel : frame resources (StoreUsers.listUsers fuel).
Proof. unfold StoreUsers.listUsers, list_all, list_user, cache_user. spare. Qed.
Lemma spares_findGroupByID id : frame resources (findGroupByID id).
Proof. unfold findGroupByID, cache_group. spare. Qed.
Lemma spares_findGroupByName id : frame resources (findGroupByName id).
Proof. unfold findGroupByName, cache_group. spare. Qed.
Local Hint Resolve spares_findGroupByID spares_findGroupByName spares_getUser : slate.
Lemma spares_getGroup id : frame resources (getGroup id).
Proof. unfold getGroup. spare. Qed.
Lemma spares_normalizeGroupID id b : frame resources (normalizeGroupID id b).
Proof. unfold normalizeGroupID. spare. Qed.
Local Hint Resolve spares_normalizeGroupID : slate.
Lemma spares_addGroup g : frame resources (addGroup g).
Proof. unfold addGroup, cache_group. spare. Qed.
Lemma spares_updateGroup g : frame resources (StoreGroups.updateGroup g).
Proof. unfold StoreGroups.updateGroup, cache_group. spare. Qed.
Lemma spares_listGroups fuel : frame resources (StoreGroups.listGroups fuel).
Proof. unfold StoreGroups.listGroups, list_all, list_group, cache_group. spare. Qed.
Lemma spares_listUsersByGroup g : frame resources (listUsersByGroup g).
Proof. unfold listUsersByGroup, cache_member. spare. Qed.
Lemma spares_addUserToGroup u g : frame resources (StoreMembership.addUserToGroup u g).
Proof. unfold StoreMembership.addUserToGroup, cache_member. spare. Qed.
Lemma spares_removeUserFromGroup u g : frame resources (StoreMembership.removeUserFromGroup u g).
Proof. unfold StoreMembership.removeUserFromGroup, forget_membership. spare. Qed.
Lemma spares_getUserGroupMemberships u b : frame resources (getUserGroupMemberships u b).
Proof. unfold getUserGroupMemberships. spare. Qed.
Lemma spares_userInGroup u g : frame resources (userInGroup u g).
Proof. unfold userInGroup, cache_member. spare. Qed.
Lemma spares_getMembersOfGroup g : frame resources (getMembersOfGroup g).
Proof. unfold getMembersOfGroup. spare. Qed.
Lemma spares_listGroupsForUser u : frame resources (listGroupsForUser u).
Proof. unfold listGroupsForUser. spare; cbv zeta; spare. Qed.

Local Hint Resolve spares_authenticateUser spares_findUserByGlobusID spares_addUser
  spares_updateUser spares_removeUser spares_listUsers spares_getGroup spares_addGroup
  spares_updateGroup spares_listGroups spares_listUsersByGroup spares_addUserToGroup
  spares_removeUserFromGroup spares_getUserGroupMemberships spares_userInGroup
  spares_getMembersOfGroup spares_listGroupsForUser : slate.

Lemma frame_checked {W X A} (f : W → X) (c : Checked A) (k : A → M W Response) :
  (∀ a, frame f (k a)) → frame f (checked c k).
Proof. intros Hk. destruct c; [apply frame_ret|apply Hk]. Qed.

Ltac spare' := repeat first [progress spare | apply frame_checked].

Lemma handle_spares fuel c req : frame resources (Server.handle fuel c req).
Proof.
  destruct c; cbn [Server.handle].
  all: unfold UserCommands.listUsers, createUser, getUserInfo, UserCommands.updateUser,
    deleteUser, listUsergroups, UserCommands.addUserToGroup, UserCommands.removeUserFromGroup,
    replaceUserToken, findUser, whoAreThey, GroupCommands.listGroups, createGroup,
    getGroupInfo, GroupCommands.updateGroup, listGroupMembers.
  all: spare'.
Qed.
End spares.

(** * Requests *)

(** A request with the handler it is for and its arguments. *)
Inductive Command :=
  | OnDirectory (c : Server.Command) | ListGroupClusters (groupID : string)
  | ListClusters | ListAllowedGroups (clusterID : string)
  | CheckAccess (clusterID groupID : string) | GrantAccess (clusterID groupID : string)
  | RevokeAccess (clusterID groupID : string)
  | ListAllowedApplications (clusterID groupID : string)
  | AllowApplication (clusterID groupID application : string)
  | DenyApplication (clusterID groupID application : string)
  | GetClusterCredential (clusterID : string) | RemoveClusterCredential (clusterID : string)
  | ListCredentials | AddCredential
  | RevokeCredential (credentialID : string) | DeleteCredential (credentialID : string).

(** The routes of the server, by the segments of the path under [/v1alpha3]; for the other
    paths, see the list of what is not modelled. *)
Definition route (newID newToken : string) (m : Method) (path : list string) : option Command :=
  match path, m with
  | ["groups"; g; "clusters"], GET => Some (ListGroupClusters g)
  | ["clusters"], GET => Some ListClusters
  | ["clusters"; c; "allowed_groups"], GET => Some (ListAllowedGroups c)
  | ["clusters"; c; "allowed_groups"; g], GET => Some (CheckAccess c g)
  | ["clusters"; c; "allowed_groups"; g], PUT => Some (GrantAccess c g)
  | ["clusters"; c; "allowed_groups"; g], DELETE => Some (RevokeAccess c g)
  | ["clusters"; c; "allowed_groups"; g; "applications"], GET =>
      Some (ListAllowedApplications c g)
  | ["clusters"; c; "allowed_groups"; g; "applications"; a], PUT => Some (AllowApplication c g a)
  | ["clusters"; c; "allowed_groups"; g; "applications"; a], DELETE =>
      Some (DenyApplication c g a)
  | ["clusters"; c; "monitoring_credential"], GET => Some (GetClusterCredential c)
  | ["clusters"; c; "monitoring_credential"], DELETE => Some (RemoveClusterCredential c)
  | ["monitoring_credentials"], GET => Some ListCredentials
  | ["monitoring_credentials"], POST => Some AddCredential
  | ["monitoring_credentials"; c; "revoke"], PUT => Some (RevokeCredential c)
  | ["monitoring_credentials"; c], DELETE => Some (DeleteCredential c)
  | _, _ => OnDirectory <$> Server.route newID newToken m path
  end.

Section service.
Context `{D : Dynamo} `{P : Platform} `{J : !JsonParser} `{JW : !JsonWriter} `{E : !Mailer}.

(** [fuel] bounds the pages of the scans. *)
Definition handle (fuel : nat) (c : Command) (req : Request) : Store Response :=
  match c with
  | OnDirectory c => Server.handle fuel c req
  | ListGroupClusters g => listGroupClusters g req
  | ListClusters => ClusterCommands.listClusters fuel req
  | ListAllowedGroups c => listClusterAllowedgroups c req
  | CheckAccess c g => checkGroupClusterAccess c g req
  | GrantAccess c g => grantGroupClusterAccess c g req
  | RevokeAccess c g => revokeGroupClusterAccess c g req
  | ListAllowedApplications c g => listClusterGroupAllowedApplications c g req
  | AllowApplication c g a => allowGroupUseOfApplication c g a req
  | DenyApplication c g a => ClusterCommands.denyGroupUseOfApplication c g a req
  | GetClusterCredential c => getClusterMonitoringCredential fuel c req
  | RemoveClusterCredential c => ClusterCommands.removeClusterMonitoringCredential c req
  | ListCredentials => CredentialCommands.listMonitoringCredentials fuel req
  | AddCredential => CredentialCommands.addMonitoringCredential req
  | RevokeCredential c => CredentialCommands.revokeMonitoringCredential c req
  | DeleteCredential c => CredentialCommands.deleteMonitoringCredential c req
  end.

Context `{L : !DynamoLaws} `{DL : !DiskLaws}.

(** What a request relies on, besides what those of the directory do: the service is
    available when a credential is moved, the mark of the empty set of applications is
    no application, an access key has no space, and what begins like the ID of a group
    is one. *)
Definition acceptable (w : World) (c : Command) (req : Request) : Prop :=
  match c with
  | OnDirectory c => Server.acceptable w c
  | ListClusters => group_given req
  | AllowApplication _ _ a => a ≠ noApplications
  | GetClusterCredential _ | RemoveClusterCredential _ | RevokeCredential _ => healthy (db w)
  | AddCredential => keys_accepted req
  | _ => True
  end.

Lemma handle_stewarded fuel c req w :
  FedInv w → acceptable w c req → wp (handle fuel c req) (stewarded (token_of req) w) w.
Proof.
  intros Hi Ha. destruct c; cbn [handle acceptable] in *.
  - pose proof (handle_served fuel c req w (fi_server _ Hi) Ha) as (Hs & Hh & Hd).
    destruct (FedInv_directory w _ Hi Hs (resources_frame_kept _ w (handle_spares fuel c req)))
      as [Hi' Hr].
    split; [done|]. split; [done|]. destruct Hd as [Hd|(u & Hu & Hact)].
    + left. by split.
    + right. exists u. split; [done|]. constructor 2. by constructor.
  - apply wp_authenticated_fed; [done|]. intros u w1 _ Hi1 _. apply done_by_looks_up; [|done].
    apply keeps_bind; [apply getGroup_looks_up|]. intros g. case_match; [apply keeps_ret|].
    apply keeps_bind; [apply clustersOwnedByGroup_looks_up|]. intros l.
    apply keeps_bind; [|intros items; apply keeps_ret]. apply keeps_for_collect. intros id.
    apply keeps_bind; [apply getCluster_looks_up|]. intros x. apply keeps_ret.
  - by apply listClusters_stewarded.
  - by apply listClusterAllowedgroups_stewarded.
  - by apply checkGroupClusterAccess_stewarded.
  - by apply grantGroupClusterAccess_stewarded.
  - by apply revokeGroupClusterAccess_stewarded.
  - by apply listClusterGroupAllowedApplications_stewarded.
  - by apply allowGroupUseOfApplication_stewarded.
  - by apply denyGroupUseOfApplication_stewarded.
  - by apply getClusterMonitoringCredential_stewarded.
  - by apply removeClusterMonitoringCredential_stewarded.
  - by apply listMonitoringCredentials_stewarded.
  - by apply addMonitoringCredential_stewarded.
  - by apply revokeMonitoringCredential_stewarded.
  - by apply deleteMonitoringCredential_stewarded.
Qed.
(** ** Requests of nobody *)

Lemma wp_nobody_fed token (k : User.t → Store Response) w :
  FedInv w → healthy (db w) → (∀ u, ¬ requester w token u) →
  (∀ u, User.valid u = false → ∃ msg, k u = mret (failure 403 msg)) →
  wp (authenticateUser token ≫= k)
    (λ r w', (∃ msg, r = Ok (failure 403 msg)) ∧ FedInv w' ∧ read_only w w') w.
Proof.
  intros Hi Hd Hn Hk. eapply wp_seq; [by apply authenticateUser_fed| | |].
  2: { by intros e w' (_ & _ & u & [=] & _). }
  2: { by intros w' (_ & _ & u & [=] & _). }
  intros u w' (Hi' & Hro & u' & [= <-] & Hv & _).
  destruct (User.valid u) eqn:Hu; [by destruct (Hn u); apply Hv|].
  destruct (Hk u Hu) as [msg ->]. apply wp_ret. eauto.
Qed.

Lemma handle_nobody_fed fuel c req w :
  FedInv w → healthy (db w) → (∀ u, ¬ requester w (token_of req) u) →
  wp (handle fuel c req)
    (λ r w', (∃ msg, r = Ok (failure 403 msg)) ∧ FedInv w' ∧ read_only w w') w.
Proof.
  intros Hi Hd Hn. destruct c; cbn [handle].
  1: { destruct (handle_nobody fuel c req w (fi_server _ Hi) Hd Hn) as (Hr & Hs & Hro).
       split; [done|]. split; [|done].
       by apply (FedInv_directory w _ Hi Hs (resources_frame_kept _ w (handle_spares fuel c req))). }
  all: apply wp_nobody_fed; try done; intros u ->; simpl; by eexists.
Qed.
End service.

(** * What deeds leave alone *)

Lemma deeds_ind_preorder u (R : Federation → Federation → Prop) :
  Transitive R → (∀ f f', same_federation f f' → R f f') → (∀ f f', deed u f f' → R f f') →
  ∀ f f', deeds u f f' → R f f'.
Proof. intros Ht Hs Hd f f'. induction 1 as [|f f' Hf|f f' f'']; [by apply Hs|by apply Hd|by etrans]. Qed.

(** What they do to the directory are actions. *)
Lemma deeds_actions u f f' :
  deeds u f f' → actions u (fed_directory f) (fed_directory f').
Proof.
  apply (deeds_ind_preorder u (λ f f', actions u (fed_directory f) (fed_directory f'))).
  - intros f1 f2 f3. apply more_actions.
  - intros f1 f2 [Hd _]. by apply no_action.
  - by intros f1 f2 []; [|apply no_action..].
Qed.

(** A cluster with its owners, its grants and what may be used there. *)
Record cluster_same (c : Cluster.t) (f f' : Federation) : Prop := {
  cs_owners : group_same (Cluster.owningGroup c) (fed_directory f) (fed_directory f');
  cs_cluster : fed_clusters f c → fed_clusters f' c;
  cs_grants : ∀ g, no_colon g → fed_grants f' (Cluster.id c) g ↔ fed_grants f (Cluster.id c) g;
  cs_applications : ∀ g, cluster_id (Cluster.id c) → no_colon g →
    fed_applications f' (Cluster.id c) g = fed_applications f (Cluster.id c) g }.

#[global] Instance cluster_same_preorder c : PreOrder (cluster_same c).
Proof.
  split; [by intros f; split|]. intros f1 f2 f3 [[Hg1 Hm1] ? Hgr1 Ha1] [[Hg2 Hm2] ? Hgr2 Ha2]. split.
  - split; [intros g Hg; etrans; [by apply Hg2|by apply Hg1]|].
    intros x. etrans; [apply Hm2|apply Hm1].
  - auto.
  - intros g Hg. etrans; [by apply Hgr2|by apply Hgr1].
  - intros g Hc Hg. rewrite Ha2 by done. by apply Ha1.
Qed.

Definition has_owner (c : Cluster.t) (d : Directory) : Prop :=
  ∃ g, dir_groups d g ∧ Group.id g = Cluster.owningGroup c.

Definition cluster_kept (u : User.t) (c : Cluster.t) (f f' : Federation) : Prop :=
  has_owner c (fed_directory f) → fed_clusters f c → ¬ may_own f u c → cluster_same c f f'.

Lemma cluster_same_owner c f f' :
  cluster_same c f f' → has_owner c (fed_directory f) → has_owner c (fed_directory f').
Proof. intros [[Hg _] _ _ _] (g & Hd & Hid). exists g. split; [by apply Hg|done]. Qed.

Lemma cluster_same_may_own u c f f' : cluster_same c f f' → may_own f' u c → may_own f u c.
Proof. intros [[_ Hm] _ _ _] [?|Hu]; [by left|right]. by apply Hm. Qed.

#[global] Instance cluster_kept_trans u c : Transitive (cluster_kept u c).
Proof.
  intros f1 f2 f3 H12 H23 Ho Hc Hn. pose proof (H12 Ho Hc Hn) as Hs. etrans; [exact Hs|].
  apply H23; [by eapply cluster_same_owner|by apply Hs|].
  intros Hm. by apply Hn, (cluster_same_may_own u c f1 f2).
Qed.

Lemma group_same_directory gid d d' : same_directory d d' → group_same gid d d'.
Proof. intros (_ & Hg & Hm). split; [intros g _; apply Hg|intros x; apply Hm]. Qed.

(** A deed about another cluster. *)
Lemma other_cluster f u c c0 :
  holds_cluster f c0 → may_own f u c0 → fed_clusters f c → ¬ may_own f u c →
  Cluster.id c ≠ Cluster.id c0.
Proof. intros [_ Hu] Ho Hc Hn Heq. apply Hn. by rewrite (Hu c Hc Heq). Qed.

Lemma deed_cluster_kept u c f f' : deed u f f' → cluster_kept u c f f'.
Proof.
  destruct 1 as [Ha (Hcl & Hg & Hap)|c0 g b Hc0 Ho Hd Hcl Hg Hap|c0 g s Hc0 Ho Hd Hcl Hg Hap
    |c0 cred Hc0 Ho Hd Hp Hg Hap]; intros Hown Hc Hn.
  1: { split; [by eapply actions_group_kept|by intros; apply Hcl|intros g; apply Hg|intros g; apply Hap]. }
  all: pose proof (other_cluster f u c c0 Hc0 Ho Hc Hn) as Hne.
  all: split; [by apply group_same_directory| | |].
  - intros _. by apply Hcl.
  - intros g' Hg'. rewrite Hg by done. by rewrite decide_False by (intros [? _]; done).
  - intros g'. apply Hap.
  - intros _. by apply Hcl.
  - intros g'. apply Hg.
  - intros g' Hid Hg'. rewrite Hap by done. by rewrite decide_False by (intros [? _]; done).
  - intros _. apply Hp. right. done.
  - intros g'. apply Hg.
  - intros g'. apply Hap.
Qed.

Lemma deeds_cluster_kept u c f f' : deeds u f f' → cluster_kept u c f f'.
Proof.
  apply deeds_ind_preorder; [apply _| |apply deed_cluster_kept].
  intros f1 f2 (Hd & Hcl & Hg & Ha) _ _ _. split.
  - by apply group_same_directory.
  - intros. by apply Hcl.
  - intros g. apply Hg.
  - intros g. apply Ha.
Qed.

(** * Sequences of requests *)

Section requests.
Context `{D : Dynamo} `{P : Platform} `{J : !JsonParser} `{JW : !JsonWriter} `{E : !Mailer}.
Context `{L : !DynamoLaws} `{DL : !DiskLaws}.

(** [w'] is reached from [w] by requests for which [ok] held when they were made. *)
Inductive requests (fuel : nat) (ok : World → Request → Prop) : World → World → Prop :=
  | no_request w : requests fuel ok w w
  | more_requests w c req w' :
      ok w req → acceptable w c req → requests fuel ok (handle fuel c req w).2 w' →
      requests fuel ok w w'.

(** A relation between federations that composes, and that the deeds of the users who may
    make requests have. *)
Lemma requests_preorder fuel ok (R : Federation → Federation → Prop) `{!PreOrder R} w w' :
  FedInv w → requests fuel ok w w' →
  (∀ f f', same_federation f f' → R f f') →
  (∀ w1 req u, ok w1 req → requester w1 (token_of req) u → R (federation w) (federation w1) →
    ∀ f', deeds u (federation w1) f' → R (federation w1) f') →
  FedInv w' ∧ R (federation w) (federation w').
Proof.
  intros Hi Hr Hs Ha.
  assert (Hgen : ∀ w1, FedInv w1 → R (federation w) (federation w1) →
    requests fuel ok w1 w' → FedInv w' ∧ R (federation w) (federation w')).
  { intros w1 Hi1 HR1 Hr1. clear Hr. induction Hr1 as [w1|w1 c req w' Hok Hac _ IH]; [done|].
    destruct (handle_stewarded fuel c req w1 Hi1 Hac) as (Hi2 & _ & Hd).
    apply IH; [exact Hi2|]. etrans; [exact HR1|].
    destruct Hd as [Hd|(u & Hu & Hact)]; [by apply Hs|by eapply Ha]. }
  by apply (Hgen w).
Qed.

(** The same for relations between directories. *)
Lemma requests_directory fuel ok (R : Directory → Directory → Prop) `{!PreOrder R} w w' :
  FedInv w → requests fuel ok w w' →
  (∀ d d', same_directory d d' → R d d') →
  (∀ w1 req u, ok w1 req → requester w1 (token_of req) u → R (directory w) (directory w1) →
    ∀ d', actions u (directory w1) d' → R (directory w1) d') →
  R (directory w) (directory w').
Proof.
  intros Hi Hr Hs Ha. pose (R' := λ f f', R (fed_directory f) (fed_directory f')).
  assert (PreOrder R') by (split; [intros f; unfold R'; reflexivity
    |intros f1 f2 f3; unfold R'; intros; by etrans]).
  apply (requests_preorder fuel ok R' w w' Hi Hr).
  - intros f f' [Hd _]. by apply Hs.
  - intros w1 req u Hok Hu HR f' Hd. eapply Ha; [done..|]. exact (deeds_actions u _ _ Hd).
Qed.
End requests.

Section theorems.
Context `{D : Dynamo} `{P : Platform} `{J : !JsonParser} `{JW : !JsonWriter} `{E : !Mailer}.
Context `{L : !DynamoLaws} `{DL : !DiskLaws}.

(** C1: every request refines the federation: whatever the handler, its arguments and its
    body, the caches of the server stay coherent with the database, and the federation -
    users, groups, memberships, clusters, grants and permitted applications - stays as it
    is or changes by deeds allowed to the stored user whose token the request has. *)
Theorem requests_refine_federation (fuel : nat) (c : Command) (req : Request) (w : World) :
  FedInv w → acceptable w c req →
  wp (handle fuel c req) (λ r w', FedInv w' ∧ (healthy (db w) → healthy (db w')) ∧
    (same_federation (federation w) (federation w') ∨
     ∃ u, requester w (token_of req) u ∧ deeds u (federation w) (federation w'))) w.
Proof. apply handle_stewarded. Qed.


(** C3: no sequence of requests by users who are not administrators makes an
    administrator: who is one at the end was one at the beginning. *)
Theorem no_privilege_escalation (fuel : nat) (w w' : World) :
  FedInv w →
  requests fuel (λ w1 req, ∀ u, requester w1 (token_of req) u → User.admin u = false) w w' →
  ∀ x, is_user w' x → User.admin x = true →
  ∃ y, is_user w y ∧ User.id y = User.id x ∧ User.admin y = true.
Proof.
  intros Hi Hr. pose (R := λ d d' : Directory, ∀ x, dir_users d' x → User.admin x = true →
    ∃ y, dir_users d y ∧ User.id y = User.id x ∧ User.admin y = true).
  assert (PreOrder R).
  { split; [intros d x Hx Ha; by exists x|]. intros d1 d2 d3 H1 H2 x Hx Ha.
    destruct (H2 x Hx Ha) as (y & Hy & <- & Hy'). by apply H1. }
  apply (requests_directory fuel _ R w w' Hi Hr).
  - intros d d' (Hu & _) x Hx Ha. exists x. split; [by apply Hu|done].
  - intros w1 req u Hok Hu _ d' Ha. exact (actions_no_new_admins u _ _ Ha (Hok u Hu)).
Qed.

(** C4: as long as no request is made by an administrator or by the user, the record of a
    user - token, Globus ID and administrator's flag included - stays what it was. *)
Theorem accounts_are_protected (fuel : nat) (w w' : World) (x : User.t) :
  FedInv w → is_user w x →
  requests fuel (λ w1 req, ∀ u, requester w1 (token_of req) u → ¬ may_manage u (User.id x)) w w' →
  is_user w' x.
Proof.
  intros Hi Hx Hr. pose (R := λ d d' : Directory, dir_users d x → dir_users d' x).
  assert (PreOrder R) by (split; [by intros d Hd|intros d1 d2 d3 H1 H2; unfold R in *; auto]).
  assert (HR : R (directory w) (directory w')); [|by apply HR].
  apply (requests_directory fuel _ R w w' Hi Hr).
  - intros d d' (Hu & _) Hd. by apply Hu.
  - intros w1 req u Hok Hu _ d' Ha Hd. by apply (actions_accounts_kept u _ _ Ha), Hok.
Qed.


End theorems.
