(* ===== verification/Authorization.v ===== *)
(** Who may do what: the authority a request must come with to be answered with success,
    for every command of the server. *)

From S2P Require Import Prelude Entities Cache Dynamo Store Demo Listing StoreGroups.
From S2P Require Import StoreUsers StoreMembership StoreClusters StoreAccess StoreMonCreds.
From S2P Require Import Directory Federation Http UserCommands GroupCommands.
From S2P Require Import ClusterCommands CredentialCommands Server Service.

(** * The authority a command takes *)

Section entitlement.
Context `{D : Dynamo} `{P : Platform} `{L : !DynamoLaws} `{DL : !DiskLaws}.

(** An administrator, or a member of the group that is named. *)
Definition in_group (w : World) (u : User.t) (group : string) : Prop :=
  User.admin u = true ∨ ∃ gid, names w group gid ∧ is_member w (User.id u) gid.

(** An administrator, or a member of the group that owns the cluster that is named. *)
Definition owns_named (w : World) (u : User.t) (cluster : string) : Prop :=
  ∃ c, is_cluster w c ∧ cluster_names w cluster (Cluster.id c) ∧ may_own (federation w) u c.

Definition entitled_in_directory (w : World) (u : User.t) (c : Server.Command) : Prop :=
  match c with
  | ListUsers | ListUsergroups _ | WhoAreThey | ListGroups | CreateGroup _ | GetGroupInfo _ => True
  | CreateUser _ _ | FindUser => User.admin u = true
  | GetUserInfo uID | UpdateUser uID | DeleteUser uID | ReplaceUserToken _ uID => may_manage u uID
  | AddUserToGroup _ g | RemoveUserFromGroup _ g | UpdateGroup g | ListGroupMembers g =>
      in_group w u g
  end.

Definition entitled (w : World) (u : User.t) (c : Command) : Prop :=
  match c with
  | OnDirectory c => entitled_in_directory w u c
  | ListGroupClusters _ | ListClusters | ListAllowedGroups _ | CheckAccess _ _ => True
  | GrantAccess c _ | RevokeAccess c _ | AllowApplication c _ _ | DenyApplication c _ _
  | GetClusterCredential c | RemoveClusterCredential c => owns_named w u c
  | ListAllowedApplications c g => owns_named w u c ∨ in_group w u g
  | ListCredentials | AddCredential | RevokeCredential _ | DeleteCredential _ =>
      User.admin u = true
  end.

(** The request is answered with status 200. *)
Definition succeeded (r : Res Response) : Prop := ∃ content, r = Ok (Reply 200 content).

(** A computation that succeeds only if [Q]. *)
Definition only_if (Q : Prop) (r : Res Response) (w' : World) : Prop := succeeded r → Q.

Lemma wp_only_if {Q : Prop} (m : Store Response) w : Q → wp m (only_if Q) w.
Proof. by intros HQ _. Qed.

Lemma wp_refused Q n msg w : n ≠ 200%Z → wp (mret (failure n msg)) (only_if Q) w.
Proof. intros Hn [content [= ? _]]. done. Qed.

(** A lookup that succeeds with some result. *)
Lemma wp_look {A} (m : Store A) (R : Res A → Prop) (k : A → Store Response) Q w :
  wp m (λ r w', FedInv w' ∧ read_only w w' ∧ R r) w →
  (∀ a w', FedInv w' → read_only w w' → R (Ok a) → wp (k a) (only_if Q) w') →
  wp (m ≫= k) (only_if Q) w.
Proof.
  intros Hm Hk. eapply wp_seq; [exact Hm| | |].
  - intros a w' (Hi & Hro & HR). by apply Hk.
  - by intros e w' _ [content [=]].
  - by intros w' _ [content [=]].
Qed.

(** The beginning of every handler. *)
Lemma wp_for_requester token (Q : User.t → Prop) (k : User.t → Store Response) w :
  FedInv w →
  (∀ u w', User.valid u = true → requester w token u → FedInv w' → read_only w w' →
     wp (k u) (only_if (Q u)) w') →
  (∀ u, User.valid u = false → ∃ msg, k u = mret (failure 403 msg)) →
  wp (authenticateUser token ≫= k) (only_if (∃ u, requester w token u ∧ Q u)) w.
Proof.
  intros Hi Hk Hn. eapply wp_look; [by apply (authenticateUser_fed token w)|].
  intros u w' Hi' Hro (u' & [= <-] & Hv & _). destruct (User.valid u) eqn:Hu.
  - eapply wp_mono; [|apply (Hk u w'); auto]. intros r w2 Hr Hs. eauto.
  - destruct (Hn u Hu) as [msg ->]. by apply wp_refused.
Qed.

Lemma in_group_read_only w w' u g : read_only w w' → in_group w' u g → in_group w u g.
Proof.
  intros Hro [?|(gid & Hn & Hm)]; [by left|right]. exists gid.
  destruct (read_only_directory _ _ Hro) as (_ & Hg & Hmem). split; [|by apply Hmem].
  unfold names in *. case_match; [done|]. destruct Hn as (g' & Hg' & Hn). exists g'.
  split; [by apply Hg|done].
Qed.

Lemma owns_named_read_only w w' u c : read_only w w' → owns_named w' u c → owns_named w u c.
Proof.
  intros Hro (x & Hx & Hn & Ho). assert (Hs : same (is_cluster w') (is_cluster w)).
  { intros y. symmetry. by apply read_only_is_cluster. }
  exists x. split; [by apply Hs|]. split; [by eapply cluster_names_same|].
  destruct Ho as [?|Ho]; [by left|right]. by apply (read_only_directory _ _ Hro).
Qed.

Lemma wp_skip {A} (m : Store A) (k : A → Store Response) Q w :
  FedInv w → fed_looks_up m →
  (∀ a w', FedInv w' → read_only w w' → wp (k a) (only_if Q) w') → wp (m ≫= k) (only_if Q) w.
Proof.
  intros Hi Hm Hk. eapply (wp_look _ (λ _, True)); [destruct (Hm w Hi); by split_and!|eauto].
Qed.

Lemma fed_looks_up_directory {A} (m : Store A) :
  looks_up m → frame resources m → fed_looks_up m.
Proof.
  intros Hm Hf w Hi. destruct (Hm w (fi_server _ Hi)) as [Hs Hro]. split; [|done].
  by apply (FedInv_directory w _ Hi Hs (resources_frame_kept m w Hf)).
Qed.

(** The check of the membership. *)
Lemma wp_member_check token w0 u g (k : bool → Store Response) Q w :
  FedInv w → requester w0 token u → read_only w0 w → 
  (in_group w0 u g → Q) → (∃ n msg, n ≠ 200%Z ∧ k false = mret (failure n msg)) →
  wp ((if User.admin u then mret true else userInGroup (User.id u) g) ≫= k) (only_if Q) w.
Proof.
  intros Hi Hu Hro HQ (n & msg & Hn & Hk). destruct (User.admin u) eqn:Ha.
  { apply wp_only_if, HQ. by left. }
  assert (Hne : User.id u ≠ "").
  { eapply requester_id; [apply Hi|]. destruct Hu as [Hu Ht]. split; [|exact Ht].
    by apply (read_only_directory _ _ Hro). }
  eapply wp_look; [by apply (userInGroup_fed (User.id u) g w)|].
  intros b w' _ Hro' (b' & [= <-] & Hb). destruct b; [|rewrite Hk; by apply wp_refused].
  apply wp_only_if, HQ, (in_group_read_only w0 w); [done|]. right. by apply Hb.
Qed.

(** The check of the owner. *)
Lemma wp_owner_check token w0 u c s (k : bool → Store Response) Q w :
  FedInv w → requester w0 token u → read_only w0 w → is_cluster w c →
  cluster_names w s (Cluster.id c) → (owns_named w0 u s → Q) →
  (∀ w', FedInv w' → read_only w w' → wp (k false) (only_if Q) w') →
  wp (owns u c ≫= k) (only_if Q) w.
Proof.
  intros Hi Hu Hro Hc Hn HQ Hk. unfold owns. destruct (User.admin u) eqn:Ha.
  { apply wp_only_if, HQ, (owns_named_read_only w0 w); [done|]. exists c. split_and!; [done..|by left]. }
  assert (Hne : User.id u ≠ "").
  { eapply requester_id; [apply Hi|]. destruct Hu as [Hu Ht]. split; [|exact Ht].
    by apply (read_only_directory _ _ Hro). }
  eapply wp_look; [by apply (userInGroup_fed (User.id u) (Cluster.owningGroup c) w)|].
  intros b w' Hi' Hro' (b' & [= <-] & Hb). destruct b; [|by apply Hk].
  apply wp_only_if, HQ, (owns_named_read_only w0 w); [done|]. exists c. split_and!; [done..|].
  destruct (Hb eq_refl) as (gid & Hg & Hm). right. by rewrite <- (proper_owner w c gid Hi Hc Hg).
Qed.

(** A cluster, or a group, that must exist. *)
Lemma wp_cluster s msg (k : Cluster.t → Store Response) Q w :
  FedInv w →
  (∀ c w', FedInv w' → read_only w w' → is_cluster w' c → cluster_names w' s (Cluster.id c) →
     wp (k c) (only_if Q) w') →
  wp (cluster ← getCluster s;
      if negb (Cluster.valid cluster) then mret (failure 404 msg) else k cluster) (only_if Q) w.
Proof.
  intros Hi Hk. eapply wp_look; [by apply (getCluster_fed s w)|].
  intros c w' Hi' Hro [(Hv & Hc & Hn)|[-> _]]; [rewrite Hv|by apply wp_refused]. simpl.
  assert (Hs : same (is_cluster w) (is_cluster w')) by (intros x; by apply read_only_is_cluster).
  apply Hk; [done|done|by apply Hs|by eapply cluster_names_same].
Qed.

Lemma wp_group s msg (k : Group.t → Store Response) Q w :
  FedInv w →
  (∀ g w', FedInv w' → read_only w w' → is_group w' g → names w' s (Group.id g) →
     wp (k g) (only_if Q) w') →
  wp (group ← getGroup s;
      if negb (Group.valid group) then mret (failure 404 msg) else k group) (only_if Q) w.
Proof.
  intros Hi Hk. eapply wp_look; [by apply (getGroup_fed s w)|].
  intros g w' Hi' Hro [(Hv & Hid & Hg)|[-> _]]; [rewrite Hv|by apply wp_refused]. simpl.
  assert (Hg' : is_group w' g) by by apply (read_only_directory _ _ Hro).
  apply Hk; [done|done|done|]. unfold names. case_match; [done|]. by exists g.
Qed.
End entitlement.

(** * Every command checks it *)

Section checks.
Context `{D : Dynamo} `{P : Platform} `{J : !JsonParser} `{JW : !JsonWriter} `{E : !Mailer}.
Context `{L : !DynamoLaws} `{DL : !DiskLaws}.

Lemma getUser_fed_looks_up uID : fed_looks_up (getUser uID).
Proof. apply fed_looks_up_directory; [auto with lookups|apply spares_getUser]. Qed.

Lemma as_admin_authorized req (k : Store Response) w :
  FedInv w →
  wp (as_admin req k) (only_if (∃ u, requester w (token_of req) u ∧ User.admin u = true)) w.
Proof.
  intros Hi. apply wp_for_requester; [done| |intros u ->; by eexists].
  intros u w' -> _ _ _. simpl. destruct (User.admin u); [by apply wp_only_if|by apply wp_refused].
Qed.

Lemma as_owner_authorized clusterID req (k : User.t → Cluster.t → Store Response) w :
  FedInv w →
  wp (as_owner clusterID req k)
    (only_if (∃ u, requester w (token_of req) u ∧ owns_named w u clusterID)) w.
Proof.
  intros Hi. apply wp_for_requester; [done| |intros u ->; by eexists].
  intros u w1 -> Hu Hi1 Hro1. simpl. apply wp_cluster; [done|]. intros c w2 Hi2 Hro2 Hc Hn.
  eapply (wp_owner_check _ w); [done|done|by etrans|done|done|done|]. intros w3 Hi3 _.
  by apply wp_refused.
Qed.

Lemma as_owner_for_group_authorized clusterID groupID req (k : Store Response) w :
  FedInv w →
  wp (as_owner_for_group clusterID groupID req k)
    (only_if (∃ u, requester w (token_of req) u ∧ owns_named w u clusterID)) w.
Proof.
  intros Hi. apply wp_for_requester; [done| |intros u ->; by eexists].
  intros u w1 -> Hu Hi1 Hro1. simpl. apply wp_cluster; [done|]. intros c w2 Hi2 Hro2 Hc Hn.
  apply wp_group; [done|]. intros g w3 Hi3 Hro3 _ _.
  assert (Hs : same (is_cluster w2) (is_cluster w3)) by (intros x; by apply read_only_is_cluster).
  assert (Hro : read_only w w3) by (etrans; [|done]; by etrans).
  eapply (wp_owner_check _ w); [done|done|done|by apply Hs|by eapply cluster_names_same|done|].
  intros w4 Hi4 _. by apply wp_refused.
Qed.

(** The handlers that check whom they are about first. *)
Lemma wp_manager req uID msg (k : User.t → Store Response) w :
  FedInv w →
  wp (user ← authenticateUser (param req "token");
      if negb (User.valid user) then mret (failure 403 msg) else
      if negb (User.admin user) && negb (bool_decide (User.id user = uID))
      then mret (failure 403 msg) else k user)
    (only_if (∃ u, requester w (token_of req) u ∧ may_manage u uID)) w.
Proof.
  intros Hi. apply wp_for_requester; [done| |intros u ->; by eexists].
  intros u w1 -> Hu Hi1 Hro1. simpl. destruct (_ && _) eqn:Hb; [by apply wp_refused|].
  by apply wp_only_if, manages_check.
Qed.

(** A handler any user may ask. *)
Lemma wp_anyone token (k : User.t → Store Response) w :
  FedInv w → (∀ u, User.valid u = false → ∃ msg, k u = mret (failure 403 msg)) →
  wp (authenticateUser token ≫= k) (only_if (∃ u, requester w token u ∧ True)) w.
Proof. intros Hi Hk. apply wp_for_requester; [done| |done]. intros. by apply wp_only_if. Qed.

Lemma addUserToGroup_authorized uID g req w :
  FedInv w →
  wp (UserCommands.addUserToGroup uID g req)
    (only_if (∃ u, requester w (token_of req) u ∧ in_group w u g)) w.
Proof.
  intros Hi. apply wp_for_requester; [done| |intros u ->; by eexists].
  intros u w1 -> Hu Hi1 Hro1. simpl. apply wp_skip; [done|apply getUser_fed_looks_up|].
  intros x w2 Hi2 Hro2. case_match; [by apply wp_refused|].
  apply wp_group; [done|]. intros gr w3 Hi3 Hro3 _ _.
  eapply (wp_member_check _ w); [done|done|etrans; [|done]; by etrans|done|].
  eexists _, _. split; [|reflexivity]. done.
Qed.

Lemma removeUserFromGroup_authorized uID g req w :
  FedInv w →
  wp (UserCommands.removeUserFromGroup uID g req)
    (only_if (∃ u, requester w (token_of req) u ∧ in_group w u g)) w.
Proof.
  intros Hi. apply wp_for_requester; [done| |intros u ->; by eexists].
  intros u w1 -> Hu Hi1 Hro1. simpl. apply wp_skip; [done|apply getUser_fed_looks_up|].
  intros x w2 Hi2 Hro2. case_match; [by apply wp_refused|].
  eapply (wp_member_check _ w); [done|done|by etrans|done|].
  eexists _, _. split; [|reflexivity]. done.
Qed.

Lemma updateGroup_authorized g req w :
  FedInv w →
  wp (GroupCommands.updateGroup g req)
    (only_if (∃ u, requester w (token_of req) u ∧ in_group w u g)) w.
Proof.
  intros Hi. apply wp_for_requester; [done| |intros u ->; by eexists].
  intros u w1 -> Hu Hi1 Hro1. simpl. eapply (wp_member_check _ w); [done|done|done|done|].
  eexists _, _. split; [|reflexivity]. done.
Qed.

(** The ID of a group that is named names the same group. *)
Lemma in_group_id w u s g :
  FedInv w → is_group w g → names w s (Group.id g) → in_group w u (Group.id g) → in_group w u s.
Proof.
  intros Hi Hg Hn [?|(gid & Hid & Hm)]; [by left|right]. exists gid. split; [|done].
  pose proof (si_group_ids _ (fi_server _ Hi) g Hg) as (Hp & _). unfold names in Hid.
  rewrite Hp in Hid. by subst.
Qed.

Lemma listGroupMembers_authorized g req w :
  FedInv w →
  wp (listGroupMembers g req) (only_if (∃ u, requester w (token_of req) u ∧ in_group w u g)) w.
Proof.
  intros Hi. apply wp_for_requester; [done| |intros u ->; by eexists].
  intros u w1 -> Hu Hi1 Hro1. simpl. apply wp_group; [done|]. intros gr w2 Hi2 Hro2 Hg Hn.
  eapply (wp_member_check _ w); [done|done|by etrans| |].
  - intros Hin. assert (Hro : read_only w w2) by by etrans.
    destruct (read_only_directory _ _ Hro) as (_ & Hsg & _).
    apply (in_group_id w u g gr); [done|by apply Hsg| |done].
    unfold names in *. case_match; [done|]. destruct Hn as (g' & Hg' & Hn'). exists g'.
    split; [by apply Hsg|done].
  - eexists _, _. split; [|reflexivity]. done.
Qed.

Lemma directory_authorized fuel c req w :
  FedInv w →
  wp (Server.handle fuel c req)
    (only_if (∃ u, requester w (token_of req) u ∧ entitled_in_directory w u c)) w.
Proof.
  intros Hi. destruct c; cbn [Server.handle entitled_in_directory].
  all: try by apply wp_anyone; [|intros u ->; eexists].
  - apply wp_for_requester; [done| |intros u ->; by eexists]. intros u w1 -> _ _ _. simpl.
    destruct (User.admin u); [by apply wp_only_if|by apply wp_refused].
  - by apply wp_manager.
  - by apply wp_manager.
  - by apply wp_manager.
  - by apply addUserToGroup_authorized.
  - by apply removeUserFromGroup_authorized.
  - by apply wp_manager.
  - apply wp_for_requester; [done| |intros u ->; by eexists]. intros u w1 -> _ _ _. simpl.
    destruct (User.admin u); [by apply wp_only_if|by apply wp_refused].
  - by apply updateGroup_authorized.
  - by apply listGroupMembers_authorized.
Qed.

Lemma listApplications_authorized c g req w :
  FedInv w →
  wp (listClusterGroupAllowedApplications c g req)
    (only_if (∃ u, requester w (token_of req) u ∧ (owns_named w u c ∨ in_group w u g))) w.
Proof.
  intros Hi. apply wp_for_requester; [done| |intros u ->; by eexists].
  intros u w1 -> Hu Hi1 Hro1. simpl. apply wp_cluster; [done|]. intros cl w2 Hi2 Hro2 Hc Hn.
  apply wp_group; [done|]. intros gr w3 Hi3 Hro3 Hg Hng.
  assert (Hs : same (is_cluster w2) (is_cluster w3)) by (intros x; by apply read_only_is_cluster).
  assert (Hro : read_only w w3) by (etrans; [|done]; by etrans).
  eapply (wp_owner_check _ w); [done|done|done|by apply Hs|by eapply cluster_names_same|by left|].
  intros w4 Hi4 Hro4. eapply wp_look.
  { apply (userInGroup_fed (User.id u) (Group.id gr) w4); [done|].
    eapply requester_id; [apply Hi|]. exact Hu. }
  intros b w5 Hi5 Hro5 (b' & [= <-] & Hb). destruct b; [|by apply wp_refused].
  apply wp_only_if. right. destruct (Hb eq_refl) as (gid & Hid & Hm).
  assert (Hro' : read_only w w4) by by etrans.
  apply (in_group_read_only w w3); [done|]. apply (in_group_id w3 u g gr); [done..|].
  apply (in_group_read_only w3 w4); [done|]. right. eauto.
Qed.

Lemma handle_authorized fuel c req w :
  FedInv w →
  wp (handle fuel c req) (only_if (∃ u, requester w (token_of req) u ∧ entitled w u c)) w.
Proof.
  intros Hi. destruct c; cbn [handle entitled].
  all: try by apply wp_anyone; [|intros u ->; eexists].
  all: try by apply as_owner_authorized.
  all: try by apply as_owner_for_group_authorized.
  all: try by apply as_admin_authorized.
  - by apply directory_authorized.
  - by apply listApplications_authorized.
Qed.
End checks.

Section authority.
Context `{D : Dynamo} `{P : Platform} `{J : !JsonParser} `{JW : !JsonWriter} `{E : !Mailer}.
Context `{L : !DynamoLaws} `{DL : !DiskLaws}.

(** C2: who may do what: whatever the request and its body, and whatever is cached, a
    command is answered with status 200 - with the data it asks for, or because the change
    has been made - only if the request has the token of a stored user with the authority
    the command takes: the accounts are for their users and for administrators, groups for
    their members, clusters - with the access to them, what may be used there and their
    monitoring credentials - for the members of the group that owns them, and the other
    credentials for administrators. *)
Theorem success_requires_authority (fuel : nat) (c : Command) (req : Request) (w : World) :
  FedInv w →
  wp (handle fuel c req)
    (λ r _, (∃ content, r = Ok (Reply 200 content)) →
       ∃ u, requester w (token_of req) u ∧ entitled w u c) w.
Proof. apply handle_authorized. Qed.
End authority.
