(* ===== verification/ClusterRemoval.v ===== *)
(** Removing a cluster from the store: its record, its locations and the grants that are listed
    go, and nothing else. *)

From S2P Require Import Prelude Entities Cache Dynamo Store Demo Kubernetes Listing.
From S2P Require Import Catalogue StoreGroups StoreUsers StoreMembership StoreClusters.
From S2P Require Import StoreAccess StoreMonCreds Directory Federation.

Section removal.
Context `{D : Dynamo} `{P : Platform} `{L : !DynamoLaws} `{DL : !DiskLaws}.
Implicit Types (id c g : string) (x : Cluster.t).

(** The rows of the grants name groups, or everyone. *)
Definition guests_proper (w : World) : Prop := ∀ k it v,
  table w SLATE_clusters !! k = Some it → it !! "groupID" = Some v → proper_group (GetS v).

(** ** The grants *)

Lemma listed_guests c w :
  FedInv w → guests_proper w → begins_with c clusterIDPrefix = true →
  wp (listGroupsAllowedOnCluster c false) (λ r w', FedInv w' ∧ read_only w w' ∧
    ∃ l, r = Ok l ∧ Forall proper_group l) w.
Proof.
  intros Hi Hg Hc. unfold listGroupsAllowedOnCluster. rewrite normalizeClusterID_id by done.
  apply (wp_run _ _ _ _ (Some c) w); [done|].
  eapply wp_seq; [by apply (clusterAllowsAllGroups_fed c)| | |].
  2: { by intros e w' (_ & _ & b & [=] & _). }
  2: { by intros w' (_ & _ & b & [=] & _). }
  intros all w1 (Hi1 & Hro1 & _). destruct all.
  { apply wp_ret. split; [done|]. split; [done|]. eexists. split; [done|].
    constructor; [apply proper_wildcard|constructor]. }
  apply wp_databaseQuery. intros w2 Hq2. apply wp_Query.
  - intros e w3 Hq3 _. apply wp_ret. assert (Hq : quiet w1 w3) by by etrans.
    split; [by eapply quiet_FedInv|]. split; [etrans; [done|by apply quiet_ro]|].
    eexists. split; [done|constructor].
  - intros items w3 Hq3 Hl. apply wp_ret. assert (Hq : quiet w1 w3) by by etrans.
    split; [by eapply quiet_FedInv|]. split; [etrans; [done|by apply quiet_ro]|].
    eexists. split; [done|]. apply list.Forall_forall. intros g Hin.
    apply list_elem_of_omap in Hin as (it & Hit & Hv).
    destruct (it !! "groupID") as [v|] eqn:Hgv; simpl in Hv; [|done]. injection Hv as <-.
    rewrite Hl in Hit. apply elem_of_query_items in Hit as (k & it' & Hk & [= <-] & _).
    eapply Hg; [|exact Hgv]. rewrite <- Hk. rewrite (proj1 (quiet_ro _ _ Hq2)).
    by rewrite (proj1 Hro1).
Qed.

(** What the removal of the grants does. *)
Record grants_dropped (c : string) (w w' : World) : Prop := {
  gd_inv : FedInv w';
  gd_healthy : healthy (db w) → healthy (db w');
  gd_directory : same_directory (directory w) (directory w');
  gd_clusters : same (is_cluster w) (is_cluster w');
  gd_grants : ∀ c' g, c' ≠ c → no_colon g → granted w' c' g ↔ granted w c' g;
  gd_applications : same_applications (federation w) (federation w') }.

Lemma grants_dropped_refl c w w' : FedInv w' → read_only w w' → grants_dropped c w w'.
Proof.
  intros Hi Hro. destruct (read_only_federation w w' Hro) as (Hd & Hc & Hg & Ha).
  split; [done|apply Hro|done|done|intros c' g _; apply Hg|done].
Qed.

Lemma grants_dropped_trans c w1 w2 w3 :
  grants_dropped c w1 w2 → grants_dropped c w2 w3 → grants_dropped c w1 w3.
Proof.
  intros [A1 A2 A3 A4 A5 A6] [B1 B2 B3 B4 B5 B6]. split; [done|auto|by etrans|by etrans| |by etrans].
  intros c' g Hc Hg. rewrite (B5 c' g Hc Hg). by apply A5.
Qed.

Lemma drop_guests c l w :
  FedInv w → Forall proper_group l → begins_with c clusterIDPrefix = true →
  wp (for_each l (λ guest, _ ← removeGroupFromCluster guest c; mret tt))
    (λ r w', r = Ok tt ∧ grants_dropped c w w') w.
Proof.
  intros Hi Hl Hc. revert w Hi. induction Hl as [|g l Hg Hl IH]; intros w Hi; simpl.
  { apply wp_ret. split; [done|by apply grants_dropped_refl]. }
  apply wp_bind. eapply wp_seq; [by apply removeGroupFromCluster_fed| | |].
  2: { by intros e w' (_ & _ & _ & _ & _ & ok & [=] & _). }
  2: { by intros w' (_ & _ & _ & _ & _ & ok & [=] & _). }
  intros ok w1 (Hi1 & Hh1 & Hd1 & Hc1 & Ha1 & ok' & [= <-] & Hgr). apply wp_ret. simpl.
  assert (Hdrop : grants_dropped c w w1).
  { split; [done..| |done]. intros c' g' Hne Hg'. destruct ok; [|by apply Hgr].
    rewrite (Hgr c' g'). rewrite decide_False; [done|]. naive_solver. }
  eapply wp_mono, (IH w1 Hi1). intros r w2 [-> Hd]. split; [done|by eapply grants_dropped_trans].
Qed.

(** ** The caches *)

Lemma stored_cluster_delete tbl id x :
  stored_cluster (delete (id, id) tbl) x ↔ stored_cluster tbl x ∧ Cluster.id x ≠ id.
Proof.
  unfold stored_cluster, cluster_key. split.
  - intros (it & [Hne Hit]%lookup_delete_Some & Hr). split; [eauto|]. congruence.
  - intros [(it & Hit & Hr) Hne]. exists it. split; [|done].
    apply lookup_delete_Some. split; [congruence|done].
Qed.

(** The caches without a cluster. *)
Definition clusters_without id (cc cc' : ClusterCaches) : Prop :=
  clusterCache cc' = delete id (clusterCache cc) ∧
  clusterConfigs cc' = delete id (clusterConfigs cc) ∧
  clusterGroupAccessCache cc' = clusterGroupAccessCache cc ∧
  clusterGroupApplicationCache cc' = clusterGroupApplicationCache cc ∧
  clusterByNameCache cc' = match clusterCache cc !! id with
    | Some r => delete (Cluster.name (CacheRecord.record r)) (clusterByNameCache cc)
    | None => clusterByNameCache cc
    end.

Lemma forget_cluster_run id w :
  ∃ cc', forget_cluster id w = (Ok tt, upd_clusters (λ _, cc') w) ∧
    clusters_without id (clusters w) cc'.
Proof.
  unfold forget_cluster, mbind, M_bind, gets, modify. simpl.
  destruct (clusterCache (clusters w) !! id) as [r|] eqn:Hr; simpl; eexists; (split; [reflexivity|]);
    unfold clusters_without; simpl; by rewrite ?Hr.
Qed.

(** No name leads to the cluster any more. *)
Lemma without_names id cc cc' tbl k r :
  clusters_inv cc tbl → clusters_without id cc cc' → clusterByNameCache cc' !! k = Some r →
  clusterByNameCache cc !! k = Some r ∧ Cluster.id (CacheRecord.record r) ≠ id.
Proof.
  intros Hi (_ & _ & _ & _ & ->) Hr.
  assert (Hr' : clusterByNameCache cc !! k = Some r).
  { destruct (clusterCache cc !! id); [by apply lookup_delete_Some in Hr as [_ ?]|done]. }
  split; [done|]. intros Hid. destruct (ci_byname _ _ Hi _ _ Hr') as [Hk Hst].
  destruct (ci_sync _ _ Hi _ _ Hr') as [r2 Hr2]. rewrite Hid in Hr2. rewrite Hr2 in Hr.
  apply lookup_delete_Some in Hr as [Hne _]. destruct (ci_cache _ _ Hi _ _ Hr2) as [Hid2 Hst2].
  apply Hne. rewrite <- Hk. f_equal. eapply stored_cluster_inj; [done..|congruence].
Qed.

Lemma clusters_inv_forget id cc cc' tbl :
  clusters_inv cc tbl → clusters_without id cc cc' → clusters_inv cc' (delete (id, id) tbl).
Proof.
  intros Hi Hw. pose proof Hw as (Hmain & _). pose proof Hi as [H1 H2 H3 H4 H5 H6].
  assert (Hc : ∀ k r, clusterCache cc' !! k = Some r → clusterCache cc !! k = Some r ∧ k ≠ id).
  { intros k r. rewrite Hmain. intros [Hne Hr]%lookup_delete_Some. auto. }
  split.
  - intros k it [_ Hit]%lookup_delete_Some. by apply H1.
  - intros c1 c2 [Ha _]%stored_cluster_delete [Hb _]%stored_cluster_delete. by apply H2.
  - intros x [Hx _]%stored_cluster_delete. by apply H3.
  - intros k r Hr. destruct (Hc k r Hr) as [Hr' Hne]. destruct (H4 k r Hr') as [Hk Hst].
    split; [done|]. apply stored_cluster_delete. split; [done|congruence].
  - intros k r Hr. destruct (without_names _ _ _ _ _ _ Hi Hw Hr) as [Hr' Hne].
    destruct (H5 k r Hr') as [Hk Hst]. split; [done|]. by apply stored_cluster_delete.
  - intros k r Hr. destruct (without_names _ _ _ _ _ _ Hi Hw Hr) as [Hr' Hne].
    destruct (H6 k r Hr') as [r2 Hr2]. exists r2. rewrite Hmain. by rewrite lookup_delete_ne.
Qed.

(** Forgetting alone, whatever becomes of the row. *)
Lemma clusters_inv_forget_kept id cc cc' tbl :
  clusters_inv cc tbl → clusters_without id cc cc' → clusters_inv cc' tbl.
Proof.
  intros Hi Hw. pose proof Hw as (Hmain & _). pose proof Hi as [H1 H2 H3 H4 H5 H6]. split; try done.
  - rewrite Hmain. by apply coherent_delete.
  - intros k r Hr. apply H5. by eapply without_names.
  - intros k r Hr. destruct (without_names _ _ _ _ _ _ Hi Hw Hr) as [Hr' Hne].
    destruct (H6 k r Hr') as [r2 Hr2]. exists r2. rewrite Hmain. by rewrite lookup_delete_ne.
Qed.

Lemma configs_inv_forget id w w' :
  configs_inv w → clusters_without id (clusters w) (clusters w') → fs w' = fs w → configs_inv w'.
Proof.
  intros Hc (Hmain & Hconf & _) Hfs k r. rewrite Hmain, Hconf, Hfs.
  intros [Hne Hr]%lookup_delete_Some. rewrite lookup_delete_ne by done. by apply Hc.
Qed.

(** ** The rows *)

(** A change of the clusters and their rows that spares the directory and the credentials. *)
Lemma FedInv_rows w w' :
  FedInv w → users w' = users w → groups w' = groups w →
  (∀ t, t ≠ SLATE_clusters → table w' t = table w t) →
  access_cache w' = access_cache w → application_cache w' = application_cache w →
  (∀ c g, proper_group g → granted w' c g ↔ granted w c g) →
  (∀ c g, applications_row w' c g = applications_row w c g) →
  ClustersInv w' → (∀ x, is_cluster w' x → is_cluster w x) →
  FedInv w' ∧ same_directory (directory w) (directory w') ∧
  same_applications (federation w) (federation w').
Proof.
  intros Hi Hu Hg Ht Hac Hap Hgr Hrow Hc Hsub.
  destruct (FedInv_clusters w w' Hi) as [Hi' Hd].
  - by split; [..|apply Ht|apply Ht].
  - by apply Ht.
  - done.
  - by eapply AccessInv_kept; [apply Hi|..].
  - by eapply AppsInv_kept; [apply Hi|..].
  - intros x Hx. by apply Hi, Hsub.
  - split; [done|]. split; [done|]. intros c g _ _. simpl. unfold applications. by rewrite Hrow.
Qed.

Lemma rows_granted w w' c g :
  table w' SLATE_clusters !! access_key c g = table w SLATE_clusters !! access_key c g →
  granted w' c g ↔ granted w c g.
Proof. unfold granted. by intros ->. Qed.

Definition locations_row id : string * string := (id, id +:+ ":Locations").

Lemma locations_row_access id c g :
  access_key c g = locations_row id → c = id ∧ g = "Locations".
Proof.
  intros [= -> Heq]. split; [done|]. apply str_app_inj_l in Heq.
  change (String ":" g = String ":" "Locations") in Heq. by injection Heq.
Qed.

Lemma locations_row_applications id c g : (c, applications_key g c) ≠ locations_row id.
Proof.
  intros [= -> Heq]. unfold applications_key in Heq.
  change (id +:+ String ":" (g +:+ ":Applications") = id +:+ String ":" "Locations") in Heq.
  apply str_app_inj_l in Heq. injection Heq as Heq. apply (f_equal str_size) in Heq.
  rewrite str_size_app in Heq. simpl in Heq. lia.
Qed.

Lemma locations_row_record id (s : string) : locations_row id ≠ (s, s).
Proof.
  intros [= -> Heq]. apply (f_equal str_size) in Heq. rewrite str_size_app in Heq. simpl in Heq. lia.
Qed.

Lemma not_locations : ¬ proper_group "Locations".
Proof. by intros [[[=]|[=]] _]. Qed.

(** Deleting a row leaves the rest of the world, but for the table. *)
Lemma deleted_world k w w' :
  same_caches w w' → table_set SLATE_clusters (delete k (table w SLATE_clusters)) w w' →
  users w' = users w ∧ groups w' = groups w ∧ clusters w' = clusters w ∧ fs w' = fs w ∧
  (∀ t, t ≠ SLATE_clusters → table w' t = table w t) ∧
  ∀ k', k' ≠ k → table w' SLATE_clusters !! k' = table w SLATE_clusters !! k'.
Proof.
  intros Hq Ht. split_and!; [exact (quiet_users _ _ Hq)|exact (quiet_groups _ _ Hq)
    |exact (quiet_clusters _ _ Hq)|exact (quiet_fs _ _ Hq)|intros t Hne; by eapply table_set_other|].
  intros k' Hne. rewrite (table_set_same _ _ _ _ Ht). by rewrite lookup_delete_ne.
Qed.

(** The state after the caches have forgotten the cluster. *)
Lemma forgotten_fed id w cc' :
  FedInv w → clusters_without id (clusters w) cc' →
  FedInv (upd_clusters (λ _, cc') w) ∧ read_only w (upd_clusters (λ _, cc') w).
Proof.
  intros Hi Hw. split; [|done]. destruct (fi_clusters _ Hi) as [H1 H2 H3].
  apply (FedInv_rows w); try done; try apply Hw.
  split; [by eapply clusters_inv_forget_kept| |done].
  exact (configs_inv_forget id w (upd_clusters (λ _, cc') w) H2 Hw eq_refl).
Qed.

(** The record of the cluster is deleted. *)
Lemma deleted_fed id w w' cc :
  FedInv w → clusters_inv cc (table w SLATE_clusters) → clusters_without id cc (clusters w) →
  same_caches w w' →
  table_set SLATE_clusters (delete (id, id) (table w SLATE_clusters)) w w' →
  FedInv w' ∧ same_directory (directory w) (directory w') ∧
  same_applications (federation w) (federation w') ∧
  (∀ x, is_cluster w' x ↔ is_cluster w x ∧ Cluster.id x ≠ id) ∧
  ∀ c g, granted w' c g ↔ granted w c g.
Proof.
  intros Hi Hcc Hw Hq Ht. destruct (deleted_world _ _ _ Hq Ht) as (Hu & Hg & Hc & Hf & Hto & Hk).
  assert (Hgr : ∀ c g, granted w' c g ↔ granted w c g).
  { intros c g. apply rows_granted, Hk, access_key_aux. }
  assert (Hsc : ∀ x, is_cluster w' x ↔ is_cluster w x ∧ Cluster.id x ≠ id).
  { intros x. unfold is_cluster. rewrite (table_set_same _ _ _ _ Ht). apply stored_cluster_delete. }
  destruct (FedInv_rows w w') as (Hi' & Hd & Ha); try done.
  - unfold access_cache. by rewrite Hc.
  - unfold application_cache. by rewrite Hc.
  - intros c g. apply Hk, applications_key_aux.
  - destruct (fi_clusters _ Hi) as [H1 H2 H3]. split.
    + rewrite Hc, (table_set_same _ _ _ _ Ht). exact (clusters_inv_forget id cc (clusters w) _ Hcc Hw).
    + unfold configs_inv. by rewrite Hc, Hf.
    + by rewrite Hf.
  - intros x [Hx _]%Hsc. done.
Qed.

(** The record of its locations is deleted. *)
Lemma locations_deleted_fed id w w' :
  FedInv w → same_caches w w' →
  table_set SLATE_clusters (delete (locations_row id) (table w SLATE_clusters)) w w' →
  FedInv w' ∧ same_directory (directory w) (directory w') ∧
  same_applications (federation w) (federation w') ∧ same (is_cluster w) (is_cluster w') ∧
  ∀ c g, c ≠ id → granted w' c g ↔ granted w c g.
Proof.
  intros Hi Hq Ht. destruct (deleted_world _ _ _ Hq Ht) as (Hu & Hg & Hc & Hf & Hto & Hk).
  assert (Hrec : ∀ s, table w' SLATE_clusters !! (s, s) = table w SLATE_clusters !! (s, s)).
  { intros s. apply Hk. intros Heq. by apply (locations_row_record id s). }
  pose proof (is_cluster_kept _ _ Hrec) as Hsc.
  destruct (FedInv_rows w w') as (Hi' & Hd & Ha); try done.
  - unfold access_cache. by rewrite Hc.
  - unfold application_cache. by rewrite Hc.
  - intros c g Hp. apply rows_granted, Hk. intros [-> ->]%locations_row_access.
    by apply not_locations.
  - intros c g. apply Hk, locations_row_applications.
  - apply ClustersInv_kept with w; [apply Hi|by unfold record_caches; rewrite Hc|done|done|].
    intros k it. rewrite (table_set_same _ _ _ _ Ht). intros [_ Hit]%lookup_delete_Some.
    exact (ClustersInv_auxiliary w (fi_clusters _ Hi) k it Hit).
  - intros x. apply Hsc.
  - split_and!; try done. intros c g Hne. apply rows_granted, Hk.
    intros [-> _]%locations_row_access. done.
Qed.

(** ** All of it *)

Definition cluster_dropped id (w w' : World) : Prop :=
  ∀ x, is_cluster w' x ↔ is_cluster w x ∧ Cluster.id x ≠ id.

(** The cluster is gone, or the service has failed. *)
Definition fed_removed id (w : World) (r : Res bool) (w' : World) : Prop :=
  FedInv w' ∧ (healthy (db w) → healthy (db w')) ∧ same_directory (directory w) (directory w') ∧
  (∀ c g, c ≠ id → no_colon g → granted w' c g ↔ granted w c g) ∧
  same_applications (federation w) (federation w') ∧
  ∃ b, r = Ok b ∧ if b : bool then cluster_dropped id w w'
    else ¬ healthy (db w) ∧ (same (is_cluster w) (is_cluster w') ∨ cluster_dropped id w w').

Lemma removeCluster_fed id w :
  FedInv w → guests_proper w → begins_with id clusterIDPrefix = true →
  wp (removeCluster id) (fed_removed id w) w.
Proof.
  intros Hi Hg Hc. unfold removeCluster. eapply wp_seq; [by apply (listed_guests id)| | |].
  2: { by intros e w' (_ & _ & l & [=] & _). }
  2: { by intros w' (_ & _ & l & [=] & _). }
  intros l w1 (Hi1 & Hro1 & l' & [= <-] & Hl).
  eapply wp_seq; [by apply (drop_guests id l)| |by intros e w' [[=] _]|by intros w' [[=] _]].
  intros _ w2 [_ Hd2]. pose proof (grants_dropped_trans _ _ _ _ (grants_dropped_refl id w w1 Hi1 Hro1) Hd2)
    as [Hi2 Hh2 Hdir2 Hcl2 Hgr2 Hap2].
  destruct (forget_cluster_run id w2) as (cc & Hrun & Hcc).
  eapply wp_run; [exact Hrun|]. set (w3 := upd_clusters (λ _, cc) w2).
  destruct (forgotten_fed id w2 cc Hi2 Hcc) as [Hi3 Hro3].
  assert (Hcc2 : clusters_inv (clusters w2) (table w3 SLATE_clusters)) by apply Hi2.
  apply wp_DeleteItem.
  { intros e w4 Hq4 Hf4. apply wp_ret. destruct (quiet_ro _ _ Hq4) as [Htq Hhq].
    destruct (read_only_federation w3 w4 (quiet_ro _ _ Hq4)) as (Hd4 & Hc4 & _ & Ha4).
    split; [by eapply quiet_FedInv|]. split; [auto|]. split; [by etrans|].
    split; [intros c g Hne Hg'; rewrite (quiet_granted w3 w4 c g Hq4); by apply Hgr2|].
    split; [by etrans|]. exists false. split; [done|]. split.
    - intros Hh. by destruct (Hf4 (Hh2 Hh)) as (? & [=] & _).
    - left. etrans; [exact Hcl2|exact Hc4]. }
  intros w4 Hq4 Hh4 _ Ht4.
  destruct (deleted_fed id w3 w4 (clusters w2) Hi3 Hcc2 Hcc Hq4 Ht4) as (Hi4 & Hd4 & Ha4 & Hc4 & Hg4).
  assert (Hdrop : cluster_dropped id w w4).
  { intros x. rewrite (Hc4 x). by rewrite (Hcl2 x : is_cluster w3 x ↔ is_cluster w x). }
  assert (Hgr4 : ∀ c g, c ≠ id → no_colon g → granted w4 c g ↔ granted w c g).
  { intros c g Hne Hg'. rewrite (Hg4 c g). by apply Hgr2. }
  apply wp_DeleteItem.
  { intros e w5 Hq5 Hf5. apply wp_ret.
    destruct (read_only_federation w4 w5 (quiet_ro _ _ Hq5)) as (Hd5 & Hc5 & _ & Ha5).
    split; [by eapply quiet_FedInv|]. split; [intros ?; by apply (quiet_ro _ _ Hq5), Hh4, Hh2|].
    split; [by repeat (etrans; [eassumption|])|].
    split; [intros c g Hne Hg'; rewrite (quiet_granted w4 w5 c g Hq5); by apply Hgr4|].
    split; [by repeat (etrans; [eassumption|])|]. exists false. split; [done|]. split.
    - intros Hh. by destruct (Hf5 (Hh4 (Hh2 Hh))) as (? & [=] & _).
    - right. intros x. etrans; [apply Hc5|apply Hdrop]. }
  intros w5 Hq5 Hh5 _ Ht5. apply wp_ret.
  destruct (locations_deleted_fed id w4 w5 Hi4 Hq5 Ht5) as (Hi5 & Hd5 & Ha5 & Hc5 & Hg5).
  split; [done|]. split; [auto|]. split; [by repeat (etrans; [eassumption|])|].
  split; [intros c g Hne Hg'; rewrite (Hg5 c g Hne); by apply Hgr4|].
  split; [by repeat (etrans; [eassumption|])|]. exists true. split; [done|].
  intros x. etrans; [apply Hc5|apply Hdrop].
Qed.
End removal.
