(* ===== verification/ClusterRequests.v ===== *)
(** Who may register, update and delete clusters and delete groups. *)

From S2P Require Import Prelude Text Dns Entities Cache Dynamo Store Demo Kubernetes Listing.
From S2P Require Import Catalogue StoreGroups StoreUsers StoreMembership StoreClusters.
From S2P Require Import StoreAccess StoreInstances StoreSecrets StoreMonCreds StoreVolumes.
From S2P Require Import Directory Federation Http Geocoder UserCommands GroupCommands.
From S2P Require Import ClusterCommands SecretCommands VolumeCommands ApplicationCommands.
From S2P Require Import InstanceCommands ClusterStatus ClusterLifecycle Server Service.
From S2P Require Import Authorization.

(** * Nothing happens before the check *)

Lemma wp_assoc {W A B C} (m : M W A) (k : A → M W B) (k' : B → M W C) Q (w : W) :
  wp (m ≫= λ a, k a ≫= k') Q w → wp ((m ≫= k) ≫= k') Q w.
Proof. unfold wp, mbind, M_bind. by destruct (m w) as [[a|e|] w']. Qed.

Section guard.
Context `{D : Dynamo} `{P : Platform} `{L : !DynamoLaws} `{DL : !DiskLaws}.

(** The request has changed nothing since [w0] and has not been answered with success, unless
    [Q]. *)
Definition guard (w0 : World) (Q : Prop) (r : Res Response) (w' : World) : Prop :=
  read_only w0 w' ∧ ¬ succeeded r ∨ Q.

Lemma wp_guard {Q : Prop} w0 (m : Store Response) w : Q → wp m (guard w0 Q) w.
Proof. by right. Qed.

Lemma wp_guard_failure w0 Q n msg w :
  read_only w0 w → n ≠ 200%Z → wp (mret (failure n msg)) (guard w0 Q) w.
Proof. intros Hro Hn. left. split; [done|]. by intros [content [= ? _]]. Qed.

Lemma wp_guard_refusal w0 Q r w :
  read_only w0 w → refusal r → wp (mret r) (guard w0 Q) w.
Proof. intros Hro [[body ->]| ->]; left; (split; [done|by intros [content [=]]]). Qed.

Section steps.
Context (w0 : World) (Q : Prop).

Lemma wp_guard_look {A} (m : Store A) (R : Res A → Prop) (k : A → Store Response) w :
  read_only w0 w → wp m (λ r w', FedInv w' ∧ read_only w w' ∧ R r) w →
  (∀ a w', FedInv w' → read_only w0 w' → read_only w w' → R (Ok a) → wp (k a) (guard w0 Q) w') →
  wp (m ≫= k) (guard w0 Q) w.
Proof.
  intros Hro Hm Hk. eapply wp_seq; [exact Hm| | |].
  - intros a w' (Hi & Hro' & HR). apply Hk; [done|by etrans|done..].
  - intros e w' (_ & Hro' & _). left. split; [by etrans|by intros [? [=]]].
  - intros w' (_ & Hro' & _). left. split; [by etrans|by intros [? [=]]].
Qed.

Lemma wp_guard_cluster clusterID msg (k : Cluster.t → Store Response) w :
  FedInv w → read_only w0 w →
  (∀ c w', FedInv w' → read_only w0 w' → read_only w w' → is_cluster w' c →
     cluster_names w' clusterID (Cluster.id c) → wp (k c) (guard w0 Q) w') →
  wp (cluster ← getCluster clusterID;
      if negb (Cluster.valid cluster) then mret (failure 404 msg) else k cluster) (guard w0 Q) w.
Proof.
  intros Hi Hro Hk. eapply wp_guard_look; [done|by apply (getCluster_fed clusterID w)|].
  intros c w' Hi' Hro0 Hro' [(Hv & Hc & Hn)|[-> _]]; [rewrite Hv|by apply wp_guard_failure]. simpl.
  assert (Hs : same (is_cluster w) (is_cluster w')) by (intros x; by apply read_only_is_cluster).
  apply Hk; [done|done|done|by apply Hs|by eapply cluster_names_same].
Qed.

(** The check of the membership; [k] goes on with its result. *)
Lemma wp_guard_member token u g (k : bool → Store Response) w :
  FedInv w → requester w0 token u → read_only w0 w →
  ((∃ gid, names w0 g gid ∧ is_member w0 (User.id u) gid) → Q) →
  (∀ w', FedInv w' → read_only w0 w' → wp (k false) (guard w0 Q) w') →
  wp (userInGroup (User.id u) g ≫= k) (guard w0 Q) w.
Proof.
  intros Hi Hu Hro HQ Hk.
  assert (Hne : User.id u ≠ "").
  { eapply requester_id; [apply Hi|]. destruct Hu as [Hu Ht]. split; [|exact Ht].
    by apply (read_only_directory _ _ Hro). }
  eapply wp_guard_look; [done|by apply (userInGroup_fed (User.id u) g w)|].
  intros b w' Hi' Hro0 Hro' (b' & [= <-] & Hb). destruct b; [|by apply Hk].
  apply wp_guard, HQ. destruct (in_group_read_only w0 w u g Hro) as [Ha|Hm];
    [right; by apply Hb| |done].
  destruct (Hb eq_refl) as (gid & Hn & Hm). exists gid.
  destruct (read_only_directory _ _ Hro) as (_ & Hg & Hmem). split; [|by apply Hmem].
  unfold names in *. case_match; [done|]. destruct Hn as (g' & Hg' & Hn). exists g'.
  split; [by apply Hg|done].
Qed.

(** Administrators need not be members. *)
Lemma wp_guard_manager token u g (k : bool → Store Response) w :
  FedInv w → requester w0 token u → read_only w0 w → (in_group w0 u g → Q) →
  (∀ w', FedInv w' → read_only w0 w' → wp (k false) (guard w0 Q) w') →
  wp ((if User.admin u then mret true else userInGroup (User.id u) g) ≫= k) (guard w0 Q) w.
Proof.
  intros Hi Hu Hro HQ Hk. destruct (User.admin u) eqn:Ha; [by apply wp_guard, HQ; left|].
  eapply wp_guard_member; [done..| |done]. intros Hm. apply HQ. by right.
Qed.
End steps.

(** A property of who makes the request. *)
Definition made_by (w0 : World) (token : option string) (may : User.t → Prop) : Prop :=
  ∃ u, requester w0 token u ∧ may u.

Lemma wp_guard_requester token (may : User.t → Prop) (k : User.t → Store Response) w :
  FedInv w →
  (∀ u w', requester w token u → FedInv w' → read_only w w' →
     wp (k u) (guard w (may u)) w') →
  wp (user ← authenticateUser token;
      if negb (User.valid user) then mret (failure 403 "User not authorized") else k user)
    (guard w (made_by w token may)) w.
Proof.
  intros Hi Hk. eapply wp_guard_look; [done|by apply (authenticateUser_fed token w)|].
  intros u w' Hi' _ Hro (u' & [= <-] & Hv & _). destruct (User.valid u); simpl.
  - eapply wp_mono; [|apply (Hk u w'); [by apply Hv|done..]].
    intros r w2 [?|Hm]; [by left|right]. exists u. split; [by apply Hv|done].
  - by apply wp_guard_failure.
Qed.
End guard.

(** * The requests *)

Section requests.
Context `{D : Dynamo} `{P : Platform} `{PR : !Processes} `{J : !JsonParser}.
Context `{JR : !JsonReader} `{W : !Web} `{E : !Mailer} `{Y : !Yaml} `{S : !Settings}.
Context `{R : !Route53 FS} (dnsClient : DNSManipulator.t) (geocoder : Geocoder.t).
Context `{L : !DynamoLaws} `{DL : !DiskLaws}.

(** A member of the group that owns the cluster that is named. *)
Definition owning_member (w : World) (clusterID : string) (u : User.t) : Prop :=
  ∃ c, is_cluster w c ∧ cluster_names w clusterID (Cluster.id c) ∧
    is_member w (User.id u) (Cluster.owningGroup c).

Lemma with_cluster_guard clusterID req (may : User.t → Prop) (k : User.t → Cluster.t → Store Response) w :
  FedInv w →
  (∀ u c w', requester w (token_of req) u → FedInv w' → read_only w w' → is_cluster w c →
     cluster_names w clusterID (Cluster.id c) → wp (k u c) (guard w (may u)) w') →
  wp (with_cluster clusterID req k) (guard w (made_by w (token_of req) may)) w.
Proof.
  intros Hi Hk. apply wp_guard_requester; [done|]. intros u w1 Hu Hi1 Hro1.
  apply wp_guard_cluster; [done..|]. intros c w2 Hi2 Hro2 _ Hc Hn.
  assert (Hs : same (is_cluster w2) (is_cluster w)).
  { intros x. symmetry. by apply read_only_is_cluster. }
  apply Hk; [done..|by apply Hs|by eapply cluster_names_same].
Qed.

Lemma owner_member w u c :
  FedInv w → is_cluster w c →
  (∃ gid, names w (Cluster.owningGroup c) gid ∧ is_member w (User.id u) gid) →
  is_member w (User.id u) (Cluster.owningGroup c).
Proof. intros Hi Hc (gid & Hn & Hm). by rewrite <- (proper_owner w c gid Hi Hc Hn). Qed.

Lemma updateCluster_guarded clusterID req w :
  FedInv w →
  wp (updateCluster dnsClient geocoder clusterID req)
    (guard w (made_by w (token_of req) (λ u, owns_named w u clusterID))) w.
Proof.
  intros Hi. apply with_cluster_guard; [done|]. intros u c w1 Hu Hi1 Hro1 Hc Hn.
  eapply wp_guard_manager; [done..| |].
  - intros Ho. exists c. split; [done|]. split; [done|]. destruct Ho as [Ha|Ho]; [by left|right].
    by apply owner_member.
  - intros w2 _ Hro2. by apply wp_guard_failure.
Qed.

Lemma deleteCluster_guarded fuel clusterID req w :
  FedInv w →
  wp (deleteCluster dnsClient fuel clusterID req)
    (guard w (made_by w (token_of req) (λ u, owning_member w clusterID u ∨
      User.admin u = true ∧ is_Some (param req "force")))) w.
Proof.
  intros Hi. apply with_cluster_guard; [done|]. intros u c w1 Hu Hi1 Hro1 Hc Hn. cbv zeta.
  eapply wp_guard_member; [done..| |].
  - intros Ho. left. exists c. split; [done|]. split; [done|]. by apply owner_member.
  - intros w2 _ Hro2. unfold is_some. destruct (param req "force"); simpl; [|by apply wp_guard_failure].
    destruct (User.admin u) eqn:Ha; simpl; [|by apply wp_guard_failure].
    apply wp_guard. right. split; [done|by eexists].
Qed.

Lemma deleteGroup_guarded fuel groupID req w :
  FedInv w →
  wp (deleteGroup dnsClient fuel groupID req)
    (guard w (made_by w (token_of req) (λ u, in_group w u groupID))) w.
Proof.
  intros Hi. apply wp_guard_requester; [done|]. intros u w1 Hu Hi1 Hro1.
  eapply wp_guard_look; [done|by apply (getGroup_fed groupID w1)|].
  intros g w2 Hi2 Hro2 _ [(Hv & _)|[-> _]]; [rewrite Hv|by apply wp_guard_failure]. simpl.
  eapply wp_guard_manager; [done..| |].
  - auto.
  - intros w3 _ Hro3. by apply wp_guard_failure.
Qed.

Lemma cluster_body_refuses req : refuses (cluster_body_of req).
Proof.
  unfold cluster_body_of.
  repeat first [apply refuses_metadata|apply refuses_required_string
    |apply refuses_and_then; [|intros]].
  repeat case_match; first [apply refuses_inr|intros r [= <-]; by right].
Qed.

Lemma createCluster_guarded newID req w :
  FedInv w →
  wp (createCluster dnsClient newID req)
    (guard w (made_by w (token_of req) (λ u, ∃ body gid, cluster_body_of req = inr body ∧
       names w (cb_group body) gid ∧ is_member w (User.id u) gid))) w.
Proof.
  intros Hi. apply wp_guard_requester; [done|]. intros u w1 Hu Hi1 Hro1.
  destruct (cluster_body_of req) as [r|body] eqn:Hb; simpl.
  { by apply wp_guard_refusal, (cluster_body_refuses req). }
  unfold stops. destruct (unquoteString (cb_caData body)) as [caData|].
  2: { left. split; [done|by intros [content [=]]]. }
  change (lift (Ok caData)) with (mret (M:=M World) caData). rewrite bind_ret. cbv zeta. destruct (str_empty (cb_namespace body)); [by apply wp_guard_failure|].
  unfold owning_group. set (Q := ∃ body gid, _).
  assert (Hmember : ∀ gid w2, FedInv w2 → read_only w w2 → names w (cb_group body) gid →
    begins_with gid groupIDPrefix = true → ∀ k,
    (∀ w3, FedInv w3 → read_only w w3 → wp (k false) (guard w Q) w3) →
    wp (userInGroup (User.id u) gid ≫= k) (guard w Q) w2).
  { intros gid w2 Hi2 Hro2 Hn Hp k Hk. eapply wp_guard_member; [done..| |done].
    intros (gid' & Hn' & Hm). exists body, gid. split; [done|]. split; [done|].
    unfold names in Hn'. rewrite Hp in Hn'. by subst. }
  destruct (begins_with (cb_group body) groupIDPrefix) eqn:Hp.
  { apply (wp_run _ _ _ _ (Some (cb_group body)) w1); [done|]. cbv iota. apply Hmember; [done|done| |done|].
    - unfold names. by rewrite Hp.
    - intros w3 _ Hro3. by apply wp_guard_failure. }
  apply wp_assoc. replace (findGroupByName (cb_group body)) with (getGroup (cb_group body))
    by (unfold getGroup; by rewrite Hp).
  eapply wp_guard_look; [done|by apply (getGroup_fed (cb_group body) w1)|]. rewrite Hp.
  intros g w2 Hi2 Hro2 _ Hg. apply (wp_run _ _ _ _ _ w2 ltac:(done)).
  destruct Hg as [(Hv & Hid & Hg)|[-> _]]; [rewrite Hv|by apply wp_guard_failure].
  assert (Hg0 : is_group w g) by by apply (read_only_directory _ _ Hro1).
  apply Hmember; [done|done| | |intros w3 _ Hro3; by apply wp_guard_failure].
  - unfold names. rewrite Hp. by exists g.
  - by apply (si_group_ids _ (fi_server _ Hi)).
Qed.
End requests.

(** * Properties *)

Section theorems.
Context `{D : Dynamo} `{P : Platform} `{PR : !Processes} `{J : !JsonParser}.
Context `{JR : !JsonReader} `{W : !Web} `{E : !Mailer} `{Y : !Yaml} `{S : !Settings}.
Context `{R : !Route53 FS} `{L : !DynamoLaws} `{DL : !DiskLaws}.

(** C9: no cluster and no group is touched before it is known that the requester may do so: a
    cluster is registered by a member of the group that is to own it, updated by a member of
    the owning group or an administrator, deleted by such a member or - with force - by an
    administrator, and a group is deleted by a member or an administrator. For everybody else
    the database stays as it was, and the request does not succeed. *)
Theorem cluster_changes_need_authority (dnsClient : DNSManipulator.t) (geocoder : Geocoder.t)
    (fuel : nat) (newID clusterID groupID : string) (req : Request) (w : World) :
  FedInv w →
  wp (createCluster dnsClient newID req)
    (guard w (made_by w (token_of req) (λ u, ∃ body gid, cluster_body_of req = inr body ∧
       names w (cb_group body) gid ∧ is_member w (User.id u) gid))) w ∧
  wp (updateCluster dnsClient geocoder clusterID req)
    (guard w (made_by w (token_of req) (λ u, owns_named w u clusterID))) w ∧
  wp (deleteCluster dnsClient fuel clusterID req)
    (guard w (made_by w (token_of req) (λ u, owning_member w clusterID u ∨
       User.admin u = true ∧ is_Some (param req "force")))) w ∧
  wp (deleteGroup dnsClient fuel groupID req)
    (guard w (made_by w (token_of req) (λ u, in_group w u groupID))) w.
Proof.
  intros Hi. split_and!; [by eapply createCluster_guarded|by eapply updateCluster_guarded
    |by eapply deleteCluster_guarded|by eapply deleteGroup_guarded].
Qed.
End theorems.
