(* ===== verification/Vault.v ===== *)
(** The federation together with the records that are kept for a group on a cluster -
    application instances, secrets and volume claims: the invariant that joins them, the
    checks that the handlers of such records begin with, and how the handlers remove and
    add them. What the three kinds of record have in common is an interface, [Ward]. *)

From S2P Require Import Prelude Text Entities Cache Dynamo Store Demo Kubernetes Listing.
From S2P Require Import Catalogue StoreGroups StoreUsers StoreMembership StoreClusters.
From S2P Require Import StoreAccess StoreInstances StoreSecrets StoreMonCreds Directory.
From S2P Require Import Federation Http UserCommands GroupCommands ClusterCommands.
From S2P Require Import SecretCommands Server Service Authorization.

(** * Records of a group on a cluster *)

Section wards.
Context `{D : Dynamo} `{P : Platform}.

(** The caches of such records, and those of the rest of the federation. *)
Definition ward_caches (w : World) := (instances w, secrets w, volumes w).
Definition estate (w : World) := (users w, groups w, clusters w).

(** A kind of record, the invariant of its table and caches, the group and the cluster a
    record is for, and the operations the handlers use; whether a removal that fails
    leaves the record as it was. *)
Class Ward (T : Type) := {
  ward_kind : Kind T;
  ward_inv : World → Prop;
  ward_group : T → string;
  ward_cluster : T → string;
  ward_valid : T → bool;
  ward_get : string → Store T;
  ward_remove : string → Store bool;
  ward_whole : bool;
}.

Definition held {T} `{!Ward T} `{!DynamoLaws} : World → T → Prop := stored ward_kind.

(** The records stay as they are. *)
Definition same_held (T : Type) `{!Ward T} `{!DynamoLaws} (w w' : World) : Prop :=
  ∀ x : T, held w' x ↔ held w x.

(** What a removal that fails may do: nothing, unless a record has parts of which some are
    gone; then there has been a failure of the service. *)
Definition spared (T : Type) `{!Ward T} `{!DynamoLaws} (id : string) (w w' : World) : Prop :=
  if ward_whole then same_held T w w' else
  (healthy (db w) → same_held T w w') ∧ (∀ x : T, held w' x → held w x) ∧
  ∀ x : T, held w x → k_id ward_kind x ≠ id → held w' x.

Class WardLaws (T : Type) `{W : !Ward T} `{!DynamoLaws} : Prop := {
  ward_kind_laws :: KindLaws ward_kind;
  ward_table : k_table ward_kind ∈ [SLATE_instances; SLATE_secrets; SLATE_volumes];
  ward_inv_same : ∀ w w', ward_inv w → table w' (k_table ward_kind) = table w (k_table ward_kind) →
    ward_caches w' = ward_caches w → ward_inv w';
  ward_norm : ∀ x, ward_group (k_norm ward_kind x) = ward_group x ∧
    ward_cluster (k_norm ward_kind x) = ward_cluster x ∧
    ward_valid (k_norm ward_kind x) = ward_valid x;
  ward_held_valid : ∀ w x, held w x → ward_valid x = true;
  ward_none_valid : ward_valid (k_none ward_kind) = false;
  ward_get_spec : ∀ id w, ward_inv w → wp (ward_get id)
    (λ r w', ward_inv w' ∧ lookup_post ward_kind id w r w') w;
  ward_get_frames : ∀ id, frame estate (ward_get id) ∧ frame fs (ward_get id);
  ward_remove_spec : ∀ id w, ward_inv w → wp (ward_remove id) (λ r w',
    ward_inv w' ∧ (healthy (db w) → healthy (db w')) ∧
    (∀ t, t ≠ k_table ward_kind → table w' t = table w t) ∧
    match r with
    | Ok true => ∀ x, held w' x ↔ held w x ∧ k_id ward_kind x ≠ id
    | Ok false => ¬ healthy (db w) ∧ spared T id w w'
    | _ => False
    end) w;
  ward_remove_frames : ∀ id, frame estate (ward_remove id) ∧ frame fs (ward_remove id);
}.
End wards.

(** * The federation with these records *)

Section vault.
Context `{D : Dynamo} `{P : Platform} `{L : !DynamoLaws} `{DL : !DiskLaws}.
Context (T : Type) `{W : !Ward T} `{WL : !WardLaws T}.


(** A record is for a group and a cluster given by their IDs; IDs of clusters have the same
    length, as [IDGenerator] makes them. *)
Record VaultInv (w : World) : Prop := {
  va_fed : FedInv w;
  va_ward : ward_inv w;
  va_groups : ∀ x, held w x → group_id (ward_group x);
  va_sizes : ∀ c c', is_cluster w c → is_cluster w c' →
    str_size (Cluster.id c) = str_size (Cluster.id c');
  va_ward_sizes : ∀ x c, held w x → is_cluster w c →
    str_size (ward_cluster x) = str_size (Cluster.id c) }.

Lemma held_tables w w' x :
  table w' (k_table ward_kind) = table w (k_table ward_kind) → held w' x ↔ held w x.
Proof. apply (stored_tables ward_kind). Qed.

Lemma read_only_held w w' x : read_only w w' → held w' x ↔ held w x.
Proof. intros Hro. apply held_tables. apply Hro. Qed.

Lemma same_is_cluster w w' : read_only w w' → same (is_cluster w) (is_cluster w').
Proof. intros Hro x. by apply read_only_is_cluster. Qed.

(** A lookup outside of the records. *)
Lemma VaultInv_read w w' : VaultInv w → FedInv w' → ward_inv w' → read_only w w' → VaultInv w'.
Proof.
  intros [H1 H2 H3 H4 H5] Hf Hs Hro. pose proof (same_is_cluster _ _ Hro) as Hc. split; try done.
  - intros s Hs'%(read_only_held w); [|done]. by apply H3.
  - intros c c' Hx%Hc Hy%Hc. by apply H4.
  - intros s c Hx%(read_only_held w) Hy%Hc; [|done]. by apply H5.
Qed.

Lemma vault_fed {A} (m : Store A) (Q : Res A → Prop) w :
  VaultInv w → frame ward_caches m → wp m (λ r w', FedInv w' ∧ read_only w w' ∧ Q r) w →
  wp m (λ r w', VaultInv w' ∧ read_only w w' ∧ Q r) w.
Proof.
  intros Hi Hf (Hi' & Hro & HQ). split; [|done]. apply (VaultInv_read w); [done..| |done].
  eapply ward_inv_same; [apply Hi|apply Hro|apply Hf].
Qed.

(** What the operations on the records leave alone. *)
Record around (w w' : World) : Prop := {
  ar_estate : estate w' = estate w;
  ar_tables : ∀ t, t ≠ k_table ward_kind → table w' t = table w t;
  ar_health : healthy (db w) → healthy (db w') }.

#[global] Instance around_preorder : PreOrder around.
Proof.
  split; [done|]. intros w1 w2 w3 [A1 A2 A3] [B1 B2 B3]. split; [congruence| |auto].
  intros t Ht. rewrite B2 by done. by apply A2.
Qed.

Lemma read_only_granted w w' c g : read_only w w' → granted w' c g ↔ granted w c g.
Proof. intros Hro. unfold granted. by rewrite (proj1 Hro). Qed.

Lemma around_inside w w' : inside w' = inside w → around w w'.
Proof.
  unfold inside. intros [= Hdb _ _ Hu Hg Hc _ _ _ _].
  split; [unfold estate; congruence|by rewrite Hdb..].
Qed.

Lemma inside_inv w w' : inside w' = inside w → ward_inv w → ward_inv w'.
Proof.
  unfold inside. intros [= Hdb _ _ _ _ _ Hi Hs Hv _] Hw.
  apply (ward_inv_same w); [done|by rewrite Hdb|unfold ward_caches; congruence].
Qed.

Lemma inside_held w w' x : inside w' = inside w → held w' x ↔ held w x.
Proof. unfold inside. intros [= Hdb _]. apply held_tables. by rewrite Hdb. Qed.

Lemma ward_other_table t :
  t ∉ [SLATE_instances; SLATE_secrets; SLATE_volumes] → t ≠ k_table ward_kind.
Proof. intros Ht ->. apply Ht, ward_table. Qed.

(** The file holds the configuration of a cluster that is cached. *)
Definition configured (w : World) (p : string) : Prop :=
  is_Some (file_contents (fs w) p) ∧
  ∃ id, is_Some (clusterCache (clusters w) !! id) ∧ clusterConfigs (clusters w) !! id = Some p.

Lemma around_federation w w' :
  FedInv w → around w w' →
  (disk_ok (fs w) → disk_ok (fs w') ∧
    ∀ p, configured w p → file_contents (fs w') p = file_contents (fs w) p) →
  FedInv w' ∧ same_federation (federation w) (federation w').
Proof.
  intros Hi [He Ht _] Hfs. unfold estate in He. injection He as Hu Hg Hc.
  pose proof Hi as [Hsi [H1 H2 H3] Ha Hp Hcr Hpr Hk]. destruct (Hfs H3) as [Hd Hfc].
  assert (Hto : ∀ t, t ∉ [SLATE_instances; SLATE_secrets; SLATE_volumes] → table w' t = table w t)
    by (intros t Hn; by apply Ht, ward_other_table).
  assert (Htc : table w' SLATE_clusters = table w SLATE_clusters) by (apply Hto; compute_done).
  assert (Htm : table w' SLATE_moncreds = table w SLATE_moncreds) by (apply Hto; compute_done).
  destruct (ServerInv_kept w w') as [Hs' Hsd];
    [split; rewrite ?Hu, ?Hg; try done; apply Hto; compute_done|done|].
  split; [split|split; [done|split_and!]].
  - done.
  - split; [by rewrite Hc, Htc| |done]. intros k r. rewrite Hc. intros Hr.
    destruct (H2 k r Hr) as (path & Hpath & Hcont). exists path.
    rewrite Hfc; [done|]. split; [by eexists|]. exists k. split; [by eexists|done].
  - eapply AccessInv_kept; [done|by unfold access_cache; rewrite Hc|].
    intros c g _. unfold granted. by rewrite Htc.
  - eapply AppsInv_kept; [done|by unfold application_cache; rewrite Hc|].
    intros c g. unfold applications_row. by rewrite Htc.
  - unfold CredsInv. by rewrite Htm.
  - intros x. unfold is_cluster. rewrite Htc. apply Hpr.
  - intros x. unfold stored_cred. rewrite Htm. apply Hk.
  - intros x. simpl. unfold is_cluster. by rewrite Htc.
  - intros c g _. simpl. unfold granted. by rewrite Htc.
  - intros c g _ _. simpl. unfold applications, applications_row. by rewrite Htc.
Qed.

Lemma around_is_cluster w w' : around w w' → same (is_cluster w) (is_cluster w').
Proof.
  intros Ha x. unfold is_cluster. rewrite (ar_tables _ _ Ha); [done|].
  apply ward_other_table. compute_done.
Qed.

(** A lookup of records. *)
Lemma vault_wards {A} (m : Store A) (Q : Res A → Prop) w :
  VaultInv w → wp m (λ r w', ward_inv w' ∧ read_only w w' ∧ Q r) w →
  frame estate m → frame fs m →
  wp m (λ r w', VaultInv w' ∧ read_only w w' ∧ Q r) w.
Proof.
  intros Hi (Hs & Hro & HQ) He Hf. split; [|done]. apply (VaultInv_read w); [done| |done..].
  apply (around_federation w); [apply Hi|split; [apply He|intros t _; apply Hro|apply Hro]|].
  by rewrite (Hf w).
Qed.

(** The cluster of the argument is told from those of the records. *)
Lemma contains_same_size sub x :
  str_contains sub x = true → str_size x = str_size sub → x = sub.
Proof.
  unfold str_contains. intros Hc Hs. destruct (String.index 0 sub x) as [n|] eqn:Hn; [|done].
  pose proof (String.index_correct1 0 n sub x Hn) as Hsub. clear Hc.
  assert (Hn0 : n = 0 ∨ str_size sub = 0).
  { destruct n as [|n]; [by left|right].
    assert (Hgen : ∀ n m t, str_size (String.substring n m t) ≤ str_size t - n).
    { clear. induction n as [|n IH]; intros m t.
      - revert t. induction m as [|m IHm]; intros [|c t]; simpl; try lia. specialize (IHm t). lia.
      - destruct t as [|c t]; simpl; [lia|]. apply IH. }
    specialize (Hgen (S n) (str_size sub) x). rewrite Hsub in Hgen. lia. }
  destruct Hn0 as [->|H0].
  - rewrite <- Hs in Hsub. rewrite <- Hsub. clear. induction x as [|c x IH]; [done|].
    simpl. by rewrite <- IH.
  - destruct sub; [|done]. by destruct x.
Qed.

Lemma vault_distinct w c :
  VaultInv w → is_cluster w c → distinct_cluster_ids ward_kind ward_cluster w (Cluster.id c).
Proof.
  intros Hi Hc _ s Hs Hcont. apply contains_same_size; [done|].
  by apply (va_ward_sizes _ Hi).
Qed.

(** ** Requests about the records *)

(** The postconditions of this file hold of whatever is no success, as long as nothing has
    been changed since [w0]. *)
Definition tolerates (w0 : World) (Q : Res Response → World → Prop) : Prop :=
  ∀ r w, VaultInv w → read_only w0 w → ¬ succeeded r → Q r w.

Lemma tolerates_failure w0 Q w n msg :
  tolerates w0 Q → VaultInv w → read_only w0 w → n ≠ 200%Z → wp (mret (failure n msg)) Q w.
Proof. intros Ht Hi Hro Hn. apply wp_ret, Ht; [done..|]. by intros [content [= ? _]]. Qed.

Section steps.
Context (w0 : World) (Q : Res Response → World → Prop) (HQ : tolerates w0 Q).

(** A lookup in the middle of a handler. *)
Lemma wp_vault {A} (m : Store A) (R : Res A → Prop) (k : A → Store Response) w :
  read_only w0 w → wp m (λ r w', VaultInv w' ∧ read_only w w' ∧ R r) w →
  (∀ a w', VaultInv w' → read_only w0 w' → read_only w w' → R (Ok a) → wp (k a) Q w') →
  wp (m ≫= k) Q w.
Proof.
  intros Hro Hm Hk. eapply wp_seq; [exact Hm| | |].
  - intros a w' (Hi & Hro' & HR). apply Hk; [done| |done..]. by etrans.
  - intros e w' (Hi & Hro' & _). apply HQ; [done|by etrans|by intros [? [=]]].
  - intros w' (Hi & Hro' & _). apply HQ; [done|by etrans|by intros [? [=]]].
Qed.

Lemma wp_vault_user code msg token (k : User.t → Store Response) w :
  VaultInv w → read_only w0 w →
  code ≠ 200%Z → (∀ u w', requester w0 token u → User.id u ≠ "" → VaultInv w' → read_only w0 w' → wp (k u) Q w') →
  wp (user ← authenticateUser token;
      if negb (User.valid user) then mret (failure code msg) else k user) Q w.
Proof.
  intros Hi Hro Hcode Hk. eapply wp_vault; [done|apply vault_fed; [done| |by apply authenticateUser_fed, va_fed]|].
  { unfold authenticateUser, findUserByToken, cache_user. solve_frame. }
  intros u w' Hi' Hro0 Hro' (u' & [= <-] & Hv & _).
  destruct (User.valid u); simpl; [|by apply (tolerates_failure w0)].
  pose proof (Hv eq_refl) as Hu. apply Hk; [|by eapply requester_id, Hu; apply va_fed|done..].
  destruct Hu as [Hu Ht]. split; [|done]. by apply (read_only_directory _ _ Hro).
Qed.

Lemma wp_vault_group code msg idOrName (k : Group.t → Store Response) w :
  VaultInv w → read_only w0 w →
  code ≠ 200%Z → (∀ g w', is_group w0 g → names w0 idOrName (Group.id g) → group_id (Group.id g) →
     VaultInv w' → read_only w0 w' → wp (k g) Q w') →
  wp (group ← getGroup idOrName;
      if negb (Group.valid group) then mret (failure code msg) else k group) Q w.
Proof.
  intros Hi Hro Hcode Hk. eapply wp_vault; [done|apply vault_fed; [done| |by apply getGroup_fed, va_fed]|].
  { unfold getGroup, findGroupByID, findGroupByName, cache_group. solve_frame. }
  intros g w' Hi' Hro0 Hro' [(Hv & Hid & Hg)|[-> _]]; [rewrite Hv|by apply (tolerates_failure w0)].
  assert (Hg0 : is_group w0 g) by by apply (read_only_directory _ _ Hro).
  apply Hk; try done.
  - unfold names. case_match; [done|]. by exists g.
  - apply (si_group_ids _ (fi_server _ (va_fed _ Hi))). done.
Qed.

Lemma wp_vault_cluster code msg idOrName (k : Cluster.t → Store Response) w :
  VaultInv w → read_only w0 w →
  code ≠ 200%Z → (∀ c w', is_cluster w0 c → cluster_names w0 idOrName (Cluster.id c) →
     VaultInv w' → read_only w0 w' → wp (k c) Q w') →
  wp (cluster ← getCluster idOrName;
      if negb (Cluster.valid cluster) then mret (failure code msg) else k cluster)
    Q w.
Proof.
  intros Hi Hro Hcode Hk. eapply wp_vault; [done|apply vault_fed; [done| |by apply getCluster_fed, va_fed]|].
  { unfold getCluster, findClusterByID, findClusterByName, cache_cluster, writeClusterConfigToDisk.
    solve_frame. }
  intros c w' Hi' Hro0 Hro' [(Hv & Hc & Hn)|[-> _]]; [rewrite Hv|by apply (tolerates_failure w0)].
  assert (Hs : same (is_cluster w) (is_cluster w0)).
  { intros x. symmetry. by apply read_only_is_cluster. }
  apply Hk; [by apply Hs|by eapply cluster_names_same|done..].
Qed.

Lemma wp_vault_get id msg (k : T → Store Response) w :
  VaultInv w → read_only w0 w →
  (∀ x w', held w0 (k_norm ward_kind x) → k_id ward_kind x = id → VaultInv w' → read_only w0 w' →
     wp (k x) Q w') →
  wp (x ← ward_get id;
      if negb (ward_valid x) then mret (failure 404 msg) else k x) Q w.
Proof.
  intros Hi Hro Hk. destruct (ward_get_frames id) as [He Hf].
  eapply wp_vault; [done|apply vault_wards; [done| |done..]|].
  { eapply wp_mono, ward_get_spec, Hi. intros r w' (Hw & _ & Hr & Hx). split_and!; [done..|]. exact Hx. }
  intros s w' Hi' Hro0 Hro' [[Hid Hs]|[-> _]].
  2: { rewrite ward_none_valid. by apply (tolerates_failure w0). }
  rewrite <- (proj2 (proj2 (ward_norm s))), (ward_held_valid w) by done. apply Hk; try done.
  by apply (read_only_held w0 w).
Qed.

(** Only members go on. *)
Lemma wp_vault_member code msg u g (k : Store Response) w :
  VaultInv w → read_only w0 w → code ≠ 200%Z → User.id u ≠ "" → group_id g →
  (∀ w', is_member w0 (User.id u) g → VaultInv w' → read_only w0 w' → wp k Q w') →
  wp (member ← userInGroup (User.id u) g;
      if negb member then mret (failure code msg) else k) Q w.
Proof.
  intros Hi Hro Hcode Hu Hg Hk.
  eapply wp_vault; [done|apply vault_fed; [done| |apply userInGroup_fed; [by apply va_fed|done]]|].
  { unfold userInGroup, normalizeGroupID, findGroupByName, cache_group, cache_member. solve_frame. }
  intros b w' Hi' Hro0 Hro' (b' & [= <-] & Hb). destruct b; simpl; [|by apply (tolerates_failure w0)].
  destruct (Hb eq_refl) as (gid & Hn & Hm). unfold names in Hn. rewrite (proj1 Hg) in Hn. subst gid.
  apply Hk; [|done..]. by apply (read_only_directory _ _ Hro).
Qed.

End steps.
End vault.

Arguments va_fed {H D P L DL T W} {w} _.
Arguments va_ward {H D P L DL T W} {w} _.
Arguments va_groups {H D P L DL T W} {w} _ _ _.
Arguments va_sizes {H D P L DL T W} {w} _ _ _ _ _.
Arguments va_ward_sizes {H D P L DL T W} {w} _ _ _ _ _.
Arguments ar_estate {H D P L T W w w'} _.
Arguments ar_tables {H D P L T W w w'} _ _ _.
Arguments ar_health {H D P L T W w w'} _ _.
