(* ===== verification/Custody.v ===== *)
(** How the handlers remove the records that are kept for a group on a cluster, and add
    them: what is common to src/SecretCommands.cpp, src/VolumeClaimCommands.cpp and
    src/ApplicationInstanceCommands.cpp. A record is in the store and in Kubernetes; the
    tools act on the latter, and change nothing inside the server. *)

From S2P Require Import Prelude Text Entities Cache Dynamo Store Demo Kubernetes Listing.
From S2P Require Import Catalogue StoreGroups StoreUsers StoreMembership StoreClusters.
From S2P Require Import StoreAccess StoreInstances StoreSecrets StoreMonCreds Directory.
From S2P Require Import Federation Http UserCommands GroupCommands ClusterCommands.
From S2P Require Import Server Service Authorization Vault.

Section custody.
Context `{D : Dynamo} `{P : Platform} `{PR : !Processes}.
Context `{L : !DynamoLaws} `{DL : !DiskLaws} `{PL : !ProcessLaws}.
Context (T : Type) `{W : !Ward T} `{WL : !WardLaws T}.

(** * Asking and telling the tools *)

(** A computation that ends, and changes neither the database nor the server's files. *)
Definition inquires {A} (m : Store A) : Prop := ∀ w, VaultInv T w →
  wp m (λ r w', VaultInv T w' ∧ read_only w w' ∧ r ≠ OutOfFuel) w.

Lemma inquires_ret {A} (a : A) : inquires (mret a).
Proof. intros w Hi. by split_and!. Qed.

Lemma inquires_throw {A} e : inquires (throw e : Store A).
Proof. intros w Hi. by split_and!. Qed.

Lemma inquires_bind {A B} (m : Store A) (k : A → Store B) :
  inquires m → (∀ a, inquires (k a)) → inquires (m ≫= k).
Proof.
  intros Hm Hk w Hi. eapply wp_seq; [by apply Hm| | |].
  - intros a w1 (Hi1 & Hro & _). eapply wp_mono, (Hk a w1 Hi1).
    intros r w2 (? & ? & ?). split_and!; [done|by etrans|done].
  - intros e w1 (? & ? & _). by split_and!.
  - by intros w1 (_ & _ & []).
Qed.

Lemma inquires_try {A} (m : Store A) h :
  inquires m → (∀ e, inquires (h e)) → inquires (try_catch m h).
Proof.
  intros Hm Hh w Hi. pose proof (Hm w Hi) as Hw. unfold wp, try_catch in *.
  destruct (m w) as [[a|e|] w1]; simpl in *; [done| |by destruct Hw as (_ & _ & [])].
  destruct Hw as (Hi1 & Hro1 & _). destruct (runtime_error e); [|by split_and!].
  destruct (Hh e w1 Hi1) as (? & ? & ?). split_and!; [done|by etrans|done].
Qed.

(** What of a state bears on the federation and the records. *)
Definition essence (w : World) := (db w, estate w, ward_caches w).

Lemma frame_essence {A} (m : Store A) : frame inside m → frame essence m.
Proof.
  intros Hm w. specialize (Hm w). unfold inside in Hm. injection Hm as Hdb _ _ Hu Hg Hc Hi Hs Hv _.
  unfold essence, estate, ward_caches. congruence.
Qed.

Lemma frame_estate {A} (m : Store A) : frame inside m → frame estate m.
Proof. intros Hm w. exact (f_equal (λ p, p.1.2) (frame_essence m Hm w)). Qed.

Lemma essence_parts w w' : essence w' = essence w →
  db w' = db w ∧ estate w' = estate w ∧ ward_caches w' = ward_caches w.
Proof.
  intros He. split; [exact (f_equal (λ p, p.1.1) He)|].
  split; [exact (f_equal (λ p, p.1.2) He)|exact (f_equal snd He)].
Qed.

Lemma essence_read w w' : essence w' = essence w → read_only w w'.
Proof. intros (Hdb & _)%essence_parts. split; by rewrite Hdb. Qed.

Lemma VaultInv_essence w w' :
  VaultInv T w → essence w' = essence w →
  (disk_ok (fs w) → disk_ok (fs w') ∧
    ∀ p, configured w p → file_contents (fs w') p = file_contents (fs w) p) →
  VaultInv T w'.
Proof.
  intros Hi (Hdb & He & Hc)%essence_parts Hfs. assert (Hro : read_only w w') by (split; by rewrite Hdb).
  apply (VaultInv_read T w); [done|apply (around_federation T w); [apply Hi| |done]| |done].
  - split; [done|by rewrite Hdb..].
  - eapply ward_inv_same; [apply Hi|by rewrite Hdb|done].
Qed.

(** The tools act outside of the process, and leave the server's files. *)
Lemma inquires_outside {A} (m : Store A) :
  frame essence m → tidy [] (λ _, true) m → (∀ w, (m w).1 ≠ OutOfFuel) → inquires m.
Proof.
  intros Hf Ht He w Hi. pose proof (Hf w) as Hw. split; [|split; [|apply He]].
  - apply (VaultInv_essence w); [done..|]. intros Hd. destruct (Ht w Hd) as [? Hp]. split; [done|].
    intros p _. apply Hp; [by case_match|apply not_elem_of_nil].
  - by apply essence_read.
Qed.

Lemma inquires_kubectl configPath args : inquires (kubectl configPath args).
Proof.
  apply inquires_outside; [apply frame_essence, frame_kubectl|apply tidy_kubectl|intros w; apply kubectl_ends].
Qed.

Lemma inquires_run command args env : inquires (run command args env).
Proof. apply inquires_outside; [apply frame_essence, frame_run|apply tidy_run|apply run_ends]. Qed.

Lemma inquires_getHelmMajorVersion : inquires getHelmMajorVersion.
Proof.
  apply inquires_outside; [apply frame_essence, frame_getHelmMajorVersion|apply tidy_getHelmMajorVersion
    |apply getHelmMajorVersion_ends].
Qed.

Lemma inquires_helm configPath tiller args : inquires (helm configPath tiller args).
Proof. apply inquires_outside; [apply frame_essence, frame_helm|apply tidy_helm|apply helm_ends]. Qed.

Lemma inquires_asserted {A} (o : option A) : inquires (asserted o).
Proof. destruct o; [apply inquires_ret|apply inquires_throw]. Qed.

(** The lookups of the federation. *)
Lemma inquires_fed {A} (m : Store A) (Q : World → Res A → Prop) :
  frame ward_caches m → (∀ w r, Q w r → r ≠ OutOfFuel) →
  (∀ w, FedInv w → wp m (λ r w', FedInv w' ∧ read_only w w' ∧ Q w r) w) → inquires m.
Proof.
  intros Hf HQ Hm w Hi. eapply wp_mono, (vault_fed T m (Q w)); [|done..|by apply Hm, Hi].
  intros r w' (? & ? & Hr). split_and!; [done..|by eapply HQ].
Qed.

Lemma inquires_findGroupByID id : inquires (findGroupByID id).
Proof.
  eapply inquires_fed; [| |intros w Hi; by apply findGroupByID_fed].
  - unfold findGroupByID, cache_group. solve_frame.
  - simpl. intros w r Hr ->. exact Hr.
Qed.

Lemma inquires_getGroup idOrName : inquires (getGroup idOrName).
Proof.
  eapply inquires_fed; [| |intros w Hi; by apply getGroup_fed].
  - unfold getGroup, findGroupByID, findGroupByName, cache_group. solve_frame.
  - simpl. intros w r Hr ->. exact Hr.
Qed.

Lemma inquires_getCluster idOrName : inquires (getCluster idOrName).
Proof.
  eapply inquires_fed; [| |intros w Hi; by apply getCluster_fed].
  - unfold getCluster, findClusterByID, findClusterByName, cache_cluster, writeClusterConfigToDisk.
    solve_frame.
  - simpl. intros w r Hr ->. exact Hr.
Qed.

Lemma configPathForCluster_fed c w :
  FedInv w → wp (configPathForCluster c) (λ r w', FedInv w' ∧ read_only w w' ∧ match r with
    | Ok path => True
    | Throw e => healthy (db w) → ∀ x, is_cluster w x → Cluster.id x ≠ c
    | OutOfFuel => False
    end) w.
Proof.
  intros Hi. apply fed_cluster_lookup; [done| |..].
  - eapply wp_mono, configPathForCluster_spec, fi_clusters, Hi.
    intros r w' (Hc & Hro & Hr). split_and!; [done..|]. destruct r; [done|apply Hr|done].
  - unfold configPathForCluster, findClusterByID. solve_frame; apply cache_cluster_frames.
  - unfold configPathForCluster, findClusterByID. solve_frame; apply cache_cluster_frames.
  - unfold configPathForCluster, findClusterByID. solve_frame; apply cache_cluster_frames.
  - unfold configPathForCluster, findClusterByID. solve_frame; apply cache_cluster_frames.
Qed.

Lemma configPathForCluster_frame c : frame ward_caches (configPathForCluster c).
Proof.
  unfold configPathForCluster, findClusterByID, cache_cluster, writeClusterConfigToDisk. solve_frame.
Qed.

Lemma inquires_configPathForCluster c : inquires (configPathForCluster c).
Proof.
  eapply inquires_fed; [apply configPathForCluster_frame| |intros w Hi; by apply configPathForCluster_fed].
  simpl. intros w r Hr ->. exact Hr.
Qed.

(** The items of a listing, each of which is asked for. *)
Lemma items_spec {A B} (f : A → Store B) (R : A → B → Prop) l w :
  (∀ x, inquires (f x)) → (∀ x w b, (f x w).1 = Ok b → R x b) → VaultInv T w →
  wp (for_collect l f) (λ r w', VaultInv T w' ∧ read_only w w' ∧
    ∀ items, r = Ok items → Forall2 R l items) w.
Proof.
  intros Hinq Hres. revert w. induction l as [|x l IH]; intros w Hi; cbn [for_collect].
  { apply wp_ret. split; [done|]. split; [done|]. intros items [= <-]. constructor. }
  eapply wp_seq; [by apply wp_result, Hinq| | |].
  2: { intros e w1 ((Hi1 & Hro1 & _) & _). split; [done|]. by split. }
  2: { by intros w1 ((_ & _ & []) & _). }
  intros item w1 ((Hi1 & Hro1 & _) & Hr). symmetry in Hr. apply Hres in Hr.
  eapply wp_seq; [by apply IH| | |].
  - intros items w2 (Hi2 & Hro2 & Hf). apply wp_ret. split; [done|]. split; [by etrans|].
    intros items' [= <-]. constructor; [done|]. by apply Hf.
  - intros e w2 (Hi2 & Hro2 & _). split; [done|]. split; [by etrans|done].
  - intros w2 (Hi2 & Hro2 & _). split; [done|]. split; [by etrans|done].
Qed.

(** What a request does that only reads; [ok] holds of what it discloses. *)
Definition reads (w : World) (ok : option Json → Prop) (r : Res Response) (w' : World) : Prop :=
  VaultInv T w' ∧ read_only w w' ∧ ∀ content, r = Ok (Reply 200 content) → ok content.

Lemma reads_tolerates w ok : tolerates T w (reads w ok).
Proof.
  intros r w' Hi Hro Hn. split; [done|]. split; [done|]. intros content ->.
  by destruct Hn; exists content.
Qed.

(** * Removing a record *)

(** What a command may do to the records; the rest of the federation stays. *)
Definition vault_step (w w' : World) : Prop :=
  VaultInv T w' ∧ (healthy (db w) → healthy (db w')) ∧
  same_federation (federation w) (federation w').

Lemma vault_step_read w w' : VaultInv T w' → read_only w w' → vault_step w w'.
Proof. intros Hi Hro. split; [done|]. split; [apply Hro|by apply read_only_federation]. Qed.

Lemma vault_step_trans w w1 w2 : read_only w w1 → vault_step w1 w2 → vault_step w w2.
Proof.
  intros Hro (Hi & Hh & Hs). split; [done|]. split; [intros ?; by apply Hh, Hro|].
  etrans; [by apply read_only_federation|done].
Qed.

(** The records stay as they are, or lose one. *)
Local Abbreviation same_held := (same_held T).
Local Abbreviation spared := (spared T).

Lemma same_held_read w w' : read_only w w' → same_held w w'.
Proof. intros Hro x. by apply read_only_held. Qed.

Lemma spared_same id w w' : same_held w w' → spared id w w'.
Proof.
  intros Hs. unfold Vault.spared. destruct ward_whole; [done|].
  split; [done|]. split; intros x ?; [by apply Hs|intros _; by apply Hs].
Qed.

Lemma spared_sub id w w' x : spared id w w' → held w' x → held w x.
Proof.
  unfold Vault.spared. destruct ward_whole; [intros Hs ?; by apply Hs|]. intros (_ & Hs & _). apply Hs.
Qed.

Lemma spared_keeps id w w' x : spared id w w' → held w x → k_id ward_kind x ≠ id → held w' x.
Proof.
  unfold Vault.spared. destruct ward_whole; [intros Hs ? _; by apply Hs|]. intros (_ & _ & Hs). apply Hs.
Qed.

Lemma spared_before id w0 w w' :
  (healthy (db w0) → healthy (db w)) → same_held w0 w → spared id w w' → spared id w0 w'.
Proof.
  intros Hd Hr. unfold Vault.spared. destruct ward_whole; [intros Hs x; by rewrite (Hs x)|].
  intros (Hh & Hs & Hk). split_and!.
  - intros Hd0 x. rewrite (Hh (Hd Hd0) x). apply Hr.
  - intros x Hx. by apply Hr, Hs.
  - intros x Hx Hne. apply Hk; [by apply Hr|done].
Qed.

Lemma spared_read id w0 w w' : read_only w0 w → spared id w w' → spared id w0 w'.
Proof. intros Hro. apply spared_before; [apply Hro|by apply same_held_read]. Qed.

Lemma spared_after id w w1 w2 : same_held w1 w2 → spared id w w1 → spared id w w2.
Proof.
  intros Hr. unfold Vault.spared. destruct ward_whole; [intros Hs x; by rewrite (Hr x)|].
  intros (Hh & Hs & Hk). split_and!.
  - intros Hd x. rewrite (Hr x). by apply Hh.
  - intros x Hx. by apply Hs, Hr.
  - intros x Hx Hne. apply Hr. by apply Hk.
Qed.

Definition removed_from (id : string) (w : World) (r : Res bool) (w' : World) : Prop :=
  match r with
  | Ok true => ∀ x, held w' x ↔ held w x ∧ k_id ward_kind x ≠ id
  | Ok false => ¬ healthy (db w) ∧ spared id w w'
  | _ => False
  end.

Lemma remove_around id w :
  ward_inv w → wp (ward_remove id)
    (λ r w', (around T w w' ∧ fs w' = fs w ∧ ward_inv w') ∧ removed_from id w r w') w.
Proof.
  intros Hi. destruct (ward_remove_spec id w Hi) as (Hs & Hh & Ht & Hr).
  destruct (ward_remove_frames id) as [He Hf]. split; [|done]. split; [|split; [apply Hf|done]].
  split; [apply He|done..].
Qed.

(** Records removed, and files as before. *)
Lemma VaultInv_around w w' :
  VaultInv T w → around T w w' → ward_inv w' → (∀ x, held w' x → held w x) →
  (disk_ok (fs w) → disk_ok (fs w') ∧
    ∀ p, configured w p → file_contents (fs w') p = file_contents (fs w) p) →
  vault_step w w'.
Proof.
  intros Hi Ha Hs Hsub Hfs. destruct (around_federation T w w') as [Hf Hsf]; [apply Hi|done..|].
  pose proof (around_is_cluster T _ _ Ha) as Hc.
  split; [|split; [apply Ha|done]]. destruct Hi as [H1 H2 H3 H4 H5]. split; try done.
  - intros s Hx%Hsub. by apply H3.
  - intros c c' Hx%Hc Hy%Hc. by apply H4.
  - intros s c Hx%Hsub Hy%Hc. by apply H5.
Qed.

Lemma removed_sub id w r w' : removed_from id w r w' → ∀ x, held w' x → held w x.
Proof.
  destruct r as [[]| |]; [|..|done|done]; intros Hr x; [by intros [? _]%Hr|].
  apply (spared_sub id), Hr.
Qed.

Lemma removed_after id w r w1 w2 :
  same_held w1 w2 → removed_from id w r w1 → removed_from id w r w2.
Proof.
  intros Hs. destruct r as [[]| |]; [| |done..].
  - intros Hr x. rewrite (Hs x). apply Hr.
  - intros [Hd Hr]. split; [done|by apply (spared_after id w w1)].
Qed.

Lemma removed_before id w w1 r w2 :
  (healthy (db w) → healthy (db w1)) → same_held w w1 → removed_from id w1 r w2 →
  removed_from id w r w2.
Proof.
  intros Hd Hs. destruct r as [[]| |]; [| |done..].
  - intros Hr x. rewrite (Hr x). by rewrite (Hs x).
  - intros [Hn Hr]. split; [auto|by apply (spared_before id w w1)].
Qed.

Lemma removed_keeps id w r w' x :
  removed_from id w r w' → held w x → k_id ward_kind x ≠ id → held w' x.
Proof.
  destruct r as [[]| |]; [|..|done|done]; intros Hr Hx Hne; [by apply Hr|].
  by apply (spared_keeps id w), Hne; [apply Hr|].
Qed.

Lemma remove_vault id w :
  VaultInv T w → wp (ward_remove id) (λ r w', vault_step w w' ∧ removed_from id w r w') w.
Proof.
  intros Hi. eapply wp_mono, remove_around, Hi. intros r w' ((Ha & Hfs & Hs) & Hr).
  split; [|done]. apply VaultInv_around; [done..|by eapply removed_sub|by rewrite Hfs].
Qed.

(** The result of the internal functions that delete a record: the message of the error. *)
Definition deleted_post (id : string) (w : World) (r : Res string) (w' : World) : Prop :=
  vault_step w w' ∧
  match r with
  | Ok err => if str_empty err then ∀ x, held w' x ↔ held w x ∧ k_id ward_kind x ≠ id
              else spared id w w'
  | Throw _ => same_held w w'
  | OutOfFuel => False
  end.

(** First Kubernetes, then - if that went well, or need not - the store. *)
Lemma remove_after_spec (unlink : Store string) id msg w :
  inquires unlink → msg ≠ "" → VaultInv T w →
  wp (err ← unlink;
      if negb (str_empty err) then mret err else
      success ← ward_remove id;
      mret (if negb success then msg else "")) (deleted_post id w) w.
Proof.
  intros Hu Hm Hi. eapply wp_seq; [by apply Hu| | |].
  2: { intros e w1 (Hi1 & Hro & _). split; [by apply vault_step_read|by apply same_held_read]. }
  2: { by intros w1 (_ & _ & []). }
  intros err w1 (Hi1 & Hro & _). destruct (str_empty err) eqn:He; simpl.
  2: { apply wp_ret. split; [by apply vault_step_read|]. rewrite He.
       by apply spared_same, same_held_read. }
  eapply wp_seq; [by apply remove_vault| |by intros e w2 (_ & [])|by intros w2 (_ & [])].
  intros b w2 (Hst & Hb). apply wp_ret. split; [by eapply vault_step_trans|]. destruct b; simpl.
  - intros x. etrans; [apply Hb|]. by rewrite (read_only_held T w w1).
  - destruct msg; [done|]. simpl. by apply (spared_read id w w1), Hb.
Qed.

(** ** Requests to delete a record *)

(** The requester may delete the record: [may] says on what grounds. *)
Definition delete_post (may : World → User.t → T → Prop) (id : string) (token : option string)
    (w : World) (r : Res Response) (w' : World) : Prop :=
  vault_step w w' ∧
  match r with
  | Ok (Reply 200 _) => ∃ u x, requester w token u ∧ held w (k_norm ward_kind x) ∧
      k_id ward_kind x = id ∧ may w u x ∧ ∀ y, held w' y ↔ held w y ∧ k_id ward_kind y ≠ id
  | _ => spared id w w'
  end.

Lemma delete_post_tolerates may id token w : tolerates T w (delete_post may id token w).
Proof.
  intros r w' Hi Hro Hn. split; [by apply vault_step_read|].
  pose proof (spared_same id _ _ (same_held_read _ _ Hro)) as Hs.
  destruct r as [[n content|]| |]; try done.
  destruct (decide (n = 200%Z)) as [->|Hne]; [by destruct Hn; exists content|].
  by repeat case_match.
Qed.

Lemma wp_delete_reply may id token u x (delete : Store string) w0 w :
  requester w0 token u → held w0 (k_norm ward_kind x) → k_id ward_kind x = id → may w0 u x →
  VaultInv T w → read_only w0 w → wp delete (deleted_post id w) w →
  wp (err ← delete;
      if negb (str_empty err) then mret (failure 500 err) else mret done_reply)
    (delete_post may id token w0) w.
Proof.
  intros Hu Hx Hid Hm Hi Hro Hd. eapply wp_seq; [exact Hd| | |].
  - intros err w1 (Hst & Hr). destruct (str_empty err) eqn:He; simpl; apply wp_ret.
    + split; [by eapply vault_step_trans|]. exists u, x. split_and!; [done..|].
      intros y. etrans; [apply Hr|]. by rewrite (read_only_held T w0 w).
    + split; [by eapply vault_step_trans|]. by apply (spared_read id w0 w).
  - intros e w1 (Hst & Hr). split; [by eapply vault_step_trans|].
    by apply (spared_read id w0 w), spared_same.
  - by intros w1 (_ & []).
Qed.

(** * Adding a record *)

Definition added (x : T) (w w' : World) : Prop :=
  ∀ y, held w' y ↔ y = k_norm ward_kind x ∨ held w y.

(** Nothing is done but adding it, at most. *)
Definition within (x : T) (w w' : World) : Prop :=
  (∀ y, held w' y → y = k_norm ward_kind x ∨ held w y) ∧ ∀ y, held w y → held w' y.

Lemma within_added x w w' : added x w w' → within x w w'.
Proof. intros Hs. split; intros y; rewrite (Hs y); auto. Qed.

Lemma within_same x w w' : same_held w w' → within x w w'.
Proof. intros Hs. split; intros y ?; [right|]; by apply Hs. Qed.

(** What an attempt to add it may do that fails: nothing, on a service that is available. *)
Definition attempted (x : T) (w w' : World) : Prop :=
  (healthy (db w) → same_held w w') ∧ within x w w'.

Lemma attempted_same x w w' : same_held w w' → attempted x w w'.
Proof. intros Hs. split; [done|by apply within_same]. Qed.

(** A record that is fit to be added: with a new ID, for a group, and a cluster by an ID of
    the common length. *)
Record fresh (w : World) (x : T) : Prop := {
  fr_id : k_id ward_kind x ≠ k_id ward_kind (k_none ward_kind) ∧
    ∀ y, held w y → k_id ward_kind y ≠ k_id ward_kind x;
  fr_group : group_id (ward_group x);
  fr_cluster : ∀ c, is_cluster w c → str_size (ward_cluster x) = str_size (Cluster.id c) }.

Lemma fresh_at w x c :
  VaultInv T w → k_id ward_kind x ≠ k_id ward_kind (k_none ward_kind) →
  (∀ y, held w y → k_id ward_kind y ≠ k_id ward_kind x) → group_id (ward_group x) →
  is_cluster w c → ward_cluster x = Cluster.id c → fresh w x.
Proof.
  intros Hi Hid Hnew Hg Hc Heq. split; [done|done|]. intros c' Hc'. rewrite Heq.
  by apply (va_sizes Hi).
Qed.

(** It is added and then removed again. *)
Lemma attempted_removed x w w1 r w2 :
  fresh w x → (healthy (db w) → healthy (db w1)) → added x w w1 →
  removed_from (k_id ward_kind x) w1 r w2 → attempted x w w2.
Proof.
  intros Hf Hh Ha Hr. split; [|split].
  - intros Hd y. destruct r as [[]| |]; [| |done..].
    + etrans; [apply Hr|]. rewrite (Ha y). split; [intros [[->|?] Hne]; [|done]|].
      { by rewrite kind_norm_id in Hne. }
      intros Hold. split; [by right|]. by apply (fr_id _ _ Hf).
    + destruct Hr as [Hu _]. destruct Hu. by apply Hh.
  - intros y Hy%(removed_sub _ _ _ _ Hr). by apply Ha.
  - intros y Hy. apply (removed_keeps _ _ _ _ _ Hr); [apply Ha; by right|]. by apply (fr_id _ _ Hf).
Qed.

(** What adding to the store comes to, if it does not throw. *)
Definition kept_post (x : T) (w : World) (r : Res bool) (w' : World) : Prop :=
  ward_inv w' ∧ (healthy (db w) → healthy (db w')) ∧
  (∀ t, t ≠ k_table ward_kind → table w' t = table w t) ∧
  ∃ b, r = Ok b ∧ if b : bool then added x w w' else attempted x w w'.

Lemma kept_written x w r w' :
  fresh w x → write_post ward_kind x w r w' → ward_inv w' → kept_post x w r w'.
Proof.
  intros Hf (_ & Hh & Ht & Hr) Hi. split_and!; [done..|].
  destruct r as [[]| |]; [| |done..]; eexists; (split; [done|]).
  - intros y. etrans; [apply Hr|]. split; [intros [?|[? _]]; auto|]. intros [?|Hy]; [by left|].
    right. split; [done|]. by apply (fr_id _ _ Hf).
  - apply attempted_same. intros y. by apply Hr.
Qed.

Lemma add_vault (add : Store bool) x w :
  VaultInv T w → fresh w x → wp add (kept_post x w) w → frame estate add → frame fs add →
  wp add (λ r w', vault_step w w' ∧ ∃ b, r = Ok b ∧
    if b : bool then added x w w' else attempted x w w') w.
Proof.
  intros Hi Hf (Hs & Hh & Ht & b & Hr & Hb) He Hfs. split; [|by exists b].
  set (w' := (add w).2) in *.
  assert (Ha : around T w w') by (by split; [apply He|..]).
  destruct (around_federation T w w') as [Hfed Hsf];
    [apply Hi|done|by unfold w'; rewrite (Hfs w)|].
  pose proof (around_is_cluster T _ _ Ha) as Hc.
  assert (Hsub : ∀ y, held w' y → y = k_norm ward_kind x ∨ held w y).
  { intros y Hy. destruct b; by apply Hb. }
  split; [|by split]. destruct Hi as [H1 H2 H3 H4 H5]. destruct Hf as [_ Hg Hsz].
  destruct (ward_norm x) as (Hng & Hnc & _). split; try done.
  - intros y [->|Hy]%Hsub; [by rewrite Hng|by apply H3].
  - intros c c' Hx%Hc Hy%Hc. by apply H4.
  - intros y c [->|Hy]%Hsub Hcl%Hc; [rewrite Hnc; by apply Hsz|by apply H5].
Qed.

(** ** What is put into Kubernetes *)

Section installing.
Context {A : Type} (alive kept : A → bool).

(** A step that adds nothing but removes the record [x] when Kubernetes has refused it. *)
Definition installed (x : T) (w : World) (r : Res A) (w' : World) : Prop :=
  around T w w' ∧ ward_inv w' ∧
  match r with
  | Ok a => if kept a then same_held w w' else ∃ r', removed_from (k_id ward_kind x) w r' w'
  | _ => same_held w w' ∨ ∃ r', removed_from (k_id ward_kind x) w r' w'
  end.

Lemma installed_after x w r w1 w2 :
  inside w2 = inside w1 → installed x w r w1 → installed x w r w2.
Proof.
  intros Hin (Ha1 & Hi1 & Hr). pose proof (inside_held T w1 w2) as Hs.
  split; [etrans; [exact Ha1|by apply around_inside]|].
  split; [by apply (inside_inv T w1)|].
  assert (Hs' : same_held w1 w2) by by intros y; apply Hs.
  assert (Hrm : (∃ r', removed_from (k_id ward_kind x) w r' w1) →
    ∃ r', removed_from (k_id ward_kind x) w r' w2).
  { intros [r' Hx]. exists r'. by apply (removed_after _ _ _ w1). }
  destruct r as [a| |]; [destruct (kept a); [intros y; by rewrite (Hs' y)|by apply Hrm]|..];
    (destruct Hr as [Hr|Hr]; [left; intros y; by rewrite (Hs' y)|right; by apply Hrm]).
Qed.

Lemma installed_before x w w1 r w2 :
  inside w1 = inside w → installed x w1 r w2 → installed x w r w2.
Proof.
  intros Hin (Ha & Hi & Hr). pose proof (inside_held T w w1) as Hs.
  pose proof (around_inside T _ _ Hin) as Ha1.
  split; [by etrans|]. split; [done|].
  assert (Hs' : same_held w w1) by by intros y; apply Hs.
  assert (Hrm : (∃ r', removed_from (k_id ward_kind x) w1 r' w2) →
    ∃ r', removed_from (k_id ward_kind x) w r' w2).
  { intros [r' Hx]. exists r'. by apply (removed_before _ w w1), Hx; [apply (ar_health Ha1)|]. }
  destruct r as [a| |]; [destruct (kept a); [intros y; by rewrite (Hr y)|by apply Hrm]|..];
    (destruct Hr as [Hr|Hr]; [left; intros y; by rewrite (Hr y)|right; by apply Hrm]).
Qed.

Lemma installed_start x w r :
  ward_inv w → match r with Ok a => kept a = true | _ => True end → installed x w r w.
Proof.
  intros Hi Hr. split; [done|]. split; [done|].
  destruct r as [a| |]; [rewrite Hr; by intros y|..]; left; by intros y.
Qed.

Lemma installed_remove x w a :
  ward_inv w → kept a = false →
  wp (_ ← ward_remove (k_id ward_kind x); mret a) (installed x w) w.
Proof.
  intros Hi Hn. eapply wp_seq; [by apply remove_around|
    |by intros e w1 (_ & [])|by intros w1 (_ & [])].
  intros b w1 ((Ha & _ & Hs) & Hb). apply wp_ret. split; [done|]. split; [done|].
  rewrite Hn. by exists (Ok b).
Qed.

(** A step of the tools on the way. *)
Lemma wp_installed_tool {B} x (m : Store B) (k : B → Store A) w :
  ward_inv w → frame inside m →
  (∀ b w1, inside w1 = inside w → ward_inv w1 → wp (k b) (installed x w1) w1) →
  wp (m ≫= k) (installed x w) w.
Proof.
  intros Hi Hf Hk. eapply (wp_seq (λ _ w1, inside w1 = inside w)); [apply Hf| | |].
  - intros b w1 Hw1. eapply wp_mono, Hk; [|done|by apply (inside_inv T w)].
    intros r w2. by apply installed_before.
  - intros e w1 Hw1. apply (installed_before _ _ w1); [done|]. apply installed_start; [|done].
    by apply (inside_inv T w).
  - intros w1 Hw1. apply (installed_before _ _ w1); [done|]. apply installed_start; [|done].
    by apply (inside_inv T w).
Qed.

(** A temporary file is removed in the end, and no part of the process. *)
Lemma wp_installed_temporary x (live : A → bool) base (k : string → Store A) w :
  ward_inv w →
  (∀ path w1, inside w1 = inside w → ward_inv w1 → wp (k path) (installed x w1) w1) →
  wp (with_temporary live base k) (installed x w) w.
Proof.
  intros Hi Hk. apply wp_installed_tool; [done|apply frame_system|].
  intros [e|path] w1 Hw1 Hi1; [by apply installed_start|].
  pose proof (Hk path w1 Hw1 Hi1) as Hp. unfold wp in Hp |- *.
  destruct (k path w1) as [r w2]. simpl in Hp.
  destruct r as [a| |]; [destruct (live a)|..]; simpl; try done; by eapply installed_after, Hp.
Qed.

(** The namespace of the group comes first. *)
Lemma wp_installed_namespace configPath group x refuse (k : Store A) w :
  ward_inv w → (∀ err, kept (refuse err) = false) →
  (∀ w1, inside w1 = inside w → ward_inv w1 → wp k (installed x w1) w1) →
  wp (created ← try_catch (_ ← kubectl_create_namespace configPath group; mret None)
                  (λ err, mret (Some err));
      match created with
      | Some err => _ ← ward_remove (k_id ward_kind x); mret (refuse err)
      | None => k
      end) (installed x w) w.
Proof.
  intros Hi Hr Hk. apply wp_installed_tool; [done| |].
  { apply frame_try; [|done]. apply frame_bind; [apply frame_create_namespace|done]. }
  intros [err|] w1 Hw1 Hi1; [by apply installed_remove|by apply Hk].
Qed.

(** ** Storing, then installing *)

(** What it leads to. A reply after which the process is no longer alive promises nothing. *)
Definition stored_post (x : T) (w : World) (r : Res A) (w' : World) : Prop :=
  match r with
  | Ok a => alive a = true → vault_step w w' ∧
      if kept a then added x w w' else attempted x w w'
  | _ => vault_step w w' ∧ within x w w'
  end.

Lemma stored_of_installed x w w2 r w3 :
  fresh w x → vault_step w w2 → added x w w2 → installed x w2 r w3 →
  (match r with Ok a => alive a = true | _ => True end → vault_step w2 w3) →
  stored_post x w r w3.
Proof.
  intros Hf (Hi2 & Hh2 & Hs2) Hadd (Ha & Hi3 & Hr) Hst.
  assert (Hst' : match r with Ok a => alive a = true | _ => True end → vault_step w w3).
  { intros Hal. destruct (Hst Hal) as (? & Hh & Hs). split; [done|]. split; [auto|by etrans]. }
  assert (Hsame : same_held w2 w3 → added x w w3).
  { intros Hx y. etrans; [apply Hx|apply Hadd]. }
  assert (Hrm : (∃ r', removed_from (k_id ward_kind x) w2 r' w3) → attempted x w w3).
  { intros [r' Hx]. by apply (attempted_removed x w w2 r'). }
  destruct r as [a| |]; simpl.
  - intros Hal. split; [by apply Hst'|]. destruct (kept a); [by apply Hsame|by apply Hrm].
  - split; [by apply Hst'|]. destruct Hr as [Hr|Hr]; [by apply within_added, Hsame|by apply Hrm].
  - split; [by apply Hst'|]. destruct Hr as [Hr|Hr]; [by apply within_added, Hsame|by apply Hrm].
Qed.

Lemma stored_spec (add : Store bool) x refusal cluster (install : _ → Store A) w :
  VaultInv T w → fresh w x → kept refusal = false →
  wp add (λ r w', vault_step w w' ∧ ∃ b, r = Ok b ∧
    if b : bool then added x w w' else attempted x w w') w →
  (∀ path w2, ward_inv w2 → wp (install path) (installed x w2) w2) →
  (∀ path, tidy [] alive (install path)) →
  wp (success ← add;
      if negb success then mret refusal else
      configPath ← configPathForCluster cluster; install configPath) (stored_post x w) w.
Proof.
  intros Hi Hf Hrf Hadd Hins Htidy.
  eapply wp_seq; [exact Hadd| |by intros e w1 (_ & b & [=] & _)|by intros w1 (_ & b & [=] & _)].
  intros b w1 (Hst1 & b' & [= <-] & Hb). pose proof Hst1 as (Hi1 & Hh1 & Hs1). destruct b; simpl.
  2: { apply wp_ret. intros _. split; [done|]. by rewrite Hrf. }
  assert (Hread : ∀ w2, VaultInv T w2 → read_only w1 w2 → vault_step w w2 ∧ added x w w2).
  { intros w2 Hi2 Hro2. split.
    - destruct (vault_step_read w1 w2 Hi2 Hro2) as (? & Hh & Hs). split; [done|].
      split; [auto|by etrans].
    - intros y. rewrite (read_only_held T w1 w2) by done. apply Hb. }
  eapply wp_seq; [by apply inquires_configPathForCluster| | |].
  2: { intros e w2 (Hi2 & Hro2 & _). destruct (Hread w2); [done..|]. split; [done|by apply within_added]. }
  2: { by intros w2 (_ & _ & []). }
  intros path w2 (Hi2 & Hro2 & _). destruct (Hread w2) as [Hst2 Hadd2]; [done..|].
  pose proof (Hins path w2 (va_ward Hi2)) as Hw. pose proof (Htidy path w2) as Ht.
  unfold wp in Hw |- *. destruct (install path w2) as [r w3]. simpl in Hw, Ht |- *.
  apply (stored_of_installed x w w2); [done..|]. intros Hal. destruct Hw as (Ha & Hi3 & Hr).
  apply VaultInv_around; [done..| |].
  - assert (Hsub : same_held w2 w3 ∨ (∃ r', removed_from (k_id ward_kind x) w2 r' w3) →
      ∀ y, held w3 y → held w2 y).
    { intros [Hx|[r' Hx]] y; [apply Hx|by eapply removed_sub]. }
    apply Hsub. destruct r as [a| |]; [destruct (kept a); [by left|by right]|done..].
  - intros Hd. destruct (Ht Hd) as [? Hp]. split; [done|]. intros p _. apply Hp; [|apply not_elem_of_nil].
    by destruct r.
Qed.
End installing.

(** ** Requests to add a record *)

(** What a request does that adds a record for which [made] holds. *)
Definition create_post (made : T → Prop) (w : World) (r : Res Response) (w' : World) : Prop :=
  match r with
  | Ok AssertionFailed => True
  | Ok (Reply 200 _) => vault_step w w' ∧ ∃ x, made x ∧ added x w w'
  | Ok (Reply _ _) => vault_step w w' ∧ (healthy (db w) → same_held w w')
  | _ => vault_step w w' ∧ ∀ y, held w y → held w' y
  end.

Lemma create_post_tolerates made w : tolerates T w (create_post made w).
Proof.
  intros r w' Hi Hro Hn. pose proof (vault_step_read _ _ Hi Hro) as Hst.
  pose proof (same_held_read _ _ Hro) as Hs.
  destruct r as [[n content|]| |]; simpl; [|done|by (split; [done|]; intros y; apply Hs)..].
  destruct (decide (n = 200%Z)) as [->|Hne]; [by destruct Hn; exists content|].
  assert (Hgoal : vault_step w w' ∧ (healthy (db w) → same_held w w')) by done.
  by repeat case_match.
Qed.

Lemma create_post_mono (made made' : T → Prop) w r w' :
  (∀ x, made x → made' x) → create_post made w r w' → create_post made' w r w'.
Proof.
  intros Hm. unfold create_post. destruct r as [[n content|]| |]; [|done..].
  repeat (case_match; try done). intros (Hst & x & Hx & Ha). split; [done|]. exists x. auto.
Qed.

(** The replies of [stored_spec], for replies that say what has become of the record. *)
Definition kept (r : Response) : bool :=
  match r with Reply n _ => bool_decide (n = 200%Z) | _ => true end.

Lemma create_post_of_stored (made : T → Prop) x w0 w r w' :
  read_only w0 w → made x → stored_post alive kept x w r w' → create_post made w0 r w'.
Proof.
  intros Hro Hm Hr. assert (Hadd : added x w w' → added x w0 w').
  { intros Ha y. etrans; [apply Ha|]. by rewrite (read_only_held T w0 w). }
  assert (Hsame : same_held w w' → same_held w0 w').
  { intros Ha y. etrans; [apply Ha|]. by apply read_only_held. }
  assert (Hstay : vault_step w w' ∧ within x w w' →
    vault_step w0 w' ∧ ∀ y, held w0 y → held w' y).
  { intros [Hst Hx]. split; [by eapply vault_step_trans|]. intros y Hy. apply Hx.
    by apply (read_only_held T w0 w). }
  destruct r as [[n content|]|e|]; simpl in Hr |- *; [|done|by apply Hstay..].
  destruct (Hr eq_refl) as (Hst & Hx). apply (vault_step_trans w0) in Hst; [|done].
  destruct (decide (n = 200%Z)) as [->|Hn]; [split; [done|]; exists x; by split; [|apply Hadd]|].
  rewrite bool_decide_false in Hx by done.
  assert (Hgoal : vault_step w0 w' ∧ (healthy (db w0) → same_held w0 w')).
  { split; [done|]. intros Hh. apply Hsame, Hx. by apply Hro. }
  by repeat case_match.
Qed.

(** The check whether the group may use the cluster. *)
Lemma wp_vault_access w0 Q code msg g c (k : Store Response) w :
  tolerates T w0 Q → VaultInv T w → read_only w0 w → is_cluster w0 c → group_id g →
  code ≠ 200%Z →
  (∀ w', g = Cluster.owningGroup c ∨ allowed w0 (Cluster.id c) g → VaultInv T w' →
     read_only w0 w' → wp k Q w') →
  wp (allowed ← (if negb (bool_decide (g = Cluster.owningGroup c))
                 then groupAllowedOnCluster g (Cluster.id c) else mret true);
      if negb allowed then mret (failure code msg) else k) Q w.
Proof.
  intros Ht Hi Hro Hc Hg Hcode Hk. destruct (bool_decide_reflect (g = Cluster.owningGroup c)) as [Ho|Ho].
  { eapply wp_run; [reflexivity|]. simpl. apply Hk; [by left|done..]. }
  simpl. assert (Hcp : proper_cluster c).
  { apply (fi_proper _ (va_fed Hi)). by apply (read_only_is_cluster w0 w). }
  eapply (wp_vault T w0); [done..|apply (vault_fed T); [done| |]|].
  2: { apply groupAllowedOnCluster_fed; [by apply va_fed|done|apply Hcp]. }
  { by apply groupAllowedOnCluster_frame; [apply Hg|apply Hcp|..]. }
  intros b w' Hi' Hro0 _ (b' & [= <-] & Hb & _). destruct b; simpl.
  2: { by apply (tolerates_failure T w0). }
  apply Hk; [|done..]. right. destruct (Hb eq_refl) as [Ha|Ha]; [left|right];
    by apply (read_only_granted w0 w).
Qed.

(** A step that only asks, and what is known of its result. *)
Lemma wp_inquires_result {A} (m : Store A) w0 Q (k : A → Store Response) w :
  tolerates T w0 Q → inquires m → VaultInv T w → read_only w0 w →
  (∀ a w', (m w).1 = Ok a → VaultInv T w' → read_only w0 w' → wp (k a) Q w') →
  wp (m ≫= k) Q w.
Proof.
  intros Ht Hm Hi Hro Hk. eapply (wp_vault T w0 Q Ht m (λ r, r = (m w).1)); [done| |].
  - eapply wp_mono, wp_result, Hm, Hi. intros r w' ((? & ? & _) & ?). by split_and!.
  - intros a w' Hi' Hro' _ Ha. by apply Hk.
Qed.

Lemma wp_inquires {A} (m : Store A) w0 Q (k : A → Store Response) w :
  tolerates T w0 Q → inquires m → VaultInv T w → read_only w0 w →
  (∀ a w', VaultInv T w' → read_only w0 w' → wp (k a) Q w') → wp (m ≫= k) Q w.
Proof. intros Ht Hm Hi Hro Hk. apply (wp_inquires_result m w0); [done..|]. intros a w' _. apply Hk. Qed.

(** Only administrators and members of the group go on. *)
Definition oversees (w : World) (u : User.t) (x : T) : Prop :=
  User.admin u = true ∨ is_member w (User.id u) (ward_group x).

Lemma wp_vault_manager w0 Q u x (k : Store Response) w :
  tolerates T w0 Q → VaultInv T w → read_only w0 w → User.id u ≠ "" →
  held w0 (k_norm ward_kind x) →
  (∀ w', oversees w0 u x → VaultInv T w' → read_only w0 w' → wp k Q w') →
  wp (member ← (if User.admin u then mret true else userInGroup (User.id u) (ward_group x));
      if negb member then mret (failure 403 "User not authorized") else k) Q w.
Proof.
  intros Ht Hi Hro Hu Hx Hk. destruct (User.admin u) eqn:Ha.
  - eapply wp_run; [reflexivity|]. simpl. apply Hk; [by left|done..].
  - apply (wp_vault_member T w0); [done..| |].
    { rewrite <- (proj1 (ward_norm x)). apply (va_groups Hi). by apply (read_only_held T w0 w). }
    intros w' Hm. apply Hk. by right.
Qed.
End custody.

(** * Temporary files *)

Section temporaries.
Context `{D : Dynamo} `{P : Platform} `{PR : !Processes}.
Context `{L : !DynamoLaws} `{DL : !DiskLaws} `{PL : !ProcessLaws}.

(** The file is there, and the server has not put a cluster's configuration into it. *)
Record apart (path : string) (w : World) : Prop := {
  ap_disk : disk_ok (fs w);
  ap_file : is_Some (file_contents (fs w) path);
  ap_configs : ¬ configured w path }.

Definition spares (path : string) {A} (m : Store A) : Prop := ∀ w, apart path w → apart path (m w).2.

Lemma spares_bind path {A B} (m : Store A) (k : A → Store B) :
  spares path m → (∀ a, spares path (k a)) → spares path (m ≫= k).
Proof.
  intros Hm Hk w Hw. specialize (Hm w Hw). unfold mbind, M_bind.
  destruct (m w) as [[a|e|] w1]; [by apply Hk|done..].
Qed.

Lemma spares_try path {A} (m : Store A) h :
  spares path m → (∀ e, spares path (h e)) → spares path (try_catch m h).
Proof.
  intros Hm Hh w Hw. specialize (Hm w Hw). unfold try_catch.
  destruct (m w) as [[a|e|] w1]; [done| |done]. destruct (runtime_error e); [by apply Hh|done].
Qed.

Lemma apart_same path w w' : fs w' = fs w → clusters w' = clusters w → apart path w → apart path w'.
Proof.
  intros Hf Hc [H1 H2 H3]. split; rewrite ?Hf; [done..|]. unfold configured. by rewrite Hf, Hc.
Qed.

Lemma spares_frame path {A} (m : Store A) : frame fs m → frame estate m → spares path m.
Proof.
  intros Hf He w. apply apart_same; [apply Hf|]. exact (f_equal snd (He w)).
Qed.

(** What the tools do. *)
Lemma spares_tidy path {A} (m : Store A) : tidy [] (λ _, true) m → frame estate m → spares path m.
Proof.
  intros Ht He w [H1 H2 H3]. destruct (Ht w H1) as [Hd Hp]. specialize (He w).
  assert (Hf : ∀ p, file_contents (fs (m w).2) p = file_contents (fs w) p).
  { intros p. apply Hp; [by case_match|apply not_elem_of_nil]. }
  split; [done|by rewrite Hf|]. unfold configured.
  rewrite Hf, (f_equal snd He : clusters (m w).2 = clusters w). exact H3.
Qed.

Lemma spares_write path s : spares path (system (write_file path s)).
Proof.
  intros w [H1 H2 H3]. destruct (write_file_ok path s (fs w) H1 H2) as [_ Hw].
  destruct (write_file_files path s (fs w) H1) as [Hd _].
  split; simpl; [done|by eexists|]. intros [_ Hc]. by destruct H3.
Qed.

Lemma spares_cache_cluster path c : spares path (cache_cluster c).
Proof.
  intros w [H1 H2 H3].
  assert (Hrun : ∃ r m w1, cache_cluster c w = writeClusterConfigToDisk c w1 ∧ fs w1 = fs w ∧
    clusters w1 = upd_clusterCache (replaceCacheRecord (Cluster.id c) r)
      (upd_clusterByNameCache (replaceCacheRecord (Cluster.name c) r)
        (upd_clusterByGroupCache (λ _, m) (clusters w)))).
  { by exists (CacheRecord.make c clusterCacheValidity (steady (ticks w))); eexists _, _. }
  destruct Hrun as (r & m & w1 & -> & Hfs & Hcl). rewrite <- Hfs in H1.
  destruct (writeClusterConfigToDisk_run c w1 H1) as (path' & f' & -> & Hd & Hnew & Hin & Hkeep).
  rewrite Hfs in Hnew, Hkeep. assert (Hne : path ≠ path').
  { intros ->. rewrite Hnew in H2. by destruct H2. }
  split; simpl; [done|by rewrite Hkeep|]. intros (Hs & id & Hid & Hp). simpl in *.
  rewrite Hcl in Hid, Hp. simpl in Hid, Hp. unfold replaceCacheRecord in Hid, Hp.
  destruct (decide (id = Cluster.id c)) as [->|Hne'].
  - rewrite lookup_insert_eq in Hp. by injection Hp as ->.
  - rewrite lookup_insert_ne in Hid by done. rewrite lookup_insert_ne in Hp by done.
    apply H3. split; [done|]. by exists id.
Qed.

Lemma spares_configPathForCluster path c : spares path (configPathForCluster c).
Proof.
  apply spares_bind.
  - unfold findClusterByID.
    repeat first [apply spares_cache_cluster|case_match|apply spares_bind; [|intros ?]
      |apply spares_frame; solve_frame].
  - intros x. apply spares_frame; solve_frame.
Qed.
Lemma VaultInv_unlinked (T : Type) `{W : !Ward T} `{WL : !WardLaws T} path w :
  VaultInv T w → apart path w → VaultInv T (upd_fs (remove_file path) w).
Proof.
  intros Hi [H1 _ H3]. apply (VaultInv_essence T w); [done..|]. intros Hd.
  destruct (remove_file_ok path (fs w) Hd) as (? & _ & Hp). split; [done|].
  intros p Hc. apply Hp. by intros ->.
Qed.

(** Writing it. *)
Lemma wp_vault_write (T : Type) `{W : !Ward T} `{WL : !WardLaws T} {A} path s
    (k : option WriteError → Store A) Q w :
  VaultInv T w → apart path w →
  (∀ w1, VaultInv T w1 → essence w1 = essence w → wp (k None) Q w1) →
  wp (system (write_file path s) ≫= k) Q w.
Proof.
  intros Hi [H1 H2 H3] Hk. eapply wp_run; [reflexivity|].
  rewrite (proj1 (write_file_ok path s (fs w) H1 H2)). apply Hk; [|done].
  apply (VaultInv_essence T w); [done..|]. intros _.
  destruct (write_file_files path s (fs w) H1) as [Hd Hp]. split; [done|].
  intros p Hc. apply Hp. by intros ->.
Qed.

(** A computation with a temporary file, on records of some kind. *)
Lemma wp_vault_temporary (T : Type) `{W : !Ward T} `{WL : !WardLaws T} {A} base
    (k : string → Store A) (Q : Res A → World → Prop) w :
  VaultInv T w → (∀ path, spares path (k path)) →
  (∀ path w1, VaultInv T w1 → apart path w1 → essence w1 = essence w →
     wp (k path) (λ r w2, VaultInv T w2 ∧
     ∀ w3, VaultInv T w3 → essence w3 = essence w2 → Q r w3) w1) →
  wp (with_temporary (λ _, true) base k) Q w.
Proof.
  intros Hi Hsp Hk. unfold wp, with_temporary, mbind, M_bind, system.
  assert (Hd : disk_ok (fs w)) by apply (fi_clusters _ (va_fed Hi)).
  destruct (temporary_file_ok base (fs w) Hd) as (path & f & Heq & Hd1 & Hn & Hs & Hf).
  rewrite Heq. simpl. set (w1 := upd_fs _ w).
  assert (Hfs : fs w1 = f) by (unfold w1; simpl; by rewrite Heq).
  assert (Hi1 : VaultInv T w1).
  { apply (VaultInv_essence T w); [done..|]. intros _. rewrite Hfs. split; [done|].
    intros p [[s Hp] _]. apply Hf. intros ->. congruence. }
  assert (Ha1 : apart path w1).
  { split; [by rewrite Hfs..|]. intros (_ & id & [r Hr] & Hp). unfold w1 in Hr, Hp. simpl in Hr, Hp.
    destruct (cl_configs _ (fi_clusters _ (va_fed Hi)) _ _ Hr) as (p & Hp' & Hc). congruence. }
  pose proof (Hk path w1 Hi1 Ha1 eq_refl) as Hw. pose proof (Hsp path w1 Ha1) as Ha2. unfold wp in Hw.
  destruct (k path w1) as [r w2]. simpl in Hw, Ha2. destruct Hw as [Hi2 HQ].
  destruct r; simpl; (apply HQ; [by apply VaultInv_unlinked|done]).
Qed.
End temporaries.

(** Computations that only ask. *)
Ltac solve_inquires :=
  repeat (cbv beta zeta; lazymatch goal with
    | |- WardLaws _ => apply _
    | |- inquires _ (mbind _ _) => apply inquires_bind; [|intros ?]
    | |- inquires _ (mret _) => apply inquires_ret
    | |- inquires _ (try_catch _ _) => apply inquires_try; [|intros ?]
    | |- inquires _ (match ?x with _ => _ end) => destruct x
    | |- inquires _ _ => first
        [ apply inquires_kubectl | apply inquires_run | apply inquires_asserted
        | apply inquires_throw | apply inquires_getHelmMajorVersion | apply inquires_helm
        | apply inquires_findGroupByID | apply inquires_getGroup | apply inquires_getCluster
        | apply inquires_configPathForCluster ]
    end).

(** Computations that leave a temporary file alone. *)
Ltac solve_spares :=
  repeat (cbv beta zeta; first
    [ apply spares_write | apply spares_configPathForCluster | apply spares_cache_cluster
    | apply spares_try; [|intros ?]
    | apply spares_bind; [|intros ?]
    | match goal with |- spares _ (match ?x with _ => _ end) => destruct x end ]).
