(* ===== verification/Secrecy.v ===== *)
(** What the commands about secrets guarantee: who may see, create and delete secrets, and
    what they leave in the store and on the disk. *)

From S2P Require Import Prelude Text Entities Cache Dynamo Store Demo Kubernetes Listing.
From S2P Require Import Catalogue StoreGroups StoreUsers StoreMembership StoreClusters.
From S2P Require Import StoreAccess StoreInstances StoreSecrets StoreMonCreds Directory.
From S2P Require Import Federation Http UserCommands GroupCommands ClusterCommands.
From S2P Require Import SecretCommands Server Service Authorization Vault Custody.

(** * Secrets are records of a group on a cluster *)

Section ward.
Context `{D : Dynamo} `{P : Platform} `{L : !DynamoLaws}.

#[global] Instance secret_ward : Ward Secret.t := {
  ward_kind := secret_kind;
  ward_inv := SecretsInv;
  ward_group := Secret.group;
  ward_cluster := Secret.cluster;
  ward_valid := Secret.valid;
  ward_get := StoreSecrets.getSecret;
  ward_remove := StoreSecrets.removeSecret;
  ward_whole := true }.

#[global] Instance secret_ward_laws : WardLaws Secret.t.
Proof.
  split; try done.
  - apply _.
  - compute_done.
  - intros w w' Hi Ht Hc. apply (KindInv_same secret_kind w); [done..|]. simpl.
    unfold ward_caches in Hc. by injection Hc as _ -> _.
  - by intros w s (it & _ & Hv & _).
  - intros id w Hi. eapply wp_mono, getSecret_spec, Hi. intros r w' Hp. by split; [apply Hp|].
  - intros id. unfold ward_get, StoreSecrets.getSecret, cache_secret. simpl. split; solve_frame.
  - intros id w Hi. by apply removeSecret_spec.
  - intros id. unfold ward_remove, StoreSecrets.removeSecret, forget_secret. simpl. split; solve_frame.
Qed.
End ward.

Local Abbreviation VaultInv := (Vault.VaultInv Secret.t).
Local Abbreviation tolerates := (Vault.tolerates Secret.t).

(** * Reading secrets *)

Section lookup.
Context `{D : Dynamo} `{P : Platform} `{L : !DynamoLaws} `{DL : !DiskLaws}.

Lemma wp_vault_secret w0 Q id msg (k : Secret.t → Store Response) w :
  tolerates w0 Q → VaultInv w → read_only w0 w →
  (∀ s w', is_secret w0 s → Secret.id s = id → VaultInv w' → read_only w0 w' → wp (k s) Q w') →
  wp (secret ← StoreSecrets.getSecret id;
      if negb (Secret.valid secret) then mret (failure 404 msg) else k secret) Q w.
Proof. intros Ht. exact (wp_vault_get Secret.t w0 Q Ht id msg k w). Qed.

Lemma read_only_is_secret w w' s : read_only w w' → is_secret w' s ↔ is_secret w s.
Proof. exact (read_only_held Secret.t w w' s). Qed.

Lemma secrets_distinct w c : VaultInv w → is_cluster w c → distinct_clusters w (Cluster.id c).
Proof. exact (vault_distinct Secret.t w c). Qed.
End lookup.

Section reading.
Context `{D : Dynamo} `{P : Platform} `{!Scrypt} `{J : !JsonParser}.
Context `{L : !DynamoLaws} `{DL : !DiskLaws}.
Context (secretKey : string).
Implicit Types (s : Secret.t) (u : User.t).

(** A JSON object with what identifies a secret. *)
Definition describes (s : Secret.t) (j : Json) : Prop := ∃ group cluster, j = JObject
  [("id", JString (Secret.id s)); ("name", JString (Secret.name s)); ("group", JString group);
   ("cluster", JString cluster); ("created", JString (Secret.ctime s))].

Lemma secret_json_spec s w :
  VaultInv w → wp (secret_json s) (λ r w', VaultInv w' ∧ read_only w w' ∧
    ∃ j, r = Ok j ∧ describes s j) w.
Proof.
  intros Hi. unfold secret_json.
  eapply wp_seq; [apply (vault_fed Secret.t); [done| |by apply getGroup_fed, va_fed]| | |].
  { unfold getGroup, findGroupByID, findGroupByName, cache_group. solve_frame. }
  2: by intros e w1 (_ & _ & []).
  2: by intros w1 (_ & _ & []).
  intros g w1 (Hi1 & Hro1 & _).
  eapply wp_seq; [apply (vault_fed Secret.t); [done| |by apply getCluster_fed, va_fed]| | |].
  { unfold getCluster, findClusterByID, findClusterByName, cache_cluster, writeClusterConfigToDisk.
    solve_frame. }
  2: by intros e w2 (_ & _ & []).
  2: by intros w2 (_ & _ & []).
  intros c w2 (Hi2 & Hro2 & _). apply wp_ret. split; [done|]. split; [by etrans|].
  eexists. split; [done|]. by eexists _, _.
Qed.

(** What a reply about the secret [secretID] discloses, and to whom. *)
Definition disclosed (secretID : string) (token : option string) (w : World)
    (content : option Json) : Prop :=
  ∃ u s secretData metadata, requester w token u ∧ is_secret w s ∧ Secret.id s = secretID ∧
    is_member w (User.id u) (Secret.group s) ∧
    decryptSecret secretKey s = Ok secretData ∧ describes s metadata ∧
    content = Some (JObject [apiVersion; ("kind", JString "Secret"); ("metadata", metadata);
                             ("contents", Parse secretData)]).

Lemma getSecret_disclosed secretID req w :
  VaultInv w →
  wp (SecretCommands.getSecret secretKey secretID req)
    (reads Secret.t w (disclosed secretID (token_of req) w)) w.
Proof.
  intros Hi. unfold SecretCommands.getSecret.
  apply (wp_vault_user Secret.t w); [apply (reads_tolerates Secret.t)|done..|]. intros u w1 Hu Hne Hi1 Hro1.
  apply (wp_vault_secret w); [apply (reads_tolerates Secret.t)|done|done|]. intros s w2 Hs Hid Hi2 Hro2.
  apply (wp_vault_member Secret.t w); [apply (reads_tolerates Secret.t)|done..|by apply (va_groups Hi)|].
  intros w3 Hm Hi3 Hro3.
  eapply (wp_vault Secret.t w); [apply (reads_tolerates Secret.t)|done|by apply secret_json_spec|].
  intros metadata w4 Hi4 Hro4 _ (j & [= <-] & Hj).
  destruct (decryptSecret secretKey s) as [secretData|err|] eqn:Hdec.
  - apply wp_ret. split; [done|]. split; [done|]. intros content [= <-].
    by exists u, s, secretData, metadata.
  - by apply (tolerates_failure Secret.t w); [apply (reads_tolerates Secret.t)|..].
  - split; [done|]. by split.
Qed.

(** Listing by a cluster that is given by its name, or not at all. *)
Lemma listSecrets_normalized g cluster id w w1 :
  group_arg g → cluster ≠ "" → cluster_arg id → normalizeClusterID cluster w = (Ok (Some id), w1) →
  StoreSecrets.listSecrets g cluster w = StoreSecrets.listSecrets g id w1.
Proof.
  intros Hg Hc Hid Hn. unfold StoreSecrets.listSecrets.
  rewrite normalize_group_arg by done. rewrite (normalize_cluster_arg id) by done.
  unfold normalize_nonempty. destruct (str_empty cluster) eqn:He; [by apply str_empty_true in He|].
  unfold mbind at 1 2 9 10. unfold M_bind at 1 2. simpl. by rewrite Hn.
Qed.

(** The clusters a listing may be asked for: none, by name, or by what is told from the
    clusters of the secrets, as a whole ID is. *)
Definition cluster_given (w : World) (cluster : string) : Prop :=
  cluster = "" ∨ begins_with cluster clusterIDPrefix = false ∨ distinct_clusters w cluster.

Definition listing (w : World) (g cluster : string) (r : Res (list Secret.t)) : Prop :=
  ∃ l, r = Ok l ∧ ∀ s, s ∈ l → is_secret w s ∧ Secret.group s = g ∧
    (cluster ≠ "" → cluster_names w cluster (Secret.cluster s)).

Lemma listSecrets_frames g cluster :
  group_arg g → cluster_arg cluster →
  frame estate (StoreSecrets.listSecrets g cluster) ∧ frame fs (StoreSecrets.listSecrets g cluster).
Proof.
  intros Hg Hc. unfold StoreSecrets.listSecrets, secrets_query, cache_secret.
  rewrite normalize_group_arg, normalize_cluster_arg by done.
  split; repeat first [progress solve_frame | progress cbv zeta].
Qed.

Lemma listSecrets_by_id g cluster w :
  VaultInv w → group_id g → cluster_arg cluster → distinct_clusters w cluster →
  wp (StoreSecrets.listSecrets g cluster) (λ r w', VaultInv w' ∧ read_only w w' ∧
    ∃ l, r = Ok l ∧ ∀ s, s ∈ l → is_secret w s ∧ listed_secret g cluster s) w.
Proof.
  intros Hi Hg Hc Hd. assert (Hga : group_arg g) by (right; apply Hg).
  destruct (listSecrets_frames g cluster Hga Hc) as [He Hf].
  apply (vault_wards Secret.t); [done| |done|done].
  eapply wp_mono, listSecrets_spec; [|apply Hi|done|done|apply Hg|done].
  intros r w' (Hs & Hro & l & Hr & Hl & _). split; [done|]. split; [done|]. by exists l.
Qed.

Lemma normalizeClusterID_vault idOrName w :
  VaultInv w → wp (normalizeClusterID idOrName) (λ r w', VaultInv w' ∧ read_only w w' ∧
    match r with
    | Ok (Some id) => cluster_names w idOrName id ∧ begins_with id clusterIDPrefix = true
    | Ok None => True
    | _ => False
    end) w.
Proof.
  intros Hi. apply (vault_fed Secret.t); [done| |by apply normalizeClusterID_fed, va_fed].
  unfold normalizeClusterID, findClusterByName, cache_cluster, writeClusterConfigToDisk. solve_frame.
Qed.

Lemma listSecrets_listed g cluster w :
  VaultInv w → group_id g → cluster_given w cluster →
  wp (StoreSecrets.listSecrets g cluster)
    (λ r w', VaultInv w' ∧ read_only w w' ∧ listing w g cluster r) w.
Proof.
  intros Hi Hg Hc. assert (Hga : group_arg g) by (right; apply Hg).
  assert (Hne : g ≠ "") by (intros ->; by destruct Hg as [Hp _]).
  destruct (begins_with cluster clusterIDPrefix) eqn:Hp; [|destruct (decide (cluster = "")) as [->|Hce]].
  - assert (Hd : distinct_clusters w cluster) by (by destruct Hc as [->|[?|?]]; [|congruence|]).
    eapply wp_mono, listSecrets_by_id; [|done|done|by right|done].
    intros r w' (Hi' & Hro & l & Hr & Hl). split; [done|]. split; [done|]. exists l. split; [done|].
    intros s Hs. destruct (Hl s Hs) as (? & Hsg & Hsc). split; [done|]. split; [by apply Hsg|].
    intros Hcl. unfold cluster_names. rewrite Hp. by apply Hsc.
  - eapply wp_mono, listSecrets_by_id; [|done|done|by left|].
    + intros r w' (Hi' & Hro & l & Hr & Hl). split; [done|]. split; [done|]. exists l.
      split; [done|]. intros s Hs. destruct (Hl s Hs) as (? & Hsg & _). split; [done|].
      split; [by apply Hsg|done].
    + by intros [].
  - pose proof (normalizeClusterID_vault cluster w Hi) as Hn.
    unfold wp in Hn |- *. destruct (normalizeClusterID cluster w) as [r w1] eqn:Hrun. simpl in Hn.
    destruct Hn as (Hi1 & Hro1 & Hr). destruct r as [[id|]| |]; [| |done..].
    + destruct Hr as [Hid Hpre]. rewrite (listSecrets_normalized g cluster id w w1); [|done..|by right|done].
      assert (Hn : ∃ c, is_cluster w c ∧ Cluster.id c = id).
      { unfold cluster_names in Hid. rewrite Hp in Hid. destruct Hid as (c & ? & ? & ?). by exists c. }
      destruct Hn as (c & Hcl & <-).
      destruct (listSecrets_by_id g (Cluster.id c) w1) as (Hi2 & Hro2 & l & Hl & Hls);
        [done|done|by right|apply secrets_distinct; [done|by apply (same_is_cluster _ _ Hro1)]|].
      split; [done|]. split; [by etrans|]. exists l. split; [done|]. intros s Hs.
      destruct (Hls s Hs) as (Hst & Hsg & Hsc). split; [by apply (read_only_is_secret w w1)|].
      split; [by apply Hsg|]. intros _. rewrite Hsc; [done|]. by intros Heq; rewrite Heq in Hpre.
    + assert (Hnil : StoreSecrets.listSecrets g cluster w = (Ok [], w1)).
      { unfold StoreSecrets.listSecrets. rewrite normalize_group_arg by done.
        unfold normalize_nonempty. destruct (str_empty cluster) eqn:He; [by apply str_empty_true in He|].
        unfold mbind at 1 2. unfold M_bind at 1 2. simpl. by rewrite Hrun. }
      rewrite Hnil. split; [done|]. split; [done|]. exists []. split; [done|]. by intros s ?%not_elem_of_nil.
Qed.

(** The item of a secret in a listing. *)
Definition item_of (s : Secret.t) (item : Json) : Prop := ∃ metadata, describes s metadata ∧
  item = JObject [apiVersion; ("kind", JString "Secret"); ("metadata", metadata)].

(** What a listing of the secrets of a group discloses, and to whom. *)
Definition listed_to (groupRaw cluster : string) (token : option string) (w : World)
    (content : option Json) : Prop :=
  ∃ u g l items, requester w token u ∧ names w groupRaw g ∧
    (User.admin u = true ∨ is_member w (User.id u) g) ∧
    (∀ s, s ∈ l → is_secret w s ∧ Secret.group s = g ∧
       (cluster ≠ "" → cluster_names w cluster (Secret.cluster s))) ∧
    Forall2 item_of l items ∧
    content = Some (JObject [apiVersion; ("items", JArray items)]).

Lemma secret_item_spec s w :
  VaultInv w →
  wp (metadata ← secret_json s;
      mret (JObject [apiVersion; ("kind", JString "Secret"); ("metadata", metadata)]))
    (λ r w', VaultInv w' ∧ read_only w w' ∧ ∃ item, r = Ok item ∧ item_of s item) w.
Proof.
  intros Hi. eapply wp_seq; [by apply secret_json_spec| | |].
  - intros j w1 (Hi1 & Hro1 & j' & [= <-] & Hj). apply wp_ret. split; [done|]. split; [done|].
    eexists. split; [done|]. by exists j.
  - by intros e w1 (_ & _ & j & [=] & _).
  - by intros w1 (_ & _ & j & [=] & _).
Qed.

Lemma secret_items_spec l w :
  VaultInv w →
  wp (for_collect l (λ secret, metadata ← secret_json secret;
        mret (JObject [apiVersion; ("kind", JString "Secret"); ("metadata", metadata)])))
    (λ r w', VaultInv w' ∧ read_only w w' ∧ ∃ items, r = Ok items ∧ Forall2 item_of l items) w.
Proof.
  revert w. induction l as [|s l IH]; intros w Hi; cbn [for_collect].
  { apply wp_ret. split; [done|]. split; [done|]. eexists. split; [done|]. constructor. }
  eapply wp_seq; [by apply secret_item_spec| | |].
  - intros item w1 (Hi1 & Hro1 & item' & [= <-] & Hj). eapply wp_seq; [by apply IH| | |].
    + intros items w2 (Hi2 & Hro2 & items' & [= <-] & Hf). apply wp_ret. split; [done|].
      split; [by etrans|]. eexists. split; [done|]. by constructor.
    + by intros e w2 (_ & _ & x & [=] & _).
    + by intros w2 (_ & _ & x & [=] & _).
  - by intros e w1 (_ & _ & j & [=] & _).
  - by intros w1 (_ & _ & j & [=] & _).
Qed.

Lemma listSecrets_disclosed req groupRaw w :
  VaultInv w → param req "group" = Some groupRaw →
  cluster_given w (default "" (param req "cluster")) →
  wp (SecretCommands.listSecrets req)
    (reads Secret.t w (listed_to groupRaw (default "" (param req "cluster")) (token_of req) w)) w.
Proof.
  intros Hi Hg Hc. unfold SecretCommands.listSecrets. pose proof (reads_tolerates Secret.t w) as Ht.
  apply (wp_vault_user Secret.t w); [apply Ht|done..|]. intros u w1 Hu Hne Hi1 Hro1. rewrite Hg.
  apply (wp_vault_group Secret.t w); [apply Ht|done..|]. intros g w2 Hgr Hn Hid Hi2 Hro2.
  set (Q := reads Secret.t w _).
  assert (Hrest : ∀ w3, User.admin u = true ∨ is_member w (User.id u) (Group.id g) →
    VaultInv w3 → read_only w w3 →
    wp (secrets ← StoreSecrets.listSecrets (Group.id g) (default "" (param req "cluster"));
        items ← for_collect secrets (λ secret, metadata ← secret_json secret;
          mret (JObject [apiVersion; ("kind", JString "Secret"); ("metadata", metadata)]));
        mret (reply [apiVersion; ("items", JArray items)])) Q w3).
  { intros w3 Hauth Hi3 Hro3. eapply (wp_vault Secret.t w); [apply Ht|done|apply listSecrets_listed; [done..|]|].
    { destruct Hc as [?|[?|Hd]]; [by left|by right; left|]. right. right.
      intros Hce s Hs%(read_only_is_secret w); [|done]. by apply Hd. }
    intros l w4 Hi4 Hro4 _ (l' & [= <-] & Hl).
    eapply (wp_vault Secret.t w); [apply Ht|done|by apply secret_items_spec|].
    intros items w5 Hi5 Hro5 _ (items' & [= <-] & Hitems). apply wp_ret.
    split; [done|]. split; [done|]. intros content [= <-].
    exists u, (Group.id g), l, items. split_and!; try done.
    intros s Hs. destruct (Hl s Hs) as (H1 & H2 & H3). split; [by apply (read_only_is_secret w w3)|].
    split; [done|]. intros Hce. eapply cluster_names_same; [|by apply H3].
    intros x. symmetry. by apply read_only_is_cluster. }
  destruct (User.admin u) eqn:Ha.
  - eapply wp_run; [reflexivity|]. simpl. apply Hrest; [by left|done..].
  - apply (wp_vault_member Secret.t w); [apply Ht|done..|]. intros w3 Hm Hi3 Hro3. apply Hrest; [by right|done..].
Qed.
End reading.

(** * Deleting secrets *)

Section deleting.
Context `{D : Dynamo} `{P : Platform} `{!Scrypt} `{PR : !Processes} `{J : !JsonParser}.
Context `{L : !DynamoLaws} `{DL : !DiskLaws} `{PL : !ProcessLaws}.
Implicit Types (s : Secret.t) (u : User.t).

(** What is said before the secret is removed from the store. *)
Definition unlink (secret : Secret.t) (force reachable : bool) : Store string :=
  group ← findGroupByID (Secret.group secret);
  if reachable then
    try_catch (configPath ← configPathForCluster (Secret.cluster secret);
      result ← kubectl configPath
        ["delete"; "secret"; Secret.name secret; "--namespace"; Group.namespaceName group];
      mret (if negb (status result =? 0)%Z && negb force
            then "Failed to delete secret from kubernetes" else ""))
      (λ _, mret (if negb force then "Failed to delete secret from kubernetes" else ""))
  else mret "".

Lemma inquires_unlink secret force reachable : inquires Secret.t (unlink secret force reachable).
Proof.
  unfold unlink. solve_inquires.
Qed.

Lemma delete_secret_unlink secret force reachable w :
  delete_secret secret force reachable w =
    (err ← unlink secret force reachable;
     if negb (str_empty err) then mret err else
     success ← StoreSecrets.removeSecret (Secret.id secret);
     mret (if negb success then "Failed to delete secret from database" else "")) w.
Proof.
  unfold delete_secret, unlink, mbind, M_bind.
  by destruct (findGroupByID (Secret.group secret) w) as [[g|e|] w1].
Qed.

Lemma delete_secret_spec secret force reachable w :
  VaultInv w →
  wp (delete_secret secret force reachable) (deleted_post Secret.t (Secret.id secret) w) w.
Proof.
  intros Hi. unfold wp. rewrite delete_secret_unlink.
  exact (remove_after_spec Secret.t (unlink secret force reachable) (Secret.id secret)
    "Failed to delete secret from database" w (inquires_unlink _ _ _) ltac:(done) Hi).
Qed.

(** Only members of the group may delete its secrets. *)
Definition its_member (w : World) u s : Prop := is_member w (User.id u) (Secret.group s).

Lemma deleteSecret_spec secretID req w :
  VaultInv w →
  wp (SecretCommands.deleteSecret secretID req)
    (delete_post Secret.t its_member secretID (token_of req) w) w.
Proof.
  intros Hi. unfold SecretCommands.deleteSecret.
  pose proof (delete_post_tolerates Secret.t its_member secretID (token_of req) w) as Ht.
  apply (wp_vault_user Secret.t w); [done..|]. intros u w1 Hu Hne Hi1 Hro1.
  apply (wp_vault_secret w); [done..|]. intros s w2 Hs Hid Hi2 Hro2.
  apply (wp_vault_member Secret.t w); [done..|by apply (va_groups Hi)|]. intros w3 Hm Hi3 Hro3.
  apply (wp_delete_reply Secret.t _ _ _ u s); [done..|].
  rewrite <- Hid. by apply delete_secret_spec.
Qed.
End deleting.

(** * Creating secrets *)

(** Drawing a salt leaves the files alone. *)
Class ScryptFiles `{DL : DiskLaws} `{!Scrypt} : Prop := {
  scryptenc_files : ∀ data key f, disk_ok f →
    disk_ok (scryptenc_buf data key f).2 ∧
    ∀ p, file_contents (scryptenc_buf data key f).2 p = file_contents f p }.

Section creating.
Context `{D : Dynamo} `{P : Platform} `{SC : !Scrypt} `{PR : !Processes} `{J : !JsonParser}.
Context `{JS : !JsonSerializer}.
Context `{L : !DynamoLaws} `{DL : !DiskLaws} `{PL : !ProcessLaws}.
Context `{SL : !ScryptLaws} `{SF : !ScryptFiles}.
Context (secretKey : string).
Implicit Types (s : Secret.t) (u : User.t).

(** ** Temporary files *)

Lemma tidy_value_files paths members args (k : list string → Store Response) :
  (∀ paths args, tidy paths alive (k args)) → tidy paths alive (with_value_files members args k).
Proof.
  intros Hk. revert paths args. induction members as [|[name v] members IH]; intros paths args.
  { apply Hk. }
  destruct v as [| | |coded| |]; try by apply tidy_frame. cbn [with_value_files].
  apply tidy_bind; [by apply tidy_frame|]. intros value.
  apply tidy_with_temporary. intros path. apply tidy_write. intros [[]|]; [by apply tidy_frame..|].
  apply IH.
Qed.

Lemma tidy_removeSecret paths alive id : tidy paths alive (StoreSecrets.removeSecret id).
Proof. apply tidy_frame. unfold StoreSecrets.removeSecret, forget_secret. solve_frame. Qed.

Lemma tidy_install_secret configPath group secret contents (k : Store Response) :
  frame fs k → tidy [] alive (install_secret configPath group secret contents k).
Proof.
  intros Hk. apply tidy_bind.
  { apply tidy_try; [|intros e; by apply tidy_frame].
    apply tidy_bind; [apply tidy_create_namespace|]. intros _. by apply tidy_frame. }
  intros [err|].
  { apply tidy_bind; [apply tidy_removeSecret|]. intros _. by apply tidy_frame. }
  destruct contents as [| | | | |members]; try by apply tidy_frame.
  apply tidy_value_files. intros paths args.
  apply tidy_bind; [apply tidy_kubectl|]. intros result. case_match; [|by apply tidy_frame].
  apply tidy_bind; [apply tidy_removeSecret|]. intros _. by apply tidy_frame.
Qed.

(** ** What is put into Kubernetes *)

Lemma value_files_installed s members args (k : list string → Store Response) w :
  SecretsInv w →
  (∀ args w1, inside w1 = inside w → SecretsInv w1 → wp (k args) (installed Secret.t kept s w1) w1) →
  wp (with_value_files members args k) (installed Secret.t kept s w) w.
Proof.
  revert args w. induction members as [|[name v] members IH]; intros args w Hi Hk; [by apply Hk|].
  destruct v as [| | |coded| |]; try by apply wp_ret, (installed_start Secret.t kept).
  cbn [with_value_files]. apply (wp_installed_tool Secret.t kept); [done|done|].
  intros value w1 Hw1 Hi1. apply (wp_installed_temporary Secret.t kept); [done|].
  intros path w2 Hw2 Hi2. apply (wp_installed_tool Secret.t kept); [done|apply frame_system|].
  intros [[]|] w3 Hw3 Hi3; [by apply (installed_start Secret.t kept)..|].
  apply IH; [done|]. intros args' w4 Hw4. apply Hk. congruence.
Qed.

Lemma install_secret_spec configPath group s contents reply w :
  SecretsInv w →
  wp (install_secret configPath group s contents (mret (Reply 200 reply)))
    (installed Secret.t kept s w) w.
Proof.
  intros Hi. refine (wp_installed_namespace Secret.t kept configPath group s
    (λ err, failure 500 ("Failed to create namespace: " +:+ err)) _ w Hi _ _); [done|].
  intros w1 Hw1 Hi1.
  destruct contents as [| | | | |members]; try (by apply wp_ret, (installed_start Secret.t kept)).
  apply value_files_installed; [done|]. intros args w2 Hw2 Hi2.
  apply (wp_installed_tool Secret.t kept); [done|apply frame_kubectl|]. intros result w3 Hw3 Hi3.
  destruct (negb _); [exact (installed_remove Secret.t kept s w3 (failure 500 _) Hi3 eq_refl)|].
  by apply wp_ret, (installed_start Secret.t kept).
Qed.

(** ** The new secret *)

Lemma addSecret_frames s : frame estate (StoreSecrets.addSecret s) ∧ frame fs (StoreSecrets.addSecret s).
Proof.
  unfold StoreSecrets.addSecret, cache_secret. split; repeat case_match; solve_frame.
Qed.

(** Storing the secret, or not, when the data is not encrypted or the service refuses. *)
Lemma addSecret_kept s w :
  SecretsInv w → fresh Secret.t w s → Secret.valid s = true →
  wp (try_catch (StoreSecrets.addSecret s) (λ _, mret false)) (kept_post Secret.t s w) w.
Proof.
  intros Hi Hf Hv. assert (Hn : new_secret w s).
  { split; [|apply Hf]. split; [done|]. split; [done|]. apply (fr_group _ _ _ Hf). }
  pose proof (addSecret_spec s w Hi Hn) as Hs. unfold wp, try_catch, add_secret_post in *.
  destruct (decide (encrypted (Secret.data s))) as [Henc|Hne].
  - pose proof (kept_written Secret.t s w _ _ Hf Hs (proj1 Hs)) as Hk.
    destruct (StoreSecrets.addSecret s w) as [[b|e|] w']; [done| |]; simpl in Hk;
      by destruct Hk as (_ & _ & _ & b & [=] & _).
  - destruct Hs as [Hr Hw]. destruct (StoreSecrets.addSecret s w) as [r w']. simpl in *.
    subst r w'. simpl. split_and!; [done..|]. exists false. split; [done|]. by apply (attempted_same Secret.t).
Qed.

Lemma store_secret_spec group cluster s contents w :
  VaultInv w → fresh Secret.t w s → Secret.valid s = true →
  wp (store_secret group cluster s contents) (stored_post Secret.t alive kept s w) w.
Proof.
  intros Hi Hf Hv. destruct (addSecret_frames s) as [He Hfs].
  apply (stored_spec Secret.t); [done..| | |].
  - apply (add_vault Secret.t); [done..|by apply addSecret_kept; [apply (va_ward Hi)|..]| |];
      by apply frame_try.
  - intros path w2 Hi2. by apply install_secret_spec.
  - intros path. by apply tidy_install_secret.
Qed.

(** ** The handler *)

Lemma encrypt_contents_spec members w :
  VaultInv w → wp (encrypt_contents secretKey members) (λ r w',
    VaultInv w' ∧ read_only w w' ∧ match r with
    | Ok data => ∀ s, Secret.data s = data →
        decryptSecret secretKey s = Ok (Serialize (JObject members))
    | Throw _ => True
    | OutOfFuel => False
    end) w.
Proof.
  intros Hi. unfold encrypt_contents. set (text := Serialize (JObject members)).
  destruct (Buffer.write_text_holds text "" SecretStringBuffer.make) as (b & Hw & (_ & Hc & _) & _).
  { apply Buffer.make_holds. }
  { rewrite (proj2 Buffer.make_holds). lia. }
  rewrite Hw. simpl. rewrite Hc. change ("" +:+ text) with text.
  pose proof (encryptSecret_spec secretKey text w) as He.
  assert (Hinq : inquires Secret.t (encryptSecret secretKey text)).
  { apply (inquires_outside Secret.t).
    - unfold encryptSecret. apply frame_bind; [by intros w0|]. intros [e|r]; done.
    - apply tidy_bind; [|intros []; by apply tidy_frame]. intros w0 Hd. simpl.
      destruct (scryptenc_files text secretKey (fs w0) Hd). auto.
    - intros w0. pose proof (encryptSecret_spec secretKey text w0) as (_ & _ & Hr).
      by intros Hn; rewrite Hn in Hr. }
  destruct (Hinq w Hi) as (Hi' & Hro & Hn). split; [done|]. split; [done|].
  destruct He as (_ & _ & Hr). destruct (encryptSecret secretKey text w).1; [|done..].
  apply Hr.
Qed.

(** Where the data of a new secret comes from. *)
Definition source_gives (w : World) (u : User.t) (source : Source) (data : string) : Prop :=
  match source with
  | Contents members => ∀ s, Secret.data s = data →
      decryptSecret secretKey s = Ok (Serialize (JObject members))
  | CopyFrom sourceID => ∃ s, is_secret w s ∧ Secret.id s = sourceID ∧
      is_member w (User.id u) (Secret.group s) ∧ data = Secret.data s
  end.

Lemma wp_secret_data w0 Q u source (k : string → Json → Store Response) w :
  tolerates w0 Q → VaultInv w → read_only w0 w → User.id u ≠ "" →
  (∀ data contents w', source_gives w0 u source data → VaultInv w' → read_only w0 w' →
     wp (k data contents) Q w') →
  wp (secret_data secretKey u source k) Q w.
Proof.
  intros Ht Hi Hro Hne Hk. destruct source as [members|sourceID]; simpl.
  - eapply (wp_vault Secret.t w0); [done..|by apply encrypt_contents_spec|].
    intros data w1 Hi1 Hro1 _ Hdata. by apply Hk.
  - apply (wp_vault_secret w0); [done..|]. intros s w1 Hs Hid Hi1 Hro1.
    apply (wp_vault_member Secret.t w0); [done..| |].
    { apply (va_groups Hi). by apply (read_only_is_secret w0 w). }
    intros w2 Hm Hi2 Hro2.
    eapply (wp_vault Secret.t w0 _ Ht _ (λ _, True)); [done|by unfold wp; simpl; split_and!|].
    intros secretData w3 Hi3 Hro3 _ _. apply Hk; [by exists s|done..].
Qed.

(** What is known of a secret that a request has made. *)
Definition made_secret (newID : string) (req : Request) (w : World) s : Prop :=
  ∃ u body g c, requester w (token_of req) u ∧ secret_body_of req = inr body ∧
    is_group w g ∧ names w (sb_group body) (Group.id g) ∧ is_member w (User.id u) (Group.id g) ∧
    is_cluster w c ∧ cluster_names w (sb_cluster body) (Cluster.id c) ∧
    (Group.id g = Cluster.owningGroup c ∨ allowed w (Cluster.id c) (Group.id g)) ∧
    s = Secret.mk true newID (sb_name body) (Group.id g) (Cluster.id c) (Secret.ctime s)
          (Secret.data s) ∧
    source_gives w u (sb_source body) (Secret.data s).

Lemma contents_refuse members : refuses (check_contents members).
Proof.
  induction members as [|[name v] members IH]; simpl; [apply refuses_inr|].
  destruct v; try apply refuses_failure. repeat (case_match; [apply refuses_failure|]).
  apply refuses_and_then; [done|]. intros rest. apply refuses_inr.
Qed.

Lemma secret_body_refuses req : refuses (secret_body_of req).
Proof.
  unfold secret_body_of, source_of.
  repeat first [apply refuses_body|apply refuses_metadata_in|apply refuses_required_string
    |apply contents_refuse|apply refuses_and_then; [|intros]|apply refuses_failure
    |apply refuses_inr|case_match].
Qed.

Lemma findSecretByName_vault g c name w :
  VaultInv w → is_cluster w c → group_id g →
  wp (findSecretByName g (Cluster.id c) name) (λ r w', VaultInv w' ∧ read_only w w' ∧ True) w.
Proof.
  intros Hi Hc Hg. assert (Hcid : begins_with (Cluster.id c) clusterIDPrefix = true).
  { apply (fi_proper _ (va_fed Hi) c Hc). }
  destruct (listSecrets_frames g (Cluster.id c)); [right; apply Hg|by right|].
  apply (vault_wards Secret.t); [done| |by apply frame_bind; [|intros l; apply frame_ret]..].
  eapply wp_mono, findSecretByName_spec; [|apply Hi|right; apply Hg|by right|apply Hg|].
  - intros r w6 (? & ? & _). by split_and!.
  - by apply secrets_distinct.
Qed.

Lemma createSecret_spec newID req w :
  VaultInv w → newID ≠ "" → (∀ x, is_secret w x → Secret.id x ≠ newID) →
  wp (SecretCommands.createSecret secretKey newID req)
    (create_post Secret.t (made_secret newID req w) w) w.
Proof.
  intros Hi Hid Hfresh. unfold SecretCommands.createSecret.
  pose proof (create_post_tolerates Secret.t (made_secret newID req w) w) as Ht.
  apply (wp_vault_user Secret.t w); [done..|]. intros u w1 Hu Hne Hi1 Hro1.
  destruct (secret_body_of req) as [r|body] eqn:Hbody; simpl.
  { apply wp_ret. destruct (secret_body_refuses req r Hbody) as [[b ->]| ->]; [|done].
    by apply Ht; [..|intros [content [=]]]. }
  apply wp_gets. set (ctime := timestamp (fs w1)). clearbody ctime.
  apply (wp_vault_group Secret.t w); [done..|]. intros g w2 Hg Hgn Hgid Hi2 Hro2.
  apply (wp_vault_member Secret.t w); [done..|]. intros w3 Hm Hi3 Hro3.
  apply (wp_vault_cluster Secret.t w); [done..|]. intros c w4 Hc Hcn Hi4 Hro4.
  apply (wp_vault_access Secret.t w); [done..|]. intros w5 Hacc Hi5 Hro5.
  eapply (wp_vault Secret.t w _ Ht); [done|apply findSecretByName_vault; [done| |done]|].
  { by apply (read_only_is_cluster w w5). }
  intros existing w6 Hi6 Hro6 _ _.
  destruct (Secret.valid existing); [by apply (tolerates_failure Secret.t w)|].
  apply (wp_secret_data w); [done..|]. intros data contents w7 Hdata Hi7 Hro7.
  set (s := Secret.mk _ _ _ _ _ _ _).
  eapply wp_mono, store_secret_spec; [|done| |done].
  - intros r w8. apply (create_post_of_stored Secret.t); [done|].
    by exists u, body, g, c.
  - apply (fresh_at Secret.t _ _ c); try done.
    + intros x Hx%(read_only_is_secret w); [by apply Hfresh|done].
    + by apply (read_only_is_cluster w w7).
Qed.
End creating.

(** * Properties *)

Section theorems.
Context `{D : Dynamo} `{P : Platform} `{SC : !Scrypt} `{PR : !Processes} `{J : !JsonParser}.
Context `{JS : !JsonSerializer}.
Context `{L : !DynamoLaws} `{DL : !DiskLaws} `{PL : !ProcessLaws}.
Context `{SL : !ScryptLaws} `{SF : !ScryptFiles}.
Context (secretKey : string).

(** C13: secrets are shown to members only. The contents of a secret are disclosed - and are
    then those that decryption gives for the stored secret that was asked for - only if the
    request has the token of a stored user who is a member of the group the secret is of;
    the secrets of a group are listed only for its members and for administrators, and are
    secrets of that group and of the cluster asked for, without their contents. Neither
    request changes anything. *)
Theorem secrets_disclosed_to_members (secretID groupRaw : string) (req : Request) (w : World) :
  VaultInv w → cluster_given w (default "" (param req "cluster")) →
  param req "group" = Some groupRaw →
  wp (SecretCommands.getSecret secretKey secretID req)
    (reads Secret.t w (disclosed secretKey secretID (token_of req) w)) w ∧
  wp (SecretCommands.listSecrets req)
    (reads Secret.t w (listed_to groupRaw (default "" (param req "cluster")) (token_of req) w)) w.
Proof.
  intros Hi Hc Hg. split; [by apply getSecret_disclosed|by apply listSecrets_disclosed].
Qed.

(** C14: creating a secret: success means that one secret has been added, with the new ID and
    the name that was given, for the group and the cluster that were named, on behalf of a
    member of that group, which owns the cluster or has access to it, and with the contents
    that were given - decryption gives them back - or the data of another secret, of a
    group the requester is a member of too. Any other reply, from an available service,
    leaves the secrets as they were, also when Kubernetes refuses the secret after it has
    been stored. Neither loses a secret or changes anything else. *)
Theorem createSecret_correct (newID : string) (req : Request) (w : World) :
  VaultInv w → newID ≠ "" → (∀ x, is_secret w x → Secret.id x ≠ newID) →
  wp (SecretCommands.createSecret secretKey newID req) (create_post Secret.t (made_secret secretKey newID req w) w) w.
Proof. apply createSecret_spec. Qed.

(** C15: deleting a secret: success means that the secret with that ID, and no other, is gone,
    and that the request was made by a member of its group; otherwise, be it for lack of
    authority or because Kubernetes or the database refuses, all secrets are still there. *)
Theorem deleteSecret_correct (secretID : string) (req : Request) (w : World) :
  VaultInv w →
  wp (SecretCommands.deleteSecret secretID req) (delete_post Secret.t its_member secretID (token_of req) w) w.
Proof. apply deleteSecret_spec. Qed.

(** C16: the values of a secret do not stay on the disk of the server: however putting the
    secret into Kubernetes ends, unless it ends the process, the files of the server are
    those there were before. *)
Theorem secret_files_removed (configPath : string) (group : Group.t) (s : Secret.t)
    (contents : Json) (answer : Response) (w : World) :
  disk_ok (fs w) →
  wp (install_secret configPath group s contents (mret answer)) (λ r w',
    r ≠ Ok AssertionFailed →
    disk_ok (fs w') ∧ ∀ p, file_contents (fs w') p = file_contents (fs w) p) w.
Proof.
  intros Hd. destruct (tidy_install_secret configPath group s contents (mret answer)
    ltac:(apply frame_ret) w Hd) as [Hd' Hf]. intros Hr. split; [done|]. intros p.
  apply Hf; [|apply not_elem_of_nil].
  by destruct (install_secret configPath group s contents (mret answer) w).1 as [[]| |].
Qed.
End theorems.
