(* ===== verification/ClusterCreation.v ===== *)
(** Registering a cluster: who may do it, what it leaves in the store, and how a registration
    that fails is undone. *)

From S2P Require Import Prelude Text Dns Entities Cache Dynamo Store Demo Kubernetes Listing.
From S2P Require Import Catalogue StoreGroups StoreUsers StoreMembership StoreClusters.
From S2P Require Import StoreAccess StoreInstances StoreSecrets StoreMonCreds StoreVolumes.
From S2P Require Import Directory Federation ClusterRemoval Http Geocoder UserCommands.
From S2P Require Import GroupCommands ClusterCommands SecretCommands VolumeCommands.
From S2P Require Import ApplicationCommands InstanceCommands ClusterStatus ClusterLifecycle.
From S2P Require Import Server Service Authorization Vault Secrecy ClusterRequests.

(** The DNS service has nothing to do with the files of the server. *)
Class NetLaws `{DL : DiskLaws} `{R : !Route53 FS} : Prop :=
  change_files : ∀ id changes f, disk_ok f →
    disk_ok (ChangeResourceRecordSets id changes f).2 ∧
    ∀ p, file_contents (ChangeResourceRecordSets id changes f).2 p = file_contents f p.

(** * Asking and telling what is outside *)

Section asking.
Context `{D : Dynamo} `{P : Platform} `{PR : !Processes} `{R : !Route53 FS} `{S : !Settings}.
Context `{L : !DynamoLaws} `{DL : !DiskLaws} `{PL : !ProcessLaws} `{NL : !NetLaws}.
Context (dnsClient : DNSManipulator.t).

(** A computation that ends, and leaves the database as it is. *)
Definition asks {A} (m : Store A) : Prop := ∀ w, FedInv w →
  wp m (λ r w', FedInv w' ∧ read_only w w' ∧ r ≠ OutOfFuel) w.

Lemma asks_ret {A} (a : A) : asks (mret a).
Proof. intros w Hi. by split_and!. Qed.

Lemma asks_throw {A} e : asks (throw e : Store A).
Proof. intros w Hi. by split_and!. Qed.

Lemma asks_bind {A B} (m : Store A) (k : A → Store B) :
  asks m → (∀ a, asks (k a)) → asks (m ≫= k).
Proof.
  intros Hm Hk w Hi. eapply wp_seq; [by apply Hm| | |].
  - intros a w1 (Hi1 & Hro & _). eapply wp_mono, (Hk a w1 Hi1).
    intros r w2 (? & ? & ?). split_and!; [done|by etrans|done].
  - intros e w1 (? & ? & _). by split_and!.
  - by intros w1 (_ & _ & []).
Qed.

Lemma asks_try {A} (m : Store A) h : asks m → (∀ e, asks (h e)) → asks (try_catch m h).
Proof.
  intros Hm Hh w Hi. pose proof (Hm w Hi) as Hw. unfold wp, try_catch in *.
  destruct (m w) as [[a|e|] w1]; simpl in *; [done| |by destruct Hw as (_ & _ & [])].
  destruct Hw as (Hi1 & Hro1 & _). destruct (runtime_error e); [|by split_and!].
  destruct (Hh e w1 Hi1) as (? & ? & ?). split_and!; [done|by etrans|done].
Qed.

(** What is done outside of the process leaves the federation. *)
Lemma asks_outside {A} (m : Store A) :
  frame inside m → tidy [] (λ _, true) m → (∀ w, (m w).1 ≠ OutOfFuel) → asks m.
Proof.
  intros Hf Ht He w Hi. pose proof (Hf w) as Hw. split; [|split; [|apply He]].
  - apply (around_federation Secret.t w); [done|by apply around_inside|]. intros Hd.
    destruct (Ht w Hd) as [? Hp]. split; [done|].
    intros p _. apply Hp; [by case_match|apply not_elem_of_nil].
  - unfold inside in Hw. injection Hw as Hdb _. split; by rewrite Hdb.
Qed.

Lemma asks_run command args env : asks (run command args env).
Proof. apply asks_outside; [apply frame_run|apply tidy_run|apply run_ends]. Qed.

Lemma asks_kubectl configPath args : asks (kubectl configPath args).
Proof. apply asks_outside; [apply frame_kubectl|apply tidy_kubectl|apply kubectl_ends]. Qed.

Lemma asks_getHelmMajorVersion : asks getHelmMajorVersion.
Proof.
  apply asks_outside; [apply frame_getHelmMajorVersion|apply tidy_getHelmMajorVersion
    |apply getHelmMajorVersion_ends].
Qed.

Lemma asks_configPathForCluster c : asks (configPathForCluster c).
Proof.
  intros w Hi. eapply wp_mono, (Custody.configPathForCluster_fed c w Hi).
  intros r w' (? & ? & Hr). split_and!; [done..|]. by intros ->.
Qed.

(** ** The DNS service *)

(** A step of the service leaves the files, and ends. *)
Definition netlike {A} (m : M FS A) : Prop := ∀ f, (m f).1 ≠ OutOfFuel ∧
  (disk_ok f → disk_ok (m f).2 ∧ ∀ p, file_contents (m f).2 p = file_contents f p).

Lemma netlike_bind {A B} (m : M FS A) (k : A → M FS B) :
  netlike m → (∀ a, netlike (k a)) → netlike (m ≫= k).
Proof.
  intros Hm Hk f. destruct (Hm f) as [Hn Hf]. unfold mbind, M_bind.
  destruct (m f) as [[a|e|] f1]; simpl in *; [|done..].
  destruct (Hk a f1) as [Hn' Hf']. split; [done|]. intros [Hd1 H1]%Hf.
  destruct (Hf' Hd1) as [Hd2 H2]. split; [done|]. intros p. by rewrite H2.
Qed.

Lemma netlike_still {A} (m : M FS A) : (∀ f, (m f).1 ≠ OutOfFuel ∧ (m f).2 = f) → netlike m.
Proof. intros Hm f. destruct (Hm f) as [? ->]. done. Qed.

Lemma netlike_ret {A} (a : A) : netlike (mret a).
Proof. by apply netlike_still. Qed.

Lemma netlike_throw {A} e : netlike (throw e : M FS A).
Proof. by apply netlike_still. Qed.

Lemma netlike_lift {A} (r : Res A) : r ≠ OutOfFuel → netlike (lift r).
Proof. intros Hr. by apply netlike_still. Qed.

Lemma netlike_hosted_zone name : netlike (hosted_zone dnsClient name).
Proof.
  apply netlike_bind; [apply netlike_lift|].
  - unfold zoneForName. by repeat case_match.
  - intros zone. case_match; [apply netlike_ret|apply netlike_throw].
Qed.

Lemma netlike_answer what id name type : netlike (answer what id name type).
Proof. apply netlike_bind; [by apply netlike_still|]. intros []; [apply netlike_throw|apply netlike_ret]. Qed.

Lemma netlike_submit id changes : netlike (submit id changes).
Proof.
  intros f. pose proof (change_files id changes f) as Hf. unfold submit.
  by destruct (ChangeResourceRecordSets id changes f).
Qed.

Lemma netlike_change action name address : netlike (change_record dnsClient action name address).
Proof.
  unfold change_record. case_match; [apply netlike_throw|].
  apply netlike_bind; [apply netlike_lift; unfold record_type; by repeat case_match|]. intros type.
  apply netlike_bind.
  - unfold safeToModifyDNS. apply netlike_bind; [apply netlike_hosted_zone|]. intros id.
    apply netlike_bind; [apply netlike_answer|]. intros base. cbv zeta.
    apply netlike_bind; [apply netlike_answer|]. intros texts. apply netlike_ret.
  - intros safe. case_match; [apply netlike_ret|].
    apply netlike_bind; [apply netlike_hosted_zone|]. intros id. apply netlike_submit.
Qed.

Lemma asks_on_net {A} (m : M FS A) : netlike m → asks (on_net m).
Proof.
  intros Hm. unfold on_net. apply asks_outside.
  - intros w. by destruct (m (fs w)).
  - intros w Hd. destruct (Hm (fs w)) as [_ Hf]. destruct (m (fs w)) as [r f]. simpl in *.
    destruct (Hf Hd) as [? Hp]. split; [done|]. intros _ p _. apply Hp.
  - intros w. destruct (Hm (fs w)) as [Hn _]. by destruct (m (fs w)).
Qed.

Lemma asks_setClusterDNSRecord c : asks (setClusterDNSRecord dnsClient c).
Proof.
  unfold setClusterDNSRecord. apply asks_bind; [apply asks_configPathForCluster|]. intros path.
  apply asks_bind; [apply asks_kubectl|]. intros result.
  case_match; [apply asks_ret|]. case_match; [apply asks_ret|]. cbv zeta.
  case_match; [|apply asks_ret]. apply asks_bind; [|intros ok; apply asks_ret].
  apply asks_try; [apply asks_on_net, netlike_change|intros e; apply asks_ret].
Qed.

(** ** Waiting for the server part of helm *)

(** The wait is over after the looks there is time for. *)
Lemma asks_wait_tiller fuel path c delaySoFar :
  0 < fuel → (maxDelay + delay <= delaySoFar + Z.of_nat fuel * delay)%Z →
  asks (wait_tiller fuel path c delaySoFar).
Proof.
  revert delaySoFar. induction fuel as [|fuel IH]; intros d Hf Hd; [lia|]. cbn [wait_tiller].
  apply asks_bind; [apply asks_kubectl|]. intros result.
  case_match; [apply asks_ret|]. case_match; [apply asks_ret|].
  case_match eqn:Hlt; [|apply asks_ret]. apply Z.ltb_lt in Hlt. unfold delay in *.
  apply IH; [|unfold delay]; lia.
Qed.
End asking.

(** * What a registration does to the store *)

Section registration.
Context `{D : Dynamo} `{P : Platform} `{PR : !Processes} `{R : !Route53 FS} `{S : !Settings}.
Context `{L : !DynamoLaws} `{DL : !DiskLaws} `{PL : !ProcessLaws} `{NL : !NetLaws}.
Context (dnsClient : DNSManipulator.t).

(** Nothing is different but a cluster with the ID, and what it was granted. *)
Record but_cluster (id : string) (w w' : World) : Prop := {
  bc_inv : FedInv w';
  bc_healthy : healthy (db w');
  bc_directory : same_directory (directory w) (directory w');
  bc_others : ∀ x, Cluster.id x ≠ id → is_cluster w' x ↔ is_cluster w x;
  bc_grants : ∀ c g, c ≠ id → no_colon g → granted w' c g ↔ granted w c g;
  bc_applications : same_applications (federation w) (federation w') }.

(** The cluster is there, as it was registered. *)
Definition registered (c : Cluster.t) (w w' : World) : Prop :=
  but_cluster (Cluster.id c) w w' ∧ guests_proper w' ∧ is_cluster w' c.

(** No cluster has the ID. *)
Definition unregistered (id : string) (w w' : World) : Prop :=
  but_cluster id w w' ∧ ∀ x, is_cluster w' x → Cluster.id x ≠ id.

Lemma but_cluster_refl id w : FedInv w → healthy (db w) → but_cluster id w w.
Proof. by split. Qed.

Lemma but_cluster_read id w w1 w2 :
  but_cluster id w w1 → FedInv w2 → read_only w1 w2 → but_cluster id w w2.
Proof.
  intros [H1 H2 H3 Hx H4 H5] Hi Hro. destruct (read_only_federation w1 w2 Hro) as (Hd & Hc & Hg & Ha).
  split; [done|by apply Hro|by etrans| | |by etrans].
  - intros x Hne. rewrite <- Hx by done. apply Hc.
  - intros c g Hne Hg'. rewrite <- H4 by done. by apply Hg.
Qed.

Lemma read_only_guests w w' : read_only w w' → guests_proper w → guests_proper w'.
Proof. intros [Ht _] Hg k it v. rewrite Ht. apply Hg. Qed.

Lemma registered_read c w w1 w2 :
  registered c w w1 → FedInv w2 → read_only w1 w2 → registered c w w2.
Proof.
  intros (Hb & Hg & Hc) Hi Hro. split; [by eapply but_cluster_read|].
  split; [by eapply read_only_guests|]. by apply (read_only_is_cluster w1 w2).
Qed.

Lemma unregistered_read id w w1 w2 :
  unregistered id w w1 → FedInv w2 → read_only w1 w2 → unregistered id w w2.
Proof.
  intros (Hb & Hc) Hi Hro. split; [by eapply but_cluster_read|].
  intros x Hx. apply Hc. by apply (read_only_is_cluster w1 w2).
Qed.

(** Writing the record, on an available service. *)
Lemma wp_write_cluster (m : Store bool) c w w1 :
  but_cluster (Cluster.id c) w w1 → guests_proper w1 →
  wp m (fed_written c w1) w1 → wp m (cluster_write_post c w1) w1 →
  wp m (λ r w2, r = Ok true ∧ registered c w w2) w1.
Proof.
  intros [H1 H2 H3 Hx H4 H5] Hg (Hi & Hh & Hd & Hgr & Ha & ok & Hok & Hput) (_ & _ & _ & Hw).
  rewrite Hok in *. destruct ok; [|by destruct Hw as [Hn _]]. destruct Hw as (Hst & Hrow & _).
  split; [done|]. split; [split|split].
  - done.
  - auto.
  - by etrans.
  - intros x Hne. rewrite <- Hx by done. rewrite (Hput x). split; [|by auto].
    by intros [->|[? _]].
  - intros c' g Hne Hg'. rewrite <- H4 by done. by apply Hgr.
  - by etrans.
  - intros k it v Hk. destruct (decide (k = cluster_key c)) as [->|Hne].
    + destruct Hst as (it' & Hit' & Hr). replace it' with it in Hr by congruence.
      destruct Hr as (_ & _ & Hn & _). by rewrite Hn.
    + rewrite Hrow in Hk by done. by apply (Hg k).
  - apply Hput. by left.
Qed.

Lemma addCluster_registers c w :
  FedInv w → healthy (db w) → guests_proper w →
  compatible_cluster (table w SLATE_clusters) c → proper_cluster c →
  wp (addCluster c) (λ r w', r = Ok true ∧ registered c w w') w.
Proof.
  intros Hi Hh Hg Hc Hp. apply wp_write_cluster; [by apply but_cluster_refl|done|by apply addCluster_fed|].
  apply addCluster_spec; [apply Hi|done].
Qed.

Lemma updateCluster_registers c w w1 :
  registered c w w1 → wp (StoreClusters.updateCluster c) (λ r w', r = Ok true ∧ registered c w w') w1.
Proof.
  intros (Hb & Hg & Hc). pose proof (bc_inv _ _ _ Hb) as Hi.
  assert (Hcomp : compatible_cluster (table w1 SLATE_clusters) c).
  { eapply stored_cluster_compatible; [|exact Hc]. apply (cl_inv _ (fi_clusters _ Hi)). }
  apply wp_write_cluster; [done..| |].
  - apply updateCluster_fed; [done|done|by apply (fi_proper _ Hi)].
  - apply updateCluster_spec; [apply Hi|done].
Qed.

Lemma removeCluster_unregisters c w w1 :
  registered c w w1 → wp (removeCluster (Cluster.id c)) (λ r w', r = Ok true ∧ unregistered (Cluster.id c) w w') w1.
Proof.
  intros ([H1 H2 H3 Hx H4 H5] & Hg & Hc). pose proof (fi_proper _ H1 c Hc) as [[Hid _] _].
  eapply wp_mono, (removeCluster_fed (Cluster.id c) w1); [|done..].
  intros r w2 (Hi & Hh & Hd & Hgr & Ha & b & -> & Hb). destruct b; [|by destruct Hb as [[] _]].
  split; [done|]. split; [split|].
  - done.
  - auto.
  - by etrans.
  - intros x Hne. rewrite <- Hx by done. rewrite (Hb x). tauto.
  - intros c' g Hne Hg'. rewrite <- H4 by done. by apply Hgr.
  - by etrans.
  - intros x [_ Hne]%Hb. done.
Qed.
End registration.

(** * Setting up the cluster *)

Section setup.
Context `{D : Dynamo} `{P : Platform} `{PR : !Processes} `{R : !Route53 FS} `{S : !Settings}.
Context `{L : !DynamoLaws} `{DL : !DiskLaws} `{PL : !ProcessLaws} `{NL : !NetLaws}.
Context (dnsClient : DNSManipulator.t).

(** Why a tool could not be run. *)
Definition tool_error (e : string) : Prop := ∃ c args env f, (runCommand c args env f).1 = inl e.

(** The errors after which the record of the cluster is not removed again. *)
Definition leftover (e : string) : Prop :=
  e = "Cluster registration failed: Unable to find matching service account in default namespace" ∨
  e = "Unable to extract helm version" ∨ tool_error e ∨ runtime_error e = false.

(** A question whose failure leaves the record. *)
Definition consults {A} (m : Store A) : Prop := asks m ∧ ∀ w e, (m w).1 = Throw e → leftover e.

Lemma run_throws c args env w e : (run c args env w).1 = Throw e → tool_error e.
Proof.
  unfold run, mbind, M_bind, system. simpl.
  destruct (runCommand c args env (fs w)).1 as [e'|r] eqn:Hr; [|done].
  intros [= ->]. by exists c, args, env, (fs w).
Qed.

Lemma consults_run c args env : consults (run c args env).
Proof. split; [apply asks_run|]. intros w e He%run_throws. right; right; by left. Qed.

Lemma consults_kubectl path args : consults (kubectl path args).
Proof.
  split; [apply asks_kubectl|]. intros w e. unfold kubectl, mbind, M_bind.
  pose proof (run_throws "kubectl" ("--request-timeout=10s"
    :: (if str_empty path then [] else ["--kubeconfig=" +:+ path]) ++ args) [] w) as Hr.
  destruct (run _ _ _ w) as [[r|e'|] w1]; simpl in *; [|intros [= ->]; right; right; left; auto|done].
  unfold stops, lift. by repeat case_match.
Qed.

Lemma consults_helm_version : consults getHelmMajorVersion.
Proof.
  split; [apply asks_getHelmMajorVersion|]. intros w e. unfold getHelmMajorVersion, mbind, M_bind.
  pose proof (run_throws "helm" ["version"] [] w) as Hr.
  destruct (run _ _ _ w) as [[r|e'|] w1]; simpl in *; [|intros [= ->]; right; right; left; auto|done].
  repeat case_match; simpl; intros [= <-]; right; by left.
Qed.

Lemma consults_ret {A} (a : A) : consults (mret a).
Proof. split; [apply asks_ret|done]. Qed.

Lemma consults_bind {A B} (m : Store A) (k : A → Store B) :
  consults m → (∀ a, consults (k a)) → consults (m ≫= k).
Proof.
  intros [Hm Hm'] Hk. split; [apply asks_bind; [done|intros a; apply Hk]|].
  intros w e. unfold mbind, M_bind. pose proof (Hm' w) as He.
  destruct (m w) as [[a|e'|] w1]; [apply Hk|intros [= ->]; by apply He|done].
Qed.

Lemma consults_wait_tiller fuel path c delaySoFar :
  0 < fuel → (maxDelay + delay <= delaySoFar + Z.of_nat fuel * delay)%Z →
  consults (wait_tiller fuel path c delaySoFar).
Proof.
  intros Hf Hd. split; [by apply asks_wait_tiller|]. clear Hf Hd. revert delaySoFar.
  induction fuel as [|fuel IH]; intros d w e; cbn [wait_tiller]; [done|].
  unfold mbind, M_bind. pose proof (proj2 (consults_kubectl path
    ["get"; "pods"; "--namespace"; Cluster.systemNamespace c]) w) as He.
  destruct (kubectl _ _ w) as [[r|e'|] w1]; [|intros [= ->]; by apply He|done].
  case_match; [done|]. case_match; [done|]. case_match; [apply IH|done].
Qed.

Section steps.
Context (c : Cluster.t) (w : World).

(** The cluster stays registered, unless there is an error. *)
Definition setup_post {A} (r : Res A) (w' : World) : Prop :=
  match r with
  | Ok _ => registered c w w'
  | Throw e => unregistered (Cluster.id c) w w' ∨ registered c w w' ∧ leftover e
  | OutOfFuel => False
  end.

Lemma wp_setup_ret {A} (a : A) w1 : registered c w w1 → wp (mret a) setup_post w1.
Proof. done. Qed.

Lemma wp_setup_seq {A B} (m : Store A) (k : A → Store B) w1 :
  wp m setup_post w1 → (∀ a w2, registered c w w2 → wp (k a) setup_post w2) →
  wp (m ≫= k) setup_post w1.
Proof. intros Hm Hk. eapply wp_seq; [exact Hm|exact Hk|done|done]. Qed.

Lemma wp_setup_consults {A} (m : Store A) w1 :
  consults m → registered c w w1 → wp m setup_post w1.
Proof.
  intros [Hm He] Hr. specialize (He w1). eapply wp_mono, wp_result, Hm, Hr.
  intros r w2 ((Hi & Hro & Hn) & ->). pose proof (registered_read _ _ _ _ Hr Hi Hro) as Hr2.
  destruct (m w1).1 as [a|e|]; simpl; [done| |done]. right. split; [done|]. by apply He.
Qed.

Lemma wp_setup_path w1 :
  registered c w w1 → wp (configPathForCluster (Cluster.id c)) setup_post w1.
Proof.
  intros Hr. pose proof Hr as ([Hi1 Hh1 _ _ _ _] & _ & Hc).
  eapply wp_mono, (Custody.configPathForCluster_fed (Cluster.id c) w1 Hi1).
  intros r w2 (Hi2 & Hro & Hp). destruct r as [path|e|]; [|by destruct (Hp Hh1 c Hc)|done].
  by eapply registered_read.
Qed.

Lemma wp_setup_drop {A} what w1 :
  registered c w w1 → wp (drop_and_fail c what : Store A) setup_post w1.
Proof.
  intros Hr. unfold drop_and_fail.
  eapply wp_seq; [by apply (removeCluster_unregisters c w w1)| |by intros e w2 [[=] _]|by intros w2 [[=] _]].
  intros b w2 [_ Hu]. by left.
Qed.

Lemma wp_setup_throw {A} e w1 :
  registered c w w1 → leftover e → wp (throw e : Store A) setup_post w1.
Proof. by right. Qed.

Lemma wp_check_accounts path w1 :
  registered c w w1 → wp (check_accounts path c true) setup_post w1.
Proof.
  intros Hr1. unfold check_accounts.
  apply wp_setup_seq; [by apply wp_setup_consults; [apply consults_kubectl|]|]. intros info w2 Hr2.
  destruct (negb (contacted info)).
  { eapply (wp_seq (λ r w3, r = Ok tt ∧ unregistered (Cluster.id c) w w3)).
    - eapply wp_seq; [by apply (removeCluster_unregisters c w w2)| |by intros e w3 [[=] _]
        |by intros w3 [[=] _]]. intros b w3 [_ Hu]. by apply wp_ret.
    - intros [] w3 [_ Hu]. by left.
    - by intros e w3 [[=] _].
    - by intros w3 [[=] _]. }
  cbv zeta. case_match; [by apply wp_setup_drop|].
  case_match; [by apply wp_setup_throw; [|left]|].
  apply wp_setup_seq; [by apply wp_setup_consults; [apply consults_kubectl|]|]. intros check w3 Hr3.
  case_match; [by apply wp_setup_drop|].
  destruct (check_namespace _ _ _ _) as [okay badline].
  case_match; [by apply wp_setup_drop|by apply wp_setup_ret].
Qed.

Lemma wp_setup_tiller path w1 :
  registered c w w1 → wp (setup_tiller path c) setup_post w1.
Proof.
  intros Hr1. unfold setup_tiller. cbv zeta.
  apply wp_setup_seq; [by apply wp_setup_consults; [apply consults_run|]|]. intros result w2 Hr2.
  case_match; [by apply wp_setup_drop|].
  apply wp_setup_seq.
  { case_match; [|by apply wp_setup_ret]. apply wp_setup_consults; [|done].
    apply consults_bind; [apply consults_kubectl|intros; apply consults_ret]. }
  intros okay w3 Hr3. case_match; [by apply wp_setup_drop|].
  apply wp_setup_consults; [|done]. apply consults_wait_tiller; unfold maxLooks, maxDelay, delay; lia.
Qed.

Lemma consults_dns action name address :
  consults (try_catch (on_net (change_record dnsClient action name address)) (λ _, mret false)).
Proof.
  split; [apply asks_try; [apply asks_on_net, netlike_change|intros e; apply asks_ret]|].
  intros w1 e. unfold try_catch. destruct (on_net _ w1) as [[a|e'|] w2]; [done| |done].
  destruct (runtime_error e') eqn:He; [done|]. intros [= ->]. right; right; by right.
Qed.

Lemma wp_setup_dns w1 : registered c w w1 → wp (setClusterDNSRecord dnsClient c) setup_post w1.
Proof.
  intros Hr1. unfold setClusterDNSRecord.
  apply wp_setup_seq; [by apply wp_setup_path|]. intros path w2 Hr2.
  apply wp_setup_consults; [|done]. apply consults_bind; [apply consults_kubectl|]. intros address.
  case_match; [apply consults_ret|]. case_match; [apply consults_ret|]. cbv zeta.
  case_match; [|apply consults_ret]. apply consults_bind; [apply consults_dns|].
  intros ok. apply consults_ret.
Qed.

Lemma wp_ensureClusterSetup w1 :
  registered c w w1 → wp (ensureClusterSetup dnsClient c true) setup_post w1.
Proof.
  intros Hr1. unfold ensureClusterSetup.
  apply wp_setup_seq; [by apply wp_setup_path|]. intros path w2 Hr2.
  apply wp_setup_seq; [by apply wp_check_accounts|]. intros _ w3 Hr3.
  eapply wp_seq; [by apply (updateCluster_registers c w w3)| |by intros e w4 [[=] _]|by intros w4 [[=] _]].
  intros b w4 [_ Hr4].
  apply wp_setup_seq; [by apply wp_setup_consults; [apply consults_helm_version|]|]. intros version w5 Hr5.
  apply wp_setup_seq; [case_match; [by apply wp_setup_tiller|by apply wp_setup_ret]|].
  intros message w6 Hr6. apply wp_setup_seq; [by apply wp_setup_dns|]. intros dns w7 Hr7.
  by apply wp_setup_ret.
Qed.
End steps.
End setup.


(** * The request *)

Lemma str_take_bound n s : str_size (str_take n s) ≤ n.
Proof. revert s. induction n as [|n IH]; intros [|c s]; simpl; [lia..|]. specialize (IH s). lia. Qed.

(** The loop that takes the quotes off ends. *)
Lemma unquote_loop_ends fuel src : str_size src < fuel → unquote_loop fuel src ≠ None.
Proof.
  revert src. induction fuel as [|fuel IH]; intros src Hf; [lia|]. cbn [unquote_loop].
  case_match eqn:Hs; [done|]. apply Nat.leb_gt in Hs. destruct src as [|c src]; [done|].
  case_match; [|done]. case_match; [done|]. apply IH. unfold str_substr.
  pose proof (str_take_bound (str_size (String c src) - 2) (str_drop 1 (String c src))). lia.
Qed.

Lemma unquoteString_ends src : is_Some (unquoteString src).
Proof.
  unfold unquoteString. pose proof (unquote_loop_ends (Datatypes.S (str_size src)) src).
  destruct (unquote_loop _ _); [by eexists|]. by destruct (H ltac:(lia)).
Qed.

Section request.
Context `{D : Dynamo} `{P : Platform} `{PR : !Processes} `{J : !JsonParser} `{Y : !Yaml}.
Context `{R : !Route53 FS} `{S : !Settings}.
Context `{L : !DynamoLaws} `{DL : !DiskLaws} `{PL : !ProcessLaws} `{NL : !NetLaws}.
Context (dnsClient : DNSManipulator.t) (newID : string) (req : Request).

(** The record that a request is for: a member of the group that is to own the cluster asks
    for it, under a name that is a DNS label and that no cluster has. *)
Definition asked_for (w : World) (c : Cluster.t) : Prop := ∃ u body gid caData,
  requester w (token_of req) u ∧ cluster_body_of req = inr body ∧
  names w (cb_group body) gid ∧ is_member w (User.id u) gid ∧
  unquoteString (cb_caData body) = Some caData ∧ cb_namespace body ≠ "" ∧
  check_cluster_name (cb_name body) = inr tt ∧
  (∀ x, is_cluster w x → Cluster.name x ≠ cb_name body) ∧
  c = new_cluster newID gid (Emit [kube_config caData body]) body.

(** The outcome: the cluster is registered and the answer tells its ID and name, or the
    request fails and there is no cluster with the ID - except after some errors, which the
    answer gives. *)
Definition cluster_created (w : World) (r : Res Response) (w' : World) : Prop :=
  match r with
  | Ok (Reply 200 content) => ∃ c message, asked_for w c ∧ registered c w w' ∧
      content = Some (JObject [apiVersion; ("kind", JString "Cluster");
        ("metadata", JObject [("id", StringRef newID); ("name", StringRef (Cluster.name c))]);
        ("message", JString message)])
  | OutOfFuel => False
  | _ => unregistered newID w w' ∨
      ∃ c e, asked_for w c ∧ registered c w w' ∧ leftover e ∧
        (r = Ok (failure 500 e) ∨ r = Throw e)
  end.

Lemma created_refused w w1 r :
  unregistered newID w w1 → ¬ succeeded (Ok r) → cluster_created w (Ok r) w1.
Proof.
  intros Hu Hn. unfold cluster_created. destruct r as [n content|]; [|by left].
  destruct (decide (n = 200%Z)) as [->|Hne]; [destruct Hn; by exists content|].
  repeat case_match; try (by left); exfalso; apply Hne; congruence.
Qed.

Lemma created_refusal w w1 r :
  unregistered newID w w1 → refusal r → cluster_created w (Ok r) w1.
Proof.
  intros Hu Hr. apply created_refused; [done|]. destruct Hr as [[body ->]| ->]; by intros [content [=]].
Qed.

Lemma created_failure w w1 n msg :
  unregistered newID w w1 → n ≠ 200%Z → cluster_created w (Ok (failure n msg)) w1.
Proof. intros Hu Hn. apply created_refused; [done|]. by intros [content [= ? _]]. Qed.

(** The part of a state that a lookup sees. *)
Lemma registered_since c w w1 w2 : read_only w w1 → registered c w1 w2 → registered c w w2.
Proof.
  intros Hro ([H1 H2 H3 Hx H4 H5] & Hg & Hc).
  destruct (read_only_federation w w1 Hro) as (Hd & Hcl & Hgr & Ha).
  split; [|done]. split; [done..|by etrans| | |by etrans].
  - intros x Hne. rewrite Hx by done. apply Hcl.
  - intros c' g Hne Hg'. rewrite H4 by done. by apply Hgr.
Qed.

Lemma unregistered_since id w w1 w2 :
  read_only w w1 → but_cluster id w1 w2 → but_cluster id w w2.
Proof.
  intros Hro [H1 H2 H3 Hx H4 H5].
  destruct (read_only_federation w w1 Hro) as (Hd & Hcl & Hgr & Ha).
  split; [done..|by etrans| | |by etrans].
  - intros x Hne. rewrite Hx by done. apply Hcl.
  - intros c' g Hne Hg'. rewrite H4 by done. by apply Hgr.
Qed.

Lemma register_cluster_spec w w1 c :
  FedInv w1 → healthy (db w1) → guests_proper w1 → read_only w w1 → asked_for w c →
  compatible_cluster (table w1 SLATE_clusters) c → proper_cluster c → Cluster.id c = newID →
  wp (register_cluster dnsClient c) (cluster_created w) w1.
Proof.
  intros Hi Hh Hg Hro Ha Hc Hp Hid. unfold register_cluster.
  eapply wp_seq; [by apply addCluster_registers| |by intros e w2 [[=] _]|by intros w2 [[=] _]].
  intros b w2 [[= ->] Hr2]. simpl.
  eapply (wp_seq (λ r w3, match r with
    | Ok (inr _) => registered c w w3
    | Ok (inl e) | Throw e => unregistered newID w w3 ∨ registered c w w3 ∧ leftover e
    | OutOfFuel => False end)).
  - pose proof (wp_ensureClusterSetup dnsClient c w w2 (registered_since _ _ _ _ Hro Hr2)) as Hs.
    rewrite <- Hid. unfold wp, try_catch, mbind, M_bind in *.
    destruct (ensureClusterSetup dnsClient c true w2) as [[a|e|] w3]; simpl in *; [done| |done].
    by destruct (runtime_error e).
  - intros [e|message] w3 Hr3; apply wp_ret.
    + destruct Hr3 as [Hu|[Hr3 He]]; [by apply created_failure|]. right. exists c, e.
      split_and!; [done..|by left].
    + simpl. exists c, message. split; [done|]. split; [done|]. by rewrite Hid.
  - intros e w3 [Hu|[Hr3 He]]; [by left|]. right. exists c, e.
    split_and!; [done..|by right].
  - done.
Qed.

Section steps.
Context (w : World) (Hfresh : ∀ x, is_cluster w x → Cluster.id x ≠ newID).
Context (Hh : healthy (db w)) (Hg : guests_proper w).

Lemma still_unregistered w1 : FedInv w1 → read_only w w1 → unregistered newID w w1.
Proof.
  intros Hi Hro. split.
  - apply (unregistered_since newID w w1); [done|].
    apply but_cluster_refl; [done|by apply Hro].
  - intros x Hx. apply Hfresh. by apply (read_only_is_cluster w w1).
Qed.

Lemma wp_created_look {A} (m : Store A) (Q : Res A → Prop) (k : A → Store Response) w1 :
  read_only w w1 → wp m (λ r w', FedInv w' ∧ read_only w1 w' ∧ Q r) w1 → ¬ Q OutOfFuel →
  (∀ a w', FedInv w' → read_only w w' → Q (Ok a) → wp (k a) (cluster_created w) w') →
  wp (m ≫= k) (cluster_created w) w1.
Proof.
  intros Hro Hm Hn Hk. eapply wp_seq; [exact Hm| | |].
  - intros a w' (Hi' & Hro' & HQ). apply Hk; [done|by etrans|done].
  - intros e w' (Hi' & Hro' & _). left. apply still_unregistered; [done|by etrans].
  - by intros w' (_ & _ & HQ).
Qed.

(** The check of the name, and all that follows. *)
Lemma wp_named u body gid caData w1 :
  cluster_id newID → FedInv w1 → read_only w w1 →
  requester w (token_of req) u → cluster_body_of req = inr body →
  names w (cb_group body) gid → begins_with gid groupIDPrefix = true →
  is_member w (User.id u) gid →
  unquoteString (cb_caData body) = Some caData → cb_namespace body ≠ "" →
  wp (checked (check_cluster_name (cb_name body)) (λ _,
        taken ← findClusterByName (cb_name body);
        if Cluster.valid taken then mret (failure 400 "Cluster name is already in use") else
        register_cluster dnsClient (new_cluster newID gid (Emit [kube_config caData body]) body)))
    (cluster_created w) w1.
Proof.
  intros Hid Hi Hro Hu Hb Hn Hp Hm Hca Hns.
  destruct (check_cluster_name (cb_name body)) as [r|[]] eqn:Hck; simpl.
  { apply wp_ret, created_refusal; [by apply still_unregistered|]. revert Hck.
    unfold check_cluster_name. case_match; [intros [= <-]; left; by eexists|].
    case_match; [intros [= <-]; left; by eexists|done]. }
  assert (Hpre : begins_with (cb_name body) clusterIDPrefix = false).
  { revert Hck. unfold check_cluster_name. by repeat case_match. }
  rewrite findClusterByName_getCluster by done.
  eapply wp_created_look; [done|by apply getCluster_fed|by intros []|].
  intros c w2 Hi2 Hro2 [(Hv & _)|[-> Hno]]; simpl.
  { rewrite Hv. apply wp_ret, created_failure; [by apply still_unregistered|done]. }
  assert (Hno' : ∀ x, is_cluster w x → Cluster.name x ≠ cb_name body).
  { intros x Hx Hname. apply (Hno (proj2 Hro Hh) x); [by apply (read_only_is_cluster w w1)|].
    unfold cluster_names. rewrite Hpre. exists x.
    split; [by apply (read_only_is_cluster w w1)|done]. }
  assert (Hback : ∀ x, stored_cluster (table w2 SLATE_clusters) x → is_cluster w x).
  { intros x Hx. by apply (read_only_is_cluster w w2). }
  apply register_cluster_spec; [done|by apply Hro2|by eapply read_only_guests|done| | |by split|done].
  - by exists u, body, gid, caData.
  - split; [done|]. split; [by destruct newID; destruct Hid|]. split; [done|].
    intros x Hx%Hback. simpl. split; intros Heq; [by destruct (Hfresh x Hx)|by destruct (Hno' x Hx)].
Qed.

Lemma createCluster_spec :
  FedInv w → cluster_id newID → wp (createCluster dnsClient newID req) (cluster_created w) w.
Proof.
  intros Hi Hid. unfold createCluster.
  eapply wp_created_look; [done|by apply authenticateUser_fed|by intros (? & [=] & _)|].
  intros u w1 Hi1 Hro1 (u' & [= <-] & Hu & _). destruct (User.valid u); simpl.
  2: { apply created_failure; [by apply still_unregistered|done]. }
  specialize (Hu eq_refl).
  destruct (cluster_body_of req) as [r|body] eqn:Hb; simpl.
  { apply wp_ret, created_refusal; [by apply still_unregistered|]. by apply (cluster_body_refuses req). }
  destruct (unquoteString_ends (cb_caData body)) as [caData Hca]. rewrite Hca.
  apply (wp_run _ _ _ _ caData w1); [done|]. cbv zeta.
  destruct (str_empty (cb_namespace body)) eqn:Hns.
  { apply created_failure; [by apply still_unregistered|done]. }
  assert (Hns' : cb_namespace body ≠ "") by (intros Heq; by rewrite Heq in Hns).
  assert (Hmember : ∀ gid w2, FedInv w2 → read_only w w2 → names w (cb_group body) gid →
    begins_with gid groupIDPrefix = true →
    wp (member ← userInGroup (User.id u) gid;
        if negb member then mret (failure 403 "User not authorized") else
        checked (check_cluster_name (cb_name body)) (λ _,
          taken ← findClusterByName (cb_name body);
          if Cluster.valid taken then mret (failure 400 "Cluster name is already in use") else
          register_cluster dnsClient (new_cluster newID gid (Emit [kube_config caData body]) body)))
      (cluster_created w) w2).
  { intros gid w2 Hi2 Hro2 Hn Hp.
    assert (Hne : User.id u ≠ "").
    { eapply requester_id; [apply Hi2|]. destruct Hu as [Hu Ht]. split; [|exact Ht].
      by apply (read_only_directory _ _ Hro2). }
    eapply wp_created_look; [done|by apply userInGroup_fed|by intros (? & [=] & _)|].
    intros b w3 Hi3 Hro3 (b' & [= <-] & Hmem). destruct b; simpl.
    2: { apply created_failure; [by apply still_unregistered|done]. }
    destruct (Hmem eq_refl) as (gid' & Hn' & Hm). unfold names in Hn'. rewrite Hp in Hn'. subst gid'.
    assert (Hm0 : is_member w (User.id u) gid) by by apply (read_only_directory _ _ Hro2).
    by eapply wp_named. }
  unfold owning_group. destruct (begins_with (cb_group body) groupIDPrefix) eqn:Hp.
  { apply (wp_run _ _ _ _ (Some (cb_group body)) w1); [done|]. apply Hmember; [done..| |done].
    unfold names. by rewrite Hp. }
  apply wp_assoc. replace (findGroupByName (cb_group body)) with (getGroup (cb_group body))
    by (unfold getGroup; by rewrite Hp).
  eapply wp_created_look; [done|by apply getGroup_fed|by intros []|]. rewrite Hp.
  intros g w2 Hi2 Hro2 Hgrp. apply (wp_run _ _ _ _ _ w2 ltac:(done)).
  destruct Hgrp as [(Hv & Hgid & Hgr)|[-> _]]; [rewrite Hv|].
  2: { apply created_failure; [by apply still_unregistered|done]. }
  assert (Hg0 : is_group w g) by by apply (read_only_directory _ _ Hro1).
  apply Hmember; [done|done| |by apply (si_group_ids _ (fi_server _ Hi))].
  unfold names. rewrite Hp. by exists g.
Qed.
End steps.
End request.

(** * Properties *)

Section theorems.
Context `{D : Dynamo} `{P : Platform} `{PR : !Processes} `{J : !JsonParser} `{Y : !Yaml}.
Context `{R : !Route53 FS} `{S : !Settings}.
Context `{L : !DynamoLaws} `{DL : !DiskLaws} `{PL : !ProcessLaws} `{NL : !NetLaws}.

(** C8: registering a cluster on an available service. With status 200 exactly the cluster of
    the request has been added: its configuration is made from the certificate, the token and
    the address of the request, the user is a member of the group that owns it, and its name is
    a DNS label that no other cluster has. When the cluster cannot be reached or is not set up
    as it should be, its record is removed again; after four kinds of errors, which are part of
    the answer, it stays. Nothing else of the federation changes, and the request ends. *)
Theorem createCluster_correct (dnsClient : DNSManipulator.t) (newID : string) (req : Request)
    (w : World) :
  FedInv w → healthy (db w) → guests_proper w → cluster_id newID →
  (∀ x, is_cluster w x → Cluster.id x ≠ newID) →
  wp (createCluster dnsClient newID req) (cluster_created newID req w) w.
Proof. intros Hi Hh Hg Hid Hf. by apply createCluster_spec. Qed.
End theorems.
