(* ===== verification/Claims.v ===== *)
(** What the commands about volume claims guarantee: who may see, create and delete claims,
    what they leave in the store, and that a claim that is in use is not deleted. *)

From S2P Require Import Prelude Text Entities Cache Dynamo Store Demo Kubernetes Listing.
From S2P Require Import Catalogue StoreGroups StoreUsers StoreMembership StoreClusters.
From S2P Require Import StoreAccess StoreInstances StoreSecrets StoreVolumes StoreMonCreds.
From S2P Require Import Directory Federation Http UserCommands GroupCommands ClusterCommands.
From S2P Require Import SecretCommands VolumeCommands Server Service Authorization Vault Custody.

(** * Claims are records of a group on a cluster *)

Local Abbreviation Claim := PersistentVolumeClaim.t.

Section ward.
Context `{D : Dynamo} `{P : Platform} `{L : !DynamoLaws}.

#[global] Instance volume_ward : Ward Claim := {
  ward_kind := volume_kind;
  ward_inv := VolumesInv;
  ward_group := PersistentVolumeClaim.group;
  ward_cluster := PersistentVolumeClaim.cluster;
  ward_valid := PersistentVolumeClaim.valid;
  ward_get := getPersistentVolumeClaim;
  ward_remove := removePersistentVolumeClaim;
  ward_whole := true }.

#[global] Instance volume_ward_laws : WardLaws Claim.
Proof.
  split; try done.
  - apply _.
  - compute_done.
  - intros w w' Hi Ht Hc. apply (KindInv_same volume_kind w); [done..|]. simpl.
    unfold ward_caches in Hc. by injection Hc as _ _ ->.
  - by intros w v (it & _ & Hv & _).
  - intros id w Hi. eapply wp_mono, getPersistentVolumeClaim_spec, Hi. intros r w' Hp. by split; [apply Hp|].
  - intros id. unfold ward_get, getPersistentVolumeClaim, cache_volume. simpl. split; solve_frame.
  - intros id w Hi. by apply removePersistentVolumeClaim_spec.
  - intros id. unfold ward_remove, removePersistentVolumeClaim, forget_volume. simpl.
    split; solve_frame.
Qed.
End ward.

Local Abbreviation VaultInv := (Vault.VaultInv Claim).
Local Abbreviation tolerates := (Vault.tolerates Claim).

Section lookup.
Context `{D : Dynamo} `{P : Platform} `{L : !DynamoLaws} `{DL : !DiskLaws}.

Lemma wp_vault_volume w0 Q id msg (k : Claim → Store Response) w :
  tolerates w0 Q → VaultInv w → read_only w0 w →
  (∀ v w', is_volume w0 (without_selectors v) → PersistentVolumeClaim.id v = id → VaultInv w' →
     read_only w0 w' → wp (k v) Q w') →
  wp (volume ← getPersistentVolumeClaim id;
      if negb (PersistentVolumeClaim.valid volume) then mret (failure 404 msg) else k volume) Q w.
Proof. intros Ht. exact (wp_vault_get Claim w0 Q Ht id msg k w). Qed.

Lemma read_only_is_volume w w' v : read_only w w' → is_volume w' v ↔ is_volume w v.
Proof. exact (read_only_held Claim w w' v). Qed.

End lookup.

(** * Reading claims *)

Section reading.
Context `{D : Dynamo} `{P : Platform} `{PR : !Processes} `{J : !JsonParser}.
Context `{L : !DynamoLaws} `{DL : !DiskLaws} `{PL : !ProcessLaws}.

(** Metadata of a claim, from its group on. *)
Definition placed (v : Claim) (metadata : list (string * Json)) : Prop := ∃ group cluster,
  metadata = [("group", JString group); ("cluster", JString cluster);
    ("storageRequest", JString (PersistentVolumeClaim.storageRequest v));
    ("accessMode", JString (PersistentVolumeClaim.accessMode_to_string
       (PersistentVolumeClaim.accessMode v)));
    ("volumeMode", JString (PersistentVolumeClaim.volumeMode_to_string
       (PersistentVolumeClaim.volumeMode v)));
    ("storageClass", JString (PersistentVolumeClaim.storageClass v));
    ("created", JString (PersistentVolumeClaim.ctime v))].

Lemma volume_metadata_result v w metadata :
  (volume_metadata v w).1 = Ok metadata → placed v metadata.
Proof.
  unfold volume_metadata, mbind, M_bind.
  destruct (getGroup _ w) as [[g|e|] w1]; [|done..].
  destruct (getCluster _ w1) as [[c|e|] w2]; [|done..].
  simpl. intros [= <-]. by exists (Group.name g), (Cluster.name c).
Qed.

Lemma inquires_volume_metadata v : inquires Claim (volume_metadata v).
Proof. unfold volume_metadata. solve_inquires. Qed.

Lemma volume_metadata_placed v w :
  VaultInv w → wp (volume_metadata v) (λ r w', VaultInv w' ∧ read_only w w' ∧
    ∀ metadata, r = Ok metadata → placed v metadata) w.
Proof.
  intros Hi. destruct (inquires_volume_metadata v w Hi) as (Hi' & Hro & _).
  split; [done|]. split; [done|]. apply volume_metadata_result.
Qed.

Lemma inquires_claim_details query : inquires Claim (claim_details query).
Proof. unfold claim_details. solve_inquires. Qed.

(** What a reply about the claim [claimID] discloses, and to whom. *)
Definition claim_disclosed (claimID : string) (token : option string) (w : World)
    (content : option Json) : Prop :=
  ∃ u v metadata details, requester w token u ∧ is_volume w (without_selectors v) ∧
    PersistentVolumeClaim.id v = claimID ∧ oversees Claim w u v ∧ placed v metadata ∧
    content = Some (JObject ([apiVersion; ("kind", JString "PersistentVolumeClaim");
      ("metadata", JObject (("id", JString (PersistentVolumeClaim.id v))
         :: ("name", JString (PersistentVolumeClaim.name v)) :: metadata))] ++ details)).

Lemma fetchVolumeClaimInfo_disclosed claimID req w :
  VaultInv w →
  wp (fetchVolumeClaimInfo claimID req)
    (reads Claim w (claim_disclosed claimID (token_of req) w)) w.
Proof.
  intros Hi. unfold fetchVolumeClaimInfo.
  pose proof (reads_tolerates Claim w (claim_disclosed claimID (token_of req) w)) as Ht.
  apply (wp_vault_user Claim w); [apply Ht|done..|]. intros u w1 Hu Hne Hi1 Hro1.
  apply (wp_vault_volume w); [apply Ht|done..|]. intros v w2 Hv Hid Hi2 Hro2.
  refine (wp_vault_manager Claim w _ u v _ _ _ _ _ _ _ _); [apply Ht|done..|]. intros w3 Hm Hi3 Hro3.
  apply (wp_inquires Claim _ w); [apply Ht|solve_inquires|done..|]. intros c w4 Hi4 Hro4.
  destruct (Cluster.valid c); simpl; [|by apply (tolerates_failure Claim w); [apply Ht|..]].
  apply (wp_inquires Claim _ w); [apply Ht|solve_inquires|done..|]. intros path w5 Hi5 Hro5.
  apply (wp_inquires Claim _ w); [apply Ht|solve_inquires|done..|]. intros g w6 Hi6 Hro6.
  eapply (wp_vault Claim w _ Ht); [done|by apply volume_metadata_placed|].
  intros metadata w7 Hi7 Hro7 _ Hpl. specialize (Hpl _ eq_refl).
  apply (wp_inquires Claim _ w); [apply Ht|solve_inquires|done..|]. intros query w8 Hi8 Hro8.
  apply (wp_inquires Claim _ w); [apply Ht|apply inquires_claim_details|done..|].
  intros details w9 Hi9 Hro9. apply wp_ret. split; [done|]. split; [done|]. intros content [= <-].
  by exists u, v, metadata, details.
Qed.

(** ** Listings *)

(** The item of a claim in a listing. *)
Definition claim_item (v : Claim) (item : Json) : Prop := ∃ group cluster status,
  item = JObject [apiVersion; ("kind", JString "PersistentVolumeClaim");
    ("metadata", JObject
      [("id", JString (PersistentVolumeClaim.id v)); ("name", JString (PersistentVolumeClaim.name v));
       ("group", JString group); ("cluster", JString cluster);
       ("storageRequest", JString (PersistentVolumeClaim.storageRequest v));
       ("storageClass", JString (PersistentVolumeClaim.storageClass v));
       ("accessMode", JString (PersistentVolumeClaim.accessMode_to_string
          (PersistentVolumeClaim.accessMode v)));
       ("volumeMode", JString (PersistentVolumeClaim.volumeMode_to_string
          (PersistentVolumeClaim.volumeMode v)));
       ("created", JString (PersistentVolumeClaim.ctime v)); ("status", status)])].

Lemma volume_item_result v w item : (volume_item_json v w).1 = Ok item → claim_item v item.
Proof.
  unfold volume_item_json, mbind, M_bind.
  destruct (getGroup _ w) as [[g|e|] w1]; [|done..].
  destruct (getCluster _ w1) as [[c|e|] w2]; [|done..].
  destruct (configPathForCluster _ w2) as [[path|e|] w3]; [|done..].
  destruct (getGroup _ w3) as [[g'|e|] w4]; [|done..]. cbv zeta.
  destruct (kubectl _ _ w4) as [[result|e|] w5]; [|done..].
  intros [= <-]. by exists (Group.name g), (Cluster.name c), (phase_of (Parse (c_str (output result)))).
Qed.

Lemma volume_items_spec l w :
  VaultInv w → wp (for_collect l volume_item_json) (λ r w', VaultInv w' ∧ read_only w w' ∧
    ∀ items, r = Ok items → Forall2 claim_item l items) w.
Proof.
  apply (items_spec Claim); [|apply volume_item_result]. intros v. unfold volume_item_json.
  solve_inquires.
Qed.

(** The arguments of a listing by group, cluster or both: IDs, where that of the cluster is
    told from the clusters of the claims, as a whole ID is. *)
Definition listing_given (req : Request) (w : World) : Prop :=
  (is_Some (param req "group") ∨ is_Some (param req "cluster")) ∧
  group_arg (default "" (param req "group")) ∧ no_colon (default "" (param req "group")) ∧
  cluster_arg (default "" (param req "cluster")) ∧
  distinct_volume_clusters w (default "" (param req "cluster")).

(** What a listing discloses, and to whom: claims of the group and cluster asked for. *)
Definition claims_listed (req : Request) (w : World) (content : option Json) : Prop :=
  ∃ u l items, requester w (token_of req) u ∧ Forall2 claim_item l items ∧
    (∀ v, v ∈ l → is_volume w (without_selectors v) ∧
       listed_in PersistentVolumeClaim.group PersistentVolumeClaim.cluster
         (default "" (param req "group")) (default "" (param req "cluster")) v) ∧
    content = Some (JObject [apiVersion; ("items", JArray items)]).

Lemma listing_frames g c :
  group_arg g → cluster_arg c →
  frame estate (listPersistentVolumeClaimsByClusterOrGroup g c) ∧
  frame fs (listPersistentVolumeClaimsByClusterOrGroup g c).
Proof.
  intros Hg Hc. unfold listPersistentVolumeClaimsByClusterOrGroup, cache_listed_volume, list_query.
  rewrite normalize_group_arg, normalize_cluster_arg by done.
  split; repeat first [progress solve_frame|progress cbv zeta].
Qed.

Lemma listing_spec g c w :
  VaultInv w → group_arg g → no_colon g → cluster_arg c → distinct_volume_clusters w c →
  wp (listPersistentVolumeClaimsByClusterOrGroup g c) (λ r w', VaultInv w' ∧ read_only w w' ∧
    ∃ l, r = Ok l ∧ ∀ v, v ∈ l → is_volume w (without_selectors v) ∧
      listed_in PersistentVolumeClaim.group PersistentVolumeClaim.cluster g c v) w.
Proof.
  intros Hi Hg Hcol Hc Hd. destruct (listing_frames g c Hg Hc) as [He Hf].
  apply (vault_wards Claim); [done| |done..].
  eapply wp_mono, list_volumes_by_spec; [|apply Hi|done..].
  intros r w' (Hi' & Hro & l & Hr & Hl & _). split; [done|]. split; [done|].
  exists l. split; [done|]. intros v Hv. by apply Hl.
Qed.

Lemma listVolumeClaims_listed fuel req w :
  VaultInv w → listing_given req w →
  wp (listVolumeClaims fuel req) (reads Claim w (claims_listed req w)) w.
Proof.
  intros Hi (Hsome & Hga & Hcol & Hca & Hd). unfold listVolumeClaims.
  pose proof (reads_tolerates Claim w (claims_listed req w)) as Ht.
  apply (wp_vault_user Claim w); [apply Ht|done..|]. intros u w1 Hu Hne Hi1 Hro1.
  assert (Hm : requested_volumes fuel req = listPersistentVolumeClaimsByClusterOrGroup
    (default "" (param req "group")) (default "" (param req "cluster"))).
  { unfold requested_volumes. destruct (param req "group"), (param req "cluster"); try done.
    by destruct Hsome as [[? [=]]|[? [=]]]. }
  rewrite Hm. clear Hm.
  eapply (wp_vault Claim w _ Ht); [done|apply listing_spec; try done|].
  { intros Hne' v Hv%(read_only_is_volume w); [|done]. by apply Hd. }
  intros l w2 Hi2 Hro2 _ (l' & [= <-] & Hl).
  eapply (wp_vault Claim w _ Ht); [done|by apply volume_items_spec|].
  intros items w3 Hi3 Hro3 _ Hitems. apply wp_ret. split; [done|]. split; [done|].
  intros content [= <-]. exists u, l, items. split_and!; [done|by apply Hitems| |done].
  intros v Hv. destruct (Hl v Hv) as [? ?]. split; [|done]. by apply (read_only_is_volume w w1).
Qed.
End reading.

(** * Deleting claims *)

Section deleting.
Context `{D : Dynamo} `{P : Platform} `{PR : !Processes} `{J : !JsonParser}.
Context `{L : !DynamoLaws} `{DL : !DiskLaws} `{PL : !ProcessLaws}.

Lemma inquires_unlink_volume v force : inquires Claim (unlink_volume v force).
Proof. unfold unlink_volume. solve_inquires. Qed.

Lemma delete_volume_spec v force reachable w :
  VaultInv w →
  wp (delete_volume v force reachable) (deleted_post Claim (PersistentVolumeClaim.id v) w) w.
Proof.
  intros Hi. refine (remove_after_spec Claim (if reachable then unlink_volume v force else mret "")
    (PersistentVolumeClaim.id v) "Failed to delete volume from database" w _ ltac:(done) Hi).
  destruct reachable; [apply inquires_unlink_volume|apply inquires_ret].
Qed.

Lemma deleteVolumeClaim_spec claimID req w :
  VaultInv w →
  wp (deleteVolumeClaim claimID req) (delete_post Claim (oversees Claim) claimID (token_of req) w) w.
Proof.
  intros Hi. unfold deleteVolumeClaim.
  pose proof (delete_post_tolerates Claim (oversees Claim) claimID (token_of req) w) as Ht.
  apply (wp_vault_user Claim w); [done..|]. intros u w1 Hu Hne Hi1 Hro1.
  apply (wp_vault_volume w); [done..|]. intros v w2 Hv Hid Hi2 Hro2.
  refine (wp_vault_manager Claim w _ u v _ _ _ _ _ _ _ _); [done..|]. intros w3 Hm Hi3 Hro3.
  apply (wp_delete_reply Claim _ _ _ u v); [done..|].
  rewrite <- Hid. by apply delete_volume_spec.
Qed.

(** ** Claims in use *)

(** The pod has a volume that is made from the claim with that name. *)
Definition mounts (name : string) (pod : Json) : Prop :=
  ∃ podVolumes podVolume claim,
    ((member "spec" pod ≫= member "volumes") ≫= get_array) = Some podVolumes ∧
    podVolume ∈ podVolumes ∧ member "persistentVolumeClaim" podVolume = Some claim ∧
    member "claimName" claim = Some (JString name).

Lemma collect_mounts_nil name pod podVolumes :
  collect_mounts name pod podVolumes = Some [] →
  ∀ podVolume claim, podVolume ∈ podVolumes → member "persistentVolumeClaim" podVolume = Some claim →
    member "claimName" claim ≠ Some (JString name).
Proof.
  induction podVolumes as [|v vs IH]; intros Hl podVolume claim Hin Hc Hn.
  { by apply not_elem_of_nil in Hin. }
  cbn [collect_mounts] in Hl.
  destruct (mounted_by name pod v) as [l1|] eqn:H1; [|done]. simpl in Hl.
  destruct (collect_mounts name pod vs) as [l2|] eqn:H2; [|done]. simpl in Hl.
  injection Hl as Hl. apply app_eq_nil in Hl as [-> ->].
  apply elem_of_cons in Hin as [->|Hin]; [|by eapply IH].
  revert H1. unfold mounted_by, has_member.
  destruct v as [| | | | |members]; try done. simpl in Hc |- *. rewrite Hc. simpl. rewrite Hn. simpl.
  rewrite bool_decide_true by done. intros E.
  repeat first [apply bind_Some in E as (? & _ & E)
    |match type of E with (if ?b then _ else _) = _ => destruct b end|done].
Qed.

Lemma podsMountedBy_nil name pods :
  podsMountedBy name pods = Some [] → ∀ pod, pod ∈ pods → ¬ mounts name pod.
Proof.
  induction pods as [|p ps IH]; intros Hl pod Hin Hm; [by apply not_elem_of_nil in Hin|].
  destruct Hm as (podVolumes & podVolume & claim & Hv & Hvin & Hc & Hn). cbn [podsMountedBy] in Hl.
  destruct (is_object p) eqn:Ho; simpl in Hl.
  2: { apply elem_of_cons in Hin as [->|Hin]; [by destruct p|].
       apply (IH Hl pod Hin). by exists podVolumes, podVolume, claim. }
  apply bind_Some in Hl as (_ & _ & Hl). apply bind_Some in Hl as (vs & Hvs & Hl).
  apply bind_Some in Hl as (l1 & H1 & Hl). apply bind_Some in Hl as (l2 & H2 & Hl).
  injection Hl as Hl. apply app_eq_nil in Hl as [-> ->].
  apply elem_of_cons in Hin as [->|Hin].
  - rewrite Hvs in Hv. injection Hv as ->. by apply (collect_mounts_nil _ _ _ H1 podVolume claim).
  - apply (IH H2 pod Hin). by exists podVolumes, podVolume, claim.
Qed.

Lemma wp_try_uncaught {A} (m : Store A) h Q w :
  wp m (λ r w', (∀ e, r = Throw e → runtime_error e = false) ∧ Q r w') w → wp (try_catch m h) Q w.
Proof.
  unfold wp, try_catch. destruct (m w) as [[a|e|] w']; simpl; [by intros [_ ?]| |by intros [_ ?]].
  intros [Hn HQ]. by rewrite (Hn e).
Qed.

Context (v : Claim) (g : Group.t) (c : Cluster.t).

(** Whatever configuration it is asked with, Kubernetes answers that a pod in the group's
    namespace mounts the claim. *)
Definition reported_in_use : Prop := ∀ configPath w, ∃ result pods pod,
  (kubectl configPath ["get"; "pods"; "--namespace"; Group.namespaceName g; "-o=json"] w).1
    = Ok result ∧
  member "items" (Parse (c_str (output result))) = Some (JArray pods) ∧ pod ∈ pods ∧
  mounts (PersistentVolumeClaim.name v) pod.

Lemma unlink_volume_in_use force w :
  VaultInv w → healthy (db w) → is_group w g → Group.id g = PersistentVolumeClaim.group v →
  is_cluster w c → Cluster.id c = PersistentVolumeClaim.cluster v → reported_in_use →
  wp (unlink_volume v force) (λ r w', VaultInv w' ∧ read_only w w' ∧
    match r with Ok err => err ≠ "" | Throw _ => True | OutOfFuel => False end) w.
Proof.
  intros Hi Hh Hg Hgid Hc Hcid Huse. unfold unlink_volume.
  eapply wp_seq; [apply (vault_fed Claim); [done| |by apply findGroupByID_fed, va_fed]| | |].
  { unfold findGroupByID, cache_group. solve_frame. }
  2: by intros e w1 (_ & _ & []).
  2: by intros w1 (_ & _ & []).
  intros g' w1 (Hi1 & Hro1 & Hr). simpl in Hr.
  assert (g' = g) as ->.
  { destruct Hr as [(_ & Hid & Hg')|[_ Hn]]; [|by destruct (Hn Hh g Hg)].
    eapply stored_group_inj; [exact Hg'|exact Hg|congruence]. }
  apply wp_try_uncaught. eapply wp_seq; [apply (vault_fed Claim); [done| |]| | |].
  { apply configPathForCluster_frame. }
  { by apply configPathForCluster_fed, va_fed. }
  2: { intros e w2 (_ & _ & Hn). destruct (Hn (proj2 Hro1 Hh) c); [|done].
       by apply (read_only_is_cluster w w1). }
  2: by intros w2 (_ & _ & []).
  intros path w2 (Hi2 & Hro2 & _). destruct (Huse path w2) as (result & pods & pod & Hk & Hp & Hin & Hm).
  eapply wp_seq; [apply wp_result, (inquires_kubectl Claim), Hi2| | |]; rewrite Hk.
  2: by intros e w3 (_ & [=]).
  2: by intros w3 (_ & [=]).
  intros result' w3 ((Hi3 & Hro3 & _) & [= ->]). rewrite Hp. simpl.
  assert (Hro : read_only w w3) by (etrans; [|exact Hro3]; by etrans).
  destruct (podsMountedBy (PersistentVolumeClaim.name v) pods) as [mounted|] eqn:Hmt; simpl.
  - eapply wp_run; [reflexivity|]. destruct mounted as [|x mounted].
    { by destruct (podsMountedBy_nil _ _ Hmt pod Hin). }
    apply wp_ret. by split_and!.
  - unfold wp. simpl. split; [by intros e [= <-]|]. by split_and!.
Qed.

Lemma delete_volume_in_use force w :
  VaultInv w → healthy (db w) → is_group w g → Group.id g = PersistentVolumeClaim.group v →
  is_cluster w c → Cluster.id c = PersistentVolumeClaim.cluster v → reported_in_use →
  wp (delete_volume v force true) (λ r w', vault_step Claim w w' ∧ same_held Claim w w' ∧
    match r with Ok err => err ≠ "" | Throw _ => True | OutOfFuel => False end) w.
Proof.
  intros. unfold delete_volume. eapply wp_seq; [by apply unlink_volume_in_use| | |].
  - intros err w' (Hi' & Hro & Hne). destruct (str_empty err) eqn:He.
    { by apply str_empty_true in He. }
    apply wp_ret. split; [by apply vault_step_read|]. split; [by apply same_held_read|done].
  - intros e w' (Hi' & Hro & _). split; [by apply vault_step_read|]. split; [by apply same_held_read|done].
  - by intros w' (_ & _ & []).
Qed.
End deleting.

(** * Creating claims *)

Section creating.
Context `{D : Dynamo} `{P : Platform} `{PR : !Processes} `{J : !JsonParser} `{JS : !JsonSerializer}.
Context `{L : !DynamoLaws} `{DL : !DiskLaws} `{PL : !ProcessLaws}.

(** ** What is put into Kubernetes *)

(** Whether the claim stays: there is no reply that says otherwise. *)
Definition kept (r : option Response) : bool := from_option Custody.kept true r.

Lemma tidy_install_volume configPath group v :
  tidy [] (λ _, true) (install_volume configPath group v).
Proof.
  assert (Hrm : ∀ paths id, tidy paths (λ _, true) (removePersistentVolumeClaim id)).
  { intros paths id. apply tidy_frame. unfold removePersistentVolumeClaim, forget_volume. solve_frame. }
  apply tidy_bind.
  { apply tidy_try; [|intros e; by apply tidy_frame].
    apply tidy_bind; [apply tidy_create_namespace|]. intros _. by apply tidy_frame. }
  intros [err|].
  { apply tidy_bind; [apply Hrm|]. intros _. by apply tidy_frame. }
  apply tidy_with_temporary. intros path. apply tidy_write. intros _.
  apply tidy_bind; [apply tidy_kubectl|]. intros result. case_match; [|by apply tidy_frame].
  apply tidy_bind; [apply Hrm|]. intros _. by apply tidy_frame.
Qed.

Lemma install_volume_spec configPath group v w :
  VolumesInv w → wp (install_volume configPath group v) (installed Claim kept v w) w.
Proof.
  intros Hi. refine (wp_installed_namespace Claim kept configPath group v
    (λ err, Some (failure 500 ("Failed to create namespace: " +:+ err))) _ w Hi _ _); [done|].
  intros w1 Hw1 Hi1. apply (wp_installed_temporary Claim kept); [done|]. intros path w2 Hw2 Hi2.
  apply (wp_installed_tool Claim kept); [done|apply frame_system|]. intros _ w3 Hw3 Hi3.
  apply (wp_installed_tool Claim kept); [done|apply frame_kubectl|]. intros result w4 Hw4 Hi4.
  destruct (negb _).
  - exact (installed_remove Claim kept v w4 (Some (failure 500 _)) Hi4 eq_refl).
  - by apply wp_ret, (installed_start Claim kept).
Qed.

(** ** The new claim *)

Lemma store_volume_spec group cluster v w :
  VaultInv w → fresh Claim w v → PersistentVolumeClaim.valid v = true →
  wp (store_volume group cluster v) (stored_post Claim (λ _, true) kept v w) w.
Proof.
  intros Hi Hf Hv.
  assert (He : frame estate (addPersistentVolumeClaim v) ∧ frame fs (addPersistentVolumeClaim v)).
  { unfold addPersistentVolumeClaim, cache_volume. split; solve_frame. }
  destruct He as [He Hfs]. apply (stored_spec Claim); [done..| | |].
  - apply (add_vault Claim); [done..| | |]; [|by apply frame_try..].
    assert (Hn : new_volume w v).
    { split; [|apply (fr_id _ _ _ Hf)]. split; [done|]. split; [done|]. split; [done|].
      apply (fr_group _ _ _ Hf). }
    pose proof (addPersistentVolumeClaim_spec v w (va_ward Hi) Hn) as Hw.
    pose proof (kept_written Claim v w _ _ Hf Hw (proj1 Hw)) as Hk. unfold wp, try_catch in *.
    destruct (addPersistentVolumeClaim v w) as [[b|e|] w']; [done| |]; simpl in Hk;
      by destruct Hk as (_ & _ & _ & b & [=] & _).
  - intros path w2 Hi2. by apply install_volume_spec.
  - intros path. by apply tidy_install_volume.
Qed.

(** ** The handler *)

(** What is known of a claim that a request has made. *)
Definition made_volume (newID : string) (req : Request) (w : World) (v : Claim) : Prop :=
  ∃ u body ctime g c, requester w (token_of req) u ∧ new_volume_of newID ctime req = inr body ∧
    is_group w g ∧ names w (PersistentVolumeClaim.group body) (Group.id g) ∧
    is_member w (User.id u) (Group.id g) ∧
    is_cluster w c ∧ cluster_names w (PersistentVolumeClaim.cluster body) (Cluster.id c) ∧
    (Group.id g = Cluster.owningGroup c ∨ allowed w (Cluster.id c) (Group.id g)) ∧
    v = with_place (Group.id g) (Cluster.id c) body.

Lemma mode_refuses {A} mode (from : string → Res A) what : refuses (mode_of mode from what).
Proof.
  unfold mode_of. destruct (from mode); [apply refuses_inr|apply refuses_failure|].
  intros r [= <-]. by right.
Qed.

Lemma new_volume_refuses newID ctime req : refuses (new_volume_of newID ctime req).
Proof.
  unfold new_volume_of.
  repeat first [apply refuses_metadata|apply refuses_required_string|apply mode_refuses
    |apply refuses_and_then; [|intros]|apply refuses_failure|apply refuses_inr|case_match].
Qed.

Lemma new_volume_facts newID ctime req v :
  new_volume_of newID ctime req = inr v →
  PersistentVolumeClaim.valid v = true ∧ PersistentVolumeClaim.id v = newID.
Proof.
  unfold new_volume_of. intros E. invert_checks. repeat (case_match; [done|]). by injection E as <-.
Qed.

Lemma findVolumeByName_vault g c name w :
  VaultInv w → is_cluster w c → group_id g →
  wp (findPersistentVolumeClaimByName g (Cluster.id c) name)
    (λ r w', VaultInv w' ∧ read_only w w' ∧ True) w.
Proof.
  intros Hi Hc Hg. assert (Hcid : begins_with (Cluster.id c) clusterIDPrefix = true).
  { apply (fi_proper _ (va_fed Hi) c Hc). }
  assert (Hga : group_arg g) by (right; apply Hg). assert (Hca : cluster_arg (Cluster.id c)) by by right.
  apply (vault_wards Claim); [done| | |].
  - eapply wp_mono, findPersistentVolumeClaimByName_spec; [|apply Hi|done|done|apply Hg|].
    + intros r w6 (? & ? & _). by split_and!.
    + exact (vault_distinct Claim w c Hi Hc).
  - apply frame_bind; [by apply listing_frames|intros l; apply frame_ret].
  - apply frame_bind; [by apply listing_frames|intros l; apply frame_ret].
Qed.

(** The reply after the claim has been stored and installed, or not. *)
Lemma wp_volume_reply made v w0 w group cluster :
  VaultInv w → read_only w0 w → fresh Claim w v → PersistentVolumeClaim.valid v = true → made v →
  wp (refused ← store_volume group cluster v;
      match refused with
      | Some response => mret response
      | None =>
          metadata ← volume_metadata v;
          mret (reply [apiVersion; ("kind", JString "PersistentVolumeClaim");
            ("metadata", JObject (("name", JString (PersistentVolumeClaim.name v))
               :: ("id", JString (PersistentVolumeClaim.id v)) :: metadata))])
      end) (create_post Claim made w0) w.
Proof.
  intros Hi Hro Hf Hv Hm.
  assert (Hgo : ∀ (r : Res Response) w', stored_post Claim alive Custody.kept v w r w' →
    create_post Claim made w0 r w') by (intros r w'; by apply create_post_of_stored).
  eapply wp_seq; [by apply store_volume_spec| | |].
  2: { intros e w1. apply (Hgo (Throw e)). }
  2: { intros w1. apply (Hgo OutOfFuel). }
  intros [response|] w1 Hst.
  { apply wp_ret, Hgo. intros _. by apply Hst. }
  destruct (Hst eq_refl) as [Hst1 Hadd]. simpl in Hadd. clear Hst.
  assert (Hread : ∀ w2, VaultInv w2 → read_only w1 w2 →
    vault_step Claim w w2 ∧ added Claim v w w2).
  { intros w2 Hi2 Hro2. destruct Hst1 as (_ & Hh1 & Hs1). split.
    - destruct (vault_step_read Claim w1 w2 Hi2 Hro2) as (? & Hh & Hs). split; [done|].
      split; [auto|by etrans].
    - intros y. rewrite (read_only_held Claim w1 w2) by done. apply Hadd. }
  eapply wp_seq; [apply inquires_volume_metadata, Hst1| | |].
  - intros metadata w2 (Hi2 & Hro2 & _). apply wp_ret, Hgo. intros _. by apply Hread.
  - intros e w2 (Hi2 & Hro2 & _). apply Hgo. destruct (Hread w2); [done..|].
    split; [done|by apply (within_added Claim)].
  - by intros w2 (_ & _ & []).
Qed.

Lemma createVolumeClaim_spec newID req w :
  VaultInv w → newID ≠ "" → (∀ x, is_volume w x → PersistentVolumeClaim.id x ≠ newID) →
  wp (createVolumeClaim newID req) (create_post Claim (made_volume newID req w) w) w.
Proof.
  intros Hi Hid Hfresh. unfold createVolumeClaim.
  pose proof (create_post_tolerates Claim (made_volume newID req w) w) as Ht.
  apply (wp_vault_user Claim w); [done..|]. intros u w1 Hu Hne Hi1 Hro1.
  apply wp_gets. set (ctime := timestamp (fs w1)). clearbody ctime.
  destruct (new_volume_of newID ctime req) as [r|body] eqn:Hbody; simpl.
  { apply wp_ret. destruct (new_volume_refuses newID ctime req r Hbody) as [[b ->]| ->]; [|done].
    by apply Ht; [..|intros [content [=]]]. }
  apply (wp_vault_group Claim w); [done..|]. intros g w2 Hg Hgn Hgid Hi2 Hro2.
  apply (wp_vault_member Claim w); [done..|]. intros w3 Hm Hi3 Hro3.
  apply (wp_vault_cluster Claim w); [done..|]. intros c w4 Hc Hcn Hi4 Hro4.
  apply (wp_vault_access Claim w); [done..|]. intros w5 Hacc Hi5 Hro5.
  eapply (wp_vault Claim w _ Ht); [done|apply findVolumeByName_vault; [done| |done]|].
  { by apply (read_only_is_cluster w w5). }
  intros existing w6 Hi6 Hro6 _ _.
  destruct (PersistentVolumeClaim.valid existing); [by apply (tolerates_failure Claim w)|].
  destruct (new_volume_facts _ _ _ _ Hbody) as [Hv Hvid].
  apply (wp_volume_reply _ (with_place (Group.id g) (Cluster.id c) body)); [done..| |done|].
  - apply (fresh_at Claim _ _ c); try done; [by rewrite <- Hvid in Hid| |].
    + intros x Hx%(read_only_is_volume w); [|done]. simpl. rewrite Hvid. by apply Hfresh.
    + by apply (read_only_is_cluster w w6).
  - by exists u, body, ctime, g, c.
Qed.
End creating.

(** * Properties *)

Section theorems.
Context `{D : Dynamo} `{P : Platform} `{PR : !Processes} `{J : !JsonParser} `{JS : !JsonSerializer}.
Context `{L : !DynamoLaws} `{DL : !DiskLaws} `{PL : !ProcessLaws}.


(** C18: creating a claim: success means that one claim has been added, with the new ID and as
    the request describes it, for the group and on the cluster that were named, on behalf
    of a member of that group, which owns the cluster or has access to it. Any other reply,
    from an available service, leaves the claims as they were, also when Kubernetes refuses
    the claim after it has been stored. *)
Theorem createVolumeClaim_correct (newID : string) (req : Request) (w : World) :
  VaultInv w → newID ≠ "" → (∀ x, is_volume w x → PersistentVolumeClaim.id x ≠ newID) →
  wp (createVolumeClaim newID req) (create_post Claim (made_volume newID req w) w) w.
Proof. apply createVolumeClaim_spec. Qed.

(** C19: deleting a claim: success means that the claim with that ID, and no other, is gone, and
    that the request was made by a member of its group or an administrator; otherwise all
    claims are still there. *)
Theorem deleteVolumeClaim_correct (claimID : string) (req : Request) (w : World) :
  VaultInv w →
  wp (deleteVolumeClaim claimID req) (delete_post Claim (oversees Claim) claimID (token_of req) w) w.
Proof. apply deleteVolumeClaim_spec. Qed.

End theorems.
