(* ===== verification/Installations.v ===== *)
(** What the commands about applications and their instances guarantee: who may install an
    application and where, who may see, scale, restart, update and delete an instance, and
    what these commands leave in the store. *)

From S2P Require Import Prelude Text Entities Cache Dynamo Store Demo Kubernetes Listing.
From S2P Require Import Catalogue StoreGroups StoreUsers StoreMembership StoreClusters.
From S2P Require Import StoreAccess StoreInstances StoreSecrets StoreMonCreds StoreApplications.
From S2P Require Import Directory Federation Http UserCommands GroupCommands ClusterCommands.
From S2P Require Import ApplicationCommands InstanceCommands InstanceDetails.
From S2P Require Import Server Service Authorization Vault Custody.

(** * Instances are records of a group on a cluster *)

Local Abbreviation Instance := ApplicationInstance.t.

Section ward.
Context `{D : Dynamo} `{P : Platform} `{L : !DynamoLaws}.

#[global] Instance instance_ward : Ward Instance := {
  ward_kind := instance_kind;
  ward_inv := InstancesInv;
  ward_group := ApplicationInstance.owningGroup;
  ward_cluster := ApplicationInstance.cluster;
  ward_valid := ApplicationInstance.valid;
  ward_get := getApplicationInstance;
  ward_remove := removeApplicationInstance;
  ward_whole := false }.

#[global] Instance instance_ward_laws : WardLaws Instance.
Proof.
  split; try done.
  - apply _.
  - compute_done.
  - intros w w' [Hi Hc] Ht Hw. unfold ward_caches in Hw. injection Hw as Hw _ _.
    change (table w' SLATE_instances = table w SLATE_instances) in Ht. split.
    + apply (KindInv_same instance_kind w); [done..|]. simpl. by rewrite Hw.
    + eapply ConfigInv_same; [done|by rewrite Ht|by rewrite Hw].
  - by intros w i (it & _ & Hv & _).
  - intros id w Hi. eapply wp_mono, getApplicationInstance_spec, Hi.
    intros r w' [Hp Hc]. split; [|done]. by split; [apply Hp|].
  - intros id. unfold ward_get, getApplicationInstance, cache_instance. simpl. split; solve_frame.
  - intros id w Hi. eapply wp_mono, removeApplicationInstance_spec, Hi.
    intros r w' (Hi' & Hh & Ht & Hr). split; [done|]. split; [done|]. split; [done|].
    destruct r as [[]| |]; [apply Hr| |done..]. destruct Hr as (Hn & Hs & Hk). split; [done|].
    by split.
  - intros id. unfold ward_remove, removeApplicationInstance, forget_instance. simpl.
    split; solve_frame.
Qed.
End ward.

Local Abbreviation VaultInv := (Vault.VaultInv Instance).
Local Abbreviation tolerates := (Vault.tolerates Instance).

(** * What the handlers have in common *)

Section common.
Context `{D : Dynamo} `{P : Platform} `{PR : !Processes} `{J : !JsonParser}.
Context `{L : !DynamoLaws} `{DL : !DiskLaws} `{PL : !ProcessLaws}.

(** The requester may manage the instance [i], which has the ID of the request. *)
Definition overseen (instanceID : string) (token : option string) (w : World) (i : Instance) : Prop :=
  ∃ u, requester w token u ∧ is_instance w (without_config i) ∧
    ApplicationInstance.id i = instanceID ∧ oversees Instance w u i.

Lemma wp_as_manager w0 Q code instanceID req (k : Instance → Store Response) w :
  tolerates w0 Q → code ≠ 200%Z → VaultInv w → read_only w0 w →
  (∀ i w', overseen instanceID (token_of req) w0 i → VaultInv w' → read_only w0 w' →
     wp (k i) Q w') →
  wp (as_manager code instanceID req k) Q w.
Proof.
  intros Ht Hcode Hi Hro Hk. unfold as_manager.
  apply (wp_vault_user Instance w0); [done..|]. intros u w1 Hu Hne Hi1 Hro1.
  eapply (wp_vault Instance w0 Q Ht); [done| |].
  { destruct (ward_get_frames (T := Instance) instanceID) as [He Hf].
    apply (vault_wards Instance); [done| |done..].
    eapply wp_mono; [|exact (ward_get_spec (T := Instance) instanceID w1 (va_ward Hi1))].
    intros r w' (Hw & _ & Hr & Hx). split_and!; [done..|]. exact Hx. }
  intros i w2 Hi2 Hro2 _ [[Hid Hs]|[-> _]].
  2: { simpl. by apply (tolerates_failure Instance w0). }
  assert (Hv : ApplicationInstance.valid i = true) by exact (ward_held_valid w1 _ Hs).
  assert (Hs0 : is_instance w0 (without_config i)) by exact (proj1 (read_only_held Instance w0 w1 _ Hro1) Hs).
  rewrite Hv. simpl. refine (wp_vault_manager Instance w0 Q u i _ _ _ _ _ _ _ _); [done..|].
  intros w3 Hm Hi3 Hro3. apply Hk; [|done..]. by exists u.
Qed.

(** Its group and its cluster are looked up. *)
Lemma wp_with_owners w0 Q i (k : Group.t → Cluster.t → Store Response) w :
  tolerates w0 Q → VaultInv w → read_only w0 w →
  (∀ g c w', VaultInv w' → read_only w0 w' → wp (k g c) Q w') →
  wp (with_owners i k) Q w.
Proof.
  intros Ht Hi Hro Hk. unfold with_owners.
  apply (wp_inquires Instance _ w0); [done|solve_inquires|done..|]. intros g w1 Hi1 Hro1.
  destruct (Group.valid g); simpl; [|by apply (tolerates_failure Instance w0)].
  apply (wp_inquires Instance _ w0); [done|solve_inquires|done..|]. intros c w2 Hi2 Hro2.
  destruct (Cluster.valid c); simpl; [|by apply (tolerates_failure Instance w0)].
  by apply Hk.
Qed.

(** What is told as the configuration of the instance. *)
Definition config_of (w : World) (id config : string) : Prop :=
  stored_config w id config ∨
  (config = "" ∧ (healthy (db w) → ∀ config', ¬ stored_config w id config')).

Lemma read_only_config w w' id config :
  read_only w w' → stored_config w' id config ↔ stored_config w id config.
Proof. intros Hro. unfold stored_config. by rewrite (proj1 Hro). Qed.

Lemma read_only_config_of w0 w id config :
  read_only w0 w → config_of w id config → config_of w0 id config.
Proof.
  intros Hro [Hs|[-> Hn]]; [left; by apply (read_only_config w0 w)|right].
  split; [done|]. intros Hh c Hc. apply (Hn (proj2 Hro Hh) c). by apply (read_only_config w0 w).
Qed.

Lemma wp_config w0 Q id (k : string → Store Response) w :
  tolerates w0 Q → VaultInv w → read_only w0 w →
  (∀ config w', config_of w0 id config → VaultInv w' → read_only w0 w' → wp (k config) Q w') →
  wp (getApplicationInstanceConfig id ≫= k) Q w.
Proof.
  intros Ht Hi Hro Hk. eapply (wp_vault Instance w0 Q Ht _
    (λ r, match r with Ok c => config_of w id c | _ => False end)); [done| |].
  - apply (vault_wards Instance); [done| |unfold getApplicationInstanceConfig; solve_frame..].
    eapply wp_mono, getApplicationInstanceConfig_spec, Hi.
    intros r w' (Hi' & Hro' & Hr). by split_and!.
  - intros config w' Hi' Hro0 _ Hc. apply Hk; [|done..]. by apply (read_only_config_of w0 w).
Qed.

(** ** Loops *)

Lemma inquires_for_collect {A B} (l : list A) (f : A → Store B) :
  (∀ x, inquires Instance (f x)) → inquires Instance (for_collect l f).
Proof.
  intros Hf. induction l as [|x l IH]; cbn [for_collect]; [apply inquires_ret; apply _|].
  repeat (apply inquires_bind; [done|intros ?]). apply inquires_ret; apply _.
Qed.

Lemma inquires_lift {A} (r : Res A) : r ≠ OutOfFuel → inquires Instance (lift r).
Proof. intros Hr w Hi. by split_and!. Qed.

Lemma inquires_async {A} (m : Store A) : inquires Instance m → inquires Instance (async m).
Proof.
  intros Hm w Hi. pose proof (Hm w Hi) as Hw. unfold wp, async in *.
  destruct (m w) as [[a|e|] w1]; simpl in *; [| |by destruct Hw as (_ & _ & [])].
  - destruct Hw as (? & ? & _). by split_and!.
  - destruct Hw as (? & ? & _). split_and!; [done..|by case_bool_decide].
Qed.

(** What a task has kept is a result. *)
Lemma async_ends {A} (m : Store A) w r w' : async m w = (Ok r, w') → r ≠ OutOfFuel.
Proof.
  unfold async. destruct (m w) as [[a|e|] w1]; [by intros [= <- <-]| |done].
  case_bool_decide; [done|by intros [= <- <-]].
Qed.

Lemma inquires_bind_result {A B} (m : Store A) (R : A → Prop) (k : A → Store B) :
  inquires Instance m → (∀ w a w', m w = (Ok a, w') → R a) → (∀ a, R a → inquires Instance (k a)) →
  inquires Instance (m ≫= k).
Proof.
  intros Hm HR Hk w Hi. pose proof (Hm w Hi) as Hw. specialize (HR w). unfold wp, mbind, M_bind in *.
  destruct (m w) as [[a|e|] w1]; simpl in *; [| |by destruct Hw as (_ & _ & [])].
  2: { destruct Hw as (? & ? & _). by split_and!. }
  destruct Hw as (Hi1 & Hro1 & _). destruct (Hk a (HR _ _ eq_refl) w1 Hi1) as (? & ? & ?).
  split_and!; [done|by etrans|done].
Qed.

Lemma for_collect_each {A B} (l : list A) (f : A → Store B) (R : B → Prop) w ys w' :
  (∀ x w b w', f x w = (Ok b, w') → R b) → for_collect l f w = (Ok ys, w') → Forall R ys.
Proof.
  intros Hf. revert w ys. induction l as [|x l IH]; intros w ys; cbn [for_collect].
  { intros [= <- <-]. constructor. }
  unfold mbind, M_bind. destruct (f x w) as [[b|e|] w1] eqn:Hx; [|done..].
  destruct (for_collect l f w1) as [[bs|e|] w2] eqn:Hl; [|done..].
  intros [= <- <-]. constructor; [by eapply Hf|by eapply IH].
Qed.

Lemma inquires_over {A B} (l : list A) (R : A → Prop) (f : A → Store B) :
  Forall R l → (∀ x, R x → inquires Instance (f x)) → inquires Instance (for_collect l f).
Proof.
  intros Hl Hf. induction Hl as [|x l Hx Hl IH]; cbn [for_collect]; [apply inquires_ret; apply _|].
  apply inquires_bind; [by apply Hf|intros y]. apply inquires_bind; [done|intros ys].
  apply inquires_ret; apply _.
Qed.

Lemma inquires_run_all {A B} (l : list A) (task : A → Store B) :
  (∀ x, inquires Instance (task x)) → inquires Instance (run_all l task).
Proof.
  intros Ht. unfold run_all. apply (inquires_bind_result _ (Forall (λ r, r ≠ OutOfFuel))).
  - apply inquires_for_collect. intros x. by apply inquires_async.
  - intros w rs w'. apply for_collect_each. intros x w1 b w2. apply async_ends.
  - intros rs Hrs. by apply (inquires_over _ _ _ Hrs), inquires_lift.
Qed.
End common.

(** * Reading *)

Section reading.
Context `{D : Dynamo} `{P : Platform} `{PR : !Processes} `{J : !JsonParser}.
Context `{Y : !Yaml} `{S : !Settings}.
Context `{L : !DynamoLaws} `{DL : !DiskLaws} `{PL : !ProcessLaws}.

(** ** What only asks *)

Lemma inquires_node_port_ip configPath nspace data :
  inquires Instance (node_port_ip configPath nspace data).
Proof. unfold node_port_ip. solve_inquires. Qed.

Lemma inquires_add_services configPath nspace items services :
  inquires Instance (add_services configPath nspace services items).
Proof.
  revert services. induction items as [|x items IH]; intros services; cbn [add_services].
  { apply inquires_ret; apply _. }
  apply inquires_bind; [|intros services'; apply IH]. unfold add_service.
  repeat first [apply inquires_node_port_ip|progress solve_inquires].
Qed.

Lemma inquires_getServices configPath release nspace :
  inquires Instance (getServices configPath release nspace).
Proof.
  unfold getServices. repeat first [apply inquires_add_services|progress solve_inquires].
Qed.

Lemma inquires_details i : inquires Instance (fetchInstanceDetails i).
Proof.
  unfold fetchInstanceDetails.
  apply inquires_bind; [solve_inquires|intros g]. apply inquires_bind; [solve_inquires|intros path].
  apply inquires_bind; [solve_inquires|intros result]. case_match; [solve_inquires|].
  apply inquires_bind; [solve_inquires|intros pods].
  apply (inquires_bind_result _ (Forall (λ x, x.2 ≠ OutOfFuel))).
  - apply inquires_for_collect. intros x. apply inquires_bind; [|intros ?; apply inquires_ret; apply _].
    apply inquires_async. unfold getPodEvents. solve_inquires.
  - intros w xs w'. apply for_collect_each. intros x w1 b w2. unfold mbind, M_bind.
    destruct (async _ w1) as [[r|e|] w3] eqn:Ha; [|done..]. intros [= <- <-].
    by eapply async_ends.
  - intros xs Hxs. apply inquires_bind; [|intros ys; apply inquires_ret; apply _].
    apply (inquires_over _ _ _ Hxs). intros [info task] Ht.
    apply inquires_bind; [by apply inquires_lift|intros out]. solve_inquires.
Qed.

Lemma inquires_deployments clusterConfig i g : inquires Instance (deployments_of clusterConfig i g).
Proof. unfold deployments_of. solve_inquires. Qed.

(** ** What is disclosed, and to whom *)

(** The description of the instance: its ID, name, configuration and time of creation, and
    what Kubernetes says. *)
Definition instance_described (i : Instance) (config : string) (content : option Json) : Prop :=
  ∃ appVersion group cluster chartVersion services details,
    content = Some (JObject ([apiVersion; ("kind", JString "ApplicationInstance");
      ("metadata", JObject
        [("id", StringRef (ApplicationInstance.id i));
         ("name", StringRef (ApplicationInstance.name i));
         ("application", JString (application_name (ApplicationInstance.application i)));
         ("appVersion", JString appVersion); ("group", JString group); ("cluster", JString cluster);
         ("created", StringRef (ApplicationInstance.ctime i)); ("configuration", StringRef config);
         ("chartVersion", JString chartVersion)]);
      ("services", JArray (service_json <$> services))] ++ details)).

Definition instance_disclosed (instanceID : string) (token : option string) (w : World)
    (content : option Json) : Prop :=
  ∃ i config, overseen instanceID token w i ∧ config_of w instanceID config ∧
    instance_described i config content.

Lemma fetchInfo_disclosed instanceID req w :
  VaultInv w →
  wp (fetchApplicationInstanceInfo instanceID req)
    (reads Instance w (instance_disclosed instanceID (token_of req) w)) w.
Proof.
  intros Hi. unfold fetchApplicationInstanceInfo.
  pose proof (reads_tolerates Instance w (instance_disclosed instanceID (token_of req) w)) as Ht.
  apply (wp_as_manager w); [done..|]. intros i w1 Ho Hi1 Hro1.
  apply (wp_config w); [done..|]. intros config w2 Hc Hi2 Hro2.
  apply (wp_with_owners w); [done..|]. intros g c w3 Hi3 Hro3.
  do 7 (apply (wp_inquires Instance _ w);
    [apply Ht|solve_inquires|done..|intros ? ? ? ?]).
  apply (wp_inquires Instance _ w); [apply Ht|solve_inquires|done..|]. intros ? ? ? ?.
  apply (wp_inquires Instance _ w); [apply Ht|apply inquires_getServices|done..|].
  intros services w4 Hi4 Hro4. apply (wp_inquires Instance _ w); [apply Ht| |done..|].
  { case_match; [|solve_inquires]. apply inquires_try; [|intros ?; solve_inquires].
    apply inquires_bind; [apply inquires_details|intros ?; solve_inquires]. }
  intros details w5 Hi5 Hro5. apply wp_ret. split; [done|]. split; [done|]. intros content [= <-].
  exists i, config. split; [done|]. split; [done|]. eexists _, _, _, _, _, _. reflexivity.
Qed.

(** The scale of the deployments, or the logs. *)
Definition scale_disclosed (instanceID : string) (token : option string) (w : World)
    (content : option Json) : Prop :=
  ∃ i scales, overseen instanceID token w i ∧ Reply 200 content = scales_reply scales.

Lemma getScale_disclosed instanceID req w :
  VaultInv w →
  wp (getApplicationInstanceScale instanceID req)
    (reads Instance w (scale_disclosed instanceID (token_of req) w)) w.
Proof.
  intros Hi. unfold getApplicationInstanceScale.
  pose proof (reads_tolerates Instance w (scale_disclosed instanceID (token_of req) w)) as Ht.
  apply (wp_as_manager w); [done..|]. intros i w1 Ho Hi1 Hro1.
  apply (wp_inquires Instance _ w); [apply Ht|solve_inquires|done..|]. intros g w2 Hi2 Hro2.
  apply (wp_inquires Instance _ w); [apply Ht|solve_inquires|done..|]. intros path w3 Hi3 Hro3.
  apply (wp_inquires Instance _ w); [apply Ht|apply inquires_deployments|done..|].
  intros deployments w4 Hi4 Hro4. apply wp_ret. split; [done|]. split; [done|].
  intros content. case_match; [by intros [=]|]. intros [= Hc]. exists i. eexists. split; [done|].
  rewrite <- Hc. reflexivity.
Qed.

(** Scaling only tells Kubernetes, and leaves the store as it is. *)
Lemma scale_disclosed_too instanceID req w :
  VaultInv w →
  wp (scaleApplicationInstance instanceID req)
    (reads Instance w (scale_disclosed instanceID (token_of req) w)) w.
Proof.
  intros Hi. unfold scaleApplicationInstance.
  pose proof (reads_tolerates Instance w (scale_disclosed instanceID (token_of req) w)) as Ht.
  apply (wp_as_manager w); [done..|]. intros i w1 Ho Hi1 Hro1.
  apply (wp_inquires Instance _ w); [apply Ht|solve_inquires|done..|]. intros g w2 Hi2 Hro2.
  destruct (param req "replicas") as [text|]; [|by apply (tolerates_failure Instance w)].
  apply (wp_inquires Instance _ w); [apply Ht|apply inquires_lift; by case_match|done..|].
  intros replicas w3 Hi3 Hro3. cbv zeta.
  apply (wp_inquires Instance _ w); [apply Ht|solve_inquires|done..|]. intros path w4 Hi4 Hro4.
  apply (wp_inquires Instance _ w); [apply Ht|apply inquires_deployments|done..|].
  intros deployments w5 Hi5 Hro5. case_match; [by apply (tolerates_failure Instance w)|].
  destruct (scale_loop _ _ _ _ _) as [[depName found] scales].
  destruct found; simpl; [|by apply (tolerates_failure Instance w)].
  apply (wp_inquires Instance _ w); [apply Ht|solve_inquires|done..|]. intros result w6 Hi6 Hro6.
  case_match; [by apply (tolerates_failure Instance w)|].
  apply wp_ret. split; [done|]. split; [done|]. intros content [= <-]. exists i, scales. by split.
Qed.

Definition logs_disclosed (instanceID : string) (token : option string) (w : World)
    (content : option Json) : Prop :=
  ∃ i group cluster logs, overseen instanceID token w i ∧
    content = Some (JObject [apiVersion; ("kind", JString "ApplicationInstance");
      ("metadata", JObject
        [("id", JString (ApplicationInstance.id i)); ("name", JString (ApplicationInstance.name i));
         ("application", JString (ApplicationInstance.application i)); ("group", JString group);
         ("cluster", JString cluster); ("created", JString (ApplicationInstance.ctime i));
         ("configuration", JString (ApplicationInstance.config i))]);
      ("logs", StringRef logs)]).

Lemma getLogs_disclosed instanceID req w :
  VaultInv w →
  wp (getApplicationInstanceLogs instanceID req)
    (reads Instance w (logs_disclosed instanceID (token_of req) w)) w.
Proof.
  intros Hi. unfold getApplicationInstanceLogs.
  pose proof (reads_tolerates Instance w (logs_disclosed instanceID (token_of req) w)) as Ht.
  apply (wp_as_manager w); [done..|]. intros i w1 Ho Hi1 Hro1. cbv zeta.
  do 4 (apply (wp_inquires Instance _ w); [apply Ht|solve_inquires|done..|intros ? ? ? ?]).
  case_match; [by apply (tolerates_failure Instance w)|].
  apply (wp_inquires Instance _ w); [apply Ht|solve_inquires|done..|]. intros containers w2 Hi2 Hro2.
  case_match; [by apply (tolerates_failure Instance w)|].
  apply (wp_inquires Instance _ w); [apply Ht| |done..|].
  { apply inquires_run_all. intros x. unfold collectLog. solve_inquires. }
  intros blocks w3 Hi3 Hro3.
  do 2 (apply (wp_inquires Instance _ w); [apply Ht|solve_inquires|done..|intros ? ? ? ?]).
  apply wp_ret. split; [done|]. split; [done|]. intros content [= <-].
  by eexists i, _, _, _.
Qed.
End reading.

(** * Listing *)

Section listing.
Context `{D : Dynamo} `{P : Platform} `{PR : !Processes} `{J : !JsonParser}.
Context `{L : !DynamoLaws} `{DL : !DiskLaws} `{PL : !ProcessLaws}.

(** The item of an instance in a listing. *)
Definition instance_listed (i : Instance) (item : Json) : Prop := ∃ group cluster,
  item = JObject [apiVersion; ("kind", JString "ApplicationInstance");
    ("metadata", JObject
      [("id", JString (ApplicationInstance.id i)); ("name", JString (ApplicationInstance.name i));
       ("application", JString (application_name (ApplicationInstance.application i)));
       ("group", JString group); ("cluster", JString cluster);
       ("created", JString (ApplicationInstance.ctime i))])].

Lemma instance_item_result i w item : (instance_item_json i w).1 = Ok item → instance_listed i item.
Proof.
  unfold instance_item_json, mbind, M_bind.
  destruct (getGroup _ w) as [[g|e|] w1]; [|done..].
  destruct (getCluster _ w1) as [[c|e|] w2]; [|done..].
  intros [= <-]. by exists (Group.name g), (Cluster.name c).
Qed.

(** The arguments: the IDs of a group, of a cluster, or of both. *)
Definition instances_asked (req : Request) (w : World) : Prop :=
  (is_Some (param req "group") ∨ is_Some (param req "cluster")) ∧
  group_arg (default "" (param req "group")) ∧ no_colon (default "" (param req "group")) ∧
  cluster_arg (default "" (param req "cluster")) ∧
  distinct_instance_clusters w (default "" (param req "cluster")).

Definition instances_listed (req : Request) (w : World) (content : option Json) : Prop :=
  ∃ u l items, requester w (token_of req) u ∧ Forall2 instance_listed l items ∧
    (∀ i, i ∈ l → is_instance w (without_config i) ∧
       listed_in ApplicationInstance.owningGroup ApplicationInstance.cluster
         (default "" (param req "group")) (default "" (param req "cluster")) i) ∧
    content = Some (JObject [apiVersion; ("items", JArray items)]).

Lemma instance_listing_frames g c :
  group_arg g → cluster_arg c →
  (frame estate (listApplicationInstancesByClusterOrGroup g c) ∧
   frame fs (listApplicationInstancesByClusterOrGroup g c)) ∧
  frame (λ w, table w SLATE_instances) (listApplicationInstancesByClusterOrGroup g c) ∧
  frame (λ w, instanceConfigCache (instances w)) (listApplicationInstancesByClusterOrGroup g c).
Proof.
  intros Hg Hc. unfold listApplicationInstancesByClusterOrGroup, list_instance, cache_instance,
    list_query. rewrite normalize_group_arg, normalize_cluster_arg by done.
  split_and!; repeat first [progress solve_frame|progress cbv zeta].
Qed.

Lemma instances_by_spec g c w :
  VaultInv w → group_arg g → no_colon g → cluster_arg c → distinct_instance_clusters w c →
  wp (listApplicationInstancesByClusterOrGroup g c) (λ r w', VaultInv w' ∧ read_only w w' ∧
    ∃ l, r = Ok l ∧ ∀ i, i ∈ l → is_instance w (without_config i) ∧
      listed_in ApplicationInstance.owningGroup ApplicationInstance.cluster g c i) w.
Proof.
  intros Hi Hg Hcol Hc Hd. destruct (instance_listing_frames g c Hg Hc) as [[He Hf] [Ht Hcc]].
  apply (vault_wards Instance); [done| |done..]. destruct (va_ward Hi) as [Hk Hcf].
  eapply wp_mono, (wp_keeps_configs _ _ w Ht Hcc Hcf); [|by apply listByClusterOrGroup_spec].
  intros r w' ((Hi' & Hro & l & Hr & Hl & _) & Hcf'). split; [by split|]. split; [done|].
  exists l. split; [done|]. intros i Hin. by apply Hl.
Qed.

Lemma listInstances_listed fuel req w :
  VaultInv w → instances_asked req w →
  wp (InstanceCommands.listApplicationInstances fuel req)
    (reads Instance w (instances_listed req w)) w.
Proof.
  intros Hi (Hsome & Hga & Hcol & Hca & Hd). unfold InstanceCommands.listApplicationInstances.
  pose proof (reads_tolerates Instance w (instances_listed req w)) as Ht.
  apply (wp_vault_user Instance w); [apply Ht|done..|]. intros u w1 Hu Hne Hi1 Hro1.
  assert (Hm : requested_instances fuel req = listApplicationInstancesByClusterOrGroup
    (default "" (param req "group")) (default "" (param req "cluster"))).
  { unfold requested_instances. destruct (param req "group"), (param req "cluster"); try done.
    by destruct Hsome as [[? [=]]|[? [=]]]. }
  rewrite Hm. clear Hm.
  eapply (wp_vault Instance w _ Ht); [done|apply instances_by_spec; try done|].
  { intros Hne' i Hx. apply Hd; [done|]. exact (proj1 (read_only_held Instance w w1 i Hro1) Hx). }
  intros l w2 Hi2 Hro2 _ (l' & [= <-] & Hl).
  eapply (wp_vault Instance w _ Ht); [done| |].
  { apply (items_spec Instance _ instance_listed); [|apply instance_item_result|done].
    intros i. unfold instance_item_json. solve_inquires. }
  intros items w3 Hi3 Hro3 _ Hitems. apply wp_ret. split; [done|]. split; [done|].
  intros content [= <-]. exists u, l, items. split_and!; [done|by apply Hitems| |done].
  intros i Hx. destruct (Hl i Hx) as [Hst ?]. split; [|done].
  exact (proj1 (read_only_held Instance w w1 _ Hro1) Hst).
Qed.
End listing.

(** * Properties *)

Section theorems.
Context `{D : Dynamo} `{P : Platform} `{PR : !Processes} `{J : !JsonParser}.
Context `{Y : !Yaml} `{S : !Settings}.
Context `{L : !DynamoLaws} `{DL : !DiskLaws} `{PL : !ProcessLaws}.


(** Scaling picks the deployment that is asked for, or the only one if none is: it is found
    if kubectl lists it, it is told with the new number of replicas, and the other
    deployments with the numbers they have. *)
Theorem scale_picks (single : bool) (replicas : Z) (depName : string) (deployments : list Json) :
  let scales := omap deployment_scale deployments in
  let told name := (λ s : string * Z, (s.1, if bool_decide (s.1 = name) then replicas else s.2)) <$> scales in
  (depName ≠ "" → scale_loop single replicas depName false deployments =
     (depName, existsb (λ s, bool_decide (s.1 = depName)) scales, told depName)) ∧
  (∀ deployment, deployments = [deployment] →
     scale_loop true replicas "" false deployments =
       match deployment_scale deployment with
       | Some (name, _) => (name, true, told name)
       | None => ("", false, [])
       end).
Proof.
  cbv zeta. split.
  - intros Hne.
    assert (Hgen : ∀ found, scale_loop single replicas depName found deployments =
      (depName, found || existsb (λ s, bool_decide (s.1 = depName)) (omap deployment_scale deployments),
       (λ s : string * Z, (s.1, if bool_decide (s.1 = depName) then replicas else s.2))
         <$> omap deployment_scale deployments)); [|apply (Hgen false)].
    assert (He : str_empty depName = false) by by destruct depName.
    induction deployments as [|d ds IH]; intros found; simpl; [by rewrite orb_false_r|].
    destruct (deployment_scale d) as [[name n]|]; simpl; [|apply IH].
    rewrite He. simpl. rewrite IH. by rewrite orb_assoc.
  - intros d ->. simpl. destruct (deployment_scale d) as [[name n]|]; simpl; [|done].
    by rewrite !bool_decide_true.
Qed.
End theorems.
