(* ===== verification/Lifecycle.v ===== *)
(** What becomes of an application instance in the store: deleting it, restarting and
    updating it, and installing a new one. *)

From S2P Require Import Prelude Text Entities Cache Dynamo Store Demo Kubernetes Listing.
From S2P Require Import Catalogue StoreGroups StoreUsers StoreMembership StoreClusters.
From S2P Require Import StoreAccess StoreInstances StoreSecrets StoreMonCreds StoreApplications.
From S2P Require Import Directory Federation Http UserCommands GroupCommands ClusterCommands.
From S2P Require Import ApplicationCommands InstanceCommands Server Service Authorization.
From S2P Require Import Vault Custody Installations.

Local Abbreviation Instance := ApplicationInstance.t.
Local Abbreviation VaultInv := (Vault.VaultInv Instance).
Local Abbreviation tolerates := (Vault.tolerates Instance).

(** * Deleting *)

Section deleting.
Context `{D : Dynamo} `{P : Platform} `{PR : !Processes} `{J : !JsonParser}.
Context `{Y : !Yaml} `{S : !Settings}.
Context `{L : !DynamoLaws} `{DL : !DiskLaws} `{PL : !ProcessLaws}.

Lemma deleteInstance_spec instanceID req w :
  VaultInv w →
  wp (deleteApplicationInstance instanceID req)
    (delete_post Instance (oversees Instance) instanceID (token_of req) w) w.
Proof.
  intros Hi. unfold deleteApplicationInstance.
  apply (wp_as_manager w); [apply (delete_post_tolerates Instance)|done..|].
  intros i w1 (u & Hu & Hs & Hid & Hm) Hi1 Hro1. cbv zeta.
  refine (wp_delete_reply Instance _ _ _ u i _ w w1 Hu Hs Hid Hm Hi1 Hro1 _).
  rewrite <- Hid. unfold delete_instance.
  refine (remove_after_spec Instance (uninstall i _) (ApplicationInstance.id i)
    "Failed to delete instance from database" w1 _ ltac:(done) Hi1).
  unfold uninstall. solve_inquires.
Qed.
End deleting.

(** * Restarting and updating *)

Section restarting.
Context `{D : Dynamo} `{P : Platform} `{PR : !Processes} `{J : !JsonParser}.
Context `{Y : !Yaml} `{S : !Settings}.
Context `{L : !DynamoLaws} `{DL : !DiskLaws} `{PL : !ProcessLaws}.

(** ** The wait ends *)

(** The number of looks that are left: the delay doubles, and then stays. *)
Fixpoint looks (fuel : nat) (elapsedTime pollDelay : Z) : bool :=
  if (elapsedTime <? maxTime)%Z then
    match fuel with
    | O => false
    | Datatypes.S fuel =>
        let pollDelay := (pollDelay + pollDelay)%Z in
        let pollDelay := if (maxPollDelay <? pollDelay)%Z then maxPollDelay else pollDelay in
        looks fuel (elapsedTime + pollDelay) pollDelay
    end
  else true.

Lemma inquires_poll config i g : inquires Instance (poll_objects config i g).
Proof. unfold poll_objects. solve_inquires. Qed.

Lemma inquires_wait config i g fuel elapsed delay :
  looks fuel elapsed delay = true →
  inquires Instance (wait_deleted fuel config i g elapsed delay).
Proof.
  revert elapsed delay. induction fuel as [|fuel IH]; intros elapsed delay; simpl;
    (destruct (elapsed <? maxTime)%Z; [|intros _; apply inquires_ret; apply _]); [done|].
  intros Hl. apply inquires_bind; [apply inquires_poll|]. intros [m|]; [apply inquires_ret; apply _|].
  by apply IH.
Qed.

Lemma looks_enough : looks maxPolls 0 1 = true.
Proof. reflexivity. Qed.

Lemma inquires_stop config i g : inquires Instance (stop_release config i g).
Proof. unfold stop_release. solve_inquires. Qed.

(** ** The record in the meantime *)

(** The other instances stay, and the one with the ID may be gone. *)
Definition may_lose (id : string) (w w' : World) : Prop :=
  (∀ y, is_instance w' y → is_instance w y) ∧
  ∀ y, is_instance w y → ApplicationInstance.id y ≠ id → is_instance w' y.

Lemma may_lose_same id w w' : same_held Instance w w' → may_lose id w w'.
Proof. intros Hs. split; intros y ?; [|intros _]; by apply Hs. Qed.

Lemma may_lose_removed id w r w' : removed_from Instance id w r w' → may_lose id w w'.
Proof.
  intros Hr. split; intros y Hy; [exact (removed_sub Instance id w r w' Hr y Hy)|].
  intros Hne. exact (removed_keeps Instance id w r w' y Hr Hy Hne).
Qed.

Lemma may_lose_before id w0 w w' : read_only w0 w → may_lose id w w' → may_lose id w0 w'.
Proof.
  intros Hro [H1 H2]. pose proof (read_only_held Instance w0 w) as Hh. split.
  - intros y Hy. exact (proj1 (Hh y Hro) (H1 y Hy)).
  - intros y Hy. apply H2. exact (proj2 (Hh y Hro) Hy).
Qed.

(** ** Starting the release again *)

Lemma create_namespace_ends config g w : (kubectl_create_namespace config g w).1 ≠ OutOfFuel.
Proof.
  unfold kubectl_create_namespace, mbind, M_bind.
  assert (Hv : (getControllerVersion config w).1 ≠ OutOfFuel).
  { unfold getControllerVersion, mbind, M_bind.
    pose proof (run_ends "kubectl" ["--kubeconfig"; config; "get"; "crd"; "clusternss.slateci.io"] [] w).
    by destruct (run _ _ _ w) as [[]]. }
  destruct (getControllerVersion config w) as [[v|e|] w1]; [|done..]. cbv zeta.
  unfold with_temporary, mbind, M_bind, system. destruct (makeTemporaryFile _ _) as [[e|path] f]; [done|].
  simpl. match goal with |- context [run ?c ?a ?e ?w] => pose proof (run_ends c a e w);
    destruct (run c a e w) as [[result|e'|] w2] end; [|done..].
  by repeat case_match.
Qed.

Lemma inquires_create_namespace config g : inquires Instance (kubectl_create_namespace config g).
Proof.
  apply (inquires_outside Instance); [apply frame_essence, frame_create_namespace|apply tidy_create_namespace
    |apply create_namespace_ends].
Qed.

(** What a step of the restart leaves: [same] says which results mean that nothing has been
    lost. *)
Definition restarted {A} (same : A → bool) (id : string) (w : World) (r : Res A) (w' : World) : Prop :=
  vault_step Instance w w' ∧
  match r with
  | Ok a => if same a then read_only w w' else may_lose id w w'
  | Throw _ => may_lose id w w'
  | OutOfFuel => False
  end.

Lemma restarted_read {A} (same : A → bool) id w r w' :
  VaultInv w' → read_only w w' → r ≠ OutOfFuel → restarted same id w r w'.
Proof.
  intros Hi Hro Hr. split; [by apply vault_step_read|].
  assert (Hl : may_lose id w w') by by apply may_lose_same, (same_held_read Instance).
  destruct r as [a| |]; [by destruct (same a)|done..].
Qed.

Lemma restarted_before {A} (same : A → bool) id w0 w r w' :
  read_only w0 w → restarted same id w r w' → restarted same id w0 r w'.
Proof.
  intros Hro [Hst Hr]. split; [by eapply vault_step_trans|].
  destruct r as [a| |]; [destruct (same a); [by etrans|]|..|done]; by apply (may_lose_before id w0 w).
Qed.

Lemma restarted_after {A} (same : A → bool) id w r w1 w2 :
  restarted same id w r w1 → VaultInv w2 → essence w2 = essence w1 → restarted same id w r w2.
Proof.
  intros [(Hi1 & Hh & Hs) Hr] Hi2 Hro%essence_read. split.
  { split; [done|]. split; [intros ?; by apply Hro, Hh|].
    etrans; [done|by apply read_only_federation]. }
  assert (Hl : may_lose id w w1 → may_lose id w w2).
  { pose proof (λ y, read_only_held Instance w1 w2 y Hro) as Hy. intros [Ha Hb]. split.
    - intros y Hx. apply Ha. exact (proj1 (Hy y) Hx).
    - intros y Hx Hne. exact (proj2 (Hy y) (Hb y Hx Hne)). }
  destruct r as [a| |]; [destruct (same a); [by etrans|by apply Hl]|by apply Hl|done].
Qed.

Lemma wp_restarted {A B} (same : B → bool) id (m : Store A) (k : A → Store B) w :
  VaultInv w → inquires Instance m →
  (∀ a w1, VaultInv w1 → read_only w w1 → wp (k a) (restarted same id w1) w1) →
  wp (m ≫= k) (restarted same id w) w.
Proof.
  intros Hi Hm Hk. eapply wp_seq; [by apply Hm| | |].
  - intros a w1 (Hi1 & Hro & _). eapply wp_mono, Hk; [|done..]. intros r w2.
    by apply restarted_before.
  - intros e w1 (Hi1 & Hro & Hne). by apply restarted_read.
  - by intros w1 (_ & _ & []).
Qed.

Definition started (r : option Response) : bool := match r with None => true | Some _ => false end.

Lemma start_release_spec config values message version i g c w :
  VaultInv w →
  wp (start_release config values message version i g c)
    (restarted started (ApplicationInstance.id i) w) w.
Proof.
  intros Hi. unfold start_release. apply wp_restarted; [done| |].
  { apply inquires_try; [|intros ?; solve_inquires].
    apply inquires_bind; [apply inquires_create_namespace|intros ?; solve_inquires]. }
  intros [err|] w1 Hi1 _.
  - eapply wp_seq; [exact (remove_vault Instance (ApplicationInstance.id i) w1 Hi1)| | |].
    + intros b w2 (Hst & Hb). apply wp_ret. split; [done|]. by eapply may_lose_removed.
    + by intros e w2 (_ & []).
    + by intros w2 (_ & []).
  - apply wp_restarted; [done|solve_inquires|]. intros v w2 Hi2 _.
    apply wp_restarted; [done|solve_inquires|]. intros result w3 Hi3 _.
    destruct (deployed result); [by apply wp_ret, restarted_read|].
    apply wp_restarted; [done|solve_inquires|]. intros v' w4 Hi4 _.
    apply wp_restarted; [done|solve_inquires|]. intros result' w5 Hi5 _.
    by apply wp_ret, restarted_read.
Qed.

Lemma spares_start path config values message version i g c :
  spares path (start_release config values message version i g c).
Proof.
  assert (Hrun : ∀ c a e, spares path (run c a e)).
  { intros c' a e. apply spares_tidy; [apply tidy_run|]. apply frame_estate, frame_run. }
  assert (Hv : spares path getHelmMajorVersion).
  { apply spares_tidy; [apply tidy_getHelmMajorVersion|]. apply frame_estate, frame_getHelmMajorVersion. }
  unfold start_release. apply spares_bind.
  { apply spares_try; [|intros ?; by apply spares_frame]. apply spares_bind; [|intros ?; by apply spares_frame].
    apply spares_tidy; [apply tidy_create_namespace|apply frame_estate, frame_create_namespace]. }
  intros [err|].
  - apply spares_bind; [|intros ?; by apply spares_frame]. destruct (ward_remove_frames (T := Instance) (ApplicationInstance.id i)).
    by apply spares_frame.
  - repeat first [apply spares_bind; [done|intros ?]|case_match|by apply spares_frame].
    all: apply spares_bind; [|intros ?; by apply spares_frame].
    all: apply spares_tidy; [apply tidy_helm|apply frame_estate, frame_helm].
Qed.

(** ** All of it *)

Definition reinstalled (r : Response + string) : bool := match r with inr _ => true | inl _ => false end.

Lemma reinstall_spec config version i g c w :
  VaultInv w →
  wp (reinstall config version i g c) (restarted reinstalled (ApplicationInstance.id i) w) w.
Proof.
  intros Hi. unfold reinstall. apply wp_restarted; [done|apply inquires_stop|].
  intros [message|] w1 Hi1 _; [by apply wp_ret, restarted_read|].
  apply wp_restarted; [done|by apply inquires_wait|]. intros waited w2 Hi2 _. cbv zeta.
  apply (wp_vault_temporary Instance); [done| |].
  { intros path. apply spares_bind; [apply spares_write|]. intros [e|]; [by apply spares_frame|].
    apply spares_bind; [apply spares_start|]. intros r. by apply spares_frame. }
  intros path w3 Hi3 Ha3 He3. apply (wp_vault_write Instance); [done..|]. intros w4 Hi4 He4.
  assert (Hro : read_only w2 w4) by (apply essence_read; congruence).
  apply (wp_mono _ (restarted reinstalled (ApplicationInstance.id i) w4)).
  { intros r w5 Hr. apply (restarted_before _ _ w2) in Hr; [|done].
    split; [exact (proj1 (proj1 Hr))|]. intros w6. by eapply restarted_after. }
  eapply wp_seq; [by apply start_release_spec| | |].
  - intros [response|] w5 Hr; apply wp_ret; exact Hr.
  - intros e w5 Hr. exact Hr.
  - intros w5 Hr. exact Hr.
Qed.

(** ** The requests *)

(** What a request to restart an instance does: on success there is nothing new in the store;
    otherwise the record of that instance may be gone, and no other. *)
Definition restart_post (instanceID : string) (token : option string) (w : World)
    (r : Res Response) (w' : World) : Prop :=
  vault_step Instance w w' ∧
  match r with
  | Ok (Reply 200 _) => read_only w w' ∧ ∃ i, overseen instanceID token w i
  | _ => may_lose instanceID w w'
  end.

Lemma restart_post_tolerates instanceID token w : tolerates w (restart_post instanceID token w).
Proof.
  intros r w' Hi Hro Hn. split; [by apply vault_step_read|].
  assert (Hl : may_lose instanceID w w') by by apply may_lose_same, (same_held_read Instance).
  destruct r as [[n content|]| |]; try done.
  destruct (decide (n = 200%Z)) as [->|Hne]; [by destruct Hn; exists content|].
  by repeat case_match.
Qed.

(** A refusal of [reinstall] is no success. *)
Definition refusal (r : Res (Response + string)) : Prop :=
  ∀ content, r ≠ Ok (inl (Reply 200 content)).

Lemma start_refuses config values message version i g c w content :
  (start_release config values message version i g c w).1 ≠ Ok (Some (Reply 200 content)).
Proof.
  unfold start_release, mbind, M_bind.
  repeat (match goal with
    | |- context [match ?m ?w with (_, _) => _ end] =>
        let r := fresh "r" in let w' := fresh "w" in destruct (m w) as [r w'];
        destruct r; try done
    | |- context [match ?x with _ => _ end] => destruct x; try done
    end).
Qed.

Lemma reinstall_refuses config version i g c w : refusal (reinstall config version i g c w).1.
Proof.
  intros content. unfold reinstall. unfold mbind at 1, M_bind at 1.
  destruct (stop_release config i g w) as [[[message|]|e|] w1]; [done| |done..].
  unfold mbind at 1, M_bind at 1.
  destruct (wait_deleted maxPolls config i g 0 1 w1) as [[waited|e|] w2]; [|done..]. cbv zeta.
  unfold with_temporary, system. unfold mbind at 1, M_bind at 1. simpl.
  destruct (makeTemporaryFile _ _) as [[e|path] f]; [done|]. simpl.
  unfold mbind, M_bind. simpl. destruct (write_file _ _ _) as [[e|] f']; [done|]. simpl.
  match goal with |- context [start_release ?a ?b ?c ?d ?e ?f ?g ?w] =>
    pose proof (start_refuses a b c d e f g w content) as Hs;
    destruct (start_release a b c d e f g w) as [[[response|]|e'|] w3] end; simpl in *; [|done..].
  intros [= ->]. by apply Hs.
Qed.

(** The end of both requests. *)
Lemma wp_reinstall (k : Response + string → Store Response) instanceID config version i g c Q w0 w :
  (∀ r w', restart_post instanceID None w0 r w' → ¬ succeeded r → Q r w') →
  ApplicationInstance.id i = instanceID → VaultInv w → read_only w0 w →
  (∀ response, k (inl response) = mret response) →
  (∀ message w', VaultInv w' → read_only w0 w' → wp (k (inr message)) Q w') →
  wp (reinstall config version i g c ≫= k) Q w.
Proof.
  intros HQ Hid Hi Hro Hinl Hk.
  assert (Hlose : ∀ (r : Res Response) w', vault_step Instance w w' → may_lose instanceID w w' →
    ¬ succeeded r → Q r w').
  { intros r w' Hst Hl Hn. apply HQ; [|done]. split; [by eapply vault_step_trans|].
    apply (may_lose_before _ w0) in Hl; [|done]. destruct r as [[n content|]| |]; try done.
    destruct (decide (n = 200%Z)) as [->|Hne]; [by destruct Hn; exists content|].
    by repeat case_match. }
  eapply wp_seq; [apply wp_result, reinstall_spec, Hi| | |].
  - intros [response|message] w1 [[Hst Hr] Hres]; simpl in Hr.
    + rewrite Hinl. apply wp_ret, Hlose; [done|by rewrite <- Hid|]. intros [content [= ->]].
      by apply (reinstall_refuses config version i g c w content).
    + apply Hk; [apply Hst|by etrans].
  - intros e w1 [[Hst Hr] _]. apply Hlose; [done|by rewrite <- Hid|by intros [content [=]]].
  - by intros w1 [[_ []] _].
Qed.

Lemma restart_spec instanceID req w :
  VaultInv w →
  wp (restartApplicationInstance instanceID req) (restart_post instanceID (token_of req) w) w.
Proof.
  intros Hi. unfold restartApplicationInstance.
  pose proof (restart_post_tolerates instanceID (token_of req) w) as Ht.
  apply (wp_as_manager w); [done..|]. intros i w1 Ho Hi1 Hro1.
  apply (wp_with_owners w); [done..|]. intros g c w2 Hi2 Hro2.
  apply (wp_config w); [done..|]. intros config w3 _ Hi3 Hro3. cbv zeta.
  apply (wp_inquires Instance _ w); [done|solve_inquires|done..|]. intros path w4 Hi4 Hro4.
  apply (wp_reinstall _ instanceID _ _ _ _ _ _ w); [|by destruct Ho as (? & ? & ? & ? & ?)|done..|].
  - intros r w' [Hst Hr] Hn. split; [done|]. destruct r as [[n content|]| |]; try done.
    destruct (decide (n = 200%Z)) as [->|Hne]; [by destruct Hn; exists content|].
    by repeat case_match.
  - intros message w5 Hi5 Hro5. apply wp_ret. split; [by apply vault_step_read|]. by split; [|exists i].
Qed.

(** ** Putting a record *)

Lemma added_of_post i w r w' :
  fresh Instance w i → add_instance_post i w r w' → kept_post Instance i w r w'.
Proof.
  intros Hf (Hi & Hh & Ht & Hr). split; [done|]. split; [done|]. split; [done|].
  destruct r as [[]| |]; [| |done..]; eexists; (split; [done|]).
  - intros y. etrans; [apply Hr|]. split; [intros [?|[? _]]; auto|]. intros [?|Hy]; [by left|].
    right. split; [done|]. by apply (fr_id _ _ _ Hf).
  - destruct Hr as (Hn & Hs & Hk). split; [done|]. by split.
Qed.

Lemma add_frames i :
  frame estate (addApplicationInstance i) ∧ frame fs (addApplicationInstance i).
Proof. unfold addApplicationInstance, cache_instance. split; solve_frame. Qed.

Lemma add_vault_instance i w :
  VaultInv w → fresh Instance w i → ApplicationInstance.valid i = true →
  table w SLATE_instances !! config_key (ApplicationInstance.id i) = None →
  wp (addApplicationInstance i) (λ r w', (vault_step Instance w w' ∧ ∃ b, r = Ok b ∧
     if b : bool then added Instance i w w' else attempted Instance i w w') ∧
     add_instance_post i w r w') w.
Proof.
  intros Hi Hf Hv Hc. pose proof (fr_id _ _ _ Hf) as [Hne Hnew]. destruct (add_frames i) as [He Hfs].
  assert (Hn : new_instance w i).
  { split; [done|]. split; [done|]. split; [apply (fr_group _ _ _ Hf)|]. by split. }
  pose proof (addApplicationInstance_spec i w (va_ward Hi) Hn) as Hw. split; [|exact Hw].
  apply (add_vault Instance); [done..| |done|done].
  exact (added_of_post i w _ _ Hf Hw).
Qed.

Lemma no_config w id :
  InstancesInv w → (∀ config, ¬ stored_config w id config) →
  table w SLATE_instances !! config_key id = None.
Proof.
  intros [Hk _] Hn. apply eq_None_not_Some. intros [it Hit].
  destruct (config_row_at w id it Hk Hit) as [c Hc]. apply (Hn c). by exists it.
Qed.

(** The record is removed and added again, with another configuration. *)
Lemma replace_record i config (k : Store Response) Q w :
  VaultInv w → healthy (db w) → ApplicationInstance.id i ≠ "" →
  is_instance w (without_config i) →
  (∀ w', vault_step Instance w w' → same_held Instance w w' →
     stored_config w' (ApplicationInstance.id i) config → wp k Q w') →
  wp (_ ← removeApplicationInstance (ApplicationInstance.id i);
      _ ← addApplicationInstance (with_config config i); k) Q w.
Proof.
  intros Hi Hh Hne Hs Hk. set (id := ApplicationInstance.id i).
  eapply (wp_seq (λ r w', (vault_step Instance w w' ∧ removed_from Instance id w r w') ∧
    remove_instance_post id w r w')).
  { split; [exact (remove_vault Instance id w Hi)|].
    exact (removeApplicationInstance_spec id w (va_ward Hi)). }
  2: { by intros e w1 [[_ []] _]. }
  2: { by intros w1 [[_ []] _]. }
  intros b w1 [[(Hi1 & Hh1 & Hf1) Hr] (_ & _ & _ & Hc)].
  destruct b; [|by destruct Hr as [? _]]. destruct Hc as [_ Hc].
  assert (Hfr : fresh Instance w1 (with_config config i)).
  { split; simpl.
    - split; [done|]. intros y Hy. exact (proj2 (proj1 (Hr y) Hy)).
    - exact (va_groups Hi (without_config i) Hs).
    - intros c Hcl. apply (va_ward_sizes Hi (without_config i)); [exact Hs|].
      apply (proj1 (proj2 Hf1)), Hcl. }
  eapply wp_seq; [apply (add_vault_instance (with_config config i)); [done..| |]| | |].
  { destruct Hs as (it & _ & Hv & _). exact Hv. }
  { apply no_config; [exact (va_ward Hi1)|done]. }
  2: { by intros e w2 ((_ & b & [=] & _) & _). }
  2: { by intros w2 ((_ & b & [=] & _) & _). }
  intros b w2 ((Hst2 & b' & [= <-] & Hb) & (_ & _ & _ & Hp)).
  destruct b; [|by destruct Hp as [Hn _]; destruct Hn; apply Hh1].
  destruct Hp as [_ Hcfg]. destruct Hst2 as (Hi2 & Hh2 & Hf2).
  apply Hk; [split; [done|split; [auto|by etrans]]| |exact Hcfg].
  intros y. etrans; [apply Hb|]. split.
  - intros [->|Hy]; [exact Hs|]. exact (proj1 (proj1 (Hr y) Hy)).
  - intros Hy. destruct (decide (ApplicationInstance.id y = id)) as [Hid|Hid].
    + left. change (y = without_config i). exact (stored_in_inj instance_kind _ y _ Hy Hs Hid).
    + right. by apply Hr.
Qed.

(** What a request to update an instance does: on success the instance has the configuration
    that the request gives; the records are as before. *)
Definition update_post (instanceID : string) (req : Request) (w : World) (r : Res Response)
    (w' : World) : Prop :=
  vault_step Instance w w' ∧
  match r with
  | Ok (Reply 200 _) => same_held Instance w w' ∧ ∃ i config version,
      overseen instanceID (token_of req) w i ∧ update_body_of req = inr (config, version) ∧
      stored_config w' instanceID config
  | _ => may_lose instanceID w w'
  end.

Lemma update_post_tolerates instanceID req w : tolerates w (update_post instanceID req w).
Proof.
  intros r w' Hi Hro Hn. split; [by apply vault_step_read|].
  assert (Hl : may_lose instanceID w w') by by apply may_lose_same, (same_held_read Instance).
  destruct r as [[n content|]| |]; try done.
  destruct (decide (n = 200%Z)) as [->|Hne]; [by destruct Hn; exists content|].
  by repeat case_match.
Qed.

Lemma update_refuses req : refuses (update_body_of req).
Proof.
  unfold update_body_of.
  repeat first [apply refuses_body|apply refuses_required_string
    |apply refuses_and_then; [|intros]|apply refuses_inr].
Qed.

Lemma update_spec instanceID req w :
  VaultInv w → healthy (db w) → instanceID ≠ "" →
  wp (updateApplicationInstance instanceID req) (update_post instanceID req w) w.
Proof.
  intros Hi Hh Hne. unfold updateApplicationInstance.
  pose proof (update_post_tolerates instanceID req w) as Ht.
  apply (wp_as_manager w); [done..|]. intros i w1 Ho Hi1 Hro1.
  apply (wp_with_owners w); [done..|]. intros g c w2 Hi2 Hro2.
  destruct (update_body_of req) as [r|[config version]] eqn:Hbody; simpl.
  { apply wp_ret. destruct (update_refuses req r Hbody) as [[b ->]| ->];
      (apply Ht; [done..|by intros [content [=]]]). }
  apply (wp_inquires Instance _ w); [done|solve_inquires|done..|]. intros search w3 Hi3 Hro3.
  destruct (negb _); [by apply (tolerates_failure Instance w)|].
  apply (wp_inquires Instance _ w); [done|solve_inquires|done..|]. intros path w4 Hi4 Hro4.
  destruct Ho as (u & Hu & Hs & Hid & Hm).
  apply (wp_reinstall _ instanceID _ _ _ _ _ _ w); [|done..|].
  - intros r w' [Hst Hr] Hn. split; [done|]. destruct r as [[n content|]| |]; try done.
    destruct (decide (n = 200%Z)) as [->|Hn']; [by destruct Hn; exists content|].
    by repeat case_match.
  - intros message w5 Hi5 Hro5. subst instanceID. apply replace_record; [done|by apply Hro5|done| |].
    { exact (proj2 (read_only_held Instance w w5 _ Hro5) Hs). }
    intros w6 Hst Hsame Hcfg. apply wp_ret. split; [by eapply vault_step_trans|].
    split; [|by exists i, config, version; split; [exists u|]].
    intros y. etrans; [apply Hsame|]. exact (read_only_held Instance w w5 y Hro5).
Qed.
End restarting.

(** * Properties *)

Section theorems.
Context `{D : Dynamo} `{P : Platform} `{PR : !Processes} `{J : !JsonParser}.
Context `{Y : !Yaml} `{S : !Settings}.

(** C25: waiting for the objects of the old release to go ends whatever kubectl says: there are
    at most [maxPolls] looks, after which the time is up; when it is up nothing else is to
    be told. *)
Theorem wait_deleted_ends (clusterConfig : string) (i : Instance) (g : Group.t) (w : World) :
  wp (wait_deleted maxPolls clusterConfig i g 0 1) (λ r _, match r with
    | Ok (elapsed, message) =>
        (0 ≤ elapsed < maxTime + maxPollDelay ∧ (maxTime ≤ elapsed → message = ""))%Z
    | Throw _ => True
    | OutOfFuel => False
    end) w.
Proof.
  assert (Hpoll : ∀ w, (poll_objects clusterConfig i g w).1 ≠ OutOfFuel).
  { intros w1. unfold poll_objects, try_catch, mbind, M_bind.
    match goal with |- context [kubectl ?c ?a ?w] => pose proof (kubectl_ends c a w);
      destruct (kubectl c a w) as [[result|e|] w2] end; [|by case_match|done].
    destruct (negb _); [done|]. unfold asserted, lift. destruct (has_member _ _); [done|]. done. }
  assert (Hgen : ∀ fuel elapsed delay w, (0 ≤ elapsed < maxTime + maxPollDelay)%Z →
    (0 < delay)%Z → looks fuel elapsed delay = true →
    wp (wait_deleted fuel clusterConfig i g elapsed delay) (λ r _, match r with
      | Ok (elapsed, message) =>
          (0 ≤ elapsed < maxTime + maxPollDelay ∧ (maxTime ≤ elapsed → message = ""))%Z
      | Throw _ => True
      | OutOfFuel => False
      end) w); [|by apply Hgen].
  clear w. intros fuel. induction fuel as [|fuel IH]; intros elapsed delay w He Hd Hl; simpl in Hl |- *.
  { destruct (Z.ltb_spec elapsed maxTime); [done|by apply wp_ret]. }
  destruct (Z.ltb_spec elapsed maxTime); [|by apply wp_ret].
  eapply (wp_seq (λ r _, r ≠ OutOfFuel)); [apply Hpoll| |done|done].
  intros [message|] w1 _; [apply wp_ret; split; [done|intros ?; exfalso; lia]|].
  apply IH; [|by unfold maxPollDelay in *; case_match; lia|done].
  unfold maxTime, maxPollDelay in *. destruct (Z.ltb_spec 10 (delay + delay)); lia.
Qed.

Context `{L : !DynamoLaws} `{DL : !DiskLaws} `{PL : !ProcessLaws}.

(** C23: deleting an instance: success means that the instance with that ID, and no other, is
    gone, and that the request was made by a member of the group that owns it or by an
    administrator; otherwise, unless the database has failed half-way, all instances are
    still there. *)
Theorem deleteApplicationInstance_correct (instanceID : string) (req : Request) (w : World) :
  VaultInv w →
  wp (deleteApplicationInstance instanceID req)
    (delete_post Instance (oversees Instance) instanceID (token_of req) w) w.
Proof. apply deleteInstance_spec. Qed.

(** C24: restarting and updating an instance are for members of the group that owns it and for
    administrators. After a successful restart the store is as it was; after a successful
    update the records are as they were, and the instance is stored with the configuration
    of the request. In all other cases no other instance is touched, but the record of the
    instance itself may be gone. *)
Theorem restart_and_update_correct (instanceID : string) (req : Request) (w : World) :
  VaultInv w → healthy (db w) → instanceID ≠ "" →
  wp (restartApplicationInstance instanceID req) (restart_post instanceID (token_of req) w) w ∧
  wp (updateApplicationInstance instanceID req) (update_post instanceID req w) w.
Proof. intros. split; [by apply restart_spec|by apply update_spec]. Qed.
End theorems.
