(* ===== verification/ClusterDeletion.v ===== *)
(** Deleting a cluster with what is on it: which records go, and what stays. *)

From S2P Require Import Prelude Text Dns Entities Cache Dynamo Store Demo Kubernetes Listing.
From S2P Require Import Catalogue StoreGroups StoreUsers StoreMembership StoreClusters.
From S2P Require Import StoreAccess StoreInstances StoreSecrets StoreMonCreds StoreVolumes.
From S2P Require Import Directory Federation ClusterRemoval Http Geocoder UserCommands.
From S2P Require Import GroupCommands ClusterCommands SecretCommands VolumeCommands.
From S2P Require Import ApplicationCommands InstanceCommands ClusterStatus ClusterLifecycle.
From S2P Require Import Server Service Authorization Vault Custody Secrecy Claims Installations.
From S2P Require Import Lifecycle ClusterRequests ClusterCreation.

Local Abbreviation Instance := ApplicationInstance.t.
Local Abbreviation Claim := PersistentVolumeClaim.t.

(** * Listings end *)

Section listings.
Context `{D : Dynamo} `{P : Platform} `{L : !DynamoLaws}.

Lemma for_collect_ends {A B} (l : list A) (body : A → Store B) w :
  (∀ x w, db (body x w).2 = db w ∧ (body x w).1 ≠ OutOfFuel) →
  db (for_collect l body w).2 = db w ∧ (for_collect l body w).1 ≠ OutOfFuel.
Proof.
  intros Hb. revert w. induction l as [|x l IH]; intros w; [done|]. cbn [for_collect].
  unfold mbind, M_bind. destruct (Hb x w) as [Hd Hn].
  destruct (body x w) as [[y|e|] w1]; simpl in *; [|done..].
  specialize (IH w1). simpl in Hd. rewrite Hd in IH.
  destruct IH as [Hl Hm]. by destruct (for_collect l body w1) as [[ys|e|] w2].
Qed.

Lemma scan_loop_ends {A} fuel t f start acc (body : Item → Store A) w :
  (∀ it w, db (body it w).2 = db w ∧ (body it w).1 ≠ OutOfFuel) →
  pages_left (db w) t f start < fuel → (scan_loop fuel t f start acc body w).1 ≠ OutOfFuel.
Proof.
  intros Hb. revert start acc w. induction fuel as [|fuel IH]; intros start acc w Hf; [lia|].
  cbn [scan_loop]. unfold mbind, M_bind, request.
  destruct (Scan t f start (db w)) as [[e|[items next]] d'] eqn:Hs; simpl; rewrite ?Hs; [done|].
  match goal with |- context [for_collect items body ?w1] =>
    destruct (for_collect_ends items body w1 Hb) as [Hd Hn] end. simpl in Hd. rewrite Hs in Hd.
  destruct (for_collect items body _) as [[page|e|] w1]; simpl in *; [|done..].
  destruct next as [key|]; [|done]. apply IH. rewrite Hd.
  apply Scan_ok in Hs as [_ [_ Hp]]. lia.
Qed.

Lemma list_all_ends {T} expiration cache t f (body : Item → Store T) finish validity fuel w :
  (∀ it w, db (body it w).2 = db w ∧ (body it w).1 ≠ OutOfFuel) →
  (∀ l time w, (finish l time w).1 ≠ OutOfFuel) → pages_left (db w) t f None < fuel →
  (list_all expiration cache t f body finish validity fuel w).1 ≠ OutOfFuel.
Proof.
  intros Hb Hfi Hf. unfold list_all, mbind at 1 2, M_bind at 1 2. cbn [gets now].
  simpl. case_match.
  - apply for_collect_ends. done.
  - unfold mbind, M_bind. simpl.
    pose proof (scan_loop_ends fuel t f None [] body
      (upd_stats (upd_databaseScans incr) (upd_ticks Datatypes.S w)) Hb Hf) as Hl.
    destruct (scan_loop _ _ _ _ _ _ _) as [[[l []]|e|] w1]; simpl in *; [|done..].
    pose proof (Hfi l (steady (ticks w1) + validity)%Z (upd_ticks Datatypes.S w1)) as He.
    by destruct (finish l _ _) as [[u|e|] w2]; simpl in *.
Qed.
End listings.

(** * The whole house *)

Section house.
Context `{D : Dynamo} `{P : Platform} `{L : !DynamoLaws} `{DL : !DiskLaws}.

(** The federation with all its records, on an available service. *)
Record House (w : World) : Prop := {
  ho_instances : VaultInv Instance w;
  ho_secrets : VaultInv Secret.t w;
  ho_claims : VaultInv Claim w;
  ho_guests : guests_proper w;
  ho_healthy : healthy (db w) }.

(** Records may be gone, but none that is for another cluster. *)
Definition loses (T : Type) `{!Ward T} (id : string) (w w' : World) : Prop :=
  (∀ x : T, held w' x → held w x) ∧ ∀ x : T, held w x → ward_cluster x ≠ id → held w' x.

(** Nothing has changed that is not of the cluster with the ID. *)
Record confined (id : string) (w w' : World) : Prop := {
  cf_house : House w';
  cf_directory : same_directory (directory w) (directory w');
  cf_groups : table w' SLATE_groups = table w SLATE_groups;
  cf_clusters : ∀ x, Cluster.id x ≠ id → is_cluster w' x ↔ is_cluster w x;
  cf_grants : ∀ c g, c ≠ id → no_colon g → granted w' c g ↔ granted w c g;
  cf_applications : same_applications (federation w) (federation w');
  cf_instances : loses Instance id w w';
  cf_secrets : loses Secret.t id w w';
  cf_claims : loses Claim id w w' }.

Lemma loses_trans T `{!Ward T} id w1 w2 w3 : loses T id w1 w2 → loses T id w2 w3 → loses T id w1 w3.
Proof. intros [A1 A2] [B1 B2]. split; intros x; auto. Qed.

Lemma loses_same T `{!Ward T} id w w' : same_held T w w' → loses T id w w'.
Proof. intros Hs. split; intros x Hx; [by apply Hs|intros _; by apply Hs]. Qed.

Lemma confined_refl id w : House w → confined id w w.
Proof. intros Hi. by split; try apply loses_same. Qed.

Lemma confined_trans id w1 w2 w3 : confined id w1 w2 → confined id w2 w3 → confined id w1 w3.
Proof.
  intros [A0 A1 A2 A3 A4 A5 A6 A7 A8] [B0 B1 B2 B3 B4 B5 B6 B7 B8].
  split; [done|by etrans|congruence| | |by etrans|by eapply loses_trans..].
  - intros x Hne. rewrite B3 by done. by apply A3.
  - intros c g Hne Hg. rewrite B4 by done. by apply A4.
Qed.

(** The IDs of clusters keep their length. *)
Lemma VaultInv_ids (T : Type) `{W : !Ward T} `{WL : !WardLaws T} w w' :
  VaultInv T w → FedInv w' → ward_inv w' → (∀ x, held w' x → held w x) →
  (∀ c, is_cluster w' c → ∃ c', is_cluster w c' ∧ Cluster.id c' = Cluster.id c) → VaultInv T w'.
Proof.
  intros [H1 H2 H3 H4 H5] Hf Hw Hs Hc. split; [done|done| | |].
  - intros x Hx%Hs. by apply H3.
  - intros c c' (d & Hd & <-)%Hc (d' & Hd' & <-)%Hc. by apply H4.
  - intros x c Hx%Hs (d & Hd & <-)%Hc. by apply H5.
Qed.

(** What is neither in the records nor in their caches. *)
Record records_kept (w w' : World) : Prop := {
  rk_caches : ward_caches w' = ward_caches w;
  rk_groups : table w' SLATE_groups = table w SLATE_groups;
  rk_instances : table w' SLATE_instances = table w SLATE_instances;
  rk_secrets : table w' SLATE_secrets = table w SLATE_secrets;
  rk_volumes : table w' SLATE_volumes = table w SLATE_volumes }.

(** A step of the federation that concerns the cluster only. *)
Lemma confined_fed id w w' :
  House w → FedInv w' → records_kept w w' → guests_proper w' → healthy (db w') →
  (∀ c, is_cluster w' c → ∃ c', is_cluster w c' ∧ Cluster.id c' = Cluster.id c) →
  same_directory (directory w) (directory w') →
  (∀ x, Cluster.id x ≠ id → is_cluster w' x ↔ is_cluster w x) →
  (∀ c g, c ≠ id → no_colon g → granted w' c g ↔ granted w c g) →
  same_applications (federation w) (federation w') → confined id w w'.
Proof.
  intros [Hi Hs Hv Hg Hh] Hf [Kc Kg K1 K2 K3] Hg' Hh' Hids Hd Hcl Hgr Ha.
  assert (H1 : same_held Instance w w') by (intros x; by apply held_tables).
  assert (H2 : same_held Secret.t w w') by (intros x; by apply held_tables).
  assert (H3 : same_held Claim w w') by (intros x; by apply held_tables).
  split; try done; [|by apply loses_same..]. split; try done.
  - apply (VaultInv_ids Instance w); [done..|eapply ward_inv_same; [apply Hi|done..]|apply H1|done].
  - apply (VaultInv_ids Secret.t w); [done..|eapply ward_inv_same; [apply Hs|done..]|apply H2|done].
  - apply (VaultInv_ids Claim w); [done..|eapply ward_inv_same; [apply Hv|done..]|apply H3|done].
Qed.

(** A lookup outside of the records. *)
Lemma confined_read id w w' :
  House w → FedInv w' → read_only w w' → ward_caches w' = ward_caches w → confined id w w'.
Proof.
  intros Hi Hf Hro Hw. destruct (read_only_federation w w' Hro) as (Hd & Hc & Hg & Ha).
  apply confined_fed; [done|done| | | | |done| | |done].
  - split; [done|by apply Hro..].
  - eapply read_only_guests, Hi. done.
  - apply Hro, Hi.
  - intros c Hx. exists c. split; [|done]. by apply (read_only_is_cluster w w').
  - intros x _. apply Hc.
  - intros c g _ Hg'. by apply Hg.
Qed.
End house.

(** * Deleting what is on the cluster *)

Section contents.
Context `{D : Dynamo} `{P : Platform} `{PR : !Processes} `{J : !JsonParser}.
Context `{Y : !Yaml} `{S : !Settings}.
Context `{L : !DynamoLaws} `{DL : !DiskLaws} `{PL : !ProcessLaws}.

(** Removing a record from the store, after asking the tools, leaves the other tables. *)
Lemma remove_after_tables (T : Type) `{W : !Ward T} `{WL : !WardLaws T} (unlink : Store string) id msg w :
  inquires T unlink → VaultInv T w →
  wp (err ← unlink;
      if negb (str_empty err) then mret err else
      success ← ward_remove id;
      mret (if negb success then msg else ""))
    (λ _ w', ∀ t, t ≠ k_table (ward_kind (T := T)) → table w' t = table w t) w.
Proof.
  intros Hu Hi. eapply wp_seq; [by apply Hu| | |].
  2: { intros e w1 (_ & Hro & _) t _. apply Hro. }
  2: { by intros w1 (_ & _ & []). }
  intros err w1 (Hi1 & Hro & _). destruct (negb _); [apply wp_ret; intros t _; apply Hro|].
  eapply wp_seq; [by apply (remove_around T id), Hi1| |by intros e w2 (_ & [])|by intros w2 (_ & [])].
  intros b w2 ((Ha & _) & _). apply wp_ret. intros t Ht. etrans; [by apply (ar_tables Ha)|apply Hro].
Qed.

Lemma frame_ward_outside {A} (m : Store A) : frame inside m → frame ward_caches m.
Proof. intros Hm w. by destruct (essence_parts _ _ (frame_essence m Hm w)) as (_ & _ & ->). Qed.

Lemma frame_ward_getGroup g : frame ward_caches (getGroup g).
Proof. unfold getGroup, findGroupByID, findGroupByName, cache_group. solve_frame. Qed.

Lemma frame_ward_findGroup g : frame ward_caches (findGroupByID g).
Proof. unfold findGroupByID, cache_group. solve_frame. Qed.

Lemma frame_ward_getCluster c : frame ward_caches (getCluster c).
Proof.
  unfold getCluster, findClusterByID, findClusterByName, cache_cluster, writeClusterConfigToDisk.
  solve_frame.
Qed.

Lemma frame_ward_asserted {A} (o : option A) : frame ward_caches (asserted o).
Proof. by destruct o. Qed.

Lemma frame_ward_kubectl path args : frame ward_caches (kubectl path args).
Proof. apply frame_ward_outside, frame_kubectl. Qed.

Lemma frame_ward_helm path tiller args : frame ward_caches (helm path tiller args).
Proof. apply frame_ward_outside, frame_helm. Qed.

Lemma frame_ward_version : frame ward_caches getHelmMajorVersion.
Proof. apply frame_ward_outside, frame_getHelmMajorVersion. Qed.

Hint Resolve frame_ward_getGroup frame_ward_findGroup frame_ward_getCluster frame_ward_asserted
  configPathForCluster_frame frame_try frame_ward_kubectl frame_ward_helm frame_ward_version : slate.

Lemma frame_uninstall i force : frame ward_caches (uninstall i force).
Proof. unfold uninstall. apply frame_try; solve_frame. Qed.

Lemma frame_unlink s force reachable : frame ward_caches (unlink s force reachable).
Proof.
  unfold unlink. apply frame_bind; [auto with slate|]. intros g.
  destruct reachable; [|done]. apply frame_try; solve_frame.
Qed.

Lemma frame_unlink_volume v force : frame ward_caches (unlink_volume v force).
Proof.
  unfold unlink_volume. apply frame_bind; [auto with slate|]. intros g.
  apply frame_try; solve_frame.
Qed.

(** ** The kinds of records do not meet *)

Lemma InstancesInv_own w w' :
  InstancesInv w → table w' SLATE_instances = table w SLATE_instances →
  instances w' = instances w → InstancesInv w'.
Proof.
  intros [Hi Hc] Ht Hw. split.
  - apply (KindInv_same instance_kind w); [done..|]. simpl. by rewrite Hw.
  - eapply ConfigInv_same; [done|by rewrite Ht|by rewrite Hw].
Qed.

Lemma SecretsInv_own w w' :
  SecretsInv w → table w' SLATE_secrets = table w SLATE_secrets → secrets w' = secrets w → SecretsInv w'.
Proof. intros Hi Ht Hw. apply (KindInv_same secret_kind w); [done..|]. simpl. by rewrite Hw. Qed.

Lemma VolumesInv_own w w' :
  VolumesInv w → table w' SLATE_volumes = table w SLATE_volumes → volumes w' = volumes w → VolumesInv w'.
Proof. intros Hi Ht Hw. apply (KindInv_same volume_kind w); [done..|]. simpl. by rewrite Hw. Qed.

(** The records of another kind stay. *)
Lemma others_kept (T U : Type) `{W : !Ward T} `{WL : !WardLaws T} `{WU : !Ward U} `{WLU : !WardLaws U} w w' :
  vault_step T w w' → VaultInv U w → ward_inv (T := U) w' →
  table w' (k_table (ward_kind (T := U))) = table w (k_table (ward_kind (T := U))) →
  VaultInv U w' ∧ same_held U w w'.
Proof.
  intros (Hi & _ & _ & Hs & _) Hu Hw Ht.
  assert (Hh : same_held U w w') by (intros x; by apply held_tables).
  split; [|done]. apply (VaultInv_ids U w); [done|by apply (va_fed Hi)|done|intros x; apply Hh|].
  intros c Hc. exists c. split; [|done]. by apply Hs.
Qed.

Lemma confined_step (T : Type) `{W : !Ward T} `{WL : !WardLaws T} cid w w' :
  House w → vault_step T w w' → (∀ t, t ≠ k_table (ward_kind (T := T)) → table w' t = table w t) →
  VaultInv Instance w' → VaultInv Secret.t w' → VaultInv Claim w' →
  loses Instance cid w w' → loses Secret.t cid w w' → loses Claim cid w w' → confined cid w w'.
Proof.
  intros Hi (_ & Hh & Hd & Hc & Hg & Ha) Ht Hvi Hvs Hvv Hli Hls Hlv.
  assert (Hto : ∀ t, t ∉ [SLATE_instances; SLATE_secrets; SLATE_volumes] → table w' t = table w t).
  { intros t Hn. by apply Ht, ward_other_table. }
  split; [split|..]; try done.
  - intros k it v. rewrite Hto by compute_done. apply (ho_guests _ Hi).
  - apply Hh, Hi.
  - apply Hto. compute_done.
  - intros x _. apply Hc.
  - intros c g _ Hg'. by apply Hg.
Qed.

(** The record, if it is there, is for the cluster. *)
Definition on_cluster (T : Type) `{!Ward T} (cid rid : string) (w : World) : Prop :=
  ∀ x : T, held w x → k_id ward_kind x = rid → ward_cluster x = cid.

Definition gone (T : Type) `{!Ward T} (rid : string) (w : World) : Prop :=
  ∀ x : T, held w x → k_id ward_kind x ≠ rid.

Lemma deleted_loses (T : Type) `{W : !Ward T} `{WL : !WardLaws T} cid rid w r w' :
  deleted_post T rid w r w' → on_cluster T cid rid w → loses T cid w w'.
Proof.
  intros [_ Hr] Hon. destruct r as [err|e|]; [|by apply loses_same|done].
  assert (Hsub : ∀ x : T, held w' x → held w x).
  { intros x Hx. destruct (str_empty err); [by apply Hr|by eapply spared_sub]. }
  split; [done|]. intros x Hx Hne.
  assert (Hid : k_id ward_kind x ≠ rid) by (intros Heq; by apply Hne, Hon).
  destruct (str_empty err); [by apply Hr|by eapply spared_keeps].
Qed.

(** A lookup of records of one kind leaves the others alone. *)
Lemma confined_lookup cid w w' :
  House w → VaultInv Instance w' → VaultInv Secret.t w' → VaultInv Claim w' → read_only w w' →
  confined cid w w'.
Proof.
  intros Hi Hvi Hvs Hvv Hro. destruct (read_only_federation w w' Hro) as (Hd & Hc & Hg & Ha).
  split; [split|..]; try done.
  - eapply read_only_guests, Hi. done.
  - apply Hro, Hi.
  - apply Hro.
  - intros x _. apply Hc.
  - intros c g _ Hg'. by apply Hg.
  - by apply (loses_same Instance), (same_held_read Instance).
  - by apply (loses_same Secret.t), (same_held_read Secret.t).
  - by apply (loses_same Claim), (same_held_read Claim).
Qed.

(** The outcome of a deletion, given what has become of the other kinds. *)
Definition deletion_confined (T : Type) `{!Ward T} (cid rid : string) (w : World) (r : Res string)
    (w' : World) : Prop :=
  confined cid w w' ∧ same (is_cluster w) (is_cluster w') ∧ match r with
    | Ok err => err = "" → gone T rid w'
    | Throw _ => True
    | OutOfFuel => False
    end.

Definition survives (T : Type) `{!Ward T} (cid : string) (w w' : World) : Prop :=
  VaultInv T w' ∧ loses T cid w w'.

Lemma survives_others (T U : Type) `{W : !Ward T} `{WL : !WardLaws T} `{WU : !Ward U} `{WLU : !WardLaws U}
    cid rid w r w' :
  deleted_post T rid w r w' → VaultInv U w → ward_inv (T := U) w' →
  table w' (k_table (ward_kind (T := U))) = table w (k_table (ward_kind (T := U))) →
  survives U cid w w'.
Proof.
  intros [Hst _] Hu Hw Ht. destruct (others_kept T U w w') as [Hv Hs]; [done..|].
  split; [done|by apply loses_same].
Qed.

Lemma survives_own (T : Type) `{W : !Ward T} `{WL : !WardLaws T} cid rid w r w' :
  deleted_post T rid w r w' → on_cluster T cid rid w → survives T cid w w'.
Proof. intros Hd Hon. split; [apply Hd|by eapply deleted_loses]. Qed.

Lemma deletion_confined_intro (T : Type) `{W : !Ward T} `{WL : !WardLaws T} cid rid w r w' :
  House w → deleted_post T rid w r w' →
  (∀ t, t ≠ k_table (ward_kind (T := T)) → table w' t = table w t) →
  survives Instance cid w w' → survives Secret.t cid w w' → survives Claim cid w w' →
  deletion_confined T cid rid w r w'.
Proof.
  intros Hi [Hst Hr] Ht [] [] []. split; [by apply (confined_step T)|]. split; [apply Hst|].
  destruct r as [err|e|]; [|done|done]. intros ->. simpl in Hr. intros x [_ Hne]%Hr. done.
Qed.

(** What the tools are asked first does not touch the caches of records. *)
Lemma frame_after {X A B} (f : World → X) (g : _ → X) (m : Store A) (k : A → Store B) :
  (∀ w, f w = g (ward_caches w)) → frame ward_caches m → (∀ a, frame f (k a)) → frame f (m ≫= k).
Proof. intros Hf Hm Hk. apply frame_bind; [|done]. intros w. by rewrite !Hf, Hm. Qed.

Lemma delete_instance_confined cid i force w :
  House w → on_cluster Instance cid (ApplicationInstance.id i) w →
  wp (delete_instance i force) (deletion_confined Instance cid (ApplicationInstance.id i) w) w.
Proof.
  intros Hi Hon. pose proof (ho_instances _ Hi) as Hvi.
  assert (Hu : inquires Instance (uninstall i force)) by (unfold uninstall; solve_inquires).
  pose proof (remove_after_spec Instance (uninstall i force) (ApplicationInstance.id i)
    "Failed to delete instance from database" w Hu ltac:(done) Hvi
    : wp (delete_instance i force) _ w) as Hd.
  pose proof (remove_after_tables Instance (uninstall i force) (ApplicationInstance.id i)
    "Failed to delete instance from database" w Hu Hvi
    : wp (delete_instance i force) (λ _ w', ∀ t, t ≠ SLATE_instances → table w' t = table w t) w) as Ht.
  assert (Hfs : frame secrets (delete_instance i force)).
  { apply (frame_after _ (λ p, p.1.2)); [done|apply frame_uninstall|].
    unfold removeApplicationInstance, forget_instance. solve_frame. }
  assert (Hfv : frame volumes (delete_instance i force)).
  { apply (frame_after _ snd); [done|apply frame_uninstall|].
    unfold removeApplicationInstance, forget_instance. solve_frame. }
  specialize (Hfs w). specialize (Hfv w). unfold wp in *.
  destruct (delete_instance i force w) as [r w']. cbn [fst snd] in *.
  apply (deletion_confined_intro Instance); [done..| | |].
  - by eapply (survives_own Instance).
  - eapply (survives_others Instance Secret.t); [done|apply Hi| |by apply Ht].
    apply (SecretsInv_own w); [apply (va_ward (ho_secrets _ Hi))|by apply Ht|done].
  - eapply (survives_others Instance Claim); [done|apply Hi| |by apply Ht].
    apply (VolumesInv_own w); [apply (va_ward (ho_claims _ Hi))|by apply Ht|done].
Qed.

Lemma delete_secret_confined cid s force reachable w :
  House w → on_cluster Secret.t cid (Secret.id s) w →
  wp (delete_secret s force reachable) (deletion_confined Secret.t cid (Secret.id s) w) w.
Proof.
  intros Hi Hon. pose proof (ho_secrets _ Hi) as Hvs. unfold wp. rewrite delete_secret_unlink.
  pose proof (inquires_unlink s force reachable) as Hu.
  pose proof (remove_after_spec Secret.t (unlink s force reachable) (Secret.id s)
    "Failed to delete secret from database" w Hu ltac:(done) Hvs) as Hd.
  pose proof (remove_after_tables Secret.t (unlink s force reachable) (Secret.id s)
    "Failed to delete secret from database" w Hu Hvs) as Ht.
  cbn [ward_remove ward_kind secret_ward] in *.
  match type of Hd with wp ?m _ _ => set (del := m) in * end.
  assert (Hfi : frame instances del).
  { apply (frame_after _ (λ p, p.1.1)); [done|apply frame_unlink|].
    unfold StoreSecrets.removeSecret, forget_secret. solve_frame. }
  assert (Hfv : frame volumes del).
  { apply (frame_after _ snd); [done|apply frame_unlink|].
    unfold StoreSecrets.removeSecret, forget_secret. solve_frame. }
  specialize (Hfi w). specialize (Hfv w). unfold wp in *. fold del.
  destruct (del w) as [r w']. cbn [fst snd] in *.
  apply (deletion_confined_intro Secret.t); [done..| | |].
  - eapply (survives_others Secret.t Instance); [done|apply Hi| |by apply Ht].
    apply (InstancesInv_own w); [apply (va_ward (ho_instances _ Hi))|by apply Ht|done].
  - by eapply (survives_own Secret.t).
  - eapply (survives_others Secret.t Claim); [done|apply Hi| |by apply Ht].
    apply (VolumesInv_own w); [apply (va_ward (ho_claims _ Hi))|by apply Ht|done].
Qed.

Lemma delete_volume_confined cid v force reachable w :
  House w → on_cluster Claim cid (PersistentVolumeClaim.id v) w →
  wp (delete_volume v force reachable) (deletion_confined Claim cid (PersistentVolumeClaim.id v) w) w.
Proof.
  intros Hi Hon. pose proof (ho_claims _ Hi) as Hvv.
  set (unlinked := if reachable then unlink_volume v force else mret "").
  assert (Hu : inquires Claim unlinked).
  { subst unlinked. destruct reachable; [apply inquires_unlink_volume|apply inquires_ret; apply _]. }
  assert (Hf : frame ward_caches unlinked).
  { subst unlinked. destruct reachable; [apply frame_unlink_volume|done]. }
  pose proof (remove_after_spec Claim unlinked (PersistentVolumeClaim.id v)
    "Failed to delete volume from database" w Hu ltac:(done) Hvv
    : wp (delete_volume v force reachable) _ w) as Hd.
  pose proof (remove_after_tables Claim unlinked (PersistentVolumeClaim.id v)
    "Failed to delete volume from database" w Hu Hvv
    : wp (delete_volume v force reachable) (λ _ w', ∀ t, t ≠ SLATE_volumes → table w' t = table w t) w) as Ht.
  assert (Hfi : frame instances (delete_volume v force reachable)).
  { apply (frame_after _ (λ p, p.1.1)); [done|exact Hf|].
    unfold removePersistentVolumeClaim, forget_volume. solve_frame. }
  assert (Hfs : frame secrets (delete_volume v force reachable)).
  { apply (frame_after _ (λ p, p.1.2)); [done|exact Hf|].
    unfold removePersistentVolumeClaim, forget_volume. solve_frame. }
  specialize (Hfi w). specialize (Hfs w). unfold wp in *.
  destruct (delete_volume v force reachable w) as [r w']. cbn [fst snd] in *.
  apply (deletion_confined_intro Claim); [done..| | |].
  - eapply (survives_others Claim Instance); [done|apply Hi| |by apply Ht].
    apply (InstancesInv_own w); [apply (va_ward (ho_instances _ Hi))|by apply Ht|done].
  - eapply (survives_others Claim Secret.t); [done|apply Hi| |by apply Ht].
    apply (SecretsInv_own w); [apply (va_ward (ho_secrets _ Hi))|by apply Ht|done].
  - by eapply (survives_own Claim).
Qed.

(** ** Forced deletions *)

(** What a computation returns, when it returns. *)
Definition yields {A} (R : A → Prop) (m : Store A) : Prop := ∀ w a, (m w).1 = Ok a → R a.

Lemma yields_bind {A B} (R : B → Prop) (m : Store A) (k : A → Store B) :
  (∀ a, yields R (k a)) → yields R (m ≫= k).
Proof.
  intros Hk w b. unfold mbind, M_bind. destruct (m w) as [[a|e|] w1]; [apply Hk|done..].
Qed.

Lemma yields_try {A} (R : A → Prop) (m : Store A) h :
  yields R m → (∀ e, yields R (h e)) → yields R (try_catch m h).
Proof.
  intros Hm Hh w a. specialize (Hm w a). unfold try_catch.
  destruct (m w) as [[b|e|] w1]; [exact Hm| |done]. destruct (runtime_error e); [apply Hh|done].
Qed.

Lemma yields_ret {A} (R : A → Prop) (a : A) : R a → yields R (mret a : Store A).
Proof. by intros Ha w b [= <-]. Qed.

Lemma yields_bind_ok {A B} (R : A → Prop) (Q : B → Prop) (m : Store A) (k : A → Store B) :
  yields R m → (∀ a, R a → yields Q (k a)) → yields Q (m ≫= k).
Proof.
  intros Hm Hk w b. unfold mbind, M_bind. specialize (Hm w).
  destruct (m w) as [[a|e|] w1]; [|done..]. apply Hk. by apply Hm.
Qed.

Lemma yields_for_collect {A B} (R : B → Prop) (l : list A) (f : A → Store B) :
  (∀ x, yields R (f x)) → yields (Forall R) (for_collect l f).
Proof.
  intros Hf. induction l as [|x l IH]; cbn [for_collect]; [by apply yields_ret|].
  eapply yields_bind_ok; [apply Hf|]. intros y Hy. eapply yields_bind_ok; [apply IH|].
  intros ys Hys. apply yields_ret. by constructor.
Qed.

Lemma yields_async {A} (m : Store A) : yields (λ q, q ≠ OutOfFuel) (async m).
Proof.
  intros w q. unfold async. destruct (m w) as [[a|e|] w1]; simpl; [by intros [= <-]| |done].
  case_bool_decide; [done|by intros [= <-]].
Qed.

(** With force an instance goes whatever the tools say, unless they end the process. *)
Lemma uninstall_forced i : yields (λ err, err = "") (uninstall i true).
Proof.
  unfold uninstall. apply yields_try; [|intros e; by apply yields_ret].
  do 5 (apply yields_bind; intros ?). apply yields_ret. by rewrite andb_false_r.
Qed.

Lemma delete_instance_forced i w :
  House w → wp (delete_instance i true) (λ r _, ∀ err, r = Ok err → err = "") w.
Proof.
  intros Hi. pose proof (ho_instances _ Hi) as Hvi.
  assert (Hu : inquires Instance (uninstall i true)) by (unfold uninstall; solve_inquires).
  unfold delete_instance. eapply wp_seq; [by apply wp_result, Hu|..].
  2: done.
  2: done.
  intros err w1 ((Hi1 & Hro & _) & Hr). rewrite (uninstall_forced i w err (eq_sym Hr)). simpl.
  eapply wp_seq; [exact (remove_vault Instance (ApplicationInstance.id i) w1 Hi1)| |done|done].
  intros b w2 (_ & Hb). apply wp_ret. intros err' [= <-]. destruct b; [done|].
  destruct Hb as [Hn _]. by destruct Hn; apply Hro, Hi.
Qed.

Lemma unlink_forced s reachable : yields (λ err, err = "") (unlink s true reachable).
Proof.
  unfold unlink. apply yields_bind. intros g. destruct reachable; [|by apply yields_ret].
  apply yields_try; [|intros e; by apply yields_ret].
  do 2 (apply yields_bind; intros ?). apply yields_ret. by rewrite andb_false_r.
Qed.

Lemma delete_secret_forced s reachable w :
  House w → ∀ err, (delete_secret s true reachable w).1 = Ok err → err = "".
Proof.
  intros Hi. pose proof (ho_secrets _ Hi) as Hvs. rewrite delete_secret_unlink.
  match goal with |- ∀ err, (?m w).1 = _ → _ => enough (Hw : wp m (λ r _, ∀ err, r = Ok err → err = "") w) by exact Hw end.
  eapply wp_seq; [by apply wp_result, (inquires_unlink s true reachable)|..].
  2: done.
  2: done.
  intros err w1 ((Hi1 & Hro & _) & Hr). rewrite (unlink_forced s reachable w err (eq_sym Hr)). simpl.
  eapply wp_seq; [exact (remove_vault Secret.t (Secret.id s) w1 Hi1)| |done|done].
  intros b w2 (_ & Hb). apply wp_ret. intros err' [= <-]. destruct b; [done|].
  destruct Hb as [Hn _]. by destruct Hn; apply Hro, Hi.
Qed.
End contents.

(** * The steps of a deletion *)

Section steps.
Context `{D : Dynamo} `{P : Platform} `{PR : !Processes} `{J : !JsonParser}.
Context `{R : !Route53 FS} `{Y : !Yaml} `{S : !Settings}.
Context `{L : !DynamoLaws} `{DL : !DiskLaws} `{PL : !ProcessLaws} `{NL : !NetLaws}.
Context (dnsClient : DNSManipulator.t) (w0 : World) (c : Cluster.t).
Local Abbreviation cid := (Cluster.id c).

(** Only what is of the cluster has changed, and its record is still there. *)
Definition later (w w' : World) : Prop := confined cid w w' ∧ is_cluster w' c.
Local Abbreviation underway := (later w0).

(** A computation that ends, and keeps it so. *)
Definition stays {A} (m : Store A) : Prop := ∀ w, underway w →
  wp m (λ r w', later w w' ∧ r ≠ OutOfFuel) w.

Lemma later_trans w w1 w2 : later w w1 → later w1 w2 → later w w2.
Proof. intros [H1 _] [H2 ?]. split; [by eapply confined_trans|done]. Qed.

Lemma underway_refl w : underway w → later w w.
Proof. intros [H1 ?]. split; [|done]. apply confined_refl, H1. Qed.

Lemma underway_fed w : underway w → FedInv w.
Proof. intros [Hc _]. apply (va_fed (ho_instances _ (cf_house _ _ _ Hc))). Qed.

Lemma stays_ret {A} (a : A) : stays (mret a).
Proof. intros w Hw. split; [by apply underway_refl|done]. Qed.

Lemma stays_lift {A} (r : Res A) : r ≠ OutOfFuel → stays (lift r).
Proof. intros Hr w Hw. split; [by apply underway_refl|done]. Qed.

Lemma stays_bind {A B} (m : Store A) (k : A → Store B) :
  stays m → (∀ a, stays (k a)) → stays (m ≫= k).
Proof.
  intros Hm Hk w Hw. eapply wp_seq; [by apply Hm| | |].
  - intros a w1 [Hw1 _]. eapply wp_mono, Hk; [|by eapply later_trans].
    intros r w2 [Hw2 Hr]. split; [by eapply later_trans|done].
  - intros e w1 [Hw1 _]. by split.
  - by intros w1 [_ []].
Qed.

Lemma stays_try {A} (m : Store A) h : stays m → (∀ e, stays (h e)) → stays (try_catch m h).
Proof.
  intros Hm Hh w Hw. destruct (Hm w Hw) as [Hw1 Hn]. unfold wp, try_catch in *.
  destruct (m w) as [[a|e|] w1]; simpl in *; [done| |done].
  destruct (runtime_error e); [|done].
  destruct (Hh e w1) as [Hw2 Hr]; [by eapply later_trans|]. split; [by eapply later_trans|done].
Qed.

Lemma stays_async {A} (m : Store A) : stays m → stays (async m).
Proof.
  intros Hm w Hw. destruct (Hm w Hw) as [Hw1 Hn]. unfold wp, async in *.
  destruct (m w) as [[a|e|] w1]; simpl in *; [done| |done]. by case_match.
Qed.

Lemma stays_for_each {A} (l : list A) (f : A → Store unit) :
  (∀ x, x ∈ l → stays (f x)) → stays (for_each l f).
Proof.
  induction l as [|x l IH]; intros Hf; cbn [for_each]; [apply stays_ret|].
  apply stays_bind; [apply Hf; by left|]. intros _. apply IH. intros y Hy. apply Hf. by right.
Qed.

Lemma stays_for_collect {A B} (l : list A) (f : A → Store B) :
  (∀ x, x ∈ l → stays (f x)) → stays (for_collect l f).
Proof.
  induction l as [|x l IH]; intros Hf; cbn [for_collect]; [apply stays_ret|].
  apply stays_bind; [apply Hf; by left|]. intros y.
  apply stays_bind; [apply IH; intros z Hz; apply Hf; by right|]. intros ys. apply stays_ret.
Qed.

Lemma underway_read w w1 :
  underway w → FedInv w1 → read_only w w1 → ward_caches w1 = ward_caches w → later w w1.
Proof.
  intros [Hc Hcl] Hi Hro Hw. split; [|by apply (read_only_is_cluster w w1)].
  apply confined_read; [apply Hc|done..].
Qed.

Lemma stays_asks {A} (m : Store A) : asks m → frame ward_caches m → stays m.
Proof.
  intros Hm Hf w Hw. destruct (Hm w (underway_fed w Hw)) as (Hi & Hro & Hn).
  split; [|done]. eapply underway_read; [done..|]. apply Hf.
Qed.

Lemma stays_outside {A} (m : Store A) :
  frame inside m → tidy [] (λ _, true) m → (∀ w, (m w).1 ≠ OutOfFuel) → stays m.
Proof.
  intros Hf Ht He. apply stays_asks; [by apply asks_outside|by apply frame_ward_outside].
Qed.

(** What is gone stays so. *)
Lemma gone_later (T : Type) `{!Ward T} rid w w' :
  (loses T cid w w') → gone T rid w → gone T rid w'.
Proof. intros [Hs _] Hg x Hx. by apply Hg, Hs. Qed.

Lemma on_cluster_later (T : Type) `{!Ward T} rid w w' :
  loses T cid w w' → on_cluster T cid rid w → on_cluster T cid rid w'.
Proof. intros [Hs _] Hg x Hx. by apply Hg, Hs. Qed.

(** ** Looking at the cluster *)

Lemma asks_cacheClusterReachability id b : asks (cacheClusterReachability id b).
Proof.
  intros w Hi. unfold cacheClusterReachability.
  eapply wp_seq; [by apply normalizeClusterID_fed| |by intros e w1 (_ & _ & [])|by intros w1 (_ & _ & [])].
  intros [id'|] w1 (Hi1 & Hro1 & _); [|by apply wp_ret]. unfold make_record, wp. simpl.
  split; [|done]. apply (fed_read_only w1); [done..| | |].
  - apply ClustersInv_kept with w1; [apply Hi1|done..|]. exact (ClustersInv_auxiliary w1 (fi_clusters _ Hi1)).
  - eapply AccessInv_kept; [apply Hi1|done|done].
  - eapply AppsInv_kept; [apply Hi1|done|done].
Qed.

Lemma stays_path : stays (configPathForCluster cid).
Proof. apply stays_asks; [apply asks_configPathForCluster|apply configPathForCluster_frame]. Qed.

Lemma asks_look : asks (look c).
Proof.
  unfold look, ping. apply asks_bind; [apply asks_bind; [apply asks_configPathForCluster|]|].
  - intros path. apply asks_bind; [apply asks_kubectl|intros info; apply asks_ret].
  - intros b. apply asks_bind; [apply asks_cacheClusterReachability|intros _; apply asks_ret].
Qed.

Lemma frame_ward_look : frame ward_caches (look c).
Proof.
  unfold look, ping. apply frame_bind; [solve_frame|]. intros b.
  apply frame_bind; [|done]. unfold cacheClusterReachability, normalizeClusterID,
    findClusterByName, cache_cluster, writeClusterConfigToDisk. solve_frame.
Qed.

Lemma stays_look : stays (look c).
Proof. apply stays_asks; [apply asks_look|apply frame_ward_look]. Qed.

(** ** The namespaces *)

Lemma stays_delete_namespace path g : stays (kubectl_delete_namespace path g).
Proof.
  apply stays_outside; [apply frame_delete_namespace| |].
  - unfold kubectl_delete_namespace, getControllerVersion.
    apply tidy_bind; [apply tidy_bind; [apply tidy_run|intros r; by apply tidy_frame]|].
    intros v. apply tidy_bind; [apply tidy_run|]. intros r. apply tidy_frame. by repeat case_match.
  - intros w. unfold kubectl_delete_namespace, getControllerVersion, mbind, M_bind.
    match goal with |- context [run ?a ?b ?d w] => pose proof (run_ends a b d w);
      destruct (run a b d w) as [[r|e|] w1] end; [|done..]. simpl.
    match goal with |- context [run ?a ?b ?d w1] => pose proof (run_ends a b d w1);
      destruct (run a b d w1) as [[r'|e|] w2] end; [|done..]. by repeat case_match.
Qed.

Lemma frame_ward_listGroups fuel : frame ward_caches (StoreGroups.listGroups fuel).
Proof.
  unfold StoreGroups.listGroups, list_all, list_group, cache_group.
  repeat first [progress solve_frame | apply frame_scan_loop; [done|]].
Qed.

(** The pages of the table of groups, as long as it stays what it is. *)
Definition enough_pages (fuel : nat) (w : World) : Prop := ∀ d,
  rows d SLATE_groups = rows (db w) SLATE_groups → pages_left d SLATE_groups (EExists "name") None < fuel.

Lemma listGroups_ends fuel w :
  pages_left (db w) SLATE_groups (EExists "name") None < fuel →
  (StoreGroups.listGroups fuel w).1 ≠ OutOfFuel.
Proof.
  apply list_all_ends; [|done]. intros it w1. split.
  - revert w1. change (frame db (list_group it)). unfold list_group, cache_group. solve_frame.
  - unfold list_group, group_of_item, attr_string, findOrThrow, mbind, M_bind, Res_bind, lift.
    by repeat (case_match; simpl in *; try done).
Qed.

Lemma stays_delete_namespaces fuel path :
  enough_pages fuel w0 → stays (delete_namespaces fuel path).
Proof.
  intros Hf. unfold delete_namespaces. apply stays_bind.
  - intros w Hw. pose proof (underway_fed w Hw) as Hi. split.
    + destruct (looks_up_listGroups fuel w (fi_server _ Hi)) as (Hs & Hro).
      eapply underway_read; [done| |done|].
      * apply (FedInv_directory w); [done|done|].
        apply resources_frame_kept, spares_listGroups.
      * apply frame_ward_listGroups.
    + apply listGroups_ends, Hf. apply (cf_groups _ _ _ (proj1 Hw)).
  - intros vos. apply stays_for_each. intros g _.
    apply stays_try; [apply stays_delete_namespace|intros e; apply stays_ret].
Qed.

(** ** The DNS record *)

Lemma netlike_get type name : netlike (getDNSRecord dnsClient type name).
Proof.
  unfold getDNSRecord. case_match; [apply netlike_throw|].
  apply netlike_bind; [apply netlike_hosted_zone|]. intros id. apply netlike_answer.
Qed.

Lemma stays_on_net {A} (m : M FS A) : netlike m → stays (on_net m).
Proof.
  intros Hm. apply stays_asks; [by apply asks_on_net|]. intros w. unfold on_net.
  by destruct (m (fs w)).
Qed.

Lemma stays_dns : stays (delete_dns dnsClient c).
Proof.
  unfold delete_dns. cbv zeta. case_match; [|apply stays_ret].
  assert (Hup : ∀ type name, stays (try_catch (on_net (getDNSRecord dnsClient type name)) (λ _, mret []))).
  { intros type name. apply stays_try; [apply stays_on_net, netlike_get|intros e; apply stays_ret]. }
  apply stays_bind.
  - unfold find_record. cbv zeta. apply stays_bind; [apply Hup|]. intros record.
    case_match; [apply Hup|apply stays_ret].
  - intros [|address record]; [apply stays_ret|]. apply stays_bind; [|intros; apply stays_ret].
    apply stays_try; [apply stays_on_net, netlike_change|intros e; apply stays_ret].
Qed.

(** ** The instances *)

Definition here (T : Type) `{!Ward T} (rid : string) : Prop := on_cluster T cid rid w0.

Lemma underway_house w : underway w → House w.
Proof. intros [Hc _]. apply Hc. Qed.

Lemma deletion_later (T : Type) `{!Ward T} rid w r w' :
  underway w → deletion_confined T cid rid w r w' → later w w' ∧ r ≠ OutOfFuel.
Proof. intros [_ Hc] (Hd & Hs & Hr). split; [split; [done|by apply Hs]|]. by intros ->. Qed.

Lemma one_instance i force w :
  here Instance (ApplicationInstance.id i) → underway w →
  wp (delete_instance i force) (λ r w', (later w w' ∧ r ≠ OutOfFuel) ∧
    ∀ err, r = Ok err → err = "" ∨ force = true → gone Instance (ApplicationInstance.id i) w') w.
Proof.
  intros Hon Hw. pose proof (underway_house w Hw) as Hi.
  assert (Hon' : on_cluster Instance cid (ApplicationInstance.id i) w).
  { eapply on_cluster_later, Hon. apply (cf_instances _ _ _ (proj1 Hw)). }
  pose proof (delete_instance_confined cid i force w Hi Hon') as Hd.
  assert (Hf : force = true → ∀ err, (delete_instance i force w).1 = Ok err → err = "").
  { intros ->. apply delete_instance_forced, Hi. }
  unfold wp in *. destruct (delete_instance i force w) as [r w']. simpl in *.
  split; [by apply (deletion_later Instance (ApplicationInstance.id i))|].
  intros err -> He. destruct Hd as (_ & _ & Hr). apply Hr. destruct He as [->|Hfo]; [done|by apply Hf].
Qed.

Lemma delete_instances_spec force l w :
  (∀ i, i ∈ l → ApplicationInstance.cluster i = cid → here Instance (ApplicationInstance.id i)) →
  underway w →
  wp (delete_instances cid force l) (λ r w', (later w w' ∧ r ≠ OutOfFuel) ∧ (r = Ok None →
    ∀ i, i ∈ l → ApplicationInstance.cluster i = cid → gone Instance (ApplicationInstance.id i) w')) w.
Proof.
  revert w. induction l as [|i l IH]; intros w Hl Hw; cbn [delete_instances].
  { apply wp_ret. split; [by split; [apply underway_refl|]|]. by intros _ i ?%not_elem_of_nil. }
  case_bool_decide as Hc.
  2: { eapply wp_mono, IH; [|intros j Hj; apply Hl; by right|done].
       intros r w' [Hr Hg]. split; [done|]. intros Hn j [->|Hj]%elem_of_cons; [done|by apply Hg]. }
  eapply wp_seq; [apply (one_instance i force); [apply Hl; [by left|done]|done]| | |].
  2: { intros e w1 [[Hr _] _]. by split; [split|]. }
  2: { by intros w1 [[_ []] _]. }
  intros err w1 [[Hw1 _] Hg]. destruct (negb force && negb (str_empty err)) eqn:He.
  { apply wp_ret. by split; [split|]. }
  eapply wp_mono, IH; [|intros j Hj; apply Hl; by right|by eapply later_trans].
  intros r w' [[Hr Hn] Hgl]. split; [split; [by eapply later_trans|done]|].
  intros Hnone j [->|Hj]%elem_of_cons; [intros _|by apply Hgl].
  eapply gone_later; [apply (cf_instances _ _ _ (proj1 Hr))|]. apply (Hg err eq_refl).
  destruct force; [by right|left]. simpl in He. by apply negb_false_iff, str_empty_true in He.
Qed.

(** ** The secrets and the claims *)

Lemma one_secret s reachable w :
  here Secret.t (Secret.id s) → underway w →
  wp (async (delete_secret s true reachable)) (λ r w', (later w w' ∧ r ≠ OutOfFuel) ∧
    ∀ q, r = Ok q → is_ok q = true → gone Secret.t (Secret.id s) w') w.
Proof.
  intros Hon Hw. pose proof (underway_house w Hw) as Hi.
  assert (Hon' : on_cluster Secret.t cid (Secret.id s) w).
  { eapply on_cluster_later, Hon. apply (cf_secrets _ _ _ (proj1 Hw)). }
  pose proof (delete_secret_confined cid s true reachable w Hi Hon') as Hd.
  pose proof (delete_secret_forced s reachable w Hi) as Hf.
  unfold wp, async in *. destruct (delete_secret s true reachable w) as [r w']. simpl in *.
  destruct (deletion_later Secret.t (Secret.id s) w r w' Hw Hd) as [Hl Hn].
  destruct Hd as (_ & _ & Hr). destruct r as [err|e|]; simpl; [| |done].
  - split; [done|]. intros q [= <-] _. apply Hr. by apply Hf.
  - split; [by case_bool_decide|]. intros q Hq. case_bool_decide; by simplify_eq.
Qed.

Lemma one_volume v reachable : here Claim (PersistentVolumeClaim.id v) →
  stays (async (delete_volume v true reachable)).
Proof.
  intros Hon. apply stays_async. intros w Hw. pose proof (underway_house w Hw) as Hi.
  assert (Hon' : on_cluster Claim cid (PersistentVolumeClaim.id v) w).
  { eapply on_cluster_later, Hon. apply (cf_claims _ _ _ (proj1 Hw)). }
  apply (deletion_later Claim (PersistentVolumeClaim.id v) w); [done|].
  by apply delete_volume_confined.
Qed.

Lemma secrets_deleted l reachable w :
  (∀ s, s ∈ l → here Secret.t (Secret.id s)) → underway w →
  wp (for_collect l (λ secret, async (delete_secret secret true reachable)))
    (λ r w', (later w w' ∧ r ≠ OutOfFuel) ∧ ∀ qs, r = Ok qs → Forall (λ q, is_ok q = true) qs →
       ∀ s, s ∈ l → gone Secret.t (Secret.id s) w') w.
Proof.
  revert w. induction l as [|s l IH]; intros w Hl Hw; cbn [for_collect].
  { apply wp_ret. split; [by split; [apply underway_refl|]|]. by intros qs _ _ s ?%not_elem_of_nil. }
  eapply wp_seq; [apply (one_secret s reachable); [apply Hl; by left|done]| | |].
  2: { intros e w1 [[Hr _] _]. by split; [split|]. }
  2: { by intros w1 [[_ []] _]. }
  intros q w1 [[Hw1 _] Hg].
  eapply wp_seq; [apply IH; [intros j Hj; apply Hl; by right|by eapply later_trans]| | |].
  2: { intros e w2 [[Hr _] _]. split; [split; [by eapply later_trans|done]|done]. }
  2: { by intros w2 [[_ []] _]. }
  intros qs w2 [[Hw2 _] Hgs]. apply wp_ret. split; [split; [by eapply later_trans|done]|].
  intros qs' [= <-] Hall s' Hin. apply list.Forall_cons_1 in Hall as [Hq Hqs].
  apply elem_of_cons in Hin as [->|Hs]; [|by apply (Hgs qs eq_refl)].
  eapply gone_later; [apply (cf_secrets _ _ _ (proj1 Hw2))|]. by apply (Hg q).
Qed.

(** A record that is stored for the cluster is the one with its ID. *)
Lemma stored_here (T : Type) `{W : !Ward T} `{WL : !WardLaws T} w (x : T) :
  loses T cid w0 w → held w x → ward_cluster x = cid → here T (k_id ward_kind x).
Proof.
  intros [Hs _] Hx%Hs Hc y Hy Hid. rewrite <- Hc. f_equal.
  by apply (stored_in_inj ward_kind (table w0 (k_table ward_kind))).
Qed.

(** A lookup of records. *)
Lemma later_lookup w w' :
  underway w → read_only w w' → estate w' = estate w → fs w' = fs w →
  InstancesInv w' → SecretsInv w' → VolumesInv w' → later w w'.
Proof.
  intros Hw Hro He Hf Hi Hs Hv. pose proof (underway_house w Hw) as [Hvi Hvs Hvv Hg Hh].
  destruct (around_federation Secret.t w w') as [Hfed _]; [apply Hvs| |by rewrite Hf|].
  { split; [done|intros t _; apply Hro|apply Hro]. }
  split; [|by apply (read_only_is_cluster w w'); [|apply Hw]].
  apply confined_lookup; [done|..|done]; by eapply VaultInv_read.
Qed.

Lemma secrets_on_cluster w :
  underway w → wp (StoreSecrets.listSecrets "" cid) (λ r w', (later w w' ∧ r ≠ OutOfFuel) ∧
    ∀ l, r = Ok l → (∀ s, s ∈ l → here Secret.t (Secret.id s)) ∧
      ∀ s, is_secret w s → Secret.cluster s = cid → s ∈ l) w.
Proof.
  intros Hw. pose proof (underway_house w Hw) as [Hvi Hvs Hvv Hg Hh].
  pose proof (fi_proper _ (underway_fed w Hw) c (proj2 Hw)) as [[Hid _] _].
  pose proof (listSecrets_spec "" cid w (va_ward Hvs) (or_introl eq_refl) (or_intror Hid) eq_refl
    (secrets_distinct w c Hvs (proj2 Hw))) as Hl.
  destruct (listSecrets_frames "" cid (or_introl eq_refl) (or_intror Hid)) as [He Hf].
  assert (Hfi : frame instances (StoreSecrets.listSecrets "" cid)).
  { unfold StoreSecrets.listSecrets, secrets_query, cache_secret.
    rewrite normalize_group_arg by (by left). rewrite normalize_cluster_arg by (by right).
    repeat first [progress solve_frame | progress cbv zeta]. }
  assert (Hfv : frame volumes (StoreSecrets.listSecrets "" cid)).
  { unfold StoreSecrets.listSecrets, secrets_query, cache_secret.
    rewrite normalize_group_arg by (by left). rewrite normalize_cluster_arg by (by right).
    repeat first [progress solve_frame | progress cbv zeta]. }
  specialize (He w). specialize (Hf w). specialize (Hfi w). specialize (Hfv w).
  unfold wp in *. destruct (StoreSecrets.listSecrets "" cid w) as [r w']. cbn [fst snd] in *.
  destruct Hl as (Hk & Hro & l & -> & Hs & Hall).
  split; [split; [|done]|].
  - apply later_lookup; [done..|by apply (InstancesInv_own w); [apply (va_ward Hvi)|apply Hro|]|done|].
    by apply (VolumesInv_own w); [apply (va_ward Hvv)|apply Hro|].
  - intros l' [= <-]. assert (Hne : cid ≠ "") by (intros Heq; by rewrite Heq in Hid). split.
    + intros s Hin. destruct (Hs s Hin) as [Hst' [_ Hcl]].
      exact (stored_here Secret.t w s (cf_secrets _ _ _ (proj1 Hw)) Hst' (Hcl Hne)).
    + intros s Hin Hcl. apply Hall; [done| |done|done]. split; [by right|]. by intros [[] _].
Qed.

Lemma volumes_on_cluster w :
  underway w → wp (listPersistentVolumeClaimsByClusterOrGroup "" cid) (λ r w',
    (later w w' ∧ r ≠ OutOfFuel) ∧
    ∀ l, r = Ok l → ∀ v, v ∈ l → here Claim (PersistentVolumeClaim.id v)) w.
Proof.
  intros Hw. pose proof (underway_house w Hw) as [Hvi Hvs Hvv Hg Hh].
  pose proof (fi_proper _ (underway_fed w Hw) c (proj2 Hw)) as [[Hid _] _].
  pose proof (list_volumes_by_spec "" cid w (va_ward Hvv) (or_introl eq_refl) (or_intror Hid) eq_refl
    (vault_distinct Claim w c Hvv (proj2 Hw))) as Hl.
  destruct (listing_frames "" cid (or_introl eq_refl) (or_intror Hid)) as [He Hf].
  assert (Hfo : frame instances (listPersistentVolumeClaimsByClusterOrGroup "" cid) ∧
    frame secrets (listPersistentVolumeClaimsByClusterOrGroup "" cid)).
  { unfold listPersistentVolumeClaimsByClusterOrGroup, cache_listed_volume, list_query.
    rewrite normalize_group_arg by (by left). rewrite normalize_cluster_arg by (by right).
    split; repeat first [progress solve_frame|progress cbv zeta]. }
  destruct Hfo as [Hfi Hfs].
  specialize (He w). specialize (Hf w). specialize (Hfi w). specialize (Hfs w).
  unfold wp in *. destruct (listPersistentVolumeClaimsByClusterOrGroup "" cid w) as [r w'].
  cbn [fst snd] in *. destruct Hl as (Hk & Hro & l & -> & Hs & _).
  split; [split; [|done]|].
  - apply later_lookup; [done..|by apply (InstancesInv_own w); [apply (va_ward Hvi)|apply Hro|]| |done].
    by apply (SecretsInv_own w); [apply (va_ward Hvs)|apply Hro|].
  - intros l' [= <-] v Hin. destruct (Hs v Hin) as [Hst [_ Hcl]].
    assert (Hne : cid ≠ "") by (intros Heq; by rewrite Heq in Hid).
    exact (stored_here Claim w (without_selectors v) (cf_claims _ _ _ (proj1 Hw)) Hst (Hcl Hne)).
Qed.

Lemma first_failure_ends force results :
  Forall (λ r : Res string, r ≠ OutOfFuel) results → ∀ w,
  ∃ r, first_failure force results w = (r, w) ∧ r ≠ OutOfFuel ∧
    (r = Ok None → Forall (λ q, is_ok q = true) results).
Proof.
  induction 1 as [|q results Hq _ IH]; intros w; cbn [first_failure].
  { by exists (Ok None). }
  unfold mbind, M_bind, lift. destruct q as [a|e|]; [|by exists (Throw e)|done].
  destruct (negb force && negb (str_empty a)); [by exists (Ok (Some a))|].
  destruct (IH w) as (r & Hr & Hn & Ha). exists r. split; [done|]. split; [done|].
  intros Hnone. constructor; [done|by apply Ha].
Qed.

Lemma wp_first_failure {A} force results (k : option string → Store A) Q w :
  Forall (λ r : Res string, r ≠ OutOfFuel) results →
  (∀ o, (o = None → Forall (λ q, is_ok q = true) results) → wp (k o) Q w) →
  (∀ e, Q (Throw e) w) → wp (first_failure force results ≫= k) Q w.
Proof.
  intros Hr Hk He. destruct (first_failure_ends force results Hr w) as (r & Hrun & Hn & Ho).
  unfold wp, mbind, M_bind. rewrite Hrun. destruct r as [o|e|]; [|apply He|done].
  apply Hk. intros ->. by apply Ho.
Qed.

(** A step of the deletion, of which something is known afterwards. *)
Lemma wp_later {A B} (F : Res A → World → Prop) (m : Store A) (k : A → Store B)
    (Q : Res B → World → Prop) w :
  underway w → wp m (λ r w', (later w w' ∧ r ≠ OutOfFuel) ∧ F r w') w →
  (∀ a w', later w w' → underway w' → (m w).1 = Ok a → F (Ok a) w' → wp (k a) Q w') →
  (∀ e w', later w w' → Q (Throw e) w') → wp (m ≫= k) Q w.
Proof.
  intros Hw Hm Hk He. eapply wp_seq; [exact (wp_result _ _ _ Hm)| | |].
  - intros a w1 [[[Hl _] Hf] Hr]. apply Hk; [done|by eapply later_trans|done|done].
  - intros e w1 [[[Hl _] _] _]. by apply He.
  - by intros w1 [[[_ []] _] _].
Qed.

(** All secrets go, unless an error is reported. *)
Lemma delete_contents_spec force reachable w :
  underway w → wp (delete_contents c force reachable) (λ r w', (later w w' ∧ r ≠ OutOfFuel) ∧
    (r = Ok None → ∀ s, is_secret w s → Secret.cluster s = cid → gone Secret.t (Secret.id s) w')) w.
Proof.
  intros Hw. unfold delete_contents.
  eapply wp_later; [done|by apply secrets_on_cluster| |by intros e w1 Hl; split; [split|]].
  intros secrets w1 Hl1 Hu1 _ Hs. destruct (Hs secrets eq_refl) as [Hhere Hall].
  eapply wp_later; [done|by apply (secrets_deleted secrets reachable)| |].
  2: { intros e w2 Hl2. split; [split; [by eapply later_trans|done]|done]. }
  intros qs w2 Hl2 Hu2 Hqs Hg. specialize (Hg qs eq_refl).
  assert (Hl02 : later w w2) by by eapply later_trans.
  assert (Hq : Forall (λ q, q ≠ OutOfFuel) qs).
  { eapply (yields_for_collect (λ q, q ≠ OutOfFuel)); [|exact (eq_sym (eq_sym Hqs))].
    intros s. apply yields_async. }
  eapply wp_later; [done|by apply volumes_on_cluster| |].
  2: { intros e w3 Hl3. split; [split; [by eapply later_trans|done]|done]. }
  intros volumes w3 Hl3 Hu3 _ Hv. specialize (Hv volumes eq_refl).
  assert (Hl03 : later w w3) by by eapply later_trans.
  eapply (wp_later (λ _ _, True)); [done| | |].
  { eapply wp_mono; [|apply (stays_for_collect volumes); [|exact Hu3]].
    - by intros r w4 H4.
    - intros v Hin. apply one_volume. by apply Hv. }
  2: { intros e w4 Hl4. split; [split; [by eapply later_trans|done]|done]. }
  intros vs w4 Hl4 Hu4 Hvs _. assert (Hl04 : later w w4) by by eapply later_trans.
  assert (Hvq : Forall (λ q, q ≠ OutOfFuel) vs).
  { eapply (yields_for_collect (λ q, q ≠ OutOfFuel)); [|exact Hvs].
    intros v. apply yields_async. }
  apply wp_first_failure; [done| |by intros e; split; [split|]].
  intros [result|] _; [by apply wp_ret; split; [split|]|].
  apply wp_first_failure; [done| |by intros e; split; [split|]].
  intros o Ho. apply wp_ret. split; [by split|]. intros Hnone s Hst Hcl.
  destruct o as [m|]; [done|].
  assert (Hl24 : later w2 w4) by by eapply later_trans.
  eapply gone_later; [apply (cf_secrets _ _ _ (proj1 Hl24))|]. apply Hg; [by apply Ho|]. by apply Hall.
Qed.
End steps.

(** * The record of the cluster *)

Section record_frames.
Context `{D : Dynamo} `{P : Platform} `{L : !DynamoLaws}.

(** What the operations on the record of a cluster do not touch. *)
Definition belongings (w : World) :=
  (ward_caches w, table w SLATE_groups, table w SLATE_instances, table w SLATE_secrets,
   table w SLATE_volumes).

Lemma belongings_kept {A} (m : Store A) w : frame belongings m → records_kept w (m w).2.
Proof.
  intros Hf. specialize (Hf w). split;
    [exact (f_equal (λ p, p.1.1.1.1) Hf)|exact (f_equal (λ p, p.1.1.1.2) Hf)
    |exact (f_equal (λ p, p.1.1.2) Hf)|exact (f_equal (λ p, p.1.2) Hf)|exact (f_equal snd Hf)].
Qed.

Lemma frame_belongings_request {A} (g : DB → outcome A * DB) :
  (∀ t, t ≠ SLATE_clusters → t ≠ SLATE_moncreds → frame (λ w, table w t) (request g)) →
  frame belongings (request g).
Proof.
  intros Ht w. unfold belongings.
  rewrite (Ht SLATE_groups ltac:(done) ltac:(done) w), (Ht SLATE_instances ltac:(done) ltac:(done) w),
    (Ht SLATE_secrets ltac:(done) ltac:(done) w), (Ht SLATE_volumes ltac:(done) ltac:(done) w).
  simpl. by destruct (g (db w)).
Qed.

Lemma belongings_read {A} (g : DB → outcome A * DB) :
  (∀ t, frame (λ w, table w t) (request g)) → frame belongings (request g).
Proof. intros Hg. apply frame_belongings_request. auto. Qed.

Lemma belongings_Update t key u cond :
  t = SLATE_clusters ∨ t = SLATE_moncreds → frame belongings (request (UpdateItem t key u cond)).
Proof.
  intros Ht. apply frame_belongings_request. intros t' H1 H2. apply frame_UpdateItem.
  by destruct Ht as [->| ->].
Qed.

Lemma belongings_Delete key cond : frame belongings (request (DeleteItem SLATE_clusters key cond)).
Proof. apply frame_belongings_request. intros t' Ht' _. by apply frame_DeleteItem. Qed.

(** What a question leaves. *)
Definition holdings (w : World) := (belongings w, table w SLATE_clusters).

Lemma holdings_belongings {A} (m : Store A) : frame holdings m → frame belongings m.
Proof. intros Hf w. exact (f_equal fst (Hf w)). Qed.

Lemma holdings_read {A} (g : DB → outcome A * DB) :
  (∀ t, frame (λ w, table w t) (request g)) → frame holdings (request g).
Proof.
  intros Hg w. unfold holdings. rewrite (Hg SLATE_clusters w). f_equal.
  by apply frame_belongings_request.
Qed.

Lemma holdings_Get t key : frame holdings (request (GetItem t key)).
Proof. apply holdings_read. intros t'. apply frame_GetItem. Qed.

Lemma holdings_Query t ix kc f : frame holdings (request (Query t ix kc f)).
Proof. apply holdings_read. intros t'. apply frame_Query. Qed.
Hint Resolve belongings_Delete holdings_Get holdings_Query : slate.

Lemma holdings_findCluster id : frame holdings (findClusterByID id).
Proof. unfold findClusterByID, cache_cluster, writeClusterConfigToDisk. solve_frame. Qed.

Lemma holdings_findByName name : frame holdings (findClusterByName name).
Proof. unfold findClusterByName, cache_cluster, writeClusterConfigToDisk. solve_frame. Qed.
Hint Resolve holdings_findCluster holdings_findByName : slate.

Lemma holdings_normalizeCluster id : frame holdings (normalizeClusterID id).
Proof. unfold normalizeClusterID. solve_frame. Qed.

Lemma holdings_normalizeGroup id b : frame holdings (normalizeGroupID id b).
Proof. unfold normalizeGroupID, findGroupByName, cache_group. solve_frame. Qed.

Lemma holdings_cache_access c v : frame holdings (cache_access c v).
Proof.
  unfold cache_access. apply frame_bind; [by apply frame_make_record|].
  intros record. by apply frame_multi_insert.
Qed.
Hint Resolve holdings_normalizeCluster holdings_normalizeGroup holdings_cache_access : slate.

Lemma holdings_allows c : frame holdings (clusterAllowsAllGroups c).
Proof.
  unfold clusterAllowsAllGroups. apply frame_bind; [done|]. intros cached.
  apply frame_bind.
  { case_match; [|done]. apply frame_bind; [unfold record_valid; solve_frame|].
    intros [|]; [|done]. unfold record_valid. solve_frame. }
  intros [b|]; [done|]. apply frame_bind; [by apply frame_find_cached_val|]. intros [|]; [done|].
  unfold fetch_access. apply frame_bind; [done|]. intros _.
  apply frame_bind; [auto with slate|]. intros [e|item]; [done|].
  case_match; (apply frame_bind; [auto with slate|done]).
Qed.
Hint Resolve holdings_allows : slate.

Lemma holdings_guests c : frame holdings (listGroupsAllowedOnCluster c false).
Proof.
  unfold listGroupsAllowedOnCluster. apply frame_bind; [auto with slate|]. intros [id|]; [|done].
  apply frame_bind; [auto with slate|]. intros [|]; [done|].
  apply frame_bind; [done|]. intros _. apply frame_bind; [auto with slate|]. by intros [e|items].
Qed.

Lemma belongings_detach id : frame belongings (StoreClusters.removeClusterMonitoringCredential id).
Proof.
  unfold StoreClusters.removeClusterMonitoringCredential, reload_cluster.
  apply frame_bind; [apply belongings_Update; by left|]. intros [e|[]]; [done|].
  apply frame_bind; [|done]. apply frame_bind; [done|]. intros _.
  apply frame_bind; [apply holdings_belongings; auto with slate|done].
Qed.

Lemma belongings_revoke k : frame belongings (StoreMonCreds.revokeMonitoringCredential k).
Proof.
  unfold StoreMonCreds.revokeMonitoringCredential.
  apply frame_bind; [apply belongings_Update; by right|]. by intros [e|[]].
Qed.

(** ** Removing the cluster *)

(** What is kept by deleting rows, and by what leaves the tables. *)
Record deletes {A} (m : Store A) : Prop := {
  de_belongings : frame belongings m;
  de_guests : preserves guests_proper m }.

Lemma deletes_bind {A B} (m : Store A) (k : A → Store B) :
  deletes m → (∀ a, deletes (k a)) → deletes (m ≫= k).
Proof.
  intros [H1 H2] Hk. split; [apply frame_bind; [done|intros a; apply Hk]|].
  apply preserves_bind; [done|intros a; apply Hk].
Qed.

Lemma deletes_holdings {A} (m : Store A) : frame holdings m → deletes m.
Proof.
  intros Hf. split; [by apply holdings_belongings|]. intros w Hg k it v.
  pose proof (f_equal snd (Hf w)) as Ht. simpl in Ht. rewrite Ht. apply Hg.
Qed.

Lemma deletes_row key : deletes (request (DeleteItem SLATE_clusters key None)).
Proof.
  split; [auto with slate|]. intros w Hg k it v. simpl.
  destruct (DeleteItem SLATE_clusters key None (db w)) as [[e|[]] d'] eqn:E; simpl.
  - rewrite (DeleteItem_err _ _ _ _ _ _ E). apply Hg.
  - apply DeleteItem_ok in E as [_ ->]. rewrite decide_True by done.
    intros [_ Hit]%lookup_delete_Some. by apply (Hg k).
Qed.

Lemma deletes_ret {A} (a : A) : deletes (mret a).
Proof. by apply deletes_holdings. Qed.

Lemma deletes_guest g c : deletes (removeGroupFromCluster g c).
Proof.
  unfold removeGroupFromCluster, uncache_access.
  apply deletes_bind; [apply deletes_holdings; auto with slate|]. intros [g'|]; [|apply deletes_ret].
  apply deletes_bind; [apply deletes_holdings; auto with slate|]. intros [c'|]; [|apply deletes_ret].
  apply deletes_bind; [by apply deletes_holdings|]. intros _.
  apply deletes_bind; [apply deletes_row|]. intros [e|[]]; [apply deletes_ret|].
  apply deletes_bind; [apply deletes_holdings; auto with slate|]. intros _. apply deletes_ret.
Qed.

Lemma deletes_for_each {A} (l : list A) (f : A → Store unit) :
  (∀ x, deletes (f x)) → deletes (for_each l f).
Proof.
  intros Hf. induction l as [|x l IH]; cbn [for_each]; [apply deletes_ret|].
  apply deletes_bind; [apply Hf|]. by intros _.
Qed.

Lemma deletes_cluster c : deletes (StoreAccess.removeCluster c).
Proof.
  unfold StoreAccess.removeCluster. apply deletes_bind; [apply deletes_holdings, holdings_guests|].
  intros guests. apply deletes_bind.
  { apply deletes_for_each. intros g. apply deletes_bind; [apply deletes_guest|].
    intros _. apply deletes_ret. }
  intros _. apply deletes_bind; [apply deletes_holdings; unfold forget_cluster; solve_frame|].
  intros _. apply deletes_bind; [apply deletes_row|]. intros [e|[]]; [apply deletes_ret|].
  apply deletes_bind; [apply deletes_row|]. intros [e|[]]; apply deletes_ret.
Qed.
End record_frames.

(** * The whole deletion *)

Section deletion.
Context `{D : Dynamo} `{P : Platform} `{PR : !Processes} `{J : !JsonParser}.
Context `{R : !Route53 FS} `{Y : !Yaml} `{S : !Settings}.
Context `{L : !DynamoLaws} `{DL : !DiskLaws} `{PL : !ProcessLaws} `{NL : !NetLaws}.
Context (dnsClient : DNSManipulator.t) (c : Cluster.t).
Local Abbreviation cid := (Cluster.id c).

(** A cluster of the state afterwards was there before, or is the one with the ID. *)
Lemma ids_before w w' :
  is_cluster w c → (∀ x, Cluster.id x ≠ cid → is_cluster w' x ↔ is_cluster w x) →
  ∀ x, is_cluster w' x → ∃ y, is_cluster w y ∧ Cluster.id y = Cluster.id x.
Proof.
  intros Hc Hx x Hin. destruct (decide (Cluster.id x = cid)) as [Heq|Hne]; [by exists c|].
  exists x. split; [by apply Hx|done].
Qed.

Lemma detach_confined w :
  House w → is_cluster w c →
  wp (detach_credential c) (λ r w', confined cid w w' ∧ ∃ s, r = Ok s) w.
Proof.
  intros Hi Hc. pose proof (va_fed (ho_secrets _ Hi)) as Hf. pose proof (ho_healthy _ Hi) as Hh.
  unfold detach_credential. case_match; [|apply wp_ret; split; [by apply confined_refl|by eexists]].
  pose proof (removeClusterMonitoringCredential_fed c w Hf Hh Hc) as Hfed.
  pose proof (removeClusterMonitoringCredential_spec c w (fi_clusters _ Hf) Hh Hc) as [_ Hsp].
  pose proof (wp_write_cluster _ (with_credential c S3Credential.none) w w
    (but_cluster_refl _ w Hf Hh) (ho_guests _ Hi) Hfed Hsp) as Hw.
  pose proof (belongings_kept _ w (belongings_detach cid)) as Hk.
  eapply (wp_seq (λ r w', r = Ok true ∧ confined cid w w')); [| |by intros e w1 [[=] _]|by intros w1 [[=] _]].
  { unfold wp in *. destruct (StoreClusters.removeClusterMonitoringCredential cid w) as [r w1].
    destruct Hw as (-> & [H1 H2 H3 Hx H4 H5] & Hg & _). split; [done|].
    apply confined_fed; try done. by apply ids_before. }
  intros b w1 [[= ->] Hc1]. simpl. pose proof (cf_house _ _ _ Hc1) as Hi1.
  pose proof (va_fed (ho_secrets _ Hi1)) as Hf1.
  match goal with |- wp (StoreMonCreds.revokeMonitoringCredential ?k ≫= _) _ _ =>
    pose proof (revokeMonitoringCredential_fed k w1 Hf1) as Hr;
    pose proof (belongings_kept _ w1 (belongings_revoke k)) as Hk1;
    pose proof (oc_tables _ (credential_change_only (StoreMonCreds.revokeMonitoringCredential k)
      (or_intror (or_introl (ex_intro _ k eq_refl)))) SLATE_clusters ltac:(done) w1) as Ht end.
  unfold wp, mbind, M_bind in *. destruct (StoreMonCreds.revokeMonitoringCredential _ w1) as [r w2].
  cbn [fst snd] in *. destruct Hr as (Hf2 & Hh2 & (Hd & Hcl & Hgr & Ha) & b & ->).
  unfold mret, M_ret. cbn [fst snd].
  split; [|by eexists]. eapply confined_trans; [done|]. apply confined_fed; try done.
  - intros k it v. simpl in Ht. rewrite Ht. apply Hi1.
  - apply Hh2, Hi1.
  - intros x Hx. exists x. split; [by apply Hcl|done].
  - intros x _. apply Hcl.
  - intros c' g _ Hg. by apply Hgr.
Qed.

Lemma removal_confined w :
  House w → begins_with cid clusterIDPrefix = true →
  wp (removeCluster cid) (λ r w', confined cid w w' ∧ r = Ok true ∧
    ∀ x, is_cluster w' x → Cluster.id x ≠ cid) w.
Proof.
  intros Hi Hid. pose proof (va_fed (ho_secrets _ Hi)) as Hf.
  pose proof (removeCluster_fed cid w Hf (ho_guests _ Hi) Hid) as Hr.
  pose proof (belongings_kept _ w (de_belongings _ (deletes_cluster cid))) as Hk.
  pose proof (de_guests _ (deletes_cluster cid) w (ho_guests _ Hi)) as Hg.
  unfold wp in *. destruct (removeCluster cid w) as [r w1]. simpl in *.
  destruct Hr as (Hf1 & Hh1 & Hd & Hgr & Ha & b & -> & Hb).
  destruct b; [|by destruct Hb as [[] _]; apply Hi].
  split; [|split; [done|by intros x [_ ?]%Hb]]. apply confined_fed; try done.
  - apply Hh1, Hi.
  - intros x [Hx _]%Hb. by exists x.
  - intros x Hne. rewrite (Hb x). tauto.
Qed.

Lemma delete_record_spec w0 w :
  later c w0 w → wp (delete_record dnsClient c) (λ r w', confined cid w w' ∧ r ≠ OutOfFuel ∧
    (r = Ok "" → ∀ x, is_cluster w' x → Cluster.id x ≠ cid)) w.
Proof.
  intros Hw. unfold delete_record.
  eapply wp_seq; [by apply (stays_dns dnsClient w0 c w)|..].
  2: { intros e w1 [[Hl _] _]. by split. }
  2: { by intros w1 [_ []]. }
  intros _ w1 [[Hl1 Hc1] _].
  eapply wp_seq; [by apply detach_confined; [apply Hl1|]|..].
  2: { by intros e w2 (_ & s & [=]). }
  2: { by intros w2 (_ & s & [=]). }
  intros s w2 [Hl2 _]. assert (Hl02 : confined cid w w2) by by eapply confined_trans.
  destruct (negb (str_empty s)); [by apply wp_ret|].
  pose proof (fi_proper _ (va_fed (ho_secrets _ (cf_house _ _ _ Hl1))) c Hc1) as [[Hid _] _].
  eapply wp_seq; [apply removal_confined; [apply Hl2|done]| |by intros e w3 (_ & [=] & _)
    |by intros w3 (_ & [=] & _)].
  intros b w3 (Hl3 & [= ->] & Hg). apply wp_ret. split; [by eapply confined_trans|done].
Qed.

(** ** Listing the instances *)

(** When the server has ever listed the instances, it knows them. *)
Definition instances_known (w : World) : Prop :=
  (steady 0 < instanceCacheExpirationTime (instances w))%Z → ∀ i, is_instance w i →
  is_Some (instanceCache (instances w) !! ApplicationInstance.id i).

Definition enough_instance_pages (fuel : nat) (w : World) : Prop := ∀ d,
  rows d SLATE_instances = rows (db w) SLATE_instances →
  pages_left d SLATE_instances (EExists "ctime") None < fuel.

Lemma instances_known_read w w' :
  instances_known w → read_only w w' → instances w' = instances w → instances_known w'.
Proof.
  intros Hk Hro Hi. unfold instances_known. rewrite Hi. intros Ht i Hin. apply Hk; [done|].
  exact (proj1 (read_only_held Instance w w' i Hro) Hin).
Qed.

Lemma list_instances_frames fuel :
  (frame estate (StoreInstances.listApplicationInstances fuel) ∧
   frame fs (StoreInstances.listApplicationInstances fuel)) ∧
  (frame secrets (StoreInstances.listApplicationInstances fuel) ∧
   frame volumes (StoreInstances.listApplicationInstances fuel)) ∧
  frame (λ w, instanceConfigCache (instances w)) (StoreInstances.listApplicationInstances fuel).
Proof.
  unfold StoreInstances.listApplicationInstances, list_all, list_instance, cache_instance.
  split_and!; repeat first [progress solve_frame | apply frame_scan_loop; [done|]].
Qed.

Lemma instances_listed `{CL : !ClockLaws} fuel w0 w :
  later c w0 w → instances_known w → enough_instance_pages fuel w →
  wp (StoreInstances.listApplicationInstances fuel) (λ r w', (later c w w' ∧ r ≠ OutOfFuel) ∧
    ∀ l, r = Ok l →
      (∀ i, i ∈ l → ApplicationInstance.cluster i = cid →
         on_cluster Instance cid (ApplicationInstance.id i) w) ∧
      ∀ i, is_instance w i → i ∈ without_config <$> l) w.
Proof.
  intros Hw Hk Hp. pose proof (underway_house w0 c w Hw) as [Hvi Hvs Hvv Hg Hh].
  assert (Hl : InstancesListed w).
  { intros Ht. apply Hk. eapply Z.le_lt_trans; [|exact Ht]. apply steady_mono. lia. }
  pose proof (listApplicationInstances_spec fuel w (proj1 (va_ward Hvi)) Hl (Hp _ eq_refl)) as Hs.
  destruct (list_instances_frames fuel) as ([He Hf] & [Hfs Hfv] & Hfc).
  specialize (He w). specialize (Hf w). specialize (Hfs w). specialize (Hfv w). specialize (Hfc w).
  unfold wp in *. destruct (StoreInstances.listApplicationInstances fuel w) as [r w'].
  cbn [fst snd] in *. destruct Hs as (Hki & _ & Hro & l & -> & Hin & Hall).
  pose proof (fi_proper _ (va_fed Hvi) c (proj2 Hw)) as [[Hid _] _].
  split; [split; [|done]|].
  - apply (later_lookup w0); [done..| | |].
    + split; [done|]. eapply ConfigInv_same; [apply (va_ward Hvi)|intros id; by rewrite (proj1 Hro)|by rewrite Hfc].
    + by apply (SecretsInv_own w); [apply (va_ward Hvs)|apply Hro|].
    + by apply (VolumesInv_own w); [apply (va_ward Hvv)|apply Hro|].
  - intros l' [= <-]. split; [|by apply Hall]. intros i Hi Hc.
    destruct (Hin i Hi) as [->|Hst]; [by rewrite <- Hc in Hid|].
    exact (stored_here w c Instance w (without_config i) ltac:(by split) Hst Hc).
Qed.

(** ** All of it *)

(** There is no cluster with the ID, and nothing that would need one but claims. *)
Definition cluster_gone (w : World) : Prop :=
  (∀ x, is_cluster w x → Cluster.id x ≠ cid) ∧
  (∀ i, is_instance w i → ApplicationInstance.cluster i ≠ cid) ∧
  ∀ s, is_secret w s → Secret.cluster s ≠ cid.

Definition removal_post (w : World) (r : Res string) (w' : World) : Prop :=
  confined cid w w' ∧ r ≠ OutOfFuel ∧ (r = Ok "" → cluster_gone w').

Lemma later_confined w0 w w' : later c w0 w → confined cid w w' → confined cid w0 w'.
Proof. intros [H1 _] H2. by eapply confined_trans. Qed.

Lemma removal_failed w w' r : later c w w' → r ≠ OutOfFuel → r ≠ Ok "" → removal_post w r w'.
Proof. intros [Hl _] H1 H2. split; [done|]. split; [done|]. by intros ?%H2. Qed.

Lemma delete_contents_says force reachable :
  yields (λ o, o ≠ Some "") (delete_contents c force reachable).
Proof.
  unfold delete_contents. do 5 (apply yields_bind; intros ?).
  case_match; [by apply yields_ret|]. apply yields_bind. intros [m|]; by apply yields_ret.
Qed.

(** What is gone stays gone, and what is there was there before. *)
Lemma gone_for_good (T : Type) `{!Ward T} w2 w w' :
  loses T cid w w2 → loses T cid w2 w' →
  (∀ x, held w x → ward_cluster x = cid → gone T (k_id ward_kind x) w2) →
  ∀ x, held w' x → ward_cluster x ≠ cid.
Proof.
  intros [H1 _] [H2 _] Hg x Hx Hc. exact (Hg x (H1 x (H2 x Hx)) Hc x (H2 x Hx) eq_refl).
Qed.

(** What follows when the instances are gone. *)
Lemma delete_rest_spec fuel force path w0 w :
  later c w0 w → enough_pages fuel w0 →
  (∀ i, is_instance w i → ApplicationInstance.cluster i ≠ cid) →
  wp (reachable ← look c;
      if negb reachable && negb force then mret "Must force delete an unreachable cluster" else
      failed ← delete_contents c force reachable;
      match failed with
      | Some message => mret message
      | None =>
          _ ← (if reachable : bool then delete_namespaces fuel path else mret tt);
          delete_record dnsClient c
      end) (removal_post w0) w.
Proof.
  intros Hu Hg Hgone.
  eapply (wp_later w0 c (λ _ _, True)); [done| |..].
  { eapply wp_mono; [|exact (stays_look w0 c w Hu)]. by intros r w1 H1. }
  2: { intros e w1 Hl1. apply removal_failed; [by eapply later_trans|done..]. }
  intros reachable w1 Hl1 Hu1 _ _.
  destruct (negb reachable && negb force); [by apply wp_ret, removal_failed|].
  eapply (wp_later w0); [done|by apply (delete_contents_spec w0 c force reachable)|..].
  2: { intros e w2 Hl2. apply removal_failed; [by eapply later_trans|done..]. }
  intros failed w2 Hl2 Hu2 Hrun Hsec. destruct failed as [message|].
  { apply wp_ret, removal_failed; [done..|]. intros [= ->].
    by eapply (delete_contents_says force reachable w1 (Some "")). }
  eapply (wp_later w0 c (λ _ _, True)); [done| |..].
  { assert (Hst : stays w0 c (if reachable then delete_namespaces fuel path else mret tt)).
    { destruct reachable; [by apply stays_delete_namespaces|apply stays_ret]. }
    eapply wp_mono; [|exact (Hst w2 Hu2)]. by intros r w3 H3. }
  2: { intros e w3 Hl3. apply removal_failed; [by eapply later_trans|done..]. }
  intros _ w3 Hl3 Hu3 _ _. eapply wp_mono, delete_record_spec; [|exact Hu3].
  intros r w' (Hc & Hr & Hcl). assert (Hc2 : confined cid w2 w') by (eapply confined_trans; [apply Hl3|done]).
  assert (Hc0 : confined cid w w').
  { eapply confined_trans; [apply Hl1|]. eapply confined_trans; [apply Hl2|done]. }
  split; [eapply confined_trans; [apply Hu3|done]|]. split; [done|]. intros ->.
  split; [by apply Hcl|]. split.
  - intros i Hi. apply Hgone. exact (proj1 (cf_instances _ _ _ Hc0) i Hi).
  - refine (gone_for_good Secret.t w2 w1 w' _ _ (Hsec eq_refl)); [apply Hl2|apply Hc2].
Qed.

Lemma delete_cluster_spec `{CL : !ClockLaws} fuel force w :
  House w → is_cluster w c → instances_known w → enough_instance_pages fuel w → enough_pages fuel w →
  wp (delete_cluster dnsClient fuel c force) (removal_post w) w.
Proof.
  intros Hi Hc Hk Hp Hg. unfold delete_cluster.
  assert (Hw : later c w w) by (split; [by apply confined_refl|done]).
  eapply (wp_later w c (λ _ w1, read_only w w1 ∧ instances w1 = instances w)); [done| |..].
  { split; [exact (stays_path w c w Hw)|]. split.
    - apply (configPathForCluster_fed cid w (underway_fed w c w Hw)).
    - exact (f_equal (λ p, p.1.1) (configPathForCluster_frame cid w)). }
  2: { intros e w1 Hl. by apply removal_failed. }
  intros path w1 Hl1 _ _ [Hro Hin].
  assert (Hk1 : instances_known w1) by by eapply instances_known_read.
  assert (Hp1 : enough_instance_pages fuel w1).
  { intros d Hd. apply Hp. etrans; [exact Hd|]. apply Hro. }
  eapply (wp_later w); [done|by apply (instances_listed fuel w)|..].
  2: { intros e w2 Hl2. apply removal_failed; [by eapply later_trans|done..]. }
  intros l w2 Hl2 Hu2 _ Hl. destruct (Hl l eq_refl) as [Hhere Hall].
  eapply (wp_later w); [done|apply (delete_instances_spec w c force l); [|done]|..].
  { intros i Hi' Hic x Hx. apply (Hhere i Hi' Hic x). exact (proj2 (read_only_held Instance w w1 x Hro) Hx). }
  2: { intros e w3 Hl3. apply removal_failed; [by eapply later_trans|done..]. }
  intros failed w3 Hl3 Hu3 _ Hgone. destruct failed as [result|]; [by apply wp_ret, removal_failed|].
  apply delete_rest_spec; [done..|].
  refine (gone_for_good Instance w3 w1 w3 _ _ _); [|by apply loses_same|].
  - eapply loses_trans; [apply Hl2|apply Hl3].
  - intros i Hi1 Hic. apply Hall in Hi1 as (j & -> & Hj)%list_elem_of_fmap.
    exact (Hgone eq_refl j Hj Hic).
Qed.
End deletion.

(** * The request *)

Section request.
Context `{D : Dynamo} `{P : Platform} `{PR : !Processes} `{J : !JsonParser}.
Context `{R : !Route53 FS} `{Y : !Yaml} `{S : !Settings} `{E : !Mailer}.
Context `{L : !DynamoLaws} `{DL : !DiskLaws} `{PL : !ProcessLaws} `{NL : !NetLaws}.

(** What the requester must be, and the cluster that is meant. *)
Definition may_delete (clusterID : string) (req : Request) (w : World) (c : Cluster.t) : Prop :=
  is_cluster w c ∧ cluster_names w clusterID (Cluster.id c) ∧
  made_by w (token_of req) (λ u, is_member w (User.id u) (Cluster.owningGroup c) ∨
    User.admin u = true ∧ is_Some (param req "force")).

(** Nothing, without success; or the deletion of the cluster. *)
Definition cluster_deleted (clusterID : string) (req : Request) (w : World) (r : Res Response)
    (w' : World) : Prop :=
  r ≠ OutOfFuel ∧ (read_only w w' ∧ ¬ succeeded r ∨
    ∃ c, may_delete clusterID req w c ∧ confined (Cluster.id c) w w' ∧
      (succeeded r → cluster_gone c w')).

(** Nothing but caches that do not hold records has changed. *)
Record glanced (w w' : World) : Prop := {
  gl_inv : FedInv w';
  gl_reads : read_only w w';
  gl_caches : ward_caches w' = ward_caches w }.

Lemma glanced_refl w : FedInv w → glanced w w.
Proof. by split. Qed.

Lemma glanced_trans w1 w2 w3 : glanced w1 w2 → glanced w2 w3 → glanced w1 w3.
Proof. intros [H1 H2 H3] [K1 K2 K3]. split; [done|by etrans|congruence]. Qed.

Lemma glanced_confined id w w' : House w → glanced w w' → confined id w w'.
Proof. intros Hi [H1 H2 H3]. by apply confined_read. Qed.

Lemma wp_glance {A} (m : Store A) (F : Res A → Prop) w :
  frame ward_caches m → wp m (λ r w', FedInv w' ∧ read_only w w' ∧ F r) w →
  wp m (λ r w', glanced w w' ∧ F r) w.
Proof.
  intros Hf Hm. specialize (Hf w). unfold wp in *. destruct (m w) as [r w'].
  destruct Hm as (Hi & Hro & HF). by split; [split|].
Qed.

Hint Resolve frame_ward_getCluster frame_ward_getGroup holdings_guests frame_ward_look : slate.

Lemma frame_ward_authenticate token : frame ward_caches (authenticateUser token).
Proof. unfold authenticateUser, findUserByToken, cache_user. solve_frame. Qed.

Lemma frame_ward_member u g : frame ward_caches (userInGroup u g).
Proof. unfold userInGroup, normalizeGroupID, findGroupByName, cache_group, cache_member. solve_frame. Qed.

Lemma frame_ward_guests c : frame ward_caches (listGroupsAllowedOnCluster c false).
Proof.
  intros w. exact (f_equal (λ h, h.1.1.1.1.1) (holdings_guests c w)).
Qed.

Lemma asks_guests c : asks (listGroupsAllowedOnCluster c false).
Proof.
  intros w Hi. unfold listGroupsAllowedOnCluster.
  eapply wp_seq; [by apply normalizeClusterID_fed| |by intros e w1 (_ & _ & [])|by intros w1 (_ & _ & [])].
  intros [id|] w1 (Hi1 & Hro1 & _); [|by apply wp_ret].
  eapply wp_seq; [by apply (clusterAllowsAllGroups_fed id)| | |].
  2: { by intros e w2 (_ & _ & b & [=] & _). }
  2: { by intros w2 (_ & _ & b & [=] & _). }
  intros all w2 (Hi2 & Hro2 & _). assert (Hro : read_only w w2) by by etrans.
  destruct all; [by apply wp_ret|].
  apply wp_databaseQuery. intros w3 Hq3.
  apply wp_Query; intros x w4 Hq4 _; apply wp_ret;
    (assert (Hq : quiet w2 w4) by (by etrans)); (split; [by eapply quiet_FedInv|]);
    (split; [etrans; [exact Hro|by apply quiet_ro]|done]).
Qed.

Lemma asks_contacts (vos : list string) :
  asks (for_collect vos (λ groupId, group ← getGroup groupId; mret (Group.email group))).
Proof.
  induction vos as [|g vos IH]; cbn [for_collect]; [apply asks_ret|].
  apply asks_bind; [|intros x; apply asks_bind; [exact IH|intros; apply asks_ret]].
  apply asks_bind; [|intros; apply asks_ret]. intros w Hi.
  eapply wp_mono, (getGroup_fed g w Hi). intros r w' (? & ? & Hr). split_and!; [done..|]. by intros ->.
Qed.

Lemma frame_ward_contacts (vos : list string) :
  frame ward_caches (for_collect vos (λ groupId, group ← getGroup groupId; mret (Group.email group))).
Proof.
  induction vos as [|g vos IH]; cbn [for_collect]; [done|].
  apply frame_bind; [solve_frame|]. intros x. by apply frame_bind; [exact IH|].
Qed.
(** Nobody mourns: what is gone stays gone when the contacts are looked up. *)
Lemma cluster_gone_glanced c w w' : glanced w w' → cluster_gone c w → cluster_gone c w'.
Proof.
  intros [_ Hro _] (Hc & Hi & Hs). split; [|split].
  - intros x Hx. by apply Hc, (read_only_is_cluster w w').
  - intros i Hx. exact (Hi i (proj1 (read_only_held Instance w w' i Hro) Hx)).
  - intros x Hx. exact (Hs x (proj1 (read_only_held Secret.t w w' x Hro) Hx)).
Qed.

(** The contacts are told. *)
Lemma deletion_told c w (vos : list string) :
  (∀ url form, httpPostForm url form ≠ OutOfFuel) → House w →
  wp (contacts ← for_collect vos (λ groupId, group ← getGroup groupId; mret (Group.email group));
      _ ← lift (sendEmail (deletion_notice c contacts));
      mret done_reply) (λ r w', glanced w w' ∧ r ≠ OutOfFuel) w.
Proof.
  intros He Hi. eapply wp_seq; [apply wp_glance; [apply frame_ward_contacts|apply asks_contacts]| | |].
  - apply (va_fed (ho_secrets _ Hi)).
  - intros contacts w1 [Hg _]. unfold lift, wp, mbind, M_bind.
    assert (Hs : sendEmail (deletion_notice c contacts) ≠ OutOfFuel).
    { unfold sendEmail. destruct (negb canSendEmail); [done|]. simpl.
      specialize (He ("https://api:" +:+ mailgunKey +:+ "@" +:+ mailgunEndpoint +:+ "/v3/" +:+ emailDomain
        +:+ "/messages")). match goal with |- context [httpPostForm ?u ?f] => specialize (He f) end.
      by destruct (httpPostForm _ _). }
    by destruct (sendEmail _).
  - intros e w1 [Hg _]. done.
  - by intros w1 [_ []].
Qed.

Section steps.
Context (dnsClient : DNSManipulator.t) (clusterID : string) (req : Request) (w : World) (Hi : House w).
Local Abbreviation outcome := (cluster_deleted clusterID req w).

Lemma wp_deleted_look {A} (m : Store A) (F : Res A → Prop) (k : A → Store Response) w1 :
  glanced w w1 → frame ward_caches m → wp m (λ r w', FedInv w' ∧ read_only w1 w' ∧ F r) w1 →
  ¬ F OutOfFuel → (∀ a w', glanced w w' → F (Ok a) → wp (k a) outcome w') →
  wp (m ≫= k) outcome w1.
Proof.
  intros Hg Hf Hm Hn Hk. eapply wp_seq; [by eapply wp_glance| | |].
  - intros a w2 [Hg2 HF]. apply Hk; [by eapply glanced_trans|done].
  - intros e w2 [Hg2 _]. split; [done|]. left.
    split; [by eapply gl_reads, glanced_trans|by intros [? [=]]].
  - by intros w2 [_ HF].
Qed.

Lemma deleted_failure n msg w1 : glanced w w1 → n ≠ 200%Z → wp (mret (failure n msg)) outcome w1.
Proof. intros Hg Hn. split; [done|]. left. split; [apply Hg|by intros [? [= ? _]]]. Qed.

Lemma deletion_spec `{CL : !ClockLaws} fuel force c (vos : list string) w1 :
  (∀ url form, httpPostForm url form ≠ OutOfFuel) →
  instances_known w → enough_instance_pages fuel w → enough_pages fuel w →
  glanced w w1 → may_delete clusterID req w c →
  wp (err ← delete_cluster dnsClient fuel c force;
      if negb (str_empty err) then mret (failure 500 err) else
      contacts ← for_collect vos (λ groupId, group ← getGroup groupId; mret (Group.email group));
      _ ← lift (sendEmail (deletion_notice c contacts));
      mret done_reply) outcome w1.
Proof.
  intros He Hk Hp Hq Hg Hmay. pose proof (glanced_confined (Cluster.id c) w w1 Hi Hg) as Hc1.
  assert (Hrows : ∀ t, table w1 t = table w t) by apply Hg.
  eapply wp_seq; [apply (delete_cluster_spec dnsClient c fuel force w1)| | |].
  - apply Hc1.
  - by apply (read_only_is_cluster w w1); [apply Hg|apply Hmay].
  - eapply instances_known_read; [done|apply Hg|]. exact (f_equal (λ p, p.1.1) (gl_caches _ _ Hg)).
  - intros d Hd. apply Hp. etrans; [exact Hd|]. apply Hrows.
  - intros d Hd. apply Hq. etrans; [exact Hd|]. apply Hrows.
  - intros err w2 (Hc2 & _ & Hgone). assert (Hc : confined (Cluster.id c) w w2) by by eapply confined_trans.
    destruct err as [|a err]; simpl.
    2: { apply wp_ret. split; [done|]. right. exists c. split; [done|]. split; [done|].
         by intros [? [= ? _]]. }
    eapply wp_mono, deletion_told; [|done|apply Hc].
    intros r w3 [Hg3 Hr]. split; [done|]. right. exists c. split; [done|]. split.
    + eapply confined_trans; [exact Hc|]. apply glanced_confined; [apply Hc|done].
    + intros _. eapply cluster_gone_glanced; [done|by apply Hgone].
  - intros e w2 (Hc2 & _ & _). split; [done|]. right. exists c. split; [done|].
    split; [by eapply confined_trans|by intros [? [=]]].
  - by intros w2 (_ & [] & _).
Qed.

Lemma deleteCluster_spec `{CL : !ClockLaws} fuel :
  (∀ url form, httpPostForm url form ≠ OutOfFuel) →
  instances_known w → enough_instance_pages fuel w → enough_pages fuel w →
  wp (deleteCluster dnsClient fuel clusterID req) outcome w.
Proof.
  intros He Hk Hp Hq. pose proof (va_fed (ho_secrets _ Hi)) as Hf.
  eapply wp_deleted_look; [by apply glanced_refl|apply frame_ward_authenticate
    |by apply authenticateUser_fed|by intros (? & [=] & _)|].
  intros u w1 Hg1 (u' & [= <-] & Hu & _).
  destruct (User.valid u); simpl; [|by apply deleted_failure]. specialize (Hu eq_refl).
  eapply wp_deleted_look; [done|apply frame_ward_getCluster|apply getCluster_fed, Hg1|by intros []|].
  intros c w2 Hg2 [(Hv & Hc & Hn)|[-> _]]; [rewrite Hv|by apply deleted_failure]. simpl.
  assert (Hs : same (is_cluster w) (is_cluster w1)) by (intros x; apply read_only_is_cluster, Hg1).
  assert (Hc0 : is_cluster w c) by by apply Hs.
  assert (Hn0 : cluster_names w clusterID (Cluster.id c)).
  { eapply cluster_names_same; [|exact Hn]. intros x. symmetry. apply Hs. }
  assert (Hc2 : is_cluster w2 c) by (by apply (read_only_is_cluster w w2); [apply Hg2|]).
  destruct (read_only_directory _ _ (gl_reads _ _ Hg2)) as (Hus & _ & Hmem).
  eapply wp_deleted_look; [done|apply frame_ward_member|apply userInGroup_fed; [apply Hg2|]
    |by intros (? & [=] & _)|].
  { eapply requester_id; [apply Hg2|]. destruct Hu as [Hu Ht]. split; [by apply Hus|exact Ht]. }
  intros b w3 Hg3 (b' & [= <-] & Hb).
  assert (Hmay : negb b && (negb (is_some (param req "force")) || negb (User.admin u)) = false →
    may_delete clusterID req w c).
  { intros Hch. split; [done|]. split; [done|]. exists u. split; [done|]. destruct b.
    - left. destruct (Hb eq_refl) as (gid & Hgid & Hm). apply Hmem.
      eapply owner_member; [apply Hg2|done|]. by exists gid.
    - right. destruct (User.admin u); [|by rewrite orb_true_r in Hch]. split; [done|].
      unfold is_some in Hch. destruct (param req "force"); [by eexists|done]. }
  destruct (negb b && _); [by apply deleted_failure|]. specialize (Hmay eq_refl).
  eapply wp_deleted_look; [done|apply frame_ward_guests|apply asks_guests, Hg3|by intros []|].
  intros vos w4 Hg4 _.
  eapply wp_deleted_look; [done|apply frame_ward_look|apply asks_look, Hg4|by intros []|].
  intros reachable w5 Hg5 _.
  destruct (negb reachable && _); [by apply deleted_failure|].
  by apply deletion_spec.
Qed.
End steps.
End request.

(** * Properties *)

Section theorems.
Context `{D : Dynamo} `{P : Platform} `{PR : !Processes} `{J : !JsonParser}.
Context `{R : !Route53 FS} `{Y : !Yaml} `{S : !Settings} `{E : !Mailer}.
Context `{L : !DynamoLaws} `{DL : !DiskLaws} `{PL : !ProcessLaws} `{NL : !NetLaws} `{CL : !ClockLaws}.

(** C10: deleting a cluster on an available service. The request ends, whatever kubectl, helm
    and the DNS service do. It changes something only for a member of the group that owns the
    cluster or - with force - an administrator, and then only what is of this cluster: its
    record, its grants, the records of its instances, secrets and volume claims. With status
    200 the cluster is gone, and no instance and no secret is left that is for it. *)
Theorem deleteCluster_correct (dnsClient : DNSManipulator.t) (fuel : nat) (clusterID : string)
    (req : Request) (w : World) :
  House w → (∀ url form, httpPostForm url form ≠ OutOfFuel) →
  instances_known w → enough_instance_pages fuel w → enough_pages fuel w →
  wp (deleteCluster dnsClient fuel clusterID req) (cluster_deleted clusterID req w) w.
Proof. intros Hi He Hk Hp Hq. by apply deleteCluster_spec. Qed.
End theorems.
