(* ===== verification/Installing.v ===== *)
(** Installing an application for a group on a cluster: who may do it, and what it leaves in
    the store. *)

From S2P Require Import Prelude Text Entities Cache Dynamo Store Demo Kubernetes Listing.
From S2P Require Import Catalogue StoreGroups StoreUsers StoreMembership StoreClusters.
From S2P Require Import StoreAccess StoreInstances StoreSecrets StoreMonCreds StoreApplications.
From S2P Require Import Directory Federation Http UserCommands GroupCommands ClusterCommands.
From S2P Require Import ApplicationCommands Server Service Authorization.
From S2P Require Import Vault Custody Installations Lifecycle.

Local Abbreviation Instance := ApplicationInstance.t.
Local Abbreviation VaultInv := (Vault.VaultInv Instance).
Local Abbreviation tolerates := (Vault.tolerates Instance).

Section installing.
Context `{D : Dynamo} `{P : Platform} `{PR : !Processes} `{J : !JsonParser}.
Context `{Y : !Yaml} `{S : !Settings}.
Context `{L : !DynamoLaws} `{DL : !DiskLaws} `{PL : !ProcessLaws}.

(** * The application *)

(** Steps of the process itself. *)
Lemma inquires_own {A} (m : Store A) :
  frame essence m → frame fs m → (∀ w, (m w).1 ≠ OutOfFuel) → inquires Instance m.
Proof. intros He Hf Hn. apply (inquires_outside Instance); [done|by apply tidy_frame|done]. Qed.

Lemma inquires_find_record name records : inquires Instance (find_record name records).
Proof.
  induction records as [|r records IH]; cbn [find_record]; [apply inquires_ret; apply _|].
  case_match; [|done]. apply inquires_bind; [by apply inquires_own|].
  intros [|]; [apply inquires_ret; apply _|done].
Qed.

Lemma column_ends tokens n : column tokens n ≠ OutOfFuel.
Proof. unfold column. by case_match. Qed.

Lemma find_line_ends target name lines : find_line target name lines ≠ OutOfFuel.
Proof.
  induction lines as [|line lines IH]; [done|]. cbn [find_line]. cbv zeta.
  unfold column, mbind. by repeat (case_match; simpl in *; try done).
Qed.

Lemma inquires_findApplication repository name version :
  inquires Instance (findApplication repository name version).
Proof.
  unfold findApplication.
  apply inquires_bind; [by apply inquires_own|intros cache].
  apply inquires_bind; [by apply inquires_own|intros t]. cbv zeta.
  apply inquires_bind; [case_match; [apply inquires_find_record|apply inquires_ret; apply _]|].
  intros [app|]; [apply inquires_ret; apply _|].
  do 2 (apply inquires_bind; [solve_inquires|intros ?]).
  cbv zeta.
  case_match; [solve_inquires|]. case_match; [solve_inquires|].
  apply inquires_bind; [apply inquires_lift, find_line_ends|intros app].
  apply inquires_bind; [|intros ?; solve_inquires].
  by apply inquires_own; unfold cache_application; [solve_frame|solve_frame|].
Qed.

(** * The values *)

Lemma inquires_tag_for appName installSrc config version :
  inquires Instance (tag_for appName installSrc config version).
Proof.
  unfold tag_for. repeat first [progress solve_inquires|case_match].
Qed.

Lemma install_body_refuses members : refuses (install_body_of members).
Proof.
  unfold install_body_of.
  repeat first [apply refuses_required_string|apply refuses_and_then; [|intros]|apply refuses_inr].
Qed.

(** A name for the release: what the tag may consist of, and how long the name may be. *)
Definition fit_name (appName tag name : string) : Prop :=
  validTagGroupName tag = true ∧ (∀ s, tag ≠ s +:+ "-") ∧ str_size name ≤ 63 ∧
  name = if str_empty tag then appName else appName +:+ "-" +:+ tag.

(** * Storing, then installing *)

Definition running (r : option Response) : bool := from_option Custody.kept true r.

Lemma install_release_spec config version values g c i w :
  InstancesInv w → wp (install_release config version values g c i) (installed Instance running i w) w.
Proof.
  intros Hi. refine (wp_installed_namespace Instance running config g i
    (λ err, Some (failure 500 err)) _ w Hi _ _); [done|].
  intros w1 Hw1 Hi1.
  apply (wp_installed_tool Instance running); [done|apply frame_getHelmMajorVersion|]. intros v w2 _ Hi2.
  apply (wp_installed_tool Instance running); [done|apply frame_run|]. intros result w3 _ Hi3.
  destruct (deployed result); [by apply wp_ret, (installed_start Instance running)|].
  eapply wp_seq; [exact (remove_around Instance (ApplicationInstance.id i) w3 Hi3)| | |].
  2: { by intros e w4 (_ & []). }
  2: { by intros w4 (_ & []). }
  intros b w4 ((Ha & _ & Hi4) & Hr).
  assert (Hgone : ∀ w5, inside w5 = inside w4 → ∀ r, match r with Ok a => running a = false | _ => True end →
    installed Instance running i w3 r w5).
  { intros w5 Hin r Hrun. apply (installed_after Instance running _ _ _ w4); [done|].
    split; [done|]. split; [done|]. destruct r as [a| |]; [rewrite Hrun; by exists (Ok b)|..];
      (right; by exists (Ok b)). }
  eapply (wp_seq (λ _ w5, inside w5 = inside w4)); [apply frame_run| | |].
  - intros result' w5 Hin. by apply wp_ret, Hgone.
  - intros e w5 Hin. by apply Hgone.
  - intros w5 Hin. by apply Hgone.
Qed.

Lemma tidy_install_release config version values g c i :
  tidy [] (λ _, true) (install_release config version values g c i).
Proof.
  assert (Hrm : tidy [] (λ _, true) (removeApplicationInstance (ApplicationInstance.id i))).
  { apply tidy_frame. exact (proj2 (ward_remove_frames (T := Instance) (ApplicationInstance.id i))). }
  unfold install_release. apply tidy_bind.
  { apply tidy_try; [|intros e; by apply tidy_frame].
    apply tidy_bind; [apply tidy_create_namespace|]. intros _. by apply tidy_frame. }
  intros [err|].
  { apply tidy_bind; [done|]. intros _. by apply tidy_frame. }
  apply tidy_bind; [apply tidy_getHelmMajorVersion|]. intros v.
  apply tidy_bind; [apply tidy_run|]. intros result. case_match; [by apply tidy_frame|].
  apply tidy_bind; [done|]. intros b. apply tidy_bind; [apply tidy_run|]. intros r. by apply tidy_frame.
Qed.

Lemma install_release_frame config version values g c i :
  frame estate (install_release config version values g c i).
Proof.
  assert (Hrm : frame estate (removeApplicationInstance (ApplicationInstance.id i))).
  { exact (proj1 (ward_remove_frames (T := Instance) (ApplicationInstance.id i))). }
  assert (Hrun : ∀ c a e, frame estate (run c a e)) by (intros; apply frame_estate, frame_run).
  unfold install_release. apply frame_bind.
  { apply frame_try; [|done]. apply frame_bind; [|done]. apply frame_estate, frame_create_namespace. }
  intros [err|]; [by apply frame_bind|].
  apply frame_bind; [apply frame_estate, frame_getHelmMajorVersion|]. intros v.
  apply frame_bind; [done|]. intros result. case_match; [done|].
  apply frame_bind; [done|]. intros b. by apply frame_bind.
Qed.

(** The row of its configuration is not there before. *)
Definition unconfigured (w : World) (id : string) : Prop :=
  table w SLATE_instances !! config_key id = None.

Lemma store_instance_spec version values g c i w :
  VaultInv w → fresh Instance w i → ApplicationInstance.valid i = true →
  unconfigured w (ApplicationInstance.id i) →
  wp (store_instance version values g c i) (stored_post Instance (λ _, true) running i w) w.
Proof.
  intros Hi Hf Hv Hc. unfold store_instance.
  apply (stored_spec Instance (λ _, true) running (addApplicationInstance i) i
    (Some (failure 500 "Failed to add application instance record to the persistent store"))
    (Cluster.id c) (λ path, install_release path version values g c i)); [done..| | |].
  - eapply wp_mono, add_vault_instance; [|done..]. intros r w' [Hr _]. exact Hr.
  - intros path w2 Hi2. by apply install_release_spec.
  - intros path. apply tidy_install_release.
Qed.

Lemma spares_store path version values g c i : spares path (store_instance version values g c i).
Proof.
  destruct (add_frames i) as [He Hf]. unfold store_instance.
  apply spares_bind; [by apply spares_frame|]. intros b. case_match; [by apply spares_frame|].
  apply spares_bind; [apply spares_configPathForCluster|]. intros config.
  apply spares_tidy; [apply tidy_install_release|apply install_release_frame].
Qed.

(** Only the essence of a state counts. *)
Lemma vault_step_after w w1 w2 :
  vault_step Instance w w1 → VaultInv w2 → essence w2 = essence w1 → vault_step Instance w w2.
Proof.
  intros (Hi1 & Hh & Hs) Hi2 Hro%essence_read. split; [done|]. split; [intros ?; by apply Hro, Hh|].
  etrans; [done|by apply read_only_federation].
Qed.

Lemma essence_held w1 w2 : essence w2 = essence w1 → same_held Instance w1 w2.
Proof. intros Hro%essence_read y. exact (read_only_held Instance w1 w2 y Hro). Qed.

Lemma stored_post_around i w0 w r w1 w2 :
  essence w = essence w0 → essence w2 = essence w1 → VaultInv w2 →
  stored_post Instance (λ _, true) running i w r w1 →
  stored_post Instance (λ _, true) running i w0 r w2.
Proof.
  intros H0 H1 Hi2 Hr. pose proof (essence_read _ _ H0) as Hro.
  pose proof (essence_held _ _ H0) as Hs0. pose proof (essence_held _ _ H1) as Hs1.
  assert (Hst : vault_step Instance w w1 → vault_step Instance w0 w2).
  { intros Hst. eapply vault_step_trans; [exact Hro|by eapply vault_step_after]. }
  assert (Hadd : added Instance i w w1 → added Instance i w0 w2).
  { intros Ha y. etrans; [apply Hs1|]. etrans; [apply Ha|]. by rewrite (Hs0 y). }
  assert (Hwi : within Instance i w w1 → within Instance i w0 w2).
  { intros [Ha Hb]. split; intros y Hy.
    - apply Hs1, Ha in Hy as [?|Hy]; [by left|right; by apply Hs0].
    - by apply Hs1, Hb, Hs0. }
  destruct r as [a| |]; simpl in *.
  - intros Hal. destruct (Hr Hal) as [Hst1 Hx]. split; [by apply Hst|].
    destruct (running a); [by apply Hadd|]. destruct Hx as [Ha Hb]. split; [|by apply Hwi].
    intros Hh y. rewrite (Hs1 y), (Ha (proj2 Hro Hh) y). apply Hs0.
  - destruct Hr. split; auto.
  - destruct Hr. split; auto.
Qed.

Lemma stored_vault i w r w1 : stored_post Instance (λ _, true) running i w r w1 → VaultInv w1.
Proof. destruct r as [a| |]; [intros Hr; apply (Hr eq_refl)|intros Hr; apply Hr..]. Qed.

Lemma install_instance_spec version g c i w :
  VaultInv w → fresh Instance w i → ApplicationInstance.valid i = true →
  unconfigured w (ApplicationInstance.id i) →
  wp (install_instance version g c i) (stored_post Instance (λ _, true) running i w) w.
Proof.
  intros Hi Hf Hv Hc. unfold install_instance. apply (wp_vault_temporary Instance); [done| |].
  { intros path. apply spares_bind; [apply spares_write|]. intros [e|]; [by apply spares_frame|].
    apply spares_store. }
  intros path w1 Hi1 Ha1 He1. apply (wp_vault_write Instance); [done..|]. intros w2 Hi2 He2.
  assert (He : essence w2 = essence w) by congruence.
  assert (Hro : read_only w w2) by by apply essence_read.
  pose proof (essence_held _ _ He) as Hs.
  eapply wp_mono, store_instance_spec; [|done| |done|].
  - intros r w3 Hr. split; [by eapply stored_vault|]. intros w4 Hi4 He4.
    by apply (stored_post_around i w w2 r w3 w4).
  - destruct Hf as [[Hne Hnew] Hg Hsz]. split; [|done|].
    + split; [done|]. intros y Hy%Hs. by apply Hnew.
    + intros c' Hc'. apply Hsz. by apply (read_only_is_cluster w w2).
  - unfold unconfigured. by rewrite (proj1 Hro).
Qed.

(** * The requests *)

(** The group may install the application on the cluster: it owns the cluster, or it has been
    given access to it and to the application. *)
Definition may_install (w : World) (appName : string) (g : Group.t) (c : Cluster.t) : Prop :=
  Group.id g = Cluster.owningGroup c ∨
  (allowed w (Cluster.id c) (Group.id g) ∧
   (wildcardName ∈ applications w (Cluster.id c) (Group.id g) ∨
    appName ∈ applications w (Cluster.id c) (Group.id g))).

(** What is known of an instance that a request has made. *)
Definition made_instance (newID appName installSrc : string) (token : option string)
    (body : list (string * Json)) (w : World) (i : Instance) : Prop :=
  ∃ u g c groupID clusterID config tag ctime,
    requester w token u ∧ install_body_of body = inr (groupID, clusterID, config) ∧
    is_group w g ∧ names w groupID (Group.id g) ∧ is_member w (User.id u) (Group.id g) ∧
    is_cluster w c ∧ cluster_names w clusterID (Cluster.id c) ∧ may_install w appName g c ∧
    fit_name appName tag (ApplicationInstance.name i) ∧
    new_instance_of newID ctime appName installSrc tag config g c = inr i.

(** No step but the last gives the status 200. *)
Definition no_success {A} (c : Checked A) : Prop := ∀ r, c = inl r → ∀ content, r ≠ Reply 200 content.

Lemma refuses_no_success {A} (c : Checked A) : refuses c → no_success c.
Proof. intros Hc r Hr content ->. by destruct (Hc _ Hr) as [[b [=]]|[=]]. Qed.

Lemma no_success_and_then {A B} (c : Checked A) (k : A → Checked B) :
  no_success c → (∀ a, no_success (k a)) → no_success (and_then c k).
Proof. intros Hc Hk r. destruct c as [r'|a]; simpl; [|apply Hk]. intros [= <-]. by apply Hc. Qed.

Lemma check_tag_refuses tag : refuses (check_tag tag).
Proof. unfold check_tag. repeat case_match; first [apply refuses_failure|apply refuses_inr]. Qed.

Lemma new_instance_refuses newID ctime appName src tag config g c :
  refuses (new_instance_of newID ctime appName src tag config g c).
Proof. unfold new_instance_of. cbv zeta. case_match; [apply refuses_failure|apply refuses_inr]. Qed.

Lemma tag_for_no_success appName src config version w t :
  (tag_for appName src config version w).1 = Ok t → no_success t.
Proof.
  unfold tag_for, mbind, M_bind. intros Ht r ->. revert Ht.
  destruct (if str_empty config then _ else _) as [e|[tag|]]; simpl; [by intros [= <-]|by intros [=]|].
  destruct (run _ _ _ w) as [[result|e|] w1]; simpl; [|done..].
  case_match; [by intros [= <-]|]. destruct (extractInstanceTag _) as [e|[tag|]]; by intros [= <-].
Qed.

(** The checks of the name, and what comes of them. *)
Lemma new_instance_facts newID ctime appName src tag config g c i :
  check_tag tag = inr tag → new_instance_of newID ctime appName src tag config g c = inr i →
  fit_name appName tag (ApplicationInstance.name i) ∧ ApplicationInstance.valid i = true ∧
  ApplicationInstance.id i = newID ∧ ApplicationInstance.owningGroup i = Group.id g ∧
  ApplicationInstance.cluster i = Cluster.id c.
Proof.
  unfold check_tag, new_instance_of. cbv zeta.
  destruct (validTagGroupName tag) eqn:Hv; [|done]. simpl.
  destruct (negb (str_empty tag) && bool_decide _) eqn:Hd; [done|]. intros _.
  destruct (63 <? _) eqn:Hl; [done|]. intros [= <-]. simpl. apply Nat.ltb_ge in Hl.
  split; [|done]. split; [done|]. split; [|done].
  apply andb_false_iff in Hd as [Hd|Hd]; [|by apply str_back_ne].
  apply negb_false_iff, str_empty_true in Hd as ->. intros s Hs. by destruct s.
Qed.

Lemma check_tag_same tag tag' : check_tag tag = inr tag' → tag' = tag.
Proof. unfold check_tag. repeat case_match; by intros [= <-]. Qed.

Lemma wp_no_success {A} w0 Q (c : Checked A) (k : A → Store Response) w :
  tolerates w0 Q → VaultInv w → read_only w0 w → no_success c →
  (∀ a, c = inr a → wp (k a) Q w) → wp (checked c k) Q w.
Proof.
  intros Ht Hi Hro Hc Hk. destruct c as [r|a]; simpl; [|by apply Hk].
  apply wp_ret, Ht; [done..|]. intros [content [= ->]]. by apply (Hc _ eq_refl content).
Qed.

Lemma applications_read_only w w' c g : read_only w w' → applications w' c g = applications w c g.
Proof. intros Hro. unfold applications, applications_row. by rewrite (proj1 Hro). Qed.

Lemma groupMayUse_vault g c appName w :
  VaultInv w → group_id g → cluster_id c →
  wp (groupMayUseApplication g c appName) (λ r w', VaultInv w' ∧ read_only w w' ∧
    ∃ b, r = Ok b ∧ (b = true →
      wildcardName ∈ applications w c g ∨ appName ∈ applications w c g)) w.
Proof.
  intros Hi Hg Hc. assert (Hpg : proper_group g) by by apply group_id_proper.
  unfold groupMayUseApplication. eapply wp_seq.
  - apply (vault_fed Instance); [exact Hi| |by apply listApplications_fed; [apply va_fed|..]].
    apply listApplications_frame; done || apply Hc.
  - intros s w1 (Hi1 & Hro1 & s' & [= <-] & Hs).
    case_bool_decide as Hw; (apply wp_ret; split; [done|]; split; [done|]; eexists; split; [done|]).
    + intros _. left. by destruct Hs as [<-|[_ ->]].
    + intros Ha%bool_decide_eq_true. right. by destruct Hs as [<-|[_ ->]].
  - by intros e w1 (_ & _ & s & [=] & _).
  - by intros w1 (_ & _ & s & [=] & _).
Qed.

(** Whether the group may use the application, unless it owns the cluster. *)
Lemma wp_may_install w0 Q appName g c (k : Store Response) w :
  tolerates w0 Q → VaultInv w → read_only w0 w → is_cluster w0 c → group_id (Group.id g) →
  (∀ w', may_install w0 appName g c → VaultInv w' → read_only w0 w' → wp k Q w') →
  wp (allowed ← (if negb (bool_decide (Group.id g = Cluster.owningGroup c))
                 then groupAllowedOnCluster (Group.id g) (Cluster.id c) else mret true);
      if negb allowed then mret (failure 403 "Not authorized") else
      permitted ← (if negb (bool_decide (Group.id g = Cluster.owningGroup c))
                   then groupMayUseApplication (Group.id g) (Cluster.id c) appName else mret true);
      if negb permitted then mret (failure 403 "Not authorized") else k) Q w.
Proof.
  intros Ht Hi Hro Hc Hg Hk. apply (wp_vault_access Instance w0); [done..|].
  intros w1 Ha Hi1 Hro1. destruct (bool_decide_reflect (Group.id g = Cluster.owningGroup c)) as [Ho|Ho].
  { eapply wp_run; [reflexivity|]. apply Hk; [by left|done..]. }
  simpl. destruct Ha as [?|Ha]; [done|].
  assert (Hcid : cluster_id (Cluster.id c)).
  { apply (fi_proper _ (va_fed Hi1)). by apply (read_only_is_cluster w0 w1). }
  apply (wp_vault Instance w0 Q Ht _ _ _ w1 Hro1 (groupMayUse_vault _ _ appName w1 Hi1 Hg Hcid)).
  intros b w2 Hi2 Hro2 _ (b' & [= <-] & Hb). destruct b; simpl.
  2: { by apply (tolerates_failure Instance w0). }
  apply Hk; [|done..]. right. split; [done|]. destruct (Hb eq_refl) as [Hx|Hx]; [left|right];
    by rewrite <- (applications_read_only w0 w1).
Qed.

(** ** Installing *)

(** The end of the request: the record is stored and the release installed, or not. *)
Lemma wp_install_reply made version g c i (json : Response) w0 w :
  VaultInv w → read_only w0 w → fresh Instance w i → ApplicationInstance.valid i = true →
  unconfigured w (ApplicationInstance.id i) → made i → (∃ members, json = reply members) →
  wp (refused ← install_instance version g c i;
      match refused with Some response => mret response | None => mret json end)
    (create_post Instance made w0) w.
Proof.
  intros Hi Hro Hf Hv Hc Hm [members Hj].
  assert (Hgo : ∀ (r : Res Response) w', stored_post Instance alive Custody.kept i w r w' →
    create_post Instance made w0 r w') by (intros r w'; by apply create_post_of_stored).
  eapply wp_seq; [by apply install_instance_spec| | |].
  - intros [response|] w1 Hst; apply wp_ret, Hgo; [intros _; by apply Hst|].
    intros _. destruct (Hst eq_refl) as [Hst1 Hadd]. split; [done|].
    subst json. exact Hadd.
  - intros e w1. apply (Hgo (Throw e)).
  - intros w1. apply (Hgo OutOfFuel).
Qed.

Section request.
Context (newID appName installSrc : string) (token : option string) (u : User.t)
  (body : list (string * Json)) (w : World).
Local Abbreviation made := (made_instance newID appName installSrc token body w).

Lemma installImpl_spec w1 :
  requester w token u → User.id u ≠ "" → newID ≠ "" →
  (∀ i, is_instance w i → ApplicationInstance.id i ≠ newID) → unconfigured w newID →
  VaultInv w1 → read_only w w1 →
  wp (installApplicationImpl newID u appName installSrc body) (create_post Instance made w) w1.
Proof.
  intros Hu Hne Hid Hnew Hconf Hi1 Hro1. unfold installApplicationImpl.
  pose proof (create_post_tolerates Instance made w) as Ht.
  apply (wp_no_success w); [done..|apply refuses_no_success, install_body_refuses|].
  intros [[groupID clusterID] config] Hbody. cbv zeta.
  apply (wp_inquires_result Instance _ w); [done|apply inquires_tag_for|done..|].
  intros tag w2 Htag%tag_for_no_success Hi2 Hro2.
  apply (wp_no_success w); [done..| |].
  { apply no_success_and_then; [done|]. intros a. apply refuses_no_success, check_tag_refuses. }
  intros tag' (t & _ & Hc)%and_then_inr. pose proof (check_tag_same _ _ Hc) as <-.
  apply (wp_vault_group Instance w); [done..|]. intros g w3 Hg Hgn Hgid Hi3 Hro3.
  apply (wp_vault_cluster Instance w); [done..|]. intros c w4 Hcl Hcn Hi4 Hro4.
  apply (wp_vault_member Instance w); [done..|]. intros w5 Hm Hi5 Hro5. cbv zeta.
  apply (wp_may_install w); [done..|]. intros w6 Hmay Hi6 Hro6.
  apply wp_gets. set (ctime := timestamp (fs w6)). clearbody ctime.
  apply (wp_no_success w); [done..|apply refuses_no_success, new_instance_refuses|].
  intros i Hnewi. destruct (new_instance_facts _ _ _ _ _ _ _ _ _ Hc Hnewi) as (Hfit & Hv & Hiid & Hig & Hic).
  assert (Hcp : proper_cluster c).
  { apply (fi_proper _ (va_fed Hi6)). by apply (read_only_is_cluster w w6). }
  eapply (wp_vault Instance w _ Ht); [done|apply instances_by_spec; try done| ].
  { right. apply Hgid. }
  { apply Hgid. }
  { right. apply Hcp. }
  { apply (vault_distinct Instance w6 c Hi6). by apply (read_only_is_cluster w w6). }
  intros l w7 Hi7 Hro7 _ _. destruct (existsb _ l); [by apply (tolerates_failure Instance w)|].
  apply (wp_install_reply made); [done..| |done| | |by eexists].
  - apply (fresh_at Instance w7 i c Hi7); simpl; [by rewrite Hiid| |by rewrite Hig| |done].
    + intros y Hy. rewrite Hiid. apply Hnew. exact (proj1 (read_only_held Instance w w7 y Hro7) Hy).
    + by apply (read_only_is_cluster w w7).
  - unfold unconfigured. rewrite Hiid, (proj1 Hro7). exact Hconf.
  - by exists u, g, c, groupID, clusterID, config, tag', ctime.
Qed.
End request.

(** What is known of an instance that a request to install an application has made. *)
Definition made_by_request (newID appName : string) (req : Request) (w : World) (i : Instance) : Prop :=
  ∃ body, body_members req = inr body ∧ has_quote appName = false ∧
    made_instance newID appName (getRepoName (selectRepo req) +:+ "/" +:+ appName)
      (token_of req) body w i.

Lemma installApplication_spec newID appName req w :
  VaultInv w → newID ≠ "" → (∀ i, is_instance w i → ApplicationInstance.id i ≠ newID) →
  unconfigured w newID →
  wp (installApplication newID appName req)
    (create_post Instance (made_by_request newID appName req w) w) w.
Proof.
  intros Hi Hid Hnew Hconf. unfold installApplication.
  pose proof (create_post_tolerates Instance (made_by_request newID appName req w) w) as Ht.
  apply (wp_vault_user Instance w); [done..|]. intros u w1 Hu Hne Hi1 Hro1. cbv zeta.
  destruct (has_quote appName) eqn:Hq; [by apply (tolerates_failure Instance w)|].
  apply (wp_no_success w); [done..|apply refuses_no_success, refuses_body|]. intros body Hbody.
  apply (wp_inquires Instance _ w); [done| |done..|].
  { apply inquires_try; [|intros ?; apply inquires_ret; apply _].
    apply inquires_bind; [apply inquires_findApplication|intros ?; apply inquires_ret; apply _]. }
  intros [app|] w2 Hi2 Hro2.
  2: { apply wp_ret, Ht; [done..|]. by intros [content [=]]. }
  destruct (Application.valid app); simpl; [|by apply (tolerates_failure Instance w)].
  eapply wp_mono, installImpl_spec; [|done..].
  intros r w3 Hr. eapply create_post_mono, Hr. intros i Hm. by exists body.
Qed.
End installing.

(** * Properties *)

Section theorems.
Context `{D : Dynamo} `{P : Platform} `{PR : !Processes} `{J : !JsonParser}.
Context `{Y : !Yaml} `{S : !Settings}.
Context `{L : !DynamoLaws} `{DL : !DiskLaws} `{PL : !ProcessLaws}.

(** C21: installing an application: success means that one instance has been added, with the new
    ID, a name of allowed characters and length, for the group and on the cluster that were
    named, on behalf of a member of that group, which owns the cluster or has been given
    access both to the cluster and to the application there. Any other reply, from an
    available service, leaves the instances as they were, also when helm refuses the
    release after the instance has been stored. *)
Theorem installApplication_correct (newID appName : string) (req : Request) (w : World) :
  VaultInv w → newID ≠ "" → (∀ i, is_instance w i → ApplicationInstance.id i ≠ newID) →
  unconfigured w newID →
  wp (installApplication newID appName req)
    (create_post Instance (made_by_request newID appName req w) w) w.
Proof. apply installApplication_spec. Qed.
End theorems.
