(* ===== verification/Sample.v ===== *)
(** A small federation - an administrator, a member of the group that owns a cluster, an
    outsider with a group of his own - to which the theorems about requests are applied. *)

From S2P Require Import Prelude Entities Cache Dynamo Store Demo Listing StoreGroups.
From S2P Require Import StoreUsers StoreMembership StoreClusters StoreAccess StoreMonCreds.
From S2P Require Import Directory Federation Http UserCommands GroupCommands.
From S2P Require Import ClusterCommands ClusterAccess CredentialCommands Server Service.
From S2P Require Import Authorization.

Section sample.
Import Demo.
#[local] Existing Instances demo_parser demo_mailer.
#[local] Instance demo_writer : JsonWriter := show_double.

Definition demo_admin : User.t :=
  User.mk true "user_0" "Ada" "ada@b.c" "111" "Lab" "token_0" "globus_0" true.
Definition demo_bio : Group.t :=
  Group.mk true "group_2" "bio" "bio@b.c" "556" "Biology" "cells".

Lemma empty_FedInv : FedInv empty.
Proof.
  split.
  - split; [split|].
    + by apply GroupsInv_empty.
    + by apply users_inv_empty.
    + intros g u. done.
    + intros g (it & Hit & _). by rewrite empty_table, lookup_empty in Hit.
  - apply empty_ClustersInv.
  - apply empty_AccessInv.
  - apply empty_AppsInv.
  - apply empty_CredsInv.
  - intros c Hc. by destruct (empty_stored_cluster c).
  - intros c (it & Hit & _). by rewrite empty_table, lookup_empty in Hit.
Qed.

(** What a world has. *)
Record holds (w : World) (us : list User.t) (gs : list Group.t) (ms : list (string * string))
    (cs : list Cluster.t) : Prop := {
  h_inv : FedInv w;
  h_users : ∀ u, is_user w u ↔ u ∈ us;
  h_groups : ∀ g, is_group w g ↔ g ∈ gs;
  h_members : ∀ u g, is_member w u g ↔ (u, g) ∈ ms;
  h_clusters : ∀ c, is_cluster w c ↔ c ∈ cs }.

Lemma holds_empty : holds empty [] [] [] [].
Proof.
  split; [apply empty_FedInv|..].
  - intros u. rewrite elem_of_nil. split; [|done]. intros (it & Hit & _).
    by rewrite empty_table, lookup_empty in Hit.
  - intros u. rewrite elem_of_nil. split; [|done]. intros (it & Hit & _).
    by rewrite empty_table, lookup_empty in Hit.
  - intros u g. rewrite elem_of_nil. split; [|done]. intros [it Hit].
    by rewrite empty_table, lookup_empty in Hit.
  - intros c. rewrite elem_of_nil. split; [apply empty_stored_cluster|done].
Qed.

(** An element with a new key among the others. *)
Lemma put_list {A} (key : A → string) (S S' : A → Prop) l x :
  (∀ y, S y ↔ y ∈ l) → put key x S S' → Forall (λ y, key y ≠ key x) l →
  ∀ y, S' y ↔ y ∈ x :: l.
Proof.
  intros HS Hp Hn y. etrans; [apply Hp|]. rewrite elem_of_cons, HS. split; [tauto|].
  intros [?|Hy]; [by left|right]. split; [done|]. rewrite list.Forall_forall in Hn. by apply Hn.
Qed.

(** A step that leaves the clusters alone. *)
Lemma directory_step {A} (m : Store A) w us gs ms cs us' gs' ms' :
  holds w us gs ms cs → ServerInv (m w).2 → frame resources m →
  (∀ u, is_user (m w).2 u ↔ u ∈ us') → (∀ g, is_group (m w).2 g ↔ g ∈ gs') →
  (∀ u g, is_member (m w).2 u g ↔ (u, g) ∈ ms') → holds (m w).2 us' gs' ms' cs.
Proof.
  intros [Hi _ _ _ Hc] Hs Hf Hu Hg Hm. pose proof (resources_frame_kept m w Hf) as Hr.
  destruct (FedInv_directory w _ Hi Hs Hr) as [Hi' (Hsc & _)]. split; try done.
  intros c. etrans; [apply Hsc|apply Hc].
Qed.

Lemma holds_addUser x w us gs ms cs :
  holds w us gs ms cs → User.valid x = true → User.id x ≠ "" →
  Forall (λ y, User.id y ≠ User.id x ∧ User.token y ≠ User.token x ∧
    User.globusID y ≠ User.globusID x) us →
  (addUser x w).1 = Ok true → holds (addUser x w).2 (x :: us) gs ms cs.
Proof.
  intros Hw Hv Hid Hn Hrun. pose proof Hw as [Hi Hu Hg Hm _]. rewrite list.Forall_forall in Hn.
  assert (Hnew : new_user (table w SLATE_users) x).
  { split; [split_and!; try done|]; intros y Hy%Hu; destruct (Hn y Hy) as (? & ? & ?); done. }
  destruct (addUser_changed x w (fi_server _ Hi) Hnew) as (Hi' & _ & Hg' & Hm' & b & Hb & Hp).
  rewrite Hrun in Hb. injection Hb as <-.
  apply (directory_step _ w us gs ms cs); [done|done|apply spares_addUser|..].
  - apply (put_list User.id _ _ _ _ Hu Hp). apply list.Forall_forall. intros y Hy. by apply Hn.
  - intros g. etrans; [apply Hg'|apply Hg].
  - intros u g. etrans; [apply Hm'|apply Hm].
Qed.

Lemma holds_addGroup x w us gs ms cs :
  holds w us gs ms cs → Group.valid x = true → Group.name x ≠ "" → group_id (Group.id x) → group_complete x = true →
  Forall (λ y, Group.id y ≠ Group.id x ∧ Group.name y ≠ Group.name x) gs →
  (addGroup x w).1 = Ok true → holds (addGroup x w).2 us (x :: gs) ms cs.
Proof.
  intros Hw Hv Hname Hid Hcomp Hn Hrun. pose proof Hw as [Hi Hu Hg Hm _]. rewrite list.Forall_forall in Hn.
  assert (Hnew : compatible_group (table w SLATE_groups) x).
  { split_and!; [done|intros Heq; destruct Hid as (Hp & _); by rewrite Heq in Hp|done|].
    intros y Hy%Hg. destruct (Hn y Hy). by split. }
  destruct (addGroup_changed x w (fi_server _ Hi) Hid Hcomp Hnew) as (Hi' & _ & Hu' & Hm' & b & Hb & Hp).
  rewrite Hrun in Hb. injection Hb as <-.
  apply (directory_step _ w us gs ms cs); [done|done|apply spares_addGroup|..].
  - intros u. etrans; [apply Hu'|apply Hu].
  - apply (put_list Group.id _ _ _ _ Hg Hp). apply list.Forall_forall. intros y Hy. by apply Hn.
  - intros u g. etrans; [apply Hm'|apply Hm].
Qed.

Lemma holds_addUserToGroup u g w us gs ms cs :
  holds w us gs ms cs → begins_with g groupIDPrefix = true →
  (StoreMembership.addUserToGroup u g w).1 = Ok true →
  holds (StoreMembership.addUserToGroup u g w).2 us gs ((u, g) :: ms) cs.
Proof.
  intros Hw Hg Hrun. pose proof Hw as [Hi Hu Hgs Hm _].
  destruct (addUserToGroup_changed u g w (fi_server _ Hi)) as (Hi' & _ & Hu' & Hg' & b & Hb & Hp).
  rewrite Hrun in Hb. injection Hb as <-. destruct Hp as (gid & Hn & Hp).
  unfold names in Hn. rewrite Hg in Hn. subst gid.
  apply (directory_step _ w us gs ms cs); [done|done|apply spares_addUserToGroup|..].
  - intros x. etrans; [apply Hu'|apply Hu].
  - intros x. etrans; [apply Hg'|apply Hgs].
  - intros x y. etrans; [apply Hp|]. rewrite elem_of_cons. case_decide as Hx.
    + destruct Hx as [-> ->]. by split; [left|].
    + rewrite Hm. split; [by right|]. intros [[= -> ->]|?]; [by destruct Hx|done].
Qed.

Lemma holds_addCluster x w us gs ms cs :
  holds w us gs ms cs → Cluster.valid x = true → wf_credential (Cluster.monitoringCredential x) →
  proper_cluster x →
  Forall (λ y, Cluster.id y ≠ Cluster.id x ∧ Cluster.name y ≠ Cluster.name x) cs →
  (addCluster x w).1 = Ok true → holds (addCluster x w).2 us gs ms (x :: cs).
Proof.
  intros [Hi Hu Hg Hm Hc] Hv Hcr Hpr Hn Hrun. rewrite list.Forall_forall in Hn.
  assert (Hnew : compatible_cluster (table w SLATE_clusters) x).
  { split_and!; try done; [intros Heq; destruct Hpr as [[Hp _] _]; by rewrite Heq in Hp|].
    intros y Hy%Hc. destruct (Hn y Hy). by split. }
  destruct (addCluster_fed x w Hi Hnew Hpr) as (Hi' & _ & (Hu' & Hg' & Hm') & _ & _ & b & Hb & Hp).
  rewrite Hrun in Hb. injection Hb as <-. split; [done|..].
  - intros u. etrans; [apply Hu'|apply Hu].
  - intros g. etrans; [apply Hg'|apply Hg].
  - intros u g. etrans; [apply Hm'|apply Hm].
  - apply (put_list Cluster.id _ _ _ _ Hc Hp). apply list.Forall_forall. intros y Hy. by apply Hn.
Qed.

(** The federation of the examples. *)
Definition sample : World :=
  let w := (addUser demo_admin (addUser demo_outsider (addUser demo_user empty).2).2).2 in
  let w := (addGroup demo_bio (addGroup demo_group w).2).2 in
  let w := (StoreMembership.addUserToGroup "user_2" "group_2"
             (StoreMembership.addUserToGroup "user_1" "group_1" w).2).2 in
  (addCluster demo_cluster w).2.

Ltac distinct := repeat constructor; discriminate.

Lemma sample_holds :
  holds sample [demo_admin; demo_outsider; demo_user] [demo_bio; demo_group]
    [("user_2", "group_2"); ("user_1", "group_1")] [demo_cluster].
Proof.
  unfold sample. cbv zeta.
  apply holds_addCluster; [|reflexivity|done|by split|constructor|vm_compute; reflexivity].
  apply holds_addUserToGroup; [|reflexivity|vm_compute; reflexivity].
  apply holds_addUserToGroup; [|reflexivity|vm_compute; reflexivity].
  apply holds_addGroup; [|reflexivity|discriminate|split; [done|]; split; [done|]; by apply str_back_ne
    |reflexivity|distinct|vm_compute; reflexivity].
  apply holds_addGroup; [|reflexivity|discriminate|split; [done|]; split; [done|]; by apply str_back_ne
    |reflexivity|distinct|vm_compute; reflexivity].
  apply holds_addUser; [|reflexivity|discriminate|distinct|vm_compute; reflexivity].
  apply holds_addUser; [|reflexivity|discriminate|distinct|vm_compute; reflexivity].
  apply holds_addUser; [apply holds_empty|reflexivity|discriminate|distinct|vm_compute; reflexivity].
Qed.

Definition sample_inv : FedInv sample := h_inv _ _ _ _ _ sample_holds.

Lemma sample_healthy : healthy (db sample).
Proof. done. Qed.

Lemma sample_requester token body u :
  requester sample (token_of (demo_request token body)) u →
  User.token u = token ∧ (u = demo_admin ∨ u = demo_outsider ∨ u = demo_user).
Proof.
  intros [Hu Ht]. split; [by injection Ht|]. apply (h_users _ _ _ _ _ sample_holds) in Hu.
  rewrite !elem_of_cons, elem_of_nil in Hu. tauto.
Qed.

Lemma sample_outsider body u :
  requester sample (token_of (demo_request "token_2" body)) u → u = demo_outsider.
Proof. by intros [Ht [->|[->| ->]]]%sample_requester. Qed.

Lemma sample_members u g :
  is_member sample u g → u = "user_2" ∧ g = "group_2" ∨ u = "user_1" ∧ g = "group_1".
Proof.
  intros Hm%(h_members _ _ _ _ _ sample_holds). rewrite !elem_of_cons, elem_of_nil in Hm.
  by destruct Hm as [[= -> ->]|[[= -> ->]|?]]; auto.
Qed.

Lemma sample_outsider_steers : ¬ may_steer (directory sample) demo_outsider "group_1".
Proof. by intros [?|[[_ [=]]|[[=] _]]%sample_members]. Qed.

Lemma sample_cluster : is_cluster sample demo_cluster.
Proof. apply (h_clusters _ _ _ _ _ sample_holds). by left. Qed.

Lemma sample_group : ∃ g, is_group sample g ∧ Group.id g = "group_1".
Proof. exists demo_group. split; [|done]. apply (h_groups _ _ _ _ _ sample_holds). by right; left. Qed.

Lemma sample_admin body : requester sample (param (demo_request "token_0" body) "token") demo_admin.
Proof. split; [|done]. apply (h_users _ _ _ _ _ sample_holds). by left. Qed.

(** The member of the owning group lets the other group in. *)
Lemma requests_refine_federation_witness :
  FedInv (handle 5 (GrantAccess "alpha" "bio") (demo_request "token_1" "") sample).2 ∧
  (handle 5 (GrantAccess "alpha" "bio") (demo_request "token_1" "") sample).1 = Ok done_reply ∧
  (groupAllowedOnCluster "group_2" "cluster_1"
    (handle 5 (GrantAccess "alpha" "bio") (demo_request "token_1" "") sample).2).1 = Ok true.
Proof.
  split; [|split; vm_compute; reflexivity].
  exact (proj1 (requests_refine_federation 5 (GrantAccess "alpha" "bio")
    (demo_request "token_1" "") sample sample_inv I)).
Defined.


(** The outsider asks to be an administrator. *)
Lemma no_privilege_escalation_witness :
  (handle 5 (OnDirectory (UpdateUser "user_2"))
    (demo_request "token_2" "{metadata:{admin:true}}") sample).1
    = Ok (failure 403 "User not authorized") ∧
  ∀ x, is_user (handle 5 (OnDirectory (UpdateUser "user_2"))
         (demo_request "token_2" "{metadata:{admin:true}}") sample).2 x →
  User.admin x = true → ∃ y, is_user sample y ∧ User.id y = User.id x ∧ User.admin y = true.
Proof.
  split; [vm_compute; reflexivity|].
  apply (no_privilege_escalation 5 sample _ sample_inv).
  apply (more_requests 5 _ sample (OnDirectory (UpdateUser "user_2"))
    (demo_request "token_2" "{metadata:{admin:true}}")); [|exact I|apply no_request].
  intros u Hu. by rewrite (sample_outsider _ u Hu).
Defined.

(** The outsider asks to delete the account of the member. *)
Lemma accounts_are_protected_witness :
  (handle 5 (OnDirectory (DeleteUser "user_1")) (demo_request "token_2" "") sample).1
    = Ok (failure 403 "Not authorized") ∧
  is_user (handle 5 (OnDirectory (DeleteUser "user_1")) (demo_request "token_2" "") sample).2
    demo_user.
Proof.
  split; [vm_compute; reflexivity|].
  apply (accounts_are_protected 5 sample _ demo_user sample_inv).
  - apply (h_users _ _ _ _ _ sample_holds). by right; right; left.
  - apply (more_requests 5 _ sample (OnDirectory (DeleteUser "user_1")) (demo_request "token_2" ""));
      [|exact I|apply no_request].
    intros u Hu. rewrite (sample_outsider _ u Hu). by intros [].
Defined.



(** The credential of the cluster goes to a member of the group that owns it. *)
Lemma success_requires_authority_witness :
  (handle 5 (RevokeAccess "alpha" "bio") (demo_request "token_1" "") sample).1 = Ok done_reply ∧
  ∃ u, requester sample (Some "token_1") u ∧ owns_named sample u "alpha".
Proof.
  assert (Hrun : (handle 5 (RevokeAccess "alpha" "bio") (demo_request "token_1" "") sample).1
    = Ok done_reply) by (vm_compute; reflexivity).
  split; [exact Hrun|].
  exact (success_requires_authority 5 (RevokeAccess "alpha" "bio") (demo_request "token_1" "")
    sample sample_inv (ex_intro _ None Hrun)).
Defined.


(** Anyone may ask; the other group has no access. *)
Lemma access_check_witness :
  (checkGroupClusterAccess "alpha" "bio" (demo_request "token_2" "") sample).1
    = Ok (access_reply "alpha" "bio" false) ∧
  access_answered "alpha" "bio" false sample.
Proof.
  assert (Hrun : (checkGroupClusterAccess "alpha" "bio" (demo_request "token_2" "") sample).1
    = Ok (access_reply "alpha" "bio" false)) by (vm_compute; reflexivity).
  split; [exact Hrun|].
  exact (proj2 (proj2 (access_check_correct "alpha" "bio" (demo_request "token_2" "") sample
    sample_inv)) false Hrun).
Defined.
End sample.
