(* ===== verification/SecretSample.v ===== *)
(** The sample federation with a secret, to which the theorems about secrets are applied. *)

From S2P Require Import Prelude Text Entities Cache Dynamo Store Demo Kubernetes Listing.
From S2P Require Import Catalogue StoreGroups StoreUsers StoreMembership StoreClusters.
From S2P Require Import StoreAccess StoreInstances StoreSecrets StoreMonCreds Directory.
From S2P Require Import Federation Http UserCommands GroupCommands ClusterCommands.
From S2P Require Import SecretCommands Server Service Authorization Vault Custody Secrecy Sample.

Section secret_sample.
Import Demo DemoTools.
#[local] Existing Instances demo_scrypt demo_scrypt_laws.

(** A printer of flat objects, and a parser of the texts of the example. *)
#[local] Instance demo_serializer : JsonSerializer := λ v,
  match v with
  | JObject members => foldr (λ m text,
      m.1 +:+ ":" +:+ match m.2 with JString s => s | _ => "" end +:+ ";" +:+ text) "" members
  | _ => ""
  end.

#[local] Instance secret_parser : JsonParser := λ s,
  if bool_decide (s = "{secret}") then JObject
    [("metadata", JObject [("name", JString "password"); ("group", JString "group_1");
                           ("cluster", JString "alpha")]);
     ("contents", JObject [("key", JString "TWFu")])]
  else if bool_decide (s = "key:TWFu;") then JObject [("key", JString "TWFu")]
  else JNull.

#[local] Instance demo_scrypt_files : ScryptFiles.
Proof. by split. Qed.

Lemma no_secret w s : table w SLATE_secrets = ∅ → ¬ is_secret w s.
Proof.
  intros Ht (it & Hit & _). change (table w SLATE_secrets !! (Secret.id s, Secret.id s) = Some it) in Hit.
  by rewrite Ht, lookup_empty in Hit.
Qed.

Lemma sample_no_secret s : ¬ is_secret sample s.
Proof. apply no_secret. vm_compute. reflexivity. Qed.

Lemma no_secrets_inv w :
  table w SLATE_secrets = ∅ → secrets w = secrets empty → SecretsInv w.
Proof.
  intros Ht Hs. apply (KindInv_same secret_kind empty); [exact empty_SecretsInv| |].
  - exact Ht.
  - cbn [k_view secret_kind]. by rewrite Hs.
Qed.

Lemma sample_vault : VaultInv Secret.t sample.
Proof.
  assert (Hc : ∀ c, is_cluster sample c → c = demo_cluster).
  { intros c Hc. apply (h_clusters _ _ _ _ _ sample_holds) in Hc. by apply list_elem_of_singleton in Hc. }
  split.
  - exact sample_inv.
  - apply (no_secrets_inv sample); vm_compute; reflexivity.
  - by intros s ?%sample_no_secret.
  - by intros c c' ->%Hc ->%Hc.
  - by intros s c ?%sample_no_secret.
Qed.

Definition secret_request : Request := demo_request "token_1" "{secret}".

(** What the creation of the secret leaves. *)
Definition stocked : World := (SecretCommands.createSecret "key" "secret_1" secret_request sample).2.

(** The member of the group that owns the cluster creates a secret there. *)
Lemma createSecret_witness :
  wp (SecretCommands.createSecret "key" "secret_1" secret_request)
    (create_post Secret.t (made_secret "key" "secret_1" secret_request sample) sample) sample ∧
  (SecretCommands.createSecret "key" "secret_1" secret_request sample).1 =
    Ok (reply [apiVersion; ("kind", JString "Secret");
      ("metadata", JObject [("id", JString "secret_1"); ("name", JString "password")])]).
Proof.
  split; [|vm_compute; reflexivity].
  apply (createSecret_correct "key" "secret_1" secret_request sample sample_vault); [discriminate|].
  by intros s ?%sample_no_secret.
Defined.

(** Whatever creates a secret this way leaves it behind. *)
Lemma created_secret (m : Store Response) w content :
  wp m (create_post Secret.t (made_secret "key" "secret_1" secret_request w) w) w →
  (m w).1 = Ok (Reply 200 content) →
  VaultInv Secret.t (m w).2 ∧ ∃ s, is_secret (m w).2 s ∧ Secret.id s = "secret_1".
Proof.
  unfold wp. destruct (m w) as [r w']. simpl. intros Hp ->. simpl in Hp.
  destruct Hp as (Hst & s & (u & body & g & c & _ & _ & _ & _ & _ & _ & _ & _ & Heq & _) & Ha).
  split; [apply Hst|]. exists s. split; [apply Ha; by left|]. by rewrite Heq.
Qed.

Lemma stocked_secret :
  VaultInv Secret.t stocked ∧ ∃ s, is_secret stocked s ∧ Secret.id s = "secret_1".
Proof.
  eapply created_secret; [|vm_compute; reflexivity].
  apply createSecret_spec; [exact sample_vault|discriminate|by intros s ?%sample_no_secret].
Qed.

(** The request of a user who names a group. *)
Definition group_request (token group : string) : Request :=
  mkRequest {["token" := token; "group" := group]} "".

(** The member of the group sees the secret, and the listing; the outsider does not. *)
Lemma secrets_disclosed_to_members_witness :
  wp (SecretCommands.getSecret "key" "secret_1" (group_request "token_1" "astro"))
    (reads Secret.t stocked (disclosed "key" "secret_1" (Some "token_1") stocked)) stocked ∧
  (SecretCommands.getSecret "key" "secret_1" (group_request "token_1" "astro") stocked).1
    = Ok (reply [apiVersion; ("kind", JString "Secret");
        ("metadata", JObject [("id", JString "secret_1"); ("name", JString "password");
           ("group", JString "astro"); ("cluster", JString "alpha");
           ("created", JString "now")]);
        ("contents", JObject [("key", JString "TWFu")])]) ∧
  (SecretCommands.getSecret "key" "secret_1" (group_request "token_2" "astro") stocked).1
    = Ok (failure 403 "User not authorized").
Proof.
  split; [|split; vm_compute; reflexivity].
  exact (proj1 (secrets_disclosed_to_members "key" "secret_1" "astro"
    (group_request "token_1" "astro") stocked (proj1 stocked_secret) (or_introl eq_refl) eq_refl)).
Defined.

(** The outsider asks for the deletion of the secret, and the member does. *)
Lemma deleteSecret_witness :
  same_held Secret.t stocked
    (SecretCommands.deleteSecret "secret_1" (demo_request "token_2" "") stocked).2 ∧
  (SecretCommands.deleteSecret "secret_1" (demo_request "token_1" "") stocked).1 = Ok done_reply.
Proof.
  split; [|vm_compute; reflexivity].
  pose proof (deleteSecret_correct "secret_1" (demo_request "token_2" "") stocked
    (proj1 stocked_secret)) as [_ Hp].
  assert (Hrun : (SecretCommands.deleteSecret "secret_1" (demo_request "token_2" "") stocked).1
    = Ok (failure 403 "User not authorized")) by (vm_compute; reflexivity).
  rewrite Hrun in Hp. exact Hp.
Defined.

Lemma files_kept (m : Store Response) w :
  wp m (λ r w', r ≠ Ok AssertionFailed →
    disk_ok (fs w') ∧ ∀ p, file_contents (fs w') p = file_contents (fs w) p) w →
  (m w).1 = Ok done_reply → ∀ p, assoc p (fs (m w).2) = assoc p (fs w).
Proof. unfold wp. destruct (m w) as [r w']. simpl. intros Hp ->. by apply Hp. Qed.

(** Kubernetes takes the secret; no file is left. *)
Lemma secret_files_removed_witness :
  (install_secret "config" demo_group Secret.none (JObject [("key", JString "TWFu")])
     (mret done_reply) sample).1 = Ok done_reply ∧
  ∀ p, assoc p (fs (install_secret "config" demo_group Secret.none
         (JObject [("key", JString "TWFu")]) (mret done_reply) sample).2) = assoc p (fs sample).
Proof.
  assert (Hrun : (install_secret "config" demo_group Secret.none
    (JObject [("key", JString "TWFu")]) (mret done_reply) sample).1 = Ok done_reply)
    by (vm_compute; reflexivity).
  split; [exact Hrun|].
  exact (files_kept _ sample (secret_files_removed "config" demo_group Secret.none
    (JObject [("key", JString "TWFu")]) done_reply sample I) Hrun).
Defined.
End secret_sample.

(** * The buffer and the texts *)

(** The writer fills the fresh buffer, which grows. *)
Lemma buffer_witness :
  ∃ b, write_text "hello" SecretStringBuffer.make = Some b ∧ Buffer.holds_text b "hello".
Proof.
  exact (proj1 (Buffer.buffer_refines_text SecretStringBuffer.make "" "hello" 0
    (proj1 Buffer.make_holds)) ltac:(cbv; lia)).
Defined.
