(* ===== verification/ClaimSample.v ===== *)
(** The sample federation with a volume claim, to which the theorems about claims are
    applied. *)

From S2P Require Import Prelude Text Entities Cache Dynamo Store Demo Kubernetes Listing.
From S2P Require Import Catalogue StoreGroups StoreUsers StoreMembership StoreClusters.
From S2P Require Import StoreAccess StoreInstances StoreVolumes StoreMonCreds Directory.
From S2P Require Import Federation Http UserCommands GroupCommands ClusterCommands.
From S2P Require Import SecretCommands VolumeCommands Server Service Authorization Vault.
From S2P Require Import Custody Claims Sample.

Section claim_sample.
Import Demo DemoTools.

#[local] Instance plain_serializer : JsonSerializer := λ v, "{}".

(** The texts of the example: a request, and what kubectl prints of the pods - one that
    mounts the claim, or none. *)
Definition one_pod : Json := JObject
  [("metadata", JObject [("generateName", JString "nginx-")]);
   ("spec", JObject [("volumes", JArray [JObject
      [("persistentVolumeClaim", JObject [("claimName", JString "data")])]])])].

#[local] Instance claim_parser : JsonParser := λ s,
  if bool_decide (s = "{claim}") then JObject
    [("metadata", JObject [("group", JString "group_1"); ("cluster", JString "alpha");
        ("name", JString "data"); ("storageRequest", JString "10Gi");
        ("accessMode", JString "RWX"); ("volumeMode", JString "Filesystem");
        ("storageClass", JString "ssd")])]
  else if bool_decide (s = "{pods}") then JObject [("items", JArray [one_pod])]
  else if bool_decide (s = "{idle}") then JObject [("items", JArray [])]
  else JNull.

Lemma no_volume w v : table w SLATE_volumes = ∅ → ¬ is_volume w v.
Proof.
  intros Ht (it & Hit & _).
  change (table w SLATE_volumes !! (PersistentVolumeClaim.id v, PersistentVolumeClaim.id v) = Some it)
    in Hit.
  by rewrite Ht, lookup_empty in Hit.
Qed.

Lemma sample_no_volume v : ¬ is_volume sample v.
Proof. apply no_volume. vm_compute. reflexivity. Qed.

Lemma no_volumes_inv w :
  table w SLATE_volumes = ∅ → volumes w = volumes empty → VolumesInv w.
Proof.
  intros Ht Hs. apply (KindInv_same volume_kind empty); [exact empty_VolumesInv|exact Ht|].
  cbn [k_view volume_kind]. by rewrite Hs.
Qed.

Lemma sample_claims : VaultInv PersistentVolumeClaim.t sample.
Proof.
  assert (Hc : ∀ c, is_cluster sample c → c = demo_cluster).
  { intros c Hc. apply (h_clusters _ _ _ _ _ sample_holds) in Hc. by apply list_elem_of_singleton in Hc. }
  split.
  - exact sample_inv.
  - apply (no_volumes_inv sample); vm_compute; reflexivity.
  - by intros v ?%sample_no_volume.
  - by intros c c' ->%Hc ->%Hc.
  - by intros v c ?%sample_no_volume.
Qed.

Definition claim_request : Request := demo_request "token_1" "{claim}".

(** The member of the group that owns the cluster creates a claim there. *)
Lemma createVolumeClaim_witness :
  wp (createVolumeClaim (PR := processes) "volume_1" claim_request)
    (create_post PersistentVolumeClaim.t (made_volume "volume_1" claim_request sample) sample)
    sample ∧
  is_ok (createVolumeClaim (PR := processes) "volume_1" claim_request sample).1 = true.
Proof.
  split; [|vm_compute; reflexivity].
  apply (createVolumeClaim_correct (PL := process_laws) "volume_1" claim_request sample sample_claims);
    [discriminate|].
  by intros v ?%sample_no_volume.
Defined.

(** What the creation leaves. *)
Definition claimed : World := (createVolumeClaim (PR := processes) "volume_1" claim_request sample).2.

(** Whatever creates a claim this way leaves it behind, in the same federation. *)
Lemma created_claim (m : Store Response) content :
  wp m (create_post PersistentVolumeClaim.t (made_volume "volume_1" claim_request sample) sample)
    sample →
  (m sample).1 = Ok (Reply 200 content) →
  VaultInv PersistentVolumeClaim.t (m sample).2 ∧ healthy (db (m sample).2) ∧
  is_group (m sample).2 demo_group ∧ is_cluster (m sample).2 demo_cluster ∧
  ∃ v, is_volume (m sample).2 v ∧ PersistentVolumeClaim.id v = "volume_1".
Proof.
  unfold wp. destruct (m sample) as [r w']. cbn [fst snd]. intros Hp ->.
  destruct Hp as ((Hi & Hh & (_ & Hg & _) & Hc & _) & v & (u & body & ct & g & c & _ & Hb & _ & _ & _ & _ & _ & _ & ->) & Ha).
  split; [exact Hi|]. split; [exact (Hh sample_healthy)|].
  split; [apply Hg, (h_groups _ _ _ _ _ sample_holds); by right; left|].
  split; [apply Hc; exact sample_cluster|].
  eexists. split; [apply Ha; by left|]. by apply (new_volume_facts _ _ _ _ Hb).
Qed.

Lemma claimed_facts :
  VaultInv PersistentVolumeClaim.t claimed ∧ healthy (db claimed) ∧
  is_group claimed demo_group ∧ is_cluster claimed demo_cluster ∧
  ∃ v, is_volume claimed v ∧ PersistentVolumeClaim.id v = "volume_1".
Proof.
  eapply created_claim; [|vm_compute; reflexivity].
  apply (createVolumeClaim_spec (PL := process_laws)); [exact sample_claims|discriminate|].
  by intros v ?%sample_no_volume.
Qed.


(** The outsider asks for the deletion of the claim; the member does, when no pod runs. *)
Lemma deleteVolumeClaim_witness :
  same_held PersistentVolumeClaim.t claimed
    (deleteVolumeClaim (PR := printing "{idle}") "volume_1" (demo_request "token_2" "") claimed).2 ∧
  (deleteVolumeClaim (PR := printing "{idle}") "volume_1" (demo_request "token_1" "") claimed).1
    = Ok done_reply.
Proof.
  split; [|vm_compute; reflexivity].
  pose proof (deleteVolumeClaim_correct (PL := printing_laws "{idle}") "volume_1"
    (demo_request "token_2" "") claimed (proj1 claimed_facts)) as [_ Hp].
  assert (Hrun : (deleteVolumeClaim (PR := printing "{idle}") "volume_1"
    (demo_request "token_2" "") claimed).1 = Ok (failure 403 "User not authorized"))
    by (vm_compute; reflexivity).
  rewrite Hrun in Hp. exact Hp.
Defined.

Lemma kept_in_use (m : Store string) w (ok : Res string → Prop) :
  wp m (λ r w', vault_step PersistentVolumeClaim.t w w' ∧
    same_held PersistentVolumeClaim.t w w' ∧ ok r) w →
  same_held PersistentVolumeClaim.t w (m w).2.
Proof. unfold wp. destruct (m w) as [r w']. by intros (_ & ? & _). Qed.

End claim_sample.
