(* ===== verification/InstanceSample.v ===== *)
(** The sample federation with an application that is installed, to which the theorems about
    instances are applied. *)

From S2P Require Import Prelude Text Entities Cache Dynamo Store Demo Kubernetes Listing.
From S2P Require Import Catalogue StoreGroups StoreUsers StoreMembership StoreClusters.
From S2P Require Import StoreAccess StoreInstances StoreVolumes StoreMonCreds Directory.
From S2P Require Import Federation Http UserCommands GroupCommands ClusterCommands.
From S2P Require Import ApplicationCommands InstanceCommands InstanceDetails Server Service.
From S2P Require Import Authorization Vault Custody Installations Lifecycle Installing Sample.

Section instance_sample.
Import Demo DemoTools.

(** What the tools print, whatever they are asked. *)
Definition printed : string := join Text.newline
  ["version.BuildInfo{Version:" +:+ dquote +:+ "v3.5.4" +:+ dquote +:+ "}";
   "slate/nginx" +:+ String tab "1.2.3" +:+ String tab "0.4" +:+ String tab "A web server";
   "STATUS: deployed"; "release " +:+ dquote +:+ "nginx-blue" +:+ dquote +:+ " uninstalled"].

#[local] Instance tools : Processes := printing printed.
#[local] Instance tool_laws : ProcessLaws (DL := disk) := printing_laws printed.

(** The body of a request, and no objects in the cluster. *)
#[local] Instance instance_parser : JsonParser := λ s,
  if bool_decide (s = "{instance}") then JObject
    [("group", JString "group_1"); ("cluster", JString "alpha");
     ("configuration", JString "Instance: blue")]
  else JObject [("items", JArray [])].

#[local] Instance blue : Yaml := {|
  LoadAll s := inr [YMap [(YScalar "Instance", YScalar "blue")]];
  Load s := inr YNull;
  Emit documents := "Instance: blue" |}.

#[local] Instance settings : Settings := {|
  baseDomain := "slateci.net"; appLoggingServerName := ""; appLoggingServerPort := 0 |}.

Definition install_request : Request := demo_request "token_1" "{instance}".

Lemma no_instances_inv w :
  table w SLATE_instances = ∅ → instances w = instances empty → InstancesInv w.
Proof.
  intros Ht Hs. destruct empty_InstancesInv as [Hk Hc]. split.
  - apply (KindInv_same instance_kind empty); [exact Hk|exact Ht|].
    cbn [k_view instance_kind]. by rewrite Hs.
  - intros id r. rewrite Hs. intros Hr. by destruct (Hc id r Hr) as (it & Hit & _).
Qed.

Lemma no_instance w i : table w SLATE_instances = ∅ → ¬ is_instance w i.
Proof.
  intros Ht (it & Hit & _).
  change (table w SLATE_instances !! (ApplicationInstance.id i, ApplicationInstance.id i) = Some it)
    in Hit.
  by rewrite Ht, lookup_empty in Hit.
Qed.

Lemma sample_no_instances : table sample SLATE_instances = ∅.
Proof. vm_compute. reflexivity. Qed.

Lemma sample_instances : VaultInv ApplicationInstance.t sample.
Proof.
  assert (Hc : ∀ c, is_cluster sample c → c = demo_cluster).
  { intros c Hc. apply (h_clusters _ _ _ _ _ sample_holds) in Hc. by apply list_elem_of_singleton in Hc. }
  split.
  - exact sample_inv.
  - apply (no_instances_inv sample); vm_compute; reflexivity.
  - intros i Hi. by destruct (no_instance _ i sample_no_instances).
  - by intros c c' ->%Hc ->%Hc.
  - intros i c Hi. by destruct (no_instance _ i sample_no_instances).
Qed.

(** The member of the group that owns the cluster installs an application there. *)
Lemma installApplication_witness :
  wp (installApplication "instance_1" "nginx" install_request)
    (create_post ApplicationInstance.t
       (made_by_request "instance_1" "nginx" install_request sample) sample) sample ∧
  is_ok (installApplication "instance_1" "nginx" install_request sample).1 = true.
Proof.
  split; [|vm_compute; reflexivity].
  apply (installApplication_correct "instance_1" "nginx" install_request sample sample_instances);
    [discriminate| |].
  - intros i Hi. by destruct (no_instance _ i sample_no_instances).
  - unfold unconfigured. by rewrite sample_no_instances.
Defined.

(** What the installation leaves. *)
Definition installed_world : World :=
  (installApplication "instance_1" "nginx" install_request sample).2.

(** Whatever installs it this way leaves it behind. *)
Lemma created_instance (m : Store Response) content :
  wp m (create_post ApplicationInstance.t
    (made_by_request "instance_1" "nginx" install_request sample) sample) sample →
  (m sample).1 = Ok (Reply 200 content) →
  VaultInv ApplicationInstance.t (m sample).2 ∧ healthy (db (m sample).2).
Proof.
  unfold wp. destruct (m sample) as [r w']. cbn [fst snd]. intros Hp ->.
  destruct Hp as ((Hi & Hh & _) & _). split; [exact Hi|exact (Hh sample_healthy)].
Qed.

Lemma installed_facts :
  VaultInv ApplicationInstance.t installed_world ∧ healthy (db installed_world).
Proof.
  eapply created_instance; [|vm_compute; reflexivity].
  apply installApplication_spec; [exact sample_instances|discriminate| |].
  - intros i Hi. by destruct (no_instance _ i sample_no_instances).
  - unfold unconfigured. by rewrite sample_no_instances.
Qed.


(** The outsider asks for the deletion of the instance; the member does. *)
Lemma deleteApplicationInstance_witness :
  spared ApplicationInstance.t "instance_1" installed_world
    (deleteApplicationInstance "instance_1" (demo_request "token_2" "") installed_world).2 ∧
  (deleteApplicationInstance "instance_1" (demo_request "token_1" "") installed_world).1
    = Ok done_reply.
Proof.
  split; [|vm_compute; reflexivity].
  pose proof (deleteApplicationInstance_correct "instance_1" (demo_request "token_2" "")
    installed_world (proj1 installed_facts)) as [_ Hp].
  assert (Hrun : (deleteApplicationInstance "instance_1" (demo_request "token_2" "")
    installed_world).1 = Ok (failure 403 "User not authorized")) by (vm_compute; reflexivity).
  rewrite Hrun in Hp. exact Hp.
Defined.

(** The member updates and restarts the instance. *)
Lemma restart_and_update_witness :
  wp (updateApplicationInstance "instance_1" install_request)
    (update_post "instance_1" install_request installed_world) installed_world ∧
  is_ok (updateApplicationInstance "instance_1" install_request installed_world).1 = true ∧
  is_ok (restartApplicationInstance "instance_1" install_request installed_world).1 = true.
Proof.
  split; [|split; vm_compute; reflexivity].
  refine (proj2 (restart_and_update_correct "instance_1" install_request installed_world
    (proj1 installed_facts) (proj2 installed_facts) _)).
  discriminate.
Defined.
End instance_sample.
