(* ===== verification/ClusterSample.v ===== *)
(** The sample federation in which clusters are registered, changed and deleted, to which the
    theorems about clusters are applied. *)

From stdpp Require Import pretty.
From S2P Require Import Prelude Text Dns Entities Cache Dynamo Store Demo Kubernetes Listing.
From S2P Require Import Catalogue StoreGroups StoreUsers StoreMembership StoreClusters.
From S2P Require Import StoreAccess StoreInstances StoreSecrets StoreMonCreds StoreVolumes.
From S2P Require Import Directory Federation Http Geocoder UserCommands GroupCommands.
From S2P Require Import ClusterCommands ApplicationCommands InstanceCommands ClusterStatus.
From S2P Require Import ClusterLifecycle Server Service Authorization Vault Custody Secrecy.
From S2P Require Import Claims Installations ClusterRemoval ClusterRequests ClusterCreation.
From S2P Require Import ClusterDeletion Sample SecretSample ClaimSample InstanceSample.

Section cluster_sample.
Import Demo DemoTools.

(** What the tools print, whatever they are asked. *)
Definition cluster_output : string := join Text.newline
  ["default slate-system "; "Namespace: slate-system";
   "version.BuildInfo{Version:" +:+ dquote +:+ "v3.5.4" +:+ dquote +:+ "}"].

#[local] Instance cluster_tools : Processes := printing cluster_output.
#[local] Instance cluster_tool_laws : ProcessLaws (DL := disk) := printing_laws cluster_output.

(** A DNS service without records. *)
#[local] Instance no_records : Route53 FS := {
  TestDNSAnswer id name type net := inr [];
  ChangeResourceRecordSets id changes net := (None, net) }.
#[local] Instance no_records_laws : NetLaws (DL := disk).
Proof. by intros id changes f. Qed.

#[local] Existing Instance demo_mailer.
#[local] Instance cluster_parser : JsonParser := λ _, JObject
  [("metadata", JObject
     [("name", JString "beta"); ("group", JString "group_1");
      ("owningOrganization", JString "Lab"); ("caData", JString "Y2E=");
      ("token", JString "secret"); ("serverAddress", JString "https://10.0.0.1:6443");
      ("namespace", JString "slate-system")])].
#[local] Instance cluster_yaml : Yaml := {|
  LoadAll s := inr []; Load s := inr YNull; Emit documents := "kind: Config" |}.
#[local] Instance cluster_settings : Settings := {|
  baseDomain := "slateci.net"; appLoggingServerName := ""; appLoggingServerPort := 0 |}.
#[local] Instance cluster_reader : JsonReader := λ s, 0%Z.
#[local] Instance cluster_web : Web := {
  httpGet url files := (inr (404%Z, url), files); to_string z := pretty z }.

Definition geocoder : Geocoder.t := Geocoder.mk "https://geocode.xyz" "token".

(** The outsider asks for an update of the cluster. *)
Lemma cluster_changes_witness :
  let req := demo_request "token_2" "{}" in
  (ClusterLifecycle.updateCluster DemoDns.client geocoder "alpha" req sample).1
    = Ok (failure 403 "User not authorized") ∧
  wp (ClusterLifecycle.updateCluster DemoDns.client geocoder "alpha" req)
    (guard sample (made_by sample (token_of req) (λ u, owns_named sample u "alpha"))) sample.
Proof.
  intros req. split; [vm_compute; reflexivity|].
  exact (proj1 (proj2 (cluster_changes_need_authority DemoDns.client geocoder 5 "cluster_2" "alpha"
    "group_1" req sample sample_inv))).
Defined.

(** No row names a guest. *)
Definition no_guests (w : World) : bool :=
  forallb (λ p, match p.2 !! "groupID" with Some _ => false | None => true end)
    (map_to_list (table w SLATE_clusters)).

Lemma no_guests_proper w : no_guests w = true → guests_proper w.
Proof.
  intros Hn k it v Hk Hv. unfold no_guests in Hn. rewrite forallb_forall in Hn.
  assert (Hin : In (k, it) (map_to_list (table w SLATE_clusters))).
  { apply list_elem_of_In. by apply elem_of_map_to_list. }
  specialize (Hn _ Hin). cbn [snd] in Hn. revert Hn. by case_match; simplify_eq.
Qed.

(** The member of the group registers another cluster. *)
Lemma createCluster_witness :
  let req := demo_request "token_1" "{}" in
  wp (createCluster DemoDns.client "cluster_2" req)
    (cluster_created "cluster_2" req sample) sample ∧
  (match (createCluster DemoDns.client "cluster_2" req sample).1 with
   | Ok r => code r | _ => None end) = Some 200%Z.
Proof.
  intros req. split; [|vm_compute; reflexivity].
  apply (createCluster_correct DemoDns.client "cluster_2" req sample sample_inv sample_healthy).
  - apply no_guests_proper. vm_compute. reflexivity.
  - split; reflexivity.
  - intros x Hx. apply (h_clusters _ _ _ _ _ sample_holds) in Hx.
    apply list_elem_of_singleton in Hx. subst x. discriminate.
Defined.

(** ** Deleting the cluster on which an application is installed *)

(** Where there are no records of a kind, they are in order. *)
Lemma vault_without (T : Type) `{WT : !Ward T} w :
  VaultInv ApplicationInstance.t w → ward_inv (T := T) w → (∀ x : T, ¬ held w x) → VaultInv T w.
Proof.
  intros [Hf _ _ Hc _] Hw Hn. split; [done|done| |done|].
  - intros x Hx. by destruct (Hn x).
  - intros x c Hx. by destruct (Hn x).
Qed.

Lemma installed_house : House installed_world.
Proof.
  split.
  - exact (proj1 installed_facts).
  - apply vault_without; [exact (proj1 installed_facts)| |].
    + apply (no_secrets_inv installed_world); vm_compute; reflexivity.
    + intros x. apply (no_secret installed_world x). vm_compute. reflexivity.
  - apply vault_without; [exact (proj1 installed_facts)| |].
    + apply (no_volumes_inv installed_world); vm_compute; reflexivity.
    + intros x. apply (no_volume installed_world x). vm_compute. reflexivity.
  - apply no_guests_proper. vm_compute. reflexivity.
  - exact (proj2 installed_facts).
Qed.

Lemma no_more_pages (d : Mem.db) t f w n :
  rows d t = rows (db w) t → length (Mem.scan_list (db w) t f None) < n →
  pages_left d t f None < n.
Proof.
  intros Hd. rewrite pages. unfold Mem.scan_list. change (Mem.rows_of d t) with (rows d t).
  by rewrite Hd.
Qed.

(** The tools find the cluster and take the release away. *)
Definition gone_output : string := join Text.newline ["default "; printed].

Lemma deleteCluster_witness :
  let req := demo_request "token_1" "" in
  (ClusterLifecycle.deleteCluster (PR := printing gone_output) DemoDns.client 5 "alpha" req
     installed_world).1 = Ok done_reply ∧
  wp (ClusterLifecycle.deleteCluster (PR := printing gone_output) DemoDns.client 5 "alpha" req)
    (cluster_deleted "alpha" req installed_world) installed_world.
Proof.
  intros req. split; [vm_compute; reflexivity|].
  apply (deleteCluster_correct (PL := printing_laws gone_output) DemoDns.client 5 "alpha" req installed_world
    installed_house).
  - discriminate.
  - intros Ht. exfalso. revert Ht. vm_compute. discriminate.
  - intros d Hd. apply (no_more_pages d _ _ installed_world 5 Hd). vm_compute. lia.
  - intros d Hd. apply (no_more_pages d _ _ installed_world 5 Hd). vm_compute. lia.
Defined.
End cluster_sample.
